(* ===== verification/_CoqProject ===== *)
-Q . S2P
Prelude.v
RelayFrames.v
RelayConn.v
Types.v
Udp.v
Noq.v
Identity.v
State.v
StateInv.v
Drain.v
DrainInv.v
Rely.v
Redial.v
Pump.v
PumpInv.v
PumpTheory.v
Connection.v
Streams.v
StreamsInv.v
Endpoint.v
EndpointInv.v
Webrtc.v
System.v
Table.v
Lifecycle.v
Wakeups.v
Select.v
Methods.v
Text.v
PingDemo.v
PingTheory.v
ExecModel.v
Spikes.v
Prog.v
Demo.v
Cli.v
SpikeRuns.v
PingRun.v
DemoProbes.v
Drivers.v
Native.v
DemoLogic.v
NativeTheory.v
DemoTheory.v
DemoProbesTheory.v
DemoEnds.v
DemoEndpoint.v
DriversTheory.v
DemoExamples.v
DriverExamples.v
Examples.v
HostExamples.v
