(* ===== verification/Prelude.v ===== *)
(** * polymorph-iroh: a verified model of the iroh endpoint component

    The repository implements iroh's endpoint (peer-to-peer QUIC connections
    addressed by public key, over a relay, over UDP or over a WebRTC data
    channel) as a WebAssembly component on top of the sans-I/O QUIC
    implementation noq-proto, with a demo of it, the hosts that run the demo, a
    native peer to test it against, and experiments. This library translates the
    Rust code into executable definitions and proves what makes it correct.

    ** The program's parts and how they interact

    One task, the pump ([pump] in [endpoint/src/endpoint_impl.rs]), moves
    datagrams between noq and the wires: the relay connections
    ([core/src/relay.rs], framed by [core/src/relay_frames.rs]), the UDP socket
    ([endpoint/src/udp.rs]) and the WebRTC channels ([endpoint/src/webrtc.rs]).
    It shares one [State] with the resources the component exports (endpoint,
    connection, send and receive stream) and with the signaling sessions. All
    run on one thread and interleave at awaits only; they meet in [State], wake
    each other through its wakers, and connections are named by a slab handle
    and the epoch it was minted under. Standin addresses let noq address peers
    by SocketAddr, and the route table says which wire a standin is on.

    ** Files and what they model

    - [Prelude]: this file. Functional record update, machine integers, the
      [Result] and [Run] monads, byte strings, list and option lemmas, the hint
      databases and tactics all components share.
    - [RelayFrames] ([core/src/relay_frames.rs]): tags, the varint tag splitter,
      every encoder and decoder. [RelayConn] ([core/src/relay.rs]): the URL, the
      challenge handshake, sending, receiving, the liveness probe.
    - [Types]: the WIT data types, socket addresses and std's address parser.
      [Udp] ([endpoint/src/udp.rs]): the direct path.
    - [Noq]: the interface to noq-proto: class [Noq] (its calls), [NoqLaws],
      [HandshakeLaws] and [StreamLaws] (the documented behaviour the proofs rely
      on), and an executable instance [Toy] that satisfies all three.
    - [Identity] ([core/src/crypto/sign.rs], [core/src/tls.rs],
      [endpoint/src/identity.rs]): the constructors, signing, TLS
      configurations; the key libraries are class [Crypto] with [SpkiLaws], and
      rustls's traits are classes [Signer] and [SigningKey].
    - The endpoint ([endpoint/src/endpoint_impl.rs]), by component: [State] (the
      shared state and its operations), [Drain] (driving noq to quiescence,
      event handling, datagram input, timeouts, closing), [Redial] (backoff),
      [Pump] (the task as a transition system, one rule per await and per arm of
      its select), [Connection], [Streams] and [Endpoint] (the resources: each
      async method is split at its awaits, into the call, the check its
      [wait_until] polls, and what dropping the future does).
    - [Webrtc] ([endpoint/src/webrtc.rs]): channel wires, signaling sessions,
      offer and answer.
    - [StateInv], [DrainInv], [PumpInv], [StreamsInv], [EndpointInv]: invariants,
      their preservation, and the components' contracts. [Rely]: the interface
      between the tasks, i.e. what the pump assumes of the others' state
      changes. [PumpTheory]: what holds of the pump in every reachable state.
    - [System]: the whole endpoint as one transition system ([world]): pump
      steps interleaved with every operation of every resource; it discharges
      the pump's assumptions. [Table]: each of its steps decomposed into actions
      on the connection table. [Lifecycle]: the abstract machine of one
      connection ([life_step]), refined by every run of the system. [Wakeups]:
      whom each step wakes, and what kicks the pump. [Select]: the pump's select
      as one poll, its arms tried in order, each a step of [Pump]. [Methods]:
      [connect] and [accept] from call to return, their stretches between awaits
      composed with the system's steps.
    - [Text]: the standard library's integers from text, slices of text and
      trimming. [Prog]: programs over an interface of calls ([Iface]) that an
      arbitrary [Host] answers, and the logic of the traces they may leave.
    - The demo ([endpoint-demo/src/lib.rs]): [Demo] (its two roles, programs over
      the calls of the endpoint's interface, [Api.call]), [DemoProbes] (its probes
      of the failure paths, its entry point [run]), [DemoLogic] (rules for its
      loops), [DemoTheory], [DemoProbesTheory] and [DemoEnds] (what a reported
      success says of the calls made, and that every run ends), [DemoExamples]
      (runs against an executable host). [DemoEndpoint]: the interface between
      the demo and the component ([EndpointHost]: every call is a run of the
      endpoint's system, a dial or an accept one of its method), and the demo's
      run on it; [HostExamples]: a host that satisfies it.
    - The hosts ([host-wasmtime/src]): [Cli] (the command lines of the demo's
      driver, [HostCli], and of the native peer, [PeerCli]), [Drivers] (engine,
      linker and store setup, and both drivers' [main], over the calls of wasmtime
      and the guests), [DriversTheory].
    - The native peer ([tools/iroh-peer/src/main.rs]): [Native] and
      [NativeTheory].
    - The experiments ([experiments/*/guest/src]): [PingDemo], [PingTheory] (the
      browser demo's guest: its protocols and its state) and [PingRun] (its tasks
      as programs over the calls they make), [ExecModel] (the execution-model probes: the
      guest, and the driver's consumer in [host-wasmtime/src/bin/exec-model.rs]),
      [Spikes] and [SpikeRuns] (the relay and blob spikes).
    - [Examples], [DriverExamples]: concrete runs; most apply a theorem where its
      hypotheses hold.

    ** How code is translated

    Definitions keep the source's names. Mutation is state passing; an [Rc] is
    an address into a store; calls leaving the state (wakes, closes, spawned
    tasks) go to an effects log, bytes handed to wires to [sent]. [Result] is
    Rust's; [Run] adds [Panic] (an index or slice out of range) and [OutOfFuel].
    A hash map is a [gmap] and its iteration order an argument, constrained to a
    permutation of its entries. Integers are [Z] with explicit wrap-around
    ([wrap32], [wrap64]); durations are nanoseconds. What third parties decide
    (noq, sockets, the relay's bytes, clocks, random bytes) is an argument or a
    class with named laws.

    ** Fuel

    The drain's loops ([drain_loop] and the loops inside) take fuel. [NoqLaws]
    bounds by [work] what polling a connection can still yield; fuel above the
    largest [work] in the table always suffices ([drain_correct]), such fuel
    exists for every state ([enough_fuel]), and more fuel never changes a result
    ([drain_order_le]), so the pump's rule may take any fuel that yields one.
    [write_loop] gets the bytes left to write, which bound its turns. The demo's
    reading loops take fuel, and [demo_terminates] shows that enough exists
    against every host whose streams are finite. The probes' writer ([fill]) ends
    within a turn per chunk and two more ([stream_probe_agrees]), the migration's
    wait within 302 polls ([await_migration_ends]); the ping demo's reader takes
    the bytes that have arrived, plus one, and its session's loop a turn for each
    datagram its page has left, plus one ([session_halts]).

    ** What the theorems show

    - The pump: the home relay is always watched over or being redialed; exactly
      one receive is in flight per relay and per channel; it never panics or
      sticks; it ends only on close, in time, with nothing in flight.
    - Wake-ups: a parked task is woken by whatever changes what it waits for, and
      the pump never sleeps on queued work; a poll of its select ends its sleep
      exactly when something is ready.
    - The drain terminates, routes by the current wire and loses no wake-up;
      inbound datagrams touch only the addressed connection and respect the
      backlog; identities are checked before a connection counts as connected.
    - Connections over whole runs: refinement of the abstract machine, forward
      lifecycles, accepted at most once, backlog at most 16.
    - Resources: dialing, accepting, relay claims, bind's errors, stream writes
      and reads (exactly their bytes, exclusive, ends latched), path watching.
    - The demo: whatever the endpoint does, a success it reports means that the
      calls it made had the outcomes it is there to check; all its runs end. On
      the modelled endpoint its runs stay in the system's states, and the
      connections it is handed are authenticated and distinct.
    - Wires: frame round trips, handshake authentication, liveness detection,
      backoff bounds, signaling bounds and sessions.
    - The shared state: it stays well typed in every run of the whole system.
    - The drivers: command lines round trip; a driver ends well exactly as the
      demo it runs does; the peer's client and the demo's server agree on exactly
      the messages that survive the server's transform.
    - The experiments: the ping demo's ferry delivers the page's frames whole and
      in order, a session's program implements that ferry and ends with its page
      or connection, the host runs one session at a time, uploads and downloads
      carry the file; the stream probe's two sides name the same bytes; the spikes'
      sides are in step.

    ** Not modelled

    Generated bindings and module glue ([endpoint/src/lib.rs]), logging setup,
    [Debug] instances, what noq makes of its transport profile, and the tests.
    noq-proto, rustls, webcrypto, ed25519-dalek, the websocket, the sockets, the
    peer connection, wasmtime, the upstream iroh and iroh-blobs crates, serde and
    the floating-point formatting of a rate are parameters. *)
From stdpp Require Export base tactics countable strings list gmap fin_maps relations.
From Stdlib Require Import Strings.Byte.
From Stdlib Require Export ZArith Lia.

#[export] Set Warnings "-postfix-notation-not-level-1,-clear-no-such-hyp".
Open Scope Z_scope.

Declare Scope iroh_scope.
Delimit Scope iroh_scope with iroh.
Open Scope iroh_scope.

(** The development's hint databases: [iroh] holds the preservation lemmas
    that [eauto with iroh] chains, [irohr] the equations that
    [autorewrite with irohr] normalises with. *)
Create HintDb iroh discriminated.
Create Rewrite HintDb irohr.

(** [lia] with the equations of [/] and [mod] by constants. *)
Ltac dlia := zify; Z.to_euclidean_division_equations; lia.

(** * Functional record update

    [r <| f ::= g |>] replaces the field [f] of [r] by [g (f r)]. A record type
    registers the eta-expansion of its constructor as an [Eta] instance; the
    setter of a field is found by abstracting that field in the expansion. *)
Class Eta (R : Type) := eta_of : R -> R.

Class FieldUpd {R T : Type} (proj : R -> T) := field_upd : (T -> T) -> R -> R.

Ltac head_of t := lazymatch t with ?f _ => head_of f | _ => t end.

Ltac make_field_upd :=
  match goal with
  | |- @FieldUpd ?R ?T ?proj =>
      let e := constr:(eta_of : R -> R) in
      let e := eval cbv [eta_of] in e in
      let h := head_of e in
      let e := eval cbv beta delta [h] in e in
      let e := eval pattern proj in e in
      match e with
      | (fun _ => ?b) proj => fail 1 "not a field of the record"
      | ?body proj =>
          let u := constr:(fun (g : T -> T) (r : R) => body (fun x : R => g (proj x)) r) in
          let u := eval cbv beta in u in
          exact u
      end
  end.

#[export] Hint Mode FieldUpd + + + : typeclass_instances.
#[export] Hint Extern 0 (FieldUpd _) => make_field_upd : typeclass_instances.

Notation "r <| f ::= g |>" := (field_upd (proj := f) g r)
  (at level 12, left associativity, format "r  <|  f  ::=  g  |>") : iroh_scope.
Notation "r <| f := v |>" := (field_upd (proj := f) (fun _ => v) r)
  (at level 12, left associativity, format "r  <|  f  :=  v  |>") : iroh_scope.

(** * Machine integers

    A [w]-bit unsigned integer is a [Z]; [wrap_w] is the wrap-around of the
    release profile's arithmetic and of [as] casts. *)
Definition u8_max : Z := 2 ^ 8 - 1.
Definition u16_max : Z := 2 ^ 16 - 1.
Definition u32_max : Z := 2 ^ 32 - 1.
Definition u64_max : Z := 2 ^ 64 - 1.
Definition wrap16 (z : Z) : Z := z mod 2 ^ 16.
Definition wrap32 (z : Z) : Z := z mod 2 ^ 32.
Definition wrap64 (z : Z) : Z := z mod 2 ^ 64.

Lemma wrap32_small z : 0 <= z < 2 ^ 32 -> wrap32 z = z.
Proof. intros. by apply Z.mod_small. Qed.
Lemma wrap64_small z : 0 <= z < 2 ^ 64 -> wrap64 z = z.
Proof. intros. by apply Z.mod_small. Qed.
Lemma wrap32_range z : 0 <= wrap32 z < 2 ^ 32.
Proof. apply Z.mod_pos_bound. lia. Qed.
Lemma wrap64_range z : 0 <= wrap64 z < 2 ^ 64.
Proof. apply Z.mod_pos_bound. lia. Qed.

(** * Time

    [Instant] is nanoseconds on the monotonic clock and [Duration] nanoseconds.
    Both stay far below their representable maxima in every definition that
    adds to them. *)
Abbreviation Instant := Z (only parsing).
Abbreviation Duration := Z (only parsing).
Definition from_nanos (n : Z) : Duration := n.
Definition from_millis (n : Z) : Duration := n * 1000000.
Definition from_secs (n : Z) : Duration := n * 1000000000.

(** [Instant::saturating_duration_since] (and [elapsed], which saturates the
    same way): an earlier clock reading gives zero. *)
Definition duration_since (now earlier : Instant) : Duration := Z.max 0 (now - earlier).

(** * Bytes *)
Abbreviation byte := Byte.byte.

#[export] Instance byte_eq_dec : EqDecision byte := Byte.byte_eq_dec.

#[export] Program Instance byte_countable : Countable byte :=
  inj_countable Byte.to_N Byte.of_N _.
Next Obligation. intros b. apply Byte.of_to_N. Qed.

Definition b2z (b : byte) : Z := Z.of_N (Byte.to_N b).
(** [z as u8]. *)
Definition z2b (z : Z) : byte := default Byte.x00 (Byte.of_N (Z.to_N (z mod 256))).

Lemma b2z_range b : 0 <= b2z b < 256.
Proof. unfold b2z. pose proof (Byte.to_N_bounded b). lia. Qed.

Lemma z2b_b2z b : z2b (b2z b) = b.
Proof.
  unfold z2b. rewrite Z.mod_small by apply b2z_range.
  unfold b2z. by rewrite N2Z.id, Byte.of_to_N.
Qed.

Lemma b2z_z2b z : b2z (z2b z) = z mod 256.
Proof.
  unfold z2b. pose proof (Z.mod_pos_bound z 256 ltac:(lia)) as Hb.
  destruct (Byte.of_N (Z.to_N (z mod 256))) as [b|] eqn:E; simpl.
  - apply Byte.to_of_N in E. unfold b2z. rewrite E. lia.
  - apply Byte.of_N_None_iff in E. lia.
Qed.

Lemma b2z_inj b1 b2 : b2z b1 = b2z b2 -> b1 = b2.
Proof. intros H. by rewrite <- (z2b_b2z b1), H, z2b_b2z. Qed.

Abbreviation bytes := (list byte).

(** A Rust [String] or [&str] is the Rocq string of its UTF-8 bytes. *)
Definition str_bytes (s : string) : bytes := String.list_byte_of_string s.
Definition bytes_str (l : bytes) : string := String.string_of_list_byte l.

Lemma str_bytes_inv s : bytes_str (str_bytes s) = s.
Proof. apply String.string_of_list_byte_of_string. Qed.
Lemma bytes_str_inv l : str_bytes (bytes_str l) = l.
Proof. apply String.list_byte_of_string_of_list_byte. Qed.

(** Little-endian bytes of an integer ([to_le_bytes]) and their value
    ([from_le_bytes]); [be_value] reads big-endian. *)
Fixpoint le_bytes (n : nat) (z : Z) : bytes :=
  match n with
  | O => []
  | S n => z2b z :: le_bytes n (z / 256)
  end.
Fixpoint le_value (l : bytes) : Z :=
  match l with
  | [] => 0
  | b :: l => b2z b + 256 * le_value l
  end.
Definition be_value (l : bytes) : Z := foldl (fun acc b => acc * 256 + b2z b) 0 l.

Lemma length_le_bytes n z : length (le_bytes n z) = n.
Proof. revert z. induction n; simpl; congruence. Qed.

Lemma le_value_le_bytes n z : le_value (le_bytes n z) = z mod 256 ^ Z.of_nat n.
Proof.
  revert z. induction n as [|n IH]; intros z; cbn [le_bytes le_value].
  - simpl. by rewrite Z.mod_1_r.
  - rewrite IH, b2z_z2b, Nat2Z.inj_succ, Z.pow_succ_r by lia.
    assert (0 < 256 ^ Z.of_nat n) by (apply Z.pow_pos_nonneg; lia).
    rewrite Z.rem_mul_r by lia. lia.
Qed.

Lemma le_value_range l : 0 <= le_value l < 256 ^ Z.of_nat (length l).
Proof.
  induction l as [|b l IH]; cbn [le_value length]; [simpl; lia|].
  rewrite Nat2Z.inj_succ, Z.pow_succ_r by lia.
  pose proof (b2z_range b). lia.
Qed.

Lemma be_value_from acc l :
  foldl (fun acc b => acc * 256 + b2z b) acc l = acc * 256 ^ Z.of_nat (length l) + be_value l.
Proof.
  revert acc. induction l as [|b l IH]; intros acc.
  - unfold be_value. simpl. lia.
  - unfold be_value. cbn [foldl length].
    rewrite (IH (acc * 256 + _)), (IH (0 * 256 + _)), Nat2Z.inj_succ, Z.pow_succ_r by lia. lia.
Qed.

Lemma be_value_cons b l : be_value (b :: l) = b2z b * 256 ^ Z.of_nat (length l) + be_value l.
Proof. unfold be_value at 1. cbn [foldl]. rewrite be_value_from. lia. Qed.

Lemma be_value_range l : 0 <= be_value l < 256 ^ Z.of_nat (length l).
Proof.
  induction l as [|b l IH]; [simpl; unfold be_value; simpl; lia|].
  rewrite be_value_cons. cbn [length]. rewrite Nat2Z.inj_succ, Z.pow_succ_r by lia.
  pose proof (b2z_range b). nia.
Qed.

(** Shifting in a byte is multiplying by 256 and adding it. *)
Lemma shift_in_byte v b : Z.lor (Z.shiftl v 8) (b2z b) = v * 256 + b2z b.
Proof.
  pose proof (b2z_range b) as Hb.
  pose proof (Z.add_lor_land (Z.shiftl v 8) (b2z b)) as Hsum.
  rewrite Z.shiftl_mul_pow2 in * by lia.
  enough (Z.land (v * 2 ^ 8) (b2z b) = 0) by lia.
  apply Z.bits_inj'. intros n Hn. rewrite Z.land_spec, Z.bits_0.
  destruct (decide (n < 8)).
  - by rewrite Z.mul_pow2_bits_low.
  - rewrite andb_comm. replace (Z.testbit (b2z b) n) with false; [done|].
    symmetry. destruct (decide (b2z b = 0)) as [->|]; [apply Z.bits_0|].
    apply Z.bits_above_log2; [lia|]. apply Z.log2_lt_pow2; [lia|].
    apply Z.lt_le_trans with (2 ^ 8); [lia|]. apply Z.pow_le_mono_r; lia.
Qed.

(** ** Fixed-size arrays

    [array n] is Rust's [[u8; n]]: a byte list of length [n]. The length proof
    is a boolean, so equality of arrays is equality of their bytes. *)
Record array (n : nat) := Array {
  array_bytes : bytes;
  array_len : bool_decide (length array_bytes = n);
}.
Arguments Array {n} _ _.
Arguments array_bytes {n} _.
Arguments array_len {n} _.

Lemma array_eq {n} (a b : array n) : array_bytes a = array_bytes b -> a = b.
Proof.
  destruct a as [la pa], b as [lb pb]; simpl. intros ->. f_equal. apply proof_irrel.
Qed.

Lemma array_length {n} (a : array n) : length (array_bytes a) = n.
Proof. exact (bool_decide_unpack _ (array_len a)). Qed.

(** [<[u8; n]>::try_from(slice)]. *)
Definition try_into (n : nat) (l : bytes) : option (array n) :=
  match decide (length l = n) with
  | left H => Some (Array l (bool_decide_pack _ H))
  | right _ => None
  end.

Lemma try_into_array {n} (a : array n) : try_into n (array_bytes a) = Some a.
Proof.
  unfold try_into. case_decide as H; [|by rewrite array_length in H].
  f_equal. by apply array_eq.
Qed.

Lemma try_into_Some n l a : try_into n l = Some a -> array_bytes a = l /\ length l = n.
Proof. unfold try_into. case_decide; intros; by simplify_eq/=. Qed.

Lemma try_into_None n l : try_into n l = None <-> length l <> n.
Proof. unfold try_into. case_decide; split; intros; congruence. Qed.

Lemma try_into_is_Some n l : length l = n -> exists a, try_into n l = Some a /\ array_bytes a = l.
Proof. intros H. unfold try_into. rewrite decide_True_pi with (HP := H). by eexists. Qed.

#[export] Instance array_eq_dec n : EqDecision (array n).
Proof.
  intros a b. destruct (decide (array_bytes a = array_bytes b)) as [H|H].
  - left. by apply array_eq.
  - right. by intros ->.
Defined.

#[export] Program Instance array_countable n : Countable (array n) :=
  inj_countable array_bytes (try_into n) _.
Next Obligation. intros n a. apply try_into_array. Qed.

(** The array holding [n] copies of [b]: concrete identities for examples. *)
Definition array_of (n : nat) (b : byte) : array n :=
  Array (replicate n b) (bool_decide_pack _ (length_replicate n b)).

(** * Results

    Rust's [Result]; [let? x := r in k] is the [?] operator. *)
Inductive Result (A E : Type) :=
| Ok (a : A)
| Err (e : E).
Arguments Ok {A E} _.
Arguments Err {A E} _.

#[export] Instance Result_eq_dec {A E} `{EqDecision A, EqDecision E} : EqDecision (Result A E).
Proof. solve_decision. Defined.

Definition result_bind {A B E} (r : Result A E) (k : A -> Result B E) : Result B E :=
  match r with Ok a => k a | Err e => Err e end.
Definition map_err {A E F} (f : E -> F) (r : Result A E) : Result A F :=
  match r with Ok a => Ok a | Err e => Err (f e) end.
Definition result_map {A B E} (f : A -> B) (r : Result A E) : Result B E :=
  match r with Ok a => Ok (f a) | Err e => Err e end.
Definition ok_or {A E} (e : E) (o : option A) : Result A E :=
  match o with Some a => Ok a | None => Err e end.
Definition is_err {A E} (r : Result A E) : bool :=
  match r with Ok _ => false | Err _ => true end.

Notation "'let?' x ':=' r 'in' k" := (result_bind r (fun x => k))
  (at level 10, x pattern, k at level 200) : iroh_scope.

(** The outcome of a code path: the value, a panic, or a loop whose fuel ran
    out. *)
Inductive Run (A : Type) :=
| Done (a : A)
| Panic
| OutOfFuel.
Arguments Done {A} _.
Arguments Panic {A}.
Arguments OutOfFuel {A}.

Definition run_bind {A B} (r : Run A) (k : A -> Run B) : Run B :=
  match r with Done a => k a | Panic => Panic | OutOfFuel => OutOfFuel end.
Notation "'let!' x ':=' r 'in' k" := (run_bind r (fun x => k))
  (at level 10, x pattern, k at level 200) : iroh_scope.

(** [r'] has every value [r] has: how a run grows with its fuel. *)
Definition run_le {A} (r r' : Run A) : Prop := forall a, r = Done a -> r' = Done a.

#[export] Instance run_le_refl {A} : Reflexive (@run_le A).
Proof. by intros r a. Qed.

Lemma run_bind_le {A B} (r r' : Run A) (k k' : A -> Run B) :
  run_le r r' -> (forall a, run_le (k a) (k' a)) -> run_le (run_bind r k) (run_bind r' k').
Proof.
  intros Hr Hk b. destruct r as [a| |]; simpl; try done. rewrite (Hr a eq_refl). apply Hk.
Qed.

(** The slice [&buf[..n]] panics past the end. *)
Definition slice_to (n : nat) (l : bytes) : Run bytes :=
  if decide (n <= length l)%nat then Done (take n l) else Panic.

(** The slice [&buf[n..]] panics past the end. *)
Definition slice_from (n : nat) (l : bytes) : Run bytes :=
  if decide (n <= length l)%nat then Done (drop n l) else Panic.

(** * [String::from_utf8_lossy]

    [utf8_chunk l] looks at the front of [l]: [(true, n)] when its first [n]
    bytes are one well-formed scalar, [(false, n)] when they are a maximal
    ill-formed prefix, which the lossy decoder replaces by one U+FFFD. *)
Definition in_range (lo hi : Z) (b : byte) : bool := (lo <=? b2z b) && (b2z b <=? hi).
Definition is_cont (b : byte) : bool := in_range 0x80 0xBF b.

Definition byte_at (l : bytes) (i : nat) : byte := default Byte.x00 (l !! i).

(** The admissible second bytes for a three- or four-byte first byte. *)
Definition second_ok (first second : byte) : bool :=
  let f := b2z first in
  if f =? 0xE0 then in_range 0xA0 0xBF second
  else if f =? 0xED then in_range 0x80 0x9F second
  else if f =? 0xF0 then in_range 0x90 0xBF second
  else if f =? 0xF4 then in_range 0x80 0x8F second
  else is_cont second.

Definition utf8_width (first : byte) : nat :=
  if in_range 0x00 0x7F first then 1
  else if in_range 0xC2 0xDF first then 2
  else if in_range 0xE0 0xEF first then 3
  else if in_range 0xF0 0xF4 first then 4
  else 0.

Definition utf8_chunk (l : bytes) : bool * nat :=
  let first := byte_at l 0 in
  match utf8_width first with
  | 1%nat => (true, 1%nat)
  | 2%nat => if is_cont (byte_at l 1) then (true, 2%nat) else (false, 1%nat)
  | 3%nat =>
      if second_ok first (byte_at l 1) then
        if is_cont (byte_at l 2) then (true, 3%nat) else (false, 2%nat)
      else (false, 1%nat)
  | 4%nat =>
      if second_ok first (byte_at l 1) then
        if is_cont (byte_at l 2) then
          if is_cont (byte_at l 3) then (true, 4%nat) else (false, 3%nat)
        else (false, 2%nat)
      else (false, 1%nat)
  | _ => (false, 1%nat)
  end.

(** U+FFFD in UTF-8. *)
Definition replacement : bytes := [Byte.xef; Byte.xbf; Byte.xbd].

(** Each round consumes at least one byte, so [length l] rounds are enough. *)
Fixpoint lossy_fuel (fuel : nat) (l : bytes) : bytes :=
  match fuel, l with
  | S fuel, _ :: _ =>
      let '(ok, n) := utf8_chunk l in
      (if ok then take n l else replacement) ++ lossy_fuel fuel (drop n l)
  | _, _ => []
  end.
Definition from_utf8_lossy (l : bytes) : bytes := lossy_fuel (length l) l.

Fixpoint utf8_fuel (fuel : nat) (l : bytes) : bool :=
  match fuel, l with
  | S fuel, _ :: _ => let '(ok, n) := utf8_chunk l in ok && utf8_fuel fuel (drop n l)
  | _, [] => true
  | O, _ :: _ => false
  end.
(** [str::from_utf8(l).is_ok()]. *)
Definition is_utf8 (l : bytes) : bool := utf8_fuel (length l) l.

Lemma utf8_chunk_pos l : (1 <= (utf8_chunk l).2)%nat.
Proof. unfold utf8_chunk. repeat case_match; simpl; lia. Qed.

Lemma lossy_valid_fuel fuel l :
  (length l <= fuel)%nat -> utf8_fuel fuel l = true -> lossy_fuel fuel l = l.
Proof.
  revert l. induction fuel as [|fuel IH]; intros [|b l] Hf; simpl in Hf; try done; try lia.
  cbn [utf8_fuel lossy_fuel]. pose proof (utf8_chunk_pos (b :: l)) as Hp.
  destruct (utf8_chunk (b :: l)) as [[|] n]; simpl in Hp; [|done].
  rewrite andb_true_l. intros Hv. rewrite IH; [by rewrite take_drop| |done].
  rewrite length_drop. simpl. lia.
Qed.

(** Valid text is decoded unchanged. *)
Lemma from_utf8_lossy_valid l : is_utf8 l = true -> from_utf8_lossy l = l.
Proof. by apply lossy_valid_fuel. Qed.
