(* ===== verification/RelayFrames.v ===== *)
(** The relay wire framing of [core/src/relay_frames.rs]: frame tags, the
    QUIC-varint tag splitter, the frame encoders and the datagram decoder.
    postcard, which serialises the two handshake payloads, is a parameter. *)
From S2P Require Import Prelude.

Module tag.
Definition SERVER_CHALLENGE : Z := 0.
Definition CLIENT_AUTH : Z := 1.
Definition SERVER_CONFIRMS_AUTH : Z := 2.
Definition SERVER_DENIES_AUTH : Z := 3.
Definition CLIENT_TO_RELAY_DATAGRAM : Z := 4.
Definition CLIENT_TO_RELAY_DATAGRAM_BATCH : Z := 5.
Definition RELAY_TO_CLIENT_DATAGRAM : Z := 6.
Definition RELAY_TO_CLIENT_DATAGRAM_BATCH : Z := 7.
Definition ENDPOINT_GONE : Z := 8.
Definition PING : Z := 9.
Definition PONG : Z := 10.
Definition HEALTH : Z := 11.
Definition RESTARTING : Z := 12.
Definition STATUS : Z := 13.
End tag.

Definition CHALLENGE_DOMAIN : string := "iroh-relay handshake v1 challenge signature".
Definition SUBPROTOCOLS : list string := ["iroh-relay-v2"; "iroh-relay-v1"]%string.
Definition RELAY_PATH : string := "/relay".

Abbreviation EndpointId := (array 32).

(** [split_tag]: the first byte's two top bits give the varint's length, its
    six low bits the most significant part of the value. *)
Definition split_tag (frame : bytes) : option (Z * bytes) :=
  match frame with
  | [] => None
  | first :: _ =>
      let len := Z.to_nat (Z.shiftl 1 (Z.shiftr (b2z first) 6)) in
      if decide (length frame < len)%nat then None
      else
        let value := foldl (fun v b => Z.lor (Z.shiftl v 8) (b2z b))
                           (Z.land (b2z first) 0x3f) (take (len - 1) (drop 1 frame)) in
        Some (value, drop len frame)
  end.

Record Datagram := MkDatagram {
  source : EndpointId;
  payload : bytes;
}.

#[export] Instance Datagram_eq_dec : EqDecision Datagram.
Proof. solve_decision. Defined.

Definition encode_client_datagram (dst : EndpointId) (payload : bytes) : bytes :=
  z2b tag.CLIENT_TO_RELAY_DATAGRAM :: array_bytes dst ++ z2b 0 :: payload.

Definition encode_pong (payload : array 8) : bytes := z2b tag.PONG :: array_bytes payload.
Definition encode_ping (payload : array 8) : bytes := z2b tag.PING :: array_bytes payload.

(** [slice::chunks(n)]: runs of [n] elements, the last one possibly shorter.
    Each run takes at least one byte, so [length l] rounds are enough. *)
Fixpoint chunks_fuel (fuel : nat) (n : nat) (l : bytes) : list bytes :=
  match fuel, l with
  | S fuel, _ :: _ => take n l :: chunks_fuel fuel n (drop n l)
  | _, _ => []
  end.
Definition chunks (n : nat) (l : bytes) : list bytes := chunks_fuel (length l) n l.

Definition decode_relay_datagrams (payload : bytes) (batch : bool) : option (list Datagram) :=
  src ← (if decide (32 <= length payload)%nat then try_into 32 (take 32 payload) else None);
  let rest := drop 32 payload in
  if batch then
    match rest with
    | _ :: hi :: lo :: contents =>
        let segment_size := be_value [hi; lo] in
        if segment_size =? 0 then None
        else Some (map (MkDatagram src) (chunks (Z.to_nat segment_size) contents))
    | _ => None
    end
  else
    match rest with
    | _ :: contents => Some [MkDatagram src contents]
    | [] => None
    end.

Section Postcard.
(** [postcard::to_extend] of the borrowed [ClientAuth] struct, and
    [postcard::from_bytes::<String>]. *)
Context (postcard_client_auth : EndpointId -> bytes -> bytes).
Context (postcard_string : bytes -> option bytes).

Definition encode_client_auth (public_key : EndpointId) (signature : array 64) : bytes :=
  z2b tag.CLIENT_AUTH :: postcard_client_auth public_key (array_bytes signature).

Definition decode_denial_reason (payload : bytes) : bytes :=
  match postcard_string payload with
  | Some reason => reason
  | None => from_utf8_lossy payload
  end.
End Postcard.

(** ** The tag splitter *)

(** The length in bytes a varint's first byte announces: 1, 2, 4 or 8. *)
Definition varint_len (first : byte) : nat := Z.to_nat (2 ^ (b2z first / 64)).

Lemma varint_len_cases first :
  varint_len first = 1%nat \/ varint_len first = 2%nat \/
  varint_len first = 4%nat \/ varint_len first = 8%nat.
Proof.
  unfold varint_len. pose proof (b2z_range first).
  assert (b2z first / 64 = 0 \/ b2z first / 64 = 1 \/ b2z first / 64 = 2 \/ b2z first / 64 = 3)
    as [-> | [-> | [-> | ->]]] by dlia; auto.
Qed.

Lemma varint_len_eq first :
  Z.to_nat (Z.shiftl 1 (Z.shiftr (b2z first) 6)) = varint_len first.
Proof.
  unfold varint_len. pose proof (b2z_range first).
  rewrite Z.shiftr_div_pow2 by lia. change (2 ^ 6) with 64.
  rewrite Z.shiftl_mul_pow2 by dlia. f_equal. lia.
Qed.

Lemma split_tag_value first l :
  foldl (fun v b => Z.lor (Z.shiftl v 8) (b2z b)) (Z.land (b2z first) 0x3f) l
  = be_value (first :: l) mod (64 * 256 ^ Z.of_nat (length l)).
Proof.
  assert (forall acc, foldl (fun v b => Z.lor (Z.shiftl v 8) (b2z b)) acc l
                      = foldl (fun v b => v * 256 + b2z b) acc l) as ->.
  { induction l as [|b l IH]; intros acc; simpl; [done|]. by rewrite shift_in_byte. }
  rewrite be_value_from, be_value_cons.
  change 0x3f with (Z.ones 6). rewrite Z.land_ones by lia. change (2 ^ 6) with 64.
  pose proof (be_value_range l) as Hl. set (p := 256 ^ Z.of_nat (length l)) in *.
  rewrite (Z.div_mod (b2z first) 64) at 2 by lia.
  replace ((64 * (b2z first / 64) + b2z first mod 64) * p + be_value l)
    with (b2z first mod 64 * p + be_value l + (b2z first / 64) * (64 * p)) by lia.
  rewrite Z.mod_add by nia. symmetry. apply Z.mod_small.
  pose proof (Z.mod_pos_bound (b2z first) 64 ltac:(lia)). nia.
Qed.

(** [split_tag] in terms of the varint's first byte. *)
Lemma split_tag_cons first tl :
  split_tag (first :: tl) =
    if decide (length (first :: tl) < varint_len first)%nat then None
    else Some (be_value (take (varint_len first) (first :: tl))
                 mod 2 ^ (8 * Z.of_nat (varint_len first) - 2),
               drop (varint_len first) (first :: tl)).
Proof.
  unfold split_tag. rewrite varint_len_eq. pose proof (varint_len_cases first) as Hc.
  case_decide as Hlen; [done|]. rewrite split_tag_value.
  destruct (varint_len first) as [|n]; [lia|]. cbn [take drop length] in *.
  rewrite Nat.sub_succ, Nat.sub_0_r, drop_0, length_take, Nat.min_l by lia.
  do 3 f_equal. rewrite Nat2Z.inj_succ. change 64 with (2 ^ 6). change 256 with (2 ^ 8).
  rewrite <- Z.pow_mul_r, <- Z.pow_add_r by lia. f_equal. lia.
Qed.

(** The reference encoder of QUIC's variable-length integers (RFC 9000,
    section 16): the shortest of the four forms. *)
Fixpoint be_bytes (n : nat) (z : Z) : bytes :=
  match n with
  | O => []
  | S n => z2b (z / 256 ^ Z.of_nat n) :: be_bytes n z
  end.
Definition varint (v : Z) : bytes :=
  if v <? 2 ^ 6 then be_bytes 1 v
  else if v <? 2 ^ 14 then be_bytes 2 (1 * 2 ^ 14 + v)
  else if v <? 2 ^ 30 then be_bytes 4 (2 * 2 ^ 30 + v)
  else be_bytes 8 (3 * 2 ^ 62 + v).

Lemma length_be_bytes n z : length (be_bytes n z) = n.
Proof. induction n; simpl; congruence. Qed.

Lemma be_value_be_bytes n z : be_value (be_bytes n z) = z mod 256 ^ Z.of_nat n.
Proof.
  induction n as [|n IH]; cbn [be_bytes]; [by rewrite Z.mod_1_r|].
  rewrite be_value_cons, IH, length_be_bytes, b2z_z2b, Nat2Z.inj_succ, Z.pow_succ_r by lia.
  assert (0 < 256 ^ Z.of_nat n) by (apply Z.pow_pos_nonneg; lia).
  rewrite (Z.mul_comm 256), Z.rem_mul_r by lia. lia.
Qed.

(** A varint of [2^k] bytes whose top two bits are [k] splits off exactly. *)
Lemma split_tag_be_bytes (k n : nat) v rest :
  n = (2 ^ k)%nat -> (k <= 3)%nat -> 0 <= v < 2 ^ (8 * Z.of_nat n - 2) ->
  split_tag (be_bytes n (Z.of_nat k * 2 ^ (8 * Z.of_nat n - 2) + v) ++ rest) = Some (v, rest).
Proof.
  intros Hn Hk Hv. set (z := Z.of_nat k * _ + v).
  assert (n <> 0)%nat by (rewrite Hn; by apply Nat.pow_nonzero).
  assert (0 <= z < 256 ^ Z.of_nat n /\ z / (2 ^ (8 * Z.of_nat n - 2)) = Z.of_nat k) as [Hz Hq].
  { assert (256 ^ Z.of_nat n = 4 * 2 ^ (8 * Z.of_nat n - 2)) as ->.
    { change 4 with (2 ^ 2). change 256 with (2 ^ 8).
      rewrite <- Z.pow_mul_r, <- Z.pow_add_r by lia. f_equal. lia. }
    assert (0 < 2 ^ (8 * Z.of_nat n - 2)) by (apply Z.pow_pos_nonneg; lia).
    subst z. split; [nia|]. rewrite Z.div_add_l, Z.div_small by lia. lia. }
  destruct n as [|m]; [by destruct k as [|[|[|[|]]]]|]. cbn [be_bytes app].
  set (first := z2b (z / 256 ^ Z.of_nat m)).
  assert (b2z first / 64 = Z.of_nat k) as Hfirst.
  { subst first. rewrite b2z_z2b. rewrite Z.mod_small.
    - rewrite Z.div_div by (try apply Z.pow_pos_nonneg; lia). rewrite <- Hq. f_equal.
      change 256 with (2 ^ 8). change 64 with (2 ^ 6).
      rewrite <- Z.pow_mul_r, <- Z.pow_add_r by lia. f_equal. lia.
    - split; [apply Z.div_pos; [lia|apply Z.pow_pos_nonneg; lia]|].
      apply Z.div_lt_upper_bound; [apply Z.pow_pos_nonneg; lia|].
      rewrite Nat2Z.inj_succ, Z.pow_succ_r in Hz by lia. lia. }
  assert (varint_len first = S m) as Hlen.
  { unfold varint_len. rewrite Hfirst, Hn. by destruct k as [|[|[|[|]]]]; try lia. }
  rewrite split_tag_cons, Hlen. cbn [length take drop].
  rewrite decide_False by (rewrite length_app, length_be_bytes; lia).
  rewrite take_app_length', drop_app_length' by (by rewrite length_be_bytes).
  do 2 f_equal. change (first :: be_bytes m z) with (be_bytes (S m) z).
  rewrite be_value_be_bytes, (Z.mod_small z) by lia.
  subst z. rewrite Z.add_comm, Z.mod_add, Z.mod_small by lia. done.
Qed.

(** [split_tag] inverts QUIC's variable-length integer encoding: a frame
    made of the shortest encoding of any tag below 2^62 followed by a payload
    splits into exactly that tag and that payload. *)
Theorem split_tag_varint v rest :
  0 <= v < 2 ^ 62 -> split_tag (varint v ++ rest) = Some (v, rest).
Proof.
  intros Hv. unfold varint.
  destruct (Z.ltb_spec v (2 ^ 6)); [exact (split_tag_be_bytes 0 1 v rest eq_refl ltac:(lia) ltac:(simpl; lia))|].
  destruct (Z.ltb_spec v (2 ^ 14)); [exact (split_tag_be_bytes 1 2 v rest eq_refl ltac:(lia) ltac:(simpl; lia))|].
  destruct (Z.ltb_spec v (2 ^ 30)); [exact (split_tag_be_bytes 2 4 v rest eq_refl ltac:(lia) ltac:(simpl; lia))|].
  exact (split_tag_be_bytes 3 8 v rest eq_refl ltac:(lia) ltac:(simpl; lia)).
Qed.

Lemma split_tag_varint_witness :
  0 <= 15293 < 2 ^ 62 /\ split_tag (varint 15293 ++ [Byte.x2a]) = Some (15293, [Byte.x2a]).
Proof. split; [lia | apply (split_tag_varint 15293); lia]. Defined.

(** [split_tag] on every input: a result's tag and payload partition the
    frame at the length its first byte announces, the tag is the big-endian
    value of the head without the two length bits (so below 2^62: the [u64]
    accumulator never overflows), and only an empty or truncated frame is
    refused. *)
Theorem split_tag_spec frame :
  match split_tag frame with
  | Some (v, rest) =>
      exists first tl,
        frame = (first :: tl) ++ rest /\ length (first :: tl) = varint_len first /\
        v = be_value (first :: tl) mod 2 ^ (8 * Z.of_nat (varint_len first) - 2) /\
        0 <= v < 2 ^ 62
  | None =>
      frame = [] \/
      exists first tl, frame = first :: tl /\ (length frame < varint_len first)%nat
  end.
Proof.
  destruct frame as [|first tl]; [by left|]. rewrite split_tag_cons.
  pose proof (varint_len_cases first) as Hc. case_decide as Hlen; [right; eauto|].
  destruct (varint_len first) as [|n] eqn:Hn; [lia|]. cbn [take drop length] in *.
  exists first, (take n tl). cbn [app]. rewrite take_drop, Hn, length_take, Nat.min_l by lia.
  split_and!; [done..| |].
  - apply Z.mod_pos_bound, Z.pow_pos_nonneg; lia.
  - eapply Z.lt_le_trans; [apply Z.mod_pos_bound, Z.pow_pos_nonneg; lia|].
    apply Z.pow_le_mono_r; lia.
Qed.

(** ** The datagram decoder *)

Lemma chunks_fuel_spec fuel n l :
  (0 < n)%nat -> (length l <= fuel)%nat ->
  concat (chunks_fuel fuel n l) = l /\
  Forall (fun c => 0 < length c <= n)%nat (chunks_fuel fuel n l) /\
  (forall cs d, chunks_fuel fuel n l = cs ++ [d] -> Forall (fun c => length c = n) cs).
Proof.
  intros Hn. revert l. induction fuel as [|fuel IH]; intros [|b l] Hf; simpl in Hf; try lia.
  1,2: split_and!; [done|constructor|by intros [|? cs] d].
  cbn [chunks_fuel concat]. destruct (IH (drop n (b :: l))) as (Hc & Hall & Hlast).
  { rewrite length_drop. simpl. lia. }
  split_and!.
  - by rewrite Hc, take_drop.
  - constructor; [|done]. rewrite length_take. simpl. lia.
  - intros [|c cs] d [= <- Heq]; constructor; [|by eapply Hlast].
    rewrite length_take. destruct (decide (n <= length (b :: l))%nat); [lia|].
    rewrite drop_ge in Heq by lia. destruct fuel, cs; done.
Qed.

Lemma concat_payloads src cs : concat (map payload (map (MkDatagram src) cs)) = concat cs.
Proof. induction cs; simpl; congruence. Qed.

(** A well-formed relay-to-client payload: the sender, the ECN byte, for a
    batch the big-endian segment size, the contents. *)
Definition relay_single (src : EndpointId) (ecn : byte) (contents : bytes) : bytes :=
  array_bytes src ++ ecn :: contents.
Definition relay_batch (src : EndpointId) (ecn : byte) (segment : Z) (contents : bytes) : bytes :=
  array_bytes src ++ ecn :: be_bytes 2 segment ++ contents.

Lemma decode_source (src : EndpointId) rest :
  (32 <= length (array_bytes src ++ rest))%nat /\
  try_into 32 (take 32 (array_bytes src ++ rest)) = Some src /\
  drop 32 (array_bytes src ++ rest) = rest.
Proof.
  rewrite length_app, take_app_length', drop_app_length' by (by rewrite array_length).
  rewrite array_length, try_into_array. split_and!; [lia|done..].
Qed.

Lemma decode_relay_datagrams_src src rest batch :
  decode_relay_datagrams (array_bytes src ++ rest) batch =
  if batch then
    match rest with
    | _ :: hi :: lo :: contents =>
        if be_value [hi; lo] =? 0 then None
        else Some (map (MkDatagram src) (chunks (Z.to_nat (be_value [hi; lo])) contents))
    | _ => None
    end
  else match rest with
       | _ :: contents => Some [MkDatagram src contents]
       | [] => None
       end.
Proof.
  unfold decode_relay_datagrams. destruct (decode_source src rest) as (Hl & Ht & Hd).
  by rewrite decide_True, Ht, Hd by done.
Qed.

(** C33. Decoding a batch frame: for every segment size from 1 to 65535 the
    decoder attributes all datagrams to the frame's sender, their payloads
    concatenate to the contents (nothing lost, nothing duplicated, in order),
    none is empty or longer than the segment size, and all but the last have
    exactly that size. *)
Theorem decode_batch_roundtrip src ecn segment contents :
  0 < segment < 65536 ->
  exists ds,
    decode_relay_datagrams (relay_batch src ecn segment contents) true = Some ds /\
    Forall (fun d => source d = src) ds /\
    concat (map payload ds) = contents /\
    Forall (fun d => 0 < Z.of_nat (length (payload d)) <= segment) ds /\
    (forall ds' d, ds = ds' ++ [d] ->
       Forall (fun d => Z.of_nat (length (payload d)) = segment) ds').
Proof.
  intros Hs. unfold relay_batch. rewrite decode_relay_datagrams_src. cbn [be_bytes app].
  assert (be_value [z2b (segment / 256 ^ Z.of_nat 1); z2b (segment / 256 ^ Z.of_nat 0)] = segment)
    as ->.
  { pose proof (be_value_be_bytes 2 segment) as H. cbn [be_bytes] in H. rewrite H.
    apply Z.mod_small. change (256 ^ Z.of_nat 2) with 65536. lia. }
  rewrite (proj2 (Z.eqb_neq segment 0)) by lia.
  destruct (chunks_fuel_spec (length contents) (Z.to_nat segment) contents) as (Hc & Hall & Hlast);
    [lia..|].
  eexists. split_and!; [done| | | |].
  - apply Forall_fmap, Forall_true. done.
  - by rewrite concat_payloads.
  - apply Forall_fmap. eapply Forall_impl; [exact Hall|]. simpl. lia.
  - intros ds' d Heq. apply map_eq_app in Heq as (cs & cs' & Hcs & <- & Hcs').
    destruct cs' as [|c [|]]; simplify_eq/=. apply Forall_fmap.
    eapply Forall_impl; [exact (Hlast _ _ Hcs)|]. simpl. lia.
Qed.

Lemma decode_batch_roundtrip_witness :
  exists ds,
    decode_relay_datagrams
      (relay_batch (array_of 32 Byte.x19) Byte.x03 6 (str_bytes "Hello World!")) true = Some ds /\
    concat (map payload ds) = str_bytes "Hello World!".
Proof.
  destruct (decode_batch_roundtrip (array_of 32 Byte.x19) Byte.x03 6 (str_bytes "Hello World!"))
    as (ds & H1 & _ & H2 & _); [lia|]. by exists ds.
Defined.

(** The payloads [decode_relay_datagrams] refuses: too short for the sender
    and the header that follows, or a batch of zero-sized segments. *)
Definition malformed (payload : bytes) (batch : bool) : bool :=
  if batch then
    (length payload <? 35)%nat || (be_value (take 2 (drop 33 payload)) =? 0)
  else (length payload <? 33)%nat.

(** The decoder refuses exactly the malformed payloads, for single and
    batch frames alike; in particular it never reads past the payload's end. *)
Theorem decode_relay_datagrams_none payload batch :
  decode_relay_datagrams payload batch = None <-> malformed payload batch = true.
Proof.
  unfold malformed. destruct (decide (32 <= length payload)%nat) as [Hl|Hl].
  - destruct (try_into_is_Some 32 (take 32 payload)) as (src & _ & Hsrc).
    { rewrite length_take. lia. }
    rewrite <- (take_drop 32 payload), <- Hsrc, decode_relay_datagrams_src at 1.
    assert (length payload = 32 + length (drop 32 payload))%nat as -> by (rewrite length_drop; lia).
    replace (drop 33 payload) with (drop 1 (drop 32 payload)) by (by rewrite drop_drop).
    destruct batch, (drop 32 payload) as [|b0 [|b1 [|b2 l]]]; simpl; try done.
    rewrite take_0. by destruct (be_value [b1; b2] =? 0).
  - unfold decode_relay_datagrams. rewrite decide_False by done. simpl.
    destruct batch; split; intros; try done.
    + apply orb_true_iff. left. apply Nat.ltb_lt. lia.
    + apply Nat.ltb_lt. lia.
Qed.

(** ** Known-answer vectors of the module's tests *)

Definition KEY : EndpointId :=
  default (array_of 32 Byte.x00) (try_into 32
    [Byte.x19; Byte.x7f; Byte.x6b; Byte.x23; Byte.xe1; Byte.x6c; Byte.x85; Byte.x32;
     Byte.xc6; Byte.xab; Byte.xc8; Byte.x38; Byte.xfa; Byte.xcd; Byte.x5e; Byte.xa7;
     Byte.x89; Byte.xbe; Byte.x0c; Byte.x76; Byte.xb2; Byte.x92; Byte.x03; Byte.x34;
     Byte.x03; Byte.x9b; Byte.xfa; Byte.x8b; Byte.x3d; Byte.x36; Byte.x8d; Byte.x61]).

Example client_datagram_matches_upstream_snapshot :
  encode_client_datagram KEY (str_bytes "Hello World!") =
  Byte.x04 :: array_bytes KEY ++ Byte.x00 :: str_bytes "Hello World!".
Proof. vm_compute. reflexivity. Qed.

Example relay_datagram_decodes_upstream_batch :
  (split_tag (Byte.x07 :: relay_batch KEY Byte.x03 6 (str_bytes "Hello World!")) ≫=
   fun '(_, p) => decode_relay_datagrams p true) =
  Some [MkDatagram KEY (str_bytes "Hello "); MkDatagram KEY (str_bytes "World!")].
Proof. vm_compute. reflexivity. Qed.

Example ping_frame_snapshot :
  split_tag (encode_ping (array_of 8 Byte.x2a)) = Some (tag.PING, replicate 8 Byte.x2a).
Proof. vm_compute. reflexivity. Qed.

(** ** The handshake payloads *)
Section PostcardLayout.
Context (postcard_client_auth : EndpointId -> bytes -> bytes).
(** postcard's documented layout of [ClientAuth]: a fixed-size array is its
    bytes, a byte sequence its varint length and then its bytes (one length
    byte below 128). *)
Hypothesis postcard_layout : forall pk sig,
  (length sig < 128)%nat ->
  postcard_client_auth pk sig = array_bytes pk ++ z2b (Z.of_nat (length sig)) :: sig.

Lemma encode_client_auth_layout pk sig :
  encode_client_auth postcard_client_auth pk sig =
  Byte.x01 :: array_bytes pk ++ Byte.x40 :: array_bytes sig.
Proof.
  unfold encode_client_auth. rewrite postcard_layout by (rewrite array_length; lia).
  by rewrite array_length.
Qed.
End PostcardLayout.
