(* ===== verification/RelayConn.v ===== *)
(** The relay client of [core/src/relay.rs]: the websocket URL, the
    challenge handshake of [RelayConn::connect], datagram send and receive, and
    the liveness probe. The websocket is a stream of inbound results with the
    result of each send it provokes; an error is represented by its [Debug]
    rendering, the only thing the code does with it. *)
From stdpp Require Import pretty.
From S2P Require Import Prelude RelayFrames.

Inductive WsMessage :=
| WsBinary (frame : bytes)
| WsString (text : string).

Abbreviation WsError := string (only parsing).

Inductive ProbeStep :=
| Healthy
| Ping (data : array 8)
| Dead.

Record RelayConn := MkRelayConn {
  pending : list Datagram;
  last_inbound : Instant;
  probe : option Instant;
  probe_seq : Z;
  (** The websocket's close was initiated. *)
  ws_closed : bool;
}.
#[export] Instance RelayConn_eta : Eta RelayConn := fun c =>
  MkRelayConn (pending c) (last_inbound c) (probe c) (probe_seq c) (ws_closed c).

(** ** [relay_url] *)

(** [str::split_once(sep)]: at the first occurrence of a non-empty [sep]. *)
Fixpoint split_once (sep s : string) : option (string * string) :=
  if String.prefix sep s then
    Some (""%string, String.substring (String.length sep) (String.length s - String.length sep) s)
  else
    match s with
    | EmptyString => None
    | String c s' => '(a, b) ← split_once sep s'; Some (String c a, b)
    end.

(** The character ['/']. *)
Definition slash : Ascii.ascii := Ascii.ascii_of_nat 47.

(** [str::split(c).next()]: the text before the first [c]. *)
Fixpoint before (c : Ascii.ascii) (s : string) : string :=
  match s with
  | EmptyString => EmptyString
  | String a s' => if decide (a = c) then EmptyString else String a (before c s')
  end.

Section RelayUrl.
(** The [{:?}] rendering of a string, used in diagnostics only. *)
Context (debug_str : string -> string).

Definition relay_url (server : string) : Result string string :=
  match split_once "://" server with
  | None => Err ("relay url " +:+ debug_str server +:+ " has no scheme")
  | Some (scheme, rest) =>
      let ws_scheme :=
        if decide (scheme = "http" \/ scheme = "ws")%string then "ws"%string else "wss"%string in
      let host := before slash rest in
      if decide (host = "")%string
      then Err ("relay url " +:+ debug_str server +:+ " has no host")
      else Ok (ws_scheme +:+ "://" +:+ host +:+ RELAY_PATH)
  end.
End RelayUrl.

(** ** [RelayConn::connect] *)
Section Handshake.
Context (debug_str : string -> string).
Context (postcard_client_auth : EndpointId -> bytes -> bytes).
Context (postcard_string : bytes -> option bytes).
(** [blake3::derive_key] and [Identity::sign]. *)
Context (derive_key : string -> bytes -> array 32).
Context (sign : bytes -> Result bytes string).
Context (endpoint_id : EndpointId).

(** One inbound websocket result, and the result of the send that answers
    it, when the code makes one. *)
Definition Inbound : Type := Result WsMessage WsError * Result unit WsError.

(** What one inbound result does to the handshake: the frame sent, if any,
    and whether the loop goes on ([None]) or ends. *)
Definition handshake_frame (inbound : Inbound) : option bytes * option (Result unit string) :=
  match inbound.1 with
  | Err e => (None, Some (Err ("relay handshake: " +:+ e)))
  | Ok (WsString _) => (None, None)
  | Ok (WsBinary frame) =>
      match split_tag frame with
      | None => (None, Some (Err "relay handshake: empty frame"%string))
      | Some (frame_tag, payload) =>
          if frame_tag =? tag.SERVER_CHALLENGE then
            match try_into 16 payload with
            | None => (None, Some (Err "relay handshake: malformed challenge"%string))
            | Some challenge =>
                let message := derive_key CHALLENGE_DOMAIN (array_bytes challenge) in
                match sign (array_bytes message) with
                | Err e => (None, Some (Err e))
                | Ok signed =>
                    match try_into 64 signed with
                    | None => (None, Some (Err "identity produced a non-64-byte signature"%string))
                    | Some signature =>
                        (Some (encode_client_auth postcard_client_auth endpoint_id signature),
                         match inbound.2 with
                         | Ok _ => None
                         | Err e => Some (Err ("relay handshake: " +:+ e))
                         end)
                    end
                end
            end
          else if frame_tag =? tag.SERVER_CONFIRMS_AUTH then (None, Some (Ok tt))
          else if frame_tag =? tag.SERVER_DENIES_AUTH then
            (None, Some (Err ("relay denied auth: " +:+
                              bytes_str (decode_denial_reason postcard_string payload))))
          else (None, Some (Err ("relay handshake: unexpected frame type "
                                 +:+ pretty frame_tag)))
      end
  end.

(** The handshake loop over the inbound results available so far; [None]
    means it still waits. The frames sent are listed in order. *)
Fixpoint handshake (inbound : list Inbound) : list bytes * option (Result unit string) :=
  match inbound with
  | [] => ([], None)
  | i :: rest =>
      let '(sent, verdict) := handshake_frame i in
      match verdict with
      | Some v => (option_list sent, Some v)
      | None => let '(more, v) := handshake rest in (option_list sent ++ more, v)
      end
  end.

(** [Websocket::connect] is an argument; [now] is the clock at the end. *)
Definition connect (ws_connect : string -> list string -> Result unit WsError)
    (inbound : list Inbound) (now : Instant) (server : string) : option (Result RelayConn string) :=
  match relay_url debug_str server with
  | Err e => Some (Err e)
  | Ok url =>
      match ws_connect url SUBPROTOCOLS with
      | Err e => Some (Err ("relay connect: " +:+ e))
      | Ok _ =>
          match (handshake inbound).2 with
          | None => None
          | Some (Err e) => Some (Err e)
          | Some (Ok _) => Some (Ok (MkRelayConn [] now None 0 false))
          end
      end
  end.
End Handshake.

(** ** Datagrams *)

(** [send_datagram] and [send_ping]: the frame handed to the websocket, and
    its result with the error labelled. *)
Definition send_datagram (dst : EndpointId) (payload : bytes) (res : Result unit WsError)
    : bytes * Result unit string :=
  (encode_client_datagram dst payload, map_err (fun e => "relay send: " +:+ e) res).
Definition send_ping (payload : array 8) (res : Result unit WsError)
    : bytes * Result unit string :=
  (encode_ping payload, map_err (fun e => "relay ping: " +:+ e) res).

(** One inbound result at its arrival time, with the result of the pong it
    may provoke. *)
Record Arrival := MkArrival {
  received : Result WsMessage WsError;
  at_time : Instant;
  pong_result : Result unit WsError;
}.

(** [recv_datagram] over the inbound results available: the datagram or the
    error (or [None], still waiting), the connection, the frames sent, and the
    results left unread. *)
Fixpoint recv_datagram (arrivals : list Arrival) (c : RelayConn)
    : option (Result Datagram string) * RelayConn * list bytes * list Arrival :=
  match pending c with
  | d :: ds => (Some (Ok d), c <| pending := ds |>, [], arrivals)
  | [] =>
      match arrivals with
      | [] => (None, c, [], [])
      | a :: rest =>
          match received a with
          | Err e => (Some (Err ("relay: " +:+ e)), c, [], rest)
          | Ok (WsString _) => recv_datagram rest (c <| last_inbound := at_time a |>)
          | Ok (WsBinary frame) =>
              let c := c <| last_inbound := at_time a |> in
              match split_tag frame with
              | None => recv_datagram rest c
              | Some (frame_tag, payload) =>
                  if (frame_tag =? tag.RELAY_TO_CLIENT_DATAGRAM)
                     || (frame_tag =? tag.RELAY_TO_CLIENT_DATAGRAM_BATCH) then
                    let batch := frame_tag =? tag.RELAY_TO_CLIENT_DATAGRAM_BATCH in
                    match decode_relay_datagrams payload batch with
                    | None => recv_datagram rest c
                    | Some datagrams => recv_datagram rest (c <| pending ::= fun q => q ++ datagrams |>)
                    end
                  else if frame_tag =? tag.PING then
                    match try_into 8 payload with
                    | None => recv_datagram rest c
                    | Some ping =>
                        match pong_result a with
                        | Err e => (Some (Err ("relay pong: " +:+ e)), c, [encode_pong ping], rest)
                        | Ok _ =>
                            let '(r, c, sent, unread) := recv_datagram rest c in
                            (r, c, encode_pong ping :: sent, unread)
                        end
                    end
                  else recv_datagram rest c
              end
          end
      end
  end.

(** ** Liveness *)
Definition probe_step (now : Instant) (quiet_after deadline : Duration) (c : RelayConn)
    : ProbeStep * RelayConn :=
  let quiet c :=
    if quiet_after <=? duration_since now (last_inbound c) then
      let seq := wrap64 (probe_seq c + 1) in
      (Ping (default (array_of 8 Byte.x00) (try_into 8 (le_bytes 8 seq))),
       c <| probe := Some now |> <| probe_seq := seq |>)
    else (Healthy, c) in
  match probe c with
  | Some sent =>
      if sent <? last_inbound c then quiet (c <| probe := None |>)
      else if deadline <=? duration_since now sent then (Dead, c)
      else (Healthy, c)
  | None => quiet c
  end.

Definition close (c : RelayConn) : RelayConn := c <| ws_closed := true |>.

(** ** Receiving: nothing lost, nothing reordered *)

(** The datagrams one inbound result carries, and the pongs it provokes. *)
Definition arrival_datagrams (a : Arrival) : list Datagram :=
  match received a with
  | Ok (WsBinary frame) =>
      match split_tag frame with
      | Some (t, p) =>
          if (t =? tag.RELAY_TO_CLIENT_DATAGRAM) || (t =? tag.RELAY_TO_CLIENT_DATAGRAM_BATCH)
          then default [] (decode_relay_datagrams p (t =? tag.RELAY_TO_CLIENT_DATAGRAM_BATCH))
          else []
      | None => []
      end
  | _ => []
  end.
Definition arrival_pongs (a : Arrival) : list bytes :=
  match received a with
  | Ok (WsBinary frame) =>
      match split_tag frame with
      | Some (t, p) =>
          if t =? tag.PING then option_list (encode_pong <$> try_into 8 p) else []
      | None => []
      end
  | _ => []
  end.
Definition stamp (t : Instant) (a : Arrival) : Instant :=
  match received a with Ok _ => at_time a | Err _ => t end.

(** What a call that read [read] promises about its result. *)
Definition recv_post (c : RelayConn) (read : list Arrival)
    (r : option (Result Datagram string)) (c' : RelayConn) (unread : list Arrival) : Prop :=
  match r with
  | Some (Ok d) => pending c ++ flat_map arrival_datagrams read = d :: pending c'
  | Some (Err _) =>
      pending c = [] /\ flat_map arrival_datagrams read = [] /\ pending c' = []
  | None =>
      pending c = [] /\ flat_map arrival_datagrams read = [] /\ pending c' = [] /\ unread = []
  end.

(** A call on an empty queue whose first result queued [ds] and provoked no
    error behaves as the rest of the loop does on that queue. *)
Lemma recv_post_step c a read r c' unread c1 :
  pending c = [] -> pending c1 = arrival_datagrams a ->
  recv_post c1 read r c' unread -> recv_post c (a :: read) r c' unread.
Proof.
  unfold recv_post. cbn [flat_map]. intros -> ->.
  destruct r as [[]|]; [done| |]; intros (-> & -> & ?); done.
Qed.

Lemma recv_datagram_inv arrivals c :
  let '(r, c', sent, unread) := recv_datagram arrivals c in
  exists read,
    arrivals = read ++ unread /\ sent = flat_map arrival_pongs read /\
    last_inbound c' = foldl stamp (last_inbound c) read /\
    recv_post c read r c' unread.
Proof.
  revert c. induction arrivals as [|a rest IH]; intros c; cbn [recv_datagram];
    destruct (pending c) as [|d ds] eqn:Hp.
  1, 2, 4: exists []; unfold recv_post; simpl; by rewrite ?Hp, ?app_nil_r.
  assert (forall c1,
    pending c1 = arrival_datagrams a -> last_inbound c1 = stamp (last_inbound c) a ->
    arrival_pongs a = [] ->
    let '(r, c', sent, unread) := recv_datagram rest c1 in
    exists read, a :: rest = read ++ unread /\ sent = flat_map arrival_pongs read /\
      last_inbound c' = foldl stamp (last_inbound c) read /\ recv_post c read r c' unread)
    as Hloop.
  { intros c1 Hp1 Hl1 Hpong. specialize (IH c1).
    destruct (recv_datagram rest c1) as [[[r c'] sent] unread].
    destruct IH as (read & -> & -> & Hl & Hpost). exists (a :: read).
    cbn [flat_map foldl app]. rewrite Hpong, Hl, Hl1. split_and!; [done..|].
    by eapply recv_post_step. }
  unfold arrival_datagrams, arrival_pongs, stamp in Hloop.
  destruct (received a) as [[frame|]|e] eqn:Hr.
  2: by apply Hloop.
  2: { exists [a]. unfold recv_post. cbn. unfold arrival_datagrams, arrival_pongs, stamp.
       by rewrite Hr, Hp. }
  destruct (split_tag frame) as [[t p]|] eqn:Ht; [|by apply Hloop].
  destruct ((t =? tag.RELAY_TO_CLIENT_DATAGRAM) || (t =? tag.RELAY_TO_CLIENT_DATAGRAM_BATCH)) eqn:Hd.
  { assert ((t =? tag.PING) = false) as Hping.
    { apply orb_true_iff in Hd as [->%Z.eqb_eq | ->%Z.eqb_eq]; done. }
    rewrite Hping in Hloop.
    destruct (decode_relay_datagrams p _) as [ds|]; apply Hloop; simpl; by rewrite ?Hp. }
  destruct (t =? tag.PING) eqn:Hping; [|by apply Hloop].
  destruct (try_into 8 p) as [ping|] eqn:Hping8; [|by apply Hloop].
  assert (arrival_datagrams a = [] /\ arrival_pongs a = [encode_pong ping]
          /\ (forall t0, stamp t0 a = at_time a)) as (Had & Hap & Hst).
  { unfold arrival_datagrams, arrival_pongs, stamp. by rewrite Hr, Ht, Hd, Hping, Hping8. }
  destruct (pong_result a) as [[]|e].
  - specialize (IH (c <| last_inbound := at_time a |>)).
    destruct (recv_datagram rest _) as [[[r c'] sent] unread].
    destruct IH as (read & -> & -> & Hl & Hpost). exists (a :: read).
    cbn [flat_map foldl app]. rewrite Hap, Hst, Hl. split_and!; [done..|].
    eapply recv_post_step; [done| |exact Hpost]. by rewrite Had.
  - exists [a]. unfold recv_post. cbn. by rewrite Had, Hap, Hst, Hp.
Qed.

(** C32. [recv_datagram] delivers the relayed datagrams in order and exactly
    once: the inbound results it reads form a prefix of what arrived; the queue
    before the call followed by the datagrams of that prefix equals the datagram
    returned followed by the queue left behind; every well-formed ping read is
    answered by exactly one pong with its payload, in order, and nothing else is
    sent; an error or a wait leaves no datagram behind; and the liveness stamp
    is the time of the last successful read. *)
Theorem recv_datagram_fifo arrivals c :
  let '(r, c', sent, unread) := recv_datagram arrivals c in
  exists read,
    arrivals = read ++ unread /\ sent = flat_map arrival_pongs read /\
    last_inbound c' = foldl stamp (last_inbound c) read /\
    match r with
    | Some (Ok d) => pending c ++ flat_map arrival_datagrams read = d :: pending c'
    | Some (Err _) =>
        pending c = [] /\ flat_map arrival_datagrams read = [] /\ pending c' = []
    | None =>
        pending c = [] /\ flat_map arrival_datagrams read = [] /\ pending c' = [] /\ unread = []
    end.
Proof. exact (recv_datagram_inv arrivals c). Qed.

(** ** The liveness probe *)

(** Soundness of the dead verdict: a wire is declared dead only when a ping
    sent at least [deadline] ago has seen no inbound frame since, so a wire that
    delivered any frame within the last [deadline] is never declared dead. *)
Theorem probe_dead_sound now quiet_after deadline c :
  (probe_step now quiet_after deadline c).1 = Dead ->
  exists sent, probe c = Some sent /\ last_inbound c <= sent /\
               deadline <= duration_since now sent /\
               (probe_step now quiet_after deadline c).2 = c.
Proof.
  unfold probe_step. destruct (probe c) as [sent|].
  - destruct (Z.ltb_spec sent (last_inbound c)); [by case_match|].
    destruct (Z.leb_spec deadline (duration_since now sent)); [|done].
    intros _. by exists sent.
  - by case_match.
Qed.

Lemma probe_dead_sound_witness :
  (probe_step 30 15 5 (MkRelayConn [] 0 (Some 20) 1 false)).1 = Dead /\
  exists sent, probe (MkRelayConn [] 0 (Some 20) 1 false) = Some sent /\ sent <= 20.
Proof.
  split; [reflexivity|].
  destruct (probe_dead_sound 30 15 5 (MkRelayConn [] 0 (Some 20) 1 false) eq_refl)
    as (sent & H & _). exists sent. split; [done|]. simpl in H. by injection H as <-.
Defined.

(** The verdicts of a run of probe steps at the given clock readings. *)
Fixpoint probe_run (quiet_after deadline : Duration) (ticks : list Instant) (c : RelayConn)
    : list ProbeStep * RelayConn :=
  match ticks with
  | [] => ([], c)
  | now :: ticks =>
      let '(v, c) := probe_step now quiet_after deadline c in
      let '(vs, c) := probe_run quiet_after deadline ticks c in
      (v :: vs, c)
  end.

(** Clock readings that never go back and are at most [gap] apart. *)
Fixpoint paced (gap : Duration) (prev : Instant) (ticks : list Instant) : Prop :=
  match ticks with
  | [] => True
  | now :: ticks => prev <= now <= prev + gap /\ paced gap now ticks
  end.

Lemma paced_ge gap prev ticks t : paced gap prev ticks -> t ∈ ticks -> prev <= t.
Proof.
  revert prev. induction ticks as [|now ticks IH]; intros prev; simpl; [set_solver|].
  intros [Hn Hp] [->|Ht]%elem_of_cons; [lia|]. specialize (IH now Hp Ht). lia.
Qed.

Lemma probe_run_later v (run : list ProbeStep * RelayConn) :
  Dead ∈ run.1 -> Dead ∈ (let '(vs, c) := run in (v :: vs, c)).1.
Proof. destruct run. simpl. set_solver. Qed.

(** With a ping outstanding at [sent] and no inbound frame, some tick of a run
    reaching [sent + deadline] declares the wire dead. *)
Lemma probe_run_outstanding quiet_after deadline ticks c sent last :
  probe c = Some sent -> last_inbound c <= sent -> 0 <= deadline ->
  last ∈ ticks -> sent + deadline <= last ->
  Dead ∈ (probe_run quiet_after deadline ticks c).1.
Proof.
  intros Hp Hl Hd. induction ticks as [|now ticks IH]; intros Hin Hlast; [set_solver|].
  cbn [probe_run]. unfold probe_step. rewrite Hp.
  rewrite (proj2 (Z.ltb_ge sent (last_inbound c))) by lia. unfold duration_since.
  destruct (Z.leb_spec deadline (Z.max 0 (now - sent))).
  - destruct (probe_run _ _ ticks c). simpl. set_solver.
  - apply elem_of_cons in Hin as [->|Hin]; [lia|]. apply probe_run_later, IH; done.
Qed.

Lemma probe_run_quiet quiet_after deadline gap ticks c prev last :
  probe c = None -> 0 < quiet_after -> 0 <= deadline ->
  prev < last_inbound c + quiet_after -> paced gap prev ticks ->
  last ∈ ticks -> last_inbound c + quiet_after + gap + deadline <= last ->
  Dead ∈ (probe_run quiet_after deadline ticks c).1.
Proof.
  intros Hp Hq Hd. revert prev. induction ticks as [|now ticks IH]; intros prev Hprev Hpaced Hin Hlast;
    [set_solver|].
  destruct Hpaced as [Hnow Hpaced]. cbn [probe_run]. unfold probe_step. rewrite Hp.
  unfold duration_since.
  destruct (Z.leb_spec quiet_after (Z.max 0 (now - last_inbound c))).
  - apply elem_of_cons in Hin as [->|Hin]; [lia|].
    apply probe_run_later, (probe_run_outstanding _ _ _ _ now last); simpl; first [done|lia].
  - apply elem_of_cons in Hin as [->|Hin]; [lia|].
    apply probe_run_later, (IH now); first [done|lia].
Qed.



(** ** The websocket URL *)

Lemma substring_all n s : (String.length s <= n)%nat -> String.substring 0 n s = s.
Proof.
  revert n. induction s as [|c s IH]; intros [|n]; simpl; intros; try done; try lia.
  f_equal. apply IH. lia.
Qed.

Lemma substring_prefix p s :
  String.prefix p s = true ->
  s = p +:+ String.substring (String.length p) (String.length s - String.length p) s.
Proof.
  revert s. induction p as [|a p IH]; intros s.
  - intros _. simpl. by rewrite Nat.sub_0_r, substring_all.
  - destruct s as [|b s]; simpl; [done|]. destruct (Ascii.ascii_dec a b) as [->|]; [|done].
    intros H. exact (f_equal (String b) (IH s H)).
Qed.

Lemma split_once_eq sep s a b : split_once sep s = Some (a, b) -> s = a +:+ sep +:+ b.
Proof.
  revert a. induction s as [|c s IH]; intros a; cbn [split_once].
  all: destruct (String.prefix sep _) eqn:Hp; [intros [= <- <-]; by apply substring_prefix|].
  { done. }
  destruct (split_once sep s) as [[a' b']|]; simpl; intros; simplify_eq.
  by rewrite (IH a').
Qed.

(** The characters of a string. *)
Fixpoint chars (s : string) : list Ascii.ascii :=
  match s with EmptyString => [] | String c s => c :: chars s end.

Lemma before_spec c s :
  exists path, s = before c s +:+ path /\ c ∉ chars (before c s) /\
               (path = (""%string) \/ (exists t, path = String c t)).
Proof.
  induction s as [|a s (path & Hs & Hc & Hp)]; cbn [before].
  - exists ""%string. split_and!; [done|set_solver|by left].
  - case_decide as Ha.
    + exists (String a s). split_and!; [done|set_solver|right; exists s; by rewrite Ha].
    + exists path. split_and!; [by rewrite Hs at 1| |done]. cbn [chars]. set_solver.
Qed.

(** The websocket URL of a relay: a server URL is accepted exactly when it
    splits into a scheme, [://] and a non-empty host followed by nothing or by
    a path; the result is that host under [ws] for the schemes [http] and [ws]
    and under [wss] for any other, at the path [/relay] whatever the server
    URL's own path. *)
Theorem relay_url_shape debug_str server url :
  relay_url debug_str server = Ok url ->
  exists scheme host path ws,
    server = scheme +:+ "://" +:+ host +:+ path /\
    url = ws +:+ "://" +:+ host +:+ "/relay" /\
    host <> ""%string /\ slash ∉ chars host /\
    (path = ""%string \/ (exists t, path = String slash t)) /\
    ws = (if decide (scheme = "http" \/ scheme = "ws") then "ws" else "wss")%string.
Proof.
  unfold relay_url. destruct (split_once "://" server) as [[scheme rest]|] eqn:Hs; [|done].
  apply split_once_eq in Hs. destruct (before_spec slash rest) as (path & Hrest & Hc & Hp).
  case_decide as Hhost; [done|]. intros [= <-].
  exists scheme, (before slash rest), path. eexists. rewrite <- Hrest. by split_and!.
Qed.

Lemma relay_url_shape_witness :
  relay_url id "https://relay.example/base/" = Ok "wss://relay.example/relay"%string /\
  exists host, "wss://relay.example/relay"%string = ("wss" +:+ "://" +:+ host +:+ "/relay")%string.
Proof.
  split; [reflexivity|].
  destruct (relay_url_shape id "https://relay.example/base/" _ eq_refl)
    as (scheme & host & path & ws & _). by exists "relay.example"%string.
Defined.

(** ** The authentication handshake *)
Section HandshakeTheory.
Context (postcard_client_auth : EndpointId -> bytes -> bytes).
Context (postcard_string : bytes -> option bytes).
Context (derive_key : string -> bytes -> array 32).
Context (sign : bytes -> Result bytes string).
Context (endpoint_id : EndpointId).

Abbreviation hs := (handshake postcard_client_auth postcard_string derive_key sign endpoint_id).
Abbreviation hs_frame :=
  (handshake_frame postcard_client_auth postcard_string derive_key sign endpoint_id).

(** The client-auth frame that answers a challenge, when the inbound result
    is a well-formed challenge and the identity signs it. *)
Definition challenge_answer (i : Inbound) : option bytes :=
  match i.1 with
  | Ok (WsBinary frame) =>
      match split_tag frame with
      | Some (t, p) =>
          if t =? tag.SERVER_CHALLENGE then
            challenge ← try_into 16 p;
            match sign (array_bytes (derive_key CHALLENGE_DOMAIN (array_bytes challenge))) with
            | Ok signed =>
                encode_client_auth postcard_client_auth endpoint_id <$> try_into 64 signed
            | Err _ => None
            end
          else None
      | None => None
      end
  | _ => None
  end.

(** The inbound results the loop passes over: text messages, and challenges
    answered by a successful send. *)
Definition passes (i : Inbound) : bool :=
  match i.1 with
  | Ok (WsString _) => true
  | _ => bool_decide (is_Some (challenge_answer i)) && negb (is_err i.2)
  end.

Definition confirms (i : Inbound) : bool :=
  match i.1 with
  | Ok (WsBinary frame) =>
      match split_tag frame with
      | Some (t, _) => t =? tag.SERVER_CONFIRMS_AUTH
      | None => false
      end
  | _ => false
  end.

Lemma handshake_frame_cases i :
  match hs_frame i with
  | (sent, None) => passes i = true /\ sent = challenge_answer i
  | (sent, Some (Ok _)) => confirms i = true /\ sent = None
  | (sent, Some (Err _)) => passes i = false /\ confirms i = false /\ sent = challenge_answer i
  end.
Proof.
  unfold handshake_frame, passes, confirms, challenge_answer.
  destruct (i.1) as [[frame|]|]; [|done..].
  destruct (split_tag frame) as [[t p]|]; [|done].
  destruct (Z.eqb_spec t tag.SERVER_CHALLENGE) as [->|]; simpl.
  - destruct (try_into 16 p) as [ch|]; simpl; [|done].
    destruct (sign _) as [signed|]; [|done].
    destruct (try_into 64 signed); simpl; [|done]. by destruct (i.2) as [[]|].
  - destruct (Z.eqb_spec t tag.SERVER_CONFIRMS_AUTH) as [->|]; [done|].
    by destruct (Z.eqb_spec t tag.SERVER_DENIES_AUTH).
Qed.

Lemma passes_not_confirms i : passes i = true -> confirms i = false.
Proof.
  unfold passes, confirms, challenge_answer. destruct (i.1) as [[frame|]|]; [|done..].
  destruct (split_tag frame) as [[t p]|]; [|done].
  by destruct (Z.eqb_spec t tag.SERVER_CHALLENGE) as [->|].
Qed.

(** C31. The relay handshake succeeds exactly when a confirmation frame arrives
    after nothing but text messages and well-formed challenges, each of which
    was signed by the identity and answered; what was sent is exactly those
    answers, in order: the identity signs nothing else, and no other frame
    (denial, malformed challenge, unknown tag, an error of the socket) can lead
    to an authenticated connection. *)
Theorem handshake_authenticates inbound sent :
  hs inbound = (sent, Some (Ok tt)) <->
  exists before_confirm confirm rest,
    inbound = before_confirm ++ confirm :: rest /\
    Forall (fun i => passes i = true) before_confirm /\
    confirms confirm = true /\
    sent = omap challenge_answer before_confirm.
Proof.
  revert sent. induction inbound as [|i inbound IH]; intros sent; cbn [handshake].
  { split; [done|]. by intros ([|] & ? & ? & ? & _). }
  pose proof (handshake_frame_cases i) as Hi.
  destruct (hs_frame i) as [s [[[]|e]|]].
  - destruct Hi as [Hc ->]. split.
    + intros [= <-]. by exists [], i, inbound.
    + intros ([|j pre] & c & rest & Heq & Hpre & Hconf & ->); simplify_eq/=; [done|].
      apply Forall_cons in Hpre as [Hp%passes_not_confirms _]. congruence.
  - destruct Hi as (Hp & Hc & _). split; [done|].
    intros ([|j pre] & c & rest & Heq & Hpre & Hconf & ->); simplify_eq/=; [congruence|].
    apply Forall_cons in Hpre as [? _]. congruence.
  - destruct Hi as [Hp ->]. destruct (hs inbound) as [more v] eqn:Hm. split.
    + intros [= <- ->]. destruct (proj1 (IH more) eq_refl) as (pre & c & rest & -> & Hpre & Hc & ->).
      exists (i :: pre), c, rest. split_and!; [done|by constructor|done|].
      simpl. by destruct (challenge_answer i).
    + intros ([|j pre] & c & rest & Heq & Hpre & Hconf & ->); simplify_eq/=.
      { apply passes_not_confirms in Hp. congruence. }
      apply Forall_cons in Hpre as [_ Hpre].
      assert ((more, v) = (omap challenge_answer pre, Some (Ok tt))) as [= -> ->].
      { apply IH. by exists pre, c, rest. }
      by destruct (challenge_answer j).
Qed.
End HandshakeTheory.
