(* ===== verification/Types.v ===== *)
(** The structural types of [wit/iroh.wit] that the endpoint surface speaks,
    and [std::net]'s socket addresses with their parser. *)
From S2P Require Import Prelude RelayFrames.

(** ** [polymorph:iroh/types] *)

Inductive Error :=
| Closed
| Reset (code : Z)
| ConnectFailed (msg : string)
| TimedOut (msg : string)
| NotSupported (msg : string)
| InUse (msg : string)
| InvalidArgument (msg : string)
| Other (msg : string).

Record CloseInfo := MkCloseInfo { code : Z; reason : bytes }.

Inductive ConnectionState := CsConnecting | CsOpen | CsClosed.

Inductive PathKind := PkRelay | PkIp | PkWebrtc.

Inductive TransportAddr :=
| Relay (url : string)
| Ip (text : string)
| Webrtc (url : string)
| Custom (id : Z) (data : bytes).

Record EndpointAddr := MkEndpointAddr {
  ea_endpoint_id : bytes;
  ea_addrs : list TransportAddr;
}.

#[export] Instance Error_eq_dec : EqDecision Error.
Proof. solve_decision. Defined.
#[export] Instance CloseInfo_eq_dec : EqDecision CloseInfo.
Proof. solve_decision. Defined.
#[export] Instance PathKind_eq_dec : EqDecision PathKind.
Proof. solve_decision. Defined.
#[export] Instance ConnectionState_eq_dec : EqDecision ConnectionState.
Proof. solve_decision. Defined.

(** ** Socket addresses

    An IPv4 address is its octets, an IPv6 address its eight 16-bit segments;
    an IPv6 socket address also has a flow label and a scope. *)
Inductive SocketAddr :=
| V4 (octets : list Z) (port : Z)
| V6 (segments : list Z) (port flowinfo scope_id : Z).

#[export] Instance SocketAddr_eq_dec : EqDecision SocketAddr.
Proof. solve_decision. Defined.

#[export] Program Instance SocketAddr_countable : Countable SocketAddr :=
  inj_countable
    (fun a => match a with
              | V4 o p => inl (o, p)
              | V6 s p f sc => inr (s, p, f, sc)
              end)
    (fun x => Some match x with
              | inl (o, p) => V4 o p
              | inr (s, p, f, sc) => V6 s p f sc
              end) _.
Next Obligation. by intros []. Qed.

(** The addresses the type can hold: octets and segments in range. *)
Definition in_width (w z : Z) : bool := (0 <=? z) && (z <? 2 ^ w).
Definition addr_ok (a : SocketAddr) : bool :=
  match a with
  | V4 o p => bool_decide (length o = 4%nat) && forallb (in_width 8) o && in_width 16 p
  | V6 s p f sc =>
      bool_decide (length s = 8%nat) && forallb (in_width 16) s && in_width 16 p
      && in_width 32 f && in_width 32 sc
  end.

(** [SocketAddr::new(IpAddr::V6(..), port)]: no flow label, no scope. *)
Definition v6_addr (segments : list Z) (port : Z) : SocketAddr := V6 segments port 0 0.

(** ** [str::parse::<SocketAddr>]

    The recursive-descent parser of [core::net]: a parser maps the remaining
    characters to a value and the characters after it. *)
Module AddrParser.
Abbreviation chars := (list Ascii.ascii).
Definition parser (A : Type) : Type := chars -> option (A * chars).

Fixpoint to_chars (s : string) : chars :=
  match s with EmptyString => [] | String c s => c :: to_chars s end.

Definition given (n : nat) : parser unit := fun l =>
  match l with
  | c :: l => if decide (Ascii.nat_of_ascii c = n) then Some ((), l) else None
  | [] => None
  end.

(** [char::to_digit(radix)] for radix 10 and 16. *)
Definition to_digit (radix : Z) (c : Ascii.ascii) : option Z :=
  let n := Z.of_nat (Ascii.nat_of_ascii c) in
  let d :=
    if (48 <=? n) && (n <=? 57) then n - 48
    else if (97 <=? n) && (n <=? 122) then n - 87
    else if (65 <=? n) && (n <=? 90) then n - 55
    else radix in
  if d <? radix then Some d else None.

(** The digits of [read_number]: overflow of the [max] value or more than
    [max_digits] digits fails. *)
Fixpoint digits (radix max : Z) (max_digits : option nat) (count : nat) (acc : Z) (l : chars)
    : option (Z * nat * chars) :=
  match l with
  | [] => Some (acc, count, [])
  | c :: l' =>
      match to_digit radix c with
      | None => Some (acc, count, l)
      | Some d =>
          let acc := acc * radix + d in
          if max <? acc then None
          else if match max_digits with Some m => (m <? S count)%nat | None => false end
               then None
               else digits radix max max_digits (S count) acc l'
      end
  end.

Definition number (radix max : Z) (max_digits : option nat) (allow_zero_prefix : bool)
    : parser Z := fun l =>
  let has_leading_zero :=
    match l with c :: _ => bool_decide (Ascii.nat_of_ascii c = 48%nat) | [] => false end in
  '(v, count, rest) ← digits radix max max_digits 0 0 l;
  if (count =? 0)%nat then None
  else if negb allow_zero_prefix && has_leading_zero && (1 <? count)%nat then None
  else Some (v, rest).

Definition separated {A} (sep index : nat) (p : parser A) : parser A := fun l =>
  if (index =? 0)%nat then p l else '(_, l) ← given sep l; p l.

Definition dot : nat := 46.
Definition colon : nat := 58.

Definition ipv4 : parser (list Z) := fun l =>
  let octet i := separated dot i (number 10 255 (Some 3%nat) false) in
  '(a, l) ← octet 0%nat l; '(b, l) ← octet 1%nat l;
  '(c, l) ← octet 2%nat l; '(d, l) ← octet 3%nat l;
  Some ([a; b; c; d], l).

(** [read_groups]: up to [limit] groups from index [i]; the flag says an
    embedded IPv4 address ended them. *)
Fixpoint groups (slots i limit : nat) (l : chars) : list Z * bool * chars :=
  match slots with
  | O => ([], false, l)
  | S slots =>
      let v4 := if (i <? limit - 1)%nat then separated colon i ipv4 l else None in
      match v4 with
      | Some (o, l) =>
          let at_ k := nth k o 0 in
          ([at_ 0%nat * 256 + at_ 1%nat; at_ 2%nat * 256 + at_ 3%nat], true, l)
      | None =>
          match separated colon i (number 16 65535 (Some 4%nat) true) l with
          | Some (g, l) => let '(gs, f, l) := groups slots (S i) limit l in (g :: gs, f, l)
          | None => ([], false, l)
          end
      end
  end.

Definition ipv6 : parser (list Z) := fun l =>
  let '(head, head_ipv4, l) := groups 8 0 8 l in
  if (length head =? 8)%nat then Some (head, l)
  else if head_ipv4 then None
  else
    '(_, l) ← given colon l; '(_, l) ← given colon l;
    let limit := (8 - (length head + 1))%nat in
    let '(tail, _, l) := groups limit 0 limit l in
    Some (head ++ replicate (8 - length head - length tail) 0 ++ tail, l).

Definition port : parser Z := fun l => '(_, l) ← given colon l; number 10 65535 None true l.

Definition v4 : parser SocketAddr := fun l =>
  '(ip, l) ← ipv4 l; '(p, l) ← port l; Some (V4 ip p, l).

Definition v6 : parser SocketAddr := fun l =>
  '(_, l) ← given 91 l;
  '(ip, l) ← ipv6 l;
  let '(scope, l) :=
    match ('(_, l) ← given 37 l; number 10 (2 ^ 32 - 1) None true l) with
    | Some (s, l) => (s, l)
    | None => (0, l)
    end in
  '(_, l) ← given 93 l;
  '(p, l) ← port l;
  Some (V6 ip p 0 scope, l).

Definition whole {A} (p : parser A) (l : chars) : option A :=
  match p l with Some (a, []) => Some a | _ => None end.

(** [SocketAddr::from_str]: the whole text as an IPv4, else as an IPv6
    socket address. *)
Definition parse (s : string) : option SocketAddr :=
  let l := to_chars s in
  match v4 l with
  | Some (a, rest) => if decide (rest = []) then Some a else None
  | None => whole v6 l
  end.
End AddrParser.

Definition parse_socket_addr : string -> option SocketAddr := AddrParser.parse.

Example parse_v4 : parse_socket_addr "127.0.0.1:3340" = Some (V4 [127; 0; 0; 1] 3340).
Proof. vm_compute. reflexivity. Qed.
Example parse_v4_leading_zero : parse_socket_addr "127.0.0.01:3340" = None.
Proof. vm_compute. reflexivity. Qed.
Example parse_v6 :
  parse_socket_addr "[2001:db8::1]:443" = Some (V6 [0x2001; 0xdb8; 0; 0; 0; 0; 0; 1] 443 0 0).
Proof. vm_compute. reflexivity. Qed.
Example parse_v6_mapped :
  parse_socket_addr "[::ffff:1.2.3.4%7]:65535" =
  Some (V6 [0; 0; 0; 0; 0; 0xffff; 0x102; 0x304] 65535 0 7).
Proof. vm_compute. reflexivity. Qed.
Example parse_port_overflow : parse_socket_addr "1.2.3.4:65536" = None.
Proof. vm_compute. reflexivity. Qed.
