(* ===== verification/Udp.v ===== *)
(** The direct path of [endpoint/src/udp.rs]: binding a [wasi:sockets] UDP
    socket, the address conversions, sends, receives and the teardown
    self-wake. The socket itself is the host's: its answers are arguments. *)
From S2P Require Import Prelude RelayFrames Types.

(** [wasi:sockets/types] as the bindings present it. *)
Inductive IpAddressFamily := Ipv4Family | Ipv6Family.
Inductive IpSocketAddress :=
| Ipv4 (port : Z) (address : Z * Z * Z * Z)
| Ipv6 (port flow_info : Z) (address : Z * Z * Z * Z * Z * Z * Z * Z) (scope_id : Z).
(** [error-code]: [not-supported] is the one case the code tells apart; any
    other is represented by its [Debug] rendering. *)
Inductive ErrorCode := CodeNotSupported | CodeOther (debug : string).

(** The [Debug] rendering of an error code. *)
Definition code_debug (c : ErrorCode) : string :=
  match c with CodeNotSupported => "ErrorCode::NotSupported" | CodeOther d => d end.

Definition bind_error (what : string) (c : ErrorCode) : Error :=
  match c with
  | CodeNotSupported => NotSupported "this deployment provides no UDP socket"
  | CodeOther d => InvalidArgument (what +:+ ": " +:+ d)
  end.

Definition to_wasi (addr : SocketAddr) : IpSocketAddress :=
  match addr with
  | V4 o p => Ipv4 p (nth 0 o 0, nth 1 o 0, nth 2 o 0, nth 3 o 0)
  | V6 s p _ _ =>
      Ipv6 p 0 (nth 0 s 0, nth 1 s 0, nth 2 s 0, nth 3 s 0,
                nth 4 s 0, nth 5 s 0, nth 6 s 0, nth 7 s 0) 0
  end.

Definition from_wasi (addr : IpSocketAddress) : SocketAddr :=
  match addr with
  | Ipv4 p (a, b, c, d) => V4 [a; b; c; d] p
  | Ipv6 p _ (a, b, c, d, e, f, g, h) _ => v6_addr [a; b; c; d; e; f; g; h] p
  end.

Record UdpWire := MkUdpWire { local : SocketAddr }.

(** [UdpWire::bind]: [create], [bind] and [get_local_address] are the host's
    answers; [parse_error] is the rendering of a failed parse. *)
Definition udp_bind
    (debug_str : string -> string) (parse_error : string -> string)
    (create : IpAddressFamily -> Result unit ErrorCode)
    (bind : IpSocketAddress -> Result unit ErrorCode)
    (get_local_address : Result IpSocketAddress ErrorCode)
    (bind_addr : string) : Result UdpWire Error :=
  match parse_socket_addr bind_addr with
  | None => Err (InvalidArgument ("udp bind address " +:+ debug_str bind_addr +:+ ": "
                                  +:+ parse_error bind_addr))
  | Some addr =>
      let family := match addr with V4 _ _ => Ipv4Family | V6 _ _ _ _ => Ipv6Family end in
      let? _ := map_err (bind_error "udp create") (create family) in
      let? _ := map_err (bind_error "udp bind") (bind (to_wasi addr)) in
      let? l := map_err (bind_error "udp local address") get_local_address in
      Ok (MkUdpWire (from_wasi l))
  end.

Definition local_addr (u : UdpWire) : SocketAddr := local u.

(** [UdpWire::send]: what is handed to the socket, and the labelled result. *)
Definition udp_send (remote : SocketAddr) (payload : bytes) (res : Result unit ErrorCode)
    : (bytes * IpSocketAddress) * Result unit string :=
  ((payload, to_wasi remote), map_err (fun e => "udp send: " +:+ code_debug e) res).

(** [UdpWire::receive]. *)
Definition udp_receive (res : Result (bytes * IpSocketAddress) ErrorCode)
    : Result (bytes * SocketAddr) ErrorCode :=
  result_map (fun '(payload, remote) => (payload, from_wasi remote)) res.

(** [UdpWire::self_wake]. *)
Definition self_wake (u : UdpWire) (res : Result unit ErrorCode)
    : (bytes * IpSocketAddress) * Result unit string :=
  udp_send (local u) [] res.

(** The address a conversion to the host and back keeps: all of an IPv4
    address, an IPv6 address without its flow label and scope. *)
Definition unscoped (a : SocketAddr) : SocketAddr :=
  match a with V4 o p => V4 o p | V6 s p _ _ => v6_addr s p end.

(** Address conversion at the host boundary: what is sent to the host and
    read back is the same address with an IPv6 flow label and scope cleared, so
    every IPv4 address and every unscoped IPv6 address survives, and two
    addresses the host cannot tell apart differ at most in flow label and scope. *)
Theorem wasi_roundtrip a :
  addr_ok a = true ->
  from_wasi (to_wasi a) = unscoped a /\
  (forall b, addr_ok b = true -> to_wasi a = to_wasi b -> unscoped a = unscoped b).
Proof.
  assert (forall a, addr_ok a = true -> from_wasi (to_wasi a) = unscoped a) as H.
  { clear a. intros [o p | s p f sc]; unfold addr_ok; rewrite ?andb_true_iff.
    - intros [[Hl%bool_decide_eq_true _] _].
      do 5 (destruct o as [|? o]; try done).
    - intros [[[[Hl%bool_decide_eq_true _] _] _] _].
      do 9 (destruct s as [|? s]; try done). }
  intros Ha. split; [by apply H|]. intros b Hb Heq. by rewrite <- (H a), <- (H b), Heq.
Qed.

Lemma wasi_roundtrip_witness :
  addr_ok (V6 [0xfe80; 0; 0; 0; 0; 0; 0; 1] 443 0 3) = true /\
  from_wasi (to_wasi (V6 [0xfe80; 0; 0; 0; 0; 0; 0; 1] 443 0 3)) =
    V6 [0xfe80; 0; 0; 0; 0; 0; 0; 1] 443 0 0.
Proof.
  split; [reflexivity|].
  exact (proj1 (wasi_roundtrip (V6 [0xfe80; 0; 0; 0; 0; 0; 0; 1] 443 0 3) eq_refl)).
Defined.
