(* ===== verification/Noq.v ===== *)
(** The interface the endpoint is written against: [noq-proto]'s sans-I/O
    endpoint and connection (third-party, so a class the endpoint's
    definitions are parametric in), with the documented behaviour its clients
    rely on as laws, and a small executable instance that satisfies the laws
    and drives the development's examples. *)
From S2P Require Import Prelude RelayFrames Types.

(** ** Data exchanged with noq *)

Inductive Dir := Bi | Uni.

Module ConnectionError.
Inductive t :=
| ApplicationClosed (error_code : Z) (reason : bytes)
| LocallyClosed
| TimedOut
(** The version, transport, reset and CID cases, by their [Display] text. *)
| Other (display : string).
End ConnectionError.

Inductive StreamEvent := Opened (dir : Dir) | OtherStreamEvent.

Inductive Event :=
| HandshakeDataReady
| HandshakeConfirmed
| PathEvent
| NatTraversal
| Connected
| Stream (e : StreamEvent)
| DatagramReceived
| DatagramsUnblocked
| ConnectionLost (reason : ConnectionError.t).

(** A transmit: where to, how many bytes of the buffer, and the buffer noq
    filled (the code clears it before the call). *)
Record Transmit := MkTransmit {
  destination : SocketAddr;
  t_size : nat;
  t_buf : bytes;
}.

Inductive SendDatagramError := SdTooLarge | SdUnsupportedByPeer | SdOther (display : string).
Inductive WriteError := WBlocked | WStopped (code : Z) | WClosedStream.
Inductive FinishError := FStopped (code : Z) | FClosedStream.
Inductive ReadableError := RClosedStream | RIllegalOrderedRead.
Inductive ReadError := RBlocked | RReset (code : Z).

(** What a datagram turned out to be. *)
Inductive DatagramEvent (H CE I : Type) :=
| DConnectionEvent (handle : H) (event : CE)
| DNewConnection (incoming : I)
| DResponse (transmit : Transmit).
Arguments DConnectionEvent {H CE I} _ _.
Arguments DNewConnection {H CE I} _.
Arguments DResponse {H CE I} _.

(** [noq] handles: a connection is named by a slab slot. *)
Abbreviation ConnectionHandle := Z (only parsing).

Class Noq := {
  Endpoint : Type;
  Connection : Type;
  Incoming : Type;
  ConnectionEvent : Type;
  EndpointEvent : Type;
  ClientConfig : Type;

  (** [Endpoint]: every call takes and returns the endpoint's state. *)
  ep_handle_event : ConnectionHandle -> EndpointEvent -> Endpoint -> option ConnectionEvent * Endpoint;
  ep_handle : Instant -> SocketAddr -> bytes -> Endpoint ->
    option (DatagramEvent ConnectionHandle ConnectionEvent Incoming) * Endpoint;
  ep_refuse : Incoming -> Endpoint -> Transmit * Endpoint;
  ep_accept : Incoming -> Instant -> Endpoint ->
    Result (ConnectionHandle * Connection) (option Transmit) * Endpoint;
  ep_connect : Instant -> ClientConfig -> SocketAddr -> Endpoint ->
    Result (ConnectionHandle * Connection) string * Endpoint;

  (** [Connection] polling and driving. *)
  poll_endpoint_events : Connection -> option EndpointEvent * Connection;
  handle_event : ConnectionEvent -> Connection -> Connection;
  poll : Connection -> option Event * Connection;
  poll_transmit : Instant -> Connection -> option Transmit * Connection;
  poll_timeout : Connection -> option Instant;
  handle_timeout : Instant -> Connection -> Connection;
  is_drained : Connection -> bool;
  conn_close : Instant -> Z -> bytes -> Connection -> Connection;
  (** [network_path(PathId::ZERO)]'s remote address. *)
  network_remote : Connection -> option SocketAddr;

  (** The TLS session: the negotiated protocol, once handshake data exists,
      and the certificates of an authenticated peer. *)
  handshake_data : Connection -> option (option bytes);
  peer_identity : Connection -> option (list bytes);

  (** Streams and datagrams. *)
  StreamId : Type;
  StreamId_eq_dec :: EqDecision StreamId;
  streams_accept : Dir -> Connection -> option StreamId * Connection;
  streams_open : Dir -> Connection -> option StreamId * Connection;
  datagrams_max_size : Connection -> option Z;
  datagrams_send : bytes -> Connection -> Result unit SendDatagramError * Connection;
  datagrams_recv : Connection -> option bytes * Connection;
  send_write : StreamId -> bytes -> Connection -> Result nat WriteError * Connection;
  send_finish : StreamId -> Connection -> Result unit FinishError * Connection;
  send_reset : StreamId -> Z -> Connection -> Connection;
  (** [recv_stream(id).read(true)], then one [next(max)] and [finalize]. *)
  recv_chunk : StreamId -> nat -> Connection ->
    Result (Result (option bytes) ReadError) ReadableError * Connection;
  recv_stop : StreamId -> Z -> Connection -> Connection;

  (** [polymorph_tls_profile]: the key inside an Ed25519 SPKI. *)
  public_key_from_ed25519_spki : bytes -> option EndpointId;
}.

(** One call on a connection, a poll that reports the completed handshake
    apart. *)
Inductive conn_op `{Noq} : Connection -> Connection -> Prop :=
| co_endpoint_events c e c' : poll_endpoint_events c = (e, c') -> conn_op c c'
| co_handle_event ev c : conn_op c (handle_event ev c)
| co_poll c ev c' : poll c = (ev, c') -> ev <> Some Connected -> conn_op c c'
| co_transmit now c t c' : poll_transmit now c = (t, c') -> conn_op c c'
| co_timeout now c : conn_op c (handle_timeout now c)
| co_close now code reason c : conn_op c (conn_close now code reason c)
| co_accept d c id c' : streams_accept d c = (id, c') -> conn_op c c'
| co_open d c id c' : streams_open d c = (id, c') -> conn_op c c'
| co_datagram_send b c r c' : datagrams_send b c = (r, c') -> conn_op c c'
| co_datagram_recv c r c' : datagrams_recv c = (r, c') -> conn_op c c'
| co_write id b c r c' : send_write id b c = (r, c') -> conn_op c c'
| co_finish id c r c' : send_finish id c = (r, c') -> conn_op c c'
| co_reset id code c : conn_op c (send_reset id code c)
| co_read id max c r c' : recv_chunk id max c = (r, c') -> conn_op c c'
| co_stop id code c : conn_op c (recv_stop id code c).

(** [tls::endpoint_id_from_spki] of [core/src/tls.rs]. *)
Definition endpoint_id_from_spki `{Noq} (spki : bytes) : option EndpointId :=
  public_key_from_ed25519_spki spki.

(** ** What the endpoint relies on

    [work c] bounds what polling [c] can still yield before new input or time
    arrives (a sans-I/O connection has finitely much to say at one instant):
    each successful poll uses some of it up, also when the caller feeds back
    the endpoint's answer or, on [Connected], closes the connection. A
    transmit's size is within the buffer it filled. *)
Class NoqLaws `{Noq} := {
  work : Connection -> nat;
  work_endpoint_event c e c' :
    poll_endpoint_events c = (Some e, c') ->
    (work c' < work c)%nat /\
    (forall h ep back ep', ep_handle_event h e ep = (Some back, ep') ->
       (work (handle_event back c') < work c)%nat);
  work_poll c ev c' :
    poll c = (Some ev, c') ->
    (work c' < work c)%nat /\
    (ev = Connected -> forall now code reason, (work (conn_close now code reason c') < work c)%nat);
  work_accept d c id c' : streams_accept d c = (Some id, c') -> (work c' < work c)%nat;
  work_transmit now c t c' : poll_transmit now c = (Some t, c') -> (work c' < work c)%nat;
  work_poll_none c c' : poll c = (None, c') -> (work c' <= work c)%nat;
  work_endpoint_event_none c c' : poll_endpoint_events c = (None, c') -> (work c' <= work c)%nat;
  work_accept_none d c c' : streams_accept d c = (None, c') -> (work c' <= work c)%nat;
  work_transmit_none now c c' : poll_transmit now c = (None, c') -> (work c' <= work c)%nat;
  transmit_size now c t c' :
    poll_transmit now c = (Some t, c') -> (t_size t <= length (t_buf t))%nat;
  refuse_size i ep t ep' : ep_refuse i ep = (t, ep') -> (t_size t <= length (t_buf t))%nat;
  accept_size i now ep t ep' :
    ep_accept i now ep = (Err (Some t), ep') -> (t_size t <= length (t_buf t))%nat;
  handle_size now addr data ep t ep' :
    ep_handle now addr data ep = (Some (DResponse t), ep') -> (t_size t <= length (t_buf t))%nat;
}.

(** A handshake completes at most once: while [handshaking c] the connection
    may still report [Connected]; reporting it, being lost and having drained
    end that, and no call brings it back. *)
Class HandshakeLaws `{Noq} := {
  handshaking : Connection -> bool;
  handshaking_op c c' : conn_op c c' -> handshaking c' = true -> handshaking c = true;
  handshaking_connected c c' :
    poll c = (Some Connected, c') -> handshaking c = true /\ handshaking c' = false;
  handshaking_lost c r c' : poll c = (Some (ConnectionLost r), c') -> handshaking c' = false;
  handshaking_drained c : is_drained c = true -> handshaking c = false;
}.

(** What a send stream's write promises: [stream_sent] is what it has accepted
    for delivery so far, and a write accepts a prefix of its argument. *)
Class StreamLaws `{Noq} := {
  stream_sent : StreamId -> Connection -> bytes;
  write_ok id b c n c' :
    send_write id b c = (Ok n, c') ->
    (n <= length b)%nat /\ stream_sent id c' = stream_sent id c ++ take n b;
  write_err id b c e c' :
    send_write id b c = (Err e, c') -> stream_sent id c' = stream_sent id c;
}.

(** ** An executable instance

    Connections are queues of what polling yields; the endpoint reads the
    first byte of a datagram as what it is. *)
Module Toy.
Record conn := MkConn {
  endpoint_events : list bool;
  events : list Event;
  transmits : list (SocketAddr * bytes);
  remote : option SocketAddr;
  protocol : option (option bytes);
  certs : option (list bytes);
  bi : list Z;
  uni : list Z;
  deadline : option Z;
  drained_flag : bool;
  closed_with : option (Z * bytes);
  credit : nat;
  written : bytes;
  inbox : bytes;
  fin : bool;
  recv_stopped : bool;
  datagrams : list bytes;
}.
#[export] Instance conn_eta : Eta conn := fun c =>
  MkConn (endpoint_events c) (events c) (transmits c) (remote c) (protocol c) (certs c)
    (bi c) (uni c) (deadline c) (drained_flag c) (closed_with c) (credit c) (written c)
    (inbox c) (fin c) (recv_stopped c) (datagrams c).

Definition fresh (r : SocketAddr) : conn :=
  MkConn [] [] [] (Some r) None None [] [] None false None 0 [] [] false false [].

(** An incoming connection, whose first datagram carries the peer's certificate. *)
Definition incoming (r : SocketAddr) (cert : bytes) : conn :=
  fresh r <| certs := Some [cert] |> <| events := [Connected] |>.

Definition event_work (e : Event) : nat := match e with Connected => 4 | _ => 1 end.
Definition toy_work (c : conn) : nat :=
  2 * length (endpoint_events c) + sum_list_with event_work (events c)
  + length (transmits c) + length (bi c) + length (uni c).

(** Once the handshake is over, no further event reports it. *)
Definition is_connected (e : Event) : bool := match e with Connected => true | _ => false end.
Definition ends_handshake (e : Event) : bool :=
  match e with Connected | ConnectionLost _ => true | _ => false end.
Definition after_event (e : Event) (l : list Event) : list Event :=
  if ends_handshake e then List.filter (fun e => negb (is_connected e)) l else l.

Definition home : SocketAddr := V4 [127; 0; 0; 1] 1.
Definition to_remote (c : conn) (b : bytes) : SocketAddr * bytes := (default home (remote c), b).

(** The endpoint hands out slots from a counter. *)
Definition handle_datagram (addr : SocketAddr) (data : bytes)
    : option (DatagramEvent Z bytes (SocketAddr * bytes)) :=
  match data with
  | t :: h :: rest =>
      if b2z t =? 1 then Some (DNewConnection (addr, rest))
      else if b2z t =? 2 then Some (DResponse (MkTransmit addr (length rest) rest))
      else if b2z t =? 3 then Some (DConnectionEvent (b2z h) rest)
      else None
  | _ => None
  end.

Definition take_opt {A} (l : list A) : option A * list A :=
  match l with x :: l => (Some x, l) | [] => (None, []) end.

Definition noq : Noq := {|
  Noq.Endpoint := Z;
  Connection := conn;
  Incoming := SocketAddr * bytes;
  ConnectionEvent := bytes;
  EndpointEvent := bool;
  ClientConfig := unit;
  ep_handle_event _ e ep := (if e then Some [] else None, ep);
  ep_handle _ addr data ep := (handle_datagram addr data, ep);
  ep_refuse i ep := (MkTransmit i.1 1 [Byte.xff; Byte.xff], ep);
  ep_accept i _ ep :=
    match i.2 with
    | [] => (Err None, ep)
    | cert => (Ok (ep, incoming i.1 cert), ep + 1)
    end;
  ep_connect _ _ remote ep := (Ok (ep, fresh remote), ep + 1);
  poll_endpoint_events c :=
    let '(e, l) := take_opt (endpoint_events c) in (e, c <| endpoint_events := l |>);
  handle_event e c := c <| transmits ::= fun l => l ++ [to_remote c e] |>;
  poll c :=
    match events c with
    | e :: l => (Some e, c <| events := after_event e l |>)
    | [] => (None, c)
    end;
  poll_transmit _ c :=
    let '(t, l) := take_opt (transmits c) in
    ((fun t => MkTransmit t.1 (length t.2) t.2) <$> t, c <| transmits := l |>);
  poll_timeout c := deadline c;
  handle_timeout _ c := c <| deadline := None |>;
  is_drained c := drained_flag c && negb (existsb is_connected (events c));
  conn_close _ code reason c :=
    match closed_with c with
    | Some _ => c
    | None =>
        c <| closed_with := Some (code, reason) |>
          <| transmits ::= fun l => l ++ [to_remote c reason] |>
          <| events ::= fun l => l ++ [ConnectionLost ConnectionError.LocallyClosed] |>
    end;
  network_remote c := remote c;
  handshake_data c := protocol c;
  peer_identity c := certs c;
  StreamId := Z;
  streams_accept d c :=
    match d with
    | Bi => let '(i, l) := take_opt (bi c) in (i, c <| bi := l |>)
    | Uni => let '(i, l) := take_opt (uni c) in (i, c <| uni := l |>)
    end;
  streams_open d c := (if (credit c =? 0)%nat then None else Some 0, c);
  datagrams_max_size c := Some 1200;
  datagrams_send b c :=
    if 1200 <? Z.of_nat (length b) then (Err SdTooLarge, c)
    else (Ok tt, c <| transmits ::= fun l => l ++ [to_remote c b] |>);
  datagrams_recv c := let '(d, l) := take_opt (datagrams c) in (d, c <| datagrams := l |>);
  send_write _ b c :=
    let n := Nat.min (credit c) (length b) in
    if (n =? 0)%nat && negb (length b =? 0)%nat then (Err WBlocked, c)
    else (Ok n, c <| credit ::= fun k => (k - n)%nat |> <| written ::= fun w => w ++ take n b |>);
  send_finish _ c := (Ok tt, c);
  send_reset _ _ c := c;
  recv_chunk _ max c :=
    if recv_stopped c then (Err RClosedStream, c)
    else match inbox c with
         | [] => (Ok (if fin c then Ok None else Err RBlocked), c)
         | l => (Ok (Ok (Some (take max l))), c <| inbox := drop max l |>)
         end;
  recv_stop _ _ c := c <| recv_stopped := true |>;
  public_key_from_ed25519_spki spki := try_into 32 (drop 12 spki);
|}.

Lemma after_event_work e l :
  (sum_list_with event_work (after_event e l) <= sum_list_with event_work l)%nat.
Proof.
  unfold after_event. destruct (ends_handshake e); [|done].
  induction l as [|x l IH]; simpl; [done|]. destruct (negb _); simpl; lia.
Qed.

Lemma after_event_connected e l :
  existsb is_connected (after_event e l) = negb (ends_handshake e) && existsb is_connected l.
Proof.
  unfold after_event. destruct (ends_handshake e); [|done]. simpl.
  induction l as [|x l IH]; simpl; [done|]. destruct x; simpl; done.
Qed.

(** The instance satisfies the laws. *)
Definition noq_laws : @NoqLaws noq.
Proof.
  refine (Build_NoqLaws noq toy_work _ _ _ _ _ _ _ _ _ _ _ _); simpl.
  - intros c e c'. destruct c as [ees]; destruct ees as [|e0 ees]; [done|].
    intros [= <- <-]. unfold toy_work. simpl. split; [lia|].
    intros h ep back ep' H. rewrite length_app. simpl. lia.
  - intros c ev c'. destruct c as [? evs]; destruct evs as [|e0 evs]; [done|].
    intros [= <- <-]. unfold toy_work. pose proof (after_event_work e0 evs). simpl.
    split; [destruct e0; simpl in *; lia|].
    intros -> now cd rs. simpl. case_match; simpl in *; [lia|].
    rewrite length_app, sum_list_with_app. simpl. lia.
  - intros [] c id c'; destruct c as [? ? ? ? ? ? b u]; unfold toy_work; simpl;
      [destruct b|destruct u]; intros [= <- <-]; simpl; lia.
  - intros _ c t c'. destruct c as [? ? ts]; destruct ts; [done|].
    intros [= <- <-]. unfold toy_work. simpl. lia.
  - intros c c'. destruct c as [? evs]; destruct evs; [|done]. by intros [= <-].
  - intros c c'. destruct c as [ees]; destruct ees; [|done]. by intros [= <-].
  - intros [] c c'; destruct c as [? ? ? ? ? ? b u]; simpl;
      [destruct b|destruct u]; try done; by intros [= <-].
  - intros _ c c'. destruct c as [? ? ts]; destruct ts; [|done]. by intros [= <-].
  - intros _ c t c'. destruct c as [? ? ts]; destruct ts; [done|]. by intros [= <- <-].
  - intros i ep t ep' [= <- <-]. simpl. lia.
  - intros [a l] now ep t ep'. by destruct l.
  - intros now addr data ep t ep'. destruct data as [|b0 [|b1 l]]; [done..|]. simpl.
    repeat case_match; intros; simplify_eq/=; lia.
Defined.

Definition handshake_laws : @HandshakeLaws noq.
Proof.
  refine (Build_HandshakeLaws noq (fun c => existsb is_connected (events c)) _ _ _ _); simpl.
  - intros c c' Hop. destruct Hop as [c e c' H|ev c|c ev c' H Hev|now c t c' H|now c|now cd rs c
      |d c id c' H|d c id c' H|b c r c' H|c r c' H|id b c r c' H|id c r c' H|id cd c|id max c r c' H
      |id cd c]; simpl in *; repeat case_match; simplify_eq/=; try done;
      try (by rewrite existsb_app; simpl; rewrite orb_false_r);
      try (by match goal with E : events _ = [] |- _ => rewrite E end).
    rewrite after_event_connected, andb_true_iff, orb_true_iff. tauto.
  - intros c c'. destruct (events c) as [|e l] eqn:E; [done|]. intros [= -> <-]. simpl.
    by rewrite after_event_connected.
  - intros c r c'. destruct (events c) as [|e l] eqn:E; [done|]. intros [= -> <-]. simpl.
    by rewrite after_event_connected.
  - intros c [_ Hn]%andb_true_iff. by destruct (existsb _ _).
Defined.

Definition stream_laws : @StreamLaws noq.
Proof.
  refine (Build_StreamLaws noq (fun _ c => written c) _ _); simpl.
  - intros _ b c n c'. case_match; intros; simplify_eq/=. split; [lia|done].
  - intros _ b c e c'. case_match; intros; by simplify_eq/=.
Defined.
End Toy.
