(* ===== verification/Identity.v ===== *)
(** The node identity ([core/src/crypto/sign.rs], [core/src/tls.rs] and the
    identity interfaces of [endpoint/src/identity.rs]): its constructors with
    their checks in order, the signer handed to rustls, and the TLS
    configurations. The webcrypto handles, [ed25519_dalek] and rustls' SPKI
    encoding are third parties: a class. *)
From S2P Require Import Prelude RelayFrames Types Noq.
From stdpp Require Import pretty.

(** ** Third parties *)

Inductive SignatureScheme := ED25519 | OtherScheme (code : Z).
#[export] Instance SignatureScheme_eq_dec : EqDecision SignatureScheme.
Proof. solve_decision. Defined.

(** [rustls::Error], the variant the signers build, and
    [rustls::SignatureAlgorithm]. *)
Inductive RustlsError := General (msg : string).
Inductive SignatureAlgorithm := AlgED25519 | OtherAlgorithm (code : Z).

(** The rustls traits a TLS identity implements. A [Box<dyn Signer>] and an
    [Arc<dyn SigningKey>] are a value packed with its implementation. *)
Class Signer (S : Type) := {
  signer_sign : S -> bytes -> Result bytes RustlsError;
  scheme : S -> SignatureScheme;
}.
Record dyn_signer := Boxed { signer_type : Type; signer_self : signer_type; signer_impl : Signer signer_type }.
Arguments Boxed {_} _ {_}.

Class SigningKey (K : Type) := {
  choose_scheme : K -> list SignatureScheme -> option dyn_signer;
  public_key : K -> option bytes;
  algorithm : K -> SignatureAlgorithm;
}.
Record dyn_signing_key := Shared { key_type : Type; key_self : key_type; key_impl : SigningKey key_type }.
Arguments Shared {_} _ {_}.

(** Calls through the packages. *)
#[export] Instance dyn_Signer : Signer dyn_signer := {
  signer_sign b := @signer_sign _ (signer_impl b) (signer_self b);
  scheme b := @scheme _ (signer_impl b) (signer_self b);
}.
#[export] Instance dyn_SigningKey : SigningKey dyn_signing_key := {
  choose_scheme a := @choose_scheme _ (key_impl a) (key_self a);
  public_key a := @public_key _ (key_impl a) (key_self a);
  algorithm a := @algorithm _ (key_impl a) (key_self a);
}.

Class Crypto := {
  (** [polymorph_webcrypto_guest]: handles and the error's two renderings. *)
  WcSigningKey : Type;
  VerifyingKey : Type;
  WcError : Type;
  wc_debug : WcError -> string;
  wc_display : WcError -> string;
  generate_key : bool -> bool -> Result (WcSigningKey * VerifyingKey) WcError;
  signing_algorithm_name : WcSigningKey -> string;
  verifying_algorithm_name : VerifyingKey -> string;
  can_sign : WcSigningKey -> bool;
  export_key_raw : VerifyingKey -> Result bytes WcError;
  wc_sign : WcSigningKey -> bytes -> Result bytes WcError;
  wc_verify : VerifyingKey -> bytes -> bytes -> Result unit WcError;
  (** [ed25519_dalek]. *)
  DalekKey : Type;
  from_bytes : array 32 -> DalekKey;
  dalek_public : DalekKey -> array 32;
  dalek_sign : DalekKey -> bytes -> bytes;
  (** [rustls]: the Ed25519 SPKI around a raw key. *)
  public_key_to_spki : bytes -> bytes;
}.

(** The SPKI encoding and [polymorph_tls_profile]'s decoding agree. *)
Class SpkiLaws `{Noq} `{Crypto} := {
  spki_roundtrip k : public_key_from_ed25519_spki (public_key_to_spki (array_bytes k)) = Some k;
}.

Section Identity.
Context {C : Crypto}.

(** ** [Identity] *)

Record WebcryptoEd25519 := MkWebcryptoEd25519 { wc_key : WcSigningKey; wc_spki : bytes }.
Record GuestEd25519 := MkGuestEd25519 { guest_key : DalekKey; guest_spki : bytes }.

Inductive SignerKind :=
| Webcrypto (key : WebcryptoEd25519)
| Guest (key : GuestEd25519).

Record Identity := MkIdentity {
  key : SignerKind;
  endpoint_id : array 32;
}.

Definition key_32 (raw : bytes) : Result (array 32) string :=
  ok_or ("expected 32-byte Ed25519 public key, got " +:+ pretty (N.of_nat (length raw))) (try_into 32 raw).

(** [Identity::generate]: a key that signs and is not extractable. *)
Definition generate : Result Identity string :=
  let? keys := map_err (fun e => "generate identity: " +:+ wc_debug e) (generate_key true false) in
  let '(signing, verifying) := keys in
  let? raw := map_err (fun e => "export identity public key: " +:+ wc_debug e) (export_key_raw verifying) in
  let? id := key_32 raw in
  Ok (MkIdentity (Webcrypto (MkWebcryptoEd25519 signing (public_key_to_spki raw))) id).

Definition PROBE : bytes := str_bytes "polymorph:iroh endpoint identity possession probe".

(** [Identity::from_injected]. *)
Definition from_injected (signing : WcSigningKey) (verifying : VerifyingKey) : Result Identity string :=
  if negb (bool_decide (signing_algorithm_name signing = "Ed25519"%string)) then
    Err ("identity signing key is " +:+ signing_algorithm_name signing +:+ ", not Ed25519")
  else if negb (bool_decide (verifying_algorithm_name verifying = "Ed25519"%string)) then
    Err ("identity verifying key is " +:+ verifying_algorithm_name verifying +:+ ", not Ed25519")
  else if negb (can_sign signing) then Err "identity signing key does not permit sign"%string
  else
    let? raw := map_err (fun e => "export identity public key: " +:+ wc_display e) (export_key_raw verifying) in
    let? id := key_32 raw in
    let? sig := map_err (fun e => "identity probe signature: " +:+ wc_display e) (wc_sign signing PROBE) in
    let? _ := map_err (fun _ => "identity mismatch: the verifying key is not the signing key's public half"%string)
                (wc_verify verifying PROBE sig) in
    Ok (MkIdentity (Webcrypto (MkWebcryptoEd25519 signing (public_key_to_spki raw))) id).

(** [Identity::from_seed]. *)
Definition from_seed (seed : bytes) : Result Identity string :=
  let? seed := ok_or ("expected a 32-byte Ed25519 seed, got " +:+ pretty (N.of_nat (length seed)))
                 (try_into 32 seed) in
  let k := from_bytes seed in
  let id := dalek_public k in
  Ok (MkIdentity (Guest (MkGuestEd25519 k (public_key_to_spki (array_bytes id)))) id).

(** ** The rustls signers: one implementation of the traits per kind of key *)

(** [struct WebcryptoEd25519Signer(Arc<SigningKey>)]. *)
Record WebcryptoEd25519Signer := MkWebcryptoEd25519Signer { wcs_key : WcSigningKey }.

Definition webcrypto_signer_sign (s : WebcryptoEd25519Signer) (message : bytes) : Result bytes RustlsError :=
  map_err (fun e => General ("webcrypto ed25519 sign: " +:+ wc_debug e)) (wc_sign (wcs_key s) message).
Definition webcrypto_scheme (s : WebcryptoEd25519Signer) : SignatureScheme := ED25519.
#[export] Instance WebcryptoEd25519Signer_Signer : Signer WebcryptoEd25519Signer := {
  signer_sign := webcrypto_signer_sign; scheme := webcrypto_scheme }.

Definition webcrypto_choose_scheme (k : WebcryptoEd25519) (offered : list SignatureScheme) : option dyn_signer :=
  if decide (ED25519 ∈ offered) then Some (Boxed (MkWebcryptoEd25519Signer (wc_key k))) else None.
Definition webcrypto_public_key (k : WebcryptoEd25519) : option bytes := Some (wc_spki k).
Definition webcrypto_algorithm (k : WebcryptoEd25519) : SignatureAlgorithm := AlgED25519.
#[export] Instance WebcryptoEd25519_SigningKey : SigningKey WebcryptoEd25519 := {
  choose_scheme := webcrypto_choose_scheme; public_key := webcrypto_public_key; algorithm := webcrypto_algorithm }.

(** [struct GuestEd25519Signer(ed25519_dalek::SigningKey)]. *)
Record GuestEd25519Signer := MkGuestEd25519Signer { gs_key : DalekKey }.

Definition guest_signer_sign (s : GuestEd25519Signer) (message : bytes) : Result bytes RustlsError :=
  Ok (dalek_sign (gs_key s) message).
Definition guest_scheme (s : GuestEd25519Signer) : SignatureScheme := ED25519.
#[export] Instance GuestEd25519Signer_Signer : Signer GuestEd25519Signer := {
  signer_sign := guest_signer_sign; scheme := guest_scheme }.

(** [GuestEd25519::sign], the inherent method. *)
Definition guest_sign (k : GuestEd25519) (message : bytes) : bytes := dalek_sign (guest_key k) message.

Definition guest_choose_scheme (k : GuestEd25519) (offered : list SignatureScheme) : option dyn_signer :=
  if decide (ED25519 ∈ offered) then Some (Boxed (MkGuestEd25519Signer (guest_key k))) else None.
Definition guest_public_key (k : GuestEd25519) : option bytes := Some (guest_spki k).
Definition guest_algorithm (k : GuestEd25519) : SignatureAlgorithm := AlgED25519.
#[export] Instance GuestEd25519_SigningKey : SigningKey GuestEd25519 := {
  choose_scheme := guest_choose_scheme; public_key := guest_public_key; algorithm := guest_algorithm }.

(** [Identity::signing_key]: the key itself, as an [Arc<dyn SigningKey>]. *)
Definition signing_key (i : Identity) : dyn_signing_key :=
  match key i with
  | Webcrypto k => Shared k
  | Guest k => Shared k
  end.

(** [Identity::sign]. *)
Definition sign (i : Identity) (message : bytes) : Result bytes string :=
  match key i with
  | Webcrypto k => map_err (fun e => "webcrypto ed25519 sign: " +:+ wc_debug e) (wc_sign (wc_key k) message)
  | Guest k => Ok (guest_sign k message)
  end.

(** ** The component's constructors ([endpoint/src/identity.rs]) *)

Definition generate_res : Result Identity Error :=
  map_err (fun e => Other ("generate identity: " +:+ e)) generate.
Definition from_keys (signing : WcSigningKey) (verifying : VerifyingKey) : Result Identity Error :=
  map_err InvalidArgument (from_injected signing verifying).
Definition from_seed_res (seed : bytes) : Result Identity Error := map_err InvalidArgument (from_seed seed).
Definition endpoint_id_res (i : Identity) : bytes := array_bytes (endpoint_id i).

(** An identity some constructor returned. *)
Inductive constructed : Identity -> Prop :=
| by_generate i : generate_res = Ok i -> constructed i
| by_keys s v i : from_keys s v = Ok i -> constructed i
| by_seed s i : from_seed_res s = Ok i -> constructed i.

(** ** [tls.rs]

    [polymorph_tls]'s configurations and [RpkIdentity::external] are
    arguments. *)
Section Tls.
Context {Rpk ClientCfg ServerCfg : Type}.
Variable external : dyn_signing_key -> Result Rpk string.
Variable rpk_client_config : Rpk -> array 32 -> list bytes -> Result ClientCfg string.
Variable rpk_server_config : Rpk -> list bytes -> Result ServerCfg string.

Definition rpk_identity (i : Identity) : Result Rpk string :=
  map_err (fun e => "identity is not rpk-shaped: " +:+ e) (external (signing_key i)).
Definition client_config (i : Identity) (expected_server : array 32) (alpns : list bytes)
    : Result ClientCfg string :=
  let? r := rpk_identity i in rpk_client_config r expected_server alpns.
Definition server_config (i : Identity) (alpns : list bytes) : Result ServerCfg string :=
  let? r := rpk_identity i in rpk_server_config r alpns.
End Tls.

(** ** Theorems *)

Lemma result_bind_Ok {A B E} (r : Result A E) (k : A -> Result B E) b :
  result_bind r k = Ok b <-> exists a, r = Ok a /\ k a = Ok b.
Proof. destruct r; simpl; naive_solver. Qed.
Lemma map_err_Ok {A E F} (f : E -> F) (r : Result A E) a : map_err f r = Ok a <-> r = Ok a.
Proof. destruct r; simpl; naive_solver. Qed.
Lemma ok_or_Ok {A E} (e : E) (o : option A) a : ok_or e o = Ok a <-> o = Some a.
Proof. destruct o; simpl; naive_solver. Qed.

(** What the checks of [from_injected] establish. *)
Lemma from_injected_Ok s v i :
  from_injected s v = Ok i <->
  signing_algorithm_name s = "Ed25519"%string /\ verifying_algorithm_name v = "Ed25519"%string /\
  can_sign s = true /\ export_key_raw v = Ok (array_bytes (endpoint_id i)) /\
  (exists sig, wc_sign s PROBE = Ok sig /\ wc_verify v PROBE sig = Ok tt) /\
  key i = Webcrypto (MkWebcryptoEd25519 s (public_key_to_spki (array_bytes (endpoint_id i)))).
Proof.
  unfold from_injected. case_bool_decide; simpl; [|naive_solver].
  case_bool_decide; simpl; [|naive_solver].
  destruct (can_sign s); simpl; [|naive_solver]. unfold key_32.
  rewrite result_bind_Ok. split.
  - intros (raw & Hraw%map_err_Ok & (id & Hid%ok_or_Ok & Hi)%result_bind_Ok).
    apply result_bind_Ok in Hi as (sig & Hsig%map_err_Ok & ([] & Hver%map_err_Ok & [= <-])%result_bind_Ok).
    apply try_into_Some in Hid as [Hid _]. simpl. rewrite Hid. eauto 10.
  - intros (_ & _ & _ & Hraw & (sig & Hsig & Hver) & Hk). eexists.
    rewrite Hraw. split; [done|].
    apply result_bind_Ok. exists (endpoint_id i). rewrite try_into_array. split; [done|].
    rewrite Hsig. simpl. rewrite Hver. simpl. destruct i; simpl in *. by rewrite <- Hk.
Qed.

Lemma constructed_key i :
  constructed i -> public_key (signing_key i) = Some (public_key_to_spki (array_bytes (endpoint_id i))).
Proof.
  destruct 1 as [i H|s v i H|s i H].
  - apply map_err_Ok in H. unfold generate in H. apply result_bind_Ok in H as ([sg vf] & _ & H).
    apply result_bind_Ok in H as (raw & _ & H). apply result_bind_Ok in H as (id & Hid%ok_or_Ok & [= <-]).
    apply try_into_Some in Hid as [Hid _]. simpl. by rewrite Hid.
  - apply map_err_Ok, from_injected_Ok in H. destruct H as (_ & _ & _ & _ & _ & Hk).
    simpl. unfold signing_key. by rewrite Hk.
  - apply map_err_Ok in H. unfold from_seed in H. by apply result_bind_Ok in H as (sd & _ & [= <-]).
Qed.

(** The two implementations agree with [Identity::sign]. *)
Lemma choose_scheme_sign i offered :
  match choose_scheme (signing_key i) offered with
  | Some s => ED25519 ∈ offered /\ scheme s = ED25519 /\
      forall m, signer_sign s m = map_err General (sign i m)
  | None => ED25519 ∉ offered
  end.
Proof.
  unfold signing_key, sign. destruct (key i) as [k|k]; simpl;
    unfold webcrypto_choose_scheme, guest_choose_scheme; case_decide; simpl; try done.
  split_and!; [done..|]. intros m. unfold webcrypto_signer_sign. by destruct wc_sign.
Qed.

(** C39. An identity in hand is valid: whichever constructor returned it, the
    raw public key its TLS signer presents decodes to the endpoint id it
    reports, so what a peer authenticates is what it was told to expect; its
    algorithm is Ed25519, and its TLS signatures are those of [sign] (an error
    becoming rustls' general error) under the Ed25519 scheme, available exactly
    when that scheme is offered. *)
Theorem identity_valid `{!Noq} `{!SpkiLaws} i offered :
  constructed i ->
  (exists spki, public_key (signing_key i) = Some spki /\
     endpoint_id_from_spki spki = Some (endpoint_id i)) /\
  length (endpoint_id_res i) = 32%nat /\
  algorithm (signing_key i) = AlgED25519 /\
  match choose_scheme (signing_key i) offered with
  | Some s => ED25519 ∈ offered /\ scheme s = ED25519 /\
      forall m, signer_sign s m = map_err General (sign i m)
  | None => ED25519 ∉ offered
  end.
Proof.
  intros Hc%constructed_key. split_and!.
  - eexists. split; [exact Hc|]. unfold endpoint_id_from_spki. apply spki_roundtrip.
  - apply array_length.
  - unfold signing_key. by destruct (key i).
  - apply choose_scheme_sign.
Qed.

(** C40. Injected pairs: [from_keys] accepts exactly the pairs of an Ed25519
    signing key that may sign and an Ed25519 verifying key that exports 32 bytes
    and verifies the signing key's probe signature, and the identity signs with
    that key under that public key; every other pair is an invalid argument. A
    seed is accepted exactly when it is 32 bytes. *)
Theorem from_keys_contract s v seed :
  (forall i, from_keys s v = Ok i <->
     signing_algorithm_name s = "Ed25519"%string /\ verifying_algorithm_name v = "Ed25519"%string /\
     can_sign s = true /\ export_key_raw v = Ok (endpoint_id_res i) /\
     (exists sig, wc_sign s PROBE = Ok sig /\ wc_verify v PROBE sig = Ok tt) /\
     key i = Webcrypto (MkWebcryptoEd25519 s (public_key_to_spki (endpoint_id_res i)))) /\
  (forall e, from_keys s v = Err e -> exists msg, e = InvalidArgument msg) /\
  match from_seed_res seed with
  | Ok i => exists a, array_bytes a = seed /\ endpoint_id i = dalek_public (from_bytes a) /\
              forall m, sign i m = Ok (dalek_sign (from_bytes a) m)
  | Err e => length seed <> 32%nat /\ exists msg, e = InvalidArgument msg
  end.
Proof.
  split_and!.
  - intros i. unfold from_keys. rewrite map_err_Ok. apply from_injected_Ok.
  - unfold from_keys. destruct (from_injected s v); naive_solver.
  - unfold from_seed_res, from_seed. destruct (try_into 32 seed) as [a|] eqn:Ha; simpl.
    + apply try_into_Some in Ha as [<- _]. by exists a.
    + apply try_into_None in Ha. eauto.
Qed.

End Identity.

Arguments Crypto : clear implicits.
