(* ===== verification/State.v ===== *)
(** The endpoint's shared state ([State] of [endpoint/src/endpoint_impl.rs]),
    its operations on peers, routes, relays, channels and signaling sessions,
    and the invariant they keep. An [Rc] is the address of what it points to; a
    call that reaches outside the state (a waker fired, a wire closed, a task
    spawned) is appended to the [effects] log. *)
From S2P Require Import Prelude RelayFrames Types Noq.

(** ** Data *)

Abbreviation Waker := Z (only parsing).
(** [Rc<RelayConn>] and [Rc<ChannelWire>]: equality is [Rc::ptr_eq]. *)
Abbreviation RelayRef := Z (only parsing).
Abbreviation ChannelRef := Z (only parsing).

Inductive Effect :=
| Wake (w : Waker)
| CloseRelay (conn : RelayRef)
| CloseChannel (wire : ChannelRef)
| SpawnAnswer (peer : EndpointId)
| SpawnUpgrade (peer : EndpointId) (via : Z)
| SpawnPing (conn : RelayRef) (data : array 8).

Inductive RouteWire :=
| RouteRelay (key : Z)
| RouteChannel (id : Z).

#[export] Instance Effect_eq_dec : EqDecision Effect.
Proof. solve_decision. Defined.
#[export] Instance RouteWire_eq_dec : EqDecision RouteWire.
Proof. solve_decision. Defined.

Definition HOME_RELAY : Z := 0.

(** Unread-signal cap per peer ([INBOX_CAP] of [handle_signal]). *)
Definition INBOX_CAP : nat := 64.

Record ChannelEntry := MkChannelEntry {
  ch_wire : ChannelRef;
  ch_peer : EndpointId;
  fallback_relay : Z;
}.

Section State.
Context {N : Noq}.

Record ConnEntry := MkConnEntry {
  conn : Connection;
  epoch : Z;
  expected_peer : option EndpointId;
  peer : option EndpointId;
  accepted_side : bool;
  connected : bool;
  alpn : bytes;
  error : option Error;
  peer_close : option CloseInfo;
  drained : bool;
  bi_queue : list StreamId;
  uni_queue : list StreamId;
}.
#[export] Instance ConnEntry_eta : Eta ConnEntry := fun e =>
  MkConnEntry (conn e) (epoch e) (expected_peer e) (peer e) (accepted_side e) (connected e)
    (alpn e) (error e) (peer_close e) (drained e) (bi_queue e) (uni_queue e).

Definition ConnEntry_new (c : Connection) (expected : option EndpointId) (accepted : bool)
    (ep : Z) : ConnEntry :=
  MkConnEntry c ep expected None accepted false [] None None false [] [].

Record State := MkState {
  noq : Endpoint;
  conns : gmap ConnectionHandle ConnEntry;
  next_conn_epoch : Z;
  peer_to_addr : gmap EndpointId SocketAddr;
  addr_to_peer : gmap SocketAddr EndpointId;
  next_host : Z;
  accept_queue : list (ConnectionHandle * Z);
  relay_outbound : list (Z * EndpointId * bytes);
  udp_outbound : list (SocketAddr * bytes);
  channel_outbound : list (Z * bytes);
  routes : gmap SocketAddr RouteWire;
  relay_pool : gmap Z RelayRef;
  relay_keys : gmap string Z;
  relay_opening : gset string;
  new_relays : list (Z * RelayRef);
  next_relay_key : Z;
  pending_upgrades : list (EndpointId * Z);
  webrtc_enabled : bool;
  signaling : gmap EndpointId Z;
  signal_inboxes : gmap EndpointId (list bytes);
  channels : gmap Z ChannelEntry;
  new_channels : list (Z * ChannelRef);
  next_channel_id : Z;
  closed : bool;
  closed_at : option Instant;
  waiters : list Waker;
  pump_waker : option Waker;
  pump_kicked : bool;
  (** The calls made outside the state, oldest first. *)
  effects : list Effect;
}.
#[export] Instance State_eta : Eta State := fun s =>
  MkState (noq s) (conns s) (next_conn_epoch s) (peer_to_addr s) (addr_to_peer s) (next_host s)
    (accept_queue s) (relay_outbound s) (udp_outbound s) (channel_outbound s) (routes s)
    (relay_pool s) (relay_keys s) (relay_opening s) (new_relays s) (next_relay_key s)
    (pending_upgrades s) (webrtc_enabled s) (signaling s) (signal_inboxes s) (channels s)
    (new_channels s) (next_channel_id s) (closed s) (closed_at s) (waiters s) (pump_waker s)
    (pump_kicked s) (effects s).

(** [State::new]. *)
Definition State_new (ep : Endpoint) (webrtc : bool) : State :=
  MkState ep ∅ 0 ∅ ∅ 0 [] [] [] [] ∅ ∅ ∅ ∅ [] 0 [] webrtc ∅ ∅ ∅ [] 0 false None [] None false [].

Definition emit (es : list Effect) (st : State) : State := st <| effects ::= fun l => l ++ es |>.

(** ** Operations *)

Definition doc_prefix_addr (space host : Z) : SocketAddr :=
  v6_addr [0x2001; 0xdb8; space; 0; 0; 0; wrap16 (Z.shiftr host 16); wrap16 host] 4433.

Definition addr_for_peer (p : EndpointId) (via : Z) (st : State) : SocketAddr * State :=
  match peer_to_addr st !! p with
  | Some addr => (addr, st)
  | None =>
      let host := wrap32 (next_host st + 1) in
      let addr := doc_prefix_addr 0x77 host in
      (addr, st <| next_host := host |>
                <| peer_to_addr ::= <[p := addr]> |>
                <| addr_to_peer ::= <[addr := p]> |>
                <| routes ::= <[addr := RouteRelay via]> |>)
  end.

Definition wake_waiters (st : State) : State :=
  emit (Wake <$> waiters st) (st <| waiters := [] |>).

Definition kick_pump (st : State) : State :=
  let st := st <| pump_kicked := true |> in
  match pump_waker st with
  | Some w => emit [Wake w] (st <| pump_waker := None |>)
  | None => st
  end.

Definition is_closed (st : State) : bool := closed st.

(** [str::trim_end_matches('/')]. *)
Fixpoint trim_slashes (s : string) : string :=
  match s with
  | EmptyString => EmptyString
  | String c s' =>
      let t := trim_slashes s' in
      if decide (c = Ascii.ascii_of_nat 47 /\ t = EmptyString) then EmptyString else String c t
  end.
Definition normalize_relay_url (url : string) : string := trim_slashes url.

Definition register_relay (url : string) (c : RelayRef) (st : State) : Z * State :=
  let key := next_relay_key st in
  (key, kick_pump
    (st <| next_relay_key := wrap32 (key + 1) |>
        <| relay_pool ::= <[key := c]> |>
        <| relay_keys ::= <[normalize_relay_url url := key]> |>
        <| new_relays ::= fun l => l ++ [(key, c)] |>)).

Definition begin_signaling (p : EndpointId) (relay : Z) (st : State) : Result unit Error * State :=
  match signaling st !! p with
  | Some _ =>
      (Err (ConnectFailed "a webrtc signaling session with this peer is already active"), st)
  | None => (Ok tt, st <| signaling ::= <[p := relay]> |>)
  end.

Definition end_signaling (p : EndpointId) (st : State) : State :=
  st <| signaling ::= delete p |> <| signal_inboxes ::= delete p |>.

Definition signaling_relay (p : EndpointId) (st : State) : option Z := signaling st !! p.

Definition push_signal_outbound (relay : Z) (p : EndpointId) (payload : bytes) (st : State) : State :=
  kick_pump (st <| relay_outbound ::= fun l => l ++ [(relay, p, payload)] |>).

Definition pop_signal_inbox (p : EndpointId) (st : State) : option bytes * State :=
  match signal_inboxes st !! p with
  | Some (payload :: rest) => (Some payload, st <| signal_inboxes ::= <[p := rest]> |>)
  | _ => (None, st)
  end.

Definition register_channel (p : EndpointId) (wire : ChannelRef) (st : State)
    : Result unit Error * State :=
  if closed st then (Err Closed, emit [CloseChannel wire] st)
  else
    let fallback := default HOME_RELAY (signaling_relay p st) in
    let id := wrap32 (next_channel_id st + 1) in
    let st := st <| next_channel_id := id |>
                 <| channels ::= <[id := MkChannelEntry wire p fallback]> |>
                 <| new_channels ::= fun l => l ++ [(id, wire)] |> in
    let '(synthetic, st) := addr_for_peer p fallback st in
    (Ok tt, kick_pump (st <| routes ::= <[synthetic := RouteChannel id]> |>)).

Definition retire_relay (key : Z) (st : State) : option RelayRef * State :=
  (relay_pool st !! key,
   st <| relay_pool ::= delete key |> <| relay_keys ::= filter (fun kv => kv.2 <> key) |>).

Definition retire_channel (id : Z) (st : State) : State :=
  match channels st !! id with
  | None => st
  | Some entry =>
      let st := st <| channels ::= delete id |> in
      match peer_to_addr st !! ch_peer entry with
      | Some synthetic =>
          if decide (routes st !! synthetic = Some (RouteChannel id))
          then st <| routes ::= <[synthetic := RouteRelay (fallback_relay entry)]> |>
          else st
      | None => st
      end
  end.

(** [handle_signal]: the answerer session is the [SpawnAnswer] effect. *)
Definition handle_signal (via : Z) (source : EndpointId) (payload : bytes) (st : State) : State :=
  if negb (webrtc_enabled st) || closed st then st
  else
    let spawn_answerer := match signaling st !! source with None => true | Some _ => false end in
    let st := if spawn_answerer then st <| signaling ::= <[source := via]> |> else st in
    let inbox := default [] (signal_inboxes st !! source) in
    let inbox := if (length inbox <? INBOX_CAP)%nat then inbox ++ [payload] else inbox in
    let st := wake_waiters (st <| signal_inboxes ::= <[source := inbox]> |>) in
    if spawn_answerer then emit [SpawnAnswer source] st else st.

Definition entry_for (st : State) (handle : ConnectionHandle) (ep : Z) : option ConnEntry :=
  match conns st !! handle with
  | Some e => if epoch e =? ep then Some e else None
  | None => None
  end.

(** Mutation through [entry_for]'s reference. *)
Definition set_entry (handle : ConnectionHandle) (e : ConnEntry) (st : State) : State :=
  st <| conns ::= <[handle := e]> |>.

(** [current_path]. *)
Definition current_path (st : State) (handle : ConnectionHandle) (ep : Z) : PathKind :=
  match entry_for st handle ep with
  | None => PkRelay
  | Some e =>
      match network_remote (conn e) with
      | None => PkRelay
      | Some remote =>
          match routes st !! remote with
          | Some (RouteChannel _) => PkWebrtc
          | Some (RouteRelay _) => PkRelay
          | None => PkIp
          end
      end
  end.

(** ** [wait_until] and [kicked]

    One poll of the future: the check runs against the state; without a result
    the task's waker is parked. *)
Inductive Poll (R : Type) := Ready (r : R) | Pending.
Arguments Ready {R} _.
Arguments Pending {R}.

Definition wait_until_poll {R} (check : State -> option R * State) (w : Waker) (st : State)
    : Poll R * State :=
  let '(r, st) := check st in
  match r with
  | Some r => (Ready r, st)
  | None => (Pending, st <| waiters ::= fun l => l ++ [w] |>)
  end.

Definition kicked_poll (w : Waker) (st : State) : Poll unit * State :=
  if pump_kicked st then (Ready tt, st <| pump_kicked := false |>)
  else (Pending, st <| pump_waker := Some w |>).

End State.

Arguments ConnEntry {N}.
Arguments State {N}.
Arguments Poll R : clear implicits.
Arguments Ready {R} _.
Arguments Pending {R}.
