(* ===== verification/StateInv.v ===== *)
(** The invariant of the shared state and its preservation by the operations
    of [State.v], with the functional contract of each. The invariant is four
    independent parts, each a predicate on the fields it constrains, so an
    operation that leaves those fields alone preserves the part by conversion. *)
From S2P Require Import Prelude RelayFrames Types Noq State.

(** ** Standin addresses *)

Definition standin (host : Z) : SocketAddr := doc_prefix_addr 0x77 host.

Lemma standin_inj h1 h2 :
  0 <= h1 < 2 ^ 32 -> 0 <= h2 < 2 ^ 32 -> standin h1 = standin h2 -> h1 = h2.
Proof.
  unfold standin, doc_prefix_addr, v6_addr, wrap16. intros H1 H2 [= Hhi Hlo].
  rewrite !Z.shiftr_div_pow2 in Hhi by lia.
  rewrite !(Z.mod_small (_ / _)) in Hhi by (split; [apply Z.div_pos|apply Z.div_lt_upper_bound]; lia).
  rewrite (Z.div_mod h1 (2 ^ 16)), (Z.div_mod h2 (2 ^ 16)) by lia. congruence.
Qed.

Lemma wrap32_succ_eq n : 0 <= n < u32_max -> wrap32 (n + 1) = n + 1.
Proof. unfold u32_max. intros. apply wrap32_small. lia. Qed.

Section Invariant.
Context {N : Noq}.
Implicit Types st : State.

(** ** The parts *)

(** Peers and standins are in bijection, every standin is routed and only
    standins are, standins are drawn from the counter's range, and a channel
    route names a live channel to the peer of that standin. *)
Record addr_inv (p2a : gmap EndpointId SocketAddr) (a2p : gmap SocketAddr EndpointId)
    (host : Z) (rt : gmap SocketAddr RouteWire) (ch : gmap Z ChannelEntry) (next_ch : Z) : Prop := {
  ai_host : 0 <= host < 2 ^ 32;
  ai_peers p a : p2a !! p = Some a <-> a2p !! a = Some p;
  ai_routes a : is_Some (rt !! a) <-> is_Some (a2p !! a);
  ai_standin a p : a2p !! a = Some p -> exists h, 1 <= h <= host /\ a = standin h;
  ai_channel a id : rt !! a = Some (RouteChannel id) ->
    exists e, ch !! id = Some e /\ p2a !! ch_peer e = Some a;
  ai_ids id e : ch !! id = Some e -> 1 <= id <= next_ch;
  ai_next : 0 <= next_ch < 2 ^ 32;
}.

(** Pool keys are below the counter, and a URL maps to the home relay or to a
    relay that is in the pool. *)
Record relay_inv (pool : gmap Z RelayRef) (keys : gmap string Z) (next : Z) : Prop := {
  ri_next : 0 <= next < 2 ^ 32;
  ri_pool k c : pool !! k = Some c -> 0 <= k < next;
  ri_keys url k : keys !! url = Some k ->
    0 <= k < next /\ (k = HOME_RELAY \/ is_Some (pool !! k));
}.

(** Unread signals belong to an active session and are bounded. *)
Definition signal_inv (sessions : gmap EndpointId Z) (inboxes : gmap EndpointId (list bytes)) : Prop :=
  forall p q, inboxes !! p = Some q -> is_Some (sessions !! p) /\ (length q <= INBOX_CAP)%nat.

(** A connection that counts as connected has a peer, and it is the one the
    connection was required to authenticate as. *)
Definition authenticated (e : ConnEntry) : Prop :=
  connected e = true ->
  exists id, peer e = Some id /\ (expected_peer e = None \/ expected_peer e = Some id).

(** Epochs are below the counter, in the table and in the accept queue; a
    queued stamp that still names its connection names a connected, accepted
    one; connected entries are authenticated. *)
Record conn_inv (cs : gmap ConnectionHandle ConnEntry) (next : Z) (queue : list (ConnectionHandle * Z))
    : Prop := {
  ci_next : 0 <= next < 2 ^ 64;
  ci_epoch h e : cs !! h = Some e -> 0 <= epoch e < next;
  ci_queue h ep : (h, ep) ∈ queue -> 0 <= ep < next;
  ci_ready h ep e : (h, ep) ∈ queue -> cs !! h = Some e -> epoch e = ep ->
    accepted_side e = true /\ connected e = true;
  ci_auth h e : cs !! h = Some e -> authenticated e;
}.

Record wf (st : State) : Prop := {
  wf_addr : addr_inv (peer_to_addr st) (addr_to_peer st) (next_host st) (routes st)
              (channels st) (next_channel_id st);
  wf_relay : relay_inv (relay_pool st) (relay_keys st) (next_relay_key st);
  wf_signal : signal_inv (signaling st) (signal_inboxes st);
  wf_conn : conn_inv (conns st) (next_conn_epoch st) (accept_queue st);
}.

(** The counters have room: fewer than 2^32 - 1 peers, channels and relays
    and fewer than 2^64 - 1 connections so far. *)
Record room (st : State) : Prop := {
  room_host : next_host st < u32_max;
  room_channel : next_channel_id st < u32_max;
  room_relay : next_relay_key st < u32_max;
  room_epoch : next_conn_epoch st < u64_max;
}.

End Invariant.

(** Proving [wf] of a state built from a well-formed one: the parts whose
    fields did not move are closed. *)
Ltac wf_parts H :=
  pose proof (wf_addr _ H); pose proof (wf_relay _ H);
  pose proof (wf_signal _ H); pose proof (wf_conn _ H);
  constructor; simpl; try assumption.

Section Preservation.
Context {N : Noq}.
Implicit Types st : State.

(** ** [addr_for_peer] *)

Lemma addr_inv_fresh p2a a2p host rt ch next_ch :
  addr_inv p2a a2p host rt ch next_ch -> host < u32_max ->
  a2p !! standin (host + 1) = None.
Proof.
  intros Ha Hroom. destruct (a2p !! standin (host + 1)) as [p|] eqn:E; [|done].
  pose proof (ai_host _ _ _ _ _ _ Ha). unfold u32_max in *.
  destruct (ai_standin _ _ _ _ _ _ Ha _ _ E) as (h & Hh & Heq).
  apply standin_inj in Heq; lia.
Qed.

Lemma addr_inv_insert p2a a2p host rt ch next_ch p via :
  addr_inv p2a a2p host rt ch next_ch -> host < u32_max -> p2a !! p = None ->
  addr_inv (<[p := standin (host + 1)]> p2a) (<[standin (host + 1) := p]> a2p) (host + 1)
    (<[standin (host + 1) := RouteRelay via]> rt) ch next_ch.
Proof.
  intros Ha Hroom Hp. pose proof (addr_inv_fresh _ _ _ _ _ _ Ha Hroom) as Hfresh.
  destruct Ha as [Hhost Hpeers Hroutes Hst Hch Hids Hnext]. unfold u32_max in *.
  assert (forall q, p2a !! q = Some (standin (host + 1)) -> False) as Hno.
  { intros q Hq%Hpeers. congruence. }
  constructor; [lia|..|done|done].
  - intros q a. rewrite !lookup_insert. repeat case_decide; subst; naive_solver.
  - intros a. rewrite !lookup_insert. case_decide; [split; eauto|apply Hroutes].
  - intros a q. rewrite lookup_insert. case_decide as Heq.
    + intros _. exists (host + 1). split; [lia|done].
    + intros (h & Hh & ->)%Hst. exists h. split; [lia|done].
  - intros a id. rewrite lookup_insert. case_decide; [done|]. intros (e & He & Hpa)%Hch.
    exists e. split; [done|]. rewrite lookup_insert. case_decide; [congruence|done].
Qed.

Lemma addr_for_peer_wf p via st :
  wf st -> next_host st < u32_max -> wf (addr_for_peer p via st).2.
Proof.
  intros Hwf Hroom. unfold addr_for_peer. destruct (peer_to_addr st !! p) eqn:Hp; [done|].
  pose proof (ai_host _ _ _ _ _ _ (wf_addr _ Hwf)).
  wf_parts Hwf. rewrite wrap32_succ_eq by lia. by apply addr_inv_insert.
Qed.

(** What [addr_for_peer] returns and what it leaves alone. *)
Lemma addr_for_peer_spec p via st :
  wf st -> next_host st < u32_max ->
  let '(a, st') := addr_for_peer p via st in
  peer_to_addr st' !! p = Some a /\ addr_to_peer st' !! a = Some p /\
  is_Some (routes st' !! a) /\
  (forall q, q <> p -> peer_to_addr st' !! q = peer_to_addr st !! q) /\
  (forall b, b <> a -> routes st' !! b = routes st !! b) /\
  channels st' = channels st /\ next_channel_id st' = next_channel_id st.
Proof.
  intros Hwf Hroom. pose proof (addr_for_peer_wf p via st Hwf Hroom) as Hwf'.
  unfold addr_for_peer in *. destruct (peer_to_addr st !! p) as [a|] eqn:Hp; simpl in *.
  - assert (addr_to_peer st !! a = Some p) as Ha by by apply (ai_peers _ _ _ _ _ _ (wf_addr _ Hwf)).
    split_and!; try done. apply (ai_routes _ _ _ _ _ _ (wf_addr _ Hwf)). eauto.
  - split_and!; try done.
    + by rewrite lookup_insert_eq.
    + by rewrite lookup_insert_eq.
    + rewrite lookup_insert_eq. eauto.
    + intros q Hq. by rewrite lookup_insert_ne.
    + intros b Hb. by rewrite lookup_insert_ne.
Qed.

(** ** Waking *)

Lemma wake_waiters_wf st : wf st -> wf (wake_waiters st).
Proof. intros H. wf_parts H. Qed.

Lemma emit_wf es st : wf st -> wf (emit es st).
Proof. intros H. wf_parts H. Qed.

Lemma kick_pump_wf st : wf st -> wf (kick_pump st).
Proof. intros H. unfold kick_pump. case_match; wf_parts H. Qed.

(** ** Relays *)

Lemma relay_inv_insert pool keys next url c :
  relay_inv pool keys next -> next < u32_max ->
  relay_inv (<[next := c]> pool) (<[url := next]> keys) (next + 1).
Proof.
  intros [Hn Hp Hk] Hroom. unfold u32_max in *. constructor; [lia| |].
  - intros k c'. rewrite lookup_insert. case_decide; [lia|]. intros ?%Hp. lia.
  - intros u k. rewrite !lookup_insert. case_decide; intros; simplify_eq.
    + split; [lia|]. right. rewrite decide_True by done. eauto.
    + destruct (Hk _ _ H0) as [Hr Hin]. split; [lia|]. destruct Hin; [by left|right].
      case_decide; eauto.
Qed.

Lemma register_relay_wf url c st :
  wf st -> next_relay_key st < u32_max -> wf (register_relay url c st).2.
Proof.
  intros Hwf Hroom. apply kick_pump_wf. wf_parts Hwf.
  pose proof (ri_next _ _ _ (wf_relay _ Hwf)). rewrite wrap32_succ_eq by lia. by apply relay_inv_insert.
Qed.

Lemma relay_inv_retire pool keys next key :
  relay_inv pool keys next -> key <> HOME_RELAY ->
  relay_inv (delete key pool) (filter (fun kv => kv.2 <> key) keys) next.
Proof.
  intros [Hn Hp Hk] Hne. constructor; [done| |].
  - intros k c. rewrite lookup_delete. case_decide; [done|]. apply Hp.
  - intros u k. rewrite map_lookup_filter_Some. simpl. intros [Hu Hd].
    destruct (Hk _ _ Hu) as [Hr Hin]. split; [done|]. destruct Hin; [by left|right].
    by rewrite lookup_delete_ne.
Qed.

Lemma retire_relay_wf key st : wf st -> key <> HOME_RELAY -> wf (retire_relay key st).2.
Proof. intros Hwf Hne. wf_parts Hwf. by apply relay_inv_retire. Qed.

(** ** Signaling *)

Lemma begin_signaling_wf p r st : wf st -> wf (begin_signaling p r st).2.
Proof.
  intros Hwf. unfold begin_signaling. case_match; [done|]. wf_parts Hwf.
  intros q l Hq. destruct (wf_signal _ Hwf q l Hq) as [Hin Hlen]. split; [|done].
  rewrite lookup_insert. case_decide; eauto.
Qed.

Lemma end_signaling_wf p st : wf st -> wf (end_signaling p st).
Proof.
  intros Hwf. wf_parts Hwf. intros q l. rewrite !lookup_delete. case_decide; [done|]. apply (wf_signal _ Hwf).
Qed.

Lemma push_signal_outbound_wf r p b st : wf st -> wf (push_signal_outbound r p b st).
Proof. intros Hwf. apply kick_pump_wf. wf_parts Hwf. Qed.

Lemma pop_signal_inbox_wf p st : wf st -> wf (pop_signal_inbox p st).2.
Proof.
  intros Hwf. unfold pop_signal_inbox. destruct (signal_inboxes st !! p) as [[|b l]|] eqn:Hp; try done.
  wf_parts Hwf. intros q l'. rewrite lookup_insert. case_decide; [|apply (wf_signal _ Hwf)]. intros; simplify_eq.
  destruct (wf_signal _ Hwf _ _ Hp) as [? Hl]. simpl in Hl. split; [done|lia].
Qed.

Lemma signal_inv_file ss ib ss' p l :
  signal_inv ss ib -> is_Some (ss' !! p) -> (forall q, is_Some (ss !! q) -> is_Some (ss' !! q)) ->
  (length l <= INBOX_CAP)%nat -> signal_inv ss' (<[p := l]> ib).
Proof.
  intros Hs Hp Hmono Hl q l'. rewrite lookup_insert. case_decide; [naive_solver|].
  intros [? ?]%Hs. auto.
Qed.

(** The inbox [handle_signal] files: it grows by the payload below the cap. *)
Definition filed (st : State) (p : EndpointId) (payload : bytes) : list bytes :=
  let inbox := default [] (signal_inboxes st !! p) in
  if (length inbox <? INBOX_CAP)%nat then inbox ++ [payload] else inbox.

Lemma filed_length st p payload : wf st -> (length (filed st p payload) <= INBOX_CAP)%nat.
Proof.
  intros Hwf. unfold filed. destruct (Nat.ltb_spec (length (default [] (signal_inboxes st !! p))) INBOX_CAP).
  - rewrite length_app. simpl. lia.
  - destruct (signal_inboxes st !! p) as [l|] eqn:E; simpl in *; [|unfold INBOX_CAP; lia].
    by apply (wf_signal _ Hwf) in E as [].
Qed.

Lemma handle_signal_wf via p payload st : wf st -> wf (handle_signal via p payload st).
Proof.
  intros Hwf. pose proof (filed_length st p payload Hwf) as Hl. unfold handle_signal, filed in *.
  destruct (negb (webrtc_enabled st) || closed st); [done|]. destruct (signaling st !! p) as [r|] eqn:Hp; simpl.
  - apply wake_waiters_wf. wf_parts Hwf. by eapply signal_inv_file.
  - apply emit_wf, wake_waiters_wf. wf_parts Hwf. eapply signal_inv_file; try done.
    + rewrite lookup_insert_eq. eauto.
    + intros q ?. rewrite lookup_insert. case_decide; eauto.
Qed.

(** ** Channels *)

Lemma addr_inv_channel p2a a2p host rt ch next_ch e :
  addr_inv p2a a2p host rt ch next_ch -> next_ch < u32_max ->
  addr_inv p2a a2p host rt (<[next_ch + 1 := e]> ch) (next_ch + 1).
Proof.
  intros [? ? ? ? Hch Hids ?] Hroom. unfold u32_max in *. constructor; try done; [| |lia].
  - intros a id (e' & He & Hpa)%Hch. exists e'. split; [|done].
    rewrite lookup_insert_ne; [done|]. apply Hids in He. lia.
  - intros id e'. rewrite lookup_insert. case_decide; [lia|]. intros ?%Hids. lia.
Qed.

(** Moving a standin's route onto a channel of its peer, or back to a relay. *)
Lemma addr_inv_route p2a a2p host rt ch next_ch a w :
  addr_inv p2a a2p host rt ch next_ch -> is_Some (a2p !! a) ->
  (forall id, w = RouteChannel id -> exists e, ch !! id = Some e /\ p2a !! ch_peer e = Some a) ->
  addr_inv p2a a2p host (<[a := w]> rt) ch next_ch.
Proof.
  intros [? ? Hroutes ? Hch ? ?] Ha Hw. constructor; try done.
  - intros b. rewrite lookup_insert. case_decide; [subst; split; eauto|apply Hroutes].
  - intros b id. rewrite lookup_insert. case_decide; [intros; simplify_eq; eauto|apply Hch].
Qed.

Lemma addr_inv_unchannel p2a a2p host rt ch next_ch id :
  addr_inv p2a a2p host rt ch next_ch -> (forall a, rt !! a <> Some (RouteChannel id)) ->
  addr_inv p2a a2p host rt (delete id ch) next_ch.
Proof.
  intros [? ? ? ? Hch Hids ?] Hno. constructor; try done.
  - intros a id' Ha. destruct (Hch _ _ Ha) as (e & He & Hpa). exists e. split; [|done].
    rewrite lookup_delete_ne; [done|]. intros ->. by eapply Hno.
  - intros id' e. rewrite lookup_delete. case_decide; [done|]. apply Hids.
Qed.

(** The state [register_channel] works on before it touches the route. *)
Definition with_channel (p : EndpointId) (wire : ChannelRef) (st : State) : State :=
  st <| next_channel_id := wrap32 (next_channel_id st + 1) |>
     <| channels ::= <[wrap32 (next_channel_id st + 1) :=
                         MkChannelEntry wire p (default HOME_RELAY (signaling_relay p st))]> |>
     <| new_channels ::= fun l => l ++ [(wrap32 (next_channel_id st + 1), wire)] |>.

Lemma register_channel_eq p wire st :
  register_channel p wire st =
  if closed st then (Err Closed, emit [CloseChannel wire] st)
  else let '(a, st2) := addr_for_peer p (default HOME_RELAY (signaling_relay p st))
                          (with_channel p wire st) in
       (Ok tt, kick_pump (st2 <| routes ::= <[a := RouteChannel (wrap32 (next_channel_id st + 1))]> |>)).
Proof. done. Qed.

Lemma with_channel_wf p wire st :
  wf st -> next_channel_id st < u32_max -> wf (with_channel p wire st).
Proof.
  intros Hwf Hroom. pose proof (ai_next _ _ _ _ _ _ (wf_addr _ Hwf)). wf_parts Hwf.
  rewrite wrap32_succ_eq by lia. by apply addr_inv_channel.
Qed.

Lemma register_channel_wf p wire st :
  wf st -> next_channel_id st < u32_max -> next_host st < u32_max ->
  wf (register_channel p wire st).2.
Proof.
  intros Hwf Hc Hh. rewrite register_channel_eq. destruct (closed st); [by apply emit_wf|].
  pose proof (with_channel_wf p wire st Hwf Hc) as Hwf1.
  set (via := default HOME_RELAY (signaling_relay p st)).
  pose proof (addr_for_peer_wf p via _ Hwf1 Hh) as Hwf2.
  pose proof (addr_for_peer_spec p via _ Hwf1 Hh) as Hspec.
  destruct (addr_for_peer p via (with_channel p wire st)) as [a st2].
  destruct Hspec as (Hpa & Hap & _ & _ & _ & Hch & Hnc). simpl in *.
  apply kick_pump_wf. wf_parts Hwf2. apply addr_inv_route; [done|eauto|].
  intros id [= <-]. eexists. split; [rewrite Hch; apply lookup_insert_eq|exact Hpa].
Qed.

Lemma retire_channel_wf id st : wf st -> wf (retire_channel id st).
Proof.
  intros Hwf. unfold retire_channel. destruct (channels st !! id) as [e|] eqn:He; [|done].
  pose proof (wf_addr _ Hwf) as Haddr. pose proof Haddr as [_ Hpeers Hroutes _ Hch _ _].
  simpl. destruct (peer_to_addr st !! ch_peer e) as [a|] eqn:Hpa.
  - case_decide as Hr; wf_parts Hwf.
    + apply addr_inv_unchannel.
      * apply addr_inv_route; [done|by apply Hroutes; eauto|done].
      * intros b. rewrite lookup_insert. case_decide as Hab; [done|].
        intros (e' & He' & Hpe)%Hch. congruence.
    + apply addr_inv_unchannel; [done|]. intros b Hb. pose proof (Hch _ _ Hb) as (e' & He' & Hpe).
      congruence.
  - wf_parts Hwf. apply addr_inv_unchannel; [done|]. intros b (e' & He' & Hpe)%Hch. congruence.
Qed.

(** ** The initial state *)
Lemma State_new_wf ep w : wf (State_new ep w).
Proof.
  constructor; simpl.
  - constructor; try done; intros; rewrite ?lookup_empty in *; try done.
  - constructor; try done; intros; by rewrite lookup_empty in *.
  - intros p q. by rewrite lookup_empty.
  - constructor; try done; intros; try by rewrite lookup_empty in *. by apply not_elem_of_nil in H.
Qed.

(** ** The contracts *)

(** Standin addresses: in a well-formed state [addr_for_peer] gives each
    peer one address, the same at every later call whatever relay it names,
    different peers different addresses, all under the documentation prefix; a
    fresh standin routes to the relay it was first seen through and an existing
    route is never moved by the lookup. *)
Theorem addr_for_peer_stable p q via via' st :
  wf st -> next_host st < u32_max ->
  let '(a, st1) := addr_for_peer p via st in
  (addr_for_peer p via' st1 = (a, st1)) /\
  (exists host, 1 <= host < 2 ^ 32 /\ a = doc_prefix_addr 0x77 host) /\
  (routes st1 !! a = if decide (peer_to_addr st !! p = None) then Some (RouteRelay via)
                     else routes st !! a) /\
  (q <> p -> peer_to_addr st1 !! q <> Some a) /\
  (forall b, b <> a -> routes st1 !! b = routes st !! b).
Proof.
  intros Hwf Hroom. pose proof (addr_for_peer_wf p via st Hwf Hroom) as Hwf1.
  pose proof (addr_for_peer_spec p via st Hwf Hroom) as Hspec.
  assert (routes (addr_for_peer p via st).2 !! (addr_for_peer p via st).1 =
          if decide (peer_to_addr st !! p = None) then Some (RouteRelay via)
          else routes st !! (addr_for_peer p via st).1) as Hroute.
  { unfold addr_for_peer. destruct (peer_to_addr st !! p); simpl; [done|]. apply lookup_insert_eq. }
  destruct (addr_for_peer p via st) as [a st1]. destruct Hspec as (Hpa & Hap & _ & _ & Hr & _).
  simpl in *. destruct (wf_addr _ Hwf1) as [Hh Hpeers _ Hst _ _ _]. split_and!; try done.
  - unfold addr_for_peer. by rewrite Hpa.
  - destruct (Hst _ _ Hap) as (h & Hb & ->). exists h. split; [lia|done].
  - intros Hne Hq. apply Hpeers in Hq. congruence.
Qed.

(** A channel registration on an open endpoint, in terms of lookups. *)
Lemma register_channel_spec p wire st :
  wf st -> next_channel_id st < u32_max -> next_host st < u32_max -> closed st = false ->
  let '(r, st1) := register_channel p wire st in
  exists a, r = Ok tt /\ peer_to_addr st1 !! p = Some a /\
    routes st1 !! a = Some (RouteChannel (next_channel_id st + 1)) /\
    channels st1 = <[next_channel_id st + 1 :=
      MkChannelEntry wire p (default HOME_RELAY (signaling st !! p))]> (channels st) /\
    (forall b, b <> a -> routes st1 !! b = routes st !! b).
Proof.
  intros Hwf Hc Hh Hopen. rewrite register_channel_eq, Hopen.
  pose proof (ai_next _ _ _ _ _ _ (wf_addr _ Hwf)) as Hn.
  pose proof (addr_for_peer_spec p (default HOME_RELAY (signaling_relay p st)) _
    (with_channel_wf p wire st Hwf Hc) Hh) as Hspec.
  destruct (addr_for_peer p _ (with_channel p wire st)) as [a st2].
  destruct Hspec as (Hpa & Hap & _ & _ & Hr & Hch & _). simpl in Hch.
  rewrite wrap32_succ_eq in * by lia. exists a.
  assert (forall s, peer_to_addr (kick_pump s) = peer_to_addr s /\ routes (kick_pump s) = routes s
                    /\ channels (kick_pump s) = channels s) as Hkick.
  { intros s. unfold kick_pump. by case_match. }
  destruct (Hkick (st2 <| routes ::= <[a := RouteChannel (next_channel_id st + 1)]> |>))
    as (-> & -> & ->). simpl. rewrite lookup_insert_eq. split_and!; try done.
  intros b Hb. by rewrite lookup_insert_ne, Hr.
Qed.

(** C25. The route follows the channel: registering a channel on an open
    endpoint moves exactly that peer's route onto it, recording as fallback the
    relay of the peer's signaling session (the home relay without one); when
    that channel dies, the peer's route returns to the recorded relay, the
    channel is forgotten, and no other route changes in the round trip. *)
Theorem channel_route_lifecycle p wire st :
  wf st -> next_channel_id st < u32_max -> next_host st < u32_max -> closed st = false ->
  let id := next_channel_id st + 1 in
  let '(r, st1) := register_channel p wire st in
  let st2 := retire_channel id st1 in
  exists a, r = Ok tt /\ peer_to_addr st1 !! p = Some a /\
    routes st1 !! a = Some (RouteChannel id) /\
    routes st2 !! a = Some (RouteRelay (default HOME_RELAY (signaling st !! p))) /\
    channels st2 !! id = None /\
    (forall b, b <> a -> routes st1 !! b = routes st !! b /\ routes st2 !! b = routes st !! b).
Proof.
  intros Hwf Hc Hh Hopen id. pose proof (register_channel_spec p wire st Hwf Hc Hh Hopen) as Hs.
  destruct (register_channel p wire st) as [r st1].
  destruct Hs as (a & -> & Hpa & Hra & Hch & Hr). exists a. subst id.
  unfold retire_channel. rewrite Hch, lookup_insert_eq. simpl. rewrite Hpa, decide_True by done.
  simpl. rewrite lookup_delete_eq, lookup_insert_eq. split_and!; try done.
  intros b Hb. by rewrite lookup_insert_ne, Hr.
Qed.

(** A dead channel gives up only its own route: retiring a channel leaves
    the route of every standin that is not on that channel unchanged (a newer
    channel to the same peer keeps the route), and afterwards no route names the
    dead channel. *)
Theorem retire_channel_routes id st :
  wf st ->
  (forall a, routes st !! a <> Some (RouteChannel id) ->
     routes (retire_channel id st) !! a = routes st !! a) /\
  (forall a, routes (retire_channel id st) !! a <> Some (RouteChannel id)).
Proof.
  intros Hwf. pose proof (wf_addr _ Hwf) as [_ Hpeers _ _ Hch _ _]. unfold retire_channel.
  destruct (channels st !! id) as [e|] eqn:He.
  2: { split; [done|]. intros a (e & He' & _)%Hch. congruence. }
  simpl. assert (forall a, routes st !! a = Some (RouteChannel id) ->
    peer_to_addr st !! ch_peer e = Some a) as Hown.
  { intros a (e' & He' & ?)%Hch. by simplify_eq. }
  destruct (peer_to_addr st !! ch_peer e) as [a|] eqn:Hpa; [|split; [done|naive_solver]].
  case_decide as Hr; simpl; split; try done.
  - intros b Hb. rewrite lookup_insert_ne; [done|]. by intros ->.
  - intros b. rewrite lookup_insert. case_decide; [done|]. intros ?%Hown. congruence.
  - intros b Hb. pose proof (Hown b Hb). congruence.
Qed.

(** Inbound signaling. With the WebRTC wire disabled or the endpoint
    closing, a signal changes nothing. Otherwise it is filed in the sender's
    inbox unless that holds 64 unread signals already, every parked waiter is
    woken, and an answerer session is started exactly when the sender had no
    session, claiming the slot for the relay the signal arrived on; an existing
    session keeps its relay and no second one starts. *)
Theorem handle_signal_contract via p payload st :
  wf st ->
  let st' := handle_signal via p payload st in
  if negb (webrtc_enabled st) || closed st then st' = st
  else
    signal_inboxes st' = <[p := filed st p payload]> (signal_inboxes st) /\
    waiters st' = [] /\
    match signaling st !! p with
    | Some r => signaling st' = signaling st /\
                effects st' = effects st ++ (Wake <$> waiters st)
    | None => signaling st' = <[p := via]> (signaling st) /\
              effects st' = effects st ++ (Wake <$> waiters st) ++ [SpawnAnswer p]
    end /\
    (length (filed st p payload) <= INBOX_CAP)%nat.
Proof.
  intros Hwf. pose proof (filed_length st p payload Hwf). unfold handle_signal.
  destruct (negb (webrtc_enabled st) || closed st); [done|].
  destruct (signaling st !! p) as [r|]; simpl; split_and!; try done. by rewrite <- app_assoc.
Qed.

(** Retiring a relay forgets it completely: its pool entry and every URL
    that mapped to its key are gone, so a later dial of such a URL opens a new
    connection, while every other pool entry and URL mapping is kept; the
    connection is handed back for the caller to close. *)
Theorem retire_relay_forgets key st :
  let '(c, st') := retire_relay key st in
  c = relay_pool st !! key /\
  (forall k, relay_pool st' !! k = if decide (k = key) then None else relay_pool st !! k) /\
  (forall url, relay_keys st' !! url =
     if decide (relay_keys st !! url = Some key) then None else relay_keys st !! url).
Proof.
  unfold retire_relay. simpl. split_and!; [done| |].
  - intros k. rewrite lookup_delete. repeat case_decide; congruence.
  - intros url. case_decide as H.
    + apply map_lookup_filter_None. right. intros k Hk. simpl. rewrite Hk in H. naive_solver.
    + destruct (relay_keys st !! url) as [k|] eqn:E.
      * apply map_lookup_filter_Some. simpl. split; [done|]. congruence.
      * apply map_lookup_filter_None. by left.
Qed.

(** Pool identity of relay URLs is insensitive to trailing slashes and
    normalising twice changes nothing. *)
Theorem normalize_relay_url_slashes url :
  normalize_relay_url (url +:+ "/") = normalize_relay_url url /\
  normalize_relay_url (normalize_relay_url url) = normalize_relay_url url.
Proof.
  unfold normalize_relay_url. split.
  - induction url as [|c s IH]; [done|].
    change (trim_slashes (String c (s +:+ "/")) = trim_slashes (String c s)).
    cbn [trim_slashes]. by rewrite IH.
  - induction url as [|c s IH]; [done|]. cbn [trim_slashes]. case_decide as Hc; [done|].
    cbn [trim_slashes]. rewrite IH. by rewrite decide_False.
Qed.

End Preservation.

#[export] Hint Resolve wake_waiters_wf emit_wf kick_pump_wf begin_signaling_wf end_signaling_wf
  push_signal_outbound_wf pop_signal_inbox_wf handle_signal_wf retire_channel_wf
  retire_relay_wf register_relay_wf register_channel_wf addr_for_peer_wf : iroh.
