(* ===== verification/Drain.v ===== *)
(** Datagrams and events through noq: [on_event], [State::drain], the datagram
    handlers, [push_response], [accept_backlog], [handle_timeouts] and
    [close_all] of [endpoint/src/endpoint_impl.rs]. Loops over noq take fuel;
    the iteration order of the connection table, which the hash map leaves
    open, is an argument. *)
From S2P Require Import Prelude RelayFrames Types Noq State.

Definition ACCEPT_BACKLOG : nat := 16.
Definition MTU_CEILING : Z := 4096.

Section Drain.
Context {N : Noq}.

(** [while let Some(id) = streams().accept(dir)]. *)
Fixpoint accept_streams (fuel : nat) (dir : Dir) (c : Connection) (queue : list StreamId)
    : Run (Connection * list StreamId) :=
  match fuel with
  | O => OutOfFuel
  | S fuel =>
      match streams_accept dir c with
      | (Some id, c) => accept_streams fuel dir c (queue ++ [id])
      | (None, c) => Done (c, queue)
      end
  end.

(** The identity the TLS session authenticated. *)
Definition tls_peer (c : Connection) : option EndpointId :=
  certs ← peer_identity c; cert ← head certs; endpoint_id_from_spki cert.

(** The error recorded when the connection is lost. *)
Definition lost_error (reason : ConnectionError.t) : Error :=
  match reason with
  | ConnectionError.ApplicationClosed _ _ => Closed
  | ConnectionError.LocallyClosed => Closed
  | ConnectionError.TimedOut => TimedOut "the connection timed out"
  | ConnectionError.Other display => Other ("connection lost: " +:+ display)
  end.

Definition on_event (fuel : nat) (now : Instant) (handle : ConnectionHandle) (ev : Event)
    (entry : ConnEntry) (queue : list (ConnectionHandle * Z))
    : Run (ConnEntry * list (ConnectionHandle * Z)) :=
  match ev with
  | HandshakeDataReady | HandshakeConfirmed | PathEvent | NatTraversal => Done (entry, queue)
  | Connected =>
      let entry :=
        match handshake_data (conn entry) with
        | Some protocol => entry <| alpn := default [] protocol |>
        | None => entry
        end in
      match tls_peer (conn entry) with
      | Some id =>
          if decide (expected_peer entry = None \/ expected_peer entry = Some id) then
            let entry := entry <| peer := Some id |> <| connected := true |> in
            Done (entry, if accepted_side entry then queue ++ [(handle, epoch entry)] else queue)
          else
            Done (entry <| error := Some (ConnectFailed "authenticated key differs from the addressed peer") |>
                        <| conn ::= conn_close now 1 (str_bytes "identity mismatch") |>, queue)
      | None =>
          Done (entry <| error := Some (ConnectFailed "authenticated key differs from the addressed peer") |>
                      <| conn ::= conn_close now 1 (str_bytes "identity mismatch") |>, queue)
      end
  | Stream (Opened _) =>
      let! (c, b) := accept_streams fuel Bi (conn entry) (bi_queue entry) in
      let! (c, u) := accept_streams fuel Uni c (uni_queue entry) in
      Done (entry <| conn := c |> <| bi_queue := b |> <| uni_queue := u |>, queue)
  | Stream OtherStreamEvent | DatagramReceived | DatagramsUnblocked => Done (entry, queue)
  | ConnectionLost reason =>
      let entry :=
        match reason with
        | ConnectionError.ApplicationClosed code reason =>
            entry <| peer_close := Some (MkCloseInfo code (from_utf8_lossy reason)) |>
        | _ => entry
        end in
      Done (entry <| error := Some (lost_error reason) |>, queue)
  end.

(** The outbound queues one transmit may land in. *)
Record Outbound := MkOutbound {
  o_relay : list (Z * EndpointId * bytes);
  o_udp : list (SocketAddr * bytes);
  o_channel : list (Z * bytes);
}.
#[export] Instance Outbound_eta : Eta Outbound := fun o =>
  MkOutbound (o_relay o) (o_udp o) (o_channel o).

(** Routing one datagram of the drain: by the standin's current wire, to the
    UDP socket without one. [addr_to_peer[&destination]] panics on a missing
    key. *)
Definition route_transmit (rt : gmap SocketAddr RouteWire) (a2p : gmap SocketAddr EndpointId)
    (dest : SocketAddr) (datagram : bytes) (o : Outbound) : Run Outbound :=
  match rt !! dest with
  | Some (RouteRelay key) =>
      match a2p !! dest with
      | Some p => Done (o <| o_relay ::= fun l => l ++ [(key, p, datagram)] |>)
      | None => Panic
      end
  | Some (RouteChannel id) => Done (o <| o_channel ::= fun l => l ++ [(id, datagram)] |>)
  | None => Done (o <| o_udp ::= fun l => l ++ [(dest, datagram)] |>)
  end.

(** What the drain of one connection works on. *)
Record DrainState := MkDrain {
  d_noq : Endpoint;
  d_entry : ConnEntry;
  d_queue : list (ConnectionHandle * Z);
  d_out : Outbound;
}.
#[export] Instance DrainState_eta : Eta DrainState := fun d =>
  MkDrain (d_noq d) (d_entry d) (d_queue d) (d_out d).

Section OneConnection.
Context (now : Instant) (rt : gmap SocketAddr RouteWire) (a2p : gmap SocketAddr EndpointId).
Context (handle : ConnectionHandle).

Definition d_conn (d : DrainState) : Connection := conn (d_entry d).
Definition set_conn (c : Connection) (d : DrainState) : DrainState :=
  d <| d_entry ::= fun e => e <| conn := c |> |>.

(** The three inner loops; the flag is [progressed]. *)
Fixpoint endpoint_events_loop (fuel : nat) (progressed : bool) (d : DrainState)
    : Run (bool * DrainState) :=
  match fuel with
  | O => OutOfFuel
  | S fuel =>
      match poll_endpoint_events (d_conn d) with
      | (None, c) => Done (progressed, set_conn c d)
      | (Some event, c) =>
          let d := set_conn c d in
          let '(back, ep) := ep_handle_event handle event (d_noq d) in
          let d := d <| d_noq := ep |> in
          let d := match back with
                   | Some back => set_conn (handle_event back (d_conn d)) d
                   | None => d
                   end in
          endpoint_events_loop fuel true d
      end
  end.

Fixpoint events_loop (fuel : nat) (progressed : bool) (d : DrainState) : Run (bool * DrainState) :=
  match fuel with
  | O => OutOfFuel
  | S fuel' =>
      match poll (d_conn d) with
      | (None, c) => Done (progressed, set_conn c d)
      | (Some ev, c) =>
          let d := set_conn c d in
          let! (entry, queue) := on_event fuel now handle ev (d_entry d) (d_queue d) in
          events_loop fuel' true (d <| d_entry := entry |> <| d_queue := queue |>)
      end
  end.

Fixpoint transmits_loop (fuel : nat) (progressed : bool) (d : DrainState) : Run (bool * DrainState) :=
  match fuel with
  | O => OutOfFuel
  | S fuel =>
      match poll_transmit now (d_conn d) with
      | (None, c) => Done (progressed, set_conn c d)
      | (Some t, c) =>
          let d := set_conn c d in
          let! datagram := slice_to (t_size t) (t_buf t) in
          let! out := route_transmit rt a2p (destination t) datagram (d_out d) in
          transmits_loop fuel true (d <| d_out := out |>)
      end
  end.

(** One turn of the outer loop. *)
Definition drain_turn (fuel : nat) (d : DrainState) : Run (bool * DrainState) :=
  let! (p, d) := endpoint_events_loop fuel false d in
  let! (p, d) := events_loop fuel p d in
  transmits_loop fuel p d.

Fixpoint drain_loop (turns fuel : nat) (any : bool) (d : DrainState) : Run (bool * DrainState) :=
  match turns with
  | O => OutOfFuel
  | S turns =>
      let! (progressed, d) := drain_turn fuel d in
      if progressed then drain_loop turns fuel true d else Done (any, d)
  end.

(** The whole body for one connection, with the [drained] latch. *)
Definition drain_conn (fuel : nat) (any : bool) (d : DrainState) : Run (bool * DrainState) :=
  let! (any, d) := drain_loop fuel fuel any d in
  if negb (drained (d_entry d)) && is_drained (d_conn d)
  then Done (true, d <| d_entry ::= fun e => e <| drained := true |> |>)
  else Done (any, d).
End OneConnection.

Definition outbound_of (st : State) : Outbound :=
  MkOutbound (relay_outbound st) (udp_outbound st) (channel_outbound st).

(** The state after one connection's drain. *)
Definition put_back (h : ConnectionHandle) (d : DrainState) (st : State) : State :=
  st <| noq := d_noq d |> <| conns ::= <[h := d_entry d]> |> <| accept_queue := d_queue d |>
     <| relay_outbound := o_relay (d_out d) |> <| udp_outbound := o_udp (d_out d) |>
     <| channel_outbound := o_channel (d_out d) |>.

(** [State::drain] over the connections in the given order. *)
Fixpoint drain_order (fuel : nat) (now : Instant) (order : list ConnectionHandle) (any : bool)
    (st : State) : Run (bool * State) :=
  match order with
  | [] => Done (any, st)
  | h :: order =>
      match conns st !! h with
      | None => drain_order fuel now order any st
      | Some entry =>
          let! (any, d) := drain_conn now (routes st) (addr_to_peer st) h fuel any
                             (MkDrain (noq st) entry (accept_queue st) (outbound_of st)) in
          drain_order fuel now order any (put_back h d st)
      end
  end.

Definition drain (fuel : nat) (now : Instant) (order : list ConnectionHandle) (st : State)
    : Run (bool * State) :=
  drain_order fuel now order false st.

(** ** Datagrams in *)

Definition accept_backlog (st : State) : nat :=
  length (accept_queue st)
  + size (filter (fun he => accepted_side he.2 = true /\ connected he.2 = false /\
                            error he.2 = None /\ drained he.2 = false) (conns st)).

Definition push_response (addr : SocketAddr) (source : option EndpointId) (payload : bytes)
    (st : State) : State :=
  match routes st !! addr, source with
  | Some (RouteRelay key), Some p => st <| relay_outbound ::= fun l => l ++ [(key, p, payload)] |>
  | Some (RouteChannel id), _ => st <| channel_outbound ::= fun l => l ++ [(id, payload)] |>
  | _, _ => st <| udp_outbound ::= fun l => l ++ [(addr, payload)] |>
  end.

Definition push_transmit (addr : SocketAddr) (source : option EndpointId) (t : Transmit)
    (st : State) : Run State :=
  let! payload := slice_to (t_size t) (t_buf t) in Done (push_response addr source payload st).

Definition handle_datagram (now : Instant) (addr : SocketAddr) (source : option EndpointId)
    (payload : bytes) (st : State) : Run State :=
  let '(ev, ep) := ep_handle now addr payload (noq st) in
  let st := st <| noq := ep |> in
  match ev with
  | Some (DConnectionEvent h event) =>
      match conns st !! h with
      | Some entry => Done (set_entry h (entry <| conn ::= handle_event event |>) st)
      | None => Done st
      end
  | Some (DNewConnection incoming) =>
      if closed st then Done st
      else if (ACCEPT_BACKLOG <=? accept_backlog st)%nat then
        let '(t, ep) := ep_refuse incoming (noq st) in
        push_transmit addr source t (st <| noq := ep |>)
      else
        let '(r, ep) := ep_accept incoming now (noq st) in
        let st := st <| noq := ep |> in
        match r with
        | Ok (h, c) =>
            let ep := next_conn_epoch st in
            Done (st <| next_conn_epoch := wrap64 (ep + 1) |>
                     <| conns ::= <[h := ConnEntry_new c source true ep]> |>)
        | Err (Some t) => push_transmit addr source t st
        | Err None => Done st
        end
  | Some (DResponse t) => push_transmit addr source t st
  | None => Done st
  end.

Definition handle_relay_datagram (now : Instant) (via : Z) (source : EndpointId) (payload : bytes)
    (st : State) : Run State :=
  let '(addr, st) := addr_for_peer source via st in
  handle_datagram now addr (Some source) payload st.

Definition handle_udp_datagram (now : Instant) (remote : SocketAddr) (payload : bytes)
    (st : State) : Run State :=
  handle_datagram now remote None payload st.

Definition handle_channel_datagram (now : Instant) (id : Z) (payload : bytes) (st : State)
    : Run State :=
  match channels st !! id with
  | None => Done st
  | Some e =>
      let '(synthetic, st) := addr_for_peer (ch_peer e) (fallback_relay e) st in
      handle_datagram now synthetic (Some (ch_peer e)) payload st
  end.

(** ** Timers and closing *)

Definition handle_timeouts (now : Instant) (st : State) : State :=
  st <| conns ::= fmap (fun e =>
    match poll_timeout (conn e) with
    | Some deadline => if deadline <=? now then e <| conn ::= handle_timeout now |> else e
    | None => e
    end) |>.

Definition live (e : ConnEntry) : bool :=
  match error e with None => negb (drained e) | Some _ => false end.

Definition close_all (now : Instant) (reason : bytes) (st : State) : State :=
  st <| conns ::= fmap (fun e => if live e then e <| conn ::= conn_close now 0 reason |> else e) |>.

End Drain.
