(* ===== verification/DrainInv.v ===== *)
(** The drain terminates without panicking, keeps the state's invariant, and
    routes every transmit by the standin's current wire; contracts of the event
    handler and of the datagram handlers. *)
From S2P Require Import Prelude RelayFrames Types Noq State StateInv Drain.

Section DrainTheory.
Context {N : Noq}.

(** ** How one entry may evolve *)

Definition entry_rel (h : ConnectionHandle) (e e' : ConnEntry) : Prop :=
  epoch e' = epoch e /\ accepted_side e' = accepted_side e /\ expected_peer e' = expected_peer e /\
  (connected e = true -> connected e' = true) /\ (authenticated e -> authenticated e') /\
  (error e <> None -> error e' <> None) /\ (drained e = true -> drained e' = true).

(** The accept queue only gains stamps of this connection, once accepted and
    connected. *)
Definition queue_rel (h : ConnectionHandle) (e e' : ConnEntry) (q q' : list (ConnectionHandle * Z))
    : Prop :=
  exists l, q' = q ++ l /\ Forall (fun x => x = (h, epoch e)) l /\
            (l <> [] -> accepted_side e = true /\ connected e' = true).

#[export] Instance entry_rel_preorder h : PreOrder (entry_rel h).
Proof.
  split; [done|]. unfold entry_rel. intros a b c Hab Hbc. naive_solver congruence.
Qed.

Lemma queue_rel_refl h e e' q : queue_rel h e e' q q.
Proof. exists []. by rewrite app_nil_r. Qed.

Lemma queue_rel_trans h a b c q1 q2 q3 :
  entry_rel h a b -> entry_rel h b c ->
  queue_rel h a b q1 q2 -> queue_rel h b c q2 q3 -> queue_rel h a c q1 q3.
Proof.
  intros (He & Hs & _) (_ & _ & _ & Hc & _) (l1 & -> & Hl1 & Hr1) (l2 & -> & Hl2 & Hr2).
  exists (l1 ++ l2). rewrite He in Hl2. rewrite <- app_assoc. split_and!; [done|by apply Forall_app|].
  rewrite Hs in Hr2. intros Hne. destruct l1; [|naive_solver]. destruct l2; naive_solver.
Qed.

(** ** Routing *)

Definition routed (rt : gmap SocketAddr RouteWire) (a2p : gmap SocketAddr EndpointId)
    (o o' : Outbound) : Prop :=
  exists r u c,
    o' = MkOutbound (o_relay o ++ r) (o_udp o ++ u) (o_channel o ++ c) /\
    Forall (fun x => exists a, a2p !! a = Some x.1.2 /\ rt !! a = Some (RouteRelay x.1.1)) r /\
    Forall (fun x => rt !! x.1 = None) u /\
    Forall (fun x => exists a, rt !! a = Some (RouteChannel x.1)) c.

#[export] Instance routed_preorder rt a2p : PreOrder (routed rt a2p).
Proof.
  split.
  - intros [r u c]. exists [], [], []. by rewrite !app_nil_r.
  - intros x y z (r1 & u1 & c1 & -> & ? & ? & ?) (r2 & u2 & c2 & -> & ? & ? & ?).
    exists (r1 ++ r2), (u1 ++ u2), (c1 ++ c2). simpl. rewrite !app_assoc.
    by rewrite !Forall_app.
Qed.

Definition routable (rt : gmap SocketAddr RouteWire) (a2p : gmap SocketAddr EndpointId) : Prop :=
  forall a, is_Some (rt !! a) -> is_Some (a2p !! a).

Lemma route_transmit_routed rt a2p dest b o :
  routable rt a2p ->
  exists o', route_transmit rt a2p dest b o = Done o' /\ routed rt a2p o o'.
Proof.
  intros Hr. unfold route_transmit. destruct (rt !! dest) as [[k|id]|] eqn:E.
  - destruct (Hr dest) as [p Hp]; [eauto|]. rewrite Hp. eexists. split; [done|].
    exists [(k, p, b)], [], []. simpl. rewrite !app_nil_r. split_and!; eauto.
  - eexists. split; [done|]. exists [], [], [(id, b)]. simpl. rewrite !app_nil_r. split_and!; eauto.
  - eexists. split; [done|]. exists [], [(dest, b)], []. simpl. rewrite !app_nil_r. split_and!; eauto.
Qed.

(** ** The event handler *)

Context {L : NoqLaws}.

Lemma accept_streams_done fuel d c q :
  (work c < fuel)%nat ->
  exists c' q', accept_streams fuel d c q = Done (c', q') /\ (work c' <= work c)%nat.
Proof.
  revert c q. induction fuel as [|fuel IH]; intros c q Hf; [lia|]. cbn [accept_streams].
  destruct (streams_accept d c) as [[id|] c'] eqn:E.
  - pose proof (work_accept _ _ _ _ E). destruct (IH c' (q ++ [id])) as (c'' & q' & -> & ?); [lia|].
    exists c'', q'. split; [done|lia].
  - pose proof (work_accept_none _ _ _ E). eauto.
Qed.

Lemma on_event_mismatch_rel h now e :
  entry_rel h e (e <| error := Some (ConnectFailed "authenticated key differs from the addressed peer") |>
                   <| conn ::= conn_close now 1 (str_bytes "identity mismatch") |>).
Proof. unfold entry_rel, authenticated. simpl. naive_solver. Qed.

(** After [ev] was polled from a connection doing [w] work, the handler
    finishes with less work left. *)
Lemma on_event_done fuel now h ev e q c0 :
  poll c0 = (Some ev, conn e) -> (work c0 <= fuel)%nat ->
  exists e' q', on_event fuel now h ev e q = Done (e', q') /\
    entry_rel h e e' /\ queue_rel h e e' q q' /\ (work (conn e') < work c0)%nat.
Proof.
  intros Hpoll Hf. pose proof (work_poll _ _ _ Hpoll) as [Hw Hclose].
  destruct ev as [| | | | |[]| | |reason]; cbn [on_event];
    try (exists e, q; split_and!; [done|done|apply queue_rel_refl|done]).
  - set (e1 := match handshake_data (conn e) with Some p => _ | None => e end).
    assert (entry_rel h e e1 /\ conn e1 = conn e /\ epoch e1 = epoch e /\
            accepted_side e1 = accepted_side e) as (Hrel1 & Hc1 & He1 & Hs1).
    { subst e1. destruct (handshake_data (conn e)); done. }
    assert (exists e' q', Done (e1 <| error := Some (ConnectFailed "authenticated key differs from the addressed peer") |>
        <| conn ::= conn_close now 1 (str_bytes "identity mismatch") |>, q) = Done (e', q') /\
      entry_rel h e e' /\ queue_rel h e e' q q' /\ (work (conn e') < work c0)%nat) as Hmis.
    { eexists _, q. split_and!; [done| |apply queue_rel_refl|].
      - etransitivity; [exact Hrel1|apply on_event_mismatch_rel].
      - simpl. rewrite Hc1. by apply Hclose. }
    destruct (tls_peer (conn e1)) as [id|]; [|done]. case_decide as Hexp; [|done].
    eexists _, _. split_and!; [done| | |].
    + etransitivity; [exact Hrel1|]. unfold entry_rel, authenticated. simpl. naive_solver.
    + change (queue_rel h e (e1 <| peer := Some id |> <| connected := true |>) q
        (if accepted_side e1 then q ++ [(h, epoch e1)] else q)).
      rewrite He1, Hs1. destruct (accepted_side e) eqn:Ha; [|apply queue_rel_refl].
      exists [(h, epoch e)]. split_and!; [done|by constructor|done].
    + simpl. by rewrite Hc1.
  - destruct (accept_streams_done fuel Bi (conn e) (bi_queue e)) as (c1 & b & -> & H1); [lia|]. cbn [run_bind].
    destruct (accept_streams_done fuel Uni c1 (uni_queue e)) as (c2 & u & -> & H2); [lia|]. cbn [run_bind].
    eexists _, q. split_and!; [done|done|apply queue_rel_refl|simpl; lia].
  - eexists _, q. split_and!; [done| |apply queue_rel_refl|]; destruct reason; done.
Qed.

(** ** The loops over one connection *)
Section Loops.
Context (now : Instant) (rt : gmap SocketAddr RouteWire) (a2p : gmap SocketAddr EndpointId).
Context (h : ConnectionHandle).
Context (Hroutable : routable rt a2p).

Definition drain_rel (d d' : DrainState) : Prop :=
  entry_rel h (d_entry d) (d_entry d') /\
  queue_rel h (d_entry d) (d_entry d') (d_queue d) (d_queue d') /\
  routed rt a2p (d_out d) (d_out d').

#[local] Instance drain_rel_preorder : PreOrder drain_rel.
Proof.
  split.
  - intros d. split_and!; [done|apply queue_rel_refl|done].
  - intros a b c (He1 & Hq1 & Ho1) (He2 & Hq2 & Ho2).
    split_and!; [by etransitivity|by eapply queue_rel_trans|by etransitivity].
Qed.

Definition d_work (d : DrainState) : nat := work (d_conn d).

(** Only the connection's own state moved, and its work did not grow. *)
Definition quiet (d d' : DrainState) : Prop :=
  d' = set_conn (d_conn d') d /\ (d_work d' <= d_work d)%nat.

Lemma quiet_trans a b c : quiet a b -> quiet b c -> quiet a c.
Proof. intros [Hb Hw] [Hc Hw']. split; [rewrite Hc, Hb; done|lia]. Qed.

Lemma quiet_set_conn c d : (work c <= d_work d)%nat -> quiet d (set_conn c d).
Proof. done. Qed.

(** The result of a loop: it finished, related its states, and either made no
    progress or used up work. *)
Definition loop_ok (d : DrainState) (p : bool) (r : Run (bool * DrainState)) : Prop :=
  exists p' d', r = Done (p', d') /\ drain_rel d d' /\
    ((p' = p /\ quiet d d') \/ (p' = true /\ (d_work d' < d_work d)%nat)).

Lemma loop_ok_step d d1 p r :
  drain_rel d d1 -> (d_work d1 < d_work d)%nat -> loop_ok d1 true r -> loop_ok d p r.
Proof.
  intros Hrel Hw (p' & d' & -> & Hrel' & Hp). exists p', d'.
  split_and!; [done|by etransitivity|]. right. destruct Hp as [[? []]|[]]; split; try done; lia.
Qed.

Lemma set_conn_rel c d : drain_rel d (set_conn c d).
Proof. split_and!; [done|apply queue_rel_refl|done]. Qed.

Lemma endpoint_events_loop_ok fuel p d :
  (d_work d < fuel)%nat -> loop_ok d p (endpoint_events_loop h fuel p d).
Proof.
  revert p d. induction fuel as [|fuel IH]; intros p d Hf; [lia|]. cbn [endpoint_events_loop].
  destruct (poll_endpoint_events (d_conn d)) as [[event|] c] eqn:E.
  - pose proof (work_endpoint_event _ _ _ E) as [Hc Hback]. cbn [d_noq set_conn].
    destruct (ep_handle_event h event _) as [[back|] ep] eqn:Eh.
    + pose proof (Hback _ _ _ _ Eh) as Hb.
      eapply loop_ok_step; [..|apply IH]; unfold d_work, d_conn, set_conn in *; simpl in *;
        [split_and!; [done|apply queue_rel_refl|done]|done|lia].
    + eapply loop_ok_step; [..|apply IH]; unfold d_work, d_conn, set_conn in *; simpl in *;
        [split_and!; [done|apply queue_rel_refl|done]|done|lia].
  - pose proof (work_endpoint_event_none _ _ E). exists p, (set_conn c d).
    split_and!; [done|apply set_conn_rel|left; split; [done|]]. by apply quiet_set_conn.
Qed.

Lemma events_loop_ok fuel p d :
  (d_work d < fuel)%nat -> loop_ok d p (events_loop now h fuel p d).
Proof.
  revert p d. induction fuel as [|fuel IH]; intros p d Hf; [lia|]. cbn [events_loop].
  destruct (poll (d_conn d)) as [[ev|] c] eqn:E.
  - destruct (on_event_done (S fuel) now h ev (d_entry (set_conn c d)) (d_queue (set_conn c d))
      (d_conn d)) as (e' & q' & -> & Hrel & Hq & Hw); [done|unfold d_work in *; lia|].
    cbn [run_bind]. eapply loop_ok_step; [..|apply IH]; unfold d_work, d_conn, set_conn in *; simpl in *;
      [split_and!; done|done|lia].
  - pose proof (work_poll_none _ _ E). exists p, (set_conn c d).
    split_and!; [done|apply set_conn_rel|left; split; [done|]]. by apply quiet_set_conn.
Qed.

Lemma transmits_loop_ok fuel p d :
  (d_work d < fuel)%nat -> loop_ok d p (transmits_loop now rt a2p fuel p d).
Proof.
  revert p d. induction fuel as [|fuel IH]; intros p d Hf; [lia|]. cbn [transmits_loop].
  destruct (poll_transmit now (d_conn d)) as [[t|] c] eqn:E.
  - pose proof (work_transmit _ _ _ _ E) as Hw. unfold slice_to.
    rewrite decide_True by (by eapply transmit_size). cbn [run_bind].
    destruct (route_transmit_routed rt a2p (destination t) (take (t_size t) (t_buf t))
                (d_out (set_conn c d)) Hroutable) as (o & -> & Ho).
    cbn [run_bind]. eapply loop_ok_step; [..|apply IH]; unfold d_work, d_conn, set_conn in *; simpl in *;
      [split_and!; [done|apply queue_rel_refl|done]|done|lia].
  - pose proof (work_transmit_none _ _ _ E). exists p, (set_conn c d).
    split_and!; [done|apply set_conn_rel|left; split; [done|]]. by apply quiet_set_conn.
Qed.

(** Sequencing two loops. *)
Lemma loop_ok_bind d p r (k : bool * DrainState -> Run (bool * DrainState)) :
  loop_ok d p r ->
  (forall p1 d1, (d_work d1 <= d_work d)%nat -> loop_ok d1 p1 (k (p1, d1))) ->
  loop_ok d p (run_bind r k).
Proof.
  intros (p1 & d1 & -> & Hrel1 & H1) Hk. cbn [run_bind].
  assert (d_work d1 <= d_work d)%nat as Hw1 by (destruct H1 as [[_ []]|[]]; lia).
  destruct (Hk p1 d1 Hw1) as (p2 & d2 & -> & Hrel2 & H2).
  exists p2, d2. split_and!; [done|by etransitivity|].
  destruct H1 as [[-> H1]|[-> ?]], H2 as [[-> H2]|[-> ?]].
  - left. split; [done|by eapply quiet_trans].
  - right. split; [done|lia].
  - right. destruct H2. split; [done|lia].
  - right. split; [done|lia].
Qed.

Lemma drain_turn_ok fuel d :
  (d_work d < fuel)%nat -> loop_ok d false (drain_turn now rt a2p h fuel d).
Proof.
  intros Hf. unfold drain_turn. apply loop_ok_bind; [by apply endpoint_events_loop_ok|].
  intros p1 d1 H1. apply loop_ok_bind; [apply events_loop_ok; lia|].
  intros p2 d2 H2. apply transmits_loop_ok. lia.
Qed.

Lemma drain_loop_ok turns fuel any d :
  (d_work d < turns)%nat -> (d_work d < fuel)%nat ->
  loop_ok d any (drain_loop now rt a2p h turns fuel any d).
Proof.
  revert any d. induction turns as [|turns IH]; intros any d Ht Hf; [lia|]. cbn [drain_loop].
  destruct (drain_turn_ok fuel d Hf) as (p & d1 & -> & Hrel & Hp). cbn [run_bind].
  destruct p.
  - destruct Hp as [[? _]|[_ Hw]]; [done|]. eapply loop_ok_step; [done..|]. apply IH; lia.
  - destruct Hp as [[_ Hq]|[? _]]; [|done]. exists any, d1. eauto.
Qed.

Lemma drain_conn_ok fuel any d :
  (d_work d < fuel)%nat ->
  exists any' d', drain_conn now rt a2p h fuel any d = Done (any', d') /\ drain_rel d d' /\
    (d_work d' <= d_work d)%nat /\ ((any' = any /\ quiet d d') \/ any' = true).
Proof.
  intros Hf. unfold drain_conn.
  destruct (drain_loop_ok fuel fuel any d Hf Hf) as (any1 & d1 & -> & Hrel & H1). cbn [run_bind].
  assert (d_work d1 <= d_work d)%nat as Hw by (destruct H1 as [[_ []]|[]]; lia).
  case_match.
  - eexists _, _. split_and!; [done| |done|by right]. etransitivity; [exact Hrel|].
    split_and!; [done|apply queue_rel_refl|done].
  - eexists _, _. split_and!; [done..|]. destruct H1 as [[]|[]]; eauto.
Qed.
End Loops.

(** ** The whole table *)

(** Putting one drained connection back keeps the connection invariant. *)
Lemma conn_inv_put cs next q q' h e e' :
  conn_inv cs next q -> cs !! h = Some e -> entry_rel h e e' -> queue_rel h e e' q q' ->
  conn_inv (<[h := e']> cs) next q'.
Proof.
  intros [Hn Hep Hq Hr Ha] He (Hepoch & Hside & Hexp & Hcon & Hauth & _) (l & -> & Hl & Hne).
  assert (forall x, x ∈ l -> x = (h, epoch e) /\ accepted_side e = true /\ connected e' = true) as Hin.
  { intros x Hx. rewrite Forall_forall in Hl. split; [auto|]. apply Hne. by intros ->; inversion Hx. }
  constructor; [done|..].
  - intros h' x. rewrite lookup_insert. case_decide; intros; simplify_eq; [|eauto].
    rewrite Hepoch. eauto.
  - intros h' ep [?|Hx]%elem_of_app; [eauto|]. apply Hin in Hx as [? _]. simplify_eq. eauto.
  - intros h' ep x Hx. rewrite lookup_insert. case_decide; intros; simplify_eq.
    + apply elem_of_app in Hx as [Hx|Hx].
      * destruct (Hr _ _ e Hx He) as [? ?]; [congruence|]. rewrite Hside. auto.
      * apply Hin in Hx as (? & ? & ?). rewrite Hside. auto.
    + apply elem_of_app in Hx as [Hx|Hx]; [eauto|]. apply Hin in Hx as [? _]. by simplify_eq.
  - intros h' x. rewrite lookup_insert. case_decide; intros; simplify_eq; eauto.
Qed.

(** How the table may evolve: the same handles, each entry by [entry_rel]. *)
Definition conns_rel (cs cs' : gmap ConnectionHandle ConnEntry) : Prop :=
  forall h, option_relation (fun e e' => entry_rel h e e' /\ (work (conn e') <= work (conn e))%nat)
              (fun _ => False) (fun _ => False) (cs !! h) (cs' !! h).

#[export] Instance conns_rel_preorder : PreOrder conns_rel.
Proof.
  split.
  - intros cs h. destruct (cs !! h); [split; [done|lia]|done].
  - intros a b c Hab Hbc h. specialize (Hab h). specialize (Hbc h).
    destruct (a !! h), (b !! h), (c !! h); simpl in *; try done.
    destruct Hab, Hbc. split; [by etransitivity|lia].
Qed.

Lemma conns_rel_insert cs h e e' :
  cs !! h = Some e -> entry_rel h e e' -> (work (conn e') <= work (conn e))%nat ->
  conns_rel cs (<[h := e']> cs).
Proof.
  intros He Hrel Hw h'. rewrite lookup_insert. case_decide as Hh; [subst; by rewrite He|].
  destruct (cs !! h'); [split; [done|lia]|done].
Qed.

(** What a drain leaves alone, and what it may append. *)
Record drain_frame (st st' : State) : Prop := {
  df_frame : st' = st <| noq := noq st' |> <| conns := conns st' |>
                      <| accept_queue := accept_queue st' |>
                      <| relay_outbound := relay_outbound st' |>
                      <| udp_outbound := udp_outbound st' |>
                      <| channel_outbound := channel_outbound st' |>;
  df_conns : conns_rel (conns st) (conns st');
  df_routed : routed (routes st) (addr_to_peer st) (outbound_of st) (outbound_of st');
}.

(** Nothing a caller of the endpoint could observe moved. *)
Definition unobservable (st st' : State) : Prop :=
  accept_queue st' = accept_queue st /\ outbound_of st' = outbound_of st /\
  forall h e', conns st' !! h = Some e' -> exists e c, conns st !! h = Some e /\ e' = e <| conn := c |>.

Lemma outbound_put_back h d st : outbound_of (put_back h d st) = d_out d.
Proof. unfold outbound_of, put_back. simpl. by destruct (d_out d). Qed.

Lemma drain_order_ok fuel now order any st :
  wf st -> (forall h e, conns st !! h = Some e -> (work (conn e) < fuel)%nat) ->
  exists any' st', drain_order fuel now order any st = Done (any', st') /\ wf st' /\
    drain_frame st st' /\ (any' = false -> any = false /\ unobservable st st').
Proof.
  revert any st. induction order as [|h order IH]; intros any st Hwf Hf; cbn [drain_order].
  { exists any, st. split_and!; [done|done| |].
    - constructor; [by destruct st|done|done].
    - intros ->. split; [done|]. split; [done|]. split; [done|]. intros h e' He. exists e', (conn e'). split; [done|by destruct e']. }
  destruct (conns st !! h) as [e|] eqn:He; [|by apply IH].
  destruct (drain_conn_ok now (routes st) (addr_to_peer st) h) with
    (fuel := fuel) (any := any) (d := MkDrain (noq st) e (accept_queue st) (outbound_of st))
    as (any1 & d1 & -> & (Hent & Hq & Ho) & Hw & Hany).
  { intros a Ha. by apply (ai_routes _ _ _ _ _ _ (wf_addr _ Hwf)). }
  { by eapply Hf. }
  simpl in *. unfold d_work, d_conn in Hw. simpl in Hw.
  pose proof (conns_rel_insert _ h e (d_entry d1) He Hent Hw) as Hcr.
  destruct (IH any1 (put_back h d1 st)) as (any2 & st2 & Hrun & Hwf2 & Hframe & Hobs).
  - wf_parts Hwf. by eapply conn_inv_put.
  - intros h' e'. simpl. intros He'. specialize (Hcr h'). rewrite He' in Hcr.
    destruct (conns st !! h') as [e0|] eqn:E0; [|done]. destruct Hcr as [_ ?].
    apply Hf in E0. lia.
  - exists any2, st2. rewrite Hrun. destruct Hframe as [Hfr Hc2 Hr2]. split_and!; [done|done| |].
    + constructor.
      * rewrite Hfr at 1. done.
      * by etransitivity.
      * etransitivity; [|exact Hr2]. by rewrite outbound_put_back.
    + intros ->. destruct Hobs as [-> (Hoq & Hoo & Hoc)]; [done|].
      destruct Hany as [[-> [Hd1 _]]|]; [|done]. split; [done|]. rewrite Hd1 in *.
      split; [done|]. split; [done|]. intros h' e' (e0 & c & He0 & ->)%Hoc. simpl in He0.
      rewrite lookup_insert in He0. case_decide; simplify_eq; eauto.
Qed.

(** C8. Identity: a [Connected] event makes the entry connected exactly when the
    TLS session authenticated an identity that is the expected one (any, when
    none was addressed), records that identity as the peer and queues the
    connection's handle and epoch for accept when it was accepted; any other
    session is closed with code 1 and the connect fails, without the entry
    becoming connected or reaching the accept queue. *)
Theorem on_event_identity fuel now h e q :
  let admits id := expected_peer e = None \/ expected_peer e = Some id in
  exists e' q', on_event fuel now h Connected e q = Done (e', q') /\
    match tls_peer (conn e) with
    | Some id =>
        if decide (admits id) then
          peer e' = Some id /\ connected e' = true /\ error e' = error e /\ conn e' = conn e /\
          q' = (if accepted_side e then q ++ [(h, epoch e)] else q)
        else
          connected e' = connected e /\ peer e' = peer e /\ q' = q /\
          error e' = Some (ConnectFailed "authenticated key differs from the addressed peer") /\
          conn e' = conn_close now 1 (str_bytes "identity mismatch") (conn e)
    | None =>
        connected e' = connected e /\ peer e' = peer e /\ q' = q /\
        error e' = Some (ConnectFailed "authenticated key differs from the addressed peer") /\
        conn e' = conn_close now 1 (str_bytes "identity mismatch") (conn e)
    end.
Proof.
  intros admits. cbn [on_event]. destruct e as [c ep ex p a ? al er ? ? ? ?].
  cbn [conn expected_peer] in *. subst admits.
  destruct (handshake_data c) as [pr|], (tls_peer c) as [id|] eqn:Ht; simpl; rewrite Ht; simpl;
    repeat case_decide; eauto 12.
Qed.

(** ** Fuel

    More fuel never changes a result, so any fuel that yields one stands for
    the loop without fuel. *)
Section Fuel.
Context (now : Instant) (rt : gmap SocketAddr RouteWire) (a2p : gmap SocketAddr EndpointId).
Context (h : ConnectionHandle).

Lemma accept_streams_le n m d c q :
  (n <= m)%nat -> run_le (accept_streams n d c q) (accept_streams m d c q).
Proof.
  revert m c q. induction n as [|n IH]; intros [|m] c q Hle; try done; try lia. cbn [accept_streams].
  destruct (streams_accept d c) as [[id|] c']; [apply IH; lia|done].
Qed.

Lemma on_event_le n m ev e q : (n <= m)%nat -> run_le (on_event n now h ev e q) (on_event m now h ev e q).
Proof.
  intros Hle. destruct ev as [| | | | |[dir|]| | |]; try done.
  apply run_bind_le; [by apply accept_streams_le|]. intros [c b].
  apply run_bind_le; [by apply accept_streams_le|]. by intros [c' u].
Qed.

Lemma endpoint_events_loop_le n m p d :
  (n <= m)%nat -> run_le (endpoint_events_loop h n p d) (endpoint_events_loop h m p d).
Proof.
  revert m p d. induction n as [|n IH]; intros [|m] p d Hle; try done; try lia.
  cbn [endpoint_events_loop]. destruct (poll_endpoint_events _) as [[ev|] c]; [|done].
  destruct (ep_handle_event h ev _) as [back ep]. apply IH. lia.
Qed.

Lemma events_loop_le n m p d :
  (n <= m)%nat -> run_le (events_loop now h n p d) (events_loop now h m p d).
Proof.
  revert m p d. induction n as [|n IH]; intros [|m] p d Hle; try done; try lia.
  cbn [events_loop]. destruct (poll _) as [[ev|] c]; [|done].
  apply run_bind_le; [by apply on_event_le|]. intros [e q]. apply IH. lia.
Qed.

Lemma transmits_loop_le n m p d :
  (n <= m)%nat -> run_le (transmits_loop now rt a2p n p d) (transmits_loop now rt a2p m p d).
Proof.
  revert m p d. induction n as [|n IH]; intros [|m] p d Hle; try done; try lia.
  cbn [transmits_loop]. destruct (poll_transmit now _) as [[t|] c]; [|done].
  apply run_bind_le; [done|]. intros b. apply run_bind_le; [done|]. intros o. apply IH. lia.
Qed.

Lemma drain_turn_le n m d :
  (n <= m)%nat -> run_le (drain_turn now rt a2p h n d) (drain_turn now rt a2p h m d).
Proof.
  intros Hle. apply run_bind_le; [by apply endpoint_events_loop_le|]. intros [p1 d1].
  apply run_bind_le; [by apply events_loop_le|]. intros [p2 d2]. by apply transmits_loop_le.
Qed.

Lemma drain_loop_le t t' n m any d :
  (t <= t')%nat -> (n <= m)%nat ->
  run_le (drain_loop now rt a2p h t n any d) (drain_loop now rt a2p h t' m any d).
Proof.
  revert t' any d. induction t as [|t IH]; intros [|t'] any d Ht Hle; try done; try lia.
  apply run_bind_le; [by apply drain_turn_le|]. intros [[|] d1]; [|done]. apply IH; lia.
Qed.

Lemma drain_conn_le n m any d :
  (n <= m)%nat -> run_le (drain_conn now rt a2p h n any d) (drain_conn now rt a2p h m any d).
Proof.
  intros Hle. apply run_bind_le; [by apply drain_loop_le|]. by intros [any1 d1].
Qed.
End Fuel.

Lemma drain_order_le n m now order any st :
  (n <= m)%nat -> run_le (drain_order n now order any st) (drain_order m now order any st).
Proof.
  intros Hle. revert any st. induction order as [|h order IH]; intros any st; [done|].
  cbn [drain_order]. destruct (conns st !! h); [|apply IH].
  apply run_bind_le; [by apply drain_conn_le|]. intros [any1 d1]. apply IH.
Qed.

(** Fuel above every connection's work exists. *)
Lemma enough_fuel st :
  exists fuel, forall h e, conns st !! h = Some e -> (work (conn e) < fuel)%nat.
Proof.
  exists (S (sum_list_with (fun he => work (conn he.2)) (map_to_list (conns st)))).
  intros h e He%elem_of_map_to_list.
  apply (sum_list_with_in _ (fun he => work (conn he.2))) in He. simpl in He. lia.
Qed.

(** ** Datagrams in *)

Lemma push_response_wf addr src b st : wf st -> wf (push_response addr src b st).
Proof. intros H. unfold push_response. repeat case_match; wf_parts H. Qed.

Lemma push_transmit_done addr src t st :
  (t_size t <= length (t_buf t))%nat ->
  push_transmit addr src t st = Done (push_response addr src (take (t_size t) (t_buf t)) st).
Proof. intros H. unfold push_transmit, slice_to. by rewrite decide_True. Qed.

Lemma set_noq_wf ep st : wf st -> wf (st <| noq := ep |>).
Proof. intros H. wf_parts H. Qed.

(** A fresh epoch in a slot, also when noq reuses one: no stale stamp names it. *)
Lemma conn_inv_fresh cs next q h c expected side :
  conn_inv cs next q -> next < u64_max ->
  conn_inv (<[h := ConnEntry_new c expected side next]> cs) (next + 1) q.
Proof.
  intros [Hn Hep Hq Hr Ha] Hroom. unfold u64_max in *. constructor; [lia|..].
  - intros h' e. rewrite lookup_insert. case_decide; [intros [= <-]; simpl; lia|].
    intros He%Hep. lia.
  - intros h' ep Hx%Hq. lia.
  - intros h' ep e Hx. rewrite lookup_insert. case_decide; [intros [= <-] <-|eauto].
    apply Hq in Hx. simpl in Hx. lia.
  - intros h' e. rewrite lookup_insert. case_decide; [by intros [= <-]|eauto].
Qed.

Lemma conn_inv_set_conn cs next q h e c :
  conn_inv cs next q -> cs !! h = Some e -> conn_inv (<[h := e <| conn := c |>]> cs) next q.
Proof.
  intros Hi He. eapply conn_inv_put; [done|done| |]; [done|apply queue_rel_refl].
Qed.

Lemma handle_datagram_ok now addr src b st :
  wf st -> next_conn_epoch st < u64_max ->
  exists st', handle_datagram now addr src b st = Done st' /\ wf st'.
Proof.
  intros Hwf Hroom. unfold handle_datagram.
  destruct (ep_handle now addr b (noq st)) as [[[h ev|inc|t]|] ep] eqn:E; simpl.
  - destruct (conns st !! h) as [e|] eqn:He; eexists; (split; [done|]); [|by apply set_noq_wf].
    wf_parts Hwf. by apply conn_inv_set_conn.
  - destruct (closed st); [eexists; split; [done|by apply set_noq_wf]|].
    case_match.
    + destruct (ep_refuse inc ep) as [t ep'] eqn:Er.
      rewrite push_transmit_done by (by eapply refuse_size).
      eexists. split; [done|]. by apply push_response_wf, set_noq_wf, set_noq_wf.
    + destruct (ep_accept inc now ep) as [[[h c]|[t|]] ep'] eqn:Ea.
      * eexists. split; [done|]. wf_parts Hwf.
        pose proof (ci_next _ _ _ (wf_conn _ Hwf)). unfold u64_max in *.
        rewrite (wrap64_small (_ + 1)) by lia. by apply conn_inv_fresh.
      * rewrite push_transmit_done by (by eapply accept_size).
        eexists. split; [done|]. by apply push_response_wf, set_noq_wf, set_noq_wf.
      * eexists. split; [done|]. by apply set_noq_wf, set_noq_wf.
  - rewrite push_transmit_done by (by eapply handle_size).
    eexists. split; [done|]. by apply push_response_wf, set_noq_wf.
  - eexists. split; [done|]. by apply set_noq_wf.
Qed.

Lemma push_response_conns addr src b st :
  conns (push_response addr src b st) = conns st /\
  accept_queue (push_response addr src b st) = accept_queue st.
Proof. unfold push_response. by repeat case_match. Qed.

Lemma push_transmit_frame addr src t st st' :
  push_transmit addr src t st = Done st' ->
  conns st' = conns st /\ accept_queue st' = accept_queue st.
Proof.
  unfold push_transmit. destruct (slice_to _ _); intros; simplify_eq/=. apply push_response_conns.
Qed.

(** What one datagram may do to the connection table. *)
Lemma handle_datagram_conns now addr src b st st' :
  handle_datagram now addr src b st = Done st' ->
  accept_queue st' = accept_queue st /\
  (forall h, conns st' !! h <> conns st !! h ->
     (exists ev e, (ep_handle now addr b (noq st)).1 = Some (DConnectionEvent h ev) /\
        conns st !! h = Some e /\ conns st' !! h = Some (e <| conn ::= handle_event ev |>)) \/
     (closed st = false /\ (accept_backlog st < ACCEPT_BACKLOG)%nat /\
      exists c, conns st' !! h = Some (ConnEntry_new c src true (next_conn_epoch st)))).
Proof.
  unfold handle_datagram. destruct (ep_handle now addr b (noq st)) as [[[h ev|inc|t]|] ep].
  - destruct (conns _ !! h) as [e|] eqn:He; intros [= <-]; (split; [done|]); [|done].
    intros h'. simpl in *. rewrite lookup_insert. destruct (decide (h = h')) as [<-|]; [|done].
    intros _. left. exists ev, e. by split_and!.
  - change (closed (st <| noq := ep |>)) with (closed st). change (noq (st <| noq := ep |>)) with ep.
    destruct (closed st) eqn:Hc; [by intros [= <-]|].
    destruct (Nat.leb_spec ACCEPT_BACKLOG (accept_backlog (st <| noq := ep |>))) as [|Hlt].
    { destruct (ep_refuse inc ep). intros [-> ->]%push_transmit_frame. done. }
    destruct (ep_accept inc now ep) as [[[h c]|[t|]] ep'].
    + intros [= <-]. split; [done|]. intros h'. simpl. rewrite lookup_insert. case_decide; [|done].
      intros _. right. split_and!; [done|exact Hlt|by exists c].
    + intros [-> ->]%push_transmit_frame. done.
    + by intros [= <-].
  - intros [-> ->]%push_transmit_frame. done.
  - by intros [= <-].
Qed.

Lemma handle_datagram_full now addr src b inc ep st :
  ep_handle now addr b (noq st) = (Some (DNewConnection inc), ep) ->
  closed st = false -> (ACCEPT_BACKLOG <= accept_backlog st)%nat ->
  handle_datagram now addr src b st =
  (let '(t, ep') := ep_refuse inc ep in
   Done (push_response addr src (take (t_size t) (t_buf t)) (st <| noq := ep' |>))).
Proof.
  intros E Hopen Hfull. unfold handle_datagram. rewrite E.
  change (closed (st <| noq := ep |>)) with (closed st). rewrite Hopen.
  change (accept_backlog (st <| noq := ep |>)) with (accept_backlog st).
  change (noq (st <| noq := ep |>)) with ep.
  rewrite (proj2 (Nat.leb_le _ _) Hfull). destruct (ep_refuse inc ep) as [t ep'] eqn:Er.
  rewrite push_transmit_done by (by eapply refuse_size). by destruct st.
Qed.


(** ** Timers and closing *)

(** Every entry evolved by [entry_rel]. *)
Lemma conn_inv_fmap f cs next q :
  conn_inv cs next q -> (forall h e, entry_rel h e (f e)) -> conn_inv (f <$> cs) next q.
Proof.
  intros [Hn He Hq Hr Ha] Hf.
  assert (forall h e, (f <$> cs) !! h = Some e -> exists e0, cs !! h = Some e0 /\ entry_rel h e0 e) as Hold.
  { intros h e. rewrite lookup_fmap. intros (e0 & He0 & ->)%fmap_Some. eauto. }
  constructor; [done| |exact Hq| |].
  - intros h e (e0 & H0 & -> & _)%Hold. exact (He _ _ H0).
  - intros h ep e Hx (e0 & H0 & Hep & -> & _ & Hc & _)%Hold Hepe. rewrite Hep in Hepe.
    destruct (Hr _ _ _ Hx H0 Hepe). auto.
  - intros h e (e0 & H0 & _ & _ & _ & _ & Hau & _)%Hold. exact (Hau (Ha _ _ H0)).
Qed.

Lemma handle_timeouts_wf now st : wf st -> wf (handle_timeouts now st).
Proof.
  intros Hwf. wf_parts Hwf. apply conn_inv_fmap; [done|]. intros h e. by repeat case_match.
Qed.

Lemma close_all_wf now r st : wf st -> wf (close_all now r st).
Proof.
  intros Hwf. wf_parts Hwf. apply conn_inv_fmap; [done|]. intros h e. by case_match.
Qed.

(** Closing the endpoint closes every connection that is neither failed
    nor drained with code 0 and the given reason, exactly once, and leaves the
    others, the table's handles and all other state as they are. *)
Theorem close_all_contract now reason st :
  let st' := close_all now reason st in
  st' = st <| conns := conns st' |> /\
  forall h, conns st' !! h =
    match conns st !! h with
    | Some e =>
        Some (if decide (error e = None /\ drained e = false)
              then e <| conn ::= conn_close now 0 reason |> else e)
    | None => None
    end.
Proof.
  split; [by destruct st|]. intros h. simpl. rewrite lookup_fmap.
  destruct (conns st !! h) as [e|]; [|done]. simpl. unfold live.
  destruct (error e), (drained e); case_decide; naive_solver.
Qed.
End DrainTheory.

#[export] Hint Resolve push_response_wf handle_timeouts_wf close_all_wf set_noq_wf : iroh.
