(* ===== verification/Rely.v ===== *)
(** The interface between the tasks that share the state: what each may rely
    on of the others' state changes, and that the state operations, the
    datagram handlers and the drain respect it. Relays and channels are only
    added, by the registration functions, and an endpoint never reopens. *)
From S2P Require Import Prelude RelayFrames Types Noq State StateInv Drain DrainInv.

Section Rely.
Context {N : Noq}.

Record rely (s s' : State) : Prop := {
  rely_wf : wf s -> wf s';
  rely_pool : relay_pool s' = relay_pool s;
  rely_new_relays : new_relays s' = new_relays s;
  rely_next_key : next_relay_key s' = next_relay_key s;
  rely_channels : channels s' = channels s;
  rely_new_channels : new_channels s' = new_channels s;
  rely_closed : closed s = true -> closed s' = true;
}.

#[export] Instance rely_preorder : PreOrder rely.
Proof.
  split; [done|]. intros a b c [] []. constructor; try congruence; auto.
Qed.

Lemma wake_waiters_rely s : rely s (wake_waiters s).
Proof. constructor; [apply wake_waiters_wf|done..]. Qed.
Lemma emit_rely es s : rely s (emit es s).
Proof. constructor; [apply emit_wf|done..]. Qed.
Lemma handle_timeouts_rely now s : rely s (handle_timeouts now s).
Proof. constructor; [apply handle_timeouts_wf|done..]. Qed.

Lemma kick_pump_rely s : rely s (kick_pump s).
Proof. constructor; [apply kick_pump_wf|unfold kick_pump; by case_match..]. Qed.

Lemma kicked_poll_rely w s : rely s (kicked_poll w s).2.
Proof.
  unfold kicked_poll. case_match; (constructor; [|done..]); intros Hwf; wf_parts Hwf.
Qed.

Lemma handle_signal_rely via p b s : rely s (handle_signal via p b s).
Proof.
  constructor; [apply handle_signal_wf|..]; unfold handle_signal; repeat case_match; done.
Qed.

Lemma addr_for_peer_rely p via s : next_host s < u32_max -> rely s (addr_for_peer p via s).2.
Proof.
  intros H. constructor; [intros; by apply addr_for_peer_wf|..]; unfold addr_for_peer; by case_match.
Qed.

Lemma set_outbound_rely f g h s :
  rely s (s <| relay_outbound ::= f |> <| udp_outbound ::= g |> <| channel_outbound ::= h |>).
Proof. constructor; [|done..]. intros Hwf. wf_parts Hwf. Qed.

Context {L : NoqLaws}.

Lemma push_transmit_rely addr src t s s' : push_transmit addr src t s = Done s' -> rely s s'.
Proof.
  unfold push_transmit. destruct (slice_to _ _); intros; simplify_eq/=.
  constructor; [apply push_response_wf|unfold push_response; by repeat case_match..].
Qed.

Lemma set_noq_rely ep s : rely s (s <| noq := ep |>).
Proof. constructor; [apply set_noq_wf|done..]. Qed.

Lemma handle_datagram_rely now addr src b s s' :
  next_conn_epoch s < u64_max -> handle_datagram now addr src b s = Done s' -> rely s s'.
Proof.
  intros Hroom Hrun.
  assert (wf s -> wf s') as Hwf.
  { intros Hwf. destruct (handle_datagram_ok now addr src b s Hwf Hroom) as (s2 & Hs2 & ?). congruence. }
  revert Hrun. unfold handle_datagram. destruct (ep_handle now addr b (noq s)) as [[[h ev|inc|t]|] ep].
  - case_match; intros [= <-]; by constructor.
  - case_match; [by intros [= <-]; constructor|]. case_match.
    + destruct (ep_refuse inc _). intros Hp%push_transmit_rely.
      etransitivity; [|exact Hp]. by etransitivity; [apply set_noq_rely|apply set_noq_rely].
    + destruct (ep_accept inc now _) as [[[h c]|[t|]] ep'].
      * intros [= <-]. by constructor.
      * intros Hp%push_transmit_rely. etransitivity; [|exact Hp].
        by etransitivity; [apply set_noq_rely|apply set_noq_rely].
      * intros [= <-]. by constructor.
  - intros Hp%push_transmit_rely. etransitivity; [|exact Hp]. apply set_noq_rely.
  - intros [= <-]. by constructor.
Qed.

Lemma addr_for_peer_epoch p via s : next_conn_epoch (addr_for_peer p via s).2 = next_conn_epoch s.
Proof. unfold addr_for_peer. by case_match. Qed.

Lemma handle_relay_datagram_rely now via p b s s' :
  room s -> handle_relay_datagram now via p b s = Done s' -> rely s s'.
Proof.
  intros [Hh _ _ He]. unfold handle_relay_datagram.
  pose proof (addr_for_peer_rely p via s Hh). pose proof (addr_for_peer_epoch p via s) as Hep.
  destruct (addr_for_peer p via s) as [a s1]. simpl in *.
  intros ?%handle_datagram_rely; [by etransitivity|congruence].
Qed.

Lemma handle_channel_datagram_rely now id b s s' :
  room s -> handle_channel_datagram now id b s = Done s' -> rely s s'.
Proof.
  intros [Hh _ _ He]. unfold handle_channel_datagram.
  destruct (channels s !! id) as [e|]; [|by intros [= <-]].
  pose proof (addr_for_peer_rely (ch_peer e) (fallback_relay e) s Hh).
  pose proof (addr_for_peer_epoch (ch_peer e) (fallback_relay e) s) as Hep.
  destruct (addr_for_peer _ _ s) as [a s1]. simpl in *.
  intros ?%handle_datagram_rely; [by etransitivity|congruence].
Qed.

(** None of the datagram handlers panics. *)
Lemma handle_relay_datagram_done now via p b s :
  wf s -> room s -> exists s', handle_relay_datagram now via p b s = Done s'.
Proof.
  intros Hwf [Hh _ _ He]. unfold handle_relay_datagram.
  pose proof (addr_for_peer_wf p via s Hwf Hh). pose proof (addr_for_peer_epoch p via s) as Hep.
  destruct (addr_for_peer p via s) as [a s1]. simpl in *.
  destruct (handle_datagram_ok now a (Some p) b s1) as (s2 & ? & _); [done|congruence|eauto].
Qed.

Lemma handle_channel_datagram_done now id b s :
  wf s -> room s -> exists s', handle_channel_datagram now id b s = Done s'.
Proof.
  intros Hwf [Hh _ _ He]. unfold handle_channel_datagram.
  destruct (channels s !! id) as [e|]; [|eauto].
  pose proof (addr_for_peer_wf (ch_peer e) (fallback_relay e) s Hwf Hh).
  pose proof (addr_for_peer_epoch (ch_peer e) (fallback_relay e) s) as Hep.
  destruct (addr_for_peer _ _ s) as [a s1]. simpl in *.
  destruct (handle_datagram_ok now a (Some (ch_peer e)) b s1) as (s2 & ? & _); [done|congruence|eauto].
Qed.

Lemma drain_rely fuel now order any s s' :
  wf s -> drain fuel now order s = Done (any, s') -> rely s s'.
Proof.
  intros Hwf Hrun. destruct (enough_fuel s) as [m Hm].
  destruct (drain_order_ok (fuel + m) now order false s Hwf) as (any2 & s2 & Hrun2 & Hwf2 & [Hfr _ _] & _).
  { intros h e He. specialize (Hm h e He). lia. }
  pose proof (drain_order_le fuel (fuel + m) now order false s ltac:(lia) _ Hrun) as Hrun3.
  rewrite Hrun2 in Hrun3. simplify_eq. rewrite Hfr. constructor; [|done..]. intros _. by rewrite <- Hfr.
Qed.
End Rely.
