(* ===== verification/Redial.v ===== *)
(** The redial backoff and the bounded relay dial ([redial_delay],
    [next_redial_delay], [dial_relay], [redial_home] of
    [endpoint/src/endpoint_impl.rs]). The random source is an argument: the two
    bytes it filled, or [None] when it refused. *)
From S2P Require Import Prelude RelayConn.

Definition REDIAL_MIN_DELAY : Duration := from_millis 10.
Definition REDIAL_MAX_DELAY : Duration := from_secs 5.
Definition REDIAL_ESTABLISHED : Duration := from_secs 10.
Definition DIAL_TIMEOUT : Duration := from_secs 10.

(** [u32::checked_shl] of one, and [Duration::checked_mul]. *)
Definition checked_shl1 (n : Z) : option Z := if n <? 32 then Some (Z.shiftl 1 n) else None.
Definition checked_mul (d : Duration) (k : Z) : option Duration :=
  if d * k <? 2 ^ 64 * 1000000000 then Some (d * k) else None.

Definition redial_delay (attempt : Z) (random : option (array 2)) : Duration :=
  let base := Z.min (default REDIAL_MAX_DELAY
                      (checked_mul REDIAL_MIN_DELAY (default u32_max (checked_shl1 (Z.min attempt 31)))))
                REDIAL_MAX_DELAY in
  let spread := match random with Some b => le_value (array_bytes b) | None => 0 end in
  let jitter := from_nanos (wrap64 (wrap64 base / u16_max * spread)) in
  Z.min (base + jitter) REDIAL_MAX_DELAY.

(** The delay, and the backoff state ([attempt], [home_since]) after it. *)
Definition next_redial_delay (now : Instant) (random : option (array 2)) (attempt : Z)
    (home_since : option Instant) : Duration * Z * option Instant :=
  let established :=
    match home_since with
    | Some at_ => REDIAL_ESTABLISHED <=? duration_since now at_
    | None => false
    end in
  if established then (0, 0, None)
  else (redial_delay attempt random, Z.min (attempt + 1) u32_max, None).

(** ** The bounded dial *)

Inductive DialError := DialTimedOut | DialFailed (e : string).

(** The dial's own end, when it has one, raced against the timer; the dial is
    polled first. The result comes with the time it is known. *)
Definition dial_relay (start : Instant) (opened : option (Instant * Result RelayConn string))
    : Instant * Result RelayConn DialError :=
  let deadline := start + DIAL_TIMEOUT in
  match opened with
  | Some (t, r) =>
      if t <=? deadline then (t, map_err DialFailed r) else (deadline, Err DialTimedOut)
  | None => (deadline, Err DialTimedOut)
  end.

Definition redial_error (e : DialError) : string :=
  match e with DialTimedOut => "relay dial timed out" | DialFailed e => e end.

(** [opened start] is how a dial begun at [start] goes. *)
Definition redial_home (start : Instant) (delay : Duration)
    (opened : Instant -> option (Instant * Result RelayConn string))
    : Instant * Result RelayConn string :=
  let start := if delay =? 0 then start else start + wrap64 delay in
  let '(t, r) := dial_relay start (opened start) in
  (t, map_err redial_error r).

(** ** Bounds *)

(** The unjittered delay. *)
Definition backoff_base (attempt : Z) : Duration :=
  Z.min (REDIAL_MIN_DELAY * 2 ^ attempt) REDIAL_MAX_DELAY.

Lemma spread_range (b : array 2) : 0 <= le_value (array_bytes b) <= u16_max.
Proof.
  pose proof (le_value_range (array_bytes b)) as H. rewrite array_length in H.
  unfold u16_max. change (256 ^ Z.of_nat 2) with (2 ^ 16) in H. lia.
Qed.

Lemma pow_cap attempt : 0 <= attempt ->
  Z.min (REDIAL_MIN_DELAY * 2 ^ Z.min attempt 31) REDIAL_MAX_DELAY = backoff_base attempt.
Proof.
  intros H. unfold backoff_base. destruct (Z.le_ge_cases attempt 31) as [Hle|Hge].
  - by rewrite (Z.min_l attempt 31) by lia.
  - rewrite (Z.min_r attempt) by lia.
    pose proof (Z.pow_le_mono_r 2 31 attempt ltac:(lia) Hge).
    unfold REDIAL_MIN_DELAY, REDIAL_MAX_DELAY, from_millis, from_secs. lia.
Qed.

Lemma backoff_base_pos attempt : 0 <= attempt ->
  REDIAL_MIN_DELAY <= backoff_base attempt <= REDIAL_MAX_DELAY.
Proof.
  intros H. pose proof (Z.pow_le_mono_r 2 0 attempt ltac:(lia) H).
  unfold backoff_base, REDIAL_MIN_DELAY, REDIAL_MAX_DELAY, from_millis, from_secs. lia.
Qed.

Lemma backoff_base_mono a b : 0 <= a <= b -> backoff_base a <= backoff_base b.
Proof.
  intros [H1 H2]. pose proof (Z.pow_le_mono_r 2 a b ltac:(lia) H2).
  unfold backoff_base, REDIAL_MIN_DELAY, REDIAL_MAX_DELAY, from_millis, from_secs. lia.
Qed.

(** The delay in closed form: the checked operations never overflow. *)
Lemma redial_delay_eq attempt random : 0 <= attempt ->
  redial_delay attempt random =
  Z.min (backoff_base attempt
         + backoff_base attempt / u16_max
           * match random with Some b => le_value (array_bytes b) | None => 0 end) REDIAL_MAX_DELAY.
Proof.
  intros H. unfold redial_delay, checked_shl1.
  destruct (Z.ltb_spec (Z.min attempt 31) 32); [|lia]. cbn [default from_option id].
  rewrite Z.shiftl_1_l. unfold checked_mul.
  assert (2 ^ Z.min attempt 31 <= 2 ^ 31) by (apply Z.pow_le_mono_r; lia).
  assert (0 < 2 ^ Z.min attempt 31) by (apply Z.pow_pos_nonneg; lia).
  destruct (Z.ltb_spec (REDIAL_MIN_DELAY * 2 ^ Z.min attempt 31) (2 ^ 64 * 1000000000)) as [|Hge];
    [|unfold REDIAL_MIN_DELAY, from_millis in Hge; lia].
  cbn [default from_option id]. rewrite (pow_cap _ H). unfold from_nanos.
  pose proof (backoff_base_pos _ H) as Hb. set (base := backoff_base attempt) in *.
  unfold REDIAL_MIN_DELAY, REDIAL_MAX_DELAY, from_millis, from_secs in *.
  rewrite (wrap64_small base) by lia.
  set (spread := match random with Some b => _ | None => _ end).
  assert (0 <= spread <= u16_max) as Hs
    by (subst spread; destruct random; [apply spread_range|unfold u16_max; lia]).
  rewrite wrap64_small; [done|]. unfold u16_max in *.
  assert (0 <= base / (2 ^ 16 - 1) <= 5 * 1000000000 / (2 ^ 16 - 1)) as Hq
    by (split; [apply Z.div_pos; lia|apply Z.div_le_mono; lia]).
  change (5 * 1000000000 / (2 ^ 16 - 1)) with 76295 in Hq. nia.
Qed.

(** C38. The redial delay for attempt [n] is at least [10 ms * 2^n] and at most
    twice that, both capped at 5 s, whatever the random source yields; a source
    that refuses yields exactly the lower bound; from the ninth retry on the
    delay is exactly the 5 s cap; and the arithmetic never overflows, also for
    attempt numbers past the shift width. *)
Theorem redial_delay_bounds attempt random :
  0 <= attempt ->
  let base := Z.min (REDIAL_MIN_DELAY * 2 ^ attempt) REDIAL_MAX_DELAY in
  base <= redial_delay attempt random <= Z.min (2 * base) REDIAL_MAX_DELAY /\
  redial_delay attempt None = base /\
  (9 <= attempt -> redial_delay attempt random = REDIAL_MAX_DELAY).
Proof.
  intros H base. change base with (backoff_base attempt).
  pose proof (backoff_base_pos _ H) as Hb. pose proof (backoff_base_mono 9 attempt) as Hm.
  rewrite !redial_delay_eq by done.
  set (spread := match random with Some b => _ | None => _ end).
  assert (0 <= spread <= u16_max) as Hs
    by (subst spread; destruct random; [apply spread_range|unfold u16_max; lia]).
  assert (0 <= backoff_base attempt / u16_max * spread <= backoff_base attempt) as Hj.
  { pose proof (Z.mul_div_le (backoff_base attempt) u16_max ltac:(unfold u16_max; lia)).
    assert (0 <= backoff_base attempt / u16_max)
      by (apply Z.div_pos; unfold u16_max, REDIAL_MIN_DELAY, from_millis in *; lia). nia. }
  change (backoff_base 9) with REDIAL_MAX_DELAY in Hm. split_and!; lia.
Qed.

Lemma redial_delay_bounds_witness :
  redial_delay 3 (Some (array_of 2 Byte.xff)) <= from_millis 160 /\
  redial_delay 40 None = from_secs 5.
Proof.
  split.
  - exact (proj2 (proj1 (redial_delay_bounds 3 (Some (array_of 2 Byte.xff)) ltac:(lia)))).
  - exact (proj2 (proj2 (redial_delay_bounds 40 None ltac:(lia))) ltac:(lia)).
Defined.

(** Backoff policy: a home connection that had been registered for 10 s or
    longer is redialed at once and the next failure starts over from the
    shortest delay; any other failure waits the next delay of the sequence, at
    least 10 ms, and advances the attempt number without wrapping. Either way
    the registration time is consumed, so a failed redial never counts as an
    established connection. *)
Theorem next_redial_delay_policy now random attempt home_since :
  0 <= attempt <= u32_max ->
  let '(delay, attempt', since') := next_redial_delay now random attempt home_since in
  since' = None /\ 0 <= attempt' <= u32_max /\
  (forall at_, home_since = Some at_ -> REDIAL_ESTABLISHED <= duration_since now at_ ->
     delay = 0 /\ attempt' = 0) /\
  ((forall at_, home_since = Some at_ -> duration_since now at_ < REDIAL_ESTABLISHED) ->
     delay = redial_delay attempt random /\ REDIAL_MIN_DELAY <= delay <= REDIAL_MAX_DELAY /\
     attempt' = Z.min (attempt + 1) u32_max).
Proof.
  intros Ha. unfold next_redial_delay.
  assert (0 <= u32_max) by (unfold u32_max; lia).
  assert (REDIAL_MIN_DELAY <= redial_delay attempt random <= REDIAL_MAX_DELAY) as Hd.
  { rewrite redial_delay_eq by lia. pose proof (backoff_base_pos attempt ltac:(lia)) as Hb.
    assert (0 <= backoff_base attempt / u16_max)
      by (apply Z.div_pos; unfold u16_max, REDIAL_MIN_DELAY, from_millis in *; lia).
    destruct random as [b|]; [pose proof (spread_range b)|]; nia. }
  destruct home_since as [at_|].
  - destruct (Z.leb_spec REDIAL_ESTABLISHED (duration_since now at_)) as [He|He].
    + split_and!; [done|lia|lia|done|]. intros Hy. specialize (Hy _ eq_refl). lia.
    + split_and!; [done|lia|lia| |done]. intros ? [= <-]. lia.
  - split_and!; [done|lia|lia|done|done].
Qed.

Lemma next_redial_delay_policy_witness :
  let '(delay, attempt', since') := next_redial_delay (from_secs 12) None 5 (Some (from_secs 2)) in
  since' = None /\ 0 <= attempt' <= u32_max /\ delay = 0 /\ attempt' = 0.
Proof.
  pose proof (next_redial_delay_policy (from_secs 12) None 5 (Some (from_secs 2)) ltac:(done)) as H.
  destruct H as (H1 & H2 & H3 & _). split; [exact H1|]. split; [exact H2|].
  apply (H3 (from_secs 2)); [reflexivity|done].
Defined.

(** The attempt number stays a [u32] and the registration time is consumed. *)
Lemma next_attempt_range now random attempt home_since :
  0 <= attempt <= u32_max ->
  0 <= (next_redial_delay now random attempt home_since).1.2 <= u32_max /\
  (next_redial_delay now random attempt home_since).2 = None.
Proof.
  intros H. unfold next_redial_delay. assert (0 <= u32_max) by done.
  destruct (match home_since with Some _ => _ | None => _ end); simpl; (split; [lia|done]).
Qed.

(** A relay dial always resolves, by its deadline: whatever the connect
    does (it may stall forever), the dial is over 10 s after it began, with the
    connect's own result when that came in time (also exactly at the deadline)
    and a timeout otherwise; a redial, which first waits its backoff, resolves
    within the delay plus 10 s. *)
Theorem redial_resolves start delay opened :
  0 <= delay <= REDIAL_MAX_DELAY ->
  (forall begin t r, opened begin = Some (t, r) -> begin <= t) ->
  let '(t, r) := redial_home start delay opened in
  start + delay <= t <= start + delay + DIAL_TIMEOUT /\
  match opened (start + delay) with
  | Some (t', r') =>
      if t' <=? start + delay + DIAL_TIMEOUT then t = t' /\ r = r'
      else r = Err "relay dial timed out"
  | None => r = Err "relay dial timed out"
  end.
Proof.
  intros Hd Hop. unfold redial_home, REDIAL_MAX_DELAY, from_secs in *.
  assert ((if delay =? 0 then start else start + wrap64 delay) = start + delay) as ->.
  { destruct (Z.eqb_spec delay 0); [lia|]. rewrite wrap64_small by lia. lia. }
  unfold dial_relay, DIAL_TIMEOUT, from_secs.
  destruct (opened (start + delay)) as [[t' r']|] eqn:E; [|split; [lia|done]].
  apply Hop in E. destruct (Z.leb_spec t' (start + delay + 10 * 1000000000)); (split; [lia|]); [|done].
  split; [done|]. by destruct r'.
Qed.

Lemma redial_resolves_witness :
  let stall := fun _ : Instant => @None (Instant * Result RelayConn string) in
  let '(t, r) := redial_home 7 (from_millis 10) stall in
  7 + from_millis 10 <= t <= 7 + from_millis 10 + DIAL_TIMEOUT /\ r = Err "relay dial timed out".
Proof. apply (redial_resolves 7 (from_millis 10) (fun _ => None)); [done|discriminate]. Defined.
