(* ===== verification/Pump.v ===== *)
(** The pump of [endpoint/src/endpoint_impl.rs]: the task that moves datagrams
    between noq and the wires. Its local variables and the shared state form
    one record; each stretch of code between two awaits is a function, and
    [pump_step] is the interleaving of those stretches, with what the awaited
    futures yield, the clock, the random source and hash-map orders chosen by
    the environment. *)
From S2P Require Import Prelude RelayFrames RelayConn Types Udp Noq State Drain Redial.

Definition LINGER : Duration := from_millis 500.
Definition RELAY_PING_INTERVAL : Duration := from_secs 15.
Definition RELAY_PING_TIMEOUT : Duration := from_secs 5.
(** The first byte of a signaling datagram ([webrtc.rs]). *)
Definition SIGNAL_PREFIX : byte := Byte.x00.

(** Where the task is: about to run a stretch, or parked in one of its awaits. *)
Inductive Pc :=
| Top
| FlushRelay
| SendingRelay (key : Z) (c : RelayRef)
| FlushUdp
| SendingUdp
| FlushChannel
| SendingChannel
| Arm
| Select
| Waking
| DrainRelays
| DrainUdp
| DrainChannels
| DrainTick
| End.

(** A datagram handed to a wire. *)
Inductive Sent :=
| SentRelay (c : RelayRef) (frame : bytes)
| SentUdp (remote : SocketAddr) (datagram : bytes)
| SentChannel (wire : ChannelRef) (datagram : bytes).

Section Pump.
Context {N : Noq}.

Record Pump := MkPump {
  st : State;
  (** The heap of [Rc<RelayConn>]. *)
  wires : gmap RelayRef RelayConn;
  udp : option UdpWire;
  (** [udp_recv] and [tick] are not terminated. *)
  udp_recv : bool;
  tick : bool;
  channel_recvs : list (Z * ChannelRef);
  relay_recvs : list (Z * RelayRef);
  (** The redial in flight, by its delay; [None] is terminated. *)
  redial : option Duration;
  redial_attempt : Z;
  home_since : option Instant;
  force_wake : bool;
  pc : Pc;
  (** What was handed to the wires, oldest first. *)
  sent : list Sent;
}.
#[export] Instance Pump_eta : Eta Pump := fun p =>
  MkPump (st p) (wires p) (udp p) (udp_recv p) (tick p) (channel_recvs p) (relay_recvs p)
    (redial p) (redial_attempt p) (home_since p) (force_wake p) (pc p) (sent p).

(** The task as [bind] spawns it. *)
Definition pump_start (now : Instant) (s : State) (w : gmap RelayRef RelayConn) (u : option UdpWire)
    : Pump :=
  MkPump s w u true true [] [] None 0 (Some now) false Top [].

(** ** Relays that fail *)

Definition is_pool_current (key : Z) (c : RelayRef) (s : State) : bool :=
  bool_decide (relay_pool s !! key = Some c).

(** [RelayConn::close] on a shared connection. *)
Definition close_relay (c : RelayRef) (p : Pump) : Pump :=
  p <| wires ::= alter close c |> <| st ::= emit [CloseRelay c] |>.

Definition retire_home (c : RelayRef) (p : Pump) : bool * Pump :=
  if negb (is_pool_current HOME_RELAY c (st p)) then (false, p)
  else (true, close_relay c (p <| st ::= fun s => s <| relay_pool ::= delete HOME_RELAY |> |>)).

(** [let delay = next_redial_delay(..); redial = redial_home(.., delay)]. *)
Definition arm_redial (now : Instant) (rnd : option (array 2)) (p : Pump) : Pump :=
  let '(delay, attempt, since) := next_redial_delay now rnd (redial_attempt p) (home_since p) in
  p <| redial := Some delay |> <| redial_attempt := attempt |> <| home_since := since |>.

(** [if retire_home(..) { arm the redial }]. *)
Definition fail_home (now : Instant) (rnd : option (array 2)) (c : RelayRef) (p : Pump) : Pump :=
  let '(retired, p) := retire_home c p in
  if retired then arm_redial now rnd p else p.

(** [if let Some(conn) = retire_relay(key) { conn.close() }]. *)
Definition fail_foreign (key : Z) (p : Pump) : Pump :=
  let '(c, s) := retire_relay key (st p) in
  let p := p <| st := s |> in
  match c with Some c => close_relay c p | None => p end.

(** ** The turn: drain, flush, arm *)

Definition turn_top (fuel : nat) (now : Instant) (order : list ConnectionHandle) (p : Pump)
    : Run Pump :=
  let! (any, s) := drain fuel now order (st p) in
  let s := if any || force_wake p then wake_waiters s else s in
  Done (p <| st := s |> <| force_wake := false |> <| pc := FlushRelay |>).

Definition flush_relay (p : Pump) : Pump :=
  match relay_outbound (st p) with
  | (key, peer, datagram) :: rest =>
      let p := p <| st ::= fun s => s <| relay_outbound := rest |> |> in
      match relay_pool (st p) !! key with
      | Some c =>
          p <| sent ::= fun l => l ++ [SentRelay c (encode_client_datagram peer datagram)] |>
            <| pc := SendingRelay key c |>
      | None => p
      end
  | [] => p <| pc := FlushUdp |>
  end.

Definition relay_sent (now : Instant) (rnd : option (array 2)) (key : Z) (c : RelayRef)
    (res : Result unit string) (p : Pump) : Pump :=
  let p := p <| pc := FlushRelay |> in
  if is_err res && (key =? HOME_RELAY) then fail_home now rnd c p else p.

Definition flush_udp (p : Pump) : Pump :=
  match udp_outbound (st p), udp p with
  | (remote, datagram) :: rest, Some _ =>
      p <| st ::= fun s => s <| udp_outbound := rest |> |>
        <| sent ::= fun l => l ++ [SentUdp remote datagram] |> <| pc := SendingUdp |>
  | _ :: rest, None => p <| st ::= fun s => s <| udp_outbound := rest |> |>
  | [], _ => p <| pc := FlushChannel |>
  end.

Definition flush_channel (p : Pump) : Pump :=
  match channel_outbound (st p) with
  | (id, datagram) :: rest =>
      let p := p <| st ::= fun s => s <| channel_outbound := rest |> |> in
      match channels (st p) !! id with
      | Some e =>
          p <| sent ::= fun l => l ++ [SentChannel (ch_wire e) datagram] |> <| pc := SendingChannel |>
      | None => p
      end
  | [] => p <| pc := Arm |>
  end.

Definition should_stop (now : Instant) (s : State) : bool :=
  closed s &&
  (bool_decide (map_Forall (fun _ e => drained e = true \/ error e <> None) (conns s))
   || match closed_at s with Some at_ => LINGER <=? duration_since now at_ | None => true end).

(** The teardown's first stretch, on breaking out of the loop. *)
Definition teardown_begin (order : list (Z * RelayRef)) (p : Pump) : Pump :=
  let p := p <| st ::= wake_waiters |> in
  foldl (fun p kc => close_relay kc.2 p) p order <| pc := Waking |>.

Definition arm (now : Instant) (order : list (Z * RelayRef)) (p : Pump) : Pump :=
  let p := p <| relay_recvs ::= fun l => l ++ new_relays (st p) |>
             <| st ::= fun s => s <| new_relays := [] |> |> in
  let p := p <| channel_recvs ::= fun l => l ++ new_channels (st p) |>
             <| st ::= fun s => s <| new_channels := [] |> |> in
  let upgrades := pending_upgrades (st p) in
  let p := p <| st ::= fun s => emit ((fun u => SpawnUpgrade u.1 u.2) <$> upgrades)
                                  (s <| pending_upgrades := [] |>) |> in
  if should_stop now (st p) then teardown_begin order p else p <| pc := Select |>.

(** ** The arms of the select *)

Definition on_relay_event (now : Instant) (rnd : option (array 2)) (key : Z) (c : RelayRef)
    (result : Result Datagram string) (p : Pump) : Run Pump :=
  let current := is_pool_current key c (st p) in
  match result with
  | Ok d =>
      let p := if current then p <| relay_recvs ::= fun l => l ++ [(key, c)] |> else p in
      if decide (head (payload d) = Some SIGNAL_PREFIX) then
        Done (p <| st ::= handle_signal key (source d) (tail (payload d)) |>)
      else
        let! s := handle_relay_datagram now key (source d) (payload d) (st p) in
        Done (p <| st := s |>)
  | Err _ =>
      if negb current then Done p
      else if key =? HOME_RELAY then Done (fail_home now rnd c p)
      else Done (fail_foreign key p)
  end.

Definition on_udp_event (now : Instant) (result : Result (bytes * SocketAddr) ErrorCode) (p : Pump)
    : Run Pump :=
  match result with
  | Ok (payload, remote) =>
      let p := p <| udp_recv := true |> in
      let! s := handle_udp_datagram now remote payload (st p) in
      Done (p <| st := s |>)
  | Err _ => Done (p <| udp_recv := false |>)
  end.

Definition on_channel_event (now : Instant) (id : Z) (result : Result (option bytes) string)
    (p : Pump) : Run Pump :=
  match result with
  | Ok payload =>
      let p := match channels (st p) !! id with
               | Some e => p <| channel_recvs ::= fun l => l ++ [(id, ch_wire e)] |>
               | None => p
               end in
      match payload with
      | Some datagram =>
          let! s := handle_channel_datagram now id datagram (st p) in
          Done (p <| st := s |>)
      | None => Done p
      end
  | Err _ => Done (p <| st ::= retire_channel id |>)
  end.

(** The redialed connection is allocated at [c]. *)
Definition on_redial (now : Instant) (rnd : option (array 2)) (c : RelayRef)
    (opened : Result RelayConn string) (p : Pump) : Pump :=
  let p := p <| redial := None |> in
  match opened with
  | Ok rc =>
      let p := p <| wires ::= <[c := rc]> |> in
      if closed (st p) then close_relay c p
      else
        p <| st ::= fun s => wake_waiters (s <| relay_pool ::= <[HOME_RELAY := c]> |>) |>
          <| relay_recvs ::= fun l => l ++ [(HOME_RELAY, c)] |>
          <| home_since := Some now |> <| redial_attempt := 0 |>
  | Err _ => if closed (st p) then p else arm_redial now rnd p
  end.

(** One relay of the liveness sweep. *)
Definition sweep (now : Instant) (rnd : option (array 2)) (p : Pump) (kc : Z * RelayRef) : Pump :=
  let '(key, c) := kc in
  match wires p !! c with
  | None => p
  | Some rc =>
      let '(verdict, rc) := probe_step now RELAY_PING_INTERVAL RELAY_PING_TIMEOUT rc in
      let p := p <| wires ::= <[c := rc]> |> in
      match verdict with
      | Ping data => p <| st ::= emit [SpawnPing c data] |>
      | Dead => if key =? HOME_RELAY then fail_home now rnd c p else fail_foreign key p
      | Healthy => p
      end
  end.

Definition on_tick (now : Instant) (rnd : option (array 2)) (order : list (Z * RelayRef)) (p : Pump)
    : Pump :=
  let p := p <| tick := true |> <| st ::= handle_timeouts now |> <| force_wake := true |> in
  foldl (sweep now rnd) p order.

(** The teardown's second stretch: after the self-wake. *)
Definition close_channels (order : list (Z * ChannelEntry)) (p : Pump) : Pump :=
  p <| st ::= emit ((fun ie => CloseChannel (ch_wire ie.2)) <$> order) |> <| pc := DrainRelays |>.

(** ** The task as a transition system

    A completed future leaves the set it was in ([l ≡ₚ x :: l']) or parks its
    slot before its arm runs. *)
Inductive pump_step : Pump -> Pump -> Prop :=
| step_top p p' fuel now order :
    pc p = Top -> order ≡ₚ (map_to_list (conns (st p))).*1 ->
    turn_top fuel now order p = Done p' -> pump_step p p'
| step_flush_relay p : pc p = FlushRelay -> pump_step p (flush_relay p)
| step_relay_sent p key c now rnd res :
    pc p = SendingRelay key c -> pump_step p (relay_sent now rnd key c res p)
| step_flush_udp p : pc p = FlushUdp -> pump_step p (flush_udp p)
| step_udp_sent p : pc p = SendingUdp -> pump_step p (p <| pc := FlushUdp |>)
| step_flush_channel p : pc p = FlushChannel -> pump_step p (flush_channel p)
| step_channel_sent p : pc p = SendingChannel -> pump_step p (p <| pc := FlushChannel |>)
| step_arm p now order :
    pc p = Arm -> order ≡ₚ map_to_list (relay_pool (st p)) -> pump_step p (arm now order p)
| step_relay_event p p' key c rest now rnd result :
    pc p = Select -> relay_recvs p ≡ₚ (key, c) :: rest ->
    on_relay_event now rnd key c result (p <| relay_recvs := rest |> <| pc := Top |>) = Done p' ->
    pump_step p p'
| step_udp_event p p' u now result :
    pc p = Select -> udp p = Some u -> udp_recv p = true ->
    on_udp_event now result (p <| udp_recv := false |> <| pc := Top |>) = Done p' -> pump_step p p'
| step_channel_event p p' id w rest now result :
    pc p = Select -> channel_recvs p ≡ₚ (id, w) :: rest ->
    on_channel_event now id result (p <| channel_recvs := rest |> <| pc := Top |>) = Done p' ->
    pump_step p p'
| step_redial p delay now rnd c opened :
    pc p = Select -> redial p = Some delay -> wires p !! c = None ->
    pump_step p (on_redial now rnd c opened (p <| pc := Top |>))
| step_kicked p w s :
    pc p = Select -> kicked_poll w (st p) = (Ready tt, s) ->
    pump_step p (p <| st := s |> <| pc := Top |>)
| step_parked p w s :
    pc p = Select -> kicked_poll w (st p) = (Pending, s) -> pump_step p (p <| st := s |>)
| step_tick p now rnd order :
    pc p = Select -> tick p = true -> order ≡ₚ map_to_list (relay_pool (st p)) ->
    pump_step p (on_tick now rnd order (p <| pc := Top |>))
| step_wake p order :
    pc p = Waking -> order ≡ₚ map_to_list (channels (st p)) -> pump_step p (close_channels order p)
| step_drain_relay p kc rest :
    pc p = DrainRelays -> relay_recvs p ≡ₚ kc :: rest -> pump_step p (p <| relay_recvs := rest |>)
| step_relays_drained p :
    pc p = DrainRelays -> relay_recvs p = [] -> pump_step p (p <| pc := DrainUdp |>)
| step_drain_udp p :
    pc p = DrainUdp -> pump_step p (p <| udp_recv := match udp p with Some _ => false | None => udp_recv p end |>
                                      <| pc := DrainChannels |>)
| step_drain_channel p iw rest :
    pc p = DrainChannels -> channel_recvs p ≡ₚ iw :: rest -> pump_step p (p <| channel_recvs := rest |>)
| step_channels_drained p :
    pc p = DrainChannels -> channel_recvs p = [] -> pump_step p (p <| pc := DrainTick |>)
| step_drain_tick p :
    pc p = DrainTick -> pump_step p (p <| tick := false |> <| pc := End |>).

End Pump.

Arguments Pump {N}.
