(* ===== verification/PumpInv.v ===== *)
(** The pump's invariant and its preservation by every step of the task and of
    the tasks it is interleaved with: the home relay is watched over, every
    live wire has exactly one receive in flight, and the task ends with nothing
    in flight. *)
From S2P Require Import Prelude RelayFrames RelayConn Types Udp Noq State StateInv Drain.
From S2P Require Import DrainInv Rely Redial Pump.

(** ** The parts of the invariant *)

(** The home relay is in the pool, registered at a known time, with no redial
    in flight, or it is not, with no registration time and, on an open
    endpoint, a redial in flight. *)
Definition home_inv (pool : gmap Z RelayRef) (closed : bool) (redial : option Duration)
    (since : option Instant) : Prop :=
  match pool !! HOME_RELAY with
  | Some _ => redial = None /\ is_Some since
  | None => since = None /\ (closed = false -> is_Some redial)
  end.

(** No connection has two receives in flight; every pooled connection has one
    (while the task runs); a receive on a connection the pool does not hold is
    on one that was closed, so it resolves. *)
Record relays_inv (running : bool) (pool : gmap Z RelayRef) (pending : list (Z * RelayRef))
    (wires : gmap RelayRef RelayConn) : Prop := {
  ri_nodup : NoDup pending.*2;
  ri_known k c : (k, c) ∈ pending -> is_Some (wires !! c);
  ri_pooled k c : running = true -> pool !! k = Some c -> (k, c) ∈ pending;
  ri_stale k c : (k, c) ∈ pending -> pool !! k <> Some c ->
    exists rc, wires !! c = Some rc /\ ws_closed rc = true;
}.

(** The receives in flight on channels are those of the live channels, one each. *)
Record channels_inv (running : bool) (chans : gmap Z ChannelEntry) (pending : list (Z * ChannelRef))
    : Prop := {
  chi_nodup : NoDup pending.*1;
  chi_live id w : (id, w) ∈ pending -> exists e, chans !! id = Some e /\ ch_wire e = w;
  chi_pending id e : running = true -> chans !! id = Some e -> (id, ch_wire e) ∈ pending;
}.

Definition wires_mono (w w' : gmap RelayRef RelayConn) : Prop :=
  forall c rc, w !! c = Some rc ->
    exists rc', w' !! c = Some rc' /\ (ws_closed rc = true -> ws_closed rc' = true).

Section RelaysInv.
Implicit Types (pool : gmap Z RelayRef) (pending : list (Z * RelayRef)).
Implicit Types (wires : gmap RelayRef RelayConn).

Lemma wires_mono_alter c wires : wires_mono wires (alter close c wires).
Proof.
  intros c' rc Hc. rewrite lookup_alter. case_decide; subst; rewrite Hc; simpl; eauto.
Qed.

Lemma wires_mono_insert c rc wires :
  (forall rc0, wires !! c = Some rc0 -> ws_closed rc0 = true -> ws_closed rc = true) ->
  wires_mono wires (<[c := rc]> wires).
Proof.
  intros H c' rc' Hc. rewrite lookup_insert. case_decide; subst; eauto.
Qed.

Lemma relays_inv_wires run pool pending wires wires' :
  relays_inv run pool pending wires -> wires_mono wires wires' -> relays_inv run pool pending wires'.
Proof.
  intros [Hn Hk Hp Hs] Hm. constructor; [done| |done|].
  - intros k c [rc Hc]%Hk. apply Hm in Hc as (rc' & ? & _). eauto.
  - intros k c Hin Hne. destruct (Hs k c Hin Hne) as (rc & Hc & Hcl).
    apply Hm in Hc as (rc' & ? & ?). eauto.
Qed.

Lemma relays_inv_perm run pool pending pending' wires :
  relays_inv run pool pending wires -> pending ≡ₚ pending' -> relays_inv run pool pending' wires.
Proof.
  intros [Hn Hk Hp Hs] Heq. constructor.
  - by rewrite <- Heq.
  - intros k c. rewrite <- Heq. apply Hk.
  - intros k c. rewrite <- Heq. apply Hp.
  - intros k c. rewrite <- Heq. apply Hs.
Qed.

#[export] Instance relays_inv_proper run pool :
  Proper ((≡ₚ) ==> eq ==> iff) (relays_inv run pool).
Proof.
  intros l l' Hl w ? <-. split; intros Hi; (eapply relays_inv_perm; [done|]); [done|by symmetry].
Qed.

(** The pool lets go of a connection once it is closed. *)
Lemma relays_inv_delete run pool pending wires k c rc :
  relays_inv run pool pending wires -> pool !! k = Some c ->
  wires !! c = Some rc -> ws_closed rc = true -> relays_inv run (delete k pool) pending wires.
Proof.
  intros [Hn Hk Hp Hs] Hpk Hc Hcl. constructor; [done|done| |].
  - intros k' c' Hr. rewrite lookup_delete. case_decide; [done|]. by apply Hp.
  - intros k' c' Hin. rewrite lookup_delete. case_decide as Hkk; [|by apply Hs]. intros _. subst k'.
    destruct (decide (c' = c)) as [->|Hne]; [eauto|]. eapply Hs; [done|]. congruence.
Qed.

(** A resolved receive the pool no longer needs. *)
Lemma relays_inv_pop run pool pending wires k c :
  relays_inv run pool ((k, c) :: pending) wires -> (run = true -> pool !! k <> Some c) ->
  relays_inv run pool pending wires.
Proof.
  intros [Hn Hk Hp Hs] Hne. rewrite fmap_cons, NoDup_cons in Hn. destruct Hn as [_ Hn].
  constructor; [done| | |].
  - intros k' c' Hin. eapply Hk. by right.
  - intros k' c' Hr Hpk. pose proof (Hp k' c' Hr Hpk) as [Heq|]%elem_of_cons; [|done].
    simplify_eq. by destruct (Hne eq_refl).
  - intros k' c' Hin. eapply Hs. by right.
Qed.

(** A new connection, under a key the pool does not use. *)
Lemma relays_inv_add run pool pending wires k c rc :
  relays_inv run pool pending wires -> wires !! c = None -> pool !! k = None ->
  relays_inv run (<[k := c]> pool) (pending ++ [(k, c)]) (<[c := rc]> wires).
Proof.
  intros [Hn Hk Hp Hs] Hc Hpk.
  assert (forall k', (k', c) ∉ pending) as Hfresh.
  { intros k' [rc' Hin]%Hk. congruence. }
  constructor.
  - rewrite fmap_app. apply NoDup_app. split_and!; [done| |by apply NoDup_singleton].
    intros c' (x & -> & Hx)%list_elem_of_fmap Hin. simpl in Hin. apply list_elem_of_singleton in Hin.
    destruct x. simpl in *. subst. by eapply Hfresh.
  - intros k' c' Hin. rewrite lookup_insert. case_decide; [eauto|].
    apply elem_of_app in Hin as [Hin|Hin%list_elem_of_singleton]; [by eapply Hk|congruence].
  - intros k' c' Hr. rewrite lookup_insert. case_decide.
    + intros [= <-]. subst. apply elem_of_app. right. by apply list_elem_of_singleton.
    + intros Hin%Hp; [|done]. apply elem_of_app. by left.
  - intros k' c' Hin Hne. apply elem_of_app in Hin as [Hin|Hin%list_elem_of_singleton].
    + rewrite lookup_insert in Hne. destruct (Hs k' c' Hin) as (rc' & Hrc & ?).
      { case_decide; [subst; congruence|done]. }
      exists rc'. rewrite lookup_insert_ne; [done|]. intros ->. congruence.
    + simplify_eq. by rewrite lookup_insert_eq in Hne.
Qed.

(** A connection nobody receives on. *)
Lemma relays_inv_stop pool pending wires run :
  relays_inv run pool pending wires -> relays_inv false pool pending wires.
Proof. by intros []. Qed.
End RelaysInv.

Section ChannelsInv.
Implicit Types (chans : gmap Z ChannelEntry) (pending : list (Z * ChannelRef)).

Lemma channels_inv_perm run chans pending pending' :
  channels_inv run chans pending -> pending ≡ₚ pending' -> channels_inv run chans pending'.
Proof.
  intros [Hn Hl Hp] Heq. constructor; [by rewrite <- Heq|intros ? ?; rewrite <- Heq; apply Hl|].
  intros ? ?. rewrite <- Heq. apply Hp.
Qed.

#[export] Instance channels_inv_proper run chans :
  Proper ((≡ₚ) ==> iff) (channels_inv run chans).
Proof.
  intros l l' Hl. split; intros Hi; (eapply channels_inv_perm; [done|]); [done|by symmetry].
Qed.

Lemma channels_inv_add run chans pending id e :
  channels_inv run chans pending -> chans !! id = None ->
  channels_inv run (<[id := e]> chans) (pending ++ [(id, ch_wire e)]).
Proof.
  intros [Hn Hl Hp] Hid.
  assert (forall w, (id, w) ∉ pending) as Hfresh by (intros w (e' & He' & _)%Hl; congruence).
  constructor.
  - rewrite fmap_app. apply NoDup_app. split_and!; [done| |by apply NoDup_singleton].
    intros i ([i' w] & -> & Hx)%list_elem_of_fmap Hin%list_elem_of_singleton. simpl in *. subst.
    by eapply Hfresh.
  - intros i w [Hin|Hin%list_elem_of_singleton]%elem_of_app.
    + destruct (Hl i w Hin) as (e' & He' & ?). exists e'. rewrite lookup_insert_ne; [done|congruence].
    + simplify_eq. rewrite lookup_insert_eq. eauto.
  - intros i e' Hr. rewrite lookup_insert. case_decide.
    + intros [= <-]. subst. apply elem_of_app. right. by apply list_elem_of_singleton.
    + intros ?%Hp; [|done]. apply elem_of_app. by left.
Qed.

(** A channel dies with the receive that reported it. *)
Lemma channels_inv_retire run chans pending id w :
  channels_inv run chans ((id, w) :: pending) -> channels_inv run (delete id chans) pending.
Proof.
  intros [Hn Hl Hp]. rewrite fmap_cons, NoDup_cons in Hn. destruct Hn as [Hid Hn].
  assert (forall i w', (i, w') ∈ pending -> i <> id) as Hne.
  { intros i w' Hin ->. apply Hid. apply list_elem_of_fmap. by exists (id, w'). }
  constructor; [done| |].
  - intros i w' Hin. rewrite lookup_delete_ne by (symmetry; by eapply Hne). apply Hl. by right.
  - intros i e Hr. rewrite lookup_delete. case_decide; [done|]. intros Hi.
    pose proof (Hp i e Hr Hi) as [|]%elem_of_cons; [congruence|done].
Qed.

(** Once torn down, receives only resolve. *)
Lemma channels_inv_pop chans pending id w :
  channels_inv false chans ((id, w) :: pending) -> channels_inv false chans pending.
Proof.
  intros [Hn Hl Hp]. rewrite fmap_cons, NoDup_cons in Hn. destruct Hn as [_ Hn].
  constructor; [done| |done]. intros i w' Hin. apply Hl. by right.
Qed.

Lemma channels_inv_stop run chans pending :
  channels_inv run chans pending -> channels_inv false chans pending.
Proof. by intros []. Qed.
End ChannelsInv.

(** ** The invariant *)
Section PumpInv.
Context {N : Noq} {L : NoqLaws}.

Definition pending_relays (p : Pump) : list (Z * RelayRef) := relay_recvs p ++ new_relays (st p).
Definition pending_channels (p : Pump) : list (Z * ChannelRef) :=
  channel_recvs p ++ new_channels (st p).

(** The position in the teardown, zero while the task runs. *)
Definition stage (c : Pc) : nat :=
  match c with
  | Waking => 1
  | DrainRelays => 2
  | DrainUdp => 3
  | DrainChannels => 4
  | DrainTick => 5
  | End => 6
  | _ => 0
  end.
Definition running (c : Pc) : bool := (stage c =? 0)%nat.

(** What each teardown stage has resolved. *)
Record stages (c : Pc) (relays : list (Z * RelayRef)) (chans : list (Z * ChannelRef))
    (u : option UdpWire) (udp_pending tick_pending : bool) : Prop := {
  sg_relays : (3 <= stage c)%nat -> relays = [];
  sg_udp : (4 <= stage c)%nat -> is_Some u -> udp_pending = false;
  sg_chans : (5 <= stage c)%nat -> chans = [];
  sg_tick : (6 <= stage c)%nat -> tick_pending = false;
  sg_ticking : stage c = 0%nat -> tick_pending = true;
}.

Lemma stages_run c relays chans u ud tk :
  running c = true -> tk = true -> stages c relays chans u ud tk.
Proof. unfold running. intros Hc%Nat.eqb_eq Ht. constructor; [lia..|done]. Qed.

Lemma stages_tick c relays chans u ud tk :
  stages c relays chans u ud tk -> running c = true -> tk = true.
Proof. unfold running. intros Hs Hc%Nat.eqb_eq. by apply Hs. Qed.

Record pump_inv (p : Pump) : Prop := {
  pi_wf : wf (st p);
  pi_next : 1 <= next_relay_key (st p);
  pi_home : home_inv (relay_pool (st p)) (closed (st p)) (redial p) (home_since p);
  pi_relays : relays_inv (running (pc p)) (relay_pool (st p)) (pending_relays p) (wires p);
  pi_channels : channels_inv (running (pc p)) (channels (st p)) (pending_channels p);
  pi_attempt : 0 <= redial_attempt p <= u32_max;
  pi_closed : running (pc p) = false -> closed (st p) = true;
  pi_stages : stages (pc p) (relay_recvs p) (channel_recvs p) (udp p) (udp_recv p) (tick p);
}.

Lemma home_inv_closed pool c c' redial since :
  home_inv pool c redial since -> (c = true -> c' = true) -> home_inv pool c' redial since.
Proof.
  unfold home_inv. case_match; [done|]. intros [? Hr] Hc. split; [done|]. intros ->.
  apply Hr. destruct c; [by rewrite Hc|done].
Qed.

(** A state change the rely allows keeps the whole invariant. *)
Lemma pump_inv_rely p s : pump_inv p -> rely (st p) s -> pump_inv (p <| st := s |>).
Proof.
  intros [? ? Hh Hr Hc ? Hcl ?] [Hwf Hp Hnr Hnk Hch Hnc Hclosed]. constructor; simpl.
  - auto.
  - lia.
  - rewrite Hp. by eapply home_inv_closed.
  - unfold pending_relays in *. simpl. by rewrite Hp, Hnr.
  - unfold pending_channels in *. simpl. by rewrite Hch, Hnc.
  - done.
  - auto.
  - done.
Qed.

(** Fields the invariant does not read. *)
Lemma pump_inv_misc p f s :
  pump_inv p -> pump_inv (p <| force_wake := f |> <| sent := s |>).
Proof. by intros []. Qed.

(** Moving within the loop. *)
Lemma pump_inv_pc p c :
  pump_inv p -> running (pc p) = true -> running c = true -> pump_inv (p <| pc := c |>).
Proof.
  intros [? ? ? Hr Hc ? ? ?] Hrun Hrun'. rewrite Hrun in *. constructor; simpl; rewrite ?Hrun'; try done.
  apply stages_run; [done|]. by eapply stages_tick.
Qed.

(** Moving within the teardown. *)
Lemma pump_inv_stage p c b t :
  pump_inv p -> running (pc p) = false -> running c = false ->
  stages c (relay_recvs p) (channel_recvs p) (udp p) b t ->
  pump_inv (p <| udp_recv := b |> <| tick := t |> <| pc := c |>).
Proof.
  intros [? ? ? Hr Hc ? Hcl ?] Hrun Hrun' Hs. rewrite Hrun in *.
  by constructor; simpl; rewrite ?Hrun'.
Qed.

(** *** Failing relays *)

Lemma relay_inv_home pool keys next :
  relay_inv pool keys next -> relay_inv (delete HOME_RELAY pool) keys next.
Proof.
  intros [Hn Hp Hk]. constructor; [done| |].
  - intros k c. rewrite lookup_delete. case_decide; [done|]. apply Hp.
  - intros u k Hu. destruct (Hk u k Hu) as [Hr Hin]. split; [done|].
    destruct (decide (k = HOME_RELAY)); [by left|right]. rewrite lookup_delete_ne by congruence.
    by destruct Hin.
Qed.

Lemma relay_inv_reoccupy pool keys next c :
  relay_inv pool keys next -> 1 <= next -> relay_inv (<[HOME_RELAY := c]> pool) keys next.
Proof.
  intros [Hn Hp Hk] H1. constructor; [done| |].
  - intros k c'. rewrite lookup_insert. case_decide; [unfold HOME_RELAY in *; lia|apply Hp].
  - intros u k Hu. destruct (Hk u k Hu) as [Hr Hin]. split; [done|]. destruct Hin; [by left|right].
    rewrite lookup_insert. case_decide; eauto.
Qed.

(** The relays part when the pool lets go of [c], which it holds under [k]. *)
Lemma relays_inv_close run pool pending wires k c :
  relays_inv run pool pending wires -> run = true -> pool !! k = Some c ->
  relays_inv run (delete k pool) pending (alter close c wires).
Proof.
  intros Hi Hr Hk. destruct (ri_known _ _ _ _ Hi k c) as [rc Hc]; [by eapply ri_pooled|].
  eapply relays_inv_delete; [|done| |].
  - eapply relays_inv_wires; [done|apply wires_mono_alter].
  - by rewrite lookup_alter_eq, Hc.
  - done.
Qed.

Lemma fail_home_inv now rnd c p :
  pump_inv p -> running (pc p) = true -> pump_inv (fail_home now rnd c p).
Proof.
  intros Hi Hrun. unfold fail_home, retire_home, is_pool_current. case_bool_decide as Hc; [|done].
  simpl. unfold arm_redial. simpl. pose proof Hi as [? ? Hh Hr Hch Ha Hcl Hs].
  pose proof (next_attempt_range now rnd (redial_attempt p) (home_since p) Ha) as [Ha' Hsince].
  destruct (next_redial_delay now rnd (redial_attempt p) (home_since p)) as [[delay attempt] since].
  simpl in *. subst since. constructor; simpl; try done.
  - wf_parts pi_wf0. by apply relay_inv_home.
  - unfold home_inv. rewrite lookup_delete_eq. split; [done|]. eauto.
  - by apply relays_inv_close.
Qed.

Lemma fail_home_gone now rnd c p : relay_pool (st (fail_home now rnd c p)) !! HOME_RELAY <> Some c.
Proof.
  unfold fail_home, retire_home, is_pool_current. case_bool_decide as Hc; [|done].
  simpl. unfold arm_redial. destruct (next_redial_delay _ _ _ _) as [[delay attempt] since].
  simpl. by rewrite lookup_delete_eq.
Qed.

(** Failing the home relay does not touch the receives in flight. *)
Lemma fail_home_recvs now rnd c p l :
  fail_home now rnd c (p <| relay_recvs := l |>) = fail_home now rnd c p <| relay_recvs := l |>.
Proof.
  unfold fail_home, retire_home. simpl. destruct (negb _); [done|]. unfold arm_redial. simpl.
  by destruct (next_redial_delay _ _ _ _) as [[delay attempt] since].
Qed.

Lemma fail_home_frame now rnd c p :
  pc (fail_home now rnd c p) = pc p /\ relay_recvs (fail_home now rnd c p) = relay_recvs p /\
  new_relays (st (fail_home now rnd c p)) = new_relays (st p).
Proof.
  unfold fail_home, retire_home. destruct (negb _); [done|]. unfold arm_redial. simpl.
  by destruct (next_redial_delay _ _ _ _) as [[delay attempt] since].
Qed.

Lemma fail_foreign_inv key p :
  pump_inv p -> running (pc p) = true -> key <> HOME_RELAY -> pump_inv (fail_foreign key p).
Proof.
  intros Hi Hrun Hne. unfold fail_foreign, retire_relay.
  pose proof Hi as [Hwf ? Hh Hr Hch Ha Hcl Hs].
  pose proof (retire_relay_wf key (st p) Hwf Hne) as Hwf'. unfold retire_relay in Hwf'. simpl in Hwf'.
  destruct (relay_pool (st p) !! key) as [c|] eqn:Hk; constructor; simpl; try done.
  - by apply emit_wf.
  - unfold home_inv. by rewrite lookup_delete_ne.
  - by apply relays_inv_close.
  - unfold home_inv. by rewrite lookup_delete_ne.
  - by rewrite delete_id.
Qed.

Lemma fail_foreign_frame key p :
  pc (fail_foreign key p) = pc p /\ relay_recvs (fail_foreign key p) = relay_recvs p /\
  new_relays (st (fail_foreign key p)) = new_relays (st p) /\
  relay_pool (st (fail_foreign key p)) !! key = None.
Proof.
  unfold fail_foreign, retire_relay. destruct (relay_pool (st p) !! key); simpl;
    by rewrite lookup_delete_eq.
Qed.

Lemma fail_foreign_recvs key p l :
  fail_foreign key (p <| relay_recvs := l |>) = fail_foreign key p <| relay_recvs := l |>.
Proof. unfold fail_foreign, retire_relay. simpl. by destruct (relay_pool (st p) !! key). Qed.

(** A resolved receive leaves the set, once the pool is done with it. *)
Lemma pump_inv_pop p k c rest :
  pump_inv p -> relay_recvs p ≡ₚ (k, c) :: rest ->
  (running (pc p) = true -> relay_pool (st p) !! k <> Some c) ->
  ((3 <= stage (pc p))%nat -> rest = []) -> pump_inv (p <| relay_recvs := rest |>).
Proof.
  intros [? ? ? Hr ? ? ? Hs] Hl Hne Hst. constructor; simpl; try done.
  - unfold pending_relays in *. simpl. rewrite Hl in Hr. eapply relays_inv_pop; [|done].
    exact Hr.
  - by destruct Hs; constructor.
Qed.

Lemma pump_inv_perm p l :
  pump_inv p -> relay_recvs p ≡ₚ l -> (stage (pc p) < 3)%nat -> pump_inv (p <| relay_recvs := l |>).
Proof.
  intros [? ? ? Hr ? ? ? Hs] Hl Hst. constructor; simpl; try done.
  - unfold pending_relays in *. simpl. eapply relays_inv_perm; [done|]. by rewrite Hl.
  - destruct Hs. constructor; simpl; [lia|done..].
Qed.

(** *** The select's arms *)

Lemma probe_step_closed now a b rc : ws_closed (probe_step now a b rc).2 = ws_closed rc.
Proof. unfold probe_step. by repeat case_match. Qed.

Lemma pump_inv_wires p c rc :
  pump_inv p -> (forall rc0, wires p !! c = Some rc0 -> ws_closed rc0 = true -> ws_closed rc = true) ->
  pump_inv (p <| wires ::= <[c := rc]> |>).
Proof.
  intros [? ? ? Hr ? ? ? ?] Hc. constructor; simpl; try done.
  eapply relays_inv_wires; [done|]. by apply wires_mono_insert.
Qed.

Lemma sweep_inv now rnd p kc :
  pump_inv p -> running (pc p) = true ->
  pump_inv (sweep now rnd p kc) /\ running (pc (sweep now rnd p kc)) = true.
Proof.
  intros Hi Hrun. destruct kc as [k c]. unfold sweep. destruct (wires p !! c) as [rc|] eqn:Hc; [|done].
  pose proof (probe_step_closed now RELAY_PING_INTERVAL RELAY_PING_TIMEOUT rc) as Hcl.
  destruct (probe_step _ _ _ rc) as [v rc']. simpl in Hcl.
  assert (pump_inv (p <| wires ::= <[c := rc']> |>)) as Hi'.
  { apply pump_inv_wires; [done|]. intros rc0. congruence. }
  destruct v as [|data|]; [done| |].
  - split; [|done]. apply (pump_inv_rely _ (emit _ _) Hi'), emit_rely.
  - destruct (Z.eqb_spec k HOME_RELAY).
    + split; [by apply fail_home_inv|]. by rewrite (proj1 (fail_home_frame _ _ _ _)).
    + split; [by apply fail_foreign_inv|]. by rewrite (proj1 (fail_foreign_frame _ _)).
Qed.

Lemma sweep_all_inv now rnd order p :
  pump_inv p -> running (pc p) = true ->
  pump_inv (foldl (sweep now rnd) p order) /\ running (pc (foldl (sweep now rnd) p order)) = true.
Proof.
  revert p. induction order as [|kc order IH]; intros p Hi Hrun; [done|]. simpl.
  destruct (sweep_inv now rnd p kc Hi Hrun). by apply IH.
Qed.

Lemma on_tick_inv now rnd order p :
  pump_inv p -> running (pc p) = true -> pump_inv (on_tick now rnd order p).
Proof.
  intros Hi Hrun. unfold on_tick. apply sweep_all_inv; [|done].
  pose proof (pump_inv_rely p _ Hi (handle_timeouts_rely now (st p))) as [].
  constructor; simpl in *; try done. by apply stages_run.
Qed.

(** The receive of [(key, c)] has resolved and left the set. *)
Lemma on_relay_event_inv now rnd key c result p p' rest :
  pump_inv p -> running (pc p) = true -> room (st p) -> relay_recvs p ≡ₚ (key, c) :: rest ->
  on_relay_event now rnd key c result (p <| relay_recvs := rest |>) = Done p' ->
  pump_inv p'.
Proof.
  intros Hi Hrun Hroom Hl. unfold on_relay_event, is_pool_current. cbn [st].
  assert (stage (pc p) = 0%nat) as Hst by by apply Nat.eqb_eq.
  destruct result as [d|e].
  - set (p1 := if bool_decide _ then _ else _).
    assert (pump_inv p1 /\ st p1 = st p) as [Hi1 Hst1].
    { subst p1. simpl. destruct (bool_decide_reflect (relay_pool (st p) !! key = Some c)) as [Hcur|Hcur];
        (split; [|reflexivity]).
      - apply (pump_inv_perm p (rest ++ [(key, c)])); [done| |lia].
        rewrite Hl. by rewrite Permutation_cons_append.
      - eapply pump_inv_pop; [done..|]. lia. }
    clearbody p1. case_decide.
    + intros [= <-]. apply (pump_inv_rely p1); [done|]. apply handle_signal_rely.
    + intros Hd. destruct (handle_relay_datagram now key (source d) (payload d) (st p1)) as [s| |] eqn:E;
        simplify_eq/=. apply (pump_inv_rely p1); [done|]. eapply handle_relay_datagram_rely; [|exact E].
      by rewrite Hst1.
  - simpl. case_bool_decide as Hcur; simpl.
    + destruct (Z.eqb_spec key HOME_RELAY) as [->|Hne]; intros [= <-].
      * rewrite fail_home_recvs. destruct (fail_home_frame now rnd c p) as (Hpc & Hrr & _).
        eapply pump_inv_pop; [by apply fail_home_inv|by rewrite Hrr| |rewrite Hpc; lia].
        intros _. apply fail_home_gone.
      * rewrite fail_foreign_recvs. destruct (fail_foreign_frame key p) as (Hpc & Hrr & _ & Hgone).
        eapply pump_inv_pop; [by apply fail_foreign_inv|by rewrite Hrr| |rewrite Hpc; lia].
        intros _. by rewrite Hgone.
    + intros [= <-]. eapply pump_inv_pop; [done..|lia].
Qed.

Lemma set_udp_recv_inv b p :
  pump_inv p -> running (pc p) = true -> pump_inv (p <| udp_recv := b |>).
Proof.
  intros [] Hrun. constructor; simpl; try done. apply stages_run; [done|]. by eapply stages_tick.
Qed.

Lemma on_udp_event_inv now result p p' :
  pump_inv p -> running (pc p) = true -> room (st p) ->
  on_udp_event now result p = Done p' -> pump_inv p'.
Proof.
  intros Hi Hrun [_ _ _ Hroom]. unfold on_udp_event. destruct result as [[b r]|e].
  - destruct (handle_udp_datagram now r b _) as [s| |] eqn:E; intros [= <-].
    apply (pump_inv_rely (p <| udp_recv := true |>)); [by apply set_udp_recv_inv|].
    by eapply handle_datagram_rely.
  - intros [= <-]. by apply set_udp_recv_inv.
Qed.

Lemma retire_channel_frame id s :
  relay_pool (retire_channel id s) = relay_pool s /\ new_relays (retire_channel id s) = new_relays s /\
  next_relay_key (retire_channel id s) = next_relay_key s /\ closed (retire_channel id s) = closed s /\
  new_channels (retire_channel id s) = new_channels s /\
  channels (retire_channel id s) = delete id (channels s).
Proof.
  unfold retire_channel. destruct (channels s !! id) eqn:E; [|by rewrite delete_id].
  repeat case_match; done.
Qed.

Lemma on_channel_event_inv now id w result p p' rest :
  pump_inv p -> running (pc p) = true -> room (st p) -> channel_recvs p ≡ₚ (id, w) :: rest ->
  on_channel_event now id result (p <| channel_recvs := rest |>) = Done p' -> pump_inv p'.
Proof.
  intros Hi Hrun Hroom Hl. pose proof Hi as [? ? ? ? Hch ? ? Hs].
  assert (stage (pc p) = 0%nat) as Hst by by apply Nat.eqb_eq.
  unfold pending_channels in Hch. rewrite Hl in Hch.
  unfold on_channel_event. destruct result as [payload|e].
  - destruct (chi_live _ _ _ Hch id w) as (e & He & Hw); [by left|]. cbn [st]. simpl. rewrite He.
    assert (pump_inv (p <| channel_recvs := rest ++ [(id, ch_wire e)] |>)) as Hi1.
    { constructor; simpl; try done.
      - unfold pending_channels. simpl. rewrite Hw. eapply channels_inv_perm; [exact Hch|].
        rewrite <- app_assoc. simpl. by rewrite Permutation_middle.
      - apply stages_run; [done|]. by eapply stages_tick. }
    destruct payload as [b|]; [|by intros [= <-]].
    match goal with |- context [handle_channel_datagram now id b ?s] => change s with (st p) end.
    destruct (handle_channel_datagram now id b (st p)) as [s| |] eqn:E; intros [= <-].
    apply (pump_inv_rely _ s Hi1). by eapply handle_channel_datagram_rely.
  - intros [= <-]. destruct (retire_channel_frame id (st p)) as (Hp & Hnr & Hnk & Hcl & Hnc & Hc).
    constructor; simpl; rewrite ?Hp, ?Hnk, ?Hcl; try done.
    + by apply retire_channel_wf.
    + unfold pending_relays in *. simpl. by rewrite Hnr.
    + unfold pending_channels. simpl. rewrite Hnc, Hc. by eapply channels_inv_retire.
    + apply stages_run; [done|]. by eapply stages_tick.
Qed.

Lemma on_redial_inv now rnd c opened p delay :
  pump_inv p -> running (pc p) = true -> redial p = Some delay -> wires p !! c = None ->
  pump_inv (on_redial now rnd c opened p).
Proof.
  intros Hi Hrun Hre Hc. pose proof Hi as [Hwf Hnext Hh Hr Hch Ha Hcl Hs]. unfold on_redial.
  unfold home_inv in Hh. rewrite Hre in Hh.
  destruct (relay_pool (st p) !! HOME_RELAY) as [c0|] eqn:Hhome; [by destruct Hh|].
  destruct Hh as [Hsince _]. destruct opened as [rc|e]; simpl.
  - destruct (closed (st p)) eqn:Hclosed.
    + constructor; simpl; try done.
      * by apply emit_wf.
      * unfold home_inv. rewrite Hhome. split; [done|congruence].
      * eapply relays_inv_wires; [|apply wires_mono_alter].
        eapply relays_inv_wires; [done|]. apply wires_mono_insert. congruence.
    + constructor; simpl; try done.
      * apply wake_waiters_wf. wf_parts Hwf. by apply relay_inv_reoccupy.
      * unfold home_inv. rewrite lookup_insert_eq. eauto.
      * unfold pending_relays in *. simpl. eapply relays_inv_perm; [by apply relays_inv_add|].
        rewrite <- !app_assoc. apply Permutation_app_head. apply Permutation_app_comm.
      * rewrite Hclosed. intros Hx. congruence.
      * apply stages_run; [done|]. by eapply stages_tick.
  - destruct (closed (st p)) eqn:Hclosed.
    + constructor; simpl; try done. unfold home_inv. rewrite Hhome. split; [done|]. congruence.
    + unfold arm_redial. simpl.
      pose proof (next_attempt_range now rnd (redial_attempt p) (home_since p) Ha) as [Ha' Hsn].
      destruct (next_redial_delay now rnd (redial_attempt p) (home_since p)) as [[d a] since].
      simpl in *. subst since. constructor; simpl; try done.
      * unfold home_inv. rewrite Hhome. eauto.
      * by rewrite Hclosed.
Qed.

(** *** The turn *)

Lemma turn_top_inv fuel now order p p' :
  pump_inv p -> running (pc p) = true -> turn_top fuel now order p = Done p' -> pump_inv p'.
Proof.
  intros Hi Hrun. unfold turn_top.
  destruct (drain fuel now order (st p)) as [[any s]| |] eqn:E; intros [= <-].
  assert (pump_inv (p <| st := if any || force_wake p then wake_waiters s else s |>)) as Hi1.
  { apply (pump_inv_rely p); [done|]. apply drain_rely in E; [|apply Hi].
    etransitivity; [exact E|]. case_match; [apply wake_waiters_rely|done]. }
  exact (pump_inv_pc _ FlushRelay (pump_inv_misc _ false (sent p) Hi1) Hrun eq_refl).
Qed.

(** Taking the head of an outbound queue, then moving on. *)
Lemma pump_inv_queue p f g h c l :
  pump_inv p -> running (pc p) = true -> running c = true ->
  pump_inv (p <| st ::= fun s => s <| relay_outbound ::= f |> <| udp_outbound ::= g |>
                                  <| channel_outbound ::= h |> |>
              <| sent := l |> <| pc := c |>).
Proof.
  intros Hi Hrun Hc.
  exact (pump_inv_pc _ c (pump_inv_misc _ _ l (pump_inv_rely p _ Hi (set_outbound_rely f g h (st p))))
           Hrun Hc).
Qed.

Lemma flush_relay_inv p : pump_inv p -> running (pc p) = true -> pump_inv (flush_relay p).
Proof.
  intros Hi Hrun. unfold flush_relay.
  destruct (relay_outbound (st p)) as [|[[k peer] d] rest]; [by apply pump_inv_pc|].
  simpl. case_match.
  - by apply (pump_inv_queue p (fun _ => rest) id id).
  - by apply (pump_inv_queue p (fun _ => rest) id id (pc p) (sent p)).
Qed.

Lemma flush_udp_inv p : pump_inv p -> running (pc p) = true -> pump_inv (flush_udp p).
Proof.
  intros Hi Hrun. unfold flush_udp.
  destruct (udp_outbound (st p)) as [|[remote d] rest]; [by apply pump_inv_pc|]. case_match.
  - by apply (pump_inv_queue p id (fun _ => rest) id).
  - by apply (pump_inv_queue p id (fun _ => rest) id (pc p) (sent p)).
Qed.

Lemma flush_channel_inv p : pump_inv p -> running (pc p) = true -> pump_inv (flush_channel p).
Proof.
  intros Hi Hrun. unfold flush_channel.
  destruct (channel_outbound (st p)) as [|[id0 d] rest]; [by apply pump_inv_pc|]. simpl. case_match.
  - by apply (pump_inv_queue p id id (fun _ => rest)).
  - by apply (pump_inv_queue p id id (fun _ => rest) (pc p) (sent p)).
Qed.

Lemma relay_sent_inv now rnd key c res p :
  pump_inv p -> running (pc p) = true -> pump_inv (relay_sent now rnd key c res p).
Proof.
  intros Hi Hrun. unfold relay_sent. assert (pump_inv (p <| pc := FlushRelay |>)) by by apply pump_inv_pc.
  case_match; [by apply fail_home_inv|done].
Qed.

(** Handing the registered receives to the pump moves them within the pending
    ones. *)
Lemma take_new_inv p ups :
  pump_inv p -> running (pc p) = true ->
  pump_inv (p <| relay_recvs ::= fun l => l ++ new_relays (st p) |>
              <| channel_recvs ::= fun l => l ++ new_channels (st p) |>
              <| st ::= fun s => emit ups (s <| new_relays := [] |> <| new_channels := [] |>
                                             <| pending_upgrades := [] |>) |>).
Proof.
  intros [Hwf ? ? ? ? ? ? Hs] Hrun. constructor; simpl; try done.
  - wf_parts Hwf.
  - unfold pending_relays in *. simpl. by rewrite app_nil_r.
  - unfold pending_channels in *. simpl. by rewrite app_nil_r.
  - apply stages_run; [done|]. by eapply stages_tick.
Qed.

Lemma emit_nil s : emit [] s = s.
Proof. destruct s. unfold emit, field_upd. simpl. by rewrite app_nil_r. Qed.

Lemma emit_emit es es' s : emit es' (emit es s) = emit (es ++ es') s.
Proof. destruct s. unfold emit, field_upd. simpl. by rewrite app_assoc. Qed.

(** Closing the pool keeps everything but the wires. *)
Lemma close_relays_frame (order : list (Z * RelayRef)) p :
  let p' := foldl (fun p kc => close_relay kc.2 p) p order in
  exists es, p' = p <| wires := wires p' |> <| st ::= emit es |> /\ wires_mono (wires p) (wires p') /\
    (forall k c rc, (k, c) ∈ order -> wires p' !! c = Some rc -> ws_closed rc = true).
Proof.
  induction order as [|[k c] order IH] using rev_ind; simpl.
  - exists []. split_and!; [|by intros c rc; eauto|intros ? ? ? Hin; by inversion Hin].
    destruct p. unfold field_upd. simpl. by rewrite emit_nil.
  - rewrite foldl_app. simpl. destruct IH as (es & Heq & Hm & Hcl). exists (es ++ [CloseRelay c]).
    split_and!.
    + rewrite Heq at 1. set (w := wires (foldl _ p order)). destruct p.
      unfold close_relay, field_upd. simpl. by rewrite emit_emit.
    + intros c' rc Hc. apply Hm in Hc as (rc1 & Hc1 & H1). rewrite lookup_alter.
      case_decide; [subst; rewrite Hc1; simpl; eauto|eauto].
    + intros k' c' rc Hin. simpl. rewrite lookup_alter. case_decide.
      * by intros (rc0 & _ & ->)%fmap_Some.
      * intros Hc. apply elem_of_app in Hin as [|Hin%list_elem_of_singleton]; [by eapply Hcl|congruence].
Qed.

Lemma teardown_begin_inv order p :
  pump_inv p -> running (pc p) = true -> closed (st p) = true -> pump_inv (teardown_begin order p).
Proof.
  intros Hi Hrun Hclosed. unfold teardown_begin.
  pose proof (pump_inv_rely p _ Hi (wake_waiters_rely (st p))) as Hi1.
  change (p <| st := wake_waiters (st p) |>) with (p <| st ::= wake_waiters |>) in Hi1.
  set (p1 := p <| st ::= wake_waiters |>) in *.
  destruct (close_relays_frame order p1) as (es & Heq & Hm & _). rewrite Heq.
  apply (pump_inv_rely p1 (emit es (st p1))) in Hi1; [|apply emit_rely].
  destruct Hi1 as [? ? ? Hr Hc ? ? Hs]. constructor; simpl; try done.
  - eapply relays_inv_wires; [|exact Hm]. by eapply relays_inv_stop.
  - by eapply channels_inv_stop.
  - constructor; simpl; lia.
Qed.

Lemma arm_inv now order p : pump_inv p -> running (pc p) = true -> pump_inv (arm now order p).
Proof.
  intros Hi Hrun. unfold arm.
  pose proof (take_new_inv p ((fun u => SpawnUpgrade u.1 u.2) <$> pending_upgrades (st p)) Hi Hrun) as Hi1.
  match goal with |- context [should_stop now (st ?q)] => change q with
    (p <| relay_recvs ::= fun l => l ++ new_relays (st p) |>
       <| channel_recvs ::= fun l => l ++ new_channels (st p) |>
       <| st ::= fun s => emit ((fun u => SpawnUpgrade u.1 u.2) <$> pending_upgrades (st p))
                            (s <| new_relays := [] |> <| new_channels := [] |>
                               <| pending_upgrades := [] |>) |>) end.
  set (p1 := p <| relay_recvs ::= _ |> <| channel_recvs ::= _ |> <| st ::= _ |>) in *.
  destruct (should_stop now (st p1)) eqn:Hstop.
  - apply teardown_begin_inv; [done|done|]. unfold should_stop in Hstop.
    by apply andb_true_iff in Hstop as [? _].
  - by apply pump_inv_pc.
Qed.

(** *** The interleaved system *)

(** What the other tasks do between two stretches of the pump: register a
    freshly opened relay or channel, receive on a connection (which may close
    it), or change the state within the rely. *)
Inductive env_step : Pump -> Pump -> Prop :=
| env_relay p url c rc :
    wires p !! c = None ->
    env_step p (p <| wires ::= <[c := rc]> |> <| st := (register_relay url c (st p)).2 |>)
| env_channel p peer w : env_step p (p <| st := (register_channel peer w (st p)).2 |>)
| env_wire p c rc rc' :
    wires p !! c = Some rc -> (ws_closed rc = true -> ws_closed rc' = true) ->
    env_step p (p <| wires ::= <[c := rc']> |>)
| env_state p s : rely (st p) s -> env_step p (p <| st := s |>).

(** One step of the system, while the counters have room. *)
Definition sys_step (p p' : Pump) : Prop := room (st p) /\ (pump_step p p' \/ env_step p p').

Lemma pump_step_inv p p' : pump_inv p -> room (st p) -> pump_step p p' -> pump_inv p'.
Proof.
  intros Hi Hroom Hstep. destruct Hstep as
    [p p' fuel now order Hpc Ho Hrun|p Hpc|p key c now rnd res Hpc|p Hpc|p Hpc|p Hpc|p Hpc
    |p now order Hpc Ho|p p' key c rest now rnd result Hpc Hl Hrun
    |p p' u now result Hpc Hu Hr Hrun|p p' id w rest now result Hpc Hl Hrun
    |p delay now rnd c opened Hpc Hre Hc|p w s Hpc Hk|p w s Hpc Hk|p now rnd order Hpc Ht Ho
    |p order Hpc Ho|p [k c] rest Hpc Hl|p Hpc Hl|p Hpc|p [i w] rest Hpc Hl|p Hpc Hl|p Hpc];
    try (assert (running (pc p) = true) as Hrn by (by rewrite Hpc)).
  - by eapply turn_top_inv.
  - by apply flush_relay_inv.
  - by apply relay_sent_inv.
  - by apply flush_udp_inv.
  - by apply pump_inv_pc.
  - by apply flush_channel_inv.
  - by apply pump_inv_pc.
  - by apply arm_inv.
  - eapply (on_relay_event_inv now rnd key c result (p <| pc := Top |>)); [|done|done|exact Hl|exact Hrun].
    by apply pump_inv_pc.
  - eapply (on_udp_event_inv now result (p <| pc := Top |> <| udp_recv := false |>)); [|done|done|exact Hrun].
    apply set_udp_recv_inv; [by apply pump_inv_pc|done].
  - eapply (on_channel_event_inv now id w result (p <| pc := Top |>)); [|done|done|exact Hl|exact Hrun].
    by apply pump_inv_pc.
  - eapply on_redial_inv; [by apply pump_inv_pc|done|exact Hre|exact Hc].
  - apply (pump_inv_pc (p <| st := s |>)); [|done|done]. apply pump_inv_rely; [done|].
    pose proof (kicked_poll_rely w (st p)) as Hq. by rewrite Hk in Hq.
  - apply pump_inv_rely; [done|]. pose proof (kicked_poll_rely w (st p)) as Hq. by rewrite Hk in Hq.
  - apply on_tick_inv; [by apply pump_inv_pc|done].
  - set (es := (fun ie => CloseChannel (ch_wire ie.2)) <$> order).
    apply (pump_inv_stage _ DrainRelays (udp_recv p) (tick p) (pump_inv_rely p _ Hi (emit_rely es (st p))));
      simpl; rewrite ?Hpc; try done. constructor; simpl; lia.
  - eapply pump_inv_pop; [done|done|by rewrite Hpc|rewrite Hpc; simpl; lia].
  - apply (pump_inv_stage p DrainUdp (udp_recv p) (tick p)); rewrite ?Hpc; try done.
    constructor; simpl; [done|lia..].
  - pose proof (pi_stages _ Hi) as Hs. rewrite Hpc in Hs. destruct Hs.
    apply (pump_inv_stage p DrainChannels _ (tick p)); rewrite ?Hpc; try done.
    constructor; simpl in *; [auto with lia| |lia..]. intros _ [u Hu]. by rewrite Hu.
  - destruct Hi as [? ? ? Hr Hc ? Hcl Hs]. rewrite Hpc in *. constructor; simpl; rewrite ?Hpc; try done.
    + unfold pending_channels in *. simpl. rewrite Hl in Hc. by eapply channels_inv_pop.
    + destruct Hs. constructor; simpl in *; [done|done|lia..].
  - pose proof (pi_stages _ Hi) as Hs. rewrite Hpc in Hs. destruct Hs.
    apply (pump_inv_stage p DrainTick (udp_recv p) (tick p)); rewrite ?Hpc; try done.
    constructor; simpl in *; [auto with lia|auto with lia|done|lia..].
  - pose proof (pi_stages _ Hi) as Hs. rewrite Hpc in Hs. destruct Hs.
    apply (pump_inv_stage p End (udp_recv p) false); rewrite ?Hpc; try done.
    constructor; simpl in *; [auto with lia|auto with lia|auto with lia|done|lia].
Qed.

Lemma register_relay_frame url c s :
  relay_pool (register_relay url c s).2 = <[next_relay_key s := c]> (relay_pool s) /\
  new_relays (register_relay url c s).2 = new_relays s ++ [(next_relay_key s, c)] /\
  next_relay_key (register_relay url c s).2 = wrap32 (next_relay_key s + 1) /\
  channels (register_relay url c s).2 = channels s /\
  new_channels (register_relay url c s).2 = new_channels s /\
  closed (register_relay url c s).2 = closed s.
Proof. unfold register_relay, kick_pump. simpl. by case_match. Qed.

Lemma register_channel_frame peer w s :
  relay_pool (register_channel peer w s).2 = relay_pool s /\
  new_relays (register_channel peer w s).2 = new_relays s /\
  next_relay_key (register_channel peer w s).2 = next_relay_key s /\
  closed (register_channel peer w s).2 = closed s /\
  ((channels (register_channel peer w s).2 = channels s /\
    new_channels (register_channel peer w s).2 = new_channels s) \/
   exists e, closed s = false /\ ch_wire e = w /\
     channels (register_channel peer w s).2 = <[wrap32 (next_channel_id s + 1) := e]> (channels s) /\
     new_channels (register_channel peer w s).2 =
       new_channels s ++ [(wrap32 (next_channel_id s + 1), w)]).
Proof.
  rewrite register_channel_eq. destruct (closed s) eqn:Hc; [split_and!; eauto|].
  unfold addr_for_peer, with_channel, kick_pump. simpl.
  destruct (peer_to_addr s !! peer); simpl; destruct (pump_waker s); simpl;
    (split_and!; [done..|]); right; eexists (MkChannelEntry w peer _); by split_and!.
Qed.

Lemma env_step_inv p p' : pump_inv p -> room (st p) -> env_step p p' -> pump_inv p'.
Proof.
  intros Hi [Hh Hch Hrk Hep] Hstep.
  destruct Hstep as [p url c rc Hc|p peer w|p c rc rc' Hc Hcl|p s Hs].
  - destruct Hi as [Hwf Hn Hho Hr Hchi Ha Hcl Hs].
    destruct (register_relay_frame url c (st p)) as (Hp & Hnr & Hnk & Hchn & Hnc & Hclo).
    assert (relay_pool (st p) !! next_relay_key (st p) = None) as Hfresh.
    { destruct (relay_pool (st p) !! _) eqn:E; [|done].
      apply (ri_pool _ _ _ (wf_relay _ Hwf)) in E. lia. }
    pose proof (register_relay_wf url c (st p) Hwf Hrk) as Hwf1.
    destruct (register_relay url c (st p)) as [k1 s1]. simpl in *.
    constructor; simpl; rewrite ?Hp, ?Hnk, ?Hchn, ?Hclo; try done.
    + unfold u32_max in Hrk. rewrite wrap32_small; lia.
    + unfold home_inv. rewrite lookup_insert_ne; [done|unfold HOME_RELAY; lia].
    + unfold pending_relays. simpl. rewrite Hnr, app_assoc. by apply relays_inv_add.
    + unfold pending_channels. simpl. by rewrite Hnc.
  - destruct Hi as [Hwf Hn Hho Hr Hchi Ha Hcl Hs].
    destruct (register_channel_frame peer w (st p)) as (Hp & Hnr & Hnk & Hclo & Hcha).
    pose proof (wf_addr _ Hwf) as Hw. pose proof (ai_next _ _ _ _ _ _ Hw).
    pose proof (register_channel_wf peer w (st p) Hwf Hch Hh) as Hwf1.
    destruct (register_channel peer w (st p)) as [k1 s1]. simpl in *.
    constructor; simpl; rewrite ?Hp, ?Hnk, ?Hclo; try done.
    + unfold pending_relays. simpl. by rewrite Hnr.
    + unfold pending_channels. simpl. destruct Hcha as [[-> ->]|(e & Hcl0 & <- & -> & ->)]; [done|].
      rewrite app_assoc. apply channels_inv_add; [done|].
      destruct (channels (st p) !! _) eqn:E; [|done]. apply (ai_ids _ _ _ _ _ _ Hw) in E.
      rewrite wrap32_succ_eq in E by lia. lia.
  - apply pump_inv_wires; [done|]. rewrite Hc. by intros rc0 [= <-].
  - by apply pump_inv_rely.
Qed.

Lemma sys_step_inv p p' : pump_inv p -> rtc sys_step p p' -> pump_inv p'.
Proof.
  intros Hi Hr. induction Hr as [|p1 p2 p3 [Hroom [Hs|Hs]] _ IH]; [done|..]; apply IH.
  - by eapply pump_step_inv.
  - by eapply env_step_inv.
Qed.

(** The system as [bind] starts it: the home relay dialed and registered, the
    pump spawned. *)
Definition bound (now : Instant) (ep : Endpoint) (webrtc : bool) (url : string) (c : RelayRef)
    (rc : RelayConn) (u : option UdpWire) : Pump :=
  pump_start now (register_relay url c (State_new ep webrtc)).2 {[c := rc]} u.

Lemma bound_inv now ep w url c rc u : pump_inv (bound now ep w url c rc u).
Proof.
  constructor; simpl; try done.
  - by apply register_relay_wf; [apply State_new_wf|].
  - constructor; simpl.
    + by apply NoDup_singleton.
    + intros k c' Hin%list_elem_of_singleton. simplify_eq. rewrite lookup_singleton_eq. eauto.
    + intros k c' _. rewrite lookup_insert. case_decide; [|by rewrite lookup_empty].
      intros [= <-]. subst. by apply list_elem_of_singleton.
    + intros k c' Hin%list_elem_of_singleton Hne. by simplify_eq.
  - constructor; [by constructor|intros ? ? Hin; by inversion Hin|]. intros ? ? _. by rewrite lookup_empty.
  - by apply stages_run.
Qed.

End PumpInv.
