(* ===== verification/PumpTheory.v ===== *)
(** What the pump guarantees, of every state the interleaved system reaches
    from [bind]: the home relay is watched, receives are in flight exactly
    where they should be, the task never gets stuck or panics, and it ends
    only on close, with nothing in flight. *)
From S2P Require Import Prelude RelayFrames RelayConn Types Udp Noq State StateInv Drain.
From S2P Require Import DrainInv Rely Redial Pump PumpInv.

Section PumpTheory.
Context {N : Noq} {L : NoqLaws}.

(** The states the system reaches. *)
Definition reachable (p : Pump) : Prop :=
  exists now ep w url c rc u, rtc sys_step (bound now ep w url c rc u) p.

Lemma reachable_inv p : reachable p -> pump_inv p.
Proof.
  intros (now & ep & w & url & c & rc & u & Hr). eapply sys_step_inv; [|exact Hr]. apply bound_inv.
Qed.

(** C1. The home relay is never forgotten: on an endpoint that is not closed the
    pump's loop is running, and at every moment either the pool holds the home
    relay's connection, with a receive on it in flight and no redial pending, or
    the pool has no home relay and a redial is armed; never both and never
    neither, whatever order failures of sends, receives and probes, redials and
    the other tasks' calls happen in. *)
Theorem home_relay_watched p :
  reachable p -> closed (st p) = false ->
  running (pc p) = true /\
  ((exists c, relay_pool (st p) !! HOME_RELAY = Some c /\ (HOME_RELAY, c) ∈ pending_relays p /\
              redial p = None) \/
   (relay_pool (st p) !! HOME_RELAY = None /\ exists delay, redial p = Some delay)).
Proof.
  intros Hi%reachable_inv Hc. destruct Hi as [_ _ Hh Hr _ _ Hcl _].
  assert (running (pc p) = true) as Hrun.
  { destruct (running (pc p)); [done|]. by rewrite Hcl in Hc. }
  split; [done|]. unfold home_inv in Hh.
  destruct (relay_pool (st p) !! HOME_RELAY) as [c|] eqn:Hp.
  - destruct Hh as [Hre _]. left. exists c. split_and!; [done|by eapply ri_pooled|done].
  - destruct Hh as [_ Hre]. right. destruct (Hre Hc). eauto.
Qed.

(** C2. Receives on relays: no connection ever has two receives in flight, so no
    datagram is read by a receive whose result is dropped; every pooled
    connection has one while the loop runs, so nothing that arrives is left
    unread; and a receive on a connection that left the pool is on a closed one,
    so it resolves instead of keeping the task alive. *)
Theorem one_receive_per_relay p :
  reachable p ->
  NoDup (pending_relays p).*2 /\
  (running (pc p) = true -> forall k c, relay_pool (st p) !! k = Some c -> (k, c) ∈ pending_relays p) /\
  (forall k c, (k, c) ∈ pending_relays p -> relay_pool (st p) !! k <> Some c ->
     exists rc, wires p !! c = Some rc /\ ws_closed rc = true).
Proof. intros Hi%reachable_inv. destruct (pi_relays _ Hi) as [? _ Hp ?]. split_and!; auto. Qed.

(** Receives on channels: while the loop runs the receives in flight are
    those of the live channels, exactly one each and on the channel's own wire,
    so a retired channel is never received from again. *)
Theorem one_receive_per_channel p :
  reachable p -> running (pc p) = true ->
  NoDup (pending_channels p).*1 /\
  forall id w, (id, w) ∈ pending_channels p <->
    exists e, channels (st p) !! id = Some e /\ ch_wire e = w.
Proof.
  intros Hi%reachable_inv Hrun. destruct (pi_channels _ Hi) as [Hn Hl Hp]. split; [done|].
  intros id w. split; [apply Hl|]. intros (e & He & <-). by apply Hp.
Qed.

Lemma turn_top_done now order p :
  pump_inv p -> exists fuel p', turn_top fuel now order p = Done p'.
Proof.
  intros Hi. destruct (enough_fuel (st p)) as [fuel Hf]. exists fuel. unfold turn_top, drain.
  destruct (drain_order_ok fuel now order false (st p) (pi_wf _ Hi) Hf) as (any & s & -> & _).
  simpl. eauto.
Qed.

(** The select's handlers return. *)
Lemma on_relay_event_done now rnd key c result p :
  wf (st p) -> room (st p) -> exists p', on_relay_event now rnd key c result p = Done p'.
Proof.
  intros Hwf Hroom. unfold on_relay_event. destruct result as [d|e]; [|repeat case_match; eauto].
  set (p1 := if is_pool_current key c (st p) then _ else _).
  assert (st p1 = st p) as Hst by (subst p1; by case_match). case_decide; [eauto|]. rewrite Hst.
  destruct (handle_relay_datagram_done now key (source d) (payload d) (st p) Hwf Hroom) as [s ->].
  simpl. eauto.
Qed.

Lemma on_udp_event_done now result p :
  wf (st p) -> room (st p) -> exists p', on_udp_event now result p = Done p'.
Proof.
  intros Hwf Hroom. unfold on_udp_event. destruct result as [[b r]|e]; [|eauto]. destruct Hroom.
  destruct (handle_datagram_ok now r None b (st p)) as (s & Hs & _); [done|done|].
  unfold handle_udp_datagram. simpl in *. rewrite Hs. simpl. eauto.
Qed.

Lemma on_channel_event_done now id result p :
  wf (st p) -> room (st p) -> exists p', on_channel_event now id result p = Done p'.
Proof.
  intros Hwf Hroom. unfold on_channel_event. destruct result as [payload|e]; [|eauto].
  set (p1 := match channels (st p) !! id with Some _ => _ | None => _ end).
  assert (st p1 = st p) as Hst by (subst p1; by case_match). destruct payload as [b|]; [|eauto].
  rewrite Hst. destruct (handle_channel_datagram_done now id b (st p) Hwf Hroom) as [s ->].
  simpl. eauto.
Qed.

(** C3. The pump never panics and never gets stuck: in every reachable state
    short of the task's end a step is possible (while the counters have room),
    and in the select each completed receive, whatever it carries, is handled to
    completion. *)
Theorem pump_never_stuck p :
  reachable p -> room (st p) ->
  (pc p <> End -> exists p', pump_step p p') /\
  (forall now rnd key c result, exists p', on_relay_event now rnd key c result p = Done p') /\
  (forall now result, exists p', on_udp_event now result p = Done p') /\
  (forall now id result, exists p', on_channel_event now id result p = Done p').
Proof.
  intros Hi%reachable_inv Hroom. pose proof (pi_wf _ Hi) as Hwf. split_and!.
  - destruct (pc p) eqn:Hpc; intros Hend; try done.
    + destruct (turn_top_done 0 (map_to_list (conns (st p))).*1 p Hi) as (fuel & p' & Hrun).
      exists p'. by eapply step_top.
    + eexists. by apply step_flush_relay.
    + eexists. by apply (step_relay_sent p key c 0 None (Ok tt)).
    + eexists. by apply step_flush_udp.
    + eexists. by apply step_udp_sent.
    + eexists. by apply step_flush_channel.
    + eexists. by apply step_channel_sent.
    + eexists. by apply (step_arm p 0).
    + eexists. eapply (step_tick p 0 None); [done| |done]. eapply stages_tick; [apply Hi|by rewrite Hpc].
    + eexists. by apply step_wake.
    + destruct (relay_recvs p) as [|kc rest] eqn:Hl; eexists; [by apply step_relays_drained|].
      by eapply (step_drain_relay p kc rest); rewrite ?Hl.
    + eexists. by apply step_drain_udp.
    + destruct (channel_recvs p) as [|iw rest] eqn:Hl; eexists; [by apply step_channels_drained|].
      by eapply (step_drain_channel p iw rest); rewrite ?Hl.
    + eexists. by apply step_drain_tick.
  - intros now rnd key c result. by apply on_relay_event_done.
  - intros now result. by apply on_udp_event_done.
  - intros now id result. by apply on_channel_event_done.
Qed.

(** C35. The pump's end: the task leaves its loop only on a closed endpoint, and
    when it has ended no relay, channel, socket or timer future it started is
    still in flight. *)
Theorem pump_ends_clean p :
  reachable p ->
  (running (pc p) = false -> closed (st p) = true) /\
  (pc p = End -> closed (st p) = true /\ relay_recvs p = [] /\ channel_recvs p = [] /\
                 (is_Some (udp p) -> udp_recv p = false) /\ tick p = false).
Proof.
  intros Hi%reachable_inv. destruct Hi as [_ _ _ _ _ _ Hcl Hs]. split; [done|]. intros Hpc.
  rewrite Hpc in *. destruct Hs. simpl in *. split_and!; auto with lia.
Qed.

(** Closing ends the loop in time: at the end of each turn the pump leaves
    its loop exactly when the endpoint is closed and either every connection has
    drained or failed, or 500 ms have passed since the close; leaving wakes
    every waiter and closes every pooled relay, and otherwise the turn goes on
    to wait for events. *)
Theorem arm_decides now order p :
  order ≡ₚ map_to_list (relay_pool (st p)) ->
  let p' := arm now order p in
  let done := map_Forall (fun _ e => drained e = true \/ error e <> None) (conns (st p)) in
  let lingered := match closed_at (st p) with Some t => t + LINGER <= now | None => True end in
  (closed (st p) = true /\ (done \/ lingered) ->
     pc p' = Waking /\ waiters (st p') = [] /\
     forall k c rc, relay_pool (st p) !! k = Some c -> wires p' !! c = Some rc -> ws_closed rc = true) /\
  (~ (closed (st p) = true /\ (done \/ lingered)) ->
     pc p' = Select /\ waiters (st p') = waiters (st p) /\ wires p' = wires p).
Proof.
  intros Horder p' dn lingered. subst p'. unfold arm.
  match goal with |- context [should_stop now (st ?q)] => set (p1 := q) end.
  assert (should_stop now (st p1) = true <-> closed (st p) = true /\ (dn \/ lingered)) as Hstop.
  { unfold should_stop. change (closed (st p1)) with (closed (st p)).
    change (conns (st p1)) with (conns (st p)). change (closed_at (st p1)) with (closed_at (st p)).
    rewrite andb_true_iff, orb_true_iff, bool_decide_eq_true. subst dn lingered.
    destruct (closed_at (st p)) as [t|]; [|naive_solver].
    rewrite Z.leb_le. unfold duration_since, LINGER, from_millis.
    assert (500 * 1000000 <= now - t <-> t + 500 * 1000000 <= now) as Heq by lia.
    assert (500 * 1000000 <= 0 `max` (now - t) <-> 500 * 1000000 <= now - t) as Hmx by lia.
    by rewrite Hmx, Heq. }
  destruct (should_stop now (st p1)); split; intros H.
  - unfold teardown_begin.
    destruct (close_relays_frame order (p1 <| st ::= wake_waiters |>)) as (es & Heq & _ & Hcl).
    split; [done|]. split; [by rewrite Heq|]. intros k c rc Hk Hw.
    eapply (Hcl k c rc); [|exact Hw]. rewrite Horder. by apply elem_of_map_to_list.
  - by destruct H; apply Hstop.
  - apply Hstop in H. done.
  - done.
Qed.

End PumpTheory.
