(* ===== verification/Connection.v ===== *)
(** The connection resource ([ConnectionRes] of [endpoint/src/endpoint_impl.rs]):
    every method as a function of the shared state. An async method is the check
    its [wait_until] runs at each poll: [None] parks the caller. *)
From S2P Require Import Prelude RelayFrames Types Noq State StateInv Drain DrainInv Rely.

(** An application code as QUIC's variable-length integer. *)
Definition VARINT_MAX : Z := 2 ^ 62 - 1.
Definition app_code (code : Z) : Z := if code <? 2 ^ 62 then code else VARINT_MAX.

(** The handle and the epoch it was minted under name the connection. *)
Record ConnectionRes := MkConnectionRes {
  handle : ConnectionHandle;
  minted : Z;
  watching : bool;
}.
#[export] Instance ConnectionRes_eta : Eta ConnectionRes := fun c =>
  MkConnectionRes (handle c) (minted c) (watching c).

Section Connection.
Context {N : Noq}.

(** [ConnectionRes::with_entry]. *)
Definition with_entry {R} (c : ConnectionRes) (stale : R) (f : ConnEntry -> R * ConnEntry)
    (st : State) : R * State :=
  match entry_for st (handle c) (minted c) with
  | Some e => let '(r, e) := f e in (r, set_entry (handle c) e st)
  | None => (stale, st)
  end.

(** The closure's captured [kicked_blocked] is threaded through. *)
Definition open_stream_check (c : ConnectionRes) (dir : Dir) (kicked_blocked : bool) (st : State)
    : option (Result StreamId Error) * bool * State :=
  match entry_for st (handle c) (minted c) with
  | None => (Some (Err Closed), kicked_blocked, st)
  | Some entry =>
      match error entry with
      | Some err => (Some (Err err), kicked_blocked, st)
      | None =>
          let '(id, cn) := streams_open dir (conn entry) in
          let st := set_entry (handle c) (entry <| conn := cn |>) st in
          match id with
          | Some id => (Some (Ok id), kicked_blocked, st)
          | None => (None, true, if kicked_blocked then st else kick_pump st)
          end
      end
  end.

Definition stream_queue (dir : Dir) (e : ConnEntry) : list StreamId :=
  match dir with Bi => bi_queue e | Uni => uni_queue e end.
Definition set_stream_queue (dir : Dir) (q : list StreamId) (e : ConnEntry) : ConnEntry :=
  match dir with Bi => e <| bi_queue := q |> | Uni => e <| uni_queue := q |> end.

Definition accept_stream_check (c : ConnectionRes) (dir : Dir) (st : State)
    : option (Result StreamId Error) * State :=
  match entry_for st (handle c) (minted c) with
  | None => (Some (Err Closed), st)
  | Some entry =>
      match stream_queue dir entry with
      | id :: rest => (Some (Ok id), set_entry (handle c) (set_stream_queue dir rest entry) st)
      | [] => (Err <$> error entry, st)
      end
  end.

Definition conn_peer (c : ConnectionRes) (st : State) : bytes :=
  (with_entry c [] (fun e => (default [] (array_bytes <$> peer e), e)) st).1.
Definition conn_alpn (c : ConnectionRes) (st : State) : bytes :=
  (with_entry c [] (fun e => (alpn e, e)) st).1.

Definition is_closed_entry (e : ConnEntry) : bool :=
  drained e || match error e with Some _ => true | None => false end.

Definition entry_state (e : ConnEntry) : ConnectionState :=
  if is_closed_entry e then CsClosed else if connected e then CsOpen else CsConnecting.
Definition conn_state (c : ConnectionRes) (st : State) : ConnectionState :=
  (with_entry c CsClosed (fun e => (entry_state e, e)) st).1.

Definition conn_path (c : ConnectionRes) (st : State) : PathKind :=
  current_path st (handle c) (minted c).

(** [path_changes]: whether this call takes the watch. *)
Definition path_changes_claim (c : ConnectionRes) : bool * ConnectionRes :=
  (negb (watching c), c <| watching := true |>).

(** The watcher's check: the stream's end, or the path to report. *)
Definition path_check (c : ConnectionRes) (last : option PathKind) (st : State)
    : option (option PathKind) :=
  match entry_for st (handle c) (minted c) with
  | None => Some None
  | Some entry =>
      if is_closed_entry entry then Some None
      else
        let current := current_path st (handle c) (minted c) in
        if decide (last = Some current) then None else Some (Some current)
  end.

(** The watcher over the states its check is polled in; the flag is whether
    the reader had dropped the stream when an element was written. The result
    is what the reader gets, and whether the stream has ended. *)
Fixpoint path_watch (c : ConnectionRes) (last : option PathKind) (polls : list (State * bool))
    : list PathKind * bool :=
  match polls with
  | [] => ([], false)
  | (st, dropped) :: polls =>
      match path_check c last st with
      | None => path_watch c last polls
      | Some None => ([], true)
      | Some (Some kind) =>
          if dropped then ([], true)
          else let '(kinds, ended) := path_watch c (Some kind) polls in (kind :: kinds, ended)
      end
  end.

Definition max_datagram_size (c : ConnectionRes) (st : State) : option Z :=
  (with_entry c None (fun e => (wrap32 <$> datagrams_max_size (conn e), e)) st).1.

Definition send_datagram_error (e : SendDatagramError) : Error :=
  match e with
  | SdTooLarge => InvalidArgument "datagram exceeds max-datagram-size"
  | SdUnsupportedByPeer => InvalidArgument "peer does not accept datagrams"
  | SdOther display => Other ("send-datagram: " +:+ display)
  end.

Definition conn_send_datagram (c : ConnectionRes) (data : bytes) (st : State)
    : Result unit Error * State :=
  let '(result, st) :=
    with_entry c (Err Closed)
      (fun e =>
         match error e with
         | Some err => (Err err, e)
         | None =>
             let '(r, cn) := datagrams_send data (conn e) in
             (map_err send_datagram_error r, e <| conn := cn |>)
         end) st in
  (result, if is_err result then st else kick_pump st).

Definition conn_recv_datagram_check (c : ConnectionRes) (st : State)
    : option (Result bytes Error) * State :=
  match entry_for st (handle c) (minted c) with
  | None => (Some (Err Closed), st)
  | Some entry =>
      let '(d, cn) := datagrams_recv (conn entry) in
      let st := set_entry (handle c) (entry <| conn := cn |>) st in
      match d with
      | Some d => (Some (Ok d), st)
      | None => (Err <$> error entry, st)
      end
  end.

Definition connection_close (now : Instant) (c : ConnectionRes) (code : Z) (reason : bytes)
    (st : State) : State :=
  match entry_for st (handle c) (minted c) with
  | None => st
  | Some entry =>
      if live entry
      then kick_pump (set_entry (handle c) (entry <| conn ::= conn_close now (app_code code) reason |>) st)
      else st
  end.

(** [impl Drop for ConnectionRes]. *)
Definition connection_drop (now : Instant) (c : ConnectionRes) (st : State) : State :=
  connection_close now c 0 [] st.

Definition wait_closed_check (c : ConnectionRes) (st : State) : option (option CloseInfo) :=
  match entry_for st (handle c) (minted c) with
  | None => Some None
  | Some entry => if is_closed_entry entry then Some (peer_close entry) else None
  end.

End Connection.

(** ** Contracts *)
Section ConnectionTheory.
Context {N : Noq}.
Implicit Types (c : ConnectionRes) (st : State).

(** An entry whose connection was called: only the connection and the queues
    of its streams moved. *)
Record driven (e e' : ConnEntry) : Prop := {
  dr_rest : e' = e <| conn := conn e' |> <| bi_queue := bi_queue e' |> <| uni_queue := uni_queue e' |>;
  dr_ops : rtc conn_op (conn e) (conn e');
}.

Lemma driven_refl e : driven e e.
Proof. split; [by destruct e|done]. Qed.

Lemma driven_conn e cn : rtc conn_op (conn e) cn -> driven e (e <| conn := cn |>).
Proof. by split. Qed.

Lemma driven_op e cn : conn_op (conn e) cn -> driven e (e <| conn := cn |>).
Proof. intros. by apply driven_conn, rtc_once. Qed.

Lemma driven_rel h e e' : driven e e' -> entry_rel h e e'.
Proof. intros [-> _]. done. Qed.

(** A state change confined to the connection a resource names: the entry
    keeps its identity, what it was authenticated as and its lifecycle, and
    nothing else changes but the waking of the pump. *)
Record entry_update (h : ConnectionHandle) (ep : Z) (st st' : State) : Prop := {
  eu_rely : rely st st';
  eu_others h' : h' <> h -> conns st' !! h' = conns st !! h';
  eu_entry : match entry_for st h ep with
             | Some e => exists e', conns st' !! h = Some e' /\ driven e e'
             | None => conns st' !! h = conns st !! h
             end;
  eu_rest : routes st' = routes st /\ accept_queue st' = accept_queue st /\
            next_conn_epoch st' = next_conn_epoch st;
  eu_frame : st' = st <| conns := conns st' |> \/ st' = kick_pump (st <| conns := conns st' |>);
}.

Lemma entry_for_Some st h ep e : entry_for st h ep = Some e <-> conns st !! h = Some e /\ epoch e = ep.
Proof.
  unfold entry_for. destruct (conns st !! h) as [e'|]; [|naive_solver].
  destruct (Z.eqb_spec (epoch e') ep); naive_solver.
Qed.

Lemma set_conns_id st : st <| conns := conns st |> = st.
Proof. by destruct st. Qed.

Lemma kick_kicked st : kick_pump (kick_pump st) = kick_pump st.
Proof. unfold kick_pump. simpl. destruct (pump_waker st) eqn:E; simpl; by rewrite ?E. Qed.

Lemma entry_update_refl h ep st : entry_update h ep st st.
Proof.
  constructor; [done|done| |done|left; symmetry; apply set_conns_id]. destruct (entry_for st h ep) as [e|] eqn:E; [|done].
  apply entry_for_Some in E as [? _]. exists e. split; [done|apply driven_refl].
Qed.

Lemma entry_update_kick h ep st st' : entry_update h ep st st' -> entry_update h ep st (kick_pump st').
Proof.
  intros [Hr Ho He (Hro & Ha & Hn) Hf].
  assert (conns (kick_pump st') = conns st' /\ routes (kick_pump st') = routes st' /\
          accept_queue (kick_pump st') = accept_queue st' /\
          next_conn_epoch (kick_pump st') = next_conn_epoch st') as (Hc & Hrt & Haq & Hne)
    by (unfold kick_pump; simpl; destruct (pump_waker st'); done).
  constructor; rewrite ?Hc, ?Hrt, ?Haq, ?Hne; try done; [etransitivity; [done|]; apply kick_pump_rely|].
  right. destruct Hf as [<-| ->]; [done|]. rewrite kick_kicked.
  unfold kick_pump. simpl. by destruct (pump_waker st).
Qed.

(** Writing back an entry whose connection or stream queues moved. *)
Lemma entry_update_set h ep st e e' :
  entry_for st h ep = Some e -> driven e e' -> entry_update h ep st (set_entry h e' st).
Proof.
  intros He Hdr. pose proof He as [Hlook Hep]%entry_for_Some. constructor; simpl.
  - constructor; [|done..]. intros Hwf. wf_parts Hwf.
    eapply conn_inv_put; [done|done|by apply driven_rel|apply queue_rel_refl].
  - intros h' Hne. by rewrite lookup_insert_ne.
  - rewrite He. exists e'. by rewrite lookup_insert_eq.
  - done.
  - by left.
Qed.

Lemma entry_update_conn h ep st e cn :
  entry_for st h ep = Some e -> rtc conn_op (conn e) cn ->
  entry_update h ep st (set_entry h (e <| conn := cn |>) st).
Proof. intros He Hc. eapply entry_update_set; [done|by apply driven_conn]. Qed.

Lemma entry_update_op h ep st e cn :
  entry_for st h ep = Some e -> conn_op (conn e) cn ->
  entry_update h ep st (set_entry h (e <| conn := cn |>) st).
Proof. intros He Hc. apply entry_update_conn; [done|by apply rtc_once]. Qed.

Lemma open_stream_update c dir kicked st :
  entry_update (handle c) (minted c) st (open_stream_check c dir kicked st).2.
Proof.
  unfold open_stream_check. destruct (entry_for st _ _) as [e|] eqn:He; [|apply entry_update_refl].
  destruct (error e); [apply entry_update_refl|].
  destruct (streams_open dir (conn e)) as [r cn] eqn:Eo. apply co_open in Eo.
  destruct r; simpl; [by apply entry_update_op|].
  destruct kicked; [|apply entry_update_kick]; by apply entry_update_op.
Qed.

Lemma accept_stream_update c dir st :
  entry_update (handle c) (minted c) st (accept_stream_check c dir st).2.
Proof.
  unfold accept_stream_check. destruct (entry_for st _ _) as [e|] eqn:He; [|apply entry_update_refl].
  destruct (stream_queue dir e); [apply entry_update_refl|].
  by destruct dir; eapply entry_update_set.
Qed.

Lemma send_datagram_update c data st :
  entry_update (handle c) (minted c) st (conn_send_datagram c data st).2.
Proof.
  unfold conn_send_datagram, with_entry.
  destruct (entry_for st _ _) as [e|] eqn:He; [|apply entry_update_refl].
  destruct (error e); [eapply entry_update_set; [done|apply driven_refl]|].
  destruct (datagrams_send data (conn e)) as [r cn] eqn:Ed. apply co_datagram_send in Ed. simpl.
  case_match; [|apply entry_update_kick]; by apply entry_update_op.
Qed.

Lemma recv_datagram_update c st :
  entry_update (handle c) (minted c) st (conn_recv_datagram_check c st).2.
Proof.
  unfold conn_recv_datagram_check.
  destruct (entry_for st _ _) as [e|] eqn:He; [|apply entry_update_refl].
  destruct (datagrams_recv (conn e)) as [r cn] eqn:Er. apply co_datagram_recv in Er.
  destruct r; by apply entry_update_op.
Qed.

Lemma connection_close_update now c code reason st :
  entry_update (handle c) (minted c) st (connection_close now c code reason st).
Proof.
  unfold connection_close. destruct (entry_for st _ _) as [e|] eqn:He; [|apply entry_update_refl].
  case_match; [|apply entry_update_refl]. apply entry_update_kick.
  eapply entry_update_set; [done|]. apply driven_op. constructor.
Qed.

(** A connection's methods touch only their own connection: opening and
    accepting streams, datagrams both ways and close change no other entry of
    the table and no route, keep the entry's epoch, authentication and recorded
    outcome, and keep the state well-formed and the registered relays and
    channels as the pump relies on; on a resource whose slot is gone or was
    reused by another connection they change nothing at all. *)
Theorem connection_methods_local now c dir kicked data code reason st :
  let states := [(open_stream_check c dir kicked st).2; (accept_stream_check c dir st).2;
                 (conn_send_datagram c data st).2; (conn_recv_datagram_check c st).2;
                 connection_close now c code reason st; connection_drop now c st] in
  Forall (entry_update (handle c) (minted c) st) states /\
  (entry_for st (handle c) (minted c) = None -> Forall (eq st) states).
Proof.
  intros states. subst states. split.
  - repeat apply Forall_cons_2; auto using open_stream_update, accept_stream_update,
      send_datagram_update, recv_datagram_update.
    + apply connection_close_update.
    + apply connection_close_update.
  - unfold open_stream_check, accept_stream_check, conn_send_datagram, conn_recv_datagram_check,
      connection_drop, connection_close, with_entry.
    intros He. rewrite !He. repeat apply Forall_cons_2; done.
Qed.

(** No two consecutive elements are equal, also with what came before. *)
Fixpoint distinct_from (last : option PathKind) (l : list PathKind) : Prop :=
  match l with
  | [] => True
  | k :: l => last <> Some k /\ distinct_from (Some k) l
  end.

Lemma path_check_spec c last0 st :
  match path_check c last0 st with
  | None => last0 = Some (conn_path c st) /\ conn_state c st <> CsClosed
  | Some None => conn_state c st = CsClosed
  | Some (Some k) => k = conn_path c st /\ last0 <> Some k /\ conn_state c st <> CsClosed
  end.
Proof.
  unfold path_check, conn_state, with_entry, entry_state, conn_path.
  destruct (entry_for st (handle c) (minted c)) as [e|]; [|done].
  destruct (is_closed_entry e); simpl; [done|].
  case_decide; destruct (connected e); done.
Qed.

(** The path watch: the elements a watcher gets are a subsequence of the
    paths the connection had when the watcher looked, in order; consecutive
    elements are always distinct; the stream ends exactly when a look finds the
    connection closed or the reader has dropped the stream, and while it goes
    on, its latest element is the path at the latest look, so the last move is
    never coalesced away. *)
Theorem path_watch_coalesces c last0 polls :
  let '(kinds, ended) := path_watch c last0 polls in
  kinds `sublist_of` ((fun p => conn_path c p.1) <$> polls) /\
  distinct_from last0 kinds /\
  (ended = true -> exists p, p ∈ polls /\ (conn_state c p.1 = CsClosed \/ p.2 = true)) /\
  (ended = false ->
     Forall (fun p => conn_state c p.1 <> CsClosed) polls /\
     forall p, last polls = Some p ->
       from_option Some last0 (last kinds) = Some (conn_path c p.1)).
Proof.
  revert last0. induction polls as [|[st dropped] polls IH]; intros last0; cbn [path_watch].
  { split_and!; [constructor|done|done|]. intros _. split; [constructor|done]. }
  pose proof (path_check_spec c last0 st) as Hc.
  destruct (path_check c last0 st) as [[k|]|].
  - destruct Hc as (-> & Hne & Hop). destruct dropped.
    { split_and!; [apply sublist_nil_l|done| |done]. intros _. exists (st, true).
      split; [by left|by right]. }
    specialize (IH (Some (conn_path c st))). destruct (path_watch c _ polls) as [kinds ended].
    destruct IH as (Hs & Hd & He & Ho). split_and!; [by constructor|done| |].
    + intros Hend. destruct (He Hend) as (p & ? & ?). exists p. split; [by right|done].
    + intros Hend. destruct (Ho Hend) as [Hf Hl]. split; [by constructor|].
      intros p Hp. destruct polls as [|p' polls]; simpl in Hp; simplify_eq.
      * destruct kinds; [done|]. inversion Hs.
      * specialize (Hl p Hp). rewrite last_cons. by destruct (last kinds).
  - split_and!; [apply sublist_nil_l|done| |done]. intros _. exists (st, dropped).
    split; [by left|by left].
  - destruct Hc as [-> Hop]. specialize (IH (Some (conn_path c st))).
    destruct (path_watch c _ polls) as [kinds ended]. destruct IH as (Hs & Hd & He & Ho).
    split_and!; [by apply sublist_cons|done| |].
    + intros Hend. destruct (He Hend) as (p & ? & ?). exists p. split; [by right|done].
    + intros Hend. destruct (Ho Hend) as [Hf Hl]. split; [by constructor|].
      intros p Hp. destruct polls as [|p' polls]; simpl in Hp; simplify_eq.
      * destruct kinds; [done|]. inversion Hs.
      * by apply Hl.
Qed.

(** Closing a connection: a live one is closed with the application code,
    saturated at QUIC's 2^62 - 1, and the reason, and the pump is kicked to
    flush it; dropping the resource closes with code 0 and no reason; on a
    connection that has failed or drained, or is gone, neither does anything. *)
Theorem connection_close_contract now c code reason st :
  0 <= code ->
  connection_drop now c st = connection_close now c 0 [] st /\
  match entry_for st (handle c) (minted c) with
  | Some e =>
      if is_closed_entry e then connection_close now c code reason st = st
      else connection_close now c code reason st =
           kick_pump (st <| conns ::= <[handle c :=
             e <| conn ::= conn_close now (Z.min code (2 ^ 62 - 1)) reason |>]> |>)
  | None => connection_close now c code reason st = st
  end.
Proof.
  intros Hc. split; [done|]. unfold connection_close.
  destruct (entry_for st (handle c) (minted c)) as [e|]; [|done].
  assert (app_code code = Z.min code (2 ^ 62 - 1)) as <-.
  { unfold app_code, VARINT_MAX. destruct (Z.ltb_spec code (2 ^ 62)); lia. }
  unfold live, is_closed_entry. by destruct (error e), (drained e).
Qed.

End ConnectionTheory.
