(* ===== verification/Streams.v ===== *)
(** The stream resources ([SendStreamRes], [RecvStreamRes], [write_all] and
    [read_some] of [endpoint/src/endpoint_impl.rs]): the checks of the async
    methods, the claims that refuse concurrent calls, and what drops do. *)
From S2P Require Import Prelude RelayFrames Types Noq State StateInv Drain DrainInv Rely.
From S2P Require Import Connection.

Definition in_use (detail : string) : Error := InUse detail.
Definition other (detail : string) : Error := Other detail.

Definition writes_taken : Error := in_use "the stream's writes were taken by write-via-stream".
Definition write_in_flight : Error := in_use "a write is already in flight on this stream".
Definition finish_in_flight : Error := in_use "a write is in flight on this stream".
Definition write_via_taken : Error := in_use "write-via-stream may be called once".
Definition bytes_taken : Error := in_use "the stream's bytes were taken by read-via-stream".
Definition read_in_flight : Error := in_use "a read is already in flight on this stream".
Definition read_via_taken : Error := in_use "read-via-stream may be called once".
Definition VIA_CHUNK : nat := 16 * 1024.

Section Streams.
Context {N : Noq}.

(** A stream is named by its connection's handle and epoch and its id. *)
Record StreamName := MkStreamName {
  sn_handle : ConnectionHandle;
  sn_epoch : Z;
  sn_id : StreamId;
}.

(** ** [write_all]

    The loop of one poll, from [offset]; then the check around it. *)
Fixpoint write_loop (fuel : nat) (id : StreamId) (b : bytes) (offset : nat) (c : Connection)
    : Run (option (Result unit Error) * nat * Connection) :=
  match fuel with
  | O => OutOfFuel
  | S fuel =>
      let! rest := slice_from offset b in
      match send_write id rest c with
      | (Ok written, c) =>
          let offset := (offset + written)%nat in
          if decide (offset = length b) then Done (Some (Ok tt), offset, c)
          else if decide (written = 0%nat) then Done (None, offset, c)
          else write_loop fuel id b offset c
      | (Err WBlocked, c) => Done (None, offset, c)
      | (Err (WStopped code), c) => Done (Some (Err (Reset code)), offset, c)
      | (Err WClosedStream, c) => Done (Some (Err Closed), offset, c)
      end
  end.

Definition write_check (s : StreamName) (b : bytes) (offset : nat) (st : State)
    : Run (option (Result unit Error) * nat * State) :=
  match entry_for st (sn_handle s) (sn_epoch s) with
  | None => Done (Some (Err Closed), offset, st)
  | Some entry =>
      match error entry with
      | Some err => Done (Some (Err err), offset, st)
      | None =>
          let! (outcome, offset', c) := write_loop (S (length b)) (sn_id s) b offset (conn entry) in
          let st := set_entry (sn_handle s) (entry <| conn := c |>) st in
          Done (outcome, offset', if (offset <? offset')%nat then kick_pump st else st)
      end
  end.

(** ** [read_some] *)

Definition read_check (s : StreamName) (max : nat) (st : State)
    : option (Result (option bytes) Error) * State :=
  match entry_for st (sn_handle s) (sn_epoch s) with
  | None => (Some (Err Closed), st)
  | Some entry =>
      let conn_failure := error entry in
      let '(result, c) := recv_chunk (sn_id s) max (conn entry) in
      let st := set_entry (sn_handle s) (entry <| conn := c |>) st in
      match result with
      | Err RClosedStream =>
          (Some match conn_failure with Some err => Err err | None => Ok None end, st)
      | Err RIllegalOrderedRead => (Some (Err (other "illegal ordered read")), st)
      | Ok (Ok (Some chunk)) => (Some (Ok (Some chunk)), kick_pump st)
      | Ok (Ok None) => (Some (Ok None), kick_pump st)
      | Ok (Err RBlocked) => (Err <$> conn_failure, st)
      | Ok (Err (RReset code)) => (Some (Err (Reset code)), st)
      end
  end.

(** ** The send stream

    The async calls in flight: a [write]; a [write-via-stream] waiting for its
    source, or writing a chunk of it ([last] when the source ended with it). *)
Inductive WriteOp :=
| Writing (b : bytes) (offset : nat)
| Sourcing
| Feeding (b : bytes) (offset : nat) (last : bool).

Record SendStreamRes := MkSendStreamRes {
  s_name : StreamName;
  s_streaming : bool;
  writing : bool;
  ended : bool;
  s_ops : list WriteOp;
}.
#[export] Instance SendStreamRes_eta : Eta SendStreamRes := fun s =>
  MkSendStreamRes (s_name s) (s_streaming s) (writing s) (ended s) (s_ops s).

Definition SendStreamRes_new (n : StreamName) : SendStreamRes := MkSendStreamRes n false false false [].

(** [SendStreamRes::do_finish]. *)
Definition do_finish (s : SendStreamRes) (st : State) : Result unit Error * SendStreamRes * State :=
  let s := s <| ended := true |> in
  let n := s_name s in
  match entry_for st (sn_handle n) (sn_epoch n) with
  | None => (Err Closed, s, st)
  | Some entry =>
      match error entry with
      | Some err => (Err err, s, st)
      | None =>
          let '(r, c) := send_finish (sn_id n) (conn entry) in
          let st := set_entry (sn_handle n) (entry <| conn := c |>) st in
          match r with
          | Ok _ => (Ok tt, s, kick_pump st)
          | Err (FStopped code) => (Err (Reset code), s, st)
          | Err FClosedStream => (Err Closed, s, st)
          end
      end
  end.

(** The refusal of a call, or the resource with the call in flight. *)
Definition write_call (b : bytes) (s : SendStreamRes) : Result SendStreamRes Error :=
  if s_streaming s then Err writes_taken
  else if writing s then Err write_in_flight
  else Ok (s <| writing := true |> <| s_ops ::= fun l => l ++ [Writing b 0] |>).

Definition write_via_call (s : SendStreamRes) : Result SendStreamRes Error :=
  if s_streaming s then Err write_via_taken
  else if writing s then Err write_in_flight
  else Ok (s <| writing := true |> <| s_streaming := true |> <| s_ops ::= fun l => l ++ [Sourcing] |>).

Definition finish (s : SendStreamRes) (st : State) : Result unit Error * SendStreamRes * State :=
  if s_streaming s then (Err writes_taken, s, st)
  else if writing s then (Err finish_in_flight, s, st)
  else do_finish s st.

Definition reset (code : Z) (s : SendStreamRes) (st : State) : SendStreamRes * State :=
  let s := s <| ended := true |> in
  let n := s_name s in
  match entry_for st (sn_handle n) (sn_epoch n) with
  | None => (s, st)
  | Some entry =>
      (s, kick_pump (set_entry (sn_handle n)
            (entry <| conn ::= send_reset (sn_id n) (app_code code) |>) st))
  end.

(** [impl Drop for SendStreamRes]. *)
Definition send_stream_drop (s : SendStreamRes) (st : State) : State :=
  if ended s then st else (reset 0 s st).2.

(** A call's end: its result (none when cancelled); the claim is released. *)
Definition write_end (s : SendStreamRes) : SendStreamRes := s <| writing := false |>.

(** One stretch of an in-flight call, with the others [ops]: a poll of its
    [write_all], or what its source yielded. *)
Definition write_advance (op : WriteOp) (data : option (bytes * bool)) (ops : list WriteOp)
    (s : SendStreamRes) (st : State) : Run (option (Result unit Error) * SendStreamRes * State) :=
  let park op := s <| s_ops := op :: ops |> in
  let retire := write_end (s <| s_ops := ops |>) in
  match op with
  | Writing b offset =>
      let! (r, offset, st) := write_check (s_name s) b offset st in
      match r with
      | Some r => Done (Some r, retire, st)
      | None => Done (None, park (Writing b offset), st)
      end
  | Sourcing =>
      match data with
      | None => Done (None, park Sourcing, st)
      | Some ([], false) => Done (None, park Sourcing, st)
      | Some ([], true) =>
          let '(r, s, st) := do_finish retire st in Done (Some r, s, st)
      | Some (b, last) => Done (None, park (Feeding b 0 last), st)
      end
  | Feeding b offset last =>
      let! (r, offset, st) := write_check (s_name s) b offset st in
      match r with
      | None => Done (None, park (Feeding b offset last), st)
      | Some (Err e) => Done (Some (Err e), retire, st)
      | Some (Ok _) =>
          if last then let '(r, s, st) := do_finish retire st in Done (Some r, s, st)
          else Done (None, park Sourcing, st)
      end
  end.

(** ** The receive stream *)

(** A [read] in flight, by its [max]. *)
Record RecvStreamRes := MkRecvStreamRes {
  r_name : StreamName;
  r_streaming : bool;
  terminal : option (Result unit Error);
  reading : bool;
  r_ops : list nat;
}.
#[export] Instance RecvStreamRes_eta : Eta RecvStreamRes := fun r =>
  MkRecvStreamRes (r_name r) (r_streaming r) (terminal r) (reading r) (r_ops r).

Definition RecvStreamRes_new (n : StreamName) : RecvStreamRes := MkRecvStreamRes n false None false [].

(** What a [read] returns at once, or the resource with the call in flight. *)
Definition read_call (max : nat) (r : RecvStreamRes)
    : Result (option bytes) Error + RecvStreamRes :=
  if r_streaming r then inl (Err bytes_taken)
  else
    match terminal r with
    | Some t => inl (result_map (fun _ => None) t)
    | None =>
        if decide (max = 0%nat) then inl (Ok (Some []))
        else if reading r then inl (Err read_in_flight)
        else inr (r <| reading := true |> <| r_ops ::= fun l => l ++ [max] |>)
    end.

Definition latch (result : Result (option bytes) Error) (r : RecvStreamRes) : RecvStreamRes :=
  match result with
  | Ok (Some _) => r
  | Ok None => r <| terminal := Some (Ok tt) |>
  | Err e => r <| terminal := Some (Err e) |>
  end.

(** One poll of an in-flight [read], with the others [ops]. *)
Definition read_advance (max : nat) (ops : list nat) (r : RecvStreamRes) (st : State)
    : option (Result (option bytes) Error) * RecvStreamRes * State :=
  let '(result, st) := read_check (r_name r) max st in
  match result with
  | None => (None, r <| r_ops := max :: ops |>, st)
  | Some result =>
      (Some result, latch result (r <| r_ops := ops |>) <| reading := false |>, st)
  end.

Definition stop (code : Z) (r : RecvStreamRes) (st : State) : State :=
  let n := r_name r in
  match entry_for st (sn_handle n) (sn_epoch n) with
  | None => st
  | Some entry =>
      kick_pump (set_entry (sn_handle n) (entry <| conn ::= recv_stop (sn_id n) (app_code code) |>) st)
  end.

(** [impl Drop for RecvStreamRes]. *)
Definition recv_stream_drop (r : RecvStreamRes) (st : State) : State :=
  match terminal r with
  | None => if r_streaming r then st else stop 0 r st
  | Some _ => st
  end.

(** [read_via_stream]: the claim. *)
Definition read_via_call (r : RecvStreamRes) : Result RecvStreamRes Error :=
  if r_streaming r then Err read_via_taken else Ok (r <| r_streaming := true |>).

Definition via_abandoned : Error := other "read-via-stream abandoned: the byte stream was dropped".

(** The task it spawns, over the states its [read_some] is polled in; the flag
    is whether the consumer had dropped the byte stream when a chunk was
    written. The result is the bytes the consumer got and, once the task is
    over, what the future resolves with. *)
Fixpoint via_stream (n : StreamName) (polls : list (State * bool))
    : bytes * option (Result unit Error) :=
  match polls with
  | [] => ([], None)
  | (st, dropped) :: polls =>
      match (read_check n VIA_CHUNK st).1 with
      | None => via_stream n polls
      | Some (Ok (Some b)) =>
          if dropped then ([], Some (Err via_abandoned))
          else let '(rest, outcome) := via_stream n polls in (b ++ rest, outcome)
      | Some (Ok None) => ([], Some (Ok tt))
      | Some (Err e) => ([], Some (Err e))
      end
  end.

(** ** Handing out streams

    What [open_bi], [open_uni], [accept_bi] and [accept_uni] make of the stream
    they waited for. *)
Definition stream_name (c : ConnectionRes) (id : StreamId) : StreamName :=
  MkStreamName (handle c) (minted c) id.
Definition stream_pair (c : ConnectionRes) (id : StreamId) : SendStreamRes * RecvStreamRes :=
  (SendStreamRes_new (stream_name c id), RecvStreamRes_new (stream_name c id)).

Definition open_bi (c : ConnectionRes) (kicked_blocked : bool) (st : State)
    : option (Result (SendStreamRes * RecvStreamRes) Error) * bool * State :=
  let '(r, kicked_blocked, st) := open_stream_check c Bi kicked_blocked st in
  (result_map (stream_pair c) <$> r, kicked_blocked, st).
Definition open_uni (c : ConnectionRes) (kicked_blocked : bool) (st : State)
    : option (Result SendStreamRes Error) * bool * State :=
  let '(r, kicked_blocked, st) := open_stream_check c Uni kicked_blocked st in
  (result_map (fun id => SendStreamRes_new (stream_name c id)) <$> r, kicked_blocked, st).
Definition accept_bi (c : ConnectionRes) (st : State)
    : option (Result (SendStreamRes * RecvStreamRes) Error) * State :=
  let '(r, st) := accept_stream_check c Bi st in (result_map (stream_pair c) <$> r, st).
Definition accept_uni (c : ConnectionRes) (st : State) : option (Result RecvStreamRes Error) * State :=
  let '(r, st) := accept_stream_check c Uni st in
  (result_map (fun id => RecvStreamRes_new (stream_name c id)) <$> r, st).

End Streams.
