(* ===== verification/StreamsInv.v ===== *)
(** The stream resources' contracts: writes never overlap and deliver exactly
    their bytes, a FIN never truncates a write in flight, an abandoned stream is
    reset, and a receive stream's end is latched. *)
From S2P Require Import Prelude RelayFrames Types Noq State StateInv Drain DrainInv Rely.
From S2P Require Import Connection Streams.

Section SendStreams.
Context {N : Noq}.

(** ** Claims of the send stream *)

(** What can happen to a send stream and the state around it: calls, polls of
    the calls in flight, cancellations, and other tasks changing the state. *)
Inductive send_step : SendStreamRes * State -> SendStreamRes * State -> Prop :=
| ss_write b s s' st : write_call b s = Ok s' -> send_step (s, st) (s', st)
| ss_write_via s s' st : write_via_call s = Ok s' -> send_step (s, st) (s', st)
| ss_advance s s' st st' op ops data r :
    s_ops s ≡ₚ op :: ops -> write_advance op data ops s st = Done (r, s', st') ->
    send_step (s, st) (s', st')
| ss_cancel s st op ops :
    s_ops s ≡ₚ op :: ops -> send_step (s, st) (write_end (s <| s_ops := ops |>), st)
| ss_finish s s' st st' r : finish s st = (r, s', st') -> send_step (s, st) (s', st')
| ss_reset s s' st st' code : reset code s st = (s', st') -> send_step (s, st) (s', st')
| ss_others s st st' : send_step (s, st) (s, st').

(** At most one call is in flight, the flag says whether one is, and only a
    claimed stream has its writes taken. *)
Record send_inv (s : SendStreamRes) : Prop := {
  si_one : s_ops s = [] \/ exists op, s_ops s = [op];
  si_flag : writing s = negb (bool_decide (s_ops s = []));
  si_plain b o : Writing b o ∈ s_ops s -> s_streaming s = false;
}.

Lemma send_inv_new n : send_inv (SendStreamRes_new n).
Proof. constructor; [by left|done|]. intros b o Hin. by apply not_elem_of_nil in Hin. Qed.

Lemma one_perm (l : list WriteOp) op ops :
  (l = [] \/ exists o, l = [o]) -> l ≡ₚ op :: ops -> l = [op] /\ ops = [].
Proof.
  intros [->|[o ->]] Hp; [by apply Permutation_nil_cons in Hp|].
  apply Permutation_singleton_l in Hp. by simplify_eq.
Qed.

Lemma do_finish_frame s st :
  let s' := (do_finish s st).1.2 in
  s_ops s' = s_ops s /\ writing s' = writing s /\ s_streaming s' = s_streaming s /\
  s_name s' = s_name s /\ ended s' = true.
Proof.
  unfold do_finish. repeat case_match; simplify_eq/=; done.
Qed.

Lemma send_inv_frame s s' :
  send_inv s -> s_ops s' = s_ops s -> writing s' = writing s -> s_streaming s' = s_streaming s ->
  send_inv s'.
Proof. intros [] Ho Hw Hs. constructor; rewrite ?Ho, ?Hw, ?Hs; done. Qed.

(** A call that stays in flight, or one that ends. *)
Lemma send_inv_park s op :
  writing s = true -> (forall b o, op = Writing b o -> s_streaming s = false) ->
  send_inv (s <| s_ops := [op] |>).
Proof.
  intros Hw Hp. constructor; simpl; [eauto|done|]. intros b o Hin%list_elem_of_singleton. eauto.
Qed.
Lemma send_inv_end s : send_inv (write_end (s <| s_ops := [] |>)).
Proof. constructor; simpl; [by left|done|]. intros b o Hin. by apply not_elem_of_nil in Hin. Qed.

Lemma write_advance_inv op data s st r s' st' :
  send_inv s -> s_ops s = [op] -> write_advance op data [] s st = Done (r, s', st') -> send_inv s'.
Proof.
  intros [_ Hf Hp] Hops. rewrite Hops in *. simpl in Hf.
  assert (forall st, send_inv (do_finish (write_end (s <| s_ops := [] |>)) st).1.2) as Hfin.
  { intros st0. destruct (do_finish_frame (write_end (s <| s_ops := [] |>)) st0) as (? & ? & ? & _).
    by eapply send_inv_frame; [apply (send_inv_end s)|..]. }
  destruct op as [b o| |b o last]; simpl.
  - destruct (write_check (s_name s) b o st) as [[[[r0|] o'] st1]| |]; intros; simplify_eq/=.
    + apply send_inv_end.
    + apply send_inv_park; [done|]. intros ? ? [= -> ->]. eapply Hp. by left.
  - destruct data as [[[|b0 b] [|]]|]; intros; simplify_eq/=;
      try (apply send_inv_park; done).
    specialize (Hfin st). destruct (do_finish _ st) as [[r0 s0] st0]. by simplify_eq/=.
  - destruct (write_check (s_name s) b o st) as [[[[[?|e]|] o'] st1]| |]; intros; simplify_eq/=.
    + destruct last.
      * specialize (Hfin st1). destruct (do_finish _ st1) as [[r0 s0] st0]. by simplify_eq/=.
      * simplify_eq/=. by apply send_inv_park.
    + apply send_inv_end.
    + by apply send_inv_park.
Qed.

Lemma send_step_inv x y : send_inv x.1 -> send_step x y -> send_inv y.1.
Proof.
  intros Hi Hstep. destruct Hstep as [b s s' st Hc|s s' st Hc|s s' st st' op ops data r Hp Ha
    |s st op ops Hp|s s' st st' r Hf|s s' st st' code Hr|s st st']; simpl in *.
  - unfold write_call in Hc. destruct (s_streaming s) eqn:Hs, (writing s) eqn:Hw; simplify_eq.
    destruct Hi as [Ho Hf Hp]. rewrite Hw in Hf. case_bool_decide as Hn; [|done].
    constructor; simpl; rewrite Hn; simpl; [eauto|done|done].
  - unfold write_via_call in Hc. destruct (s_streaming s) eqn:Hs, (writing s) eqn:Hw; simplify_eq.
    destruct Hi as [Ho Hf Hp]. rewrite Hw in Hf. case_bool_decide as Hn; [|done].
    constructor; simpl; rewrite Hn; simpl; [eauto|done|]. intros b o Hin%list_elem_of_singleton. done.
  - destruct (one_perm _ _ _ (si_one _ Hi) Hp) as [Hops ->]. by eapply write_advance_inv.
  - destruct (one_perm _ _ _ (si_one _ Hi) Hp) as [Hops ->]. apply send_inv_end.
  - unfold finish in Hf. destruct (s_streaming s) eqn:Hs, (writing s) eqn:Hw; simplify_eq; try done.
    destruct (do_finish_frame s st) as (? & ? & ? & _). rewrite Hf in *. by eapply send_inv_frame.
  - assert (s' = s <| ended := true |>) as -> by (unfold reset in Hr; case_match; by simplify_eq/=).
    by eapply send_inv_frame.
  - done.
Qed.

Lemma send_reach_inv n x st : rtc send_step (SendStreamRes_new n, st) x -> send_inv x.1.
Proof.
  intros Hr. assert (send_inv (SendStreamRes_new n, st).1) as Hi by apply send_inv_new.
  induction Hr as [|x y z Hs _ IH]; [done|]. apply IH. by eapply send_step_inv.
Qed.


(** The drop contract of a send stream: a stream that was neither finished
    nor reset is reset with code 0, so the peer is not left waiting; one that
    was is left alone, so a pending FIN is not replaced; and every path that
    finishes or resets the stream is recorded, also when it fails. *)
Theorem send_stream_drop_contract s st code :
  ended (do_finish s st).1.2 = true /\ ended (reset code s st).1 = true /\
  (ended s = true -> send_stream_drop s st = st) /\
  (ended s = false ->
     match entry_for st (sn_handle (s_name s)) (sn_epoch (s_name s)) with
     | Some e => send_stream_drop s st = kick_pump (set_entry (sn_handle (s_name s))
                   (e <| conn ::= send_reset (sn_id (s_name s)) 0 |>) st)
     | None => send_stream_drop s st = st
     end).
Proof.
  split; [by apply do_finish_frame|]. split; [unfold reset; by case_match|].
  unfold send_stream_drop, reset. split; intros ->; [done|]. simpl. by destruct (entry_for st _ _).
Qed.

(** ** What a write delivers *)
Context {SL : StreamLaws}.

Lemma write_loop_done fuel id b offset c :
  (offset <= length b)%nat -> (length b - offset < fuel)%nat ->
  exists r offset' c', write_loop fuel id b offset c = Done (r, offset', c') /\
    (offset <= offset' <= length b)%nat /\
    stream_sent id c' = stream_sent id c ++ take (offset' - offset) (drop offset b) /\
    (r = Some (Ok tt) -> offset' = length b).
Proof.
  revert offset c. induction fuel as [|fuel IH]; intros offset c Ho Hf; [lia|]. cbn [write_loop].
  unfold slice_from. rewrite decide_True by done. cbn [run_bind].
  destruct (send_write id (drop offset b) c) as [[written|[|code|]] c1] eqn:E.
  2-4: apply write_err in E; eexists _, offset, c1;
    rewrite Nat.sub_diag, E, app_nil_r; split_and!; [done|lia|lia|done|done].
  apply write_ok in E as [Hw Hs]. rewrite length_drop in Hw.
  assert (stream_sent id c1 =
    stream_sent id c ++ take (offset + written - offset) (drop offset b)) as Hs1
    by (rewrite Hs; do 2 f_equal; lia).
  case_decide; [eexists _, _, c1; split_and!; [done|lia|lia|done|done]|].
  case_decide; [eexists _, _, c1; split_and!; [done|lia|lia|done|done]|].
  destruct (IH (offset + written)%nat c1) as (r & o' & c' & Hrun & Hb & Hs2 & Hr); [lia..|].
  exists r, o', c'. split_and!; [done|lia|lia| |done]. rewrite Hs2, Hs1, <- app_assoc. f_equal.
  replace (offset + written - offset)%nat with written by lia.
  replace (o' - offset)%nat with (written + (o' - (offset + written)))%nat by lia.
  by rewrite <- take_take_drop, drop_drop.
Qed.

(** The bytes the stream of [s] has accepted, on a connection that is there. *)
Definition accepted (s : StreamName) (st : State) : option bytes :=
  (fun e => stream_sent (sn_id s) (conn e)) <$> entry_for st (sn_handle s) (sn_epoch s).

Lemma accepted_kick s st : accepted s (kick_pump st) = accepted s st.
Proof. unfold accepted, kick_pump, entry_for. simpl. by destruct (pump_waker st). Qed.

Lemma accepted_set s st e c :
  entry_for st (sn_handle s) (sn_epoch s) = Some e ->
  accepted s (set_entry (sn_handle s) (e <| conn := c |>) st) = Some (stream_sent (sn_id s) c).
Proof.
  intros [_ He]%entry_for_Some. unfold accepted, entry_for, set_entry. simpl.
  rewrite lookup_insert_eq. simpl. by rewrite He, Z.eqb_refl.
Qed.

Lemma write_check_spec s b offset st sent0 :
  (offset <= length b)%nat -> accepted s st = Some sent0 ->
  exists r offset' st', write_check s b offset st = Done (r, offset', st') /\
    (offset <= offset' <= length b)%nat /\
    accepted s st' = Some (sent0 ++ take (offset' - offset) (drop offset b)) /\
    (r = Some (Ok tt) -> offset' = length b).
Proof.
  intros Ho Hs. unfold write_check. unfold accepted in Hs.
  destruct (entry_for st (sn_handle s) (sn_epoch s)) as [e|] eqn:He; [|done]. simpl in Hs.
  destruct (error e).
  { eexists _, offset, st. rewrite Nat.sub_diag, app_nil_r. split_and!; [done|lia|lia| |done].
    unfold accepted. by rewrite He. }
  destruct (write_loop_done (S (length b)) (sn_id s) b offset (conn e))
    as (r & o' & c & -> & Hb & Hsent & Hr); [lia..|].
  cbn [run_bind]. eexists r, o', _. split_and!; [done|lia|lia| |done].
  simplify_eq. case_match; rewrite ?accepted_kick, (accepted_set _ _ e) by done; by rewrite Hsent.
Qed.

(** A call of [write] from poll to poll: between two polls other tasks run, but
    as only this call writes the stream, what it accepted stays. *)
Inductive write_run (s : StreamName) (b : bytes) : nat -> State -> Result unit Error -> State -> Prop :=
| wr_done offset st r offset' st' :
    write_check s b offset st = Done (Some r, offset', st') -> write_run s b offset st r st'
| wr_park offset st offset' st1 st2 r st' :
    write_check s b offset st = Done (None, offset', st1) -> accepted s st2 = accepted s st1 ->
    write_run s b offset' st2 r st' -> write_run s b offset st r st'.

Lemma write_run_sent s b offset st r st' sent0 :
  write_run s b offset st r st' -> (offset <= length b)%nat -> accepted s st = Some sent0 ->
  exists n, (n <= length b - offset)%nat /\ accepted s st' = Some (sent0 ++ take n (drop offset b)) /\
    (r = Ok tt -> n = (length b - offset)%nat).
Proof.
  intros Hrun. revert sent0.
  induction Hrun as [offset st r offset' st' Hc|offset st offset' st1 st2 r st' Hc Hst _ IH];
    intros sent0 Ho Hs;
    destruct (write_check_spec s b offset st sent0 Ho Hs) as (r1 & o1 & s1 & Hc1 & Hb & Hs1 & Hr1);
    rewrite Hc in Hc1; simplify_eq.
  - exists (o1 - offset)%nat. split_and!; [lia|done|]. intros ->. rewrite Hr1 by done. done.
  - rewrite Hs1 in Hst. destruct (IH _ ltac:(lia) Hst) as (n & Hn & Hs2 & Hr).
    exists ((o1 - offset) + n)%nat. split_and!; [lia| |intros Hok; specialize (Hr Hok); lia].
    rewrite Hs2, <- app_assoc. do 2 f_equal.
    rewrite <- take_take_drop, drop_drop. do 3 f_equal. lia.
Qed.

(** C17. A write delivers its bytes exactly: however the call is broken up by
    flow control, when it succeeds the stream has accepted exactly the given
    bytes after what it had, in order, none twice and none missing; when it
    fails it has accepted a prefix of them; and each poll terminates without a
    panic. *)
Theorem write_exact s b st r st' sent0 :
  accepted s st = Some sent0 -> write_run s b 0 st r st' ->
  (exists n, accepted s st' = Some (sent0 ++ take n b) /\ (r = Ok tt -> take n b = b)) /\
  (forall offset st1, (offset <= length b)%nat -> is_Some (accepted s st1) ->
     exists x, write_check s b offset st1 = Done x).
Proof.
  intros Hs Hrun. split.
  - destruct (write_run_sent _ _ _ _ _ _ _ Hrun ltac:(lia) Hs) as (n & Hn & Hs' & Hr).
    rewrite drop_0 in Hs'. exists n. split; [done|]. intros Hok. rewrite Hr by done.
    apply take_ge. lia.
  - intros offset st1 Ho [s1 Hs1]. destruct (write_check_spec s b offset st1 s1 Ho Hs1) as (? & ? & ? & -> & _).
    eauto.
Qed.

End SendStreams.

Section RecvStreams.
Context {N : Noq}.

(** ** Claims and the latch of the receive stream *)

Inductive recv_step : RecvStreamRes * State -> RecvStreamRes * State -> Prop :=
| rs_read max r r' st : read_call max r = inr r' -> recv_step (r, st) (r', st)
| rs_advance max ops r r' st st' result :
    r_ops r ≡ₚ max :: ops -> read_advance max ops r st = (result, r', st') ->
    recv_step (r, st) (r', st')
| rs_cancel max ops r st :
    r_ops r ≡ₚ max :: ops ->
    recv_step (r, st) (r <| r_ops := ops |> <| reading := false |>, st)
| rs_read_via r r' st : read_via_call r = Ok r' -> recv_step (r, st) (r', st)
| rs_stop r st code : recv_step (r, st) (r, stop code r st)
| rs_others r st st' : recv_step (r, st) (r, st').

Record recv_inv (r : RecvStreamRes) : Prop := {
  rc_one : r_ops r = [] \/ exists max, r_ops r = [max];
  rc_flag : reading r = negb (bool_decide (r_ops r = []));
  rc_pos max : max ∈ r_ops r -> (0 < max)%nat;
  rc_terminal : is_Some (terminal r) -> r_ops r = [];
}.

Lemma recv_inv_new n : recv_inv (RecvStreamRes_new n).
Proof. constructor; [by left|done| |by intros []]. intros max Hin. by apply not_elem_of_nil in Hin. Qed.

Lemma recv_inv_end r t :
  recv_inv (r <| r_ops := [] |> <| terminal := t |> <| reading := false |>).
Proof. constructor; simpl; [by left|done| |done]. intros max Hin. by apply not_elem_of_nil in Hin. Qed.

Lemma one_read (l : list nat) max ops :
  (l = [] \/ exists o, l = [o]) -> l ≡ₚ max :: ops -> l = [max] /\ ops = [].
Proof.
  intros [->|[o ->]] Hp; [by apply Permutation_nil_cons in Hp|].
  apply Permutation_singleton_l in Hp. by simplify_eq.
Qed.

Lemma latch_terminal result r : exists t, latch result r = r <| terminal := t |>.
Proof.
  destruct result as [[b|]|e]; simpl; [|by eexists..]. exists (terminal r). by destruct r.
Qed.

Lemma recv_step_inv x y :
  recv_inv x.1 -> recv_step x y ->
  recv_inv y.1 /\ (forall t, terminal x.1 = Some t -> terminal y.1 = Some t).
Proof.
  intros Hi Hstep. destruct Hstep as [max r r' st Hc|max ops r r' st st' result Hp Ha
    |max ops r st Hp|r r' st Hc|r st code|r st st']; simpl in *.
  - unfold read_call in Hc. destruct (r_streaming r), (terminal r) as [t|] eqn:Ht; simplify_eq.
    case_decide; simplify_eq. destruct (reading r) eqn:Hw; simplify_eq.
    destruct Hi as [Ho Hf Hpos Hte]. rewrite Hw in Hf. case_bool_decide as Hn; [|done].
    split; [|done]. constructor; simpl; rewrite ?Hn; simpl; [eauto|done| |].
    + intros m ->%list_elem_of_singleton. lia.
    + rewrite Ht. by intros [].
  - destruct (one_read _ _ _ (rc_one _ Hi) Hp) as [Hops ->]. pose proof Hi as [_ Hf Hpos Hte].
    assert (terminal r = None) as Hnone.
    { destruct (terminal r); [|done]. rewrite Hte in Hops; [done|eauto]. }
    rewrite Hnone. split; [|done]. unfold read_advance in Ha.
    destruct (read_check (r_name r) max st) as [[res|] st1]; simplify_eq.
    + destruct (latch_terminal res (r <| r_ops := [] |>)) as [t ->]. apply (recv_inv_end r t).
    + rewrite Hops in Hf. constructor; simpl; [eauto|done| |rewrite Hnone; by intros []].
      rewrite Hops in Hpos. done.
  - destruct (one_read _ _ _ (rc_one _ Hi) Hp) as [Hops ->]. split; [|done].
    apply (recv_inv_end r (terminal r)).
  - unfold read_via_call in Hc. case_match; simplify_eq. split; [|done]. by destruct Hi.
  - done.
  - done.
Qed.

Lemma recv_reach x y :
  recv_inv x.1 -> rtc recv_step x y ->
  recv_inv y.1 /\ (forall t, terminal x.1 = Some t -> terminal y.1 = Some t).
Proof.
  intros Hi Hr. induction Hr as [x|x y z Hs _ IH]; [done|].
  destruct (recv_step_inv _ _ Hi Hs) as [Hi' Ht]. destruct (IH Hi') as [? ?]. auto.
Qed.


(** What one poll of a read returns: bytes that noq has for the stream are
    delivered also when the connection has failed already (and the pump is
    kicked to flush the freed credit); a connection's failure is reported, not
    turned into an end, when nothing is readable before the FIN; the peer's
    reset is reported with its code; only a parked call has no result; and a
    resource whose connection is gone reads [closed] and changes nothing. *)
Theorem read_outcomes n max st :
  match entry_for st (sn_handle n) (sn_epoch n) with
  | None => read_check n max st = (Some (Err Closed), st)
  | Some e =>
      let r := (read_check n max st).1 in
      match (recv_chunk (sn_id n) max (conn e)).1 with
      | Ok (Ok (Some b)) =>
          r = Some (Ok (Some b)) /\ pump_kicked (read_check n max st).2 = true
      | Ok (Ok None) => r = Some (Ok None) /\ pump_kicked (read_check n max st).2 = true
      | Ok (Err RBlocked) => r = Err <$> error e
      | Ok (Err (RReset code)) => r = Some (Err (Reset code))
      | Err RClosedStream =>
          r = Some match error e with Some err => Err err | None => Ok None end
      | Err RIllegalOrderedRead => r = Some (Err (Other "illegal ordered read"))
      end
  end.
Proof.
  unfold read_check. destruct (entry_for st _ _) as [e|]; [|done].
  assert (forall s, pump_kicked (kick_pump s) = true) as Hk
    by (intros s; unfold kick_pump; simpl; by destruct (pump_waker s)).
  destruct (recv_chunk (sn_id n) max (conn e)) as [[[[b|]|[|code]]|[|]] c]; simpl; auto.
Qed.

(** A [read] that reported the peer's reset leaves its outcome in the latch,
    but [read-via-stream] does not consult the latch: on the stream noq has
    retired it reports the clean end. *)
Theorem read_via_after_reset n st e code r dropped :
  entry_for st (sn_handle n) (sn_epoch n) = Some e -> error e = None ->
  (recv_chunk (sn_id n) VIA_CHUNK (conn e)).1 = Err RClosedStream ->
  r_name r = n -> terminal r = Some (Err (Reset code)) -> r_streaming r = false ->
  read_call 1 r = inl (Err (Reset code)) /\
  exists r', read_via_call r = Ok r' /\
    (via_stream (r_name r') [(st, dropped)]) = ([], Some (Ok tt)).
Proof.
  intros He Herr Hc Hn Ht Hs. split; [unfold read_call; by rewrite Hs, Ht|].
  unfold read_via_call. rewrite Hs. eexists. split; [done|]. cbn [r_name via_stream].
  change (r_name (r <| r_streaming := true |>)) with (r_name r). rewrite Hn.
  assert ((read_check n VIA_CHUNK st).1 = Some (Ok None)) as ->; [|done].
  unfold read_check. rewrite He. destruct (recv_chunk _ _ _) as [res c]. simpl in Hc. subst res.
  by rewrite Herr.
Qed.

(** Nor does it consult the claim of a [read] in flight. *)
Theorem read_via_ignores_read_in_flight r :
  reading r = true -> r_streaming r = false -> exists r', read_via_call r = Ok r' /\ reading r' = true.
Proof. intros Hr Hs. unfold read_via_call. rewrite Hs. by eexists. Qed.

End RecvStreams.
