(* ===== verification/Endpoint.v ===== *)
(** The endpoint resource ([EndpointRes], [EndpointOptionsRes] and their guards
    in [endpoint/src/endpoint_impl.rs]): options, [bind], relay claims,
    [connect], [accept] and [close]. An async method is split at its awaits;
    what a third party or a dial yields is an argument. *)
From S2P Require Import Prelude RelayFrames RelayConn Types Udp Noq Identity State StateInv.
From S2P Require Import Drain DrainInv Rely Redial Pump Connection Streams.

(** ** The transport profile

    What [transport_config] sets of noq's configuration, for every connection, in
    both directions; the rest is noq's default. *)
Definition KEEP_ALIVE_INTERVAL : Duration := from_secs 5.

Record TransportConfig := MkTransportConfig {
  keep_alive_interval : option Duration;
  initial_mtu : Z;
  mtu_upper_bound : Z;
}.
Definition transport_config : TransportConfig :=
  MkTransportConfig (Some KEEP_ALIVE_INTERVAL) 1200 MTU_CEILING.

(** Discovery searches from QUIC's floor to a ceiling that [max_udp_payload_size]
    takes, so [bind]'s [expect] holds; six keep-alives fit the idle timeout. *)
Lemma transport_bounds :
  let c := transport_config in
  1200 <= initial_mtu c <= mtu_upper_bound c /\ mtu_upper_bound c <= 65527 /\
  option_map (Z.mul 6) (keep_alive_interval c) = Some (from_secs 30).
Proof. cbv zeta. unfold transport_config, MTU_CEILING. cbn. split_and!; (lia || done). Qed.

(** ** [endpoint-options] *)

Section Options.
Context {C : Crypto}.

(** An [Rc<CoreIdentity>] is shared and immutable: its value. *)
Record OptionsState := MkOptions {
  identity : Identity;
  alpns : list bytes;
  o_relay_url : option string;
  o_udp_bind_addr : option string;
  o_webrtc : bool;
}.
#[export] Instance OptionsState_eta : Eta OptionsState := fun o =>
  MkOptions (identity o) (alpns o) (o_relay_url o) (o_udp_bind_addr o) (o_webrtc o).

Definition options_new (id : Identity) : OptionsState := MkOptions id [] None None false.
Definition add_alpn (alpn : bytes) (o : OptionsState) : OptionsState :=
  o <| alpns ::= fun l => l ++ [alpn] |>.
Definition set_relay_url (url : string) (o : OptionsState) : OptionsState :=
  o <| o_relay_url := Some url |>.
Definition set_udp_bind_addr (addr : string) (o : OptionsState) : OptionsState :=
  o <| o_udp_bind_addr := Some addr |>.
Definition set_webrtc (enabled : bool) (o : OptionsState) : OptionsState := o <| o_webrtc := enabled |>.

(** [EndpointRes], beside the shared state. *)
Record EndpointRes := MkEndpointRes {
  ep_identity : Identity;
  ep_udp : option UdpWire;
}.
Definition id (r : EndpointRes) : bytes := array_bytes (endpoint_id (ep_identity r)).
Definition direct_addr (r : EndpointRes) : option SocketAddr := local_addr <$> ep_udp r.

End Options.

(** What a dial tries, picked from the address entries. *)
Record DialPath := MkDialPath {
  direct : option SocketAddr;
  dial_url : option string;
  webrtc_hint : option string;
}.
#[export] Instance DialPath_eta : Eta DialPath := fun d =>
  MkDialPath (direct d) (dial_url d) (webrtc_hint d).

Definition dial_entry (webrtc_enabled has_udp : bool) (d : DialPath) (entry : TransportAddr) : DialPath :=
  match entry with
  | Relay url => match dial_url d with None => d <| dial_url := Some url |> | Some _ => d end
  | Ip text =>
      match direct d with
      | None => if has_udp then d <| direct := parse_socket_addr text |> else d
      | Some _ => d
      end
  | Webrtc url =>
      if webrtc_enabled then
        match webrtc_hint d with None => d <| webrtc_hint := Some url |> | Some _ => d end
      else d
  | Custom _ _ => d
  end.
Definition dial_path (webrtc_enabled has_udp : bool) (addrs : list TransportAddr) : DialPath :=
  foldl (dial_entry webrtc_enabled has_udp) (MkDialPath None None None) addrs.

Section Endpoint.
Context {N : Noq} {C : Crypto}.

(** ** [bind]

    The dial's outcome, the two random fills, the TLS and QUIC configurations
    (by their failure), noq's endpoint and the socket's bind are arguments. The
    relay connection is allocated at address 0. *)
Definition bind (now : Instant) (o : OptionsState)
    (dialed : string -> Identity -> Result RelayConn DialError)
    (reset_key token_master : Result unit string)
    (server_tls : Identity -> list bytes -> Result unit string) (quic_tls : Result unit string)
    (noq_new : Endpoint) (udp_bound : string -> Result UdpWire Error) : Result (EndpointRes * Pump) Error :=
  let? relay_url := ok_or (InvalidArgument "bind requires a relay-url (the relay wire is the only path yet)")
                      (o_relay_url o) in
  match alpns o with
  | [] => Err (InvalidArgument "bind requires at least one alpn")
  | _ =>
      let? relay := map_err (fun e => match e with
                                      | DialTimedOut => TimedOut "relay dial timed out"
                                      | DialFailed e => ConnectFailed e
                                      end) (dialed relay_url (identity o)) in
      let? _ := map_err other reset_key in
      let? _ := map_err other token_master in
      let? _ := map_err other (server_tls (identity o) (alpns o)) in
      let? _ := map_err (fun e => Other ("server quic config: " +:+ e)) quic_tls in
      let? udp := match o_udp_bind_addr o with
                  | Some addr => result_map Some (udp_bound addr)
                  | None => Ok None
                  end in
      let st := State_new noq_new (o_webrtc o) in
      let '(_, st) := register_relay relay_url 0 st in
      Ok (MkEndpointRes (identity o) udp, pump_start now st {[ 0 := relay ]} udp)
  end.

(** ** [ensure_relay]

    Up to its first await: an answer, the claim of the open, or another
    caller's open to wait for. *)
Inductive EnsureRelay :=
| EnsureDone (r : Result Z Error)
| EnsureClaimed
| EnsureWait.

Definition ensure_relay (url : string) (st : State) : EnsureRelay * State :=
  let normalized := normalize_relay_url url in
  match relay_keys st !! normalized with
  | Some key => (EnsureDone (Ok key), st)
  | None =>
      if closed st then (EnsureDone (Err Closed), st)
      else
        (if decide (normalized ∈ relay_opening st) then EnsureWait else EnsureClaimed,
         st <| relay_opening ::= fun s => {[ normalized ]} ∪ s |>)
  end.

(** The claimed open's end; the connection is allocated at [c]. *)
Definition ensure_relay_opened (url : string) (c : RelayRef) (opened : Result unit DialError)
    (st : State) : Result Z Error * State :=
  let st := wake_waiters (st <| relay_opening ::= fun s => s ∖ {[ normalize_relay_url url ]} |>) in
  match opened with
  | Ok _ => let '(key, st) := register_relay url c st in (Ok key, st)
  | Err DialTimedOut => (Err (TimedOut ("relay " +:+ url +:+ ": dial timed out")), st)
  | Err (DialFailed e) => (Err (ConnectFailed ("relay " +:+ url +:+ ": " +:+ e)), st)
  end.

Definition OPEN_WAIT : Duration := from_secs 30.

Definition ensure_relay_check (now started : Instant) (normalized : string) (st : State)
    : option (Result Z Error) :=
  match relay_keys st !! normalized with
  | Some key => Some (Ok key)
  | None =>
      if decide (normalized ∉ relay_opening st) then
        Some (Err (ConnectFailed "a concurrent open of this relay failed"))
      else if closed st then Some (Err Closed)
      else if OPEN_WAIT <? duration_since now started then Some (Err (TimedOut "relay open timed out"))
      else None
  end.

(** [impl Drop for RelayClaim], while armed. *)
Definition relay_claim_drop (normalized : string) (st : State) : State :=
  wake_waiters (st <| relay_opening ::= fun s => s ∖ {[ normalized ]} |>).

(** ** [connect]

    The stretch from the resolved pool keys to the dialed connection. *)
Definition follow_dial (standin : SocketAddr) (dial_key : Z) (st : State) : State :=
  match routes st !! standin with
  | Some (RouteRelay _) => st <| routes ::= <[standin := RouteRelay dial_key]> |>
  | _ => st
  end.

Definition connect_dial (now : Instant) (config : ClientConfig) (p : EndpointId)
    (real : option SocketAddr) (dial_key : Z) (upgrade_key : option Z) (st : State)
    : Result (ConnectionHandle * Z) Error * State :=
  if closed st then (Err Closed, st)
  else
    let '(remote, st) :=
      match real with
      | Some real => (real, st)
      | None => let '(standin, st) := addr_for_peer p dial_key st in
                (standin, follow_dial standin dial_key st)
      end in
    let '(r, ep) := ep_connect now config remote (noq st) in
    let st := st <| noq := ep |> in
    match r with
    | Err e => (Err (ConnectFailed e), st)
    | Ok (h, c) =>
        let ep := next_conn_epoch st in
        let st := st <| next_conn_epoch := wrap64 (ep + 1) |>
                     <| conns ::= <[h := ConnEntry_new c (Some p) false ep]> |> in
        let st := match upgrade_key with
                  | Some key => st <| pending_upgrades ::= fun l => l ++ [(p, key)] |>
                  | None => st
                  end in
        (Ok (h, ep), kick_pump st)
    end.

(** The whole of [connect] up to its wait: the pool keys its [ensure_relay]
    calls gave are [dial_key] and [upgrade_key] (the home relay and none
    without such calls); [tls] is the client configuration. *)
Definition connect_keys (d : DialPath) : option string * option string :=
  match direct d with
  | None => (dial_url d, webrtc_hint d)
  | Some _ => (None, None)
  end.

Definition connect (now : Instant) (has_udp : bool) (addr : EndpointAddr)
    (ensured : string -> Result Z Error) (tls : Result ClientConfig string) (quic : Result unit string)
    (st : State) : Result (ConnectionHandle * Z) Error * State :=
  match try_into 32 (ea_endpoint_id addr) with
  | None => (Err (InvalidArgument "endpoint id is not 32 bytes"), st)
  | Some p =>
      let d := dial_path (webrtc_enabled st) has_udp (ea_addrs addr) in
      let '(relay, hint) := connect_keys d in
      let keys :=
        let? dial_key := match relay with Some url => ensured url | None => Ok HOME_RELAY end in
        let? upgrade_key := match hint with
                            | Some url => result_map Some (ensured url)
                            | None => Ok None
                            end in
        let? config := map_err other tls in
        let? _ := map_err (fun e => Other ("client quic config: " +:+ e)) quic in
        Ok (dial_key, upgrade_key, config) in
      match keys with
      | Err e => (Err e, st)
      | Ok (dial_key, upgrade_key, config) =>
          connect_dial now config p (direct d) dial_key upgrade_key st
      end
  end.

(** A dial that dies before connecting. *)
Definition connect_error (e : Error) : Error :=
  match e with
  | Closed => Closed
  | TimedOut msg => TimedOut msg
  | Other msg => ConnectFailed msg
  | other => other
  end.

Definition connect_check (h : ConnectionHandle) (ep : Z) (st : State) : option (Result unit Error) :=
  match entry_for st h ep with
  | None => Some (Err Closed)
  | Some entry =>
      match error entry with
      | Some err => Some (Err (connect_error err))
      | None => if connected entry then Some (Ok tt) else None
      end
  end.

(** [impl Drop for DialGuard], while armed. *)
Definition dial_guard_drop (now : Instant) (h : ConnectionHandle) (ep : Z) (st : State) : State :=
  match entry_for st h ep with
  | None => st
  | Some entry =>
      if live entry
      then kick_pump (set_entry h (entry <| conn ::= conn_close now 0 (str_bytes "connect cancelled") |>) st)
      else st
  end.

(** ** [accept] *)

(** The [while let] over the queue: the first stamp that names an entry, and
    the queue after it. *)
Fixpoint accept_scan (st : State) (queue : list (ConnectionHandle * Z))
    : option (ConnectionHandle * Z) * list (ConnectionHandle * Z) :=
  match queue with
  | [] => (None, [])
  | (h, ep) :: queue =>
      match entry_for st h ep with
      | Some _ => (Some (h, ep), queue)
      | None => accept_scan st queue
      end
  end.

Definition accept_check (st : State) : option (Result (ConnectionHandle * Z) Error) * State :=
  let '(found, queue) := accept_scan st (accept_queue st) in
  let st := st <| accept_queue := queue |> in
  match found with
  | Some stamp => (Some (Ok stamp), st)
  | None => (if closed st then Some (Err Closed) else None, st)
  end.

(** ** [close] and the drop *)

Definition endpoint_close (now : Instant) (st : State) : State :=
  if closed st then st
  else
    let st := st <| closed := true |> <| closed_at := Some now |> in
    wake_waiters (kick_pump (close_all now (str_bytes "endpoint closed") st)).

Definition endpoint_drop (now : Instant) (st : State) : State :=
  if closed st then st
  else
    let st := st <| closed := true |> <| closed_at := Some now |> in
    wake_waiters (kick_pump (close_all now (str_bytes "endpoint dropped") st)).

End Endpoint.
