(* ===== verification/EndpointInv.v ===== *)
(** Contracts of the endpoint's operations: dial-path selection, [connect],
    [accept], relay claims, [bind] and [close]. *)
From S2P Require Import Prelude RelayFrames RelayConn Types Udp Noq Identity State StateInv.
From S2P Require Import Drain DrainInv Rely Redial Pump PumpInv PumpTheory Connection Streams.
From S2P Require Import Endpoint.

Lemma dial_path_from enabled has_udp addrs d :
  foldl (dial_entry enabled has_udp) d addrs =
  MkDialPath
    (match direct d with
     | Some a => Some a
     | None => if has_udp
               then head (omap (fun e => match e with Ip t => parse_socket_addr t | _ => None end) addrs)
               else None
     end)
    (match dial_url d with
     | Some u => Some u
     | None => head (omap (fun e => match e with Relay u => Some u | _ => None end) addrs)
     end)
    (match webrtc_hint d with
     | Some u => Some u
     | None => if enabled
               then head (omap (fun e => match e with Webrtc u => Some u | _ => None end) addrs)
               else None
     end).
Proof.
  revert d. induction addrs as [|e addrs IH]; intros [dd du dw].
  - simpl. by destruct dd, du, dw, enabled, has_udp.
  - cbn [foldl]. rewrite IH. destruct e as [u|t|u|i b]; simpl.
    + by destruct du.
    + destruct dd, has_udp; simpl; try done. by destruct (parse_socket_addr t).
    + by destruct dw, enabled.
    + done.
Qed.

(** Dial-path selection: with a socket bound the first [ip] entry that
    parses wins and no relay is opened for the dial; otherwise the first [relay]
    entry names the relay to dial through, the home relay being used without
    one; the first [webrtc] entry is the upgrade hint, only on a relay-dialed
    connection and only with the wire enabled; unparseable [ip] and [custom]
    entries are skipped, never an error. *)
Theorem dial_path_choice enabled has_udp addrs :
  let d := dial_path enabled has_udp addrs in
  direct d = (if has_udp
              then head (omap (fun e => match e with Ip t => parse_socket_addr t | _ => None end) addrs)
              else None) /\
  connect_keys d =
    match direct d with
    | Some _ => (None, None)
    | None =>
        (head (omap (fun e => match e with Relay u => Some u | _ => None end) addrs),
         if enabled
         then head (omap (fun e => match e with Webrtc u => Some u | _ => None end) addrs)
         else None)
    end.
Proof.
  unfold connect_keys, dial_path. rewrite dial_path_from. simpl. split; [done|]. by case_match.
Qed.

Section EndpointTheory.
Context {N : Noq}.

(** ** Connecting *)

Lemma follow_dial_wf a k st :
  wf st -> is_Some (addr_to_peer st !! a) -> wf (follow_dial a k st).
Proof.
  intros Hwf Ha. unfold follow_dial. destruct (routes st !! a) as [[]|]; [|done..].
  wf_parts Hwf. by apply addr_inv_route.
Qed.

(** The part of [connect_dial] that picks the remote address. *)
Definition dial_remote (p : EndpointId) (real : option SocketAddr) (k : Z) (st : State)
    : SocketAddr * State :=
  match real with
  | Some real => (real, st)
  | None => let '(standin, st) := addr_for_peer p k st in (standin, follow_dial standin k st)
  end.

Lemma dial_remote_spec p real k st :
  wf st -> next_host st < u32_max ->
  let '(a, st') := dial_remote p real k st in
  wf st' /\ conns st' = conns st /\ next_conn_epoch st' = next_conn_epoch st /\
  (forall b, b <> a -> routes st' !! b = routes st !! b) /\
  match real with
  | Some r => a = r /\ st' = st
  | None =>
      peer_to_addr st' !! p = Some a /\
      routes st' !! a = match peer_to_addr st !! p with
                        | Some a0 => match routes st !! a0 with
                                     | Some (RouteChannel id) => Some (RouteChannel id)
                                     | _ => Some (RouteRelay k)
                                     end
                        | None => Some (RouteRelay k)
                        end
  end.
Proof.
  intros Hwf Hroom. unfold dial_remote. destruct real as [r|]; [done|].
  pose proof (addr_for_peer_wf p k st Hwf Hroom) as Hwf1.
  pose proof (addr_for_peer_spec p k st Hwf Hroom) as Hs.
  assert (routes (addr_for_peer p k st).2 !! (addr_for_peer p k st).1 =
    match peer_to_addr st !! p with
    | Some a0 => routes st !! a0 | None => Some (RouteRelay k) end) as Hroute.
  { unfold addr_for_peer. destruct (peer_to_addr st !! p); simpl; [done|]. apply lookup_insert_eq. }
  assert (conns (addr_for_peer p k st).2 = conns st /\
          next_conn_epoch (addr_for_peer p k st).2 = next_conn_epoch st) as [Hc He]
    by (unfold addr_for_peer; by case_match).
  destruct (addr_for_peer p k st) as [a st1]. simpl in *.
  destruct Hs as (Hpa & Hap & [w Hw] & _ & Hr & _).
  pose proof (follow_dial_wf a k st1 Hwf1 ltac:(eauto)) as Hwf2.
  unfold follow_dial in *. rewrite Hw in *.
  assert (forall x, Some x = match peer_to_addr st !! p with
    | Some a0 => routes st !! a0 | None => Some (RouteRelay k) end ->
    match peer_to_addr st !! p with
    | Some a0 => match routes st !! a0 with
                 | Some (RouteChannel id) => Some (RouteChannel id)
                 | _ => Some (RouteRelay k)
                 end
    | None => Some (RouteRelay k) end
    = match x with RouteChannel id => Some (RouteChannel id) | RouteRelay _ => Some (RouteRelay k) end) as Hx.
  { intros x. destruct (peer_to_addr st !! p); [by intros <-|by intros [= ->]]. }
  rewrite (Hx w Hroute). destruct w as [k0|id]; simpl in *; split_and!; try done.
  - intros b Hb. rewrite lookup_insert_ne; auto.
  - by rewrite lookup_insert_eq.
Qed.

Lemma connect_dial_eq now config p real k up st :
  connect_dial now config p real k up st =
  if closed st then (Err Closed, st)
  else
    let '(a, st1) := dial_remote p real k st in
    let '(r, ep) := ep_connect now config a (noq st1) in
    match r with
    | Err e => (Err (ConnectFailed e), st1 <| noq := ep |>)
    | Ok (h, c) =>
        (Ok (h, next_conn_epoch st1),
         kick_pump (st1 <| noq := ep |> <| next_conn_epoch := wrap64 (next_conn_epoch st1 + 1) |>
           <| conns ::= <[h := ConnEntry_new c (Some p) false (next_conn_epoch st1)]> |>
           <| pending_upgrades := pending_upgrades st1
                ++ option_list ((fun key => (p, key)) <$> up) |>))
    end.
Proof.
  unfold connect_dial, dial_remote. destruct (closed st); [done|].
  destruct real as [r|].
  - destruct (ep_connect now config r (noq st)) as [[[h c]|e] ep]; [|done].
    destruct up; simpl; [done|]. rewrite app_nil_r. by destruct st.
  - destruct (addr_for_peer p k st) as [a st1].
    destruct (ep_connect now config a _) as [[[h c]|e] ep]; [|done].
    destruct up; simpl; [done|]. rewrite app_nil_r. by destruct (follow_dial a k st1).
Qed.

(** C16. Dialing: on a closed endpoint [connect] fails with [closed] and changes
    nothing. Otherwise the table is left well-formed and, when noq takes the
    dial, holds a new entry under a fresh epoch that may only connect as the
    addressed peer; the pump is kicked. A direct dial touches no route; a relay
    dial moves the peer's route to the dialed relay, unless it is on a channel,
    which stays, and touches no other peer's route. *)
Theorem connect_dial_contract now config p real k up st :
  wf st -> next_host st < u32_max -> next_conn_epoch st < u64_max ->
  let '(r, st') := connect_dial now config p real k up st in
  if closed st then r = Err Closed /\ st' = st
  else
    wf st' /\
    (forall b, (real <> None \/ peer_to_addr st' !! p <> Some b) -> routes st' !! b = routes st !! b) /\
    (real = None -> exists a, peer_to_addr st' !! p = Some a /\
       routes st' !! a = match peer_to_addr st !! p ≫= fun a0 => routes st !! a0 with
                         | Some (RouteChannel id) => Some (RouteChannel id)
                         | _ => Some (RouteRelay k)
                         end) /\
    match r with
    | Ok (h, ep) =>
        ep = next_conn_epoch st /\ next_conn_epoch st' = ep + 1 /\ pump_kicked st' = true /\
        exists c, conns st' = <[h := ConnEntry_new c (Some p) false ep]> (conns st)
    | Err e => conns st' = conns st /\ exists msg, e = ConnectFailed msg
    end.
Proof.
  intros Hwf Hh He. rewrite connect_dial_eq. destruct (closed st) eqn:Hcl; [done|].
  pose proof (dial_remote_spec p real k st Hwf Hh) as Hs.
  destruct (dial_remote p real k st) as [a st1]. destruct Hs as (Hwf1 & Hc & Hep & Hr & Hreal).
  assert (forall b, real <> None \/ peer_to_addr st1 !! p <> Some b -> routes st1 !! b = routes st !! b)
    as Hroutes.
  { intros b Hb. destruct real as [r|]; [by destruct Hreal as [_ ->]|]. destruct Hb as [|Hb]; [done|].
    apply Hr. intros ->. by destruct Hreal. }
  assert (real = None -> exists a, peer_to_addr st1 !! p = Some a /\
       routes st1 !! a = match peer_to_addr st !! p ≫= fun a0 => routes st !! a0 with
                         | Some (RouteChannel id) => Some (RouteChannel id)
                         | _ => Some (RouteRelay k)
                         end) as Hmove.
  { intros ->. destruct Hreal as [Hp Hra]. exists a. split; [done|]. rewrite Hra.
    by destruct (peer_to_addr st !! p). }
  assert (forall s, conns (kick_pump s) = conns s /\ routes (kick_pump s) = routes s /\
    peer_to_addr (kick_pump s) = peer_to_addr s /\ next_conn_epoch (kick_pump s) = next_conn_epoch s /\
    pump_kicked (kick_pump s) = true) as Hk.
  { intros s. unfold kick_pump. simpl. by destruct (pump_waker s). }
  destruct (ep_connect now config a (noq st1)) as [[[h c]|e] ep].
  - match goal with |- context [kick_pump ?s] => destruct (Hk s) as (Hk1 & Hk2 & Hk3 & Hk4 & Hk5);
      assert (wf s) as Hwf2 end.
    { wf_parts Hwf1. pose proof (ci_next _ _ _ (wf_conn _ Hwf1)).
      rewrite wrap64_small by (unfold u64_max in *; lia). by apply conn_inv_fresh; [|congruence]. }
    rewrite Hk1, Hk2, Hk3, Hk4, Hk5. simpl. split_and!; [by apply kick_pump_wf|done|done|done| |done|].
    + pose proof (ci_next _ _ _ (wf_conn _ Hwf1)). rewrite wrap64_small; unfold u64_max in *; lia.
    + exists c. by rewrite Hep, Hc.
  - simpl. split_and!; [|done|done|done|eauto]. wf_parts Hwf1.
Qed.


(** ** Accepting *)

Lemma accept_scan_spec st q :
  let '(found, rest) := accept_scan st q in
  exists skipped, Forall (fun x => entry_for st x.1 x.2 = None) skipped /\
    match found with
    | Some stamp => q = skipped ++ stamp :: rest /\ is_Some (entry_for st stamp.1 stamp.2)
    | None => q = skipped /\ rest = []
    end.
Proof.
  induction q as [|[h ep] q IH]; [by exists []|]. cbn [accept_scan].
  destruct (entry_for st h ep) as [e|] eqn:E.
  - exists []. split; [constructor|]. simpl. rewrite E. eauto.
  - destruct (accept_scan st q) as [found rest]. destruct IH as (sk & Hsk & Hf).
    exists ((h, ep) :: sk). split; [by constructor|]. destruct found as [stamp|].
    + by destruct Hf as [-> ?].
    + by destruct Hf as [-> ->].
Qed.

Lemma accept_check_wf st : wf st -> wf (accept_check st).2.
Proof.
  intros Hwf. unfold accept_check. pose proof (accept_scan_spec st (accept_queue st)) as Hs.
  destruct (accept_scan st (accept_queue st)) as [found rest]. destruct Hs as (sk & _ & Hf).
  assert (rest ⊆ accept_queue st) as Hsub.
  { destruct found; destruct Hf as [Heq ?]; [rewrite Heq|subst rest]; set_solver. }
  destruct Hwf as [Ha Hr Hsi [Hn He Hq Hrd Hau]].
  destruct found; (constructor; simpl; [done|done|done|]); constructor; simpl; try done; eauto.
Qed.

(** What [accept] takes: the first stamp that names its connection. *)
Lemma accept_check_takes st x st' :
  wf st -> accept_check st = (Some (Ok x), st') ->
  st' = st <| accept_queue := accept_queue st' |> /\
  exists skipped e, Forall (fun y => entry_for st y.1 y.2 = None) skipped /\
    accept_queue st = skipped ++ x :: accept_queue st' /\ entry_for st x.1 x.2 = Some e /\
    accepted_side e = true /\ connected e = true /\ is_Some (peer e).
Proof.
  intros Hwf. unfold accept_check. pose proof (accept_scan_spec st (accept_queue st)) as Hs.
  destruct (accept_scan st (accept_queue st)) as [[stamp|] rest]; [|by case_match].
  destruct Hs as (sk & Hsk & Hq & e & He). intros [= -> <-]. split; [done|]. exists sk, e.
  pose proof He as [Hlook Hep]%entry_for_Some.
  destruct (ci_ready _ _ _ (wf_conn _ Hwf) x.1 x.2 e) as [Ha Hc]; [|done|done|].
  { rewrite Hq. destruct x. set_solver. }
  destruct (ci_auth _ _ _ (wf_conn _ Hwf) _ _ Hlook Hc) as (id & Hid & _). split_and!; eauto.
Qed.

(** [accept] hands out connections in the order they became ready, each
    queue entry at most once: it skips the stamps whose slot was reused or is
    gone and takes the first that still names its connection, which was accepted
    and has completed its authenticated handshake; the rest of the queue stays.
    Only an empty queue parks it, or ends it with [closed] on a closed endpoint. *)
Theorem accept_contract st :
  wf st ->
  let '(r, st') := accept_check st in
  st' = st <| accept_queue := accept_queue st' |> /\
  exists skipped, Forall (fun x => entry_for st x.1 x.2 = None) skipped /\
    match r with
    | Some (Ok stamp) =>
        accept_queue st = skipped ++ stamp :: accept_queue st' /\
        exists e, entry_for st stamp.1 stamp.2 = Some e /\
          accepted_side e = true /\ connected e = true /\ is_Some (peer e)
    | Some (Err e) => e = Closed /\ closed st = true /\ accept_queue st = skipped /\ accept_queue st' = []
    | None => closed st = false /\ accept_queue st = skipped /\ accept_queue st' = []
    end.
Proof.
  intros Hwf. destruct (accept_check st) as [[[x|e]|] st'] eqn:Hacc.
  { destruct (accept_check_takes st x st' Hwf Hacc) as (Hst & sk & e & Hsk & Hq & He & Hrest). eauto 10. }
  all: revert Hacc; unfold accept_check; pose proof (accept_scan_spec st (accept_queue st)) as Hs;
    destruct (accept_scan st (accept_queue st)) as [[stamp|] rest]; [done|];
    destruct Hs as (sk & Hsk & Hq & ->); simpl; destruct (closed st) eqn:Hcl; intros; simplify_eq;
    (split; [done|]); exists (accept_queue st); auto.
Qed.

(** ** Relay claims *)


(** ** [bind] *)

Lemma bound_start now ep w url relay u :
  let p := bound now ep w url 0 relay u in
  udp p = u /\ reachable p /\ pc p = Top /\ closed (st p) = false /\ webrtc_enabled (st p) = w /\
  (exists c, relay_pool (st p) = {[ HOME_RELAY := c ]} /\ wires p !! c = Some relay).
Proof.
  intros p. split; [done|]. split; [|split; [done|split; [done|split; [done|]]]].
  - exists now, ep, w, url, 0, relay, u. apply rtc_refl.
  - exists 0. split; [done|]. apply lookup_singleton_eq.
Qed.

(** C20. [bind] starts the system every claim about reachable states is about:
    when it succeeds there were a relay URL and a protocol, the relay was dialed
    with the options' identity, every configuration was accepted, a socket
    exists exactly when an address asked for one and was bound to that address,
    and the pump is at the start of its first turn on an open endpoint whose
    home relay is the dialed one. Without a relay URL or a protocol it fails as
    an invalid argument before anything is dialed, and a failed relay dial fails
    it as a timeout or with the dial's error before any configuration is looked
    at. *)
Theorem bind_contract {C : Crypto} now o dialed rk tm stls qtls noq_new udp_bound :
  match bind now o dialed rk tm stls qtls noq_new udp_bound with
  | Ok (r, p) =>
      exists url relay, o_relay_url o = Some url /\ alpns o <> [] /\
        dialed url (identity o) = Ok relay /\ stls (identity o) (alpns o) = Ok tt /\
        rk = Ok tt /\ tm = Ok tt /\ qtls = Ok tt /\
        match o_udp_bind_addr o with
        | Some addr => exists u, udp_bound addr = Ok u /\ ep_udp r = Some u
        | None => ep_udp r = None
        end /\
        ep_identity r = identity o /\ udp p = ep_udp r /\ reachable p /\ pc p = Top /\
        closed (st p) = false /\ webrtc_enabled (st p) = o_webrtc o /\
        (exists c, relay_pool (st p) = {[ HOME_RELAY := c ]} /\ wires p !! c = Some relay)
  | Err e =>
      (o_relay_url o = None \/ alpns o = [] -> exists msg, e = InvalidArgument msg) /\
      (forall url d, o_relay_url o = Some url -> alpns o <> [] -> dialed url (identity o) = Err d ->
         e = match d with
             | DialTimedOut => TimedOut "relay dial timed out"
             | DialFailed msg => ConnectFailed msg
             end)
  end.
Proof.
  unfold bind. destruct (o_relay_url o) as [url|] eqn:Hu; cbn [ok_or result_bind map_err]; [|by split; [eauto|]].
  destruct (alpns o) as [|a l] eqn:Ha; [by split; [eauto|]|].
  destruct (dialed url (identity o)) as [relay|d] eqn:Hd; cbn [ok_or result_bind map_err];
    [|split; [by intros [|]|]; intros u0 d0 [= <-] _ Hd0; rewrite Hd in Hd0; injection Hd0 as <-;
      by destruct d].
  assert (forall (e : Error), (Some url = None \/ a :: l = [] -> exists msg, e = InvalidArgument msg) /\
    (forall url0 d, Some url = Some url0 -> a :: l <> [] -> dialed url0 (identity o) = Err d ->
       e = match d with
           | DialTimedOut => TimedOut "relay dial timed out"
           | DialFailed msg => ConnectFailed msg
           end)) as Hlate by (split; [by intros [|]|congruence]).
  destruct rk as [[]|]; [|apply Hlate]. destruct tm as [[]|]; [|apply Hlate].
  destruct (stls _ _) as [[]|] eqn:Hs; [|apply Hlate]. destruct qtls as [[]|]; [|apply Hlate].
  assert (forall u, (let '(_, st) := register_relay url 0 (State_new noq_new (o_webrtc o)) in
            Ok (MkEndpointRes (identity o) u, pump_start now st {[ 0 := relay ]} u)) =
          @Ok _ Error (MkEndpointRes (identity o) u, bound now noq_new (o_webrtc o) url 0 relay u)) as Heq.
  { intros u. unfold bound. by destruct (register_relay _ _ _). }
  destruct (o_udp_bind_addr o) as [addr|]; [destruct (udp_bound addr) as [u|] eqn:Hb; [|apply Hlate]|];
    cbn [result_bind result_map]; rewrite Heq; exists url, relay;
    do 7 (split; [done|]); (split; [by eauto|]); (split; [done|]); apply bound_start.
Qed.

End EndpointTheory.
