(* ===== verification/Webrtc.v ===== *)
(** The WebRTC wire and its signaling ([endpoint/src/webrtc.rs]): the channel
    wire, publishing and reading signals through the relay, and the offerer's
    and the answerer's dance. The JSON codec and the peer connection are third
    parties: the codec is a parameter, and what each call of the peer
    connection yields is an argument of the dance. *)
From S2P Require Import Prelude RelayFrames Types Noq State StateInv Drain DrainInv Rely.
From S2P Require Import Redial Pump Connection Streams.

(** ** The wire *)

Inductive ChannelMessage := ChBinary (data : bytes) | ChString (text : string).

(** [ChannelWire::receive] and [send], over the channel's results (an error by
    its [Debug] text). *)
Definition channel_wire_receive (r : Result ChannelMessage string) : Result (option bytes) string :=
  match r with
  | Ok (ChBinary datagram) => Ok (Some datagram)
  | Ok (ChString _) => Ok None
  | Err e => Err ("data channel: " +:+ e)
  end.
Definition channel_wire_send (payload : bytes) (r : Result unit string)
    : ChannelMessage * Result unit string :=
  (ChBinary payload, map_err (fun e => "data channel: " +:+ e) r).

Inductive Signal :=
| Offer (sdp : string)
| Answer (sdp : string)
| Candidate (candidate : string) (sdp_mid : option string) (sdp_mline_index : option Z)
| EndOfCandidates
| SignalDone.

Definition SIGNAL_DEADLINE : Duration := from_secs 30.
Definition rtc (e : string) : Error := ConnectFailed ("webrtc: " +:+ e).

Inductive DataChannelState := DcConnecting | DcOpen | DcClosing | DcClosed.
Definition is_open (s : DataChannelState) : bool := match s with DcOpen => true | _ => false end.
Definition is_dc_closed (s : DataChannelState) : bool := match s with DcClosed => true | _ => false end.

Section Webrtc.
Context {N : Noq}.
(** [serde_json]. *)
Context (encode : Signal -> Result bytes string) (decode : bytes -> option Signal).

(** ** The dance as a computation

    A computation runs over the shared state and ends with a result, or with
    none when what it awaits has not come yet. During an await other tasks
    change the state. *)
Definition Dance (A : Type) : Type := State -> option (Result A Error) * State.

Definition ret {A} (a : A) : Dance A := fun st => (Some (Ok a), st).
Definition fail {A} (e : Error) : Dance A := fun st => (Some (Err e), st).
Definition dance_bind {A B} (m : Dance A) (k : A -> Dance B) : Dance B := fun st =>
  match m st with
  | (Some (Ok a), st) => k a st
  | (Some (Err e), st) => (Some (Err e), st)
  | (None, st) => (None, st)
  end.

(** What an await yields, and what the other tasks did meanwhile; without it
    the await is still pending. *)
Definition Awaited (A : Type) : Type := option (A * (State -> State)).
Definition await {A} (a : Awaited A) : Dance A := fun st =>
  match a with
  | Some (a, others) => (Some (Ok a), others st)
  | None => (None, st)
  end.
(** An awaited call of the peer connection, its error mapped by [rtc]. *)
Definition await_rtc {A} (a : Awaited (Result A string)) : Dance A :=
  dance_bind (await a) (fun r => fun st => (Some (map_err rtc r), st)).

(** ** Signals *)

Definition publish (p : EndpointId) (signal : Signal) : Dance unit := fun st =>
  match encode signal with
  | Err e => (Some (Err (Other ("encode signal: " +:+ e))), st)
  | Ok json =>
      match signaling_relay p st with
      | None => (Some (Err (Other "signal outside a session")), st)
      | Some relay => (Some (Ok tt), push_signal_outbound relay p (SIGNAL_PREFIX :: json) st)
      end
  end.

(** The check of [next_signal]'s wait. *)
Definition signal_check (now started : Instant) (p : EndpointId) (st : State)
    : option (Result bytes Error) * State :=
  if closed st then (Some (Err Closed), st)
  else
    match pop_signal_inbox p st with
    | (Some payload, st) => (Some (Ok payload), st)
    | (None, st) =>
        if SIGNAL_DEADLINE <? duration_since now started
        then (Some (Err (ConnectFailed "webrtc signaling timed out")), st)
        else (None, st)
    end.

(** The polls of one call: before each the other tasks act and the clock is
    read. *)
Fixpoint next_signal (started : Instant) (p : EndpointId) (polls : list (Instant * (State -> State)))
    : Dance (option Signal * list (Instant * (State -> State))) := fun st =>
  match polls with
  | [] => (None, st)
  | (now, others) :: polls =>
      match signal_check now started p (others st) with
      | (None, st) => next_signal started p polls st
      | (Some (Err e), st) => (Some (Err e), st)
      | (Some (Ok payload), st) =>
          match decode payload with
          | None => next_signal started p polls st
          | Some SignalDone => (Some (Ok (None, polls)), st)
          | Some signal => (Some (Ok (Some signal, polls)), st)
          end
      end
  end.

(** [consume_signaling]: [applied] yields what the peer connection made of an
    answer or a candidate. [polls] shrinks at every signal. *)
Fixpoint consume_signaling (fuel : nat) (started : Instant) (p : EndpointId)
    (applied : Signal -> Awaited (Result unit string)) (polls : list (Instant * (State -> State)))
    : Dance unit :=
  match fuel with
  | O => fun st => (None, st)
  | S fuel =>
      dance_bind (next_signal started p polls) (fun '(signal, polls) =>
        match signal with
        | None => ret tt
        | Some (Offer _) => fail (ConnectFailed "unexpected second offer")
        | Some EndOfCandidates => consume_signaling fuel started p applied polls
        | Some signal =>
            dance_bind (await_rtc (applied signal))
              (fun _ => consume_signaling fuel started p applied polls)
        end)
  end.

(** [publish_candidates], once the candidate stream has ended. *)
Fixpoint publish_all (p : EndpointId) (signals : list Signal) : Dance unit :=
  match signals with
  | [] => ret tt
  | s :: signals => dance_bind (publish p s) (fun _ => publish_all p signals)
  end.
Definition publish_candidates (p : EndpointId) (candidates : Awaited (list Signal)) : Dance unit :=
  dance_bind (await candidates) (fun cs =>
  dance_bind (publish_all p cs) (fun _ => publish p EndOfCandidates)).

(** ** The two sides *)

(** What the peer connection and the clock do over one dance. *)
Record Script := MkScript {
  sc_started : Instant;
  sc_channel : Result unit string;
  sc_description : Awaited (Result string string);
  sc_remote : Awaited (Result unit string);
  sc_local : Awaited (Result unit string);
  sc_candidates : Awaited (list Signal);
  sc_first : list (Instant * (State -> State));
  sc_applied : Signal -> Awaited (Result unit string);
  sc_signals : list (Instant * (State -> State));
  sc_connected : Awaited (Result unit string);
  (** Each read of the state stream: the batch, whether the stream ended with
      it, and the clock after it. *)
  sc_states : list (list DataChannelState * bool * Instant * (State -> State));
  sc_incoming : Awaited (option ChannelRef);
}.

(** The wait for the channel's [open]. *)
Fixpoint await_open (started : Instant)
    (reads : list (list DataChannelState * bool * Instant * (State -> State))) : Dance unit := fun st =>
  match reads with
  | [] => (None, st)
  | (batch, stream_over, now, others) :: reads =>
      let st := others st in
      if existsb is_open batch then (Some (Ok tt), st)
      else if existsb is_dc_closed batch || stream_over then
        (Some (Err (ConnectFailed "webrtc channel closed before opening")), st)
      else if SIGNAL_DEADLINE <? duration_since now started then
        (Some (Err (ConnectFailed "webrtc channel open timed out")), st)
      else await_open started reads st
  end.

(** [SessionGuard]: when the computation is over, however it ended, so is the
    session. *)
Definition guarded {A} (p : EndpointId) (m : Dance A) : Dance A := fun st =>
  match m st with
  | (Some r, st) => (Some r, end_signaling p st)
  | (None, st) => (None, st)
  end.

(** The signals both sides send, and the wait for the other's. *)
Definition negotiate (s : Script) (p : EndpointId) (description : string -> Signal) : Dance unit :=
  dance_bind (await_rtc (sc_description s)) (fun sdp =>
  dance_bind (await_rtc (sc_local s)) (fun _ =>
  dance_bind (publish p (description sdp)) (fun _ =>
  dance_bind (publish_candidates p (sc_candidates s)) (fun _ =>
  dance_bind (publish p SignalDone) (fun _ =>
  dance_bind (consume_signaling (S (length (sc_signals s))) (sc_started s) p (sc_applied s) (sc_signals s)) (fun _ =>
  await_rtc (sc_connected s))))))).

(** [dial]; the wire is allocated at [wire]. *)
Definition dial (s : Script) (wire : ChannelRef) (p : EndpointId) (via : Z) : Dance ChannelRef := fun st =>
  match begin_signaling p via st with
  | (Err e, st) => (Some (Err e), st)
  | (Ok _, st) =>
      guarded p
        (match sc_channel s with
         | Err e => fail (rtc e)
         | Ok _ =>
             dance_bind (negotiate s p Offer) (fun _ =>
             dance_bind (await_open (sc_started s) (sc_states s)) (fun _ => ret wire))
         end) st
  end.

(** [upgrade]: whether the task is over. *)
Definition upgrade (s : Script) (wire : ChannelRef) (p : EndpointId) (via : Z) (st : State)
    : bool * State :=
  match dial s wire p via st with
  | (None, st) => (false, st)
  | (Some (Err _), st) => (true, st)
  | (Some (Ok wire), st) => (true, (register_channel p wire st).2)
  end.

Definition register (p : EndpointId) (wire : ChannelRef) : Dance unit := fun st =>
  let '(r, st) := register_channel p wire st in (Some r, st).

Definition answer_inner (s : Script) (p : EndpointId) : Dance unit :=
  dance_bind (next_signal (sc_started s) p (sc_first s)) (fun '(first, _) =>
  match first with
  | Some (Offer _) =>
      dance_bind (await_rtc (sc_remote s)) (fun _ =>
      dance_bind (negotiate s p Answer) (fun _ =>
      dance_bind (await (sc_incoming s)) (fun channel =>
      match channel with
      | None => fail (Other "no incoming data channel")
      | Some wire => register p wire
      end)))
  | _ => fail (Other "expected an offer")
  end).

(** [answer]: whether the task is over. *)
Definition answer (s : Script) (p : EndpointId) (st : State) : bool * State :=
  match guarded p (answer_inner s p) st with
  | (None, st) => (false, st)
  | (Some _, st) => (true, st)
  end.

End Webrtc.

(** ** Contracts *)
Section WebrtcTheory.
Context {N : Noq}.
Context (encode : Signal -> Result bytes string) (decode : bytes -> option Signal).

(** A computation keeps a property of the state, whatever its result. *)
Definition keeps {A} (P : State -> Prop) (m : Dance A) : Prop := forall st, P st -> P (m st).2.

Lemma keeps_ret {A} P (a : A) : keeps P (ret a).
Proof. by intros st. Qed.
Lemma keeps_fail {A} P e : keeps P (@fail N A e).
Proof. by intros st. Qed.
Lemma dance_bind_ok {A B} (m : Dance A) (k : A -> Dance B) st a st' :
  m st = (Some (Ok a), st') -> dance_bind m k st = k a st'.
Proof. unfold dance_bind. by intros ->. Qed.

Lemma keeps_bind {A B} P (m : Dance A) (k : A -> Dance B) :
  keeps P m -> (forall a, keeps P (k a)) -> keeps P (dance_bind m k).
Proof.
  intros Hm Hk st Hst. specialize (Hm st Hst). unfold dance_bind.
  destruct (m st) as [[[a|e]|] st1]; simpl in *; [by apply Hk|done..].
Qed.

Definition awaited_keeps {A} (P : State -> Prop) (a : Awaited A) : Prop :=
  match a with Some (_, others) => forall st, P st -> P (others st) | None => True end.

Lemma keeps_await {A} P (a : Awaited A) : awaited_keeps P a -> keeps P (await a).
Proof. intros Ha st Hst. unfold await. destruct a as [[a others]|]; [by apply Ha|done]. Qed.
Lemma keeps_await_rtc {A} P (a : Awaited (Result A string)) : awaited_keeps P a -> keeps P (await_rtc a).
Proof. intros Ha. apply keeps_bind; [by apply keeps_await|]. by intros r st. Qed.

(** What a session's own steps keep: any property that the outbound queue, the
    wakers and the peer's inbox do not enter. *)
Record session_local (p : EndpointId) (P : State -> Prop) : Prop := {
  sl_push r b st : P st -> P (push_signal_outbound r p b st);
  sl_pop st : P st -> P (pop_signal_inbox p st).2;
}.

Lemma keeps_publish p P s : session_local p P -> keeps P (publish encode p s).
Proof.
  intros Hl st Hst. unfold publish. destruct (encode s); [|done].
  destruct (signaling_relay p st); [by apply sl_push|done].
Qed.

Definition polls_keep (P : State -> Prop) (polls : list (Instant * (State -> State))) : Prop :=
  Forall (fun np => forall st, P st -> P (np.2 st)) polls.

Lemma signal_check_keeps p P now started st :
  session_local p P -> P st -> P (signal_check now started p st).2.
Proof.
  intros Hl Hst. unfold signal_check. destruct (closed st); [done|].
  pose proof (sl_pop _ _ Hl st Hst) as Hp. destruct (pop_signal_inbox p st) as [[b|] st1]; [done|].
  simpl in Hp. by case_match.
Qed.

Lemma next_signal_keeps started p P polls :
  session_local p P -> polls_keep P polls -> keeps P (next_signal decode started p polls).
Proof.
  intros Hl Hp. induction Hp as [|[now others] polls Ho Hp IH]; intros st Hst; [done|]. simpl in *.
  pose proof (signal_check_keeps p P now started _ Hl (Ho st Hst)) as Hc.
  destruct (signal_check now started p (others st)) as [[[b|e]|] st1]; simpl in Hc.
  - destruct (decode b) as [[]|]; try done. by apply IH.
  - done.
  - by apply IH.
Qed.

(** A result leaves fewer polls, a suffix of those given. *)
Lemma next_signal_suffix started p polls st r polls' st' :
  next_signal decode started p polls st = (Some (Ok (r, polls')), st') ->
  exists n, (0 < n)%nat /\ polls' = drop n polls /\ (n <= length polls)%nat.
Proof.
  revert st. induction polls as [|[now others] polls IH]; intros st; [done|]. cbn [next_signal].
  assert (forall s, next_signal decode started p polls s = (Some (Ok (r, polls')), st') ->
    exists n, (0 < n)%nat /\ polls' = drop n ((now, others) :: polls) /\
              (n <= length ((now, others) :: polls))%nat) as Hrec.
  { intros s Hs. destruct (IH s Hs) as (n & Hn & -> & Hl). exists (S n). simpl. split_and!; [lia|done|lia]. }
  destruct (signal_check now started p (others st)) as [[[b|e]|] st1]; [|done|apply Hrec].
  destruct (decode b) as [[]|]; try apply Hrec;
    intros [= <- <- <-]; exists 1%nat; simpl; split_and!; try lia; by rewrite drop_0.
Qed.

Lemma polls_keep_drop P n polls : polls_keep P polls -> polls_keep P (drop n polls).
Proof. apply Forall_drop. Qed.

Lemma consume_keeps fuel started p P applied polls :
  session_local p P -> polls_keep P polls -> (forall s, awaited_keeps P (applied s)) ->
  keeps P (consume_signaling decode fuel started p applied polls).
Proof.
  intros Hl Hp Ha. revert polls Hp. induction fuel as [|fuel IH]; intros polls Hp; [by intros st|].
  intros st Hst. cbn [consume_signaling]. unfold dance_bind at 1.
  pose proof (next_signal_keeps started p P polls Hl Hp st Hst) as Hk.
  destruct (next_signal decode started p polls st) as [[[[signal polls']|e]|] st1] eqn:E; [|done..].
  simpl in Hk. apply next_signal_suffix in E as (n & _ & -> & _).
  assert (keeps P (consume_signaling decode fuel started p applied (drop n polls))) as Hrec
    by (apply IH; by apply polls_keep_drop).
  destruct signal as [[sdp|sdp|c m i| |]|]; try done; try (by apply Hrec);
    (apply keeps_bind; [by apply keeps_await_rtc|by intros _|done]).
Qed.

Lemma publish_all_keeps p P signals : session_local p P -> keeps P (publish_all encode p signals).
Proof.
  intros Hl. induction signals as [|s signals IH]; [apply keeps_ret|].
  apply keeps_bind; [by apply keeps_publish|]. by intros _.
Qed.

(** Every await of the script keeps [P]. *)
Record script_keeps (P : State -> Prop) (s : Script) : Prop := {
  sk_description : awaited_keeps P (sc_description s);
  sk_remote : awaited_keeps P (sc_remote s);
  sk_local : awaited_keeps P (sc_local s);
  sk_candidates : awaited_keeps P (sc_candidates s);
  sk_first : polls_keep P (sc_first s);
  sk_applied sig : awaited_keeps P (sc_applied s sig);
  sk_signals : polls_keep P (sc_signals s);
  sk_connected : awaited_keeps P (sc_connected s);
  sk_incoming : awaited_keeps P (sc_incoming s);
}.

Lemma negotiate_keeps s p P f :
  session_local p P -> script_keeps P s -> keeps P (negotiate encode decode s p f).
Proof.
  intros Hl []. unfold negotiate, publish_candidates.
  apply keeps_bind; [by apply keeps_await_rtc|intros sdp].
  apply keeps_bind; [by apply keeps_await_rtc|intros _].
  apply keeps_bind; [by apply keeps_publish|intros _].
  apply keeps_bind.
  { apply keeps_bind; [by apply keeps_await|intros cs].
    apply keeps_bind; [by apply publish_all_keeps|intros _]. by apply keeps_publish. }
  intros _. apply keeps_bind; [by apply keeps_publish|intros _].
  apply keeps_bind; [by apply consume_keeps|intros _]. by apply keeps_await_rtc.
Qed.

Lemma register_channel_channels p w st :
  channels (register_channel p w st).2 =
  if closed st then channels st
  else <[wrap32 (next_channel_id st + 1) :=
    MkChannelEntry w p (default HOME_RELAY (signaling st !! p))]> (channels st).
Proof.
  rewrite register_channel_eq. destruct (closed st); [done|].
  unfold addr_for_peer, with_channel, kick_pump. simpl.
  destruct (peer_to_addr st !! p); simpl; by destruct (pump_waker st).
Qed.

Lemma end_signaling_gone p st :
  signaling (end_signaling p st) !! p = None /\ signal_inboxes (end_signaling p st) !! p = None.
Proof. unfold end_signaling. simpl. by rewrite !lookup_delete_eq. Qed.

Lemma guarded_over {A} p (m : Dance A) st r st' :
  guarded p m st = (Some r, st') -> signaling st' !! p = None /\ signal_inboxes st' !! p = None.
Proof.
  unfold guarded. destruct (m st) as [[r0|] st1]; [|done]. intros [= _ <-]. apply end_signaling_gone.
Qed.

Lemma register_channel_signaling p w st :
  signaling (register_channel p w st).2 = signaling st /\
  signal_inboxes (register_channel p w st).2 = signal_inboxes st.
Proof.
  rewrite register_channel_eq. destruct (closed st); [done|].
  unfold addr_for_peer, with_channel, kick_pump. simpl.
  destruct (peer_to_addr st !! p); simpl; by destruct (pump_waker st).
Qed.


(** The offerer's channel: [upgrade] registers it after the session ended, so
    its fallback is the home relay whatever relay it was signaled through. *)
Theorem upgrade_fallback_is_home s wire p via st :
  match dial encode decode s wire p via st with
  | (Some (Ok w), st1) =>
      upgrade encode decode s wire p via st = (true, (register_channel p w st1).2) /\
      (closed st1 = false ->
       channels (register_channel p w st1).2 !! wrap32 (next_channel_id st1 + 1) =
         Some (MkChannelEntry w p HOME_RELAY))
  | _ => True
  end.
Proof.
  destruct (dial encode decode s wire p via st) as [[[w|e]|] st1] eqn:E; [|done..].
  split; [unfold upgrade; by rewrite E|]. intros Hopen.
  assert (signaling st1 !! p = None) as Hno.
  { revert E. unfold dial. destruct (begin_signaling p via st) as [[|] st0]; [|done].
    intros E. by apply guarded_over in E as [? _]. }
  by rewrite register_channel_channels, Hopen, Hno, lookup_insert_eq.
Qed.

(** The session of [p] is the one over [via]. *)
Definition in_session (p : EndpointId) (via : Z) (st : State) : Prop := signaling st !! p = Some via.

Lemma in_session_local p via : session_local p (in_session p via).
Proof.
  unfold in_session. constructor.
  - intros r b st Hst. unfold push_signal_outbound, kick_pump. simpl. by destruct (pump_waker st).
  - intros st Hst. unfold pop_signal_inbox. by destruct (signal_inboxes st !! p) as [[|]|].
Qed.

(** The answerer's channel falls back to the relay its session was signaled
    through: while the session lasts nobody else ends it. *)
Theorem answer_fallback_is_session s p via st :
  in_session p via st -> script_keeps (in_session p via) s ->
  match answer_inner encode decode s p st with
  | (Some (Ok _), st') =>
      exists st1 w, st' = (register_channel p w st1).2 /\ in_session p via st1 /\ closed st1 = false /\
        channels st' !! wrap32 (next_channel_id st1 + 1) = Some (MkChannelEntry w p via)
  | _ => True
  end.
Proof.
  intros Hst Hs. pose proof Hs as []. pose proof (in_session_local p via) as Hl.
  unfold answer_inner. unfold dance_bind at 1.
  pose proof (next_signal_keeps (sc_started s) p _ _ Hl sk_first0 st Hst) as Hk.
  destruct (next_signal decode (sc_started s) p (sc_first s) st) as [[[[sig polls]|e]|] st1]; [|done..].
  simpl in Hk. destruct sig as [[sdp|sdp|c m i| |]|]; try done.
  unfold dance_bind at 1. pose proof (keeps_await_rtc _ _ sk_remote0 st1 Hk) as Hk1.
  destruct (await_rtc (sc_remote s) st1) as [[[u|e]|] st2]; [|done..]. simpl in Hk1.
  unfold dance_bind at 1. pose proof (negotiate_keeps s p _ Answer Hl Hs st2 Hk1) as Hk2.
  destruct (negotiate encode decode s p Answer st2) as [[[u2|e]|] st3]; [|done..]. simpl in Hk2.
  unfold dance_bind. pose proof (keeps_await _ _ sk_incoming0 st3 Hk2) as Hk3.
  destruct (await (sc_incoming s) st3) as [[[[w|]|e]|] st4]; [|done..]. simpl in Hk3.
  unfold register. pose proof (register_channel_channels p w st4) as Hch.
  destruct (register_channel p w st4) as [[u3|e3] st5] eqn:E; [|done].
  destruct (closed st4) eqn:Hcl.
  { exfalso. unfold register_channel in E. by rewrite Hcl in E. }
  exists st4, w. rewrite E. split_and!; [done|done|done|]. simpl in Hch.
  unfold in_session in Hk3. by rewrite Hch, Hk3, lookup_insert_eq.
Qed.

(** Reading signals: a poll of the wait fails with [closed] on a closed
    endpoint, else takes the oldest unread signal, and only without one fails on
    a passed deadline or parks; an undecodable signal is skipped and the next
    one read; [done] ends the peer's signals; and a second offer fails the
    session it arrives in. *)
Theorem signals_read_in_order now others started p polls st payload rest :
  closed (others st) = false -> signal_inboxes (others st) !! p = Some (payload :: rest) ->
  let st1 := (pop_signal_inbox p (others st)).2 in
  signal_inboxes st1 !! p = Some rest /\
  next_signal decode started p ((now, others) :: polls) st =
    match decode payload with
    | None => next_signal decode started p polls st1
    | Some SignalDone => (Some (Ok (None, polls)), st1)
    | Some signal => (Some (Ok (Some signal, polls)), st1)
    end /\
  (forall applied sdp, decode payload = Some (Offer sdp) ->
     consume_signaling decode 1 started p applied ((now, others) :: polls) st =
       (Some (Err (ConnectFailed "unexpected second offer")), st1)).
Proof.
  intros Hcl Hin st1. subst st1. unfold pop_signal_inbox. rewrite Hin. simpl. rewrite lookup_insert_eq.
  assert (next_signal decode started p ((now, others) :: polls) st =
    match decode payload with
    | None => next_signal decode started p polls (others st <| signal_inboxes ::= <[p := rest]> |>)
    | Some SignalDone => (Some (Ok (None, polls)), others st <| signal_inboxes ::= <[p := rest]> |>)
    | Some signal => (Some (Ok (Some signal, polls)), others st <| signal_inboxes ::= <[p := rest]> |>)
    end) as Hn.
  { cbn [next_signal]. unfold signal_check. rewrite Hcl. unfold pop_signal_inbox. by rewrite Hin. }
  split_and!; [done|exact Hn|]. intros applied sdp Hd.
  rewrite Hd in Hn. exact (dance_bind_ok _ _ _ _ _ Hn).
Qed.

End WebrtcTheory.
