(* ===== verification/System.v ===== *)
(** The endpoint as one transition system: the pump's steps interleaved with
    every operation of the resources and the signaling sessions. What the pump
    relies on is proved of those operations, so its guarantees hold of the
    whole system, and the system moves every connection's lifecycle only
    forward. *)
From S2P Require Import Prelude RelayFrames RelayConn Types Udp Noq State StateInv Drain.
From S2P Require Import DrainInv Rely Redial Pump PumpInv PumpTheory Connection Streams.
From S2P Require Import StreamsInv Endpoint EndpointInv.

Section System.
Context {N : Noq} {L : NoqLaws}.

(** One operation of the other tasks: the resources' calls and the answerer
    and upgrade sessions. [new] is the relay connection it adds to the pool. *)
Inductive caller_op : option RelayRef -> State -> State -> Prop :=
(** Relays and signaling. *)
| op_register_relay url c s : caller_op (Some c) s (register_relay url c s).2
| op_register_channel p w s : caller_op None s (register_channel p w s).2
| op_signal via p b s : caller_op None s (handle_signal via p b s)
| op_begin_signaling p r s : caller_op None s (begin_signaling p r s).2
| op_end_signaling p s : caller_op None s (end_signaling p s)
| op_push_signal r p b s : caller_op None s (push_signal_outbound r p b s)
| op_pop_signal p s : caller_op None s (pop_signal_inbox p s).2
(** A [wait_until] whose check found nothing parks its task. *)
| op_park w s : caller_op None s (s <| waiters ::= fun l => l ++ [w] |>)
(** The endpoint resource. *)
| op_ensure_relay url s : caller_op None s (ensure_relay url s).2
| op_ensure_opened url c o s : caller_op (match o with Ok _ => Some c | Err _ => None end) s (ensure_relay_opened url c o s).2
| op_claim_drop n s : caller_op None s (relay_claim_drop n s)
| op_connect now cfg p real k up s : caller_op None s (connect_dial now cfg p real k up s).2
| op_dial_drop now h ep s : caller_op None s (dial_guard_drop now h ep s)
| op_accept s : caller_op None s (accept_check s).2
| op_close now s : caller_op None s (endpoint_close now s)
| op_endpoint_drop now s : caller_op None s (endpoint_drop now s)
(** The connection resource. *)
| op_open_stream c dir k s : caller_op None s (open_stream_check c dir k s).2
| op_accept_stream c dir s : caller_op None s (accept_stream_check c dir s).2
| op_send_datagram c b s : caller_op None s (conn_send_datagram c b s).2
| op_recv_datagram c s : caller_op None s (conn_recv_datagram_check c s).2
| op_conn_close now c code reason s : caller_op None s (connection_close now c code reason s)
| op_conn_drop now c s : caller_op None s (connection_drop now c s)
(** The stream resources. *)
| op_write n b o r o' s s' : write_check n b o s = Done (r, o', s') -> caller_op None s s'
| op_finish x s : caller_op None s (finish x s).2
| op_reset code x s : caller_op None s (reset code x s).2
| op_send_drop x s : caller_op None s (send_stream_drop x s)
| op_read n max s : caller_op None s (read_check n max s).2
| op_stop code x s : caller_op None s (stop code x s)
| op_recv_drop x s : caller_op None s (recv_stream_drop x s).

Definition add_wire (new : option RelayRef) (rc : RelayConn) (w : gmap RelayRef RelayConn)
    : gmap RelayRef RelayConn :=
  match new with Some c => <[c := rc]> w | None => w end.

(** One step of the world: the pump's, another task's operation (a relay it
    adds is newly allocated), or the use of a relay connection by its receive,
    send or ping future. *)
Inductive world_step : Pump -> Pump -> Prop :=
| world_pump p p' : pump_step p p' -> world_step p p'
| world_caller p new rc s' :
    caller_op new (st p) s' -> (forall c, new = Some c -> wires p !! c = None) ->
    world_step p (p <| wires ::= add_wire new rc |> <| st := s' |>)
| world_wire p c rc rc' :
    wires p !! c = Some rc -> (ws_closed rc = true -> ws_closed rc' = true) ->
    world_step p (p <| wires ::= <[c := rc']> |>).

Definition world (p p' : Pump) : Prop := room (st p) /\ world_step p p'.

(** ** The other tasks keep what the pump relies on *)

(** The stream resources' operations update their connection's entry only. *)
Lemma write_loop_ops fuel id b o c r o' c' :
  write_loop fuel id b o c = Done (r, o', c') -> rtc conn_op c c'.
Proof.
  revert o c. induction fuel as [|fuel IH]; intros o c; [done|]. cbn [write_loop].
  destruct (slice_from o b) as [rest| |]; simpl; [|done..].
  destruct (send_write id rest c) as [w c1] eqn:E. apply co_write in E.
  destruct w as [n|[|cd|]]; [|intros [= _ _ <-]; by apply rtc_once..].
  case_decide; [intros [= _ _ <-]; by apply rtc_once|].
  case_decide; [intros [= _ _ <-]; by apply rtc_once|]. intros Hrun. eapply rtc_l; [exact E|by eapply IH].
Qed.

Lemma write_check_update n b o r o' s s' :
  write_check n b o s = Done (r, o', s') -> entry_update (sn_handle n) (sn_epoch n) s s'.
Proof.
  unfold write_check. destruct (entry_for s _ _) as [e|] eqn:He;
    [|intros [= _ _ <-]; apply entry_update_refl].
  destruct (error e); [intros [= _ _ <-]; apply entry_update_refl|].
  destruct (write_loop _ _ _ _ _) as [[[r1 o1] c]| |] eqn:E; simpl; [|done..].
  apply write_loop_ops in E. intros [= _ _ <-].
  case_match; [apply entry_update_kick|]; by apply entry_update_conn.
Qed.

Lemma read_check_update n max s :
  entry_update (sn_handle n) (sn_epoch n) s (read_check n max s).2.
Proof.
  unfold read_check. destruct (entry_for s _ _) as [e|] eqn:He; [|apply entry_update_refl].
  destruct (recv_chunk _ _ _) as [r c] eqn:E. apply co_read in E.
  destruct r as [[[b|]|[|]]|[|]]; simpl; try apply entry_update_kick; by apply entry_update_op.
Qed.

Lemma do_finish_update x s :
  entry_update (sn_handle (s_name x)) (sn_epoch (s_name x)) s (do_finish x s).2.
Proof.
  unfold do_finish. simpl. destruct (entry_for s _ _) as [e|] eqn:He; [|apply entry_update_refl].
  destruct (error e); [apply entry_update_refl|].
  destruct (send_finish _ _) as [r c] eqn:E. apply co_finish in E.
  destruct r as [?|[|]]; simpl; try apply entry_update_kick; by apply entry_update_op.
Qed.

(** Writing back the entry after one call on its connection. *)
Lemma entry_update_call h ep s e (f : Connection -> Connection) :
  entry_for s h ep = Some e -> (forall c, conn_op c (f c)) ->
  entry_update h ep s (kick_pump (set_entry h (e <| conn ::= f |>) s)).
Proof.
  intros He Hf. apply entry_update_kick. eapply entry_update_set; [done|]. by apply driven_op.
Qed.

Lemma reset_update code x s :
  entry_update (sn_handle (s_name x)) (sn_epoch (s_name x)) s (reset code x s).2.
Proof.
  unfold reset. simpl. destruct (entry_for s _ _) as [e|] eqn:He; [|apply entry_update_refl].
  apply entry_update_call; [done|constructor].
Qed.

Lemma stop_update code x s :
  entry_update (sn_handle (r_name x)) (sn_epoch (r_name x)) s (stop code x s).
Proof.
  unfold stop. destruct (entry_for s _ _) as [e|] eqn:He; [|apply entry_update_refl].
  apply entry_update_call; [done|constructor].
Qed.

Lemma dial_guard_drop_update now h ep s : entry_update h ep s (dial_guard_drop now h ep s).
Proof.
  unfold dial_guard_drop. destruct (entry_for s h ep) as [e|] eqn:He; [|apply entry_update_refl].
  case_match; [|apply entry_update_refl]. apply entry_update_call; [done|constructor].
Qed.

Lemma relay_opening_wf f s : wf s -> wf (s <| relay_opening ::= f |>).
Proof. intros Hwf. wf_parts Hwf. Qed.

Lemma ensure_relay_opened_wf url c o s :
  wf s -> next_relay_key s < u32_max -> wf (ensure_relay_opened url c o s).2.
Proof.
  intros Hwf Hroom. unfold ensure_relay_opened.
  set (s1 := wake_waiters _). assert (wf s1) as Hwf1 by by apply wake_waiters_wf, relay_opening_wf.
  destruct o as [?|[|]]; simpl; try done. by apply (register_relay_wf url c s1).
Qed.

(** Apart from registrations they keep what the pump relies on. *)
Lemma shut_rely now reason s :
  rely s (wake_waiters (kick_pump (close_all now reason
    (s <| closed := true |> <| closed_at := Some now |>)))).
Proof.
  etransitivity; [|apply wake_waiters_rely]. etransitivity; [|apply kick_pump_rely].
  constructor; try done. intros Hwf. apply close_all_wf. wf_parts Hwf.
Qed.

Lemma endpoint_close_rely now s : rely s (endpoint_close now s).
Proof. unfold endpoint_close. case_match; [done|apply shut_rely]. Qed.

Lemma dial_remote_rely p real k s :
  next_host s < u32_max -> rely s (dial_remote p real k s).2.
Proof.
  intros Hh. constructor; [intros Hwf; pose proof (dial_remote_spec p real k s Hwf Hh) as Hs;
    destruct (dial_remote p real k s); apply Hs|..];
  destruct (addr_for_peer_rely p k s Hh) as [_ Hp Hnr Hnk Hch Hnc Hcl];
  unfold dial_remote, follow_dial; destruct real; try done;
  destruct (addr_for_peer p k s) as [a s1]; simpl in *; repeat case_match; done.
Qed.

Lemma connect_dial_wf now cfg p real k up s :
  wf s -> room s -> wf (connect_dial now cfg p real k up s).2.
Proof.
  intros Hwf [Hh _ _ He]. pose proof (ci_next _ _ _ (wf_conn _ Hwf)) as Hn.
  rewrite connect_dial_eq. destruct (closed s); [done|].
  pose proof (dial_remote_spec p real k s Hwf Hh) as Hs.
  destruct (dial_remote p real k s) as [a s1]. destruct Hs as (Hwf1 & Hc & Hep & _).
  destruct (ep_connect now cfg a (noq s1)) as [[[h c]|e] ep]; simpl; [|wf_parts Hwf1].
  apply kick_pump_wf. wf_parts Hwf1. rewrite wrap64_small by (unfold u64_max in *; lia).
  by apply conn_inv_fresh; [|congruence].
Qed.

Lemma connect_dial_rely now cfg p real k up s :
  wf s -> room s -> rely s (connect_dial now cfg p real k up s).2.
Proof.
  intros Hwf Hroom. pose proof (connect_dial_wf now cfg p real k up s Hwf Hroom) as Hwf'.
  destruct Hroom as [Hh _ _ _]. rewrite connect_dial_eq in *. destruct (closed s); [done|].
  destruct (dial_remote_rely p real k s Hh) as [_ Hp Hnr Hnk Hch Hnc Hcl].
  destruct (dial_remote p real k s) as [a s1]. simpl in *.
  destruct (ep_connect now cfg a (noq s1)) as [[[h c]|e] ep]; simpl in *; [|by constructor].
  unfold kick_pump in *. repeat case_match; by constructor.
Qed.

Lemma ensure_relay_rely url s : rely s (ensure_relay url s).2.
Proof.
  unfold ensure_relay. repeat case_match; try done;
    (constructor; [apply relay_opening_wf|done..]).
Qed.

(** An operation that registers nothing. *)
Definition registers (new : option RelayRef) (s s' : State) : Prop :=
  (exists url c s1, new = Some c /\ s' = (register_relay url c s1).2 /\ rely s s1 /\ (room s -> room s1)) \/
  (exists p w, new = None /\ s' = (register_channel p w s).2).

Lemma caller_op_rely new s s' :
  wf s -> room s -> caller_op new s s' -> registers new s s' \/ (new = None /\ rely s s').
Proof.
  intros Hwf Hroom Hop. destruct Hop.
  - left. left. by exists url, c, s.
  - left. right. eauto.
  - right. split; [done|]. apply handle_signal_rely.
  - right. split; [done|]. constructor; [apply begin_signaling_wf|unfold begin_signaling; by case_match..].
  - right. split; [done|]. constructor; [apply end_signaling_wf|done..].
  - right. split; [done|]. etransitivity; [|apply kick_pump_rely]. constructor; [|done..].
    intros _. wf_parts Hwf.
  - right. split; [done|]. constructor; [apply pop_signal_inbox_wf|unfold pop_signal_inbox; by repeat case_match..].
  - right. split; [done|]. constructor; [|done..]. intros _. wf_parts Hwf.
  - right. split; [done|]. apply ensure_relay_rely.
  - assert (rely s (wake_waiters (s <| relay_opening ::= fun x => x ∖ {[ normalize_relay_url url ]} |>))) as Hr.
    { etransitivity; [|apply wake_waiters_rely]. constructor; [apply relay_opening_wf|done..]. }
    unfold ensure_relay_opened. destruct o as [?|[|e]]; [left; left|by right..].
    exists url, c, (wake_waiters (s <| relay_opening ::= fun x => x ∖ {[ normalize_relay_url url ]} |>)).
    split; [done|]. split; [by destruct (register_relay _ _ _)|]. split; [done|].
    intros []. by constructor.
  - right. split; [done|]. etransitivity; [|apply wake_waiters_rely].
    constructor; [apply relay_opening_wf|done..].
  - right. split; [done|]. by apply connect_dial_rely.
  - right. split; [done|]. eapply eu_rely, dial_guard_drop_update.
  - right. split; [done|]. constructor; [apply accept_check_wf|unfold accept_check; by repeat case_match..].
  - right. split; [done|]. apply endpoint_close_rely.
  - right. split; [done|]. unfold endpoint_drop. case_match; [done|apply shut_rely].
  - right. split; [done|]. eapply eu_rely, open_stream_update.
  - right. split; [done|]. eapply eu_rely, accept_stream_update.
  - right. split; [done|]. eapply eu_rely, send_datagram_update.
  - right. split; [done|]. eapply eu_rely, recv_datagram_update.
  - right. split; [done|]. eapply eu_rely, connection_close_update.
  - right. split; [done|]. eapply eu_rely, connection_close_update.
  - right. split; [done|]. by eapply eu_rely, write_check_update.
  - right. split; [done|]. unfold finish. repeat case_match; try done. eapply eu_rely, do_finish_update.
  - right. split; [done|]. eapply eu_rely, reset_update.
  - right. split; [done|]. unfold send_stream_drop. case_match; [done|]. eapply eu_rely, reset_update.
  - right. split; [done|]. eapply eu_rely, read_check_update.
  - right. split; [done|]. eapply eu_rely, stop_update.
  - right. split; [done|]. unfold recv_stream_drop. repeat case_match; try done. eapply eu_rely, stop_update.
Qed.

Lemma add_no_wire p rc : p <| wires ::= add_wire None rc |> = p.
Proof. by destruct p. Qed.

(** So every step of the world is a run of the system the pump is verified in. *)
Lemma world_sys p p' : pump_inv p -> world p p' -> rtc sys_step p p'.
Proof.
  intros Hi [Hroom Hstep]. destruct Hstep as [p p' Hs|p new rc s' Hop Hnew|p c rc rc' Hc Hcl].
  - apply rtc_once. by split; [|left].
  - destruct (caller_op_rely new (st p) s' (pi_wf _ Hi) Hroom Hop)
      as [[(url & c & s1 & -> & -> & Hr & Hroom1)|(peer & w & -> & ->)]|[-> Hr]].
    + eapply rtc_l; [split; [done|right; by apply (env_state p s1)]|]. apply rtc_once.
      split; [by apply Hroom1|]. right. set (p1 := p <| st := s1 |>). apply (env_relay p1 url c rc). by apply Hnew.
    + apply rtc_once. split; [done|right]. rewrite (add_no_wire p rc). apply env_channel.
    + apply rtc_once. split; [done|right]. rewrite (add_no_wire p rc). by apply (env_state p s').
  - apply rtc_once. split; [done|right]. by eapply env_wire.
Qed.

Lemma world_inv p p' : pump_inv p -> rtc world p p' -> pump_inv p'.
Proof.
  intros Hi Hr. induction Hr as [p|p p1 p2 Hw _ IH]; [done|]. apply IH.
  by eapply sys_step_inv, world_sys.
Qed.

Lemma world_reachable p p' : reachable p -> rtc world p p' -> reachable p'.
Proof.
  intros (now & ep & w & url & c & rc & u & Hr) Hw. exists now, ep, w, url, c, rc, u.
  etransitivity; [exact Hr|]. assert (pump_inv p) as Hi by (eapply sys_step_inv; [apply bound_inv|exact Hr]).
  clear Hr. induction Hw as [p|p p1 p2 Hw _ IH]; [done|].
  etransitivity; [by apply world_sys|]. apply IH. by eapply sys_step_inv, world_sys.
Qed.

(** C12. The shared state stays well typed, whatever the pump and the other
    tasks' calls do: peers and their standins map to each other; a standin is
    routed and nothing else is, and a channel route names a live channel of the
    standin's own peer; a relay's URL names the home relay or a pooled one,
    under a key that was handed out; a signal inbox belongs to an active session
    and holds at most its cap; a connection's epoch was handed out, a connection
    that counts as connected has the peer it was required to have, and a queued
    stamp still in its slot is an accepted, connected one. *)
Theorem state_well_typed p p' :
  reachable p -> rtc world p p' ->
  let s := st p' in
  (forall peer a, peer_to_addr s !! peer = Some a <-> addr_to_peer s !! a = Some peer) /\
  (forall a, is_Some (routes s !! a) <-> is_Some (addr_to_peer s !! a)) /\
  (forall a id, routes s !! a = Some (RouteChannel id) ->
     exists e, channels s !! id = Some e /\ peer_to_addr s !! ch_peer e = Some a) /\
  (forall url k, relay_keys s !! url = Some k ->
     0 <= k < next_relay_key s /\ (k = HOME_RELAY \/ is_Some (relay_pool s !! k))) /\
  (forall peer q, signal_inboxes s !! peer = Some q ->
     is_Some (signaling s !! peer) /\ (length q <= INBOX_CAP)%nat) /\
  (forall h e, conns s !! h = Some e -> 0 <= epoch e < next_conn_epoch s /\
     (connected e = true -> exists id, State.peer e = Some id /\
        (expected_peer e = None \/ expected_peer e = Some id))) /\
  (forall h ep e, (h, ep) ∈ accept_queue s -> conns s !! h = Some e -> epoch e = ep ->
     accepted_side e = true /\ connected e = true).
Proof.
  intros Hr Hw. destruct (pi_wf _ (world_inv _ _ (reachable_inv _ Hr) Hw)) as [Ha Hrel Hs Hc]. simpl.
  split_and!; [apply Ha|apply Ha|apply Ha|apply Hrel|apply Hs| |apply Hc].
  intros h e He. split; [by eapply ci_epoch|]. by apply (ci_auth _ _ _ Hc h e He).
Qed.

End System.
