(* ===== verification/Table.v ===== *)
(** The connection table of the running endpoint, stepwise. Every step of the
    system moves the table (the entries, the accept queue and the epoch
    counter) by a sequence of five kinds of action; from these follow the
    table's invariant, each connection's abstract lifecycle, which the system
    refines, and what accept and the backlog promise over whole runs. *)
From S2P Require Import Prelude RelayFrames RelayConn Types Udp Noq State StateInv Drain.
From S2P Require Import DrainInv Rely Redial Pump PumpInv PumpTheory Connection Streams.
From S2P Require Import StreamsInv Endpoint EndpointInv System.

(** ** The table and its actions *)
Section Table.
Context {N : Noq}.

Record Table := MkTable {
  t_conns : gmap ConnectionHandle ConnEntry;
  t_queue : list (ConnectionHandle * Z);
  t_next : Z;
}.

Definition table_of (s : State) : Table := MkTable (conns s) (accept_queue s) (next_conn_epoch s).

(** An accepted connection whose handshake is under way. *)
Definition unready (e : ConnEntry) : bool :=
  accepted_side e && negb (connected e) && negb (is_closed_entry e).

Definition unready_count (cs : gmap ConnectionHandle ConnEntry) : nat :=
  size (filter (fun he => unready he.2 = true) cs).
Definition backlog (t : Table) : nat := length (t_queue t) + unready_count (t_conns t).

(** What happens to one entry and the queue: calls on its connection, a
    completed and authenticated handshake, a failure, the drained latch. *)
Inductive entry_act (h : ConnectionHandle)
    : ConnEntry * list (ConnectionHandle * Z) -> ConnEntry * list (ConnectionHandle * Z) -> Prop :=
| ea_driven e e' q : driven e e' -> entry_act h (e, q) (e', q)
| ea_opened e c a id q :
    poll (conn e) = (Some Connected, c) -> expected_peer e = None \/ expected_peer e = Some id ->
    entry_act h (e, q)
      (e <| conn := c |> <| alpn := a |> <| peer := Some id |> <| connected := true |>,
       if accepted_side e then q ++ [(h, epoch e)] else q)
| ea_failed e ev c c' a pc err q :
    poll (conn e) = (Some ev, c) -> ev = Connected \/ (exists r, ev = ConnectionLost r) ->
    rtc conn_op c c' ->
    entry_act h (e, q)
      (e <| conn := c' |> <| alpn := a |> <| peer_close := pc |> <| error := Some err |>, q)
| ea_drained e q : is_drained (conn e) = true -> entry_act h (e, q) (e <| drained := true |>, q).

(** The table's actions: on one entry, calls on all connections, a new
    connection under the next epoch (admitted only below the backlog's cap when
    it is an incoming one), and [accept] taking from the queue's front. *)
Inductive table_act : Table -> Table -> Prop :=
| ta_entry cs q n h e e' q' :
    cs !! h = Some e -> entry_act h (e, q) (e', q') ->
    table_act (MkTable cs q n) (MkTable (<[h := e']> cs) q' n)
| ta_all cs q n f : (forall e, driven e (f e)) -> table_act (MkTable cs q n) (MkTable (f <$> cs) q n)
| ta_new cs q n h c expected side :
    (side = true -> backlog (MkTable cs q n) < ACCEPT_BACKLOG)%nat -> n < u64_max ->
    table_act (MkTable cs q n) (MkTable (<[h := ConnEntry_new c expected side n]> cs) q (n + 1))
| ta_accept cs pre q n : table_act (MkTable cs (pre ++ q) n) (MkTable cs q n).

Definition tables (s s' : State) : Prop := rtc table_act (table_of s) (table_of s').

#[export] Instance tables_preorder : PreOrder tables.
Proof. split; unfold tables; [by intros s|]. intros a b c Hab Hbc. by etransitivity. Qed.

Lemma tables_same s s' : table_of s' = table_of s -> tables s s'.
Proof. unfold tables. by intros ->. Qed.

Lemma accept_backlog_table s : accept_backlog s = backlog (table_of s).
Proof.
  unfold accept_backlog, backlog, unready_count. simpl. do 2 f_equal. apply map_filter_ext.
  intros h e _. simpl. unfold unready, is_closed_entry.
  destruct (accepted_side e), (connected e), (drained e), (error e); simpl; naive_solver.
Qed.

(** ** The code's operations as actions *)

Lemma entry_acts_table cs n h x x' :
  rtc (entry_act h) x x' -> cs !! h = Some x.1 ->
  rtc table_act (MkTable cs x.2 n) (MkTable (<[h := x'.1]> cs) x'.2 n).
Proof.
  intros Hr. revert cs. induction Hr as [x|[e q] [e1 q1] x' Hact _ IH]; intros cs He; simpl in *.
  { by rewrite insert_id. }
  eapply rtc_l; [by eapply ta_entry|]. rewrite <- (insert_insert_eq cs h x'.1 e1).
  apply IH. apply lookup_insert_eq.
Qed.

Lemma accept_streams_ops fuel d c q c' q' :
  accept_streams fuel d c q = Done (c', q') -> rtc conn_op c c'.
Proof.
  revert c q. induction fuel as [|fuel IH]; intros c q; [done|]. cbn [accept_streams].
  destruct (streams_accept d c) as [[id|] c1] eqn:E; apply co_accept in E.
  - intros Hrun. eapply rtc_l; [exact E|by eapply IH].
  - intros [= <- _]. by apply rtc_once.
Qed.

Lemma on_event_acts fuel now h e ev c q e' q' :
  poll (conn e) = (Some ev, c) -> on_event fuel now h ev (e <| conn := c |>) q = Done (e', q') ->
  rtc (entry_act h) (e, q) (e', q').
Proof.
  intros Hpoll Hrun. apply rtc_once. revert Hrun. assert (ev <> Connected -> rtc conn_op (conn e) c) as Hop.
  { intros Hne. eapply rtc_once, co_poll; [exact Hpoll|congruence]. }
  assert (forall a, ev = Connected -> entry_act h (e, q)
      (e <| conn := conn_close now 1 (str_bytes "identity mismatch") c |> <| alpn := a |>
         <| peer_close := peer_close e |>
         <| error := Some (ConnectFailed "authenticated key differs from the addressed peer") |>, q)) as Hmis.
  { intros a ->. eapply ea_failed; [exact Hpoll|by left|]. apply rtc_once, co_close. }
  destruct ev as [| | | | |[dir|]| | |reason]; cbn [on_event];
    try (intros [= <- <-]; apply ea_driven, driven_conn, Hop; done).
  - destruct (handshake_data _) as [pr|]; (destruct (tls_peer _) as [id|]; [case_decide as Hex|]);
      intros Heq; injection Heq as <- <-.
    + exact (ea_opened h e c (default [] pr) id q Hpoll Hex).
    + exact (Hmis (default [] pr) eq_refl).
    + exact (Hmis (default [] pr) eq_refl).
    + exact (ea_opened h e c (alpn e) id q Hpoll Hex).
    + exact (Hmis (alpn e) eq_refl).
    + exact (Hmis (alpn e) eq_refl).
  - destruct (accept_streams fuel Bi _ _) as [[c1 b]| |] eqn:Eb; simpl; [|done..].
    destruct (accept_streams fuel Uni _ _) as [[c2 u]| |] eqn:Eu; simpl; [|done..].
    apply accept_streams_ops in Eb, Eu. intros [= <- <-]. apply ea_driven. split; [done|]. simpl in *.
    etransitivity; [by apply Hop|]. by etransitivity.
  - intros [= <- <-]. assert (forall pc, entry_act h (e, q)
      (e <| conn := c |> <| alpn := alpn e |> <| peer_close := pc |> <| error := Some (lost_error reason) |>, q)) as Hl.
    { intros pc. eapply ea_failed; [exact Hpoll|right; eauto|done]. }
    destruct reason; [apply (Hl (Some _))|apply (Hl (peer_close e))..].
Qed.

(** The drain of one connection. *)
Section Loops.
Context (now : Instant) (rt : gmap SocketAddr RouteWire) (a2p : gmap SocketAddr EndpointId).
Context (h : ConnectionHandle).

Definition drain_acts (d d' : DrainState) : Prop :=
  rtc (entry_act h) (d_entry d, d_queue d) (d_entry d', d_queue d').

#[local] Instance drain_acts_preorder : PreOrder drain_acts.
Proof. split; unfold drain_acts; [by intros d|]. intros a b c Hab Hbc. by etransitivity. Qed.

Lemma set_conn_acts c d : rtc conn_op (d_conn d) c -> drain_acts d (set_conn c d).
Proof. intros Hc. apply rtc_once, ea_driven. by apply driven_conn. Qed.

Lemma endpoint_events_loop_acts fuel p d p' d' :
  endpoint_events_loop h fuel p d = Done (p', d') -> drain_acts d d'.
Proof.
  revert p d. induction fuel as [|fuel IH]; intros p d; [done|]. cbn [endpoint_events_loop].
  destruct (poll_endpoint_events (d_conn d)) as [[event|] c] eqn:E; apply co_endpoint_events, rtc_once in E.
  2: { intros [= _ <-]. by apply set_conn_acts. }
  destruct (ep_handle_event h event _) as [back ep]. intros Hrun. etransitivity; [|by eapply IH].
  destruct back as [back|]; [|exact (set_conn_acts _ _ E)].
  apply (set_conn_acts (handle_event back c) d). eapply rtc_r; [exact E|]. apply co_handle_event.
Qed.

Lemma events_loop_acts fuel p d p' d' :
  events_loop now h fuel p d = Done (p', d') -> drain_acts d d'.
Proof.
  revert p d. induction fuel as [|fuel IH]; intros p d; [done|]. cbn [events_loop].
  destruct (poll (d_conn d)) as [[ev|] c] eqn:E.
  2: { intros [= _ <-]. by eapply set_conn_acts, rtc_once, co_poll. }
  destruct (on_event _ _ _ _ _ _) as [[e1 q1]| |] eqn:Ev; simpl; [|done..].
  intros Hrun. apply (on_event_acts _ _ _ _ _ _ _ _ _ E) in Ev.
  transitivity (set_conn c d <| d_entry := e1 |> <| d_queue := q1 |>); [exact Ev|by eapply IH].
Qed.

Lemma transmits_loop_acts fuel p d p' d' :
  transmits_loop now rt a2p fuel p d = Done (p', d') -> drain_acts d d'.
Proof.
  revert p d. induction fuel as [|fuel IH]; intros p d; [done|]. cbn [transmits_loop].
  destruct (poll_transmit now (d_conn d)) as [[t|] c] eqn:E; apply co_transmit, rtc_once in E.
  2: { intros [= _ <-]. by apply set_conn_acts. }
  destruct (slice_to _ _) as [b| |]; simpl; [|done..].
  destruct (route_transmit _ _ _ _ _) as [o| |]; simpl; [|done..].
  intros Hrun. etransitivity; [by apply (set_conn_acts c)|]. exact (IH _ _ Hrun).
Qed.

Lemma drain_turn_acts fuel d p' d' : drain_turn now rt a2p h fuel d = Done (p', d') -> drain_acts d d'.
Proof.
  unfold drain_turn.
  destruct (endpoint_events_loop _ _ _ _) as [[p1 d1]| |] eqn:E1; simpl; [|done..].
  destruct (events_loop _ _ _ _ _) as [[p2 d2]| |] eqn:E2; simpl; [|done..].
  intros E3. etransitivity; [by eapply endpoint_events_loop_acts|].
  etransitivity; [by eapply events_loop_acts|by eapply transmits_loop_acts].
Qed.

Lemma drain_loop_acts turns fuel any d any' d' :
  drain_loop now rt a2p h turns fuel any d = Done (any', d') -> drain_acts d d'.
Proof.
  revert any d. induction turns as [|turns IH]; intros any d; [done|]. cbn [drain_loop].
  destruct (drain_turn _ _ _ _ _ _) as [[p1 d1]| |] eqn:E1; simpl; [|done..].
  apply drain_turn_acts in E1. destruct p1; [|by intros [= _ <-]].
  intros Hrun. etransitivity; [exact E1|by eapply IH].
Qed.

Lemma drain_conn_acts fuel any d any' d' :
  drain_conn now rt a2p h fuel any d = Done (any', d') -> drain_acts d d'.
Proof.
  unfold drain_conn. destruct (drain_loop _ _ _ _ _ _ _ _) as [[a1 d1]| |] eqn:E1; simpl; [|done..].
  apply drain_loop_acts in E1. destruct (negb _ && _) eqn:Ed; intros [= _ <-]; [|done].
  apply andb_true_iff in Ed as [_ Ed]. etransitivity; [exact E1|].
  by apply rtc_once, ea_drained.
Qed.
End Loops.

Lemma drain_order_tables fuel now order any s any' s' :
  drain_order fuel now order any s = Done (any', s') -> tables s s'.
Proof.
  revert any s. induction order as [|h order IH]; intros any s; cbn [drain_order]; [by intros [= _ <-]|].
  destruct (conns s !! h) as [e|] eqn:He; [|apply IH].
  destruct (drain_conn _ _ _ _ _ _ _) as [[a1 d1]| |] eqn:E1; simpl; [|done..].
  apply drain_conn_acts in E1. intros Hrun. etransitivity; [|by eapply IH].
  exact (entry_acts_table (conns s) (next_conn_epoch s) h _ _ E1 He).
Qed.

(** An operation on one connection. *)
Lemma entry_update_tables h ep s s' : entry_update h ep s s' -> tables s s'.
Proof.
  intros [_ Ho He (_ & Hq & Hn) _].
  assert (forall e', conns s' !! h = Some e' -> conns s' = <[h := e']> (conns s)) as Hins.
  { intros e' He'. apply map_eq. intros i. rewrite lookup_insert. case_decide as Hi; [by subst|auto]. }
  unfold tables, table_of. rewrite Hq, Hn. destruct (entry_for s h ep) as [e|] eqn:E.
  - apply entry_for_Some in E as [E _]. destruct He as (e' & He' & Hd). rewrite (Hins _ He').
    eapply rtc_once, ta_entry; [exact E|]. by apply ea_driven.
  - replace (conns s') with (conns s); [done|]. apply map_eq. intros i.
    destruct (decide (i = h)) as [->|Hi]; [done|by rewrite Ho].
Qed.

(** Calls on all connections. *)
Lemma all_tables f s s' :
  conns s' = f <$> conns s -> (forall e, driven e (f e)) ->
  accept_queue s' = accept_queue s -> next_conn_epoch s' = next_conn_epoch s -> tables s s'.
Proof. intros Hc Hf Hq Hn. unfold tables, table_of. rewrite Hc, Hq, Hn. by apply rtc_once, ta_all. Qed.

(** A connection under the next epoch. *)
Lemma new_tables h c expected side s s' :
  (side = true -> accept_backlog s < ACCEPT_BACKLOG)%nat -> 0 <= next_conn_epoch s < u64_max ->
  conns s' = <[h := ConnEntry_new c expected side (next_conn_epoch s)]> (conns s) ->
  accept_queue s' = accept_queue s -> next_conn_epoch s' = wrap64 (next_conn_epoch s + 1) ->
  tables s s'.
Proof.
  intros Hb Hn Hc Hq Hn'. unfold tables, table_of. rewrite Hc, Hq, Hn'.
  rewrite wrap64_small by (unfold u64_max in *; lia). apply rtc_once, ta_new; [|lia].
  by rewrite accept_backlog_table in Hb.
Qed.

End Table.

(** ** Every step of the world moves the table by actions *)
Section World.
Context {N : Noq} {L : NoqLaws}.

Lemma kick_table s : table_of (kick_pump s) = table_of s.
Proof. unfold kick_pump. simpl. by destruct (pump_waker s). Qed.

Lemma addr_for_peer_table p via s : table_of (addr_for_peer p via s).2 = table_of s.
Proof. unfold addr_for_peer. by case_match. Qed.

Lemma push_transmit_table a src t s s' :
  push_transmit a src t s = Done s' -> table_of s' = table_of s.
Proof.
  unfold push_transmit. destruct (slice_to _ _); intros; simplify_eq/=.
  unfold push_response. by repeat case_match.
Qed.

Lemma handle_datagram_tables now a src b s s' :
  0 <= next_conn_epoch s < u64_max -> handle_datagram now a src b s = Done s' -> tables s s'.
Proof.
  intros Hn. unfold handle_datagram. destruct (ep_handle now a b (noq s)) as [[[h ev|inc|t]|] ep].
  - destruct (conns _ !! h) as [e|] eqn:He; intros [= <-]; [|by apply tables_same]. simpl in He.
    eapply rtc_once, (ta_entry (conns s) (accept_queue s) (next_conn_epoch s) h e); [done|].
    apply ea_driven, driven_op, co_handle_event.
  - case_match; [by intros [= <-]; apply tables_same|].
    destruct (Nat.leb_spec ACCEPT_BACKLOG (accept_backlog (s <| noq := ep |>))) as [|Hlt].
    + destruct (ep_refuse inc _). intros Ht%push_transmit_table. by apply tables_same.
    + destruct (ep_accept inc now _) as [[[h c]|[t|]] ep'].
      * intros [= <-]. by apply (new_tables h c src true).
      * intros Ht%push_transmit_table. by apply tables_same.
      * intros [= <-]. by apply tables_same.
  - intros Ht%push_transmit_table. by apply tables_same.
  - intros [= <-]. by apply tables_same.
Qed.

(** A handler that first looks up the peer's standin. *)
Lemma standin_tables now p via b s s' :
  0 <= next_conn_epoch s < u64_max ->
  (let '(a, s1) := addr_for_peer p via s in handle_datagram now a (Some p) b s1) = Done s' ->
  tables s s'.
Proof.
  intros Hn. pose proof (addr_for_peer_table p via s) as Ht. destruct (addr_for_peer p via s) as [a s1].
  simpl in *. intros Hrun. transitivity s1; [by apply tables_same|].
  eapply handle_datagram_tables; [|exact Hrun]. by injection Ht as _ _ ->.
Qed.

Lemma close_all_tables now reason s : tables s (close_all now reason s).
Proof.
  eapply all_tables; [done| |done..]. intros e. simpl.
  destruct (live e); [|apply driven_refl]. by apply driven_op, co_close.
Qed.

Lemma handle_timeouts_tables now s : tables s (handle_timeouts now s).
Proof.
  eapply all_tables; [done| |done..]. intros e. simpl.
  repeat case_match; [by apply driven_op, co_timeout|apply driven_refl..].
Qed.

Lemma shut_tables now reason s :
  tables s (wake_waiters (kick_pump (close_all now reason
    (s <| closed := true |> <| closed_at := Some now |>)))).
Proof.
  transitivity (close_all now reason (s <| closed := true |> <| closed_at := Some now |>)).
  - etransitivity; [|apply close_all_tables]. by apply tables_same.
  - apply tables_same. unfold wake_waiters. simpl. apply kick_table.
Qed.

Lemma dial_remote_table p real k s : table_of (dial_remote p real k s).2 = table_of s.
Proof.
  unfold dial_remote. destruct real; [done|]. pose proof (addr_for_peer_table p k s) as Ht.
  destruct (addr_for_peer p k s). simpl in *. rewrite <- Ht. unfold follow_dial. by repeat case_match.
Qed.

Lemma connect_dial_tables now cfg p real k up s :
  0 <= next_conn_epoch s < u64_max -> tables s (connect_dial now cfg p real k up s).2.
Proof.
  intros Hn. rewrite connect_dial_eq. destruct (closed s); [done|].
  pose proof (dial_remote_table p real k s) as Ht. destruct (dial_remote p real k s) as [a s1].
  simpl in Ht. transitivity s1; [by apply tables_same|]. injection Ht as _ _ Hn1. rewrite <- Hn1 in Hn.
  destruct (ep_connect now cfg a (noq s1)) as [[[h c]|e] ep]; simpl; [|by apply tables_same].
  match goal with |- tables _ (kick_pump ?q) => transitivity q; [|apply tables_same, kick_table] end.
  by apply (new_tables h c (Some p) false).
Qed.

Lemma accept_check_tables s : tables s (accept_check s).2.
Proof.
  unfold accept_check. pose proof (accept_scan_spec s (accept_queue s)) as Hs.
  destruct (accept_scan s (accept_queue s)) as [found rest]. destruct Hs as (sk & _ & Hq).
  assert (exists pre, accept_queue s = pre ++ rest) as [pre Hpre].
  { destruct found as [x|]; destruct Hq as [-> ?]; [exists (sk ++ [x]); by rewrite <- app_assoc|].
    exists sk. subst. by rewrite app_nil_r. }
  assert (rtc table_act (table_of s) (MkTable (conns s) rest (next_conn_epoch s))) as Hr.
  { unfold table_of. rewrite Hpre. apply rtc_once, ta_accept. }
  by destruct found.
Qed.

Lemma register_channel_table p w s : table_of (register_channel p w s).2 = table_of s.
Proof.
  rewrite register_channel_eq. destruct (closed s); [done|].
  pose proof (addr_for_peer_table p (default HOME_RELAY (signaling_relay p s)) (with_channel p w s)) as Ht.
  destruct (addr_for_peer p _ (with_channel p w s)) as [a s2]. simpl in *.
  etransitivity; [apply kick_table|exact Ht].
Qed.

Lemma register_relay_table url c s : table_of (register_relay url c s).2 = table_of s.
Proof. unfold register_relay. simpl. etransitivity; [apply kick_table|done]. Qed.

Lemma ensure_relay_opened_table url c o s : table_of (ensure_relay_opened url c o s).2 = table_of s.
Proof.
  unfold ensure_relay_opened, register_relay. destruct o as [?|[|]]; simpl; [|done..].
  etransitivity; [apply kick_table|done].
Qed.

Lemma push_signal_table r p b s : table_of (push_signal_outbound r p b s) = table_of s.
Proof. unfold push_signal_outbound. etransitivity; [apply kick_table|done]. Qed.

Create HintDb tables.
#[local] Hint Resolve entry_update_tables : tables.
#[local] Hint Resolve open_stream_update accept_stream_update send_datagram_update recv_datagram_update
  connection_close_update write_check_update do_finish_update reset_update read_check_update
  stop_update dial_guard_drop_update : tables.
#[local] Hint Resolve shut_tables connect_dial_tables accept_check_tables : tables.
#[local] Hint Resolve tables_same register_channel_table register_relay_table
  ensure_relay_opened_table push_signal_table : tables.

Lemma caller_op_tables new s s' :
  0 <= next_conn_epoch s < u64_max -> caller_op new s s' -> tables s s'.
Proof.
  intros Hn Hop. destruct Hop; try (eauto with tables; fail);
    unfold handle_signal, begin_signaling, pop_signal_inbox, ensure_relay, endpoint_close,
      endpoint_drop, connection_drop, finish, send_stream_drop, recv_stream_drop;
    repeat case_match; eauto with tables.
Qed.

(** The pump's stretches that leave the table alone. *)
Lemma fail_home_table now rnd c p : table_of (st (fail_home now rnd c p)) = table_of (st p).
Proof. unfold fail_home, retire_home, arm_redial. repeat case_match; by simplify_eq/=. Qed.

Lemma fail_foreign_table key p : table_of (st (fail_foreign key p)) = table_of (st p).
Proof. unfold fail_foreign, retire_relay. simpl. by case_match. Qed.

Lemma sweep_table now rnd order p :
  table_of (st (foldl (sweep now rnd) p order)) = table_of (st p).
Proof.
  revert p. induction order as [|[k c] order IH]; intros p; [done|]. simpl. rewrite IH.
  destruct (wires p !! c) as [rc|]; [|done].
  destruct (probe_step now RELAY_PING_INTERVAL RELAY_PING_TIMEOUT rc) as [[] rc']; try done.
  case_match; [by rewrite fail_home_table|by rewrite fail_foreign_table].
Qed.

Lemma arm_table now order p : table_of (st (arm now order p)) = table_of (st p).
Proof.
  unfold arm. case_match; [|done]. unfold teardown_begin.
  match goal with |- context [foldl ?f ?p1 order] =>
    destruct (close_relays_frame order p1) as (es & -> & _) end. done.
Qed.

Lemma on_redial_table now rnd c opened p :
  table_of (st (on_redial now rnd c opened p)) = table_of (st p).
Proof. unfold on_redial, arm_redial. repeat case_match; by simplify_eq/=. Qed.

(** The select's arms. *)
Lemma on_relay_event_tables now rnd key c result p p' :
  0 <= next_conn_epoch (st p) < u64_max ->
  on_relay_event now rnd key c result p = Done p' -> tables (st p) (st p').
Proof.
  intros Hn. unfold on_relay_event. destruct result as [d|e].
  - set (p1 := if is_pool_current key c (st p) then _ else _).
    assert (st p1 = st p) as Hst by (subst p1; by case_match). case_decide.
    + intros [= <-]. apply tables_same. simpl. rewrite Hst. unfold handle_signal. by repeat case_match.
    + rewrite Hst. destruct (handle_relay_datagram _ _ _ _ _) eqn:E; simpl; [|done..].
      intros [= <-]. simpl. by apply (standin_tables now (source d) key (payload d) _ _ Hn E).
  - case_match; [by intros [= <-]|]. case_match; intros [= <-]; apply tables_same;
      [apply fail_home_table|apply fail_foreign_table].
Qed.

Lemma on_udp_event_tables now result p p' :
  0 <= next_conn_epoch (st p) < u64_max ->
  on_udp_event now result p = Done p' -> tables (st p) (st p').
Proof.
  intros Hn. unfold on_udp_event. destruct result as [[b r]|e]; [|by intros [= <-]].
  destruct (handle_udp_datagram _ _ _ _) as [s| |] eqn:E; simpl; [|done..]. intros [= <-]. simpl.
  by apply (handle_datagram_tables _ _ _ _ _ _ Hn E).
Qed.

Lemma on_channel_event_tables now id result p p' :
  0 <= next_conn_epoch (st p) < u64_max ->
  on_channel_event now id result p = Done p' -> tables (st p) (st p').
Proof.
  intros Hn. unfold on_channel_event. destruct result as [payload|e].
  - set (p1 := match channels (st p) !! id with Some _ => _ | None => _ end).
    assert (st p1 = st p) as Hst by (subst p1; by case_match).
    destruct payload as [b|]; [|intros [= <-]; by rewrite Hst]. rewrite Hst. unfold handle_channel_datagram.
    destruct (channels (st p) !! id) as [e|]; simpl; [|intros [= <-]; done].
    destruct (let '(_, _) := _ in _) as [s| |] eqn:E; simpl; [|done..]. intros [= <-]. simpl.
    by apply (standin_tables _ _ _ _ _ _ Hn E).
  - intros [= <-]. apply tables_same. simpl. unfold retire_channel. by repeat case_match.
Qed.

Lemma turn_top_tables fuel now order p p' :
  turn_top fuel now order p = Done p' -> tables (st p) (st p').
Proof.
  unfold turn_top. destruct (drain _ _ _ _) as [[any s]| |] eqn:E; simpl; [|done..].
  apply drain_order_tables in E. intros [= <-]. simpl. by case_match.
Qed.

#[local] Hint Resolve turn_top_tables on_relay_event_tables on_udp_event_tables on_channel_event_tables : tables.

Lemma pump_step_tables p p' :
  0 <= next_conn_epoch (st p) < u64_max -> pump_step p p' -> tables (st p) (st p').
Proof.
  intros Hn Hstep. destruct Hstep as
    [p p' fuel now order Hpc Ho Hrun|p Hpc|p key c now rnd res Hpc|p Hpc|p Hpc|p Hpc|p Hpc
    |p now order Hpc Ho|p p' key c rest now rnd result Hpc Hl Hrun
    |p p' u now result Hpc Hu Hr Hrun|p p' id w rest now result Hpc Hl Hrun
    |p delay now rnd c opened Hpc Hre Hc|p w s Hpc Hk|p w s Hpc Hk|p now rnd order Hpc Ht Ho
    |p order Hpc Ho|p kc rest Hpc Hl|p Hpc Hl|p Hpc|p iw rest Hpc Hl|p Hpc Hl|p Hpc];
    try done; try (eauto with tables; fail).
  - apply tables_same. unfold flush_relay. by repeat case_match.
  - apply tables_same. unfold relay_sent. case_match; [|done]. by rewrite fail_home_table.
  - apply tables_same. unfold flush_udp. by repeat case_match.
  - apply tables_same. unfold flush_channel. by repeat case_match.
  - apply tables_same, arm_table.
  - by apply on_relay_event_tables in Hrun.
  - by apply on_udp_event_tables in Hrun.
  - by apply on_channel_event_tables in Hrun.
  - apply tables_same. by rewrite on_redial_table.
  - apply tables_same. revert Hk. unfold kicked_poll. case_match; [|done]. by intros [= <-].
  - apply tables_same. revert Hk. unfold kicked_poll. case_match; [done|]. by intros [= <-].
  - unfold on_tick. etransitivity; [apply (handle_timeouts_tables now (st p))|].
    apply tables_same. by rewrite sweep_table.
Qed.

Lemma world_tables p p' : pump_inv p -> world p p' -> tables (st p) (st p').
Proof.
  intros Hi [Hroom Hs].
  assert (0 <= next_conn_epoch (st p) < u64_max) as Hn
    by (split; [apply (ci_next _ _ _ (wf_conn _ (pi_wf _ Hi)))|apply Hroom]).
  destruct Hs as [p p' Hs|p new rc s' Hop Hnew|p c rc rc' Hc Hcl]; [by apply pump_step_tables| |done].
  by eapply caller_op_tables.
Qed.

Lemma world_run_tables p p' : pump_inv p -> rtc world p p' -> tables (st p) (st p').
Proof.
  intros Hi Hr. induction Hr as [p|p p1 p2 Hw _ IH]; [done|]. etransitivity; [by apply world_tables|].
  apply IH. by eapply sys_step_inv, world_sys.
Qed.

End World.
