(* ===== verification/Lifecycle.v ===== *)
(** What the endpoint promises about each connection over a whole run: an
    abstract machine of one connection's life, which every run of the system
    refines, and what follows for the connection resource, for accept and for
    the backlog. The table's actions of [Table.v] carry the proofs. *)
From S2P Require Import Prelude RelayFrames RelayConn Types Udp Noq State StateInv Drain.
From S2P Require Import DrainInv Rely Redial Pump PumpInv PumpTheory Connection Streams.
From S2P Require Import StreamsInv Endpoint EndpointInv System Table.

(** ** The abstract machine

    A connection is named by its handle and epoch. It is born connecting,
    required to authenticate as someone or not; it opens at most once, as an
    identity it was allowed to have, and an incoming one then waits to be
    accepted; it closes; and waiting ends when accept takes it. *)
Inductive Phase :=
| Unborn
| Connecting (accepted : bool) (expected : option EndpointId)
| Open (accepted : bool) (peer : EndpointId) (alpn : bytes)
| Ended.

Inductive life_step : Phase * bool -> Phase * bool -> Prop :=
| life_born side expected : life_step (Unborn, false) (Connecting side expected, false)
(** The epoch went to another handle. *)
| life_skipped : life_step (Unborn, false) (Ended, false)
| life_opens side expected id alpn :
    expected = None \/ expected = Some id ->
    life_step (Connecting side expected, false) (Open side id alpn, side)
| life_closes ph w : ph <> Unborn -> life_step (ph, w) (Ended, w)
| life_accepted ph : life_step (ph, true) (ph, false).

Definition phase_rank (ph : Phase) : nat :=
  match ph with Unborn => 0 | Connecting _ _ => 1 | Open _ _ _ => 2 | Ended => 3 end.

Lemma life_rank v v' : rtc life_step v v' -> (phase_rank v.1 <= phase_rank v'.1)%nat.
Proof.
  induction 1 as [|v v1 v2 Hs _ IH]; [done|]. etransitivity; [|exact IH].
  destruct Hs; simpl; try lia. destruct ph; simpl; lia.
Qed.

(** Once open or ended and not waiting, a connection never waits again. *)
Lemma life_settled v v' :
  rtc life_step v v' -> (2 <= phase_rank v.1)%nat -> v.2 = false -> v'.2 = false.
Proof.
  induction 1 as [|v v1 v2 Hs _ IH]; [done|]. intros Hr Hw. apply IH.
  - pose proof (life_rank _ _ (rtc_once _ _ Hs)). lia.
  - destruct Hs; simpl in *; try done; lia.
Qed.

(** While it stays open, its peer and protocol stay the same. *)
Lemma life_open_fixed v v' side id a side' id' a' :
  rtc life_step v v' -> v.1 = Open side id a -> v'.1 = Open side' id' a' ->
  (side', id', a') = (side, id, a).
Proof.
  intros Hr. induction Hr as [v|v v1 v2 Hs Hr IH]; [congruence|]. intros Hv Hv2.
  apply life_rank in Hr. rewrite Hv2 in Hr. simpl in Hr.
  destruct Hs; simpl in *; try (exfalso; first [discriminate|lia]). auto.
Qed.

Section Lifecycle.
Context {N : Noq}.

(** ** The view of one connection *)

Definition entry_phase (e : ConnEntry) : Phase :=
  if is_closed_entry e then Ended
  else if connected e then
    match peer e with Some id => Open (accepted_side e) id (alpn e) | None => Ended end
  else Connecting (accepted_side e) (expected_peer e).

Definition phase (x : ConnectionHandle * Z) (t : Table) : Phase :=
  match t_conns t !! x.1 with
  | Some e => if epoch e =? x.2 then entry_phase e
              else if x.2 <? t_next t then Ended else Unborn
  | None => if x.2 <? t_next t then Ended else Unborn
  end.

Definition life (x : ConnectionHandle * Z) (t : Table) : Phase * bool :=
  (phase x t, bool_decide (x ∈ t_queue t)).

(** ** The table's invariant *)

Definition table_conn_inv (t : Table) : Prop := conn_inv (t_conns t) (t_next t) (t_queue t).

Lemma entry_act_rel h x x' :
  entry_act h x x' -> entry_rel h x.1 x'.1 /\ queue_rel h x.1 x'.1 x.2 x'.2.
Proof.
  intros Ha. destruct Ha as [e e' q Hd|e c a id q Hp Hex|e ev c c' a pc err q Hp Hev Hops|e q Hdr]; simpl.
  - split; [by apply driven_rel|apply queue_rel_refl].
  - split; [unfold entry_rel, authenticated; simpl; naive_solver|].
    destruct (accepted_side e) eqn:Ha; [|apply queue_rel_refl].
    exists [(h, epoch e)]. split_and!; [done|by constructor|done].
  - split; [unfold entry_rel, authenticated; simpl; naive_solver|apply queue_rel_refl].
  - split; [done|apply queue_rel_refl].
Qed.

Lemma driven_eta e e' : driven e e' ->
  epoch e' = epoch e /\ accepted_side e' = accepted_side e /\ expected_peer e' = expected_peer e /\
  connected e' = connected e /\ peer e' = peer e /\ alpn e' = alpn e /\ error e' = error e /\
  drained e' = drained e.
Proof. intros [-> _]. done. Qed.

Lemma table_conn_inv_act t t' : table_conn_inv t -> table_act t t' -> table_conn_inv t'.
Proof.
  intros Hi Ha. destruct Ha as [cs q n h e e' q' He Ha|cs q n f Hf|cs q n h c ex side Hb Hn|cs pre q n];
    unfold table_conn_inv in *; simpl in *.
  - destruct (entry_act_rel _ _ _ Ha). by eapply conn_inv_put.
  - apply conn_inv_fmap; [done|]. intros h e. by apply driven_rel.
  - by apply conn_inv_fresh.
  - destruct Hi as [? ? Hq Hr ?]. constructor; [done|done| |intros h ep e Hx; apply (Hr h ep e)|done];
      intros; [eapply Hq|]; apply elem_of_app; eauto.
Qed.

Lemma tables_conn_inv t t' : table_conn_inv t -> rtc table_act t t' -> table_conn_inv t'.
Proof. intros Hi Hr. induction Hr; [done|eauto using table_conn_inv_act]. Qed.

(** ** Phases only move forward *)

Lemma phase_entry x t e : t_conns t !! x.1 = Some e -> epoch e = x.2 -> phase x t = entry_phase e.
Proof. unfold phase. intros -> ->. by rewrite Z.eqb_refl. Qed.

Lemma phase_gone x t :
  (forall e, t_conns t !! x.1 = Some e -> epoch e <> x.2) ->
  phase x t = if x.2 <? t_next t then Ended else Unborn.
Proof.
  unfold phase. intros Hne. destruct (t_conns t !! x.1) as [e|]; [|done].
  destruct (Z.eqb_spec (epoch e) x.2) as [Heq|]; [by destruct (Hne e eq_refl)|done].
Qed.

(** An entry holds the connection, or the slot says it is gone or to come. *)
Lemma phase_cases x t :
  (exists e, t_conns t !! x.1 = Some e /\ epoch e = x.2 /\ phase x t = entry_phase e) \/
  ((forall e, t_conns t !! x.1 = Some e -> epoch e <> x.2) /\
   phase x t = if x.2 <? t_next t then Ended else Unborn).
Proof.
  destruct (t_conns t !! x.1) as [e|] eqn:E; [destruct (decide (epoch e = x.2))|].
  - left. exists e. split_and!; [done..|by apply phase_entry].
  - right. split; [congruence|]. apply phase_gone. congruence.
  - right. split; [done|]. apply phase_gone. congruence.
Qed.

Lemma entry_phase_driven e e' : driven e e' -> entry_phase e' = entry_phase e.
Proof.
  intros (_ & Hs & Hex & Hc & Hp & Ha & Her & Hd)%driven_eta.
  unfold entry_phase, is_closed_entry. by rewrite Hs, Hex, Hc, Hp, Ha, Her, Hd.
Qed.

Lemma entry_phase_forward h e e' :
  authenticated e -> entry_rel h e e' ->
  (phase_rank (entry_phase e) <= phase_rank (entry_phase e'))%nat.
Proof.
  intros Hau (_ & _ & _ & Hc & Hau' & Her & Hd). specialize (Hau' Hau). unfold authenticated in *.
  unfold entry_phase, is_closed_entry. destruct (drained e); [by rewrite Hd|].
  destruct (error e); simpl.
  { destruct (error e'); [by rewrite orb_true_r|by destruct Her]. }
  destruct (drained e' || _); [destruct (connected e), (peer e); simpl; lia|].
  destruct (connected e) eqn:E.
  - rewrite Hc in * by done. destruct (Hau eq_refl) as (i & -> & _), (Hau' eq_refl) as (i' & -> & _). done.
  - destruct (connected e'); [destruct (peer e')|]; simpl; lia.
Qed.

(** Before its epoch is handed out, a connection is unborn. *)
Lemma phase_next x t : table_conn_inv t -> t_next t <= x.2 -> phase x t = Unborn.
Proof.
  intros Hi Hle. rewrite phase_gone.
  - destruct (Z.ltb_spec x.2 (t_next t)); [lia|done].
  - intros e He%(ci_epoch _ _ _ Hi). lia.
Qed.

Lemma phase_new x cs q n h c expected side :
  conn_inv cs n q ->
  phase x (MkTable (<[h := ConnEntry_new c expected side n]> cs) q (n + 1)) =
  if decide (x.2 = n) then (if decide (x.1 = h) then Connecting side expected else Ended)
  else if decide (x.1 = h) then (if x.2 <? n then Ended else Unborn)
  else phase x (MkTable cs q n).
Proof.
  intros Hi. destruct x as [k ep]. unfold phase. simpl. rewrite lookup_insert.
  pose proof (ci_epoch _ _ _ Hi k) as Hep.
  destruct (decide (ep = n)) as [->|Hne]; [assert ((n <? n + 1) = true) as Hw by lia
    |assert ((ep <? n + 1) = (ep <? n)) as Hw by lia]; rewrite Hw;
    destruct (decide (k = h)) as [->|Hk]; rewrite ?decide_True, ?decide_False by done; simpl.
  - by rewrite Z.eqb_refl.
  - destruct (cs !! k) as [e|]; [|done]. specialize (Hep e eq_refl).
    by destruct (Z.eqb_spec (epoch e) n); [lia|].
  - by destruct (Z.eqb_spec n ep).
  - done.
Qed.

Lemma phase_act x t t' :
  table_conn_inv t -> table_act t t' -> (phase_rank (phase x t) <= phase_rank (phase x t'))%nat.
Proof.
  intros Hi Ha. destruct Ha as [cs q n h e e' q' He Ha|cs q n f Hf|cs q n h c ex side Hb Hn|cs pre q n];
    unfold table_conn_inv in Hi; simpl in *.
  - unfold phase. simpl. destruct (entry_act_rel _ _ _ Ha) as [Hrel _]. simpl in Hrel. rewrite lookup_insert.
    case_decide as Hx; [|done]. rewrite <- Hx, He. pose proof Hrel as [-> _].
    case_match; [|done]. eapply entry_phase_forward; [by eapply ci_auth|done].
  - unfold phase. simpl. rewrite lookup_fmap. destruct (cs !! x.1) as [e|]; simpl; [|done].
    rewrite (entry_phase_driven _ _ (Hf e)). by destruct (driven_eta _ _ (Hf e)) as [-> _].
  - rewrite (phase_new _ _ _ _ h c ex side Hi). case_decide as Hk.
    + rewrite phase_next by (by subst). case_decide; simpl; lia.
    + case_decide; [|done]. destruct (Z.ltb_spec x.2 n) as [Hlt|Hge].
      * destruct (phase x _); simpl; lia.
      * rewrite phase_next; [simpl; lia|exact Hi|simpl; lia].
  - unfold phase. done.
Qed.

Lemma phase_forward x t t' :
  table_conn_inv t -> rtc table_act t t' -> (phase_rank (phase x t) <= phase_rank (phase x t'))%nat.
Proof.
  intros Hi Hr. induction Hr as [t|t t1 t2 Ha _ IH]; [done|]. etransitivity; [by apply phase_act|].
  apply IH. by eapply table_conn_inv_act.
Qed.

(** ** What the resource's methods report *)

Definition res_name (c : ConnectionRes) : ConnectionHandle * Z := (handle c, minted c).

Definition phase_state (ph : Phase) : ConnectionState :=
  match ph with Connecting _ _ => CsConnecting | Open _ _ _ => CsOpen | Unborn | Ended => CsClosed end.

(** The methods report the connection's phase. *)
Definition reports (c : ConnectionRes) (s : State) (ph : Phase) : Prop :=
  conn_state c s = phase_state ph /\
  match ph with
  | Open side id a =>
      conn_peer c s = array_bytes id /\ conn_alpn c s = a /\
      exists e, entry_for s (handle c) (minted c) = Some e /\ accepted_side e = side /\
        peer e = Some id /\ (expected_peer e = None \/ expected_peer e = Some id)
  | _ => True
  end.

Lemma reports_phase c s : wf s -> reports c s (phase (res_name c) (table_of s)).
Proof.
  intros Hwf. unfold reports, phase, conn_state, conn_peer, conn_alpn, with_entry.
  destruct (entry_for s (handle c) (minted c)) as [e|] eqn:E.
  - pose proof E as [Hl Hep]%entry_for_Some. simpl. rewrite Hl, Hep, Z.eqb_refl. unfold entry_phase, entry_state.
    destruct (is_closed_entry e); [done|]. destruct (connected e) eqn:Hc; [|done].
    destruct (ci_auth _ _ _ (wf_conn _ Hwf) _ _ Hl Hc) as (id & Hid & Hex). rewrite Hid.
    split_and!; [done..|]. eauto.
  - unfold entry_for in E. simpl. destruct (conns s !! handle c) as [e|]; simpl.
    + destruct (epoch e =? minted c); [done|]. by case_match.
    + by case_match.
Qed.

End Lifecycle.

Section LifecycleTheory.
Context {N : Noq} {L : NoqLaws}.

Definition rank (c : ConnectionState) : nat :=
  match c with CsConnecting => 0 | CsOpen => 1 | CsClosed => 2 end.

Lemma rank_phase ph : ph <> Unborn -> S (rank (phase_state ph)) = phase_rank ph.
Proof. by destruct ph. Qed.

Lemma phase_born x t : x.2 < t_next t -> phase x t <> Unborn.
Proof.
  intros Hlt. destruct (phase_cases x t) as [(e & _ & _ & ->)|[_ ->]].
  - unfold entry_phase. by repeat case_match.
  - by rewrite (proj2 (Z.ltb_lt _ _) Hlt).
Qed.

(** C10. Lifecycles: whatever the pump and the other tasks' calls do, in
    whatever order, the endpoint stays in the states the pump's guarantees are
    about, and a connection's state, as seen by any resource, only moves from
    connecting over open to closed: [closed] is terminal, also once noq has
    reused the connection's slot for another connection, which the old resource
    never sees; and on an open connection the recorded peer is the one the
    connection was required to authenticate. *)
Theorem connection_lifecycle c p p' :
  reachable p -> minted c < next_conn_epoch (st p) -> rtc world p p' ->
  reachable p' /\ (rank (conn_state c (st p)) <= rank (conn_state c (st p')))%nat /\
  (conn_state c (st p) = CsClosed -> conn_state c (st p') = CsClosed) /\
  (conn_state c (st p') = CsOpen -> exists e id, entry_for (st p') (handle c) (minted c) = Some e /\
     peer e = Some id /\ conn_peer c (st p') = array_bytes id /\
     (expected_peer e = None \/ expected_peer e = Some id)).
Proof.
  intros Hreach Hm Hr. pose proof (reachable_inv _ Hreach) as Hi.
  pose proof (world_inv _ _ Hi Hr) as Hi'. pose proof (world_run_tables _ _ Hi Hr) as Ht.
  destruct (reports_phase c (st p) (pi_wf _ Hi)) as [Hc _].
  destruct (reports_phase c (st p') (pi_wf _ Hi')) as [Hc' Hopen].
  assert (rank (conn_state c (st p)) <= rank (conn_state c (st p')))%nat as Hrank.
  { rewrite Hc, Hc'. pose proof (phase_forward (res_name c) (table_of (st p)) _ (wf_conn _ (pi_wf _ Hi)) Ht) as Hle.
    pose proof (phase_born (res_name c) (table_of (st p)) Hm) as Hb. rewrite <- rank_phase in Hle by done.
    destruct (phase (res_name c) (table_of (st p'))); simpl in *; lia. }
  split_and!; [by eapply world_reachable|done| |].
  - intros Hcl. rewrite Hcl in Hrank. by destruct (conn_state c (st p')); simpl in Hrank; try lia.
  - rewrite Hc'. destruct (phase (res_name c) (table_of (st p'))) as [|? ?|side id a|]; [done..| |done].
    intros _. destruct Hopen as (Hp & _ & e & He & _ & Hid & Hex). eauto 10.
Qed.

(** ** Handshakes complete once *)

Context {H : HandshakeLaws}.

Record once (t : Table) : Prop := {
  on_conn : table_conn_inv t;
  on_unready h e : t_conns t !! h = Some e -> handshaking (conn e) = true ->
    connected e = false /\ is_closed_entry e = false;
  on_nodup : NoDup (t_queue t);
  on_backlog : (backlog t <= ACCEPT_BACKLOG)%nat;
}.

Lemma handshaking_ops c c' : rtc conn_op c c' -> handshaking c' = true -> handshaking c = true.
Proof. induction 1; [done|eauto using handshaking_op]. Qed.

(** An entry whose handshake may still complete has not connected or failed. *)
Definition entry_once (e : ConnEntry) : Prop :=
  handshaking (conn e) = true -> connected e = false /\ is_closed_entry e = false.

Lemma entry_once_driven e e' : driven e e' -> entry_once e -> entry_once e'.
Proof.
  intros Hd Ho Hh. pose proof (dr_ops _ _ Hd) as Hops. apply driven_eta in Hd.
  destruct Hd as (_ & _ & _ & Hc & _ & _ & Her & Hdr). unfold is_closed_entry. rewrite Hc, Her, Hdr.
  apply Ho. by eapply handshaking_ops.
Qed.

Lemma entry_act_once h x x' : entry_act h x x' -> entry_once x.1 -> entry_once x'.1.
Proof.
  intros Ha Ho. destruct Ha as [e e' q Hd|e c a id q Hp Hex|e ev c c' a pc err q Hp Hev Hops|e q Hdr]; simpl in *.
  - by eapply entry_once_driven.
  - intros Hh. simpl in Hh. destruct (handshaking_connected _ _ Hp). congruence.
  - intros Hh. simpl in Hh. apply (handshaking_ops _ _ Hops) in Hh.
    destruct Hev as [->|[r ->]]; [destruct (handshaking_connected _ _ Hp)|apply handshaking_lost in Hp]; congruence.
  - intros Hh. simpl in Hh. apply handshaking_drained in Hdr. congruence.
Qed.

(** *** Counting the entries that are not ready *)

Definition count (e : ConnEntry) : nat := if unready e then 1 else 0.

Lemma unready_fresh cs h e :
  cs !! h = None -> unready_count (<[h := e]> cs) = (unready_count cs + count e)%nat.
Proof.
  intros Hh. unfold unready_count, count. destruct (unready e) eqn:E.
  - rewrite map_filter_insert_True by done.
    rewrite map_size_insert_None by (by apply map_lookup_filter_None_2; left). lia.
  - rewrite map_filter_insert_False by (simpl; congruence). rewrite delete_id by done. lia.
Qed.

Lemma unready_set cs h e e' :
  cs !! h = Some e -> (unready_count (<[h := e']> cs) + count e = unready_count cs + count e')%nat.
Proof.
  intros He. rewrite <- (insert_delete_id cs h e He) at 2. rewrite <- (insert_delete_eq cs h e').
  rewrite !unready_fresh by apply lookup_delete_eq. lia.
Qed.

Lemma unready_driven f cs : (forall e, driven e (f e)) -> unready_count (f <$> cs) = unready_count cs.
Proof.
  intros Hf. unfold unready_count. rewrite map_filter_fmap, map_size_fmap. f_equal.
  apply map_filter_ext. intros h e _. simpl.
  destruct (driven_eta _ _ (Hf e)) as (_ & Hs & _ & Hc & _ & _ & Her & Hdr). unfold unready, is_closed_entry.
  by rewrite Hs, Hc, Her, Hdr.
Qed.

(** An action never adds to the entries and stamps that wait. *)
Lemma entry_act_backlog h x x' :
  entry_act h x x' -> entry_once x.1 ->
  (length x'.2 + count x'.1 <= length x.2 + count x.1)%nat.
Proof.
  intros Ha Ho. destruct Ha as [e e' q Hd|e c a id q Hp Hex|e ev c c' a pc err q Hp Hev Hops|e q Hdr]; simpl in *.
  - apply driven_eta in Hd. destruct Hd as (_ & Hs & _ & Hc & _ & _ & Her & Hdr).
    unfold count, unready, is_closed_entry. by rewrite Hs, Hc, Her, Hdr.
  - destruct (handshaking_connected _ _ Hp) as [Hh _]. destruct (Ho Hh) as [Hc Hcl].
    unfold count, unready. simpl. rewrite Hc, Hcl.
    destruct (accepted_side e); simpl; rewrite ?length_app; simpl; lia.
  - unfold count, unready, is_closed_entry. simpl. rewrite !orb_true_r, !andb_false_r. lia.
  - unfold count, unready, is_closed_entry. simpl. rewrite !andb_false_r. lia.
Qed.

Lemma entry_act_nodup cs n h x x' :
  entry_act h x x' -> entry_once x.1 -> conn_inv cs n x.2 -> cs !! h = Some x.1 ->
  NoDup x.2 -> NoDup x'.2.
Proof.
  intros Ha Ho Hi Hl Hn. destruct Ha as [| e c a id q Hp Hex | |]; simpl in *; [done| |done..].
  destruct (accepted_side e); [|done]. apply NoDup_app. split_and!; [done| |by apply NoDup_singleton].
  intros x Hx ->%list_elem_of_singleton. destruct (ci_ready _ _ _ Hi _ _ _ Hx Hl eq_refl) as [_ Hc].
  destruct (handshaking_connected _ _ Hp) as [Hh _]. destruct (Ho Hh). congruence.
Qed.

Lemma once_act t t' : once t -> table_act t t' -> once t'.
Proof.
  intros [Hi Hu Hd Hb] Ha. pose proof (table_conn_inv_act _ _ Hi Ha) as Hi'. unfold table_conn_inv in Hi.
  destruct Ha as [cs q n h e e' q' He Ha|cs q n f Hf|cs q n h c ex side Hnew Hn|cs pre q n]; simpl in *.
  - pose proof (entry_act_once _ _ _ Ha (Hu _ _ He)) as Ho'. constructor; simpl; [done| | |].
    + intros h' x. rewrite lookup_insert. case_decide; [intros [= <-]; apply Ho'|eauto].
    + by eapply (entry_act_nodup cs n h (e, q) (e', q') Ha (Hu _ _ He)).
    + pose proof (entry_act_backlog _ _ _ Ha (Hu _ _ He)) as Hle. simpl in Hle.
      pose proof (unready_set cs h e e' He). unfold backlog in *. simpl in *. lia.
  - constructor; simpl; [done| |done|].
    + intros h x. rewrite lookup_fmap. intros (e & He & ->)%fmap_Some.
      apply (entry_once_driven _ _ (Hf e)). exact (Hu _ _ He).
    + unfold backlog in *. simpl in *. by rewrite unready_driven.
  - constructor; simpl; [done| |done|].
    + intros h' x. rewrite lookup_insert. case_decide; [by intros [= <-]|eauto].
    + unfold backlog in *. simpl in *. assert (unready_count (<[h := ConnEntry_new c ex side n]> cs)
        <= unready_count cs + count (ConnEntry_new c ex side n))%nat as Hle.
      { destruct (cs !! h) as [e|] eqn:E; [|by rewrite unready_fresh].
        pose proof (unready_set cs h e (ConnEntry_new c ex side n) E). lia. }
      unfold count, unready in Hle. simpl in Hle. destruct side; simpl in Hle; [specialize (Hnew eq_refl)|]; lia.
  - apply NoDup_app in Hd as (_ & _ & Hd). constructor; simpl; [done|done|done|].
    unfold backlog in *. simpl in *. rewrite length_app in Hb. lia.
Qed.

Lemma once_acts t t' : once t -> rtc table_act t t' -> once t'.
Proof. intros Hi Hr. induction Hr; [done|eauto using once_act]. Qed.

(** ** Refinement *)

Lemma entry_act_life h e e' q q' :
  entry_act h (e, q) (e', q') -> authenticated e -> entry_once e ->
  (connected e = false -> (h, epoch e) ∉ q) ->
  rtc life_step (entry_phase e, bool_decide ((h, epoch e) ∈ q))
                (entry_phase e', bool_decide ((h, epoch e) ∈ q')).
Proof.
  intros Ha Hau Ho Hq. inversion Ha as [? ? ? Hd|? c a id ? Hp Hex|? ev c c' a pc err ? Hp Hev Hops|? ? Hdr];
    subst; clear Ha.
  - by rewrite (entry_phase_driven _ _ Hd).
  - destruct (handshaking_connected _ _ Hp) as [Hh _]. destruct (Ho Hh) as [Hc Hcl].
    rewrite (bool_decide_eq_false_2 (_ ∈ q)) by auto. unfold entry_phase. rewrite Hcl, Hc.
    unfold is_closed_entry in *. simpl. rewrite Hcl.
    assert (bool_decide ((h, epoch e) ∈ (if accepted_side e then q ++ [(h, epoch e)] else q)) = accepted_side e) as ->.
    { destruct (accepted_side e); [apply bool_decide_eq_true_2; set_solver|].
      by apply bool_decide_eq_false_2, Hq. }
    by apply rtc_once, life_opens.
  - unfold entry_phase at 2. unfold is_closed_entry at 1. simpl. rewrite orb_true_r.
    apply rtc_once, life_closes. unfold entry_phase. by repeat case_match.
  - unfold entry_phase at 2. unfold is_closed_entry at 1. simpl.
    apply rtc_once, life_closes. unfold entry_phase. by repeat case_match.
Qed.

(** Only the connection's own action adds its stamp. *)
Lemma queue_other h e e' q q' x :
  queue_rel h e e' q q' -> x <> (h, epoch e) -> (x ∈ q' <-> x ∈ q).
Proof.
  intros (l & -> & Hl & _) Hx. rewrite elem_of_app. split; [|by left]. intros [?|Hin]; [done|].
  rewrite Forall_forall in Hl. by apply Hl in Hin.
Qed.

Lemma life_act x t t' : once t -> table_act t t' -> rtc life_step (life x t) (life x t').
Proof.
  intros [Hi Hu _ _] Ha. unfold table_conn_inv in Hi.
  destruct Ha as [cs q n h e e' q' He Ha|cs q n f Hf|cs q n h c ex side Hnew Hn|cs pre q n];
    unfold life; simpl in *.
  - destruct (entry_act_rel _ _ _ Ha) as [Hrel Hqr]. simpl in *. destruct (decide (x = (h, epoch e))) as [->|Hne].
    + unfold phase. simpl. rewrite lookup_insert_eq, He. pose proof Hrel as [-> _]. rewrite Z.eqb_refl.
      apply (entry_act_life _ _ _ _ _ Ha); [by eapply ci_auth|exact (Hu _ _ He)|].
      intros Hc Hin. destruct (ci_ready _ _ _ Hi _ _ _ Hin He eq_refl). congruence.
    + rewrite (bool_decide_ext _ _ (queue_other _ _ _ _ _ x Hqr Hne)). unfold phase. simpl.
      rewrite lookup_insert. case_decide as Hx; [|done]. rewrite <- Hx, He. pose proof Hrel as [-> _].
      destruct (Z.eqb_spec (epoch e) x.2) as [Heq|]; [|done]. destruct Hne, x; simpl in *; congruence.
  - unfold phase. simpl. rewrite lookup_fmap. destruct (cs !! x.1) as [e|]; simpl; [|done].
    rewrite (entry_phase_driven _ _ (Hf e)). by destruct (driven_eta _ _ (Hf e)) as [-> _].
  - rewrite (phase_new _ _ _ _ h c ex side Hi). case_decide as Hk.
    + rewrite phase_next by (by subst). rewrite bool_decide_eq_false_2.
      2: { destruct x as [k ep]. intros Hin%(ci_queue _ _ _ Hi). simpl in Hk. lia. }
      case_decide; apply rtc_once; constructor.
    + case_decide; [|done]. destruct (Z.ltb_spec x.2 n) as [Hlt|Hge].
      * apply rtc_once, life_closes. by apply phase_born.
      * by rewrite phase_next.
  - unfold phase. simpl. destruct (bool_decide (x ∈ pre ++ q)) eqn:E1, (bool_decide (x ∈ q)) eqn:E2; [done| | |done].
    + apply rtc_once, life_accepted.
    + rewrite bool_decide_eq_true in E2. rewrite bool_decide_eq_false in E1. set_solver.
Qed.

Lemma life_acts x t t' : once t -> rtc table_act t t' -> rtc life_step (life x t) (life x t').
Proof.
  intros Hi Hr. induction Hr as [t|t t1 t2 Ha _ IH]; [done|]. etransitivity; [by apply life_act|].
  apply IH. by eapply once_act.
Qed.

(** The states the whole system reaches from [bind]. *)
Definition live_system (p : Pump) : Prop :=
  exists now ep w url c rc u, rtc world (bound now ep w url c rc u) p.

Lemma live_reachable p : live_system p -> reachable p.
Proof.
  intros (now & ep & w & url & c & rc & u & Hr). eapply world_reachable; [|exact Hr].
  by exists now, ep, w, url, c, rc, u.
Qed.

Lemma accept_check_rely s : rely s (accept_check s).2.
Proof.
  constructor; [apply accept_check_wf|unfold accept_check; by repeat case_match..].
Qed.

(** What [accept] returns was queued, is queued no longer, and has opened. *)
Lemma accept_takes s x s' :
  wf s -> NoDup (accept_queue s) -> accept_check s = (Some (Ok x), s') ->
  x ∈ accept_queue s /\ x ∉ accept_queue s' /\ (2 <= phase_rank (phase x (table_of s')))%nat.
Proof.
  intros Hwf Hnd Hacc.
  destruct (accept_check_takes s x s' Hwf Hacc) as (Hs' & sk & e & _ & Hq & He & _ & Hcon & id & Hid).
  rewrite Hq in Hnd |- *. apply NoDup_app in Hnd as (_ & _ & [Hnin _]%NoDup_cons).
  split_and!; [set_solver|done|]. apply entry_for_Some in He as [Hl Hep].
  rewrite (phase_entry x _ e); [|by rewrite Hs'|done]. unfold entry_phase. rewrite Hcon, Hid.
  case_match; simpl; lia.
Qed.

Lemma bound_table now ep w url c rc u :
  table_of (st (bound now ep w url c rc u)) = MkTable ∅ [] 0.
Proof. done. Qed.

Lemma live_system_inv p : live_system p -> pump_inv p /\ once (table_of (st p)).
Proof.
  intros (now & ep & w & url & c & rc & u & Hr).
  pose proof (bound_inv now ep w url c rc u) as Hi. split; [by eapply world_inv|].
  eapply once_acts; [|exact (world_run_tables _ _ Hi Hr)]. rewrite bound_table.
  constructor; simpl; [|done|constructor|unfold backlog, unready_count; simpl; rewrite map_filter_empty, map_size_empty; unfold ACCEPT_BACKLOG; lia].
  exact (wf_conn _ (pi_wf _ Hi)).
Qed.

(** C9. Refinement: whatever the pump and the other tasks do, each connection
    follows the abstract machine. At [bind] every connection is unborn; every
    run of the system is, for each handle and epoch, a run of the machine; and
    at every moment the resource's [state], [peer] and [alpn] are those of the
    machine's phase. So a connection opens at most once, only as an identity it
    was allowed to have, keeps that identity and protocol while open, never
    leaves [closed], and waits to be accepted only by opening. *)
Theorem connection_refines c p p' :
  live_system p -> rtc world p p' ->
  rtc life_step (life (res_name c) (table_of (st p))) (life (res_name c) (table_of (st p'))) /\
  reports c (st p') (life (res_name c) (table_of (st p'))).1 /\
  (0 <= minted c -> forall now ep w url r rc u,
     life (res_name c) (table_of (st (bound now ep w url r rc u))) = (Unborn, false)).
Proof.
  intros Hl Hr. destruct (live_system_inv p Hl) as [Hi Ho]. split_and!.
  - apply life_acts; [done|by apply world_run_tables].
  - apply reports_phase, (pi_wf _ (world_inv _ _ Hi Hr)).
  - intros Hm now ep w url r rc u. rewrite bound_table. unfold life, phase, res_name. simpl.
    destruct (Z.ltb_spec (minted c) 0); [lia|done].
Qed.

(** A connection that [accept] has taken never waits to be accepted again. *)
Lemma taken_stays_out p x s p' :
  live_system p -> accept_check (st p) = (Some (Ok x), s) -> rtc world (p <| st := s |>) p' ->
  x ∉ accept_queue (st p') /\ once (table_of (st p')) /\ wf (st p').
Proof.
  intros Hl Hacc Hr. destruct (live_system_inv p Hl) as [Hi Ho].
  pose proof (accept_check_tables (st p)) as Hpop. rewrite Hacc in Hpop. simpl in Hpop.
  pose proof (once_acts _ _ Ho Hpop) as Ho1.
  assert (pump_inv (p <| st := s |>)) as Hi1.
  { apply pump_inv_rely; [done|]. pose proof (accept_check_rely (st p)) as Hrel. by rewrite Hacc in Hrel. }
  pose proof (world_run_tables _ _ Hi1 Hr) as Ht.
  pose proof (life_acts x _ _ Ho1 Ht) as Hlife. simpl in Hlife.
  pose proof (accept_takes (st p) x s (pi_wf _ Hi) (on_nodup _ Ho) Hacc) as (Hin & Hout & Hph).
  apply life_settled in Hlife; [|exact Hph|by apply bool_decide_eq_false_2].
  apply bool_decide_eq_false in Hlife. split_and!; [exact Hlife|by eapply once_acts|].
  exact (pi_wf _ (world_inv _ _ Hi1 Hr)).
Qed.

(** C11. No connection is accepted twice: once [accept] has returned a
    connection, no later [accept], whatever happened in between, returns it
    again. *)
Theorem accepted_once p s x p' y s' :
  live_system p -> accept_check (st p) = (Some (Ok x), s) ->
  rtc world (p <| st := s |>) p' -> accept_check (st p') = (Some (Ok y), s') -> y <> x.
Proof.
  intros Hl Hacc Hr Hacc' ->. destruct (taken_stays_out p x s p' Hl Hacc Hr) as (Hout & Ho & Hwf).
  by destruct (accept_takes (st p') x s' Hwf (on_nodup _ Ho) Hacc') as [Hin _].
Qed.

(** C13. The accept backlog is bounded in every state the system reaches: the
    connections waiting to be accepted and the incoming ones still shaking hands
    are never more than 16 together, and none is queued twice. *)
Theorem backlog_bounded p :
  live_system p -> (accept_backlog (st p) <= ACCEPT_BACKLOG)%nat /\ NoDup (accept_queue (st p)).
Proof.
  intros Hl. destruct (live_system_inv p Hl) as [_ [_ _ Hd Hb]].
  by rewrite accept_backlog_table.
Qed.

End LifecycleTheory.
