(* ===== verification/Wakeups.v ===== *)
(** Wake-ups: the tasks of the endpoint sleep on wakers, a method's future on one
    of [State::waiters], the pump on [State::pump_waker], and nothing else resumes
    them. Every step of the system is examined for what it wakes: a waiter stays
    parked only while what its check reads stands still, and the pump sleeps only
    on empty queues. *)
From S2P Require Import Prelude RelayFrames RelayConn Types Udp Noq State StateInv Drain.
From S2P Require Import DrainInv Rely Redial Pump PumpInv PumpTheory Connection Streams.
From S2P Require Import StreamsInv Endpoint EndpointInv System Table Lifecycle.

Section Wakeups.
Context {N : Noq}.

(** ** What a step leaves of a parked task *)

(** The log grew; and [w] was fired on the way. *)
Definition logged (s s' : State) : Prop := exists es, effects s' = effects s ++ es.
Definition woken (w : Waker) (s s' : State) : Prop :=
  exists es, effects s' = effects s ++ es /\ Wake w ∈ es.

(** What the checks that wait on a connection read of its entry. *)
Definition outcome (e : ConnEntry) : Z * bool * option Error * bool * option CloseInfo :=
  (epoch e, connected e, error e, drained e, peer_close e).

(** A step that wakes nobody: the endpoint is not closed by it, the accept queue
    and the inboxes are at most consumed, and no entry's outcome moves, though a
    new connection may take a slot. *)
Record still (s s' : State) : Prop := {
  sl_closed : closed s' = closed s;
  sl_queue : exists pre, accept_queue s = pre ++ accept_queue s';
  sl_next : next_conn_epoch s <= next_conn_epoch s';
  sl_slots h : is_Some (conns s !! h) -> is_Some (conns s' !! h);
  sl_entries h e' : conns s' !! h = Some e' ->
    (exists e, conns s !! h = Some e /\ outcome e' = outcome e) \/ next_conn_epoch s <= epoch e';
  sl_inboxes p : exists pre,
    default [] (signal_inboxes s !! p) = pre ++ default [] (signal_inboxes s' !! p);
}.

(** No wake-up is lost: who was parked is woken, or parked still with nothing
    to see. *)
Definition keeps (s s' : State) : Prop :=
  logged s s' /\ forall w, w ∈ waiters s -> woken w s s' \/ (w ∈ waiters s' /\ still s s').

#[export] Instance logged_preorder : PreOrder logged.
Proof.
  split; [intros s; exists []; by rewrite app_nil_r|].
  intros a b c [es H1] [es' H2]. exists (es ++ es'). by rewrite H2, H1, app_assoc.
Qed.

Lemma woken_l w a b c : woken w a b -> logged b c -> woken w a c.
Proof.
  intros (es & H1 & Hw) [es' H2]. exists (es ++ es'). rewrite H2, H1, app_assoc. set_solver.
Qed.
Lemma woken_r w a b c : logged a b -> woken w b c -> woken w a c.
Proof.
  intros [es H1] (es' & H2 & Hw). exists (es ++ es'). rewrite H2, H1, app_assoc. set_solver.
Qed.

#[export] Instance still_preorder : PreOrder still.
Proof.
  split.
  - intros s. split; [done|by exists []|done|done|eauto|by exists []].
  - intros a b c [H1 [q1 H2] H3 H4 H5 H6] [G1 [q2 G2] G3 G4 G5 G6]. split.
    + by rewrite G1.
    + exists (q1 ++ q2). by rewrite H2, G2, app_assoc.
    + lia.
    + auto.
    + intros h e He. apply G5 in He as [(e1 & He1 & Ho)|Hn]; [|right; lia]. apply H5 in He1 as [(e0 & He0 & Ho0)|Hn].
      * left. exists e0. split; [done|]. by rewrite Ho.
      * right. unfold outcome in Ho. simplify_eq. congruence.
    + intros p. destruct (H6 p) as [x Hx], (G6 p) as [y Hy]. exists (x ++ y). by rewrite Hx, Hy, app_assoc.
Qed.

#[export] Instance keeps_preorder : PreOrder keeps.
Proof.
  split.
  - intros s. split; [done|]. intros w Hw. by right.
  - intros a b c [L1 K1] [L2 K2]. split; [by etransitivity|]. intros w Hw.
    destruct (K1 w Hw) as [Hk|[Hk Hs]]; [left; by eapply woken_l|].
    destruct (K2 w Hk) as [Hk2|[Hk2 Hs2]]; [left; by eapply woken_r|].
    right. split; [done|]. by etransitivity.
Qed.

(** The part of the state these conditions look at. *)
Definition view (s : State) := (table_of s, closed s, signal_inboxes s, waiters s).

Lemma still_view s s' : view s' = view s -> still s s'.
Proof.
  unfold view, table_of. intros [= Hc Hq Hn Hcl Hi _].
  split; rewrite ?Hc, ?Hq, ?Hn, ?Hi; [done|by exists []|done|done|eauto|by exists []].
Qed.

Lemma keeps_view s s' : view s' = view s -> logged s s' -> keeps s s'.
Proof.
  intros Hv Hl. split; [done|]. intros w Hw. right. split; [|by apply still_view].
  unfold view in Hv. by injection Hv as _ _ _ _ _ ->.
Qed.

(** The log untouched. *)
Lemma logged_same s s' : effects s' = effects s -> logged s s'.
Proof. intros Hs. exists []. by rewrite app_nil_r. Qed.

Lemma keeps_still s s' : effects s' = effects s -> waiters s' = waiters s -> still s s' -> keeps s s'.
Proof. intros He Hw Hs. split; [by apply logged_same|]. intros w Hin. right. by rewrite Hw. Qed.

Lemma keeps_same s s' : view s' = view s -> effects s' = effects s -> keeps s s'.
Proof. intros Hv He. apply keeps_view; [done|by apply logged_same]. Qed.

Lemma keeps_emit es s : keeps s (emit es s).
Proof. apply keeps_view; [done|by exists es]. Qed.

(** Everyone is woken. *)
Lemma keeps_wake s s' : logged s s' -> (forall w, w ∈ waiters s -> w ∈ waiters s') -> keeps s (wake_waiters s').
Proof.
  intros [es He] Hw. split; [exists (es ++ (Wake <$> waiters s')); simpl; by rewrite He, app_assoc|].
  intros w Hin. left. exists (es ++ (Wake <$> waiters s')). simpl. rewrite He, app_assoc. split; [done|].
  apply elem_of_app. right. apply list_elem_of_fmap. eauto.
Qed.

(** ** The other tasks' operations *)

(** What the pump has to move before it may sleep. *)
Definition queued (s : State) :=
  (relay_outbound s, udp_outbound s, channel_outbound s, new_relays s, new_channels s, pending_upgrades s).
Definition pump_flags (s : State) : bool * option Waker := (pump_kicked s, pump_waker s).

(** An operation kicks the pump, firing the waker it sleeps on, or leaves it no
    new work. *)
Definition nudges (s s' : State) : Prop :=
  (pump_kicked s' = true /\ pump_waker s' = None /\ forall w, pump_waker s = Some w -> woken w s s') \/
  (queued s' = queued s /\ pump_flags s' = pump_flags s).

Record tells (s s' : State) : Prop := { tl_keeps : keeps s s'; tl_nudges : nudges s s' }.

#[export] Instance tells_preorder : PreOrder tells.
Proof.
  split; [by split; [|right]|]. intros a b c [K1 N1] [K2 N2]. split; [by etransitivity|].
  destruct K1 as [L1 _], K2 as [L2 _]. destruct N2 as [(Hk & Hw & Hf)|[Hq Hf]].
  - left. split_and!; [done..|]. intros w Hb. destruct N1 as [(_ & _ & Hf1)|[_ Hf1]].
    + by eapply woken_l; [apply Hf1|].
    + unfold pump_flags in Hf1. injection Hf1 as _ Hf1. eapply woken_r; [done|]. apply Hf. by rewrite Hf1.
  - destruct N1 as [(Hk & Hw & Hf1)|[Hq1 Hf1]].
    + left. unfold pump_flags in Hf. injection Hf as -> ->. split_and!; [done..|]. intros w Hb. eapply woken_l; [by apply Hf1|done].
    + right. by rewrite Hq, Hf.
Qed.

Lemma kick_view s : view (kick_pump s) = view s.
Proof. unfold kick_pump. simpl. by destruct (pump_waker s). Qed.
Lemma kick_logged s : logged s (kick_pump s).
Proof.
  unfold kick_pump. simpl. destruct (pump_waker s) as [w|]; [by exists [Wake w]|by apply logged_same].
Qed.

(** Kicking at the end of a change. *)
Lemma nudges_kick s s' : logged s s' -> pump_waker s' = pump_waker s -> nudges s (kick_pump s').
Proof.
  intros [es Hes] Hw. left. unfold kick_pump. simpl. rewrite Hw.
  destruct (pump_waker s) as [w|] eqn:E; simpl; [|by split_and!]. split_and!; [done..|].
  intros w' [= <-]. exists (es ++ [Wake w]). simpl. rewrite Hes, app_assoc. set_solver.
Qed.

Lemma tells_kick s s' : keeps s s' -> pump_waker s' = pump_waker s -> tells s (kick_pump s').
Proof.
  intros Hk Hw. split; [|apply nudges_kick; [apply Hk|done]].
  etransitivity; [done|]. apply keeps_view; [apply kick_view|apply kick_logged].
Qed.

Lemma tells_quiet s s' : keeps s s' -> queued s' = queued s -> pump_flags s' = pump_flags s -> tells s s'.
Proof. intros Hk Hq Hf. split; [done|]. by right. Qed.

(** Operations on one connection. *)
Lemma eu_still h ep s s' : entry_update h ep s s' -> still s s'.
Proof.
  intros [_ Ho He (_ & Hq & Hn) Hf].
  assert (closed s' = closed s /\ signal_inboxes s' = signal_inboxes s) as [Hc Hi].
  { destruct Hf as [->| ->]; [done|]. unfold kick_pump. simpl. by destruct (pump_waker s). }
  assert (forall e', conns s' !! h = Some e' -> exists e, conns s !! h = Some e /\ outcome e' = outcome e) as Hh.
  { intros e' He'. destruct (entry_for s h ep) as [e|] eqn:E; [|rewrite He in He'; eauto].
    apply entry_for_Some in E as [E _]. destruct He as (e1 & He1 & [Hr _]). simplify_eq.
    exists e. split; [done|]. by rewrite Hr. }
  split; rewrite ?Hq, ?Hn, ?Hi; [done|by exists []|done| | |by exists []].
  - intros h'. destruct (decide (h' = h)) as [->|Hne]; [|by rewrite Ho]. intros [e0 H0].
    destruct (entry_for s h ep); [by destruct He as (e1 & -> & _)|by rewrite He].
  - intros h' e' He'. left. destruct (decide (h' = h)) as [->|Hne]; [by apply Hh|].
    rewrite Ho in He' by done. eauto.
Qed.

Lemma eu_tells h ep s s' : entry_update h ep s s' -> tells s s'.
Proof.
  intros Hu. pose proof (eu_still _ _ _ _ Hu) as Hs. destruct (eu_frame _ _ _ _ Hu) as [Heq|Heq].
  - apply tells_quiet; [|by rewrite Heq..]. apply keeps_still; [by rewrite Heq..|done].
  - rewrite Heq. apply tells_kick; [|done]. apply keeps_still; [done..|].
    etransitivity; [exact Hs|]. apply still_view.
    rewrite <- (kick_view (s <| conns := conns s' |>)). by rewrite <- Heq.
Qed.

(** A new connection, under the next epoch; calls on all connections. *)
Lemma still_new h e s s' :
  0 <= next_conn_epoch s < u64_max -> epoch e = next_conn_epoch s ->
  conns s' = <[h := e]> (conns s) -> next_conn_epoch s' = wrap64 (next_conn_epoch s + 1) ->
  accept_queue s' = accept_queue s -> closed s' = closed s -> signal_inboxes s' = signal_inboxes s ->
  still s s'.
Proof.
  intros Hn He Hc Hn' Hq Hcl Hi. rewrite wrap64_small in Hn' by (unfold u64_max in *; lia).
  split; rewrite ?Hc, ?Hn', ?Hq, ?Hi; [done|by exists []|lia| | |by exists []].
  - intros h' [x Hx]. rewrite lookup_insert. case_decide; eauto.
  - intros h' e'. rewrite lookup_insert. case_decide; [intros [= <-]; right; lia|eauto].
Qed.

Lemma still_all f s s' :
  conns s' = f <$> conns s -> (forall e, outcome (f e) = outcome e) ->
  accept_queue s' = accept_queue s -> next_conn_epoch s' = next_conn_epoch s ->
  closed s' = closed s -> signal_inboxes s' = signal_inboxes s -> still s s'.
Proof.
  intros Hc Hf Hq Hn Hcl Hi. split; rewrite ?Hc, ?Hn, ?Hq, ?Hi; [done|by exists []|done| | |by exists []].
  - intros h Hs. by rewrite lookup_fmap, fmap_is_Some.
  - intros h e'. rewrite lookup_fmap. intros (e & He & ->)%fmap_Some. eauto.
Qed.

Lemma handle_timeouts_still now s : still s (handle_timeouts now s).
Proof. eapply still_all; [done| |done..]. intros e. simpl. by repeat case_match. Qed.

(** An inbox is at most consumed. *)
Lemma still_inboxes s s' :
  table_of s' = table_of s -> closed s' = closed s ->
  (forall p, exists pre, default [] (signal_inboxes s !! p) = pre ++ default [] (signal_inboxes s' !! p)) ->
  still s s'.
Proof.
  unfold table_of. intros [= Hc Hq Hn] Hcl Hi.
  split; rewrite ?Hc, ?Hn, ?Hq; [done|by exists []|done|done|eauto|done].
Qed.

Lemma pop_signal_tells p s : tells s (pop_signal_inbox p s).2.
Proof.
  unfold pop_signal_inbox. destruct (signal_inboxes s !! p) as [[|b rest]|] eqn:E; [done| |done].
  apply tells_quiet; [|done..]. apply keeps_still; [done..|]. apply still_inboxes; [done..|]. intros q.
  simpl. rewrite lookup_insert. case_decide; [subst; rewrite E; by exists [b]|by exists []].
Qed.

Lemma end_signaling_tells p s : tells s (end_signaling p s).
Proof.
  apply tells_quiet; [|done..]. apply keeps_still; [done..|]. apply still_inboxes; [done..|]. intros q.
  simpl. rewrite lookup_delete. case_decide; [subst; eexists; by rewrite app_nil_r|by exists []].
Qed.

Lemma handle_signal_tells via p b s : tells s (handle_signal via p b s).
Proof.
  unfold handle_signal. destruct (_ || _); [done|].
  destruct (signaling s !! p); (apply tells_quiet; [|done..]).
  - apply keeps_wake; [by apply logged_same|done].
  - etransitivity; [|apply keeps_emit]. apply keeps_wake; [by apply logged_same|done].
Qed.

Lemma addr_for_peer_frame p via s :
  let s' := (addr_for_peer p via s).2 in
  view s' = view s /\ effects s' = effects s /\ queued s' = queued s /\ pump_flags s' = pump_flags s.
Proof. unfold addr_for_peer. by case_match. Qed.

Lemma dial_remote_frame p real k s :
  let s' := (dial_remote p real k s).2 in
  view s' = view s /\ effects s' = effects s /\ queued s' = queued s /\ pump_flags s' = pump_flags s.
Proof.
  unfold dial_remote. destruct real; [done|]. pose proof (addr_for_peer_frame p k s) as Hf.
  destruct (addr_for_peer p k s) as [a s1]. simpl in *. unfold follow_dial. by repeat case_match.
Qed.

Lemma register_channel_tells p w s : tells s (register_channel p w s).2.
Proof.
  rewrite register_channel_eq. destruct (closed s).
  { apply tells_quiet; [apply keeps_emit|done..]. }
  pose proof (addr_for_peer_frame p (default HOME_RELAY (signaling_relay p s)) (with_channel p w s)) as (Hv & He & _ & Hf).
  destruct (addr_for_peer p _ _) as [a s1]. simpl in *. apply tells_kick.
  - apply keeps_same; [exact Hv|exact He].
  - simpl. unfold pump_flags in Hf. by injection Hf as _ Hf.
Qed.

Lemma register_relay_tells url c s : tells s (register_relay url c s).2.
Proof. simpl. apply tells_kick; [by apply keeps_same|done]. Qed.

Lemma connect_dial_tells now cfg p real k up s :
  0 <= next_conn_epoch s < u64_max -> tells s (connect_dial now cfg p real k up s).2.
Proof.
  intros Hn. rewrite connect_dial_eq. destruct (closed s); [done|].
  pose proof (dial_remote_frame p real k s) as (Hv & He & Hq & Hf).
  destruct (dial_remote p real k s) as [a s1]. simpl in *.
  assert (tells s s1) as Hs1 by (apply tells_quiet; [by apply keeps_same|done..]).
  etransitivity; [exact Hs1|]. unfold view, table_of in Hv. injection Hv as _ _ Hn1 _ _ _.
  destruct (ep_connect now cfg a (noq s1)) as [[[h c]|e] ep]; simpl.
  - apply tells_kick; [|done]. apply keeps_still; [done..|].
    apply (still_new h (ConnEntry_new c (Some p) false (next_conn_epoch s1))); try done. by rewrite Hn1.
  - apply tells_quiet; [by apply keeps_same|done..].
Qed.

(** Closing the endpoint wakes everyone, and the pump. *)
Lemma nudges_wake s s' : nudges s s' -> nudges s (wake_waiters s').
Proof.
  intros [(Hk & Hp & Hf)|Hn]; [left|by right]. split_and!; [done..|]. intros w Hs.
  eapply woken_l; [by apply Hf|]. by exists (Wake <$> waiters s').
Qed.

Lemma shut_tells now reason s :
  tells s (wake_waiters (kick_pump (close_all now reason
    (s <| closed := true |> <| closed_at := Some now |>)))).
Proof.
  set (s1 := close_all now reason _). split; [|by apply nudges_wake, (nudges_kick s s1); [apply logged_same|]].
  assert (logged s (kick_pump s1)) as Hl by apply (kick_logged s1).
  apply keeps_wake; [done|]. pose proof (kick_view s1) as Hv. unfold view in Hv. by injection Hv as _ _ _ _ _ ->.
Qed.

Lemma wake_tells s s' :
  effects s' = effects s -> waiters s' = waiters s -> queued s' = queued s -> pump_flags s' = pump_flags s ->
  tells s (wake_waiters s').
Proof.
  intros He Hw Hq Hf. apply tells_quiet; [|done..]. apply keeps_wake; [by apply logged_same|by rewrite Hw].
Qed.

Lemma accept_check_tells s : tells s (accept_check s).2.
Proof.
  unfold accept_check. pose proof (accept_scan_spec s (accept_queue s)) as Hs.
  destruct (accept_scan s (accept_queue s)) as [found rest]. destruct Hs as (sk & _ & Hq).
  assert (exists pre, accept_queue s = pre ++ rest) as Hpre.
  { destruct found as [x|]; destruct Hq as [Hq Hr]; [exists (sk ++ [x]); by rewrite Hq, <- app_assoc|].
    exists sk. by rewrite Hr, app_nil_r. }
  assert (tells s (s <| accept_queue := rest |>)) as Ht; [|by destruct found].
  apply tells_quiet; [|done..]. apply keeps_still; [done..|]. split; simpl; [done|done|done|done|eauto|by exists []].
Qed.

Create HintDb tells.
#[local] Hint Resolve eu_tells : tells.
#[local] Hint Resolve open_stream_update accept_stream_update send_datagram_update recv_datagram_update
  connection_close_update write_check_update do_finish_update reset_update read_check_update
  stop_update dial_guard_drop_update : tells.
#[local] Hint Resolve handle_signal_tells pop_signal_tells end_signaling_tells register_channel_tells
  register_relay_tells connect_dial_tells shut_tells accept_check_tells : tells.

Lemma ensure_opened_tells url c o s : tells s (ensure_relay_opened url c o s).2.
Proof.
  unfold ensure_relay_opened. set (s1 := wake_waiters _).
  assert (tells s s1) as H1 by by apply wake_tells. destruct o as [?|[|]]; [|done..].
  etransitivity; [exact H1|]. pose proof (register_relay_tells url c s1). by destruct (register_relay url c s1).
Qed.

Lemma caller_op_tells new s s' :
  0 <= next_conn_epoch s < u64_max -> caller_op new s s' -> tells s s'.
Proof.
  intros Hn Hop. destruct Hop; try (eauto with tells; fail).
  - unfold begin_signaling. case_match; [done|]. by apply tells_quiet; [apply keeps_same|..].
  - apply tells_kick; [by apply keeps_same|done].
  - apply tells_quiet; [|done..]. split; [by apply logged_same|]. intros v Hv. right. simpl.
    split; [set_solver|]. split; simpl; [done|by exists []|done|done|eauto|by exists []].
  - unfold ensure_relay. repeat case_match; try done; (apply tells_quiet; [by apply keeps_same|done..]).
  - apply ensure_opened_tells.
  - by apply wake_tells.
  - unfold endpoint_close. case_match; [done|apply shut_tells].
  - unfold endpoint_drop. case_match; [done|apply shut_tells].
  - unfold finish. repeat case_match; try done. eapply eu_tells, do_finish_update.
  - unfold send_stream_drop. case_match; [done|]. eapply eu_tells, reset_update.
  - unfold recv_stream_drop. repeat case_match; try done. eapply eu_tells, stop_update.
Qed.
End Wakeups.

(** ** The pump's stretches *)
Section PumpSteps.
Context {N : Noq} {L : NoqLaws}.

(** They lose no wake-up either, and leave the kick to its await. *)
Record pumped (s s' : State) : Prop := { pm_keeps : keeps s s'; pm_flags : pump_flags s' = pump_flags s }.

#[export] Instance pumped_preorder : PreOrder pumped.
Proof. split; [done|]. intros a b c [] []. split; [by etransitivity|congruence]. Qed.

Lemma pumped_same s s' : view s' = view s -> effects s' = effects s -> pump_flags s' = pump_flags s -> pumped s s'.
Proof. intros. split; [by apply keeps_same|done]. Qed.
Lemma pumped_still s s' :
  effects s' = effects s -> waiters s' = waiters s -> pump_flags s' = pump_flags s -> still s s' -> pumped s s'.
Proof. intros. split; [by apply keeps_still|done]. Qed.
Lemma pumped_emit es s : pumped s (emit es s).
Proof. split; [apply keeps_emit|done]. Qed.
Lemma pumped_wake s : pumped s (wake_waiters s).
Proof. split; [by apply keeps_wake|done]. Qed.

Lemma drain_moves fuel now order any s s' :
  wf s -> drain fuel now order s = Done (any, s') ->
  drain_frame s s' /\ (any = false -> unobservable s s').
Proof.
  intros Hwf Hrun. destruct (enough_fuel s) as [m Hm].
  destruct (drain_order_ok (fuel + m) now order false s Hwf) as (any2 & s2 & Hrun2 & _ & Hfr & Hob).
  { intros h e He. specialize (Hm h e He). lia. }
  pose proof (drain_order_le fuel (fuel + m) now order false s ltac:(lia) _ Hrun) as Hrun3.
  rewrite Hrun2 in Hrun3. simplify_eq. split; [done|]. intros Ha. by apply Hob.
Qed.

Lemma unobservable_still s s' : drain_frame s s' -> unobservable s s' -> still s s'.
Proof.
  intros [Hfr Hcs _] (Hq & _ & Hc). split; try (rewrite Hfr; done).
  - exists []. by rewrite Hq.
  - intros h [e He]. specialize (Hcs h). rewrite He in Hcs. destruct (conns s' !! h); [eauto|done].
  - intros h e' (e & c & He & ->)%Hc. left. by exists e.
  - intros p. exists []. by rewrite Hfr.
Qed.

Lemma turn_top_pumped fuel now order p p' :
  wf (st p) -> turn_top fuel now order p = Done p' ->
  pumped (st p) (st p') /\
  (force_wake p = true -> waiters (st p') = [] /\ forall w, w ∈ waiters (st p) -> woken w (st p) (st p')).
Proof.
  intros Hwf. unfold turn_top. destruct (drain fuel now order (st p)) as [[any s]| |] eqn:E; simpl; [|done..].
  apply drain_moves in E as [Hfr Hob]; [|done]. pose proof (df_frame _ _ Hfr) as Hs.
  assert (effects s = effects (st p) /\ waiters s = waiters (st p) /\ pump_flags s = pump_flags (st p))
    as (He & Hw & Hf) by by rewrite Hs.
  assert (forall w, w ∈ waiters (st p) -> woken w (st p) (wake_waiters s)) as Hall.
  { intros w Hin. exists (Wake <$> waiters s). simpl. rewrite He, Hw. split; [done|].
    apply list_elem_of_fmap. eauto. }
  intros [= <-]. simpl. destruct (any || force_wake p) eqn:Ea.
  - split; [|by intros _]. split; [|done]. apply keeps_wake; [by apply logged_same|by rewrite Hw].
  - apply orb_false_iff in Ea as [-> ->]. split; [|done]. apply pumped_still; [done..|].
    apply unobservable_still; auto.
Qed.

Lemma push_transmit_pumped a src t s s' : push_transmit a src t s = Done s' -> pumped s s'.
Proof.
  unfold push_transmit. destruct (slice_to _ _); intros; simplify_eq/=.
  unfold push_response. repeat case_match; by apply pumped_same.
Qed.

Lemma handle_datagram_pumped now a src b s s' :
  0 <= next_conn_epoch s < u64_max -> handle_datagram now a src b s = Done s' -> pumped s s'.
Proof.
  intros Hn. unfold handle_datagram. destruct (ep_handle now a b (noq s)) as [[[h ev|inc|t]|] ep].
  - destruct (conns _ !! h) as [e|] eqn:He; intros [= <-]; [|by apply pumped_same].
    apply pumped_still; [done..|]. simpl in He. split; simpl; [done|by exists []|done| | |by exists []].
    + intros h' [x Hx]. rewrite lookup_insert. case_decide; eauto.
    + intros h' e'. rewrite lookup_insert. case_decide; [|eauto]. intros [= <-]. subst. eauto.
  - case_match; [by intros [= <-]; apply pumped_same|]. case_match.
    + destruct (ep_refuse inc _). intros Ht%push_transmit_pumped. etransitivity; [|exact Ht]. by apply pumped_same.
    + destruct (ep_accept inc now _) as [[[h c]|[t|]] ep'].
      * intros [= <-]. apply pumped_still; [done..|].
        by apply (still_new h (ConnEntry_new c src true (next_conn_epoch s))).
      * intros Ht%push_transmit_pumped. etransitivity; [|exact Ht]. by apply pumped_same.
      * intros [= <-]. by apply pumped_same.
  - intros Ht%push_transmit_pumped. etransitivity; [|exact Ht]. by apply pumped_same.
  - intros [= <-]. by apply pumped_same.
Qed.

Lemma standin_pumped now p via b s s' :
  0 <= next_conn_epoch s < u64_max ->
  (let '(a, s1) := addr_for_peer p via s in handle_datagram now a (Some p) b s1) = Done s' -> pumped s s'.
Proof.
  intros Hn. pose proof (addr_for_peer_frame p via s) as (Hv & He & _ & Hf).
  destruct (addr_for_peer p via s) as [a s1]. simpl in *. intros Hrun.
  transitivity s1; [by apply pumped_same|]. eapply handle_datagram_pumped; [|exact Hrun].
  unfold view, table_of in Hv. by injection Hv as _ _ -> _ _ _.
Qed.

Lemma fail_home_pumped now rnd c p : pumped (st p) (st (fail_home now rnd c p)).
Proof.
  unfold fail_home, retire_home, arm_redial. destruct (is_pool_current _ _ _); simpl; [|done].
  destruct (next_redial_delay _ _ _ _) as [[d a] sn]. simpl. etransitivity; [|apply pumped_emit]. by apply pumped_same.
Qed.

Lemma fail_foreign_pumped key p : pumped (st p) (st (fail_foreign key p)).
Proof.
  unfold fail_foreign, retire_relay. simpl. case_match; simpl; [|by apply pumped_same].
  etransitivity; [|apply pumped_emit]. by apply pumped_same.
Qed.

Lemma sweep_pumped now rnd order p : pumped (st p) (st (foldl (sweep now rnd) p order)).
Proof.
  revert p. induction order as [|[k c] order IH]; intros p; [done|]. simpl. etransitivity; [|apply IH].
  destruct (wires p !! c) as [rc|]; [|done].
  destruct (probe_step now RELAY_PING_INTERVAL RELAY_PING_TIMEOUT rc) as [[] rc']; [done|apply pumped_emit|].
  set (p1 := p <| wires ::= <[c := rc']> |>).
  case_match; [exact (fail_home_pumped now rnd c p1)|exact (fail_foreign_pumped k p1)].
Qed.

Lemma on_tick_pumped now rnd order p : pumped (st p) (st (on_tick now rnd order p)).
Proof. unfold on_tick. etransitivity; [|apply sweep_pumped]. apply pumped_still; [done..|apply handle_timeouts_still]. Qed.

Lemma arm_pumped now order p : pumped (st p) (st (arm now order p)).
Proof.
  unfold arm. set (es := (fun u => SpawnUpgrade u.1 u.2) <$> pending_upgrades _).
  assert (pumped (st p) (emit es (st p <| new_relays := [] |> <| new_channels := [] |> <| pending_upgrades := [] |>))) as H1.
  { etransitivity; [|apply pumped_emit]. by apply pumped_same. }
  case_match; [|exact H1]. etransitivity; [exact H1|]. etransitivity; [apply pumped_wake|].
  unfold teardown_begin. match goal with |- context [foldl ?f ?p1 order] =>
    destruct (close_relays_frame order p1) as (es' & -> & _) end. apply pumped_emit.
Qed.

Lemma on_redial_pumped now rnd c opened p : pumped (st p) (st (on_redial now rnd c opened p)).
Proof.
  unfold on_redial, arm_redial. destruct opened as [rc|e].
  - destruct (closed _); [apply pumped_emit|]. etransitivity; [|apply pumped_wake]. by apply pumped_same.
  - repeat case_match; by simplify_eq/=.
Qed.

Lemma handle_signal_pumped via p b s : pumped s (handle_signal via p b s).
Proof.
  split; [apply handle_signal_tells|]. unfold handle_signal. by repeat case_match.
Qed.

Lemma on_relay_event_pumped now rnd key c result p p' :
  0 <= next_conn_epoch (st p) < u64_max ->
  on_relay_event now rnd key c result p = Done p' -> pumped (st p) (st p').
Proof.
  intros Hn. unfold on_relay_event. destruct result as [d|e].
  - set (p1 := if is_pool_current key c (st p) then _ else _).
    assert (st p1 = st p) as Hst by (subst p1; by case_match). case_decide.
    + intros [= <-]. simpl. rewrite Hst. apply handle_signal_pumped.
    + rewrite Hst. destruct (handle_relay_datagram _ _ _ _ _) eqn:E; simpl; [|done..].
      intros [= <-]. simpl. by apply (standin_pumped now (source d) key (payload d) _ _ Hn E).
  - case_match; [by intros [= <-]|]. case_match; intros [= <-]; [apply fail_home_pumped|apply fail_foreign_pumped].
Qed.

Lemma on_udp_event_pumped now result p p' :
  0 <= next_conn_epoch (st p) < u64_max -> on_udp_event now result p = Done p' -> pumped (st p) (st p').
Proof.
  intros Hn. unfold on_udp_event. destruct result as [[b r]|e]; [|by intros [= <-]].
  destruct (handle_udp_datagram _ _ _ _) as [s| |] eqn:E; simpl; [|done..]. intros [= <-]. simpl.
  by apply (handle_datagram_pumped _ _ _ _ _ _ Hn E).
Qed.

Lemma on_channel_event_pumped now id result p p' :
  0 <= next_conn_epoch (st p) < u64_max -> on_channel_event now id result p = Done p' -> pumped (st p) (st p').
Proof.
  intros Hn. unfold on_channel_event. destruct result as [payload|e].
  - set (p1 := match channels (st p) !! id with Some _ => _ | None => _ end).
    assert (st p1 = st p) as Hst by (subst p1; by case_match).
    destruct payload as [b|]; [|intros [= <-]; by rewrite Hst]. rewrite Hst. unfold handle_channel_datagram.
    destruct (channels (st p) !! id) as [e|]; simpl; [|intros [= <-]; done].
    destruct (let '(_, _) := _ in _) as [s| |] eqn:E; simpl; [|done..]. intros [= <-]. simpl.
    by apply (standin_pumped _ _ _ _ _ _ Hn E).
  - intros [= <-]. simpl. unfold retire_channel. repeat case_match; by apply pumped_same.
Qed.

(** *** The pump's sleep *)

(** What has been flushed by each point of the turn. *)
Definition flushed (c : Pc) (s : State) : Prop :=
  match c with
  | FlushUdp | SendingUdp => relay_outbound s = []
  | FlushChannel | SendingChannel => relay_outbound s = [] /\ udp_outbound s = []
  | Arm => relay_outbound s = [] /\ udp_outbound s = [] /\ channel_outbound s = []
  | Select => queued s = ([], [], [], [], [], [])
  | _ => True
  end.

Record sleep_inv (p : Pump) : Prop := {
  sp_waker : pump_kicked (st p) = true -> pump_waker (st p) = None;
  sp_flushed : pump_kicked (st p) = true \/ flushed (pc p) (st p);
}.

Lemma flushed_queued c s s' : queued s' = queued s -> flushed c s -> flushed c s'.
Proof. unfold queued. intros [= H1 H2 H3 H4 H5 H6]. destruct c; simpl; unfold queued; by rewrite ?H1, ?H2, ?H3, ?H4, ?H5, ?H6. Qed.

Lemma sleep_nudged p s' : sleep_inv p -> nudges (st p) s' -> sleep_inv (p <| st := s' |>).
Proof.
  intros [Hw Hf] [(Hk & Hp & _)|[Hq Hfl]]; [split; simpl; auto|].
  unfold pump_flags in Hfl. injection Hfl as H1 H2. split; simpl; rewrite H1, ?H2; [done|].
  destruct Hf as [|Hf]; [by left|right]. by eapply flushed_queued.
Qed.

(** A stretch that leaves the flags, up to what is flushed. *)
Lemma sleep_pumped p p' :
  sleep_inv p -> pump_flags (st p') = pump_flags (st p) ->
  (flushed (pc p) (st p) -> flushed (pc p') (st p')) -> sleep_inv p'.
Proof.
  intros [Hw Hf] Hfl Hi. unfold pump_flags in Hfl. injection Hfl as H1 H2.
  split; rewrite H1, ?H2; [done|]. destruct Hf; auto.
Qed.

Lemma flush_relay_sleep p : pc p = FlushRelay -> flushed (pc (flush_relay p)) (st (flush_relay p)).
Proof. intros Hpc. unfold flush_relay. repeat case_match; simpl; by rewrite ?Hpc. Qed.

Lemma flush_udp_sleep p :
  flushed FlushUdp (st p) -> pc p = FlushUdp -> flushed (pc (flush_udp p)) (st (flush_udp p)).
Proof. intros Hf Hpc. unfold flush_udp. repeat case_match; simpl; rewrite ?Hpc; by simpl in *. Qed.

Lemma flush_channel_sleep p :
  flushed FlushChannel (st p) -> pc p = FlushChannel -> flushed (pc (flush_channel p)) (st (flush_channel p)).
Proof.
  intros Hf Hpc. unfold flush_channel. repeat case_match; simpl; rewrite ?Hpc; simpl in *; try done.
  by destruct Hf.
Qed.

Lemma arm_sleep now order p : flushed Arm (st p) -> flushed (pc (arm now order p)) (st (arm now order p)).
Proof.
  intros (H1 & H2 & H3). unfold arm. case_match; [done|]. simpl. unfold queued. simpl. by rewrite H1, H2, H3.
Qed.

(** The arms of the select stay at the turn's top, and keep the order to wake
    everyone there. *)
Definition stands (p : Pump) : Pc * bool := (pc p, force_wake p).

Lemma fail_home_stands now rnd c p : stands (fail_home now rnd c p) = stands p.
Proof.
  unfold fail_home, retire_home. destruct (negb _); [done|]. unfold arm_redial. simpl.
  by destruct (next_redial_delay _ _ _ _) as [[delay attempt] since].
Qed.
Lemma fail_foreign_stands key p : stands (fail_foreign key p) = stands p.
Proof. unfold fail_foreign, retire_relay. simpl. by case_match. Qed.

Lemma on_relay_event_stands now rnd key c result p p' :
  on_relay_event now rnd key c result p = Done p' -> stands p' = stands p.
Proof.
  unfold on_relay_event. destruct result as [d|e].
  - set (p1 := if is_pool_current key c (st p) then _ else _).
    assert (stands p1 = stands p) as H by (subst p1; by case_match). case_decide; [by intros [= <-]|].
    destruct (handle_relay_datagram _ _ _ _ _); simpl; [|done..]. by intros [= <-].
  - repeat case_match; intros [= <-]; [done|apply fail_home_stands|apply fail_foreign_stands].
Qed.

Lemma on_udp_event_stands now result p p' : on_udp_event now result p = Done p' -> stands p' = stands p.
Proof.
  unfold on_udp_event. destruct result as [[b r]|e]; [|by intros [= <-]].
  destruct (handle_udp_datagram _ _ _ _); simpl; [|done..]. by intros [= <-].
Qed.

Lemma on_channel_event_stands now id result p p' :
  on_channel_event now id result p = Done p' -> stands p' = stands p.
Proof.
  unfold on_channel_event. destruct result as [payload|e]; [|by intros [= <-]].
  set (p1 := match channels (st p) !! id with Some _ => _ | None => _ end).
  assert (stands p1 = stands p) as H by (subst p1; by case_match). destruct payload; [|by intros [= <-]].
  destruct (handle_channel_datagram _ _ _ _); simpl; [|done..]. by intros [= <-].
Qed.

Lemma on_redial_stands now rnd c opened p : stands (on_redial now rnd c opened p) = stands p.
Proof. unfold on_redial, arm_redial. repeat case_match; by simplify_eq/=. Qed.

Lemma on_tick_stands now rnd order p : stands (on_tick now rnd order p) = (pc p, true).
Proof.
  unfold on_tick. set (p1 := p <| tick := true |> <| st ::= handle_timeouts now |> <| force_wake := true |>).
  change (pc p, true) with (stands p1). generalize p1. clear p1. induction order as [|[k c] order IH]; intros p1; [done|].
  simpl. rewrite IH. destruct (wires p1 !! c) as [rc|]; [|done]. destruct (probe_step _ _ _ rc) as [[] rc']; try done.
  by case_match; [rewrite fail_home_stands|rewrite fail_foreign_stands].
Qed.

(** A step that is a stretch of code: what it does to the state, and where the
    task stands after it. *)
Lemma wakes_pumped p p' :
  pumped (st p) (st p') -> (flushed (pc p) (st p) -> flushed (pc p') (st p')) ->
  keeps (st p) (st p') /\ (sleep_inv p -> sleep_inv p').
Proof. intros [Hk Hf] Hfl. split; [done|]. intros Hs. by eapply sleep_pumped. Qed.

Lemma wakes_top p p' :
  pumped (st p) (st p') -> pc p' = Top -> keeps (st p) (st p') /\ (sleep_inv p -> sleep_inv p').
Proof. intros Hp Hpc. apply wakes_pumped; [done|]. by rewrite Hpc. Qed.

Lemma pump_step_wakes p p' :
  pump_inv p -> 0 <= next_conn_epoch (st p) < u64_max -> pump_step p p' ->
  keeps (st p) (st p') /\ (sleep_inv p -> sleep_inv p').
Proof.
  intros Hi Hn Hstep. destruct Hstep as
    [p p' fuel now order Hpc Ho Hrun|p Hpc|p key c now rnd res Hpc|p Hpc|p Hpc|p Hpc|p Hpc
    |p now order Hpc Ho|p p' key c rest now rnd result Hpc Hl Hrun
    |p p' u now result Hpc Hu Hr Hrun|p p' id w rest now result Hpc Hl Hrun
    |p delay now rnd c opened Hpc Hre Hc|p w s Hpc Hk|p w s Hpc Hk|p now rnd order Hpc Ht Ho
    |p order Hpc Ho|p kc rest Hpc Hl|p Hpc Hl|p Hpc|p iw rest Hpc Hl|p Hpc Hl|p Hpc];
    try (apply wakes_pumped; [done|simpl; by rewrite ?Hpc]; fail).
  - apply wakes_pumped; [by eapply turn_top_pumped; [apply Hi|]|]. intros _. revert Hrun. unfold turn_top.
    destruct (drain _ _ _ _) as [[any s]| |]; simpl; [|done..]. by intros [= <-].
  - apply wakes_pumped; [unfold flush_relay; repeat case_match; by apply pumped_same|].
    intros _. by apply flush_relay_sleep.
  - set (p1 := p <| pc := FlushRelay |>). pose proof (fail_home_pumped now rnd c p1) as Hp.
    pose proof (fail_home_stands now rnd c p1) as [= Hf _].
    apply wakes_pumped; unfold relay_sent; fold p1; destruct (is_err res && _);
      [exact Hp|done|intros _; by rewrite Hf|done].
  - apply wakes_pumped; [unfold flush_udp; repeat case_match; by apply pumped_same|].
    rewrite Hpc at 1. intros Hf. by apply flush_udp_sleep.
  - apply wakes_pumped; [unfold flush_channel; repeat case_match; by apply pumped_same|].
    rewrite Hpc at 1. intros Hf. by apply flush_channel_sleep.
  - apply wakes_pumped; [apply arm_pumped|]. rewrite Hpc at 1. apply arm_sleep.
  - pose proof Hrun as [= Ht _]%on_relay_event_stands. apply on_relay_event_pumped in Hrun; [by apply wakes_top|done].
  - pose proof Hrun as [= Ht _]%on_udp_event_stands. apply on_udp_event_pumped in Hrun; [by apply wakes_top|done].
  - pose proof Hrun as [= Ht _]%on_channel_event_stands. apply on_channel_event_pumped in Hrun; [by apply wakes_top|done].
  - pose proof (on_redial_pumped now rnd c opened (p <| pc := Top |>)) as Hr.
    pose proof (on_redial_stands now rnd c opened (p <| pc := Top |>)) as [= Ht _]. by apply wakes_top.
  - unfold kicked_poll in Hk. destruct (pump_kicked (st p)) eqn:Ek; [|done]. injection Hk as <-. split; [by apply keeps_same|].
    intros [Hw _]. split; simpl; auto.
  - unfold kicked_poll in Hk. destruct (pump_kicked (st p)) eqn:Ek; [done|]. injection Hk as <-. split; [by apply keeps_same|].
    intros [Hw [Hf|Hf]]; [congruence|]. split; simpl; [by rewrite Ek|right; by rewrite Hpc in *].
  - pose proof (on_tick_pumped now rnd order (p <| pc := Top |>)) as Hr.
    pose proof (on_tick_stands now rnd order (p <| pc := Top |>)) as [= Hs _]. by apply wakes_top.
  - apply wakes_pumped; [apply pumped_emit|done].
Qed.

(** ** Every step of the world *)

Lemma world_wakes p p' :
  pump_inv p -> world p p' -> keeps (st p) (st p') /\ (sleep_inv p -> sleep_inv p').
Proof.
  intros Hi [Hroom Hs].
  assert (0 <= next_conn_epoch (st p) < u64_max) as Hn
    by (split; [apply (ci_next _ _ _ (wf_conn _ (pi_wf _ Hi)))|apply Hroom]).
  destruct Hs as [p p' Hs|p new rc s' Hop Hnew|p c rc rc' Hc Hcl]; [by apply pump_step_wakes| |].
  - destruct (caller_op_tells new (st p) s' Hn Hop) as [Hk Ht]. split; [done|]. intros Hsl.
    destruct (sleep_nudged p s' Hsl Ht). by split.
  - split; [done|]. intros []. by split.
Qed.

Lemma world_run_wakes p p' :
  pump_inv p -> rtc world p p' -> keeps (st p) (st p') /\ (sleep_inv p -> sleep_inv p').
Proof.
  intros Hi Hr. induction Hr as [p|p p1 p2 Hw _ IH]; [done|]. destruct (world_wakes _ _ Hi Hw) as [H1 S1].
  destruct IH as [H2 S2]; [by eapply sys_step_inv, world_sys|]. split; [by etransitivity|auto].
Qed.

Lemma live_sleep p : live_system p -> sleep_inv p.
Proof.
  intros (now & ep & w & url & c & rc & u & Hr).
  apply (world_run_wakes _ _ (bound_inv now ep w url c rc u) Hr). split; [done|by left].
Qed.

(** What a waiter's check finds after steps that woke nobody. *)
Lemma still_entry s s' h ep e :
  wf s -> still s s' -> entry_for s h ep = Some e ->
  entry_for s' h ep = None \/ exists e', entry_for s' h ep = Some e' /\ outcome e' = outcome e.
Proof.
  intros Hwf Hs [He Hep]%entry_for_Some. destruct (sl_slots _ _ Hs h) as [e' He']; [eauto|].
  destruct (sl_entries _ _ Hs h e' He') as [(e0 & H0 & Ho)|Hn].
  - right. assert (e0 = e) as -> by congruence. exists e'. split; [|done]. apply entry_for_Some. split; [done|].
    unfold outcome in Ho. injection Ho as -> _ _ _ _. done.
  - left. destruct (entry_for s' h ep) as [x|] eqn:E; [|done]. apply entry_for_Some in E as [E Hx].
    pose proof (ci_epoch _ _ _ (wf_conn _ Hwf) h e He). simplify_eq. lia.
Qed.

Lemma accept_check_None s :
  (accept_check s).1 = None <-> closed s = false /\ Forall (fun x => entry_for s x.1 x.2 = None) (accept_queue s).
Proof.
  unfold accept_check. pose proof (accept_scan_spec s (accept_queue s)) as Hs.
  destruct (accept_scan s (accept_queue s)) as [[x|] rest]; simpl; destruct Hs as (sk & Hsk & Hq).
  - split; [done|]. destruct Hq as [-> [e He]]. intros [_ Hf]. apply Forall_app in Hf as [_ Hf].
    apply Forall_cons in Hf as [Hx _]. congruence.
  - destruct Hq as [-> _]. destruct (closed s); naive_solver.
Qed.

Lemma still_accept s s' : wf s -> still s s' -> (accept_check s).1 = None -> (accept_check s').1 = None.
Proof.
  intros Hwf Hs. rewrite !accept_check_None. intros [Hc Hf]. destruct (sl_queue _ _ Hs) as [pre Hq].
  split; [by rewrite (sl_closed _ _ Hs)|]. rewrite Forall_forall in *. intros [h ep] Hin. simpl.
  assert ((h, ep) ∈ accept_queue s) as Hin0 by (rewrite Hq; set_solver).
  destruct (entry_for s' h ep) as [e'|] eqn:E; [|done]. apply entry_for_Some in E as [E Hep].
  destruct (sl_entries _ _ Hs h e' E) as [(e & He & Ho)|Hn].
  - unfold outcome in Ho. simplify_eq. specialize (Hf _ Hin0). simpl in Hf.
    assert (entry_for s h (epoch e') = Some e) as Hx by by apply entry_for_Some. congruence.
  - pose proof (ci_queue _ _ _ (wf_conn _ Hwf) h ep Hin0). lia.
Qed.

Lemma still_connect s s' h ep :
  wf s -> still s s' -> connect_check h ep s = None ->
  connect_check h ep s' = None \/ entry_for s' h ep = None.
Proof.
  intros Hwf Hs. unfold connect_check. destruct (entry_for s h ep) as [e|] eqn:E; [|done].
  destruct (still_entry _ _ _ _ _ Hwf Hs E) as [->|(e' & -> & Ho)]; [auto|].
  unfold outcome in Ho. simplify_eq. left. by repeat case_match; simplify_eq.
Qed.

Lemma still_wait_closed s s' c :
  wf s -> still s s' -> wait_closed_check c s = None ->
  wait_closed_check c s' = None \/ entry_for s' (handle c) (minted c) = None.
Proof.
  intros Hwf Hs. unfold wait_closed_check. destruct (entry_for s _ _) as [e|] eqn:E; [|done].
  destruct (still_entry _ _ _ _ _ Hwf Hs E) as [->|(e' & -> & Ho)]; [auto|].
  unfold outcome, is_closed_entry in *. injection Ho as _ _ -> -> _. left. by case_match.
Qed.

Lemma pop_signal_None p s : (pop_signal_inbox p s).1 = None <-> default [] (signal_inboxes s !! p) = [].
Proof. unfold pop_signal_inbox. destruct (signal_inboxes s !! p) as [[|]|]; naive_solver. Qed.

Lemma still_signal s s' p : still s s' -> (pop_signal_inbox p s).1 = None -> (pop_signal_inbox p s').1 = None.
Proof.
  intros Hs. rewrite !pop_signal_None. intros Hp. destruct (sl_inboxes _ _ Hs p) as [pre H]. rewrite Hp in H.
  symmetry in H. by apply app_nil in H as [_ ->].
Qed.


(** C5. The pump never sleeps on work: while it is parked unkicked in its select
    every outbound queue, the new relays and channels to arm and the upgrades to
    start are all empty; a pump that has been kicked has no waker left unfired;
    and any operation of another task that leaves it work kicks it and fires the
    waker it is parked on. *)
Theorem pump_never_sleeps_on_work p new s' :
  live_system p ->
  (pc p = Select -> pump_kicked (st p) = false ->
     queued (st p) = ([], [], [], [], [], [])) /\
  (pump_kicked (st p) = true -> pump_waker (st p) = None) /\
  (room (st p) -> caller_op new (st p) s' -> queued s' <> queued (st p) ->
     pump_kicked s' = true /\ forall w, pump_waker (st p) = Some w -> woken w (st p) s').
Proof.
  intros Hl. pose proof (live_sleep _ Hl) as [Hw Hf]. split_and!; [|done|].
  - intros Hpc Hk. rewrite Hpc in Hf. by destruct Hf as [Hf|Hf]; [congruence|].
  - intros Hroom Hop Hne. pose proof (reachable_inv _ (live_reachable _ Hl)) as Hi.
    destruct (caller_op_tells new (st p) s') as [_ [(Hk & _ & Hwk)|[Hq _]]]; [|done|by split|done].
    split; [apply (ci_next _ _ _ (wf_conn _ (pi_wf _ Hi)))|apply Hroom].
Qed.

(** A tick wakes everyone: it leaves the order to, and the order stands until a
    turn has fired every parked waker. *)
Theorem tick_wakes_all p p' :
  live_system p -> world p p' ->
  (forall now rnd order, force_wake (on_tick now rnd order p) = true) /\
  (force_wake p = true ->
     force_wake p' = true \/
     (waiters (st p') = [] /\ forall w, w ∈ waiters (st p) -> woken w (st p) (st p'))).
Proof.
  intros Hi%live_reachable%reachable_inv Hw.
  split; [intros now rnd order; by pose proof (on_tick_stands now rnd order p) as [= _ ->]|].
  destruct Hw as [_ Hw]. destruct Hw as [p p' Hs|p new rc s' Hop Hnew|p c rc rc' Hc Hcl]; [|by left..].
  intros Hf.
  destruct Hs as
    [p p' fuel now order Hpc Ho Hrun|p Hpc|p key c now rnd res Hpc|p Hpc|p Hpc|p Hpc|p Hpc
    |p now order Hpc Ho|p p' key c rest now rnd result Hpc Hl Hrun
    |p p' u now result Hpc Hu Hr Hrun|p p' id w rest now result Hpc Hl Hrun
    |p delay now rnd c opened Hpc Hre Hc|p w s Hpc Hk|p w s Hpc Hk|p now rnd order Hpc Ht Ho
    |p order Hpc Ho|p kc rest Hpc Hl|p Hpc Hl|p Hpc|p iw rest Hpc Hl|p Hpc Hl|p Hpc];
    try (by left).
  - right. apply turn_top_pumped in Hrun as [_ H]; [auto|apply Hi].
  - left. unfold flush_relay. by repeat case_match.
  - left. unfold relay_sent. case_match; [|done].
    by pose proof (fail_home_stands now rnd c (p <| pc := FlushRelay |>)) as [= _ ->].
  - left. unfold flush_udp. by repeat case_match.
  - left. unfold flush_channel. by repeat case_match.
  - left. unfold arm. case_match; [|done]. unfold teardown_begin.
    match goal with |- context [foldl ?f ?p1 order] =>
      destruct (close_relays_frame order p1) as (es & -> & _) end. done.
  - left. apply on_relay_event_stands in Hrun as [= _ ->]. done.
  - left. apply on_udp_event_stands in Hrun as [= _ ->]. done.
  - left. apply on_channel_event_stands in Hrun as [= _ ->]. done.
  - left. by pose proof (on_redial_stands now rnd c opened (p <| pc := Top |>)) as [= _ ->].
  - left. by pose proof (on_tick_stands now rnd order (p <| pc := Top |>)) as [= _ ->].
Qed.
End PumpSteps.
