(* ===== verification/Select.v ===== *)
(** The pump's [select_biased!] as one poll: the arms are polled in the order the
    code lists them, the first that is ready runs, and with none ready the task
    parks. What is ready when the task is polled is an argument. *)
From S2P Require Import Prelude RelayFrames RelayConn Types Udp Noq State StateInv Drain.
From S2P Require Import DrainInv Rely Redial Pump PumpInv PumpTheory Connection Streams.
From S2P Require Import StreamsInv Endpoint EndpointInv System Table Lifecycle Wakeups.

Section Select.
Context {N : Noq}.

(** What has completed: a receive of each set, by its place, with its result;
    the socket's receive; the redial, its connection allocated at an address; the
    timer. *)
Record Completed := MkCompleted {
  on_relay : option (nat * Result Datagram string);
  on_udp : option (Result (bytes * SocketAddr) ErrorCode);
  on_channel : option (nat * Result (option bytes) string);
  on_home : option (RelayRef * Result RelayConn string);
  on_timer : bool;
}.

(** [FuturesUnordered::next]: the set without the future that completed; an
    empty set stays pending. *)
Definition next {A R} (completed : option (nat * R)) (set : list A) : option (A * R * list A) :=
  '(i, r) ← completed; a ← set !! i; Some (a, r, delete i set).

Definition next_relay_event (c : Completed) (set : list (Z * RelayRef))
    : option (Z * RelayRef * Result Datagram string * list (Z * RelayRef)) := next (on_relay c) set.
Definition next_channel_event (c : Completed) (set : list (Z * ChannelRef))
    : option (Z * ChannelRef * Result (option bytes) string * list (Z * ChannelRef)) := next (on_channel c) set.
(** [udp_receive] never completes without a socket; a terminated slot is skipped. *)
Definition udp_event (c : Completed) (p : Pump) : option (Result (bytes * SocketAddr) ErrorCode) :=
  match udp p with Some _ => if udp_recv p then on_udp c else None | None => None end.
Definition redial_event (c : Completed) (p : Pump) : option (RelayRef * Result RelayConn string) :=
  match redial p with Some _ => on_home c | None => None end.
Definition tick_event (c : Completed) (p : Pump) : bool := tick p && on_timer c.

(** One poll of the task in its select. *)
Definition select_turn (w : Waker) (now : Instant) (rnd : option (array 2)) (order : list (Z * RelayRef))
    (c : Completed) (p : Pump) : Run Pump :=
  match next_relay_event c (relay_recvs p) with
  | Some (key, conn, result, rest) =>
      on_relay_event now rnd key conn result (p <| relay_recvs := rest |> <| pc := Top |>)
  | None =>
  match udp_event c p with
  | Some received => on_udp_event now received (p <| udp_recv := false |> <| pc := Top |>)
  | None =>
  match next_channel_event c (channel_recvs p) with
  | Some (id, _, result, rest) => on_channel_event now id result (p <| channel_recvs := rest |> <| pc := Top |>)
  | None =>
  match redial_event c p with
  | Some (conn, opened) => Done (on_redial now rnd conn opened (p <| pc := Top |>))
  | None =>
  match kicked_poll w (st p) with
  | (Ready _, s) => Done (p <| st := s |> <| pc := Top |>)
  | (Pending, s) =>
      let p := p <| st := s |> in
      Done (if tick_event c p then on_tick now rnd order (p <| pc := Top |>) else p)
  end
  end
  end
  end
  end.

(** ** What a poll does *)

Lemma next_perm {A R} (completed : option (nat * R)) (set : list A) a r rest :
  next completed set = Some (a, r, rest) -> set ≡ₚ a :: rest.
Proof.
  unfold next. destruct completed as [[i r']|]; simpl; [|done]. destruct (set !! i) as [a'|] eqn:E; simpl; [|done].
  intros [= <- <- <-]. by apply delete_Permutation.
Qed.

Context (w : Waker) (now : Instant) (rnd : option (array 2)) (order : list (Z * RelayRef)).

(** Each poll is the pump's step for the arm that ran; a tick is seen after the
    kick's waker has been parked. *)
Lemma select_turn_steps c p p' :
  pc p = Select -> order ≡ₚ map_to_list (relay_pool (st p)) ->
  (forall conn o, on_home c = Some (conn, o) -> wires p !! conn = None) ->
  select_turn w now rnd order c p = Done p' -> rtc pump_step p p'.
Proof.
  intros Hpc Ho Hnew. unfold select_turn.
  destruct (next_relay_event c (relay_recvs p)) as [[[[key conn] res] rest]|] eqn:E1.
  { intros Hrun. by eapply rtc_once, step_relay_event; [|eapply next_perm|]. }
  destruct (udp_event c p) as [received|] eqn:E2.
  { unfold udp_event in E2. destruct (udp p) as [u|] eqn:Hu; [|done]. destruct (udp_recv p) eqn:Hr; [|done].
    intros Hrun. by eapply rtc_once, step_udp_event. }
  destruct (next_channel_event c (channel_recvs p)) as [[[[id wire] res] rest]|] eqn:E3.
  { intros Hrun. by eapply rtc_once, step_channel_event; [|eapply next_perm|]. }
  destruct (redial_event c p) as [[conn opened]|] eqn:E4.
  { unfold redial_event in E4. destruct (redial p) as [d|] eqn:Hd; [|done]. intros [= <-].
    eapply rtc_once, step_redial; eauto. }
  destruct (kicked_poll w (st p)) as [[[]|] s] eqn:E5; intros [= <-].
  { by eapply rtc_once, step_kicked. }
  eapply rtc_l; [by eapply step_parked|]. destruct (tick_event c _) eqn:E6; [|done].
  unfold tick_event in E6. apply andb_true_iff in E6 as [Ht _].
  apply rtc_once, step_tick; [done|exact Ht|]. unfold kicked_poll in E5. by case_match; simplify_eq.
Qed.

Context {L : NoqLaws}.

Lemma select_turn_done c p : wf (st p) -> room (st p) -> exists p', select_turn w now rnd order c p = Done p'.
Proof.
  intros Hwf Hroom. unfold select_turn.
  destruct (next_relay_event _ _) as [[[[key conn] res] rest]|]; [by apply on_relay_event_done|].
  destruct (udp_event _ _); [by apply on_udp_event_done|].
  destruct (next_channel_event _ _) as [[[[id wire] res] rest]|]; [by apply on_channel_event_done|].
  destruct (redial_event _ _) as [[conn opened]|]; [eauto|]. destruct (kicked_poll w (st p)) as [[[]|] s]; eauto.
Qed.

(** The task stays in its select exactly when nothing is ready and it was not
    kicked. *)
Lemma select_turn_parked c p p' :
  pc p = Select -> select_turn w now rnd order c p = Done p' ->
  (pc p' = Top /\
    (is_Some (next_relay_event c (relay_recvs p)) \/ is_Some (udp_event c p) \/
     is_Some (next_channel_event c (channel_recvs p)) \/ is_Some (redial_event c p) \/
     pump_kicked (st p) = true \/ tick_event c p = true)) \/
  (p' = p <| st := st p <| pump_waker := Some w |> |> /\ pump_kicked (st p) = false /\
   next_relay_event c (relay_recvs p) = None /\ udp_event c p = None /\
   next_channel_event c (channel_recvs p) = None /\ redial_event c p = None /\ tick_event c p = false).
Proof.
  intros Hpc. unfold select_turn.
  destruct (next_relay_event _ _) as [[[[key conn] res] rest]|].
  { intros [= Ht _]%on_relay_event_stands. left. eauto. }
  destruct (udp_event _ _). { intros [= Ht _]%on_udp_event_stands. left. eauto 10. }
  destruct (next_channel_event _ _) as [[[[id wire] res] rest]|].
  { intros [= Ht _]%on_channel_event_stands. left. eauto 10. }
  destruct (redial_event _ _) as [[conn opened]|].
  { intros [= <-]. pose proof (on_redial_stands now rnd conn opened (p <| pc := Top |>)) as [= Ht _]. left. eauto 10. }
  unfold kicked_poll. destruct (pump_kicked (st p)) eqn:Ek; intros [= <-]; [left; eauto 10|].
  change (tick_event c (p <| st := _ |>)) with (tick_event c p). destruct (tick_event c p) eqn:Et; [left|right; by split_and!].
  split; [|eauto 10]. by pose proof (on_tick_stands now rnd order (p <| st := st p <| pump_waker := Some w |> |> <| pc := Top |>)) as [= -> _].
Qed.

(** C6. One poll of the pump's select, whatever has completed: it returns, by
    steps of the pump; it starts the next turn exactly when a receive, the
    redial or the timer has completed or a kick was left; otherwise it parks its
    waker, unkicked, and no queued work is left behind. *)
Theorem select_turn_refines c p :
  live_system p -> room (st p) -> pc p = Select -> order ≡ₚ map_to_list (relay_pool (st p)) ->
  (forall conn o, on_home c = Some (conn, o) -> wires p !! conn = None) ->
  exists p', select_turn w now rnd order c p = Done p' /\ rtc pump_step p p' /\
    ((pc p' = Top /\
      (is_Some (next_relay_event c (relay_recvs p)) \/ is_Some (udp_event c p) \/
       is_Some (next_channel_event c (channel_recvs p)) \/ is_Some (redial_event c p) \/
       pump_kicked (st p) = true \/ tick_event c p = true)) \/
     (pc p' = Select /\ pump_waker (st p') = Some w /\ pump_kicked (st p') = false /\
      queued (st p') = ([], [], [], [], [], []) /\
      next_relay_event c (relay_recvs p) = None /\ udp_event c p = None /\
      next_channel_event c (channel_recvs p) = None /\ redial_event c p = None /\ tick_event c p = false)).
Proof.
  intros Hl Hroom Hpc Ho Hnew. pose proof (reachable_inv _ (live_reachable _ Hl)) as Hi.
  destruct (select_turn_done c p (pi_wf _ Hi) Hroom) as [p' Hrun]. exists p'.
  split; [done|]. split; [by eapply select_turn_steps|].
  destruct (select_turn_parked c p p' Hpc Hrun) as [|(-> & Hk & H)]; [by left|right].
  destruct (live_sleep _ Hl) as [_ [Hf|Hf]]; [congruence|]. rewrite Hpc in Hf. destruct H as (? & ? & ? & ? & ?). simpl.
  by split_and!.
Qed.
End Select.
