(* ===== verification/Methods.v ===== *)
(** Whole runs of the endpoint's async methods: [connect] and [accept] of
    [endpoint/src/endpoint_impl.rs] from call to return, their stretches between
    awaits composed with whatever the pump and the other tasks do meanwhile
    ([world]). What a method promises over its whole run is what the component's
    clients rely on. *)
From S2P Require Import Prelude RelayFrames RelayConn Types Udp Noq State StateInv Drain.
From S2P Require Import DrainInv Rely Redial Pump PumpInv PumpTheory Connection Streams.
From S2P Require Import StreamsInv Endpoint EndpointInv System Table Lifecycle.

Section Methods.
Context {N : Noq}.

(** ** [ensure_relay]

    Its answer at once, the open it claims (the relay's connection, when there is
    one, newly allocated at [c]), or the wait for another caller's. *)
Inductive ensure_run (url : string) : Pump -> Result Z Error -> Pump -> Prop :=
| ensure_now p r s' :
    room (st p) -> ensure_relay url (st p) = (EnsureDone r, s') ->
    ensure_run url p r (p <| st := s' |>)
| ensure_opens p s1 p1 c rc opened r s2 :
    room (st p) -> ensure_relay url (st p) = (EnsureClaimed, s1) -> rtc world (p <| st := s1 |>) p1 ->
    room (st p1) -> (opened = Ok tt -> wires p1 !! c = None) ->
    ensure_relay_opened url c opened (st p1) = (r, s2) ->
    ensure_run url p r
      (p1 <| wires ::= add_wire (match opened with Ok _ => Some c | Err _ => None end) rc |> <| st := s2 |>)
| ensure_waits p s1 p1 now started r :
    room (st p) -> ensure_relay url (st p) = (EnsureWait, s1) -> rtc world (p <| st := s1 |>) p1 ->
    ensure_relay_check now started (normalize_relay_url url) (st p1) = Some r -> ensure_run url p r p1.

(** The relays [connect] ensures in turn, up to the first failure; [f] is what it
    got for each. *)
Inductive ensured_run (f : string -> Result Z Error) : list string -> Pump -> Pump -> Prop :=
| ensured_all p : ensured_run f [] p p
| ensured_ok url urls p p1 p2 k :
    f url = Ok k -> ensure_run url p (Ok k) p1 -> ensured_run f urls p1 p2 -> ensured_run f (url :: urls) p p2
| ensured_err url urls p p1 e :
    f url = Err e -> ensure_run url p (Err e) p1 -> ensured_run f (url :: urls) p p1.

(** ** [connect] *)

Definition connect_urls (enabled has_udp : bool) (addr : EndpointAddr) : list string :=
  match try_into 32 (ea_endpoint_id addr) with
  | None => []
  | Some _ =>
      let '(relay, hint) := connect_keys (dial_path enabled has_udp (ea_addrs addr)) in
      option_list relay ++ option_list hint
  end.

(** Up to the dial: its failure, or the connection's name. *)
Definition connect_begun (has_udp : bool) (addr : EndpointAddr) (p : Pump)
    (r : Result (ConnectionHandle * Z) Error) (p' : Pump) : Prop :=
  exists now f tls quic p1 s',
    ensured_run f (connect_urls (webrtc_enabled (st p)) has_udp addr) p p1 /\ room (st p1) /\
    connect now has_udp addr f tls quic (st p1) = (r, s') /\ p' = p1 <| st := s' |>.

(** To its return. A failed wait drops the armed guard. *)
Inductive connect_run (has_udp : bool) (addr : EndpointAddr)
    : Pump -> Result ConnectionRes Error -> Pump -> Prop :=
| connect_refused p e p' : connect_begun has_udp addr p (Err e) p' -> connect_run has_udp addr p (Err e) p'
| connect_returns p h ep p1 p2 :
    connect_begun has_udp addr p (Ok (h, ep)) p1 -> rtc world p1 p2 ->
    connect_check h ep (st p2) = Some (Ok tt) ->
    connect_run has_udp addr p (Ok (MkConnectionRes h ep false)) p2
| connect_fails p h ep p1 p2 e now :
    connect_begun has_udp addr p (Ok (h, ep)) p1 -> rtc world p1 p2 -> room (st p2) ->
    connect_check h ep (st p2) = Some (Err e) ->
    connect_run has_udp addr p (Err e) (p2 <| st := dial_guard_drop now h ep (st p2) |>).

(** Dropped while it waits. *)
Definition connect_dropped (has_udp : bool) (addr : EndpointAddr) (p p' : Pump) : Prop :=
  exists h ep p1 p2 now, connect_begun has_udp addr p (Ok (h, ep)) p1 /\ rtc world p1 p2 /\ room (st p2) /\
    connect_check h ep (st p2) = None /\ p' = p2 <| st := dial_guard_drop now h ep (st p2) |>.

(** ** [accept]

    The checks that park are among the world's steps. *)
Definition accept_run (p : Pump) (r : Result ConnectionRes Error) (p' : Pump) : Prop :=
  exists p1 r1 s', rtc world p p1 /\ room (st p1) /\ accept_check (st p1) = (Some r1, s') /\
    r = result_map (fun '(h, ep) => MkConnectionRes h ep false) r1 /\ p' = p1 <| st := s' |>.

End Methods.

Section MethodsTheory.
Context {N : Noq} {L : NoqLaws} {HL : HandshakeLaws}.

(** ** A method's run is a run of the world *)

Lemma world_op p s' : room (st p) -> caller_op None (st p) s' -> world p (p <| st := s' |>).
Proof.
  intros Hroom Hop. split; [done|].
  exact (world_caller p None (MkRelayConn [] 0 None 0 false) s' Hop ltac:(done)).
Qed.

Lemma ensure_run_world url p r p' : ensure_run url p r p' -> rtc world p p'.
Proof.
  intros Hr. destruct Hr as [p r s' Hroom E|p s1 p1 c rc opened r s2 Hroom E Hw Hroom1 Hc E2|p s1 p1 now t r Hroom E Hw _].
  - apply rtc_once, world_op; [done|]. pose proof (op_ensure_relay url (st p)) as Hop. by rewrite E in Hop.
  - eapply rtc_l; [apply world_op; [exact Hroom|]|].
    { pose proof (op_ensure_relay url (st p)) as Hop. rewrite E in Hop. exact Hop. }
    eapply rtc_r; [exact Hw|]. split; [done|]. apply world_caller; [|by destruct opened as [[]|]; intros ? [= <-]; auto].
    pose proof (op_ensure_opened url c opened (st p1)) as Hop. by rewrite E2 in Hop.
  - eapply rtc_l; [apply world_op; [exact Hroom|]|exact Hw].
    pose proof (op_ensure_relay url (st p)) as Hop. rewrite E in Hop. exact Hop.
Qed.

Lemma ensured_run_world f urls p p' : ensured_run f urls p p' -> rtc world p p'.
Proof.
  induction 1 as [p|url urls p p1 p2 k _ Hr _ IH|url urls p p1 e _ Hr]; [done| |by eapply ensure_run_world].
  etransitivity; [by eapply ensure_run_world|exact IH].
Qed.

(** [connect] fails without a change, or dials the peer it was given. *)
Lemma connect_cases now has_udp addr f tls quic s r s' :
  connect now has_udp addr f tls quic s = (r, s') ->
  ((exists e, r = Err e) /\ s' = s) \/
  exists id config real k up, try_into 32 (ea_endpoint_id addr) = Some id /\
    connect_dial now config id real k up s = (r, s').
Proof.
  unfold connect. destruct (try_into 32 (ea_endpoint_id addr)) as [id|]; [|intros [= <- <-]; eauto].
  destruct (connect_keys _) as [relay hint]. case_match; [|intros [= <- <-]; eauto].
  repeat case_match; intros Hd; right; eauto 10.
Qed.

Lemma connect_begun_world has_udp addr p r p' : connect_begun has_udp addr p r p' -> rtc world p p'.
Proof.
  intros (now & f & tls & quic & p1 & s' & Hf & Hroom & Hc & ->). etransitivity; [by eapply ensured_run_world|].
  apply connect_cases in Hc as [[_ ->]|(id & config & real & k & up & _ & Hd)]; [by destruct p1|].
  apply rtc_once, world_op; [done|]. pose proof (op_connect now config id real k up (st p1)) as Hop.
  by rewrite Hd in Hop.
Qed.

Lemma connect_run_world has_udp addr p r p' : connect_run has_udp addr p r p' -> rtc world p p'.
Proof.
  intros Hr. destruct Hr as [p e p' Hb|p h ep p1 p2 Hb Hw _|p h ep p1 p2 e now Hb Hw Hroom _];
    (etransitivity; [by eapply connect_begun_world|]); [done|done|].
  eapply rtc_r; [exact Hw|]. by apply world_op; [|apply op_dial_drop].
Qed.

Lemma connect_dropped_world has_udp addr p p' : connect_dropped has_udp addr p p' -> rtc world p p'.
Proof.
  intros (h & ep & p1 & p2 & now & Hb & Hw & Hroom & _ & ->). etransitivity; [by eapply connect_begun_world|].
  eapply rtc_r; [exact Hw|]. by apply world_op; [|apply op_dial_drop].
Qed.

Lemma accept_run_world p r p' : accept_run p r p' -> rtc world p p'.
Proof.
  intros (p1 & r1 & s' & Hw & Hroom & Ha & _ & ->). eapply rtc_r; [exact Hw|]. apply world_op; [done|].
  pose proof (op_accept (st p1)) as Hop. by rewrite Ha in Hop.
Qed.

(** ** What a name stands for stays the same *)

Lemma stamp_fixed t t' x e' :
  rtc table_act t t' -> x.2 < t_next t -> t_conns t' !! x.1 = Some e' -> epoch e' = x.2 ->
  exists e, t_conns t !! x.1 = Some e /\ epoch e = x.2 /\
    expected_peer e' = expected_peer e /\ accepted_side e' = accepted_side e.
Proof.
  intros Hr. revert e'. induction Hr as [t|t t1 t2 Ha Hr IH]; intros e' Hlt He' Hep; [by exists e'|].
  assert (t_next t <= t_next t1) as Hnext by (destruct Ha; simpl; lia).
  destruct (IH e' ltac:(lia) He' Hep) as (e1 & H1 & Hep1 & -> & ->).
  destruct Ha as [cs q n h e e2 q' He Ha|cs q n f Hf|cs q n h c ex side Hb Hn|cs pre q n]; simpl in *.
  - rewrite lookup_insert in H1. case_decide as Hx; [|by exists e1]. injection H1 as <-. subst h. exists e.
    inversion Ha as [? ? ? (Hd1 & Hd2 & Hd3 & _)%driven_eta| | | ]; subst; simpl in *; split_and!; congruence.
  - rewrite lookup_fmap in H1. destruct (cs !! x.1) as [e|] eqn:E; [|done]. injection H1 as <-. exists e.
    destruct (driven_eta _ _ (Hf e)) as (Hd & Hs & Hx & _). rewrite Hd in Hep1. by rewrite Hs, Hx.
  - rewrite lookup_insert in H1. case_decide; [|by exists e1]. injection H1 as <-. simpl in Hep1. lia.
  - by exists e1.
Qed.

Lemma connect_dial_entry now config id real k up s h ep s' :
  connect_dial now config id real k up s = (Ok (h, ep), s') ->
  ep = next_conn_epoch s /\ exists c,
    table_of s' = MkTable (<[h := ConnEntry_new c (Some id) false ep]> (conns s)) (accept_queue s) (wrap64 (ep + 1)).
Proof.
  rewrite connect_dial_eq. destruct (closed s); [done|]. pose proof (dial_remote_table id real k s) as Ht.
  destruct (dial_remote id real k s) as [a s1]. simpl in Ht. injection Ht as Hc Hq Hn.
  destruct (ep_connect now config a (noq s1)) as [[[h1 c]|e] nq]; [|done]. intros [= -> <- <-].
  split; [exact Hn|]. exists c. rewrite kick_table. unfold table_of. destruct up; simpl; by rewrite Hc, Hq, Hn.
Qed.

(** ** [connect]'s promise *)

Lemma connect_begun_names has_udp addr p h ep p' :
  pump_inv p -> connect_begun has_udp addr p (Ok (h, ep)) p' ->
  exists id c cs q, try_into 32 (ea_endpoint_id addr) = Some id /\ next_conn_epoch (st p) <= ep /\
    ep < next_conn_epoch (st p') /\
    table_of (st p') = MkTable (<[h := ConnEntry_new c (Some id) false ep]> cs) q (next_conn_epoch (st p')).
Proof.
  intros Hi (now & f & tls & quic & p1 & s' & Hf & Hroom & Hc & ->).
  apply ensured_run_world in Hf. pose proof (world_run_tables _ _ Hi Hf) as Ht.
  apply connect_cases in Hc as [[[e [=]] _]|(id & config & real & k & up & Hid & Hd)].
  apply connect_dial_entry in Hd as (Hep & c & Htab). exists id, c, (conns (st p1)), (accept_queue (st p1)).
  assert (t_next (table_of (st p)) <= t_next (table_of (st p1))) as Hle.
  { clear -Ht. unfold tables in Ht. induction Ht as [|t t1 t2 Ha _ IH]; [lia|].
    destruct Ha; simpl in *; lia. }
  pose proof (ci_next _ _ _ (wf_conn _ (pi_wf _ (world_inv _ _ Hi Hf)))). destruct Hroom as [_ _ _ He].
  injection Htab as Hcs Hq Hn. simpl in *. unfold table_of, u64_max in *. rewrite wrap64_small in Hn by lia.
  split_and!; [done|lia|lia|]. congruence.
Qed.

(** [connect], from call to return, whatever the pump and the other tasks do in
    between and however its relays are opened: when it succeeds, the connection it
    returns was minted during the call, is open, has no error, and the identity its
    TLS session authenticated is the one the call addressed. *)
Lemma connect_run_ok has_udp addr p c p' :
  reachable p -> connect_run has_udp addr p (Ok c) p' ->
  exists id e, try_into 32 (ea_endpoint_id addr) = Some id /\ next_conn_epoch (st p) <= minted c /\
    entry_for (st p') (handle c) (minted c) = Some e /\ connected e = true /\ error e = None /\
    accepted_side e = false /\ peer e = Some id.
Proof.
  intros Hreach Hr. pose proof (reachable_inv _ Hreach) as Hi. inversion Hr as [|? h ep p1 ? Hb Hw Hck|]; subst.
  destruct (connect_begun_names _ _ _ _ _ _ Hi Hb) as (id & c0 & cs & q & Hid & Hle & Hlt & Htab).
  pose proof (world_inv _ _ Hi (connect_begun_world _ _ _ _ _ Hb)) as Hi1. pose proof (world_inv _ _ Hi1 Hw) as Hi2.
  pose proof (world_run_tables _ _ Hi1 Hw) as Ht. unfold connect_check in Hck.
  destruct (entry_for (st p') h ep) as [e|] eqn:He; [|done]. destruct (error e) eqn:Herr; [done|].
  destruct (connected e) eqn:Hcon; [|done]. pose proof He as [Hl Hep]%entry_for_Some.
  destruct (stamp_fixed _ _ (h, ep) e Ht) as (e1 & H1 & _ & Hex & Hside); [done|done|done|].
  rewrite Htab in H1. simpl in H1. rewrite lookup_insert, decide_True in H1 by done. injection H1 as <-.
  destruct (ci_auth _ _ _ (wf_conn _ (pi_wf _ Hi2)) h e Hl Hcon) as (id' & Hp & Hx). simpl in *.
  exists id, e. rewrite Hex in Hx. destruct Hx as [Hx|Hx]; [done|]. injection Hx as <-. split_and!; done.
Qed.

(** ** [accept]'s promise *)

Lemma live_world p p' : live_system p -> rtc world p p' -> live_system p'.
Proof.
  intros (now & ep & w & url & c & rc & u & Hl) Hr. exists now, ep, w, url, c, rc, u. by etransitivity.
Qed.

(** [accept], from call to return: the connection it returns came in and has
    completed its handshake as some authenticated peer. *)
Lemma accept_run_takes p c p' :
  live_system p -> accept_run p (Ok c) p' ->
  exists e id, entry_for (st p') (handle c) (minted c) = Some e /\ accepted_side e = true /\
    connected e = true /\ peer e = Some id.
Proof.
  intros Hl (q & r & s & Hw & _ & Ha & Hr & ->). destruct r as [[h ep]|]; [|done]. injection Hr as ->. simpl.
  destruct (live_system_inv _ (live_world _ _ Hl Hw)) as [Hi _].
  destruct (accept_check_takes _ _ _ (pi_wf _ Hi) Ha) as (Hs & _ & e & _ & _ & He & Hside & Hcon & id & Hp).
  exists e, id. split_and!; try done. by rewrite Hs.
Qed.

(** No later call, whatever happens in between, returns it again. *)
Lemma accept_runs_differ p c p1 p2 c' p3 :
  live_system p -> accept_run p (Ok c) p1 -> rtc world p1 p2 -> accept_run p2 (Ok c') p3 ->
  res_name c' <> res_name c.
Proof.
  intros Hl (q1 & r1 & s1 & Hw1 & _ & Ha1 & Hr1 & ->) Hw2 (q2 & r2 & s2 & Hw3 & _ & Ha2 & Hr2 & ->).
  destruct r1 as [[h ep]|]; [|done]. destruct r2 as [[h2 ep2]|]; [|done]. injection Hr1 as ->. injection Hr2 as ->.
  intros [= -> ->].
  destruct (taken_stays_out q1 (h, ep) s1 q2 (live_world _ _ Hl Hw1) Ha1) as (Hout & Ho & Hwf); [by etransitivity|].
  by destruct (accept_takes (st q2) (h, ep) s2 Hwf (on_nodup _ Ho) Ha2) as [Hin _].
Qed.
End MethodsTheory.
