(* ===== verification/Text.v ===== *)
(** The parts of [core::num] and [core::str] that the drivers and the
    experiments parse their inputs with: integers in a radix, slices of text,
    trimming. *)
From stdpp Require Import pretty.
From S2P Require Import Prelude RelayFrames Types.

(** ** Integers

    [from_str_radix] for an unsigned type with maximum [max]: an optional plus
    sign, then at least one digit; a value above [max] fails. *)
Fixpoint parse_digits (radix max acc : Z) (l : list Ascii.ascii) : option Z :=
  match l with
  | [] => Some acc
  | c :: l =>
      match AddrParser.to_digit radix c with
      | None => None
      | Some d =>
          let acc := acc * radix + d in
          if max <? acc then None else parse_digits radix max acc l
      end
  end.

Definition plus_sign (c : Ascii.ascii) : bool := (Ascii.nat_of_ascii c =? 43)%nat.

Definition from_str_radix (radix max : Z) (s : string) : option Z :=
  match AddrParser.to_chars s with
  | [] => None
  | [c] => parse_digits radix max 0 [c]
  | c :: l => if plus_sign c then parse_digits radix max 0 l else parse_digits radix max 0 (c :: l)
  end.

(** [str::parse::<u32>] and [str::parse::<u64>]. *)
Definition parse_u32 (s : string) : option Z := from_str_radix 10 u32_max s.
Definition parse_u64 (s : string) : option Z := from_str_radix 10 u64_max s.

(** ** Slices of text

    [&s[a..b]] panics unless both ends are on character boundaries. *)
Definition char_boundary (i : nat) (l : bytes) : bool :=
  (i =? 0)%nat || (i =? length l)%nat
  || match l !! i with Some b => negb (is_cont b) | None => false end.

Definition str_slice (a b : nat) (s : string) : Run string :=
  let l := str_bytes s in
  if (a <=? b)%nat && (b <=? length l)%nat && char_boundary a l && char_boundary b l
  then Done (bytes_str (take (b - a) (drop a l)))
  else Panic.

(** ** [str::trim]

    The characters with the White_Space property, in UTF-8. *)
Definition white_space : list bytes :=
  ((fun z => [z2b z]) <$> [9; 10; 11; 12; 13; 32])
  ++ ((fun z => [Byte.xc2; z2b z]) <$> [0x85; 0xa0])
  ++ [[Byte.xe1; Byte.x9a; Byte.x80]]
  ++ ((fun z => [Byte.xe2; Byte.x80; z2b z])
        <$> [0x80; 0x81; 0x82; 0x83; 0x84; 0x85; 0x86; 0x87; 0x88; 0x89; 0x8a; 0xa8; 0xa9; 0xaf])
  ++ [[Byte.xe2; Byte.x81; Byte.x9f]; [Byte.xe3; Byte.x80; Byte.x80]].

Definition starts_with (p l : bytes) : bool := bool_decide (take (length p) l = p).

Fixpoint trim_start_fuel (fuel : nat) (spaces : list bytes) (l : bytes) : bytes :=
  match fuel with
  | O => l
  | S fuel =>
      match find (fun w => starts_with w l) spaces with
      | Some w => trim_start_fuel fuel spaces (drop (length w) l)
      | None => l
      end
  end.
Definition trim_start (spaces : list bytes) (l : bytes) : bytes :=
  trim_start_fuel (length l) spaces l.

(** A valid text ends in the character [w] exactly when its bytes end in
    [w]'s. *)
Definition trim (s : string) : string :=
  let l := trim_start white_space (str_bytes s) in
  bytes_str (reverse (trim_start (reverse <$> white_space) (reverse l))).

(** ** Decimal text parses back *)

Lemma to_chars_app s t : AddrParser.to_chars (s +:+ t) = AddrParser.to_chars s ++ AddrParser.to_chars t.
Proof. induction s as [|c s IH]; simpl; [done|]. by rewrite IH. Qed.

(** A printed digit. *)
Lemma pretty_digit x :
  (x < 10)%N ->
  AddrParser.to_digit 10 (pretty_N_char x) = Some (Z.of_N x) /\ plus_sign (pretty_N_char x) = false.
Proof. destruct x as [|p]; [done|]. intros Hx. do 4 (destruct p as [p|p|]; try (by vm_compute); try lia). Qed.

(** Reading the digits of [x] multiplies the value so far and adds [x]. *)
Lemma parse_pretty_go max x acc s : 
  (0 < x)%N -> 0 <= acc ->
  exists k, 10 ^ k <= Z.of_N x < 10 ^ (k + 1) /\ 0 <= k /\
    (acc * 10 ^ (k + 1) + Z.of_N x <= max ->
     parse_digits 10 max acc (AddrParser.to_chars (pretty_N_go x s)) =
     parse_digits 10 max (acc * 10 ^ (k + 1) + Z.of_N x) (AddrParser.to_chars s)).
Proof.
  revert acc s. induction (N.lt_wf_0 x) as [x _ IH]. intros acc s Hx Hacc.
  rewrite pretty_N_go_step by done.
  pose proof (N.div_mod x 10 ltac:(lia)) as Hdm. pose proof (N.mod_lt x 10 ltac:(lia)) as Hm.
  destruct (decide (x / 10 = 0)%N) as [H0|H0].
  - rewrite H0, pretty_N_go_0. exists 0. split; [lia|]. split; [done|]. intros Hmax.
    cbn [AddrParser.to_chars parse_digits]. rewrite (proj1 (pretty_digit _ Hm)).
    replace (Z.of_N (x `mod` 10)) with (Z.of_N x) by lia.
    change (10 ^ (0 + 1)) with 10 in *. by destruct (Z.ltb_spec max (acc * 10 + Z.of_N x)); [lia|].
  - destruct (IH (x / 10)%N ltac:(apply N.div_lt; lia) acc (String (pretty_N_char (x `mod` 10)) s)) as (k & Hk & Hk0 & Hp);
      [lia|done|].
    exists (k + 1). rewrite N2Z.inj_div in Hk, Hp. change (Z.of_N 10) with 10 in *.
    assert (10 ^ (k + 1 + 1) = 10 ^ (k + 1) * 10) as Hpow by (rewrite Z.pow_add_r by lia; lia).
    assert (10 ^ (k + 1) = 10 ^ k * 10) as Hpow' by (rewrite Z.pow_add_r by lia; lia).
    assert (Z.of_N x = 10 * (Z.of_N x / 10) + Z.of_N (x `mod` 10)) as Hx10.
    { rewrite N2Z.inj_mod. pose proof (Z.div_mod (Z.of_N x) 10). lia. }
    assert (0 <= Z.of_N (x `mod` 10) < 10) as Hr by (split; [apply N2Z.is_nonneg|by apply (N2Z.inj_lt _ 10)]).
    revert Hk Hp Hx10 Hr Hpow Hpow'. cbn [AddrParser.to_chars parse_digits].
    rewrite (proj1 (pretty_digit _ Hm)). generalize (Z.of_N x / 10) (Z.of_N (x `mod` 10)).
    generalize (10 ^ (k + 1 + 1)) (10 ^ (k + 1)) (10 ^ k).
    intros p2 p1 p0 q r Hk Hp Hx10 Hr Hpow Hpow'. split; [lia|]. split; [lia|]. intros Hmax.
    rewrite Hp by nia. replace ((acc * p1 + q) * 10 + r) with (acc * p2 + Z.of_N x) by lia.
    by destruct (Z.ltb_spec max (acc * p2 + Z.of_N x)); [lia|].
Qed.

(** The printed digits never start with a plus sign. *)
Lemma pretty_go_head x s c t :
  AddrParser.to_chars (pretty_N_go x s) = c :: t -> (0 < x)%N -> plus_sign c = false.
Proof.
  revert s c t. induction (N.lt_wf_0 x) as [x _ IH]. intros s c t. intros Ht Hx.
  rewrite pretty_N_go_step in Ht by done. destruct (N.eq_0_gt_0_cases (x / 10)) as [H0|H0].
  - rewrite H0, pretty_N_go_0 in Ht. simpl in Ht. injection Ht as <- <-.
    by apply pretty_digit, N.mod_lt.
  - eapply (IH (x / 10)%N); [by apply N.div_lt|exact Ht|done].
Qed.

(** Decimal text parses back. *)
Lemma from_str_pretty max n : 0 <= n <= max -> from_str_radix 10 max (pretty n) = Some n.
Proof.
  intros Hn. destruct (decide (n = 0)) as [->|Hz].
  { unfold from_str_radix. cbn. vm_compute (AddrParser.to_digit _ _). cbv iota beta. by destruct (Z.ltb_spec max (0 * 10 + 0)); [lia|]. }
  assert (pretty n = pretty_N_go (Z.to_N n) "") as ->.
  { destruct n as [|p|p]; [lia|done|lia]. }
  destruct (parse_pretty_go max (Z.to_N n) 0 "" ltac:(lia) ltac:(lia)) as (k & _ & _ & Hp).
  rewrite Z2N.id in Hp by lia. specialize (Hp ltac:(lia)). rewrite Z.mul_0_l, Z.add_0_l in Hp.
  unfold from_str_radix. destruct (AddrParser.to_chars _) as [|c [|c' l]] eqn:E.
  - simpl in Hp. exfalso. injection Hp. lia.
  - done.
  - rewrite (pretty_go_head _ _ _ _ E) by lia. exact Hp.
Qed.
