(* ===== verification/PingDemo.v ===== *)
(** The ping demo ([experiments/ping-demo/guest/src/main.rs]): a browser page
    and the guest that carries its frames to a peer. The overlay and page
    protocols, the secret's parser, the acceptor with the host's session loop, a
    session's tasks, and file transfer. What iroh, iroh-blobs, serde and the
    sockets return is an argument; each task's sends are its output. *)
From stdpp Require Import pretty.
From S2P Require Import Prelude RelayFrames Types Text.

Definition ALPN : bytes := str_bytes "/polymorph/ping-demo/1".
Definition TAG_REGISTER : Z := 0x00.
Definition TAG_ASSIGNED : Z := 0x01.
Definition TAG_READY : Z := 0x02.
Definition TAG_UP_CHUNK : Z := 0x01.
Definition TAG_DOWN_CHUNK : Z := 0x02.
Definition MAX_FRAME : nat := 16 * 1024.
Definition DOWN_CHUNK : nat := MAX_FRAME - 1.
Definition IDLE_TIMEOUT : Duration := from_secs 8.
Definition REDIAL_DELAY : Duration := from_secs 2.

(** [u16::to_be_bytes]. *)
Definition be16 (n : Z) : bytes := [z2b (n / 256); z2b n].

(** ** Datagrams

    [recv_from] into a buffer of [n] bytes cuts a longer datagram. *)
Definition received_in (n : nat) (dgram : bytes) : bytes := take n dgram.

(** ** The overlay's control protocol *)

Record Overlay := MkOverlay { external_addr : SocketAddr }.

Definition register_frame (id : array 32) (udp_port : Z) : bytes :=
  z2b TAG_REGISTER :: array_bytes id ++ be16 udp_port.

Definition ipv4_port (sockets : list SocketAddr) : option Z :=
  head (omap (fun a => match a with V4 _ p => Some p | V6 _ _ _ _ => None end) sockets).

(** The address an assignment carries. *)
Definition assigned (dgram : bytes) : option SocketAddr :=
  match received_in 64 dgram with
  | tag :: a :: b :: c :: d :: p1 :: p0 :: _ =>
      if b2z tag =? TAG_ASSIGNED then Some (V4 [b2z a; b2z b; b2z c; b2z d] (be_value [p1; p0])) else None
  | _ => None
  end.

(** The datagrams up to the first assignment; [None] while there is none. *)
Fixpoint await_assigned (inbound : list bytes) : option (Overlay * list bytes) :=
  match inbound with
  | [] => None
  | dgram :: inbound =>
      match assigned dgram with
      | Some a => Some (MkOverlay a, inbound)
      | None => await_assigned inbound
      end
  end.

(** The frame sent, and the overlay once the bridge has answered. *)
Definition register (id : array 32) (sockets : list SocketAddr) (inbound : list bytes)
    : Run (bytes * option (Overlay * list bytes)) :=
  match ipv4_port sockets with
  | None => Panic
  | Some port => Done (register_frame id port, await_assigned inbound)
  end.

(** The datagrams left after the next readiness report. *)
Fixpoint ready (inbound : list bytes) : option (list bytes) :=
  match inbound with
  | [] => None
  | dgram :: inbound =>
      match received_in 64 dgram with
      | tag :: _ => if b2z tag =? TAG_READY then Some inbound else ready inbound
      | [] => ready inbound
      end
  end.

(** ** The environment *)

Definition env_var (env : string -> option string) (name : string) : option string :=
  v ← env name; if (v =? "")%string then None else Some v.

(** The bytes from pair [i] on, [n] of them. *)
Fixpoint secret_bytes (n i : nat) (hex : string) : Run (option bytes) :=
  match n with
  | O => Done (Some [])
  | S n =>
      let! digits := str_slice (2 * i) (2 * i + 2) hex in
      match from_str_radix 16 u8_max digits with
      | None => Done None
      | Some b => let! rest := secret_bytes n (S i) hex in Done (cons (z2b b) <$> rest)
      end
  end.

Definition parse_secret (hex : string) : Run (option bytes) :=
  let hex := trim hex in
  if (length (str_bytes hex) =? 64)%nat then secret_bytes 32 0 hex else Done None.

(** ** The page *)

Definition quoted (s : string) : string :=
  let q := String (Ascii.ascii_of_nat 34) EmptyString in q +:+ s +:+ q.
Definition text_field (key value : string) : string := quoted key +:+ ":" +:+ quoted value.
Definition number_field (key : string) (value : Z) : string := quoted key +:+ ":" +:+ pretty value.

(** [Page::event]: the fields are pasted as they are. *)
Definition event (t : string) (fields : list string) : bytes :=
  str_bytes ("{" +:+ text_field "t" t +:+ foldr (fun f rest => "," +:+ f +:+ rest) "}" fields).

Definition ready_event (id relay : string) : bytes :=
  event "ready" [text_field "id" id; text_field "relay" relay].
Definition overlay_event : bytes := event "overlay" [text_field "state" "added"].
Definition closed_event : bytes := event "closed" [].

(** ** Paths *)

Inductive RemoteAddr := RaRelay | RaIp | RaOther.
Record PathInfo := MkPathInfo { is_selected : bool; rtt_us : Z; remote_addr : RemoteAddr }.

Definition selected_path (paths : list PathInfo) : string * Z :=
  match find is_selected paths with
  | None => ("none"%string, 0)
  | Some p =>
      (match remote_addr p with RaRelay => "relay" | RaIp => "direct" | RaOther => "other" end%string,
       wrap64 (rtt_us p))
  end.

(** One turn of the path watcher, every 500 ms: what it last reported, and the
    event it sends. *)
Definition watch_turn (last : string * Z) (paths : list PathInfo) : (string * Z) * option bytes :=
  let '(path, rtt) := selected_path paths in
  if negb (path =? last.1)%string || (500 <? Z.abs (rtt - last.2)) then
    ((path, rtt), Some (event "path" [text_field "path" path; number_field "rtt_us" rtt]))
  else (last, None).

Fixpoint watch (last : string * Z) (polls : list (list PathInfo)) : list (option bytes) :=
  match polls with
  | [] => []
  | paths :: polls => let '(last, e) := watch_turn last paths in e :: watch last polls
  end.

(** ** Accepting

    The acceptor task and the host's session loop share the busy flag and a
    channel of capacity one. [blocked] is the connection whose [send] waits for
    room; until it has room, the acceptor accepts nothing. *)
Inductive Verdict := ToBlobs | Refused | ToSession.
#[export] Instance Verdict_eq_dec : EqDecision Verdict.
Proof. solve_decision. Defined.

Record Hub := MkHub {
  is_host : bool;
  busy : bool;
  active : option Z;
  queue : option Z;
  blocked : option Z;
  served : list Z;
  verdicts : list (Z * Verdict);
}.
#[export] Instance Hub_eta : Eta Hub := fun h =>
  MkHub (is_host h) (busy h) (active h) (queue h) (blocked h) (served h) (verdicts h).

Definition hub_new (host : bool) : Hub := MkHub host false None None None [] [].

Section Accepting.
Context (blobs_alpn : bytes).

Definition verdict (alpn : bytes) (h : Hub) : Verdict :=
  if decide (alpn = blobs_alpn) then ToBlobs
  else if negb (is_host h) || busy h then Refused else ToSession.

(** A handshaken connection reaches the acceptor. *)
Definition accept_conn (conn : Z) (alpn : bytes) (h : Hub) : Hub :=
  let v := verdict alpn h in
  let h := h <| verdicts ::= fun l => l ++ [(conn, v)] |> in
  match v with
  | ToSession =>
      match queue h with
      | None => h <| queue := Some conn |>
      | Some _ => h <| blocked := Some conn |>
      end
  | _ => h
  end.

(** The waiting [send] gets the room. *)
Definition send_resumes (conn : Z) (h : Hub) : Hub := h <| queue := Some conn |> <| blocked := None |>.

(** [session_rx.recv] yields and the flag is set before the next await. *)
Definition session_begins (conn : Z) (h : Hub) : Hub :=
  h <| queue := None |> <| busy := true |> <| active := Some conn |>.
Definition session_ends (conn : Z) (h : Hub) : Hub :=
  h <| active := None |> <| busy := false |> <| served ::= fun l => l ++ [conn] |>.

Inductive hub_step : Hub -> Hub -> Prop :=
| hub_accept conn alpn h : blocked h = None -> hub_step h (accept_conn conn alpn h)
| hub_resume conn h : blocked h = Some conn -> queue h = None -> hub_step h (send_resumes conn h)
| hub_begin conn h :
    is_host h = true -> active h = None -> queue h = Some conn -> hub_step h (session_begins conn h)
| hub_end conn h : active h = Some conn -> hub_step h (session_ends conn h).

(** The ALPNs the endpoint accepts. *)
Definition alpns (host : bool) : list bytes := if host then [ALPN; blobs_alpn] else [blobs_alpn].
End Accepting.

(** ** A session *)

Inductive PageCommand :=
| Send (id : Z) (name : string) (size : Z)
| Fetch (hash : string) (size : Z).

Record Upload := MkUpload { u_id : Z; u_name : string; u_size : Z; u_buf : bytes }.
#[export] Instance Upload_eta : Eta Upload := fun u =>
  MkUpload (u_id u) (u_name u) (u_size u) (u_buf u).

(** The ferry loop's state and what it has put out: datagrams to the page, bytes
    to the peer's stream, uploads handed to the store, fetches spawned. *)
Record Session := MkSession {
  upload : option Upload;
  to_page : list bytes;
  to_peer : bytes;
  stored : list bytes;
  fetches : list (string * Z);
}.
#[export] Instance Session_eta : Eta Session := fun s =>
  MkSession (upload s) (to_page s) (to_peer s) (stored s) (fetches s).

Inductive Exit := Bye | StreamFailed | ConnClosed.

(** The frame of a page datagram on the peer's stream. *)
Definition frame (payload : bytes) : bytes := be16 (Z.of_nat (length payload)) ++ payload.

(** Opening the ferry stream: the host accepts it; the joiner opens it and
    writes an empty frame. The bytes it has written, or [None]. *)
Definition open_ferry (host accepted opened written : bool) : option bytes :=
  if host then if accepted then Some [] else None
  else if opened && written then Some (frame []) else None.

Section Ferry.
(** serde_json, and iroh-blobs' [add_bytes]: the hash, or the error's text. *)
Context (parse_command : bytes -> option PageCommand).
Context (add_bytes : bytes -> Result string string).

(** The upload is complete: it leaves the session for the store. *)
Definition finish_upload (u : Upload) (s : Session) : Session :=
  s <| upload := None |> <| stored ::= fun l => l ++ [u_buf u] |>
    <| to_page ::= fun l => l ++
         [match add_bytes (u_buf u) with
          | Ok hash => event "added" [number_field "id" (u_id u); text_field "hash" hash;
                                      number_field "size" (u_size u)]
          | Err err => event "file-error" [text_field "msg" ("add: " +:+ err)]
          end] |>.

Definition on_chunk (chunk : bytes) (s : Session) : Session :=
  match upload s with
  | None => s
  | Some u =>
      let u := u <| u_buf ::= fun b => b ++ chunk |> in
      if u_size u <=? Z.of_nat (length (u_buf u)) then finish_upload u s
      else s <| upload := Some u |>
  end.

(** [Vec::with_capacity(size as usize)] on a 32-bit target. *)
Definition with_capacity (size : Z) : Run unit :=
  if 2 ^ 31 - 1 <? wrap32 size then Panic else Done tt.

Definition on_command (cmd : PageCommand) (s : Session) : Run Session :=
  match cmd with
  | Send id name size =>
      let! _ := with_capacity size in Done (s <| upload := Some (MkUpload id name size []) |>)
  | Fetch hash size => Done (s <| fetches ::= fun l => l ++ [(hash, size)] |>)
  end.

(** Two writes: the length, then the frame. *)
Definition forward (payload : bytes) (length_ok body_ok : bool) (s : Session) : Session * option Exit :=
  if length_ok then
    let s := s <| to_peer ::= fun l => l ++ be16 (Z.of_nat (length payload)) |> in
    if body_ok then (s <| to_peer ::= fun l => l ++ payload |>, None) else (s, Some StreamFailed)
  else (s, Some StreamFailed).

(** One turn of the select: a page datagram, with how the writes it may make
    would go, or the connection's end. *)
Inductive Turn :=
| FromPage (dgram : bytes) (length_ok body_ok : bool)
| Closed.

Definition session_turn (t : Turn) (s : Session) : Run (Session * option Exit) :=
  match t with
  | Closed => Done (s, Some ConnClosed)
  | FromPage dgram length_ok body_ok =>
      match received_in MAX_FRAME dgram with
      | [] => Done (s, Some Bye)
      | tag :: rest =>
          if b2z tag =? TAG_UP_CHUNK then Done (on_chunk rest s, None)
          else match parse_command (tag :: rest) with
               | Some cmd => let! s := on_command cmd s in Done (s, None)
               | None => Done (forward (tag :: rest) length_ok body_ok s)
               end
      end
  end.

(** The loop over the turns so far; after an exit nothing more is read. *)
Fixpoint ferry (turns : list Turn) (s : Session) : Run (Session * option Exit) :=
  match turns with
  | [] => Done (s, None)
  | t :: turns =>
      let! (s, exit) := session_turn t s in
      match exit with
      | Some e => Done (s, Some e)
      | None => ferry turns s
      end
  end.
End Ferry.

Definition session_start (remote : string) (opening : bytes) : Session :=
  MkSession None [event "connected" [text_field "peer" remote]] opening [] [].

(** The reader task: the frames of the peer's stream, to the page, until the
    stream ends, fails, or is not framed. *)
Fixpoint reader (fuel : nat) (stream : bytes) : Run (list bytes) :=
  match fuel with
  | O => OutOfFuel
  | S fuel =>
      if (length stream <? 2)%nat then Done []
      else
        let n := Z.to_nat (be_value (take 2 stream)) in
        let stream := drop 2 stream in
        if (MAX_FRAME <? n)%nat || (length stream <? n)%nat then Done []
        else let! rest := reader fuel (drop n stream) in Done (take n stream :: rest)
  end.

(** ** Fetching a file *)

Inductive Output :=
| ToPage (dgram : bytes)
| CloseConn (code : Z) (reason : bytes).

(** [slice::chunks]. *)
Fixpoint chunks_fuel (fuel n : nat) (l : bytes) : list bytes :=
  match fuel, l with
  | S fuel, _ :: _ => take n l :: chunks_fuel fuel n (drop n l)
  | _, _ => []
  end.
Definition chunks (n : nat) (l : bytes) : list bytes := chunks_fuel (length l) n l.

Inductive GetProgress := GpProgress (got : Z) | GpDone | GpError (err : string).

(** An item of the progress stream, with the clock when its age is checked and
    when the throttle is reset. *)
Record ProgressItem := MkProgressItem { item : GetProgress; checked : Instant; reset_at : Instant }.

Definition fail (msg : string) : list Output := [ToPage (event "file-error" [text_field "msg" msg])].

(** The progress loop: its events, and the failure it ends with, if any. *)
Fixpoint follow (hash : string) (size : Z) (last : Instant) (items : list ProgressItem)
    : list Output * option string :=
  match items with
  | [] => ([], Some "fetch ended early"%string)
  | i :: items =>
      match item i with
      | GpProgress got =>
          if from_millis 200 <? duration_since (checked i) last then
            let e := event "progress" [text_field "hash" hash; number_field "done" got;
                                       number_field "total" size] in
            let '(out, r) := follow hash size (reset_at i) items in (ToPage e :: out, r)
          else follow hash size last items
      | GpDone => ([], None)
      | GpError err => ([], Some ("fetch: " +:+ err))
      end
  end.

Definition down_frame (chunk : bytes) : bytes := z2b TAG_DOWN_CHUNK :: chunk.

Definition deliver (hash : string) (content : bytes) : list Output :=
  [ToPage (event "file-start" [text_field "hash" hash; number_field "size" (Z.of_nat (length content))])]
  ++ ((fun c => ToPage (down_frame c)) <$> chunks DOWN_CHUNK content)
  ++ [ToPage (event "file-done" [text_field "hash" hash])].

(** [parse_hash] yields the hash as it is displayed. *)
Definition fetch_and_deliver (parse_hash : string -> option string) (hash_hex : string) (size : Z)
    (connected : Result unit string) (started : Instant) (items : list ProgressItem)
    (read : string -> Result bytes string) : list Output :=
  match parse_hash hash_hex with
  | None => fail "bad hash"
  | Some hash =>
      match connected with
      | Err err => fail ("connect: " +:+ err)
      | Ok _ =>
          let '(out, r) := follow hash size started items in
          out ++ match r with
                 | Some msg => fail msg
                 | None =>
                     CloseConn 0 (str_bytes "done") ::
                     match read hash with
                     | Ok content => deliver hash content
                     | Err err => fail ("read: " +:+ err)
                     end
                 end
      end
  end.

(** ** The joiner's loop

    One turn: the bounded dial's outcome, whether a session ran, and the wait
    before the next dial. *)
Definition DIAL_TIMEOUT : Duration := from_secs 10.
Definition join_turn (dialed : option (Result Z string)) : option Z * list bytes * Duration :=
  match dialed with
  | Some (Ok conn) => (Some conn, [closed_event], REDIAL_DELAY)
  | _ => (None, [], REDIAL_DELAY)
  end.
