(* ===== verification/PingTheory.v ===== *)
(** The ping demo's tasks: the ferry between two pages, uploads, downloads, the
    acceptor with the session loop, the secret's parser. *)
From stdpp Require Import pretty.
From S2P Require Import Prelude RelayFrames Types Text PingDemo.

(** Numbers of this size are never unfolded. *)
#[local] Opaque MAX_FRAME DOWN_CHUNK.

Lemma down_chunk_pos : (0 < DOWN_CHUNK)%nat.
Proof. apply Nat.ltb_lt. vm_compute. reflexivity. Qed.
Lemma down_chunk_max : S DOWN_CHUNK = MAX_FRAME.
Proof. vm_compute. reflexivity. Qed.

(** ** Framing *)

Lemma be_value_be16 n : 0 <= n < 2 ^ 16 -> be_value (be16 n) = n.
Proof.
  intros Hn. unfold be16, be_value. cbn [foldl]. rewrite !b2z_z2b. dlia.
Qed.

Lemma length_frame p : length (frame p) = (2 + length p)%nat.
Proof. unfold frame. by rewrite length_app. Qed.

Definition frames (ps : list bytes) : bytes := concat (frame <$> ps).

(** The length field of a frame that fits. *)
Lemma frame_size p rest :
  (length p <= MAX_FRAME)%nat -> Z.to_nat (be_value (take 2 (frame p ++ rest))) = length p.
Proof.
  intros Hp. assert (Z.of_nat (length p) < 2 ^ 16) as Hb.
  { apply Z.le_lt_trans with (Z.of_nat MAX_FRAME); [by apply Nat2Z.inj_le|done]. }
  unfold frame. rewrite <- app_assoc, (take_app_length' (be16 _) _ 2) by done.
  by rewrite be_value_be16, Nat2Z.id by lia.
Qed.

(** What the reader does with the front of a stream. *)
Lemma reader_short fuel stream : (length stream < 2)%nat -> reader (S fuel) stream = Done [].
Proof. intros Hl. cbn [reader]. by destruct (Nat.ltb_spec (length stream) 2); [|lia]. Qed.

Lemma reader_frame fuel p rest :
  (length p <= MAX_FRAME)%nat ->
  reader (S fuel) (frame p ++ rest) = (let! ps := reader fuel rest in Done (p :: ps)).
Proof.
  intros Hp. cbn [reader]. rewrite length_app, length_frame.
  destruct (Nat.ltb_spec (2 + length p + length rest) 2); [lia|].
  rewrite frame_size by done. unfold frame. rewrite <- app_assoc.
  rewrite (drop_app_length' (be16 _) _ 2), length_app by done.
  destruct (Nat.ltb_spec MAX_FRAME (length p)); [lia|].
  destruct (Nat.ltb_spec (length p + length rest) (length p)); [lia|]. cbn [orb].
  by rewrite take_app_length, drop_app_length.
Qed.

(** A frame cut short is dropped. *)
Lemma reader_cut fuel p k :
  (length p <= MAX_FRAME)%nat -> (k < length (frame p))%nat -> reader (S fuel) (take k (frame p)) = Done [].
Proof.
  intros Hp Hk. destruct (decide (k < 2)%nat) as [H2|H2].
  { apply reader_short. rewrite length_take. lia. }
  rewrite length_frame in Hk. cbn [reader]. rewrite length_take, length_frame.
  destruct (Nat.ltb_spec (k `min` (2 + length p)) 2); [lia|].
  rewrite take_take, (Nat.min_l 2) by lia. pose proof (frame_size p [] Hp) as Hn. rewrite app_nil_r in Hn.
  rewrite Hn. destruct (Nat.ltb_spec MAX_FRAME (length p)); [lia|]. cbn [orb].
  rewrite length_drop, length_take, length_frame.
  by destruct (Nat.ltb_spec (k `min` (2 + length p) - 2) (length p)); [|lia].
Qed.

(** Of a prefix of framed payloads the reader delivers the payloads that are
    whole in it, with any fuel above its length. *)
Lemma reader_prefix ps k fuel :
  Forall (fun p => length p <= MAX_FRAME)%nat ps -> (k <= fuel)%nat ->
  exists n, reader (S fuel) (take k (frames ps)) = Done (take n ps) /\
    ((length (frames ps) <= k)%nat -> (length ps <= n)%nat).
Proof.
  intros Hps. revert k fuel. induction Hps as [|p ps Hp _ IH]; intros k fuel Hk.
  { exists 0%nat. change (frames []) with (@nil byte). rewrite take_nil, reader_short by (simpl; lia). by split. }
  change (frames (p :: ps)) with (frame p ++ frames ps).
  destruct (decide (k < length (frame p))%nat) as [Hc|Hc].
  - exists 0%nat. rewrite take_app_le, reader_cut by (done || lia). split; [done|]. rewrite length_app. lia.
  - rewrite take_app_ge by lia. rewrite reader_frame by done. rewrite length_frame in *.
    destruct fuel as [|fuel]; [lia|].
    destruct (IH (k - (2 + length p))%nat fuel ltac:(lia)) as (n & Hr & Hall). rewrite Hr. exists (S n).
    split; [done|]. rewrite length_app, length_frame. simpl. lia.
Qed.

(** ** The ferry *)

Section FerryTheory.
Context (parse_command : bytes -> option PageCommand).
Context (add_bytes : bytes -> Result string string).

#[local] Abbreviation session_turn := (session_turn parse_command add_bytes).
#[local] Abbreviation ferry := (ferry parse_command add_bytes).

(** The payload a turn carries for the peer: what is neither a chunk nor a
    command. *)
Definition relayed (t : Turn) : option bytes :=
  match t with
  | FromPage dgram _ _ =>
      match received_in MAX_FRAME dgram with
      | tag :: rest =>
          if b2z tag =? TAG_UP_CHUNK then None
          else match parse_command (tag :: rest) with Some _ => None | None => Some (tag :: rest) end
      | [] => None
      end
  | Closed => None
  end.

Lemma relayed_size t p : relayed t = Some p -> (length p <= MAX_FRAME)%nat.
Proof.
  destruct t as [d l b|]; [|done]. unfold relayed, received_in. intros Hr.
  destruct (take MAX_FRAME d) as [|tag rest] eqn:E; [done|].
  assert (length (tag :: rest) <= MAX_FRAME)%nat by (rewrite <- E, length_take; lia).
  repeat case_match; by simplify_eq.
Qed.

Lemma on_chunk_peer c s : to_peer (on_chunk add_bytes c s) = to_peer s.
Proof. unfold on_chunk. repeat case_match; done. Qed.

Lemma on_command_peer c s s' : on_command c s = Done s' -> to_peer s' = to_peer s.
Proof.
  unfold on_command. destruct c as [i n z|h z]; [|by intros [= <-]].
  destruct (with_capacity z); simpl; [|done..]. by intros [= <-].
Qed.

Lemma frames_one p : frames (option_list (Some p)) = frame p.
Proof. unfold frames. simpl. by rewrite app_nil_r. Qed.

(** A turn writes its payload's frame, or the part of it that the failed stream
    took. *)
Lemma turn_peer t s s' exit :
  session_turn t s = Done (s', exit) ->
  exists k, to_peer s' = to_peer s ++ take k (frames (option_list (relayed t))) /\
    (exit <> Some StreamFailed -> (length (frames (option_list (relayed t))) <= k)%nat).
Proof.
  destruct t as [d lok bok|]; [|intros [= <- <-]; exists 0%nat; by rewrite app_nil_r].
  unfold PingDemo.session_turn, relayed.
  destruct (received_in MAX_FRAME d) as [|tag rest]; [intros [= <- <-]; exists 0%nat; by rewrite app_nil_r|].
  destruct (b2z tag =? TAG_UP_CHUNK).
  { intros [= <- <-]. exists 0%nat. by rewrite on_chunk_peer, app_nil_r. }
  destruct (parse_command (tag :: rest)) as [cmd|].
  { destruct (on_command cmd s) as [s1| |] eqn:E; simpl; [|done..]. intros [= <- <-]. exists 0%nat.
    by rewrite (on_command_peer _ _ _ E), app_nil_r. }
  rewrite frames_one. generalize (tag :: rest). intros p. unfold forward.
  destruct lok; [|intros [= <- <-]; exists 0%nat; by rewrite app_nil_r].
  destruct bok; intros [= <- <-].
  - exists (length (frame p)). split; [|done]. simpl. by rewrite firstn_all, <- app_assoc.
  - by exists 2%nat.
Qed.

Lemma frames_app ps qs : frames (ps ++ qs) = frames ps ++ frames qs.
Proof. unfold frames. by rewrite fmap_app, concat_app. Qed.

Lemma ferry_peer turns s s' exit :
  ferry turns s = Done (s', exit) ->
  exists ps k, ps `prefix_of` omap relayed turns /\ to_peer s' = to_peer s ++ take k (frames ps) /\
    (exit <> Some StreamFailed -> (length (frames ps) <= k)%nat) /\
    (exit = None -> ps = omap relayed turns).
Proof.
  revert s. induction turns as [|t turns IH]; intros s; cbn [PingDemo.ferry].
  { intros [= <- <-]. exists [], 0%nat. by rewrite app_nil_r. }
  destruct (session_turn t s) as [[s1 e]| |] eqn:E; cbn [run_bind]; [|done..].
  apply turn_peer in E as (k1 & H1 & Hk1). assert (omap relayed (t :: turns) = option_list (relayed t) ++ omap relayed turns) as Hom.
  { simpl. by destruct (relayed t). }
  rewrite Hom. destruct e as [e|].
  - intros [= <- <-]. exists (option_list (relayed t)), k1.
    split_and!; [by apply prefix_app_r|done|exact Hk1|done].
  - intros Hf. destruct (IH _ Hf) as (ps & k & Hps & Hto & Hk & Hall).
    specialize (Hk1 ltac:(done)).
    exists (option_list (relayed t) ++ ps), (length (frames (option_list (relayed t))) + k)%nat.
    split_and!.
    + by apply prefix_app.
    + rewrite Hto, H1, frames_app, firstn_all2, <- app_assoc, take_app_add by done. done.
    + intros He. rewrite frames_app, length_app. specialize (Hk He). lia.
    + intros He. by rewrite (Hall He).
Qed.

(** The frames a session's stream opens with. *)
Lemma open_ferry_frames host accepted opened written opening :
  open_ferry host accepted opened written = Some opening ->
  opening = frames (if host then [] else [[]]) /\
  Forall (fun p => length p <= MAX_FRAME)%nat (if host then [] else [[]] : list bytes).
Proof.
  unfold open_ferry. destruct host, accepted, opened, written; intros [= <-]; (split; [done|]);
    first [exact (Forall_nil_2 _)|apply Forall_singleton, Nat.le_0_l].
Qed.

(** C27. The ferry, end to end: whatever the page sends and however the writes
    go, the frames the peer's reader has delivered are frames the page sent for
    the peer, whole, in order and each once (the joiner's first, empty frame
    before them), however much of the stream has arrived; and unless the stream
    failed they are all of them once it has all arrived. *)
Theorem ferry_delivers host accepted opened written opening remote turns s' exit arrived fuel :
  open_ferry host accepted opened written = Some opening ->
  ferry turns (session_start remote opening) = Done (s', exit) -> (arrived < fuel)%nat ->
  exists ps delivered,
    reader fuel (take arrived (to_peer s')) = Done delivered /\ ps `prefix_of` omap relayed turns /\
    delivered `prefix_of` (if host then [] else [[]]) ++ ps /\
    (exit = None -> ps = omap relayed turns) /\
    (exit <> Some StreamFailed -> (length (to_peer s') <= arrived)%nat ->
     delivered = (if host then [] else [[]]) ++ ps).
Proof.
  intros Ho Hf Hfuel. apply open_ferry_frames in Ho as [-> Hfirst].
  revert Hf Hfirst. generalize (if host then [] else [[]] : list bytes). intros first Hf Hfirst.
  apply ferry_peer in Hf as (ps & k & Hps & Hto & Hk & Hall). simpl in Hto.
  assert (to_peer s' = take (length (frames first) + k) (frames (first ++ ps))) as Hto'.
  { by rewrite Hto, frames_app, take_app_add. }
  destruct fuel as [|fuel]; [lia|].
  destruct (reader_prefix (first ++ ps) (arrived `min` (length (frames first) + k)) fuel) as (n & Hr & Hn).
  { apply Forall_app. split; [exact Hfirst|].
    apply Forall_forall. intros p Hp. destruct Hps as [qs Hqs].
    assert (p ∈ omap relayed turns) as Hin by (rewrite Hqs; by apply elem_of_app; left).
    apply list_elem_of_omap in Hin as (t & _ & Ht). by eapply relayed_size. }
  { lia. }
  exists ps, (take n (first ++ ps)). rewrite Hto', take_take. split; [exact Hr|]. split; [done|].
  split; [apply prefix_take|]. split; [done|]. intros He Harr. specialize (Hk He).
  apply firstn_all2, Hn. rewrite length_take, frames_app, length_app in Harr.
  rewrite frames_app, length_app. lia.
Qed.
(** *** Uploads *)

(** The chunk a turn carries, and whether a turn starts another upload. *)
Definition chunk_of (t : Turn) : option bytes :=
  match t with
  | FromPage dgram _ _ =>
      match received_in MAX_FRAME dgram with
      | tag :: rest => if b2z tag =? TAG_UP_CHUNK then Some rest else None
      | [] => None
      end
  | Closed => None
  end.
Definition announces (t : Turn) : bool :=
  match t with
  | FromPage dgram _ _ =>
      match received_in MAX_FRAME dgram with
      | tag :: rest =>
          negb (b2z tag =? TAG_UP_CHUNK)
          && match parse_command (tag :: rest) with Some (Send _ _ _) => true | _ => false end
      | [] => false
      end
  | Closed => false
  end.

(** What is out for the page and the store. *)
Definition page_side (s : Session) : option Upload * list bytes * list bytes :=
  (upload s, stored s, to_page s).

Lemma turn_page t s s' exit :
  session_turn t s = Done (s', exit) -> announces t = false ->
  page_side s' = page_side (match chunk_of t with Some c => on_chunk add_bytes c s | None => s end).
Proof.
  destruct t as [d lok bok|]; [|by intros [= <- _]]. unfold PingDemo.session_turn, announces, chunk_of.
  destruct (received_in MAX_FRAME d) as [|tag rest]; [by intros [= <- _]|].
  destruct (b2z tag =? TAG_UP_CHUNK); [by intros [= <- _]|]. cbn [negb andb].
  destruct (parse_command (tag :: rest)) as [[i n z|h z]|]; [done| |].
  - by intros [= <- _].
  - unfold forward. destruct lok, bok; by intros [= <- _].
Qed.

Lemma on_chunk_page c s s' :
  page_side s = page_side s' -> page_side (on_chunk add_bytes c s) = page_side (on_chunk add_bytes c s').
Proof.
  unfold page_side. intros [= Hu Hs Hp]. unfold on_chunk. rewrite Hu.
  destruct (upload s') as [u|] eqn:Hu'; cbv zeta; [|by rewrite Hu, Hu', Hs, Hp].
  case_match; simpl; by rewrite ?Hs, ?Hp.
Qed.

(** The ferry's effect on the page's side is its chunks', in order. *)
Lemma ferry_page turns s s' :
  ferry turns s = Done (s', None) -> forallb (fun t => negb (announces t)) turns = true ->
  page_side s' = page_side (foldl (fun s c => on_chunk add_bytes c s) s (omap chunk_of turns)).
Proof.
  revert s. induction turns as [|t turns IH]; intros s; cbn [PingDemo.ferry forallb]; [by intros [= <-]|].
  destruct (session_turn t s) as [[s1 [e|]]| |] eqn:E; cbn [run_bind]; [done| |done..].
  intros Hf Hq. apply andb_true_iff in Hq as [Ha Hq]. apply negb_true_iff in Ha.
  rewrite (IH _ Hf Hq). pose proof (turn_page _ _ _ _ E Ha) as Ht.
  assert (forall cs s s', page_side s = page_side s' ->
    page_side (foldl (fun s c => on_chunk add_bytes c s) s cs) =
    page_side (foldl (fun s c => on_chunk add_bytes c s) s' cs)) as Hcong.
  { intros cs. induction cs as [|c cs IHc]; intros s2 s3 Hs; [done|]. simpl. by apply IHc, on_chunk_page. }
  cbn [omap list_omap]. destruct (chunk_of t); cbn [foldl]; by apply Hcong.
Qed.

(** Chunks short of the announced size are kept. *)
Lemma chunks_kept u cs s :
  upload s = Some u -> Z.of_nat (length (u_buf u ++ concat cs)) < u_size u ->
  foldl (fun s c => on_chunk add_bytes c s) s cs = s <| upload := Some (u <| u_buf ::= fun b => b ++ concat cs |>) |>.
Proof.
  revert u s. induction cs as [|c cs IH]; intros u s Hu Hlt; cbn [foldl concat] in *.
  - destruct s, u. simpl in *. subst. unfold field_upd. by rewrite app_nil_r.
  - rewrite app_assoc in Hlt.
    assert (on_chunk add_bytes c s = s <| upload := Some (u <| u_buf ::= fun b => b ++ c |>) |>) as ->.
    { unfold on_chunk. rewrite Hu. cbn.
      destruct (Z.leb_spec (u_size u) (Z.of_nat (length (u_buf u ++ c)))) as [Hle|_]; [|done].
      rewrite length_app in Hlt. lia. }
    rewrite (IH (u <| u_buf ::= fun b => b ++ c |>)) by done. unfold field_upd. cbn.
    by rewrite app_assoc.
Qed.

(** An upload in chunks: once the file's bytes have come, in nonempty
    chunks and between whatever else the page sends, the store has been given
    exactly the file, once, and the page one event with the upload's id and the
    file's hash, or with the store's error; no upload is open. *)
Theorem upload_stored turns s s' u file :
  upload s = Some u -> u_buf u = [] -> u_size u = Z.of_nat (length file) -> file <> [] ->
  forallb (fun t => negb (announces t)) turns = true ->
  concat (omap chunk_of turns) = file -> Forall (fun c => c <> []) (omap chunk_of turns) ->
  ferry turns s = Done (s', None) ->
  upload s' = None /\ stored s' = stored s ++ [file] /\
  to_page s' = to_page s ++
    [match add_bytes file with
     | Ok hash => event "added" [number_field "id" (u_id u); text_field "hash" hash;
                                 number_field "size" (Z.of_nat (length file))]
     | Err err => event "file-error" [text_field "msg" ("add: " +:+ err)]
     end].
Proof.
  intros Hu Hb Hs Hne Hq Hc Hall Hf. pose proof (ferry_page _ _ _ Hf Hq) as Hp. revert Hp Hc Hall.
  generalize (omap chunk_of turns). intros cs. destruct cs as [|last cs _] using rev_ind; [by intros _ <-|].
  rewrite foldl_app, concat_app, Forall_app. cbn [foldl concat]. rewrite app_nil_r. intros Hp Hc [_ Hl].
  rewrite Forall_singleton in Hl. rewrite (chunks_kept u) in Hp; [|done|].
  2: { rewrite Hs, <- Hc, Hb, !length_app. destruct last; [done|]. simpl. lia. }
  revert Hp. unfold on_chunk, finish_upload, page_side. cbn. rewrite Hb. cbn. rewrite Hc, Hs.
  destruct (Z.leb_spec (Z.of_nat (length file)) (Z.of_nat (length file))); [|lia]. by intros [= -> -> ->].
Qed.
End FerryTheory.

(** ** Accepting *)

Section HubTheory.
Context (blobs_alpn : bytes).
#[local] Abbreviation hub_step := (hub_step blobs_alpn).

(** The session connections taken in, in the order of their arrival. *)
Definition admitted (h : Hub) : list Z :=
  omap (fun x => if decide (x.2 = ToSession) then Some x.1 else None) (verdicts h).

Definition waiting (h : Hub) : list Z := option_list (queue h) ++ option_list (blocked h).
#[local] Arguments admitted : simpl never.

Record hub_inv (h : Hub) : Prop := {
  hub_busy : busy h = true <-> is_Some (active h);
  hub_order : admitted h = served h ++ option_list (active h) ++ waiting h;
  hub_room : is_Some (queue h) -> is_Some (blocked h) -> active h = None;
  hub_joiner : is_host h = false -> admitted h = [];
}.

Lemma admitted_snoc x h l :
  verdicts h = l ++ [x] ->
  admitted h = omap (fun x => if decide (x.2 = ToSession) then Some x.1 else None) l
               ++ (if decide (x.2 = ToSession) then [x.1] else []).
Proof. intros Hv. unfold admitted. rewrite Hv, omap_app. f_equal. simpl. by case_decide. Qed.

Lemma hub_inv_new host : hub_inv (hub_new host).
Proof. split; try done. split; [done|by intros []]. Qed.

Lemma hub_inv_accept conn alpn h :
  hub_inv h -> blocked h = None -> hub_inv (accept_conn blobs_alpn conn alpn h).
Proof.
  intros [Hb Ho Hr Hj] Hbl. unfold accept_conn.
  assert (forall v h', verdicts h' = verdicts h ++ [(conn, v)] ->
    admitted h' = admitted h ++ (if decide (v = ToSession) then [conn] else [])) as Had.
  { intros v h' Hv. by rewrite (admitted_snoc _ _ _ Hv). }
  destruct (verdict blobs_alpn alpn h) eqn:Hv.
  1, 2: by split; cbn; [exact Hb|erewrite Had by done; by rewrite app_nil_r
    |exact Hr|intros Hh; erewrite Had by done; rewrite app_nil_r; auto].
  assert (is_host h = true /\ busy h = false) as [Hh Hbusy].
  { unfold verdict in Hv. case_decide; [done|]. by destruct (is_host h), (busy h). }
  assert (active h = None) as Ha.
  { destruct (active h) eqn:E; [|done]. rewrite (proj2 Hb) in Hbusy by eauto. done. }
  unfold waiting in *. rewrite Ha, Hbl in *. cbn in *. destruct (queue h) as [q|] eqn:Hq.
  all: split; unfold waiting; cbn; rewrite ?Ha, ?Hbl, ?Hq; try done; try (by intros; congruence).
  all: erewrite Had by done; rewrite Ho; cbn; by rewrite <- ?app_assoc, ?app_nil_r.
Qed.

Lemma hub_step_inv h h' : hub_inv h -> hub_step h h' -> hub_inv h'.
Proof.
  intros Hi Hs. destruct Hs as [conn alpn h Hbl|conn h Hbl Hq|conn h Hh Ha Hq|conn h Ha].
  - by apply hub_inv_accept.
  - destruct Hi as [Hb Ho Hr Hj]. split; cbn.
    + exact Hb.
    + change (admitted (send_resumes conn h)) with (admitted h). by rewrite Ho; unfold waiting; rewrite Hq, Hbl.
    + by intros _ [].
    + exact Hj.
  - destruct Hi as [Hb Ho Hr Hj]. split; cbn.
    + split; [eauto|done].
    + change (admitted (session_begins conn h)) with (admitted h). by rewrite Ho; unfold waiting; rewrite Ha, Hq.
    + by intros [].
    + congruence.
  - destruct Hi as [Hb Ho Hr Hj]. split; cbn.
    + by split; [|intros []].
    + change (admitted (session_ends conn h)) with (admitted h). rewrite Ho, Ha. cbn. by rewrite <- app_assoc.
    + done.
    + exact Hj.
Qed.

(** C28. The host's sessions, however the acceptor and the session loop
    interleave: the busy flag is up exactly while a session runs; the
    connections admitted are served in the order of their arrival, none lost or
    served twice, with at most two waiting; a waiting one's turn can come as
    soon as no session runs, and during a session the acceptor is not held up.
    The joiner admits none. *)
Theorem one_session host h :
  rtc hub_step (hub_new host) h ->
  (busy h = true <-> is_Some (active h)) /\
  admitted h = served h ++ option_list (active h) ++ waiting h /\ (length (waiting h) <= 2)%nat /\
  (waiting h <> [] -> active h = None ->
     exists c, (exists q, queue h = Some q /\ c = session_begins q h \/ blocked h = Some q /\ c = send_resumes q h) /\
       hub_step h c) /\
  (is_Some (active h) -> is_Some (blocked h) -> exists c, blocked h = Some c /\ hub_step h (send_resumes c h)) /\
  (is_host h = false -> admitted h = []).
Proof.
  intros Hr. assert (hub_inv h) as [Hb Ho Hroom Hj].
  { revert Hr. apply (rtc_ind_r (fun h => hub_inv h)); [apply hub_inv_new|]. intros. by eapply hub_step_inv. }
  split_and!; [done|done| | | |done].
  - unfold waiting. destruct (queue h), (blocked h); simpl; lia.
  - intros Hw Ha. destruct (queue h) as [q|] eqn:Hq.
    + assert (is_host h = true) as Hh.
      { destruct (is_host h) eqn:E; [done|]. rewrite (Hj eq_refl), Ha in Ho. symmetry in Ho.
        apply app_nil in Ho as [_ Ho]. simpl in Ho. contradiction. }
      exists (session_begins q h). split; [by exists q; left|]. by constructor.
    + unfold waiting in Hw. rewrite Hq in Hw. destruct (blocked h) as [q|] eqn:Hbl; [|done].
      exists (send_resumes q h). split; [by exists q; right|]. by constructor.
  - intros Ha [c Hc]. exists c. split; [done|]. constructor; [done|].
    destruct (queue h) eqn:Hq; [|done]. rewrite (Hroom ltac:(eauto) ltac:(eauto)) in Ha. by destruct Ha.
Qed.

(** A participant that arrives before the session loop has taken up the first is
    admitted, and waits out the session instead of being refused. *)
Lemma extra_participant_held alpn :
  alpn <> blobs_alpn ->
  exists h, rtc hub_step (hub_new true) h /\ active h = Some 1 /\ queue h = Some 2 /\
    verdicts h = [(1, ToSession); (2, ToSession)].
Proof.
  intros Ha. set (h2 := accept_conn blobs_alpn 2 alpn (accept_conn blobs_alpn 1 alpn (hub_new true))).
  assert (h2 = MkHub true false None (Some 1) (Some 2) [] [(1, ToSession); (2, ToSession)]) as E.
  { unfold h2, accept_conn, verdict. cbn. by rewrite !decide_False. }
  exists (send_resumes 2 (session_begins 1 h2)). split; [|by rewrite E].
  eapply rtc_l; [by apply (hub_accept _ 1 alpn)|]. eapply rtc_l; [apply (hub_accept _ 2 alpn)|].
  { unfold accept_conn, verdict. cbn. by rewrite decide_False. }
  fold h2. eapply rtc_l; [apply (hub_begin _ 1); by rewrite E|].
  eapply rtc_l; [apply (hub_resume _ 2); by rewrite E|]. done.
Qed.
End HubTheory.

(** ** Downloads *)

Lemma page_chunks_spec fuel n l :
  (0 < n)%nat -> (length l <= fuel)%nat ->
  concat (chunks_fuel fuel n l) = l /\
  Forall (fun c => c <> [] /\ (length c <= n)%nat) (chunks_fuel fuel n l).
Proof.
  intros Hn. revert l. induction fuel as [|fuel IH]; intros [|b l] Hf; try done; [simpl in Hf; lia|].
  cbn [chunks_fuel concat]. destruct (IH (drop n (b :: l))) as [Hc Hall].
  { rewrite length_drop. simpl in *. lia. }
  split; [by rewrite Hc, take_drop|]. constructor; [|done]. split; [|rewrite length_take; lia].
  destruct n; [lia|done].
Qed.

(** The events of a transfer's progress. *)
Definition progress_event (hash : string) (size got : Z) : Output :=
  ToPage (event "progress" [text_field "hash" hash; number_field "done" got; number_field "total" size]).

Lemma follow_progress hash size last items :
  Forall (fun o => exists got, o = progress_event hash size got) (follow hash size last items).1.
Proof.
  revert last. induction items as [|i items IH]; intros last; [constructor|]. cbn [follow].
  destruct (item i) as [got| |err]; [|constructor..]. case_match; [|apply IH].
  specialize (IH (reset_at i)). destruct (follow hash size (reset_at i) items) as [out r]. constructor; eauto.
Qed.

(** The progress stream reaches its end, before an error. *)
Fixpoint completed (items : list ProgressItem) : bool :=
  match items with
  | [] => false
  | i :: items => match item i with GpProgress _ => completed items | GpDone => true | GpError _ => false end
  end.

Lemma follow_completed hash size last items :
  (follow hash size last items).2 = None <-> completed items = true.
Proof.
  revert last. induction items as [|i items IH]; intros last; [done|]. cbn [follow completed].
  destruct (item i) as [got| |err]; [|done..]. case_match; [|apply IH].
  specialize (IH (reset_at i)). by destruct (follow hash size (reset_at i) items).
Qed.

(** A download: after its progress events it announces the file's size,
    hands over its bytes in tagged datagrams that each fit the page's buffer and
    together are the file, and reports the end, the connection closed, exactly
    when the hash is one, the connection is made, the transfer completes and the
    store has the file; otherwise it reports one failure. Nothing follows the
    failure or the end. *)
Theorem fetch_delivers parse_hash hash_hex size connected started items read :
  let failed msg := ToPage (event "file-error" [text_field "msg" msg]) in
  exists progress rest,
    fetch_and_deliver parse_hash hash_hex size connected started items read = progress ++ rest /\
    Forall (fun o => exists hash got, o = progress_event hash size got) progress /\
    match parse_hash hash_hex, connected, completed items with
    | Some hash, Ok _, true =>
        match read hash with
        | Ok content => exists cs, concat cs = content /\
            Forall (fun c => c <> [] /\ (length (down_frame c) <= MAX_FRAME)%nat) cs /\
            rest = [CloseConn 0 (str_bytes "done");
                    ToPage (event "file-start"
                      [text_field "hash" hash; number_field "size" (Z.of_nat (length content))])]
                   ++ (ToPage ∘ down_frame <$> cs) ++ [ToPage (event "file-done" [text_field "hash" hash])]
        | Err err => rest = [CloseConn 0 (str_bytes "done"); failed ("read: " +:+ err)]
        end
    | _, _, _ => exists msg, rest = [failed msg]
    end.
Proof.
  cbv zeta. unfold fetch_and_deliver, fail.
  destruct (parse_hash hash_hex) as [hash|];
    [|exists [], (fail "bad hash"); split_and!; [done|constructor|by eexists]].
  destruct connected as [[]|err]; [|exists [], (fail ("connect: " +:+ err)); split_and!; [done|constructor|by eexists]].
  pose proof (follow_progress hash size started items) as Hp.
  pose proof (follow_completed hash size started items) as Hc.
  destruct (follow hash size started items) as [out r]; cbn [fst snd] in Hp, Hc.
  exists out; eexists; split; [reflexivity|].
  split; [eapply Forall_impl; [exact Hp|]; intros o [got ->]; by exists hash, got|].
  destruct r as [msg|]; [destruct (completed items); [by destruct Hc as [_ Hc]; discriminate (Hc eq_refl)|by eexists]|].
  rewrite (proj1 Hc eq_refl). destruct (read hash) as [content|err]; [|done].
  destruct (page_chunks_spec (length content) DOWN_CHUNK content) as [Hcs Hall]; [apply down_chunk_pos|done|].
  exists (chunks DOWN_CHUNK content). split_and!; try done.
  eapply Forall_impl; [exact Hall|]. intros c [Hne Hlen]. split; [done|]. simpl.
  pose proof down_chunk_pos. pose proof down_chunk_max. lia.
Qed.

(** ** The path watcher *)

(** After each turn what was last reported is the selected path, with a round
    trip at most 500 microseconds off; nothing is sent for less. *)
Lemma watch_turn_fresh last paths :
  let '(last', e) := watch_turn last paths in
  last'.1 = (selected_path paths).1 /\ Z.abs ((selected_path paths).2 - last'.2) <= 500 /\
  (e = None <-> last.1 = (selected_path paths).1 /\ Z.abs ((selected_path paths).2 - last.2) <= 500) /\
  (e = None -> last' = last).
Proof.
  unfold watch_turn. destruct (selected_path paths) as [path rtt]. destruct last as [lp lr]. cbn [fst snd].
  destruct (String.eqb_spec path lp) as [->|Hne]; cbn [negb orb].
  - destruct (Z.ltb_spec 500 (Z.abs (rtt - lr))); cbn [fst snd]; split_and!; try done; try lia.
    split; [done|]. intros []. lia.
  - cbn [fst snd]. split_and!; try done; [lia|]. split; [done|]. intros [-> _]. contradiction.
Qed.

(** ** The overlay *)

(** The bridge's assignment is read back, whatever precedes it. *)
Definition assign_frame (ip : list Z) (port : Z) : bytes :=
  z2b TAG_ASSIGNED :: (z2b <$> ip) ++ be16 port.

Lemma assigned_frame a b c d port :
  addr_ok (V4 [a; b; c; d] port) = true -> assigned (assign_frame [a; b; c; d] port) = Some (V4 [a; b; c; d] port).
Proof.
  unfold addr_ok, in_width. cbn [forallb]. rewrite !andb_true_iff, !Z.leb_le, !Z.ltb_lt. intros H.
  unfold assigned, assign_frame, received_in. cbn [fmap list_fmap app be16 take]. rewrite b2z_z2b.
  change (be_value [z2b (port / 256); z2b port]) with (be_value (be16 port)).
  change (TAG_ASSIGNED mod 256 =? TAG_ASSIGNED) with true. cbv iota.
  rewrite be_value_be16, !b2z_z2b, !Z.mod_small by lia. done.
Qed.

Lemma register_assigned id sockets noise ip port inbound :
  is_Some (ipv4_port sockets) -> Forall (fun d => assigned d = None) noise ->
  assigned (assign_frame ip port) = Some (V4 ip port) ->
  exists sent, register id sockets (noise ++ assign_frame ip port :: inbound)
    = Done (sent, Some (MkOverlay (V4 ip port), inbound)).
Proof.
  intros [p Hp] Hn Ha. unfold register. rewrite Hp. eexists. f_equal. f_equal.
  induction Hn as [|d noise Hd _ IH]; cbn [app await_assigned]; [by rewrite Ha|]. by rewrite Hd.
Qed.

(** ** The secret *)

Definition hex_digit (z : Z) : byte := z2b (if z <? 10 then z + 48 else z + 87).
Definition hex_byte (b : byte) : bytes := [hex_digit (b2z b / 16); hex_digit (b2z b mod 16)].
Definition hex_encode (key : bytes) : string := bytes_str (concat (hex_byte <$> key)).

Lemma hex_byte_parses b : from_str_radix 16 u8_max (bytes_str (hex_byte b)) = Some (b2z b).
Proof. by destruct b. Qed.

(** Digits are ASCII, no continuation bytes and no white space. *)
Definition plain (c : byte) : bool := (33 <=? b2z c) && (b2z c <? 128).

Lemma hex_byte_plain b : forallb plain (hex_byte b) = true.
Proof. by destruct b. Qed.

Lemma white_not_plain w : w ∈ white_space -> exists c rest, w = c :: rest /\ plain c = false.
Proof.
  assert (Forall (fun w => match w with c :: _ => plain c = false | [] => False end) white_space) as Hall.
  { repeat constructor. }
  intros Hw. eapply Forall_forall in Hall; [|exact Hw]. destruct w; [done|eauto].
Qed.

Lemma white_end_not_plain w :
  w ∈ (reverse <$> white_space) -> exists c rest, w = c :: rest /\ plain c = false.
Proof.
  assert (Forall (fun w => match w with c :: _ => plain c = false | [] => False end) (reverse <$> white_space)) as Hall.
  { repeat constructor. }
  intros Hw. eapply Forall_forall in Hall; [|exact Hw]. destruct w; [done|eauto].
Qed.

(** Nothing is trimmed off a text that starts with a plain byte. *)
Lemma trim_start_plain spaces l :
  (forall w, w ∈ spaces -> exists c rest, w = c :: rest /\ plain c = false) ->
  forallb plain l = true -> trim_start spaces l = l.
Proof.
  intros Hs Hl. unfold trim_start. destruct l as [|b l]; [done|]. cbn [length trim_start_fuel].
  apply andb_true_iff in Hl as [Hb _].
  destruct (find (fun w => starts_with w (b :: l)) spaces) as [w|] eqn:E; [|done].
  apply find_some in E as [Hin Hw]. apply list_elem_of_In in Hin.
  destruct (Hs _ Hin) as (c & rest & -> & Hc). unfold starts_with in Hw.
  apply bool_decide_eq_true in Hw. cbn in Hw. injection Hw as ->. congruence.
Qed.

Lemma forallb_plain_reverse l : forallb plain l = true -> forallb plain (reverse l) = true.
Proof.
  rewrite !forallb_forall. intros Hl b Hb. apply Hl. apply list_elem_of_In. apply list_elem_of_In in Hb.
  by rewrite elem_of_reverse in Hb.
Qed.

Lemma trim_plain l : forallb plain l = true -> trim (bytes_str l) = bytes_str l.
Proof.
  intros Hl. unfold trim.
  rewrite bytes_str_inv, (trim_start_plain white_space) by (done || apply white_not_plain).
  rewrite trim_start_plain by (apply white_end_not_plain || by apply forallb_plain_reverse).
  by rewrite reverse_involutive.
Qed.

Lemma plain_boundary l i : forallb plain l = true -> (i <= length l)%nat -> char_boundary i l = true.
Proof.
  intros Hl Hi. unfold char_boundary. destruct (decide (i = length l)) as [->|Hne].
  { by rewrite (Nat.eqb_refl (length l)), orb_true_r. }
  destruct (lookup_lt_is_Some_2 l i ltac:(lia)) as [b Hb]. rewrite Hb.
  assert (plain b = true) as Hp.
  { rewrite forallb_forall in Hl. apply Hl, list_elem_of_In. by eapply list_elem_of_lookup_2. }
  unfold plain in Hp. unfold is_cont, in_range.
  replace (negb _) with true; [by rewrite !orb_true_r|]. symmetry. apply negb_true_iff, andb_false_iff. left. lia.
Qed.

Lemma hex_plain key : forallb plain (concat (hex_byte <$> key)) = true.
Proof.
  induction key as [|b key IH]; [done|]. cbn [fmap list_fmap concat]. by rewrite forallb_app, hex_byte_plain, IH.
Qed.

Lemma hex_length key : length (concat (hex_byte <$> key)) = (2 * length key)%nat.
Proof. induction key as [|b key IH]; [done|]. cbn [fmap list_fmap concat]. rewrite length_app, IH. simpl. lia. Qed.

Lemma secret_bytes_hex pre key :
  secret_bytes (length key) (length pre) (hex_encode (pre ++ key)) = Done (Some key).
Proof.
  revert pre. induction key as [|b key IH]; intros pre; [done|]. cbn [length secret_bytes].
  assert (str_slice (2 * length pre) (2 * length pre + 2) (hex_encode (pre ++ b :: key)) =
          Done (bytes_str (hex_byte b))) as ->.
  { unfold str_slice, hex_encode. rewrite bytes_str_inv. pose proof (hex_plain (pre ++ b :: key)) as Hp.
    assert (2 * length pre + 2 <= length (concat (hex_byte <$> pre ++ b :: key)))%nat as Hlen.
    { rewrite hex_length, length_app. simpl. lia. }
    rewrite !plain_boundary by (done || lia). destruct (Nat.leb_spec (2 * length pre) (2 * length pre + 2)); [|lia].
    apply Nat.leb_le in Hlen as ->. cbn [andb]. do 2 f_equal. rewrite fmap_app, concat_app.
    rewrite <- (hex_length pre), drop_app_length.
    replace (_ + 2 - _)%nat with 2%nat by lia. done. }
  cbn [run_bind]. rewrite hex_byte_parses. cbn [run_bind].
  replace (S (length pre)) with (length (pre ++ [b])) by (rewrite length_app; simpl; lia).
  replace (pre ++ b :: key) with ((pre ++ [b]) ++ key) by (by rewrite <- app_assoc). rewrite IH.
  cbn. by rewrite z2b_b2z.
Qed.

(** A key the page has stored in hex is the key parsed at the next start. *)
Theorem parse_secret_hex key : length key = 32%nat -> parse_secret (hex_encode key) = Done (Some key).
Proof.
  intros Hk. unfold parse_secret.
  assert (trim (hex_encode key) = hex_encode key) as -> by apply trim_plain, hex_plain.
  unfold hex_encode at 1. rewrite bytes_str_inv, hex_length, Hk. change (2 * 32 =? 64)%nat with true. cbv iota.
  rewrite <- Hk. exact (secret_bytes_hex [] key).
Qed.

(** A text of 64 bytes that is no hex text need not be refused: a character of
    two bytes across a pair panics, and signs pass for digits. *)
Example parse_secret_panics :
  parse_secret (bytes_str (Byte.x61 :: Byte.xc3 :: Byte.xa9 :: replicate 61 Byte.x61)) = Panic.
Proof. vm_compute. reflexivity. Qed.
Example parse_secret_signs :
  parse_secret (bytes_str (concat (replicate 32 [Byte.x2b; Byte.x66]))) = Done (Some (replicate 32 Byte.x0f)).
Proof. vm_compute. reflexivity. Qed.

(** An error text is pasted into the event as it is: one with a quote in it
    leaves the event with an odd number of quotes and no escape, so no JSON. *)
Example error_text_unescaped :
  length (filter (fun b => b = Byte.x22) (event "file-error" [text_field "msg" (bytes_str [Byte.x22])])) = 9%nat
  /\ (Byte.x5c ∈ event "file-error" [text_field "msg" (bytes_str [Byte.x22])] -> False).
Proof. split; [vm_compute; reflexivity|]. apply (bool_decide_unpack (¬ _)). vm_compute. done. Qed.
