(* ===== verification/ExecModel.v ===== *)
(** The execution-model probes: the guest
    ([experiments/exec-model/guest/src/lib.rs]) and its driver
    ([host-wasmtime/src/bin/exec-model.rs]): results parked in statics by
    detached tasks, streams in both directions, a consumer that walks away. The
    runtime's streams are arguments. *)
From stdpp Require Import pretty.
From S2P Require Import Prelude RelayFrames Types.

(** ** Parked results *)

Abbreviation Outcome := (Result string string).

Record Statics := MkStatics {
  pump_result : option Outcome;
  stream_outcome : option Outcome;
}.
#[export] Instance Statics_eta : Eta Statics := fun s => MkStatics (pump_result s) (stream_outcome s).

(** What the bridge made of the generated key: its public half, or the error. *)
Definition sync_webcrypto_probe (dbg : forall A : Type, A -> string) {E : Type} (hex_encode : bytes -> string)
    (generated : Result unit E) (exported : Result bytes E) : Run Outcome :=
  match generated with
  | Err e => Done (Err ("x25519 generate: " +:+ dbg E e))
  | Ok _ =>
      match exported with
      | Err e => Done (Err ("x25519 export: " +:+ dbg E e))
      | Ok raw =>
          let! four := slice_to 4 raw in Done (Ok ("x25519 ok, pub[0..4]=" +:+ hex_encode four))
      end
  end.

Definition result_map_ok (f : string -> string) (r : Outcome) : Outcome :=
  match r with Ok a => Ok (f a) | Err e => Err e end.

(** [rx.await]: [None] when the task dropped its sender. *)
Definition blockon_in_spawn (sent : option Outcome) : Outcome :=
  match sent with
  | None => Err "spawned task dropped its sender"
  | Some r => result_map_ok (fun detail => "block_on inside spawn (export live): " +:+ detail) r
  end.

Definition start_pump (s : Statics) : Statics := s <| pump_result := None |>.
(** The detached pump's report. *)
Definition pump_reports (probed : Outcome) (s : Statics) : Statics :=
  s <| pump_result := Some (result_map_ok
         (fun detail => "block_on in detached pump (no export live): " +:+ detail) probed) |>.
(** One turn of the polling loops: the result is taken. *)
Definition poll_pump (s : Statics) : option Outcome * Statics := (pump_result s, s <| pump_result := None |>).
Definition poll_stream_outcome (s : Statics) : option Outcome * Statics :=
  (stream_outcome s, s <| stream_outcome := None |>).

(** ** The guest's streams *)

Section Writer.
(** The reader's side of the stream: [write_all] leaves what was not taken. *)
Context {R : Type} (write_all : R -> bytes -> bytes * R).

Fixpoint fill (fuel : nat) (total chunk sent : Z) (r : R) : Run (Outcome * R) :=
  match fuel with
  | O => OutOfFuel
  | S fuel =>
      if total <=? sent then Done (Ok ("wrote all " +:+ pretty total +:+ " bytes"), r)
      else
        let n := Z.to_nat (Z.min chunk (total - sent)) in
        let '(remaining, r) := write_all r (replicate n Byte.x42) in
        match remaining with
        | [] => fill fuel total chunk (sent + Z.of_nat n) r
        | _ :: _ =>
            Done (Ok ("reader stopped after " +:+ pretty (sent + Z.of_nat (n - length remaining))
                      +:+ " bytes (" +:+ pretty (Z.of_nat (length remaining)) +:+ " unwritten)"), r)
        end
  end.

Definition open_stream (fuel : nat) (total chunk : Z) (r : R) (s : Statics) : Run (Statics * R) :=
  let s := s <| stream_outcome := None |> in
  let! (outcome, r) := fill fuel total chunk 0 r in
  Done (s <| stream_outcome := Some outcome |>, r).
End Writer.

(** The reads of a stream, each with whether the stream goes on; [None] while it
    has not ended. *)
Fixpoint sink (count : Z) (reads : list (bytes * bool)) : option Z :=
  match reads with
  | [] => None
  | (buf, complete) :: reads =>
      let count := wrap32 (count + Z.of_nat (length buf)) in
      if complete then sink count reads else Some count
  end.
Definition sink_stream (reads : list (bytes * bool)) : option (Result Z string) := Ok <$> sink 0 reads.

(** ** The driver's consumer *)

(** [reported] is what went down the channel, once its sender has been taken. *)
Record CountThenDrop := MkCountThenDrop {
  count : Z;
  limit : Z;
  reported : option Z;
}.
#[export] Instance CountThenDrop_eta : Eta CountThenDrop := fun c =>
  MkCountThenDrop (count c) (limit c) (reported c).

Inductive StreamResult := Completed | Dropped | Cancelled.

Definition consumer_new (limit : Z) : CountThenDrop := MkCountThenDrop 0 limit None.
Definition finish (c : CountThenDrop) : CountThenDrop :=
  match reported c with
  | None => c <| reported := Some (count c) |>
  | Some _ => c
  end.

(** [available] is what the source holds; [None] is [Poll::Pending]. *)
Definition poll_consume (available : bytes) (finishing : bool) (c : CountThenDrop)
    : option StreamResult * CountThenDrop :=
  match available with
  | _ :: _ =>
      let c := c <| count ::= fun n => wrap64 (n + Z.of_nat (length available)) |> in
      if limit c <=? count c then (Some Dropped, finish c) else (Some Completed, c)
  | [] => if finishing then (Some Cancelled, finish c) else (None, c)
  end.

Definition consumer_drop (c : CountThenDrop) : CountThenDrop := finish c.

Definition print_probe (name : string) (r : Outcome) : string :=
  match r with
  | Ok detail => "PROBE " +:+ name +:+ ": ok: " +:+ detail
  | Err err => "PROBE " +:+ name +:+ ": FAILED: " +:+ err
  end.

(** ** What the stream probe's outcome says *)

Section WriterTheory.
Context {R : Type} (write_all : R -> bytes -> bytes * R).
(** A reader takes a prefix of what it is offered, and counts it. *)
Context (taken : R -> Z).
Context (write_all_taken : forall r b rest r',
  write_all r b = (rest, r') ->
  rest `suffix_of` b /\ taken r' = taken r + (Z.of_nat (length b) - Z.of_nat (length rest))).

(** With a chunk to write each turn the task ends, after at most a turn per
    chunk and one more, and its outcome is true: either it wrote everything and
    the reader has all of it, or it names the bytes the reader had taken when it
    stopped and those it left of the last write. *)
Theorem fill_outcome total chunk r fuel :
  0 < chunk -> 0 <= total -> (total + chunk - 1) / chunk + 1 <= Z.of_nat fuel ->
  exists r', taken r <= taken r' <= taken r + total /\
    (fill write_all fuel total chunk 0 r = Done (Ok ("wrote all " +:+ pretty total +:+ " bytes"), r') /\
       taken r' = taken r + total \/
     exists left, 0 < left <= chunk /\ taken r' < taken r + total /\
       fill write_all fuel total chunk 0 r =
         Done (Ok ("reader stopped after " +:+ pretty (taken r' - taken r) +:+ " bytes ("
                   +:+ pretty left +:+ " unwritten)"), r')).
Proof.
  intros Hc Ht Hf. assert (forall fuel sent r0, 0 <= sent <= total -> taken r0 = taken r + sent ->
    (total - sent + chunk - 1) / chunk + 1 <= Z.of_nat fuel ->
    exists r', taken r <= taken r' <= taken r + total /\
      (fill write_all fuel total chunk sent r0 = Done (Ok ("wrote all " +:+ pretty total +:+ " bytes"), r') /\
         taken r' = taken r + total \/
       exists left, 0 < left <= chunk /\ taken r' < taken r + total /\
         fill write_all fuel total chunk sent r0 =
           Done (Ok ("reader stopped after " +:+ pretty (taken r' - taken r) +:+ " bytes ("
                     +:+ pretty left +:+ " unwritten)"), r'))) as Hgo.
  2: { apply (Hgo fuel 0 r); lia || (rewrite Z.sub_0_r; lia). }
  clear fuel Hf. intros fuel. induction fuel as [|fuel IH]; intros sent r0 Hs Hr Hf.
  { pose proof (Z.div_pos (total - sent + chunk - 1) chunk). lia. }
  cbn [fill]. destruct (Z.leb_spec total sent).
  { exists r0. split; [lia|]. left. split; [done|lia]. }
  destruct (write_all r0 _) as [rest r1] eqn:E. destruct (write_all_taken _ _ _ _ E) as [Hsuf Htk].
  rewrite length_replicate in Htk. rewrite Z2Nat.id in * by lia.
  apply suffix_length in Hsuf. rewrite length_replicate in Hsuf.
  destruct rest as [|b rest].
  - cbn [length] in Htk. destruct (IH (sent + Z.min chunk (total - sent)) r1) as (r' & Hr' & Hcase); [lia|lia| |].
    { destruct (Z.min_spec chunk (total - sent)) as [[Hm ->]|[Hm ->]].
      - replace (total - (sent + chunk) + chunk - 1) with ((total - sent + chunk - 1) + (-1) * chunk) by lia.
        rewrite Z.div_add by lia. lia.
      - replace (total - (sent + (total - sent)) + chunk - 1) with (chunk - 1) by lia.
        rewrite (Z.div_small (chunk - 1)) by lia.
        pose proof (Z.div_le_mono chunk (total - sent + chunk - 1) chunk Hc ltac:(lia)) as Hd.
        rewrite Z.div_same in Hd by lia. lia. }
    exists r'. split; [lia|]. exact Hcase.
  - exists r1. cbn [length] in *. split; [lia|]. right. exists (Z.of_nat (S (length rest))).
    split; [lia|]. split; [lia|]. do 4 f_equal. f_equal. f_equal. f_equal. lia.
Qed.

(** A chunk of zero bytes never fills the stream, however long it runs. *)
Lemma fill_zero_chunk total fuel :
  0 < total -> forall r, fill write_all fuel total 0 0 r = OutOfFuel.
Proof.
  intros Ht. induction fuel as [|fuel IH]; intros r; [done|]. cbn [fill].
  destruct (Z.leb_spec total 0); [lia|]. rewrite Z.min_l by lia. change (replicate (Z.to_nat 0) Byte.x42) with (@nil byte).
  destruct (write_all r []) as [rest r1] eqn:E. destruct (write_all_taken _ _ _ _ E) as [Hs _].
  apply suffix_nil_inv in Hs as ->. apply IH.
Qed.
End WriterTheory.

(** The bytes of the reads a consumer has made. *)
Definition consumed (chunks : list bytes) : Z := Z.of_nat (length (concat chunks)).

(** The consumer over a stream's chunks, until it drops the stream. *)
Fixpoint consume (chunks : list bytes) (c : CountThenDrop) : option StreamResult * CountThenDrop :=
  match chunks with
  | [] => (None, c)
  | chunk :: chunks =>
      match poll_consume chunk false c with
      | (Some Dropped, c) => (Some Dropped, c)
      | (_, c) => consume chunks c
      end
  end.

Definition counted (n : Z) (c : CountThenDrop) : CountThenDrop := c <| count ::= fun k => k + n |>.

Lemma counted_0 c : counted 0 c = c.
Proof. destruct c. unfold counted, field_upd. cbn. by rewrite Z.add_0_r. Qed.

(** Below its limit the consumer counts what it reads and goes on. *)
Lemma poll_below b c :
  0 <= count c -> count c + Z.of_nat (length b) < 2 ^ 64 -> count c + Z.of_nat (length b) < limit c ->
  exists r, r <> Some Dropped /\ poll_consume b false c = (r, counted (Z.of_nat (length b)) c).
Proof.
  intros H0 Hw Hl. destruct b as [|x b]; [exists None; by rewrite counted_0|]. exists (Some Completed).
  split; [done|]. unfold poll_consume. revert Hw Hl. generalize (Z.of_nat (length (x :: b))) (Nat2Z.is_nonneg (length (x :: b))).
  intros n Hn Hw Hl. destruct c as [k l r]. unfold counted, field_upd in *. cbn in *.
  rewrite wrap64_small by lia. by destruct (Z.leb_spec l (k + n)); [lia|].
Qed.

Lemma consume_below chunks more c :
  0 <= count c -> count c + consumed chunks < 2 ^ 64 -> count c + consumed chunks < limit c ->
  consume (chunks ++ more) c = consume more (counted (consumed chunks) c).
Proof.
  revert c. induction chunks as [|b chunks IH]; intros c H0 Hw Hl; cbn [consume app]; [by rewrite counted_0|].
  unfold consumed in *. cbn [concat] in *. rewrite length_app, Nat2Z.inj_add in *.
  destruct (poll_below b c) as (r & Hr & ->); [lia..|].
  rewrite IH by (simpl; lia). unfold counted, field_upd. cbn. destruct r as [[]|]; try done.
  all: by rewrite <- Z.add_assoc.
Qed.

(** The consumer's count: of a stream shorter than the limit it reports every
    byte, when it is dropped at the stream's end; a stream that reaches the limit
    it drops at the chunk that reaches it, having reported the bytes up to and
    with that chunk; either way it reports once. *)
Theorem consumer_counts chunks last limit0 :
  let c := consumer_new limit0 in
  let total := consumed chunks + Z.of_nat (length last) in
  total < 2 ^ 64 -> consumed chunks < limit0 ->
  (limit0 <= total ->
     exists c', consume (chunks ++ [last]) c = (Some Dropped, c') /\
       reported c' = Some total /\ consumer_drop c' = c') /\
  (total < limit0 ->
     exists c', consume (chunks ++ [last]) c = (None, c') /\ reported c' = None /\
       reported (consumer_drop c') = Some total).
Proof.
  intros c total Hw Hl. assert (0 <= consumed chunks) as H0 by (unfold consumed; lia).
  rewrite (consume_below chunks [last] c) by (simpl; lia). unfold counted, field_upd. cbn [consume count].
  split; intros Ht.
  - destruct last as [|x last]; [simpl in *; lia|]. unfold poll_consume, finish. revert Hw Ht.
    subst total. generalize (Z.of_nat (length (x :: last))) (Nat2Z.is_nonneg (length (x :: last))).
    intros n Hn Hw Ht. unfold field_upd. cbn. rewrite wrap64_small, Z.add_0_l by lia.
    destruct (Z.leb_spec limit0 (consumed chunks + n)); [|lia]. by eexists.
  - destruct (poll_below last (counted (consumed chunks) c)) as (r & Hr & Hp); [simpl; lia..|].
    change (MkCountThenDrop _ _ _) with (counted (consumed chunks) c). rewrite Hp.
    exists (counted total c). split; [|done].
    assert (counted (Z.of_nat (length last)) (counted (consumed chunks) c) = counted total c) as -> by done.
    by destruct r as [[]|].
Qed.

(** ** The driver's stream probe: writer and consumer together *)

(** A runtime that hands each write to the consumer at once, until the consumer
    has dropped the stream. *)
Definition pipe (c : CountThenDrop) (written : bytes) : bytes * CountThenDrop :=
  match reported c with
  | Some _ => (written, c)
  | None => ([], (poll_consume written false c).2)
  end.

Lemma pipe_open n k limit0 :
  (0 < n)%nat -> 0 <= k -> k + Z.of_nat n < 2 ^ 64 ->
  pipe (MkCountThenDrop k limit0 None) (replicate n Byte.x42) =
    ([], MkCountThenDrop (k + Z.of_nat n) limit0
           (if limit0 <=? k + Z.of_nat n then Some (k + Z.of_nat n) else None)).
Proof.
  intros Hn Hk Hw. unfold pipe, poll_consume. cbn [reported]. destruct n as [|n]; [lia|].
  cbn [replicate]. unfold finish, field_upd. cbn [length count limit reported].
  rewrite length_replicate, wrap64_small by lia. by destruct (limit0 <=? k + Z.of_nat (S n)).
Qed.

