(* ===== verification/Spikes.v ===== *)
(** The relay and blob spikes ([experiments/iroh-relay-ws/guest/src/main.rs],
    [experiments/iroh-blobs/guest/src/main.rs]): the name of the selected path,
    the wait for the migration, the blobs' contents. Their runs are I/O around
    iroh and iroh-blobs; their overlay client is the ping demo's. *)
From S2P Require Import Prelude RelayFrames Types PingDemo.

(** ** The relay spike *)

Definition ECHOES : Z := 50.
Definition PAYLOAD : nat := 512.
Definition MIGRATE_TIMEOUT : Duration := from_secs 15.

Definition path_label (paths : list PathInfo) : string :=
  match find is_selected paths with
  | None => "none"
  | Some p => match remote_addr p with RaRelay => "relay" | RaIp => "ip" | RaOther => "other" end
  end.

Inductive Migration := Migrated (after_ms : Z) | NotWithin.

(** A turn's path, with the time since the addresses were added at its check and
    at its report. *)
Record MigrationPoll := MkMigrationPoll { on : string; waited : Duration; told : Duration }.

(** The turns of the wait, 50 ms apart, until it breaks; [direct] is the name of
    the migrated path. *)
Fixpoint await_migration (direct : string) (polls : list MigrationPoll) : option Migration :=
  match polls with
  | [] => None
  | p :: polls =>
      if (on p =? direct)%string then Some (Migrated (told p / 1000000))
      else if MIGRATE_TIMEOUT <? waited p then Some NotWithin
      else await_migration direct polls
  end.

(** Turns at least 50 ms after the turn before. *)
Fixpoint paced (since : Duration) (polls : list MigrationPoll) : Prop :=
  match polls with
  | [] => True
  | p :: polls => since <= waited p /\ paced (waited p + from_millis 50) polls
  end.

(** The wait ends: 302 turns are enough, whatever the paths. *)
Lemma await_migration_ends direct polls :
  paced 0 polls -> (302 <= length polls)%nat -> is_Some (await_migration direct polls).
Proof.
  intros Hp Hl. assert (forall polls k, paced (k * from_millis 50) polls ->
    301 < k + Z.of_nat (length polls) -> 0 <= k <= 301 -> is_Some (await_migration direct polls)) as Hgo.
  2: { apply (Hgo polls 0); [done|lia|lia]. }
  clear. intros polls. induction polls as [|p polls IH]; intros k Hp Hl Hk; [simpl in Hl; lia|].
  cbn [await_migration paced length] in *. destruct Hp as [Hs Hp]. case_match; [eauto|].
  destruct (Z.ltb_spec MIGRATE_TIMEOUT (waited p)) as [|Hw]; [eauto|].
  unfold MIGRATE_TIMEOUT, from_secs, from_millis in *. apply (IH (k + 1)); [|lia|lia].
  revert Hp. assert ((k + 1) * (50 * 1000000) <= waited p + 50 * 1000000) as Hle by lia.
  revert Hle. generalize ((k + 1) * (50 * 1000000)) (waited p + 50 * 1000000). clear.
  intros a b Hab. destruct polls; [done|]. cbn. intros []. split; [lia|done].
Qed.

(** ** The blob spike *)

(** One step of the xorshift64* generator, and its output. *)
Definition xorshift (s : Z) : Z :=
  let s := Z.lxor s (Z.shiftr s 12) in
  let s := Z.lxor s (wrap64 (Z.shiftl s 25)) in
  Z.lxor s (Z.shiftr s 27).
Definition star (s : Z) : Z := wrap64 (s * 0x2545f4914f6cdd1d).

(** [out.chunks_mut(8)], with the generator's state: the bytes of each chunk, a
    shorter last one included. *)
Fixpoint fill_chunks (fuel : nat) (left : nat) (s : Z) : bytes :=
  match fuel, left with
  | S fuel, S _ =>
      let s := xorshift s in
      take left (le_bytes 8 (star s)) ++ fill_chunks fuel (left - 8) s
  | _, _ => []
  end.
Definition fill_blob (size : nat) (seed : Z) : bytes := fill_chunks size size (Z.lor seed 1).

(** The size is the target's 32-bit [usize]. *)
Definition make_blob (mb : Z) (seed : Z) : bytes := fill_blob (Z.to_nat (wrap32 (mb * 1024 * 1024))) seed.

Lemma fill_chunks_length fuel left s : (left <= fuel)%nat -> length (fill_chunks fuel left s) = left.
Proof.
  revert left s. induction fuel as [|fuel IH]; intros [|left] s Hf; try done; [lia|]. cbn [fill_chunks].
  rewrite length_app, length_take, length_le_bytes, IH by lia. lia.
Qed.

(** A blob has the size asked for. *)
Lemma make_blob_length mb seed : 0 <= mb < 4096 -> Z.of_nat (length (make_blob mb seed)) = mb * 1024 * 1024.
Proof.
  intros Hm. unfold make_blob, fill_blob. rewrite fill_chunks_length, wrap32_small by (lia || done).
  by rewrite Z2Nat.id by lia.
Qed.

Lemma lxor_shiftr_0 s k : 0 <= s -> 0 < k -> Z.lxor s (Z.shiftr s k) = 0 -> s = 0.
Proof.
  intros Hs Hk Hx. apply Z.lxor_eq in Hx. rewrite Z.shiftr_div_pow2 in Hx by lia.
  destruct (decide (s = 0)); [done|]. exfalso.
  assert (s / 2 ^ k < s); [|lia]. apply Z.div_lt; [lia|]. apply Z.pow_gt_1; lia.
Qed.

Lemma lxor_shiftl_0 s : 0 <= s < 2 ^ 64 -> Z.lxor s (wrap64 (Z.shiftl s 25)) = 0 -> s = 0.
Proof.
  intros Hs Hx. apply Z.lxor_eq in Hx. apply Z.bits_inj'. intros n Hn. rewrite Z.bits_0.
  revert n Hn. apply (Z_lt_induction (fun n => Z.testbit s n = false)). intros n IH.
  rewrite Hx. unfold wrap64. destruct (Z.le_gt_cases 64 n).
  { by rewrite Z.mod_pow2_bits_high by lia. }
  destruct (Z.le_gt_cases 0 n); [|by apply Z.testbit_neg_r].
  rewrite Z.mod_pow2_bits_low, Z.shiftl_spec by lia.
  destruct (Z.le_gt_cases 25 n); [|by apply Z.testbit_neg_r; lia].
  apply IH. lia.
Qed.

(** The generator never reaches the state it could not leave: from a seed, which
    is made odd, every state is a nonzero 64-bit integer. *)
Lemma xorshift_nonzero s : 0 < s < 2 ^ 64 -> 0 < xorshift s < 2 ^ 64.
Proof.
  assert (forall a b, 0 <= a < 2 ^ 64 -> 0 <= b < 2 ^ 64 -> 0 <= Z.lxor a b < 2 ^ 64) as Hr.
  { intros a b Ha Hb. split; [apply Z.lxor_nonneg; lia|].
    destruct (decide (Z.lxor a b = 0)) as [->|Hz]; [done|].
    apply Z.log2_lt_pow2; [pose proof (Z.lxor_nonneg a b); lia|].
    pose proof (Z.log2_lxor a b ltac:(lia) ltac:(lia)).
    assert (forall x, 0 <= x < 2 ^ 64 -> Z.log2 x < 64) as Hlog.
    { intros x Hx. destruct (decide (x = 0)) as [->|]; [done|]. apply Z.log2_lt_pow2; lia. }
    pose proof (Hlog a Ha). pose proof (Hlog b Hb). lia. }
  assert (forall x k, 0 <= x < 2 ^ 64 -> 0 <= k -> 0 <= Z.shiftr x k < 2 ^ 64) as Hs.
  { intros x k Hx Hk. rewrite Z.shiftr_div_pow2 by done. pose proof (Z.pow_pos_nonneg 2 k).
    split; [apply Z.div_pos; lia|]. apply Z.le_lt_trans with x; [|lia]. apply Z.div_le_upper_bound; nia. }
  intros Hb. unfold xorshift. set (a := Z.lxor s (Z.shiftr s 12)).
  assert (0 <= a < 2 ^ 64) as Ha by (apply Hr; [lia|apply Hs; lia]).
  assert (a <> 0) as Ha0 by (intros E; apply lxor_shiftr_0 in E; lia).
  set (b := Z.lxor a (wrap64 (Z.shiftl a 25))).
  assert (0 <= b < 2 ^ 64) as Hbr by (apply Hr; [lia|apply wrap64_range]).
  assert (b <> 0) as Hb0 by (intros E; apply lxor_shiftl_0 in E; lia).
  assert (Z.lxor b (Z.shiftr b 27) <> 0) as Hc by (intros E; apply lxor_shiftr_0 in E; lia).
  pose proof (Hr b (Z.shiftr b 27) ltac:(lia) (Hs b 27 ltac:(lia) ltac:(lia))). lia.
Qed.
