(* ===== verification/Prog.v ===== *)
(** Programs over an interface. A program of the repository's drivers makes
    calls ([Iface]) that a [Host] answers; a run records its calls with their
    answers, so what is proved of a program holds of every behaviour of what it
    drives. [ensures] and [ensures_ok] say what a result tells of the calls made,
    [always] adds that the program returns, and [halts] that it returns with
    enough fuel. *)
From S2P Require Import Prelude.

(** An interface: its calls, and what each returns. *)
Structure Iface := MkIface {
  icall :> Type;
  answer : icall -> Type;
}.

Class Host (I : Iface) := {
  World : Type;
  respond : forall c : I, World -> answer I c * World;
}.

(** An observed call. *)
Definition Obs (I : Iface) : Type := {c : I & answer I c}.
Definition obs {I : Iface} (c : I) (r : answer I c) : Obs I := existT c r.

(** ** Programs

    A program runs against the host's world and the calls so far. *)
Section Programs.
Context {I : Iface} {H : Host I}.

Definition Prog (A : Type) : Type := World * list (Obs I) -> Run (A * (World * list (Obs I))).

Definition ret {A} (a : A) : Prog A := fun w => Done (a, w).
Definition bind {A B} (m : Prog A) (k : A -> Prog B) : Prog B :=
  fun w => let! (a, w) := m w in k a w.
Definition call (c : I) : Prog (answer I c) :=
  fun w => let '(r, w') := respond c w.1 in Done (r, (w', w.2 ++ [obs c r])).
Definition spin {A} : Prog A := fun _ => OutOfFuel.

(** A program that may fail with a message: the [?] operator. *)
Definition bind_ok {A B} (m : Prog (Result A string)) (k : A -> Prog (Result B string))
    : Prog (Result B string) :=
  bind m (fun r => match r with Ok a => k a | Err e => ret (Err e) end).
Definition fail_with {A} (msg : string) : Prog (Result A string) := ret (Err msg).

(** [loop]: the body goes on with [inl] or breaks with [inr]. *)
Fixpoint loop {S A} (fuel : nat) (body : S -> Prog (S + A)) (s : S) : Prog A :=
  match fuel with
  | O => spin
  | Datatypes.S fuel =>
      bind (body s) (fun r => match r with inl s => loop fuel body s | inr a => ret a end)
  end.

(** [for _ in 0..n]. *)
Fixpoint repeat_ok (n : nat) (m : Prog (Result unit string)) : Prog (Result unit string) :=
  match n with
  | O => ret (Ok tt)
  | S n => bind_ok m (fun _ => repeat_ok n m)
  end.
End Programs.

Notation "'let*' x ':=' m 'in' k" := (bind m (fun x => k))
  (at level 10, x pattern, k at level 200) : iroh_scope.
Notation "'try*' x ':=' m 'in' k" := (bind_ok m (fun x => k))
  (at level 10, x pattern, k at level 200) : iroh_scope.

(** ** Partial correctness

    [ensures m Q]: every run of [m] that returns [a] has made calls [t] with
    [Q a t]. *)
Section Logic.
Context {I : Iface} {H : Host I}.

Definition ensures {A} (m : Prog A) (Q : A -> list (Obs I) -> Prop) : Prop :=
  forall w a w', m w = Done (a, w') -> exists t, w'.2 = w.2 ++ t /\ Q a t.

(** The successful runs only. *)
Definition ensures_ok {A} (m : Prog (Result A string)) (Q : A -> list (Obs I) -> Prop) : Prop :=
  ensures m (fun r t => match r with Ok a => Q a t | Err _ => True end).

Lemma ensures_mono {A} (m : Prog A) (Q Q' : A -> list (Obs I) -> Prop) :
  ensures m Q -> (forall a t, Q a t -> Q' a t) -> ensures m Q'.
Proof. intros Hm HQ w a w' Hr. destruct (Hm w a w' Hr) as (t & Ht & Hq). eauto. Qed.

Lemma ensures_ok_mono {A} (m : Prog (Result A string)) (Q Q' : A -> list (Obs I) -> Prop) :
  ensures_ok m Q -> (forall a t, Q a t -> Q' a t) -> ensures_ok m Q'.
Proof. intros Hm HQ. eapply ensures_mono; [exact Hm|]. intros [a|e] t; [apply HQ|done]. Qed.

Lemma ensures_ret {A} (a : A) (Q : A -> list (Obs I) -> Prop) : Q a [] -> ensures (ret a) Q.
Proof. intros HQ w b w' [= <- <-]. exists []. by rewrite app_nil_r. Qed.

Lemma ensures_spin {A} (Q : A -> list (Obs I) -> Prop) : ensures spin Q.
Proof. done. Qed.

Lemma ensures_call c (Q : answer I c -> list (Obs I) -> Prop) :
  (forall r, Q r [obs c r]) -> ensures (call c) Q.
Proof.
  intros HQ w r w'. unfold call. destruct (respond c w.1) as [r' w1]. intros [= <- <-]. simpl. eauto.
Qed.

Lemma ensures_bind {A B} (m : Prog A) (k : A -> Prog B) (Q : B -> list (Obs I) -> Prop) :
  ensures m (fun a t => ensures (k a) (fun b t' => Q b (t ++ t'))) -> ensures (bind m k) Q.
Proof.
  intros Hm w b w2. unfold bind. destruct (m w) as [[a w1]| |] eqn:E; simpl; [|done..].
  intros Hk. destruct (Hm _ _ _ E) as (t1 & H1 & Ht). destruct (Ht _ _ _ Hk) as (t2 & H2 & HQ).
  exists (t1 ++ t2). by rewrite H2, H1, app_assoc.
Qed.

Lemma ok_ret {A} (a : A) (Q : A -> list (Obs I) -> Prop) : Q a [] -> ensures_ok (ret (Ok a)) Q.
Proof. intros HQ. by apply ensures_ret. Qed.

Lemma ok_fail {A} msg (Q : A -> list (Obs I) -> Prop) : ensures_ok (fail_with msg) Q.
Proof. by apply ensures_ret. Qed.

Lemma ok_result {A} (r : Result A string) (Q : A -> list (Obs I) -> Prop) :
  (forall a, r = Ok a -> Q a []) -> ensures_ok (ret r) Q.
Proof. intros HQ. apply ensures_ret. destruct r; [by apply HQ|done]. Qed.

Lemma ok_spin {A} (Q : A -> list (Obs I) -> Prop) : ensures_ok spin Q.
Proof. done. Qed.

Lemma ok_bind {A B} (m : Prog A) (k : A -> Prog (Result B string)) (Q : B -> list (Obs I) -> Prop) :
  ensures m (fun a t => ensures_ok (k a) (fun b t' => Q b (t ++ t'))) -> ensures_ok (bind m k) Q.
Proof. intros Hm. apply ensures_bind. exact Hm. Qed.

Lemma ok_bind_ok {A B} (m : Prog (Result A string)) (k : A -> Prog (Result B string))
    (Q : B -> list (Obs I) -> Prop) :
  ensures_ok m (fun a t => ensures_ok (k a) (fun b t' => Q b (t ++ t'))) -> ensures_ok (bind_ok m k) Q.
Proof.
  intros Hm. apply ensures_bind. eapply ensures_mono; [exact Hm|]. intros [a|e] t; [done|].
  intros _. by apply ensures_ret.
Qed.

Lemma ok_call_bind {B} c (k : answer I c -> Prog (Result B string)) (Q : B -> list (Obs I) -> Prop) :
  (forall r, ensures_ok (k r) (fun b t => Q b (obs c r :: t))) -> ensures_ok (bind (call c) k) Q.
Proof. intros Hk. apply ok_bind, ensures_call. exact Hk. Qed.

(** *** Total correctness

    [always m Q]: from every world [m] returns, having made calls [t] with
    [Q a t]. *)
Definition always {A} (m : Prog A) (Q : A -> list (Obs I) -> Prop) : Prop :=
  forall w, exists a w' t, m w = Done (a, w') /\ w'.2 = w.2 ++ t /\ Q a t.

Lemma always_ret {A} (a : A) (Q : A -> list (Obs I) -> Prop) : Q a [] -> always (ret a) Q.
Proof. intros HQ w. exists a, w, []. by rewrite app_nil_r. Qed.

Lemma always_call_bind {B} c (k : answer I c -> Prog B) (Q : B -> list (Obs I) -> Prop) :
  (forall r, always (k r) (fun b t => Q b (obs c r :: t))) -> always (bind (call c) k) Q.
Proof.
  intros Hk [w l]. unfold bind, call. simpl. destruct (respond c w) as [r w1]. simpl.
  destruct (Hk r (w1, l ++ [obs c r])) as (b & w2 & t & Hrun & Ht & HQ).
  exists b, w2, (obs c r :: t). split_and!; [exact Hrun| |exact HQ]. rewrite Ht. simpl.
  by rewrite <- app_assoc.
Qed.

Lemma ok_repeat n (m : Prog (Result unit string)) t (Q : unit -> list (Obs I) -> Prop) :
  ensures_ok m (fun _ t' => t' = t) -> Q tt (concat (replicate n t)) -> ensures_ok (repeat_ok n m) Q.
Proof.
  intros Hm. revert Q. induction n as [|n IH]; intros Q HQ; cbn [repeat_ok]; [by apply ok_ret|].
  apply ok_bind_ok. eapply ensures_ok_mono; [exact Hm|]. intros _ ? ->. by apply IH.
Qed.

(** *** What a program leaves

    [leaves f m l]: in every run of [m] that returns, the observations [f] looks
    at are [l]. *)
Section Leaves.
Context {X : Type} (f : Obs I -> option X).

Definition leaves {A} (m : Prog A) (l : list X) : Prop := ensures m (fun _ t => omap f t = l).

Lemma leaves_ret {A} (a : A) : leaves (ret a) [].
Proof. by apply ensures_ret. Qed.

Lemma leaves_call c : (forall r, f (obs c r) = None) -> leaves (call c) [].
Proof. intros Hc. apply ensures_call. intros r. cbn. by rewrite Hc. Qed.

Lemma leaves_one c x : (forall r, f (obs c r) = Some x) -> leaves (call c) [x].
Proof. intros Hc. apply ensures_call. intros r. cbn. by rewrite Hc. Qed.

Lemma leaves_bind {A B} (m : Prog A) (k : A -> Prog B) l l' :
  leaves m l -> (forall a, leaves (k a) l') -> leaves (bind m k) (l ++ l').
Proof.
  intros Hm Hk. apply ensures_bind. eapply ensures_mono; [exact Hm|]. intros a t <-.
  eapply ensures_mono; [apply Hk|]. intros b t' <-. apply omap_app.
Qed.

Lemma leaves_bind_nil {A B} (m : Prog A) (k : A -> Prog B) l :
  leaves m [] -> (forall a, leaves (k a) l) -> leaves (bind m k) l.
Proof. apply leaves_bind. Qed.

Lemma leaves_bind_ok {A B} (m : Prog (Result A string)) (k : A -> Prog (Result B string)) :
  leaves m [] -> (forall a, leaves (k a) []) -> leaves (bind_ok m k) [].
Proof. intros Hm Hk. apply leaves_bind_nil; [done|]. intros [a|e]; [apply Hk|apply leaves_ret]. Qed.

Lemma leaves_loop {S A} fuel (body : S -> Prog (S + A)) s :
  (forall s, leaves (body s) []) -> leaves (loop fuel body s) [].
Proof.
  intros Hb. revert s. induction fuel as [|fuel IH]; intros s; [done|]. cbn [loop].
  apply leaves_bind_nil; [apply Hb|]. intros [s'|a]; [apply IH|apply leaves_ret].
Qed.

(** [seen l m Q]: with [l] seen before, what is seen by the end of [m] is [Q]. *)
Definition seen {A} (l : list X) (m : Prog A) (Q : list X -> Prop) : Prop :=
  ensures m (fun _ t => Q (l ++ omap f t)).

Lemma seen_bind {A B} l (m : Prog A) (k : A -> Prog B) Q :
  ensures m (fun a t => seen (l ++ omap f t) (k a) Q) -> seen l (bind m k) Q.
Proof.
  intros Hm. apply ensures_bind. eapply ensures_mono; [exact Hm|]. intros a t Hk.
  eapply ensures_mono; [exact Hk|]. intros b t'. cbv beta. by rewrite omap_app, app_assoc.
Qed.

Lemma seen_skip {A B} l (m : Prog A) (k : A -> Prog B) Q :
  leaves m [] -> (forall a, seen l (k a) Q) -> seen l (bind m k) Q.
Proof.
  intros Hm Hk. apply seen_bind. eapply ensures_mono; [exact Hm|]. intros a t ->. by rewrite app_nil_r.
Qed.

Lemma seen_end {A} l (m : Prog A) (Q : list X -> Prop) : leaves m [] -> Q l -> seen l m Q.
Proof. intros Hm HQ. eapply ensures_mono; [exact Hm|]. intros a t ->. by rewrite app_nil_r. Qed.

(** The same with the program's result. *)
Definition seen_as {A} (l : list X) (m : Prog A) (Q : A -> list X -> Prop) : Prop :=
  ensures m (fun a t => Q a (l ++ omap f t)).

Lemma seen_as_leaves {A B} l l' (m : Prog A) (k : A -> Prog B) Q :
  leaves m l' -> (forall a, seen_as (l ++ l') (k a) Q) -> seen_as l (bind m k) Q.
Proof.
  intros Hm Hk. apply ensures_bind. eapply ensures_mono; [exact Hm|]. intros a t <-.
  eapply ensures_mono; [apply Hk|]. intros b t'. cbv beta. by rewrite omap_app, app_assoc.
Qed.

Lemma seen_as_skip {A B} l (m : Prog A) (k : A -> Prog B) Q :
  leaves m [] -> (forall a, seen_as l (k a) Q) -> seen_as l (bind m k) Q.
Proof. intros Hm Hk. eapply seen_as_leaves; [exact Hm|]. intros a. by rewrite app_nil_r. Qed.

Lemma seen_as_ret {A} l (a : A) (Q : A -> list X -> Prop) : Q a l -> seen_as l (ret a) Q.
Proof. intros HQ. apply ensures_ret. by rewrite app_nil_r. Qed.
End Leaves.
End Logic.

(** The rule of a call, also where its answer's type has been computed. *)
Ltac call_step :=
  lazymatch goal with
  | |- ensures (call ?c) ?Q => refine (ensures_call c Q _)
  | |- ensures_ok (call ?c) ?Q => refine (ensures_call c _ _)
  | |- ensures_ok (bind (call ?c) ?k) ?Q => refine (ok_call_bind c k Q _)
  end.

(** A program made of calls that leave nothing. *)
Ltac leaves_nil :=
  repeat lazymatch goal with
  | |- leaves _ (ret _) _ => apply leaves_ret
  | |- leaves _ (bind_ok _ _) _ => apply leaves_bind_ok
  | |- leaves _ (bind _ _) _ => apply leaves_bind_nil
  | |- leaves _ (loop _ _ _) _ => apply leaves_loop
  | |- leaves ?f (call ?c) _ => refine (leaves_call f c _); intros ?; reflexivity
  | |- forall _, leaves _ _ _ => intros ?
  end.

(** ** Nothing but calls

    [replay w t w']: from [w] the host answers the calls of [t] as recorded, and
    ends in [w']. A [plain] program does nothing to the world but the calls it
    records. *)
Section Replay.
Context {I : Iface} {H : Host I}.

Fixpoint replay (w : World) (t : list (Obs I)) (w' : World) : Prop :=
  match t with
  | [] => w' = w
  | o :: t => exists w1, respond (projT1 o) w = (projT2 o, w1) /\ replay w1 t w'
  end.

Lemma replay_app w t1 t2 w' : replay w (t1 ++ t2) w' <-> exists w1, replay w t1 w1 /\ replay w1 t2 w'.
Proof.
  revert w. induction t1 as [|o t1 IH]; intros w; cbn [replay app].
  - split; [eauto|]. by intros (w1 & -> & H2).
  - setoid_rewrite IH. naive_solver.
Qed.

Lemma replay_keeps (P : World -> Prop) w t w' :
  (forall c w r w', respond c w = (r, w') -> P w -> P w') -> replay w t w' -> P w -> P w'.
Proof.
  intros Hc. revert w. induction t as [|o t IH]; intros w; cbn [replay]; [by intros ->|].
  intros (w1 & H1 & Hr) Hw. by eapply IH, Hc.
Qed.

(** The worlds around a call. *)
Lemma replay_at w t1 c r t2 w' :
  replay w (t1 ++ obs c r :: t2) w' ->
  exists w1 w2, replay w t1 w1 /\ respond c w1 = (r, w2) /\ replay w (t1 ++ [obs c r]) w2 /\ replay w2 t2 w'.
Proof.
  intros (w1 & H1 & w2 & Hc & H2)%replay_app. exists w1, w2. split_and!; try done.
  apply replay_app. exists w1. split; [done|]. by exists w2.
Qed.

Definition plain {A} (m : Prog A) : Prop :=
  forall w a w', m w = Done (a, w') -> exists t, w'.2 = w.2 ++ t /\ replay w.1 t w'.1.

Lemma plain_ret {A} (a : A) : plain (ret a).
Proof. intros w b w' [= <- <-]. exists []. by rewrite app_nil_r. Qed.

Lemma plain_spin {A} : plain (@spin I H A).
Proof. done. Qed.

Lemma plain_call c : plain (call c).
Proof.
  intros w r w'. unfold call. destruct (respond c w.1) as [r1 w1] eqn:E. intros [= <- <-].
  exists [obs c r1]. split; [done|]. by exists w1.
Qed.

Lemma plain_bind {A B} (m : Prog A) (k : A -> Prog B) : plain m -> (forall a, plain (k a)) -> plain (bind m k).
Proof.
  intros Hm Hk w b w2. unfold bind. destruct (m w) as [[a w1]| |] eqn:E; simpl; [|done..]. intros Hr.
  destruct (Hm _ _ _ E) as (t1 & H1 & R1). destruct (Hk _ _ _ _ Hr) as (t2 & H2 & R2).
  exists (t1 ++ t2). split; [by rewrite H2, H1, app_assoc|]. apply replay_app. eauto.
Qed.

Lemma plain_bind_ok {A B} (m : Prog (Result A string)) (k : A -> Prog (Result B string)) :
  plain m -> (forall a, plain (k a)) -> plain (bind_ok m k).
Proof. intros Hm Hk. apply plain_bind; [done|]. intros [a|e]; [apply Hk|apply plain_ret]. Qed.

Lemma plain_loop {S A} fuel (body : S -> Prog (S + A)) s : (forall s, plain (body s)) -> plain (loop fuel body s).
Proof.
  intros Hb. revert s. induction fuel as [|fuel IH]; intros s; [apply plain_spin|]. cbn [loop].
  apply plain_bind; [done|]. intros [s'|a]; [apply IH|apply plain_ret].
Qed.

Lemma plain_repeat n (m : Prog (Result unit string)) : plain m -> plain (repeat_ok n m).
Proof. intros Hm. induction n as [|n IH]; [apply plain_ret|]. by apply plain_bind_ok. Qed.
End Replay.

(** The rule for the program's head; conditionals and matches split. *)
Ltac plain_step :=
  cbv beta;
  lazymatch goal with
  | |- plain (bind_ok _ _) => apply plain_bind_ok
  | |- plain (bind _ _) => apply plain_bind
  | |- plain (call ?c) => refine (plain_call c)
  | |- plain (ret _) => apply plain_ret
  | |- plain (fail_with _) => apply plain_ret
  | |- plain spin => apply plain_spin
  | |- plain (loop _ _ _) => apply plain_loop
  | |- plain (repeat_ok _ _) => apply plain_repeat
  | |- plain (if ?b then _ else _) => destruct b
  | |- plain (match ?x with _ => _ end) => destruct x
  | |- forall _, plain _ => intros ?
  end.
Ltac plain_auto := repeat plain_step.

(** ** Termination *)

Section Halting.
Context {I : Iface} {H : Host I}.

(** With enough fuel the program returns, and more fuel changes nothing. *)
Definition halts {A} (m : nat -> Prog A) (w : World * list (Obs I)) : Prop :=
  exists fuel r, forall n, (fuel <= n)%nat -> m n w = Done r.

Lemma halts_ret {A} (a : A) w : halts (fun _ => ret a) w.
Proof. by exists 0%nat, (a, w). Qed.

Lemma halts_call c w : halts (fun _ => call c) w.
Proof.
  destruct (respond c w.1) as [r w'] eqn:E. exists 0%nat, (r, (w', w.2 ++ [obs c r])).
  intros n _. unfold call. by rewrite E.
Qed.

Lemma halts_bind {A B} (m : nat -> Prog A) (k : nat -> A -> Prog B) w :
  halts m w -> (forall a w1, halts (fun n => k n a) w1) -> halts (fun n => bind (m n) (k n)) w.
Proof.
  intros (f1 & [a w1] & Hm) Hk. destruct (Hk a w1) as (f2 & r & Hr). exists (Nat.max f1 f2), r.
  intros n Hn. unfold bind. rewrite Hm by lia. apply Hr. lia.
Qed.

Lemma halts_bind_ok {A B} (m : nat -> Prog (Result A string)) (k : nat -> A -> Prog (Result B string)) w :
  halts m w -> (forall a w1, halts (fun n => k n a) w1) -> halts (fun n => bind_ok (m n) (k n)) w.
Proof.
  intros Hm Hk. apply (halts_bind m (fun n r => match r with Ok a => k n a | Err e => ret (Err e) end) w Hm).
  intros [a|e] w1; [apply Hk|apply halts_ret].
Qed.

Lemma halts_repeat k (m : Prog (Result unit string)) w :
  (forall w, halts (fun _ => m) w) -> halts (fun _ => repeat_ok k m) w.
Proof.
  intros Hm. revert w. induction k as [|k IH]; intros w; cbn [repeat_ok]; [apply halts_ret|].
  by apply (halts_bind_ok (fun _ => m) (fun _ _ => repeat_ok k m)).
Qed.

Lemma halts_always {A} (m : Prog A) (Q : A -> list (Obs I) -> Prop) w : always m Q -> halts (fun _ => m) w.
Proof. intros Hm. destruct (Hm w) as (a & w' & _ & Hrun & _). by exists 0%nat, (a, w'). Qed.

(** A loop whose turns use something up. *)
Lemma loop_halts {S A} (body : S -> Prog (S + A)) (left : World -> nat) s w :
  (forall s w, exists r w', body s w = Done (r, w') /\
     forall s', r = inl s' -> (left w'.1 < left w.1)%nat) ->
  halts (fun n => loop n body s) w.
Proof.
  intros Hb. remember (left w.1) as k eqn:Hk. revert s w Hk.
  induction (lt_wf k) as [k _ IH]. intros s w ->. destruct (Hb s w) as ([s'|a] & w' & Hrun & Hl).
  - destruct (IH (left w'.1) (Hl s' eq_refl) s' w' eq_refl) as (fuel & r & Hr).
    exists (Datatypes.S fuel), r. intros [|n] Hn; [lia|]. cbn [loop]. unfold bind. rewrite Hrun. apply Hr. lia.
  - exists 1%nat, (a, w'). intros [|n] Hn; [lia|]. cbn [loop]. unfold bind. by rewrite Hrun.
Qed.

(** A turn made of one call. *)
Lemma turn_call {S A} c (k : answer I c -> S + A) (left : World -> nat) w :
  (forall r w', respond c w.1 = (r, w') -> forall s', k r = inl s' -> (left w' < left w.1)%nat) ->
  exists r w', bind (call c) (fun r => ret (k r)) w = Done (r, w') /\
    forall s', r = inl s' -> (left w'.1 < left w.1)%nat.
Proof.
  intros Hk. unfold bind, call, ret. destruct (respond c w.1) as [r w'] eqn:E. cbn [run_bind].
  exists (k r), (w', w.2 ++ [obs c r]). split; [done|]. simpl. eauto.
Qed.

End Halting.
