(* ===== verification/Demo.v ===== *)
(** The endpoint demo ([endpoint-demo/src/lib.rs]): a plain consumer of the
    endpoint's interface, and its probes of the interface's failure paths. The
    demo is a program over the calls of that interface ([Api.call]); how the
    calls are answered is the host's ([Host]), so what is proved of the program
    holds of every behaviour of the endpoint. A run records its calls with
    their answers. Resources are named by the host. Where the code races a
    future against a timer, the call's answer [None] means that the timer won;
    where it polls a future by hand, starting, polling and dropping it are
    calls. Drops at the end of a scope are calls only where the code relies on
    them. *)
From stdpp Require Import pretty.
From S2P Require Import Prelude RelayFrames Types Prog.

(** ** The interface *)

Module Api.
Inductive call :=
(** The clock, the output, the webcrypto key generators. *)
| Now
| WaitFor (ns : Z)
| Println (line : string)
| Flush
| GenerateEd25519
| GenerateEcdsaP256
| ExportKeyRaw (verifying : Z)
(** Identities and options. *)
| Generate
| FromKeys (signing verifying : Z)
| IdentityId (identity : Z)
| OptionsNew (identity : Z)
| AddAlpn (options : Z) (alpn : bytes)
| RelayUrl (options : Z) (url : string)
| UdpBindAddr (options : Z) (addr : string)
| EnableWebrtc (options : Z) (enabled : bool)
(** The endpoint. *)
| Bind (options : Z)
| Id (endpoint : Z)
| DirectAddr (endpoint : Z)
| Connect (endpoint : Z) (addr : EndpointAddr) (alpn : bytes)
| ConnectFor (ns : Z) (endpoint : Z) (addr : EndpointAddr) (alpn : bytes)
| Accept (endpoint : Z)
| CloseEndpoint (endpoint : Z)
(** The connection. *)
| Peer (conn : Z)
| Path (conn : Z)
| PathChanges (conn : Z)
| PathRead (deadline : Z) (changes : Z)
| OpenBi (conn : Z)
| OpenUni (conn : Z)
| AcceptBi (conn : Z)
| AcceptUni (conn : Z)
| MaxDatagramSize (conn : Z)
| SendDatagram (conn : Z) (payload : bytes)
| RecvDatagram (conn : Z)
| CloseConn (conn : Z) (code : Z) (reason : bytes)
| WaitClosed (conn : Z)
| DropConn (conn : Z)
(** The streams. *)
| Write (send : Z) (data : bytes)
| WriteStart (send : Z) (data : bytes)
| WritePoll (send : Z)
| WriteDrop (send : Z)
| WriteVia (send : Z) (payload : bytes)
| Finish (send : Z)
| Abandon (send : Z) (code : Z)
| DropSend (send : Z)
| Read (recv : Z) (max : Z)
| ReadStart (recv : Z) (max : Z)
| ReadDrop (recv : Z)
| ReadVia (recv : Z)
| DataRead (data : Z) (capacity : Z)
| DataDone (data : Z)
| DropRecv (recv : Z).

(** What each call returns. [WriteVia] is the feed's completion joined with the
    method's result; [DataRead] says whether the stream goes on. *)
Definition answer (c : call) : Type :=
  match c with
  | Now => Instant
  | WaitFor _ | Println _ | Flush | AddAlpn _ _ | RelayUrl _ _ | UdpBindAddr _ _ | EnableWebrtc _ _
  | CloseEndpoint _ | CloseConn _ _ _ | DropConn _ | WriteDrop _ | Abandon _ _ | DropSend _
  | ReadDrop _ | DropRecv _ => unit
  | GenerateEd25519 | GenerateEcdsaP256 => Result (Z * Z) string
  | ExportKeyRaw _ => Result bytes string
  | Generate | FromKeys _ _ | Bind _ | Connect _ _ _ | Accept _ | OpenUni _ | AcceptUni _
  | ReadVia _ => Result Z Error
  | IdentityId _ | Id _ | Peer _ => bytes
  | OptionsNew _ | PathChanges _ => Z
  | DirectAddr _ => option string
  | ConnectFor _ _ _ _ => option (Result Z Error)
  | Path _ => PathKind
  | PathRead _ _ => option (bool * list PathKind)
  | OpenBi _ | AcceptBi _ => Result (Z * Z) Error
  | MaxDatagramSize _ => option Z
  | SendDatagram _ _ | Write _ _ | Finish _ | DataDone _ => Result unit Error
  | RecvDatagram _ => Result bytes Error
  | WaitClosed _ => option CloseInfo
  | WriteStart _ _ | WritePoll _ | ReadStart _ _ => bool
  | WriteVia _ _ => bool * Result unit Error
  | Read _ _ => Result (option bytes) Error
  | DataRead _ _ => bool * bytes
  end.
End Api.

Canonical Structure api : Iface := {| icall := Api.call; answer := Api.answer |}.
Abbreviation Host := (Prog.Host api).
Abbreviation Obs := (Prog.Obs api).

(** ** Inputs and outcome *)

Inductive Role := Client | Server.

Record RunConfig := MkRunConfig {
  relay_url : string;
  role : Role;
  cfg_peer : option string;
  cfg_alpn : option string;
  udp_bind : option string;
  cfg_direct : option string;
  webrtc : bool;
  peer_relay : option string;
  payload_bytes : option Z;
  datagram : bool;
  datagram_ceiling : option Z;
  inject_identity : bool;
  identity_negative : bool;
  stream_negative : bool;
  backlog_negative : bool;
  message : string;
}.

Record RunReport := MkRunReport {
  rep_endpoint_id : string;
  rep_peer_id : string;
  rep_path : string;
  handshake_ms : Z;
  roundtrip_ms : Z;
  received : string;
  rep_datagram : option string;
}.
#[export] Instance RunReport_eta : Eta RunReport := fun r =>
  MkRunReport (rep_endpoint_id r) (rep_peer_id r) (rep_path r) (handshake_ms r) (roundtrip_ms r)
    (received r) (rep_datagram r).

(** ** Constants *)

Definition ALPN : bytes := str_bytes "iroh-demo/0".
Definition CLOSE_CODE : Z := 17.
Definition CLOSE_REASON : bytes := str_bytes "demo done".
Definition READ_MAX : Z := 16 * 1024.
Definition DATAGRAM_COPIES : nat := 3.
Definition POLL_NS : Z := 5000000.
Definition DEADLINE_POLLS : Z := 30000 / 5.
Definition SUMMARY_LIMIT : nat := 4096.
Definition STREAM_RESET_CODE : Z := Z.shiftl 1 40 + 77.
Definition STREAM_VIA_RESET_CODE : Z := Z.shiftl 1 41 + 78.
Definition STREAM_WRITE_CANCEL_CODE : Z := Z.shiftl 1 39 + 7.
Definition STREAM_CLOSE_CODE : Z := Z.shiftl 1 42 + 9.
Definition STREAM_CLOSE_REASON : bytes := str_bytes "cut".
Definition VIA_STREAM_BYTES : Z := 64 * 1024.
Definition PARKED_WRITE_BYTES : Z := 2 * 1024 * 1024.
Definition ACCEPT_BACKLOG : nat := 16.

Definition path_name (p : PathKind) : string :=
  match p with PkRelay => "relay" | PkIp => "ip" | PkWebrtc => "webrtc" end.

(** [usize] and [u32] lengths as decimal text. *)
Definition len (b : bytes) : Z := Z.of_nat (length b).

Definition datagram_summary (payload : bytes) : string :=
  if is_utf8 payload && (length payload <=? 256)%nat then bytes_str payload
  else pretty (len payload) +:+ " bytes".

(** [vec![0u8; n]]. *)
Definition zeros (n : Z) : bytes := replicate (Z.to_nat n) Byte.x00.

(** [(0..n).map(|i| (i % 251) as u8)]. *)
Definition patterned (n : Z) : bytes := (fun i => z2b (Z.of_nat i mod 251)) <$> seq 0 (Z.to_nat n).

Section Text.
(** [char::to_uppercase] above ASCII: Unicode's tables. *)
Context (upper_char : bytes -> bytes).

Definition ascii_upper (b : byte) : byte :=
  if (97 <=? b2z b) && (b2z b <=? 122) then z2b (b2z b - 32) else b.

(** [str::to_uppercase], by the text's UTF-8 characters. *)
Fixpoint upper_fuel (fuel : nat) (text : bytes) : bytes :=
  match fuel, text with
  | S fuel, _ :: _ =>
      let n := (utf8_chunk text).2 in
      match take n text with
      | [b] => [ascii_upper b]
      | c => upper_char c
      end ++ upper_fuel fuel (drop n text)
  | _, _ => []
  end.
Definition to_uppercase (text : bytes) : bytes := upper_fuel (length text) text.

(** The server's echo, and what it reports. *)
Definition server_echo (inbound : bytes) : bytes * string :=
  if (length inbound <=? SUMMARY_LIMIT)%nat then
    let text := from_utf8_lossy inbound in (to_uppercase text, bytes_str text)
  else (inbound, pretty (len inbound) +:+ " bytes").
End Text.

Section Demo.
Context {H : Host}.
(** Third parties and generated code: the derived [Debug] renderings, and hex. *)
Context (dbg : forall A : Type, A -> string).
Context (hex_encode : bytes -> string) (hex_decode : string -> Result bytes string).
Context (upper_char : bytes -> bytes).

Definition fail (what : string) (e : Error) : string := what +:+ ": " +:+ dbg Error e.

(** [call(..).await.map_err(fail(what))]. *)
Definition failing {A} (what : string) (m : Prog (Result A Error)) : Prog (Result A string) :=
  let* r := m in ret (map_err (fail what) r).

(** [while let Some(chunk) = recv.read(..) { all.extend_from_slice(&chunk) }]. *)
Definition read_all (fuel : nat) (what : string) (recv : Z) (all : bytes) : Prog (Result bytes string) :=
  loop fuel (fun all =>
    let* r := failing what (call (Api.Read recv READ_MAX)) in
    ret match r with
        | Ok (Some chunk) => inl (all ++ chunk)
        | Ok None => inr (Ok all)
        | Err e => inr (Err e)
        end) all.

Definition read_until_terminal (fuel : nat) (recv : Z) : Prog (Result unit Error) :=
  loop fuel (fun _ =>
    let* r := call (Api.Read recv READ_MAX) in
    ret match r with
        | Ok (Some _) => inl tt
        | Ok None => inr (Ok tt)
        | Err err => inr (Err err)
        end) tt.

Definition read_to_string (fuel : nat) (recv : Z) : Prog (Result string string) :=
  try* all := read_all fuel "read" recv [] in
  ret (Ok (bytes_str (from_utf8_lossy all))).

Definition drain (fuel : nat) (data : Z) (all : bytes) : Prog bytes :=
  loop fuel (fun all =>
    let* (complete, buf) := call (Api.DataRead data READ_MAX) in
    ret (if complete : bool then inl (all ++ buf) else inr (all ++ buf))) all.

(** ** The datagram legs *)

(** [while conn.max_datagram_size().unwrap_or(0) < bytes]: the fuel is the
    number of polls left before the loop gives up. *)
Fixpoint await_ceiling (polls : nat) (conn : Z) (size : Z) : Prog (Result unit string) :=
  let* max := call (Api.MaxDatagramSize conn) in
  if default 0 max <? size then
    match polls with
    | O =>
        let* max := call (Api.MaxDatagramSize conn) in
        fail_with ("max-datagram-size stalled at " +:+ dbg (option Z) max
                   +:+ ", needed " +:+ pretty size)
    | S polls =>
        let* _ := call (Api.WaitFor POLL_NS) in
        await_ceiling polls conn size
    end
  else ret (Ok tt).
Definition await_datagram_ceiling (conn : Z) (size : Z) : Prog (Result unit string) :=
  await_ceiling (Z.to_nat DEADLINE_POLLS) conn size.

Definition send_copies (conn : Z) (payload : bytes) : Prog (Result unit string) :=
  repeat_ok DATAGRAM_COPIES (failing "send-datagram" (call (Api.SendDatagram conn payload))).

Definition run_client_datagram (conn : Z) (config : RunConfig) : Prog (Result string string) :=
  try* payload :=
    match datagram_ceiling config with
    | Some size =>
        try* _ := await_datagram_ceiling conn size in
        ret (Ok (patterned size))
    | None => ret (Ok (str_bytes ("datagram " +:+ message config)))
    end in
  let* max := call (Api.MaxDatagramSize conn) in
  match max with
  | None => fail_with "peer does not accept datagrams"
  | Some max =>
      if max <? len payload then
        fail_with ("demo datagram (" +:+ pretty (len payload)
                   +:+ " bytes) exceeds max-datagram-size (" +:+ pretty max +:+ ")")
      else
        try* _ := send_copies conn payload in
        try* echoed := failing "recv-datagram" (call (Api.RecvDatagram conn)) in
        if decide (echoed = payload) then ret (Ok (datagram_summary echoed))
        else fail_with ("datagram echo mismatch: sent " +:+ pretty (len payload)
                        +:+ " bytes, got " +:+ pretty (len echoed) +:+ " bytes")
  end.

Definition run_server_datagram (conn : Z) : Prog (Result string string) :=
  try* payload := failing "recv-datagram" (call (Api.RecvDatagram conn)) in
  try* _ := await_datagram_ceiling conn (wrap32 (len payload)) in
  try* _ := send_copies conn payload in
  ret (Ok (datagram_summary payload)).

(** [if config.datagram { Some(leg?) } else { None }]. *)
Definition datagram_leg (config : RunConfig) (leg : Prog (Result string string))
    : Prog (Result (option string) string) :=
  if datagram config then try* d := leg in ret (Ok (Some d)) else ret (Ok None).

(** ** The client *)

(** Milliseconds since [started], as [u64]. *)
Definition elapsed_ms (started : Instant) : Prog Z :=
  let* now := call Api.Now in ret (wrap64 (duration_since now started / 1000000)).

Definition peer_id (config : RunConfig) : Result bytes string :=
  match cfg_peer config with
  | None => Err "the client role requires the server's endpoint id (peer)"%string
  | Some hex => map_err (fun e => "bad endpoint id: " +:+ e) (hex_decode hex)
  end.

(** The peer's address: direct first, then WebRTC, then the relay. *)
Definition peer_addrs (config : RunConfig) : list TransportAddr :=
  let relay := default (relay_url config) (peer_relay config) in
  option_list (Ip <$> cfg_direct config) ++ (if webrtc config then [Webrtc relay] else []) ++ [Relay relay].

(** The path watch, raced against 30 seconds. *)
Definition await_webrtc (fuel : nat) (changes : Z) : Prog (Result unit string) :=
  loop fuel (fun _ =>
    let* r := call (Api.PathRead 30000000000 changes) in
    ret match r with
        | None => inr (Err "webrtc upgrade did not complete"%string)
        | Some (complete, kinds) =>
            if decide (PkWebrtc ∈ kinds) then inr (Ok tt)
            else if complete then inl tt
            else inr (Err "the path watch ended before the upgrade"%string)
        end) tt.

Definition run_client (fuel : nat) (endpoint : Z) (config : RunConfig) : Prog (Result RunReport string) :=
  try* peer := ret (peer_id config) in
  let alpn := default ALPN (str_bytes <$> cfg_alpn config) in
  let* started := call Api.Now in
  try* conn := failing "connect"
    (call (Api.Connect endpoint (MkEndpointAddr peer (peer_addrs config)) alpn)) in
  let* handshake_ms := elapsed_ms started in
  try* _ :=
    if webrtc config then
      let* changes := call (Api.PathChanges conn) in await_webrtc fuel changes
    else ret (Ok tt) in
  try* (send, recv) := failing "open-bi" (call (Api.OpenBi conn)) in
  let payload := match payload_bytes config with
                 | Some n => zeros (wrap32 n)
                 | None => str_bytes (message config)
                 end in
  let* sent_at := call Api.Now in
  try* _ := failing "write" (call (Api.Write send payload)) in
  try* _ := failing "finish" (call (Api.Finish send)) in
  try* echoed := read_all fuel "read" recv [] in
  let* roundtrip_ms := elapsed_ms sent_at in
  if negb (length echoed =? length payload)%nat then
    fail_with ("echo length mismatch: sent " +:+ pretty (len payload) +:+ ", got " +:+ pretty (len echoed))
  else
    try* d := datagram_leg config (run_client_datagram conn config) in
    let* path := call (Api.Path conn) in
    let* _ := call (Api.CloseConn conn CLOSE_CODE CLOSE_REASON) in
    let* closed := call (Api.WaitClosed conn) in
    match closed with
    | Some info => fail_with ("locally closed connection reported a peer close: " +:+ dbg CloseInfo info)
    | None =>
        let text := match payload_bytes config with
                    | Some _ => pretty (len echoed) +:+ " bytes"
                    | None => bytes_str (from_utf8_lossy echoed)
                    end in
        let* peer := call (Api.Peer conn) in
        ret (Ok (MkRunReport "" (hex_encode peer) (path_name path) handshake_ms roundtrip_ms text d))
    end.

(** ** The server *)

Definition run_server (fuel : nat) (endpoint : Z) (config : RunConfig) : Prog (Result RunReport string) :=
  try* conn := failing "accept" (call (Api.Accept endpoint)) in
  try* (send, recv) := failing "accept-bi" (call (Api.AcceptBi conn)) in
  try* inbound := read_all fuel "read" recv [] in
  let '(echo, text) := server_echo upper_char inbound in
  try* _ := failing "write" (call (Api.Write send echo)) in
  try* _ := failing "finish" (call (Api.Finish send)) in
  try* d := datagram_leg config (run_server_datagram conn) in
  let* path := call (Api.Path conn) in
  let* closed := call (Api.WaitClosed conn) in
  if decide (closed = Some (MkCloseInfo CLOSE_CODE CLOSE_REASON)) then
    let* peer := call (Api.Peer conn) in
    ret (Ok (MkRunReport "" (hex_encode peer) (path_name path) 0 0 text d))
  else
    fail_with ("expected the client's close (" +:+ pretty CLOSE_CODE +:+ ", " +:+ dbg bytes CLOSE_REASON
               +:+ "), got: " +:+ dbg (option CloseInfo) closed).

End Demo.
