(* ===== verification/Cli.v ===== *)
(** The command lines of the native drivers: the demo's host
    ([host-wasmtime/src/bin/endpoint-demo.rs]) and the upstream peer
    ([tools/iroh-peer/src/main.rs]). Both walk the arguments once; a flag is a
    switch or takes the next argument as its value. *)
From stdpp Require Import pretty.
From S2P Require Import Prelude RelayFrames Types Text Prog Demo.

(** The one error of a command line: the usage text. *)
Inductive Usage := usage.

(** ** The walk

    [switch] and [valued] are the arms of the [match] on the flag: what a switch
    does, and what a flag does with its value, or that it refuses it. *)
Section Flags.
Context {V : Type}.
Context (switch : string -> option (V -> V)).
Context (valued : string -> option (string -> V -> option V)).

Fixpoint parse_flags (args : list string) (v : V) : Result V Usage :=
  match args with
  | [] => Ok v
  | flag :: args =>
      match switch flag, valued flag, args with
      | Some f, _, _ => parse_flags args (f v)
      | None, Some f, value :: args =>
          match f value v with
          | Some v => parse_flags args v
          | None => Err usage
          end
      | None, _, _ => Err usage
      end
  end.

(** An optional flag with its value, and a switch, as arguments. *)
Definition option_args {A} (flag : string) (show : A -> string) (o : option A) : list string :=
  match o with Some a => [flag; show a] | None => [] end.
Definition switch_args (flag : string) (b : bool) : list string := if b then [flag] else [].

(** The integers a flag can hold. *)
Definition fits (max : Z) (o : option Z) : Prop := forall n, o = Some n -> 0 <= n <= max.

(** Walking past an optional flag sets its variable. *)
Lemma parse_option {A} flag (show : A -> string) (set : option A -> V -> V) f o rest v :
  switch flag = None -> valued flag = Some f ->
  (forall a, o = Some a -> f (show a) v = Some (set (Some a) v)) -> set None v = v ->
  parse_flags (option_args flag show o ++ rest) v = parse_flags rest (set o v).
Proof.
  intros Hs Hv Hf Hn. destruct o as [a|]; cbn [option_args app]; [|by rewrite Hn].
  cbn [parse_flags]. by rewrite Hs, Hv, (Hf a eq_refl).
Qed.

(** A flag whose value is an integer. *)
Lemma parse_number flag (set : option Z -> V -> V) max o rest v :
  switch flag = None ->
  valued flag = Some (fun s v => n ← from_str_radix 10 max s; Some (set (Some n) v)) ->
  fits max o -> set None v = v ->
  parse_flags (option_args flag pretty o ++ rest) v = parse_flags rest (set o v).
Proof.
  intros Hs Hv Hf Hn. eapply parse_option; [done|exact Hv| |done]. intros n Ho. cbv beta.
  by rewrite from_str_pretty by eauto.
Qed.

Lemma parse_switch flag (set : bool -> V -> V) b rest v :
  switch flag = Some (set true) -> set false v = v ->
  parse_flags (switch_args flag b ++ rest) v = parse_flags rest (set b v).
Proof. intros Hs Hf. destruct b; cbn [switch_args app]; [|by rewrite Hf]. cbn [parse_flags]. by rewrite Hs. Qed.

(** A walk ends in the usage error at the first flag it does not know, and at a
    flag whose value is missing or refused. *)
Lemma parse_unknown flag rest v :
  switch flag = None -> valued flag = None -> parse_flags (flag :: rest) v = Err usage.
Proof. intros Hs Hv. cbn [parse_flags]. by rewrite Hs, Hv. Qed.
Lemma parse_missing flag v : switch flag = None -> parse_flags [flag] v = Err usage.
Proof. intros Hs. cbn [parse_flags]. rewrite Hs. by destruct (valued flag). Qed.
End Flags.

(** Walk past one group of arguments, which sets one variable. *)
Ltac take_option switch valued set :=
  lazymatch goal with |- context [parse_flags _ _ (option_args ?flag ?show ?o ++ ?rest) ?v] =>
    rewrite (parse_option switch valued flag show set _ o rest v eq_refl eq_refl (fun _ _ => eq_refl) eq_refl)
  end; cbv beta.
Ltac take_switch switch valued set :=
  lazymatch goal with |- context [parse_flags _ _ (switch_args ?flag ?b ++ ?rest) ?v] =>
    rewrite (parse_switch switch valued flag set b rest v eq_refl eq_refl)
  end; cbv beta.
Ltac take_number switch valued max set :=
  lazymatch goal with |- context [parse_flags _ _ (option_args ?flag _ ?o ++ ?rest) ?v] =>
    rewrite (parse_number switch valued flag set max o rest v eq_refl eq_refl ltac:(assumption) eq_refl)
  end; cbv beta.

Definition role_of (s : string) : option Role :=
  if (s =? "client")%string then Some Client
  else if (s =? "server")%string then Some Server else None.
Definition role_name (r : Role) : string := match r with Client => "client" | Server => "server" end.

Lemma role_of_name r : role_of (role_name r) = Some r.
Proof. by destruct r. Qed.

(** ** The demo's host *)

Module HostCli.

Record Cli := MkCli {
  component : string;
  role : Role;
  relay : string;
  peer : option string;
  alpn : option string;
  udp_bind : option string;
  direct : option string;
  webrtc : bool;
  peer_relay : option string;
  payload_bytes : option Z;
  datagram : bool;
  datagram_ceiling : option Z;
  inject_identity : bool;
  identity_negative : bool;
  stream_negative : bool;
  backlog_negative : bool;
  message : string;
}.

(** The variables of the walk. *)
Record Vars := MkVars {
  v_role : option Role;
  v_relay : option string;
  v_peer : option string;
  v_alpn : option string;
  v_udp_bind : option string;
  v_direct : option string;
  v_webrtc : bool;
  v_peer_relay : option string;
  v_payload_bytes : option Z;
  v_datagram : bool;
  v_datagram_ceiling : option Z;
  v_inject_identity : bool;
  v_identity_negative : bool;
  v_stream_negative : bool;
  v_backlog_negative : bool;
  v_message : string;
}.
#[export] Instance Vars_eta : Eta Vars := fun v =>
  MkVars (v_role v) (v_relay v) (v_peer v) (v_alpn v) (v_udp_bind v) (v_direct v) (v_webrtc v)
    (v_peer_relay v) (v_payload_bytes v) (v_datagram v) (v_datagram_ceiling v) (v_inject_identity v)
    (v_identity_negative v) (v_stream_negative v) (v_backlog_negative v) (v_message v).

Definition vars_new : Vars :=
  MkVars None None None None None None false None None false None false false false false
    "hello through the endpoint surface".

Definition switch (flag : string) : option (Vars -> Vars) :=
  if (flag =? "--webrtc")%string then Some (fun v => v <| v_webrtc := true |>)
  else if (flag =? "--datagram")%string then Some (fun v => v <| v_datagram := true |>)
  else if (flag =? "--inject-identity")%string then Some (fun v => v <| v_inject_identity := true |>)
  else if (flag =? "--identity-negative")%string then Some (fun v => v <| v_identity_negative := true |>)
  else if (flag =? "--stream-negative")%string then Some (fun v => v <| v_stream_negative := true |>)
  else if (flag =? "--backlog-negative")%string then Some (fun v => v <| v_backlog_negative := true |>)
  else None.

Definition valued (flag : string) : option (string -> Vars -> option Vars) :=
  if (flag =? "--role")%string then
    Some (fun s v => r ← role_of s; Some (v <| v_role := Some r |>))
  else if (flag =? "--relay")%string then Some (fun s v => Some (v <| v_relay := Some s |>))
  else if (flag =? "--peer")%string then Some (fun s v => Some (v <| v_peer := Some s |>))
  else if (flag =? "--alpn")%string then Some (fun s v => Some (v <| v_alpn := Some s |>))
  else if (flag =? "--udp-bind")%string then Some (fun s v => Some (v <| v_udp_bind := Some s |>))
  else if (flag =? "--direct")%string then Some (fun s v => Some (v <| v_direct := Some s |>))
  else if (flag =? "--peer-relay")%string then Some (fun s v => Some (v <| v_peer_relay := Some s |>))
  else if (flag =? "--payload-bytes")%string then
    Some (fun s v => n ← parse_u64 s; Some (v <| v_payload_bytes := Some n |>))
  else if (flag =? "--datagram-ceiling")%string then
    Some (fun s v => n ← parse_u32 s; Some (v <| v_datagram_ceiling := Some n |>))
  else if (flag =? "--message")%string then Some (fun s v => Some (v <| v_message := s |>))
  else None.

(** [args] are the process's arguments after its own name. *)
Definition parse_args (args : list string) : Result Cli Usage :=
  match args with
  | [] => Err usage
  | component :: args =>
      let? v := parse_flags switch valued args vars_new in
      let? role := ok_or usage (v_role v) in
      let? relay := ok_or usage (v_relay v) in
      Ok (MkCli component role relay (v_peer v) (v_alpn v) (v_udp_bind v) (v_direct v) (v_webrtc v)
            (v_peer_relay v) (v_payload_bytes v) (v_datagram v) (v_datagram_ceiling v)
            (v_inject_identity v) (v_identity_negative v) (v_stream_negative v) (v_backlog_negative v)
            (v_message v))
  end.

(** The configuration handed to the demo's entry point. *)
Definition run_config (cli : Cli) : RunConfig :=
  MkRunConfig (relay cli) (role cli) (peer cli) (alpn cli) (udp_bind cli) (direct cli) (webrtc cli)
    (peer_relay cli) (payload_bytes cli) (datagram cli) (datagram_ceiling cli) (inject_identity cli)
    (identity_negative cli) (stream_negative cli) (backlog_negative cli) (message cli).

(** The lines printed for the demo's outcome, or the error the driver ends
    with. *)
Definition report_lines (dbg : forall A : Type, A -> string) (r : Role) (report : Result RunReport string)
    : Result (list string) string :=
  match report with
  | Ok report =>
      Ok ["iroh-demo (" +:+ role_name r +:+ "): endpoint=" +:+ rep_endpoint_id report
          +:+ " peer=" +:+ rep_peer_id report +:+ " path=" +:+ rep_path report
          +:+ " handshake_ms=" +:+ pretty (handshake_ms report)
          +:+ " roundtrip_ms=" +:+ pretty (roundtrip_ms report)
          +:+ " received=" +:+ dbg string (received report)
          +:+ " datagram=" +:+ dbg (option string) (rep_datagram report);
          "OK: " +:+ role_name r +:+ " finished."]
  | Err err => Err ("iroh-demo returned error: " +:+ err)
  end.

(** A command line for a configuration. *)
Definition render (cli : Cli) : list string :=
  [component cli; "--role"; role_name (role cli); "--relay"; relay cli]
  ++ option_args "--peer" id (peer cli) ++ option_args "--alpn" id (alpn cli)
  ++ option_args "--udp-bind" id (udp_bind cli) ++ option_args "--direct" id (direct cli)
  ++ switch_args "--webrtc" (webrtc cli) ++ option_args "--peer-relay" id (peer_relay cli)
  ++ option_args "--payload-bytes" pretty (payload_bytes cli) ++ switch_args "--datagram" (datagram cli)
  ++ option_args "--datagram-ceiling" pretty (datagram_ceiling cli)
  ++ switch_args "--inject-identity" (inject_identity cli)
  ++ switch_args "--identity-negative" (identity_negative cli)
  ++ switch_args "--stream-negative" (stream_negative cli)
  ++ switch_args "--backlog-negative" (backlog_negative cli)
  ++ ["--message"; message cli].

(** The command line says it all: every configuration of the driver, with
    every string in it, is parsed from its rendering, and is what the demo's
    entry point is given. *)
Theorem parse_args_roundtrip cli :
  fits u64_max (payload_bytes cli) -> fits u32_max (datagram_ceiling cli) ->
  parse_args (render cli) = Ok cli.
Proof.
  destruct cli as [comp r rel p al ub di wr pr pb dg dc ii idn sn bn msg]. simpl. intros Hpb Hdc.
  unfold render, parse_args. cbn [app component role relay peer alpn udp_bind direct webrtc peer_relay
    payload_bytes datagram datagram_ceiling inject_identity identity_negative stream_negative
    backlog_negative message].
  cbn [parse_flags]. change (switch "--role") with (@None (Vars -> Vars)).
  change (valued "--role") with (Some (fun s v => r ← role_of s; Some (v <| v_role := Some r |>))).
  change (switch "--relay") with (@None (Vars -> Vars)).
  change (valued "--relay") with (Some (fun s v => Some (v <| v_relay := Some s |>))).
  cbv beta iota. rewrite role_of_name. cbn [mbind option_bind].
  take_option switch valued (fun o v => v <| v_peer := o |>). take_option switch valued (fun o v => v <| v_alpn := o |>).
  take_option switch valued (fun o v => v <| v_udp_bind := o |>). take_option switch valued (fun o v => v <| v_direct := o |>).
  take_switch switch valued (fun b v => v <| v_webrtc := b |>). take_option switch valued (fun o v => v <| v_peer_relay := o |>).
  take_number switch valued u64_max (fun o v => v <| v_payload_bytes := o |>). take_switch switch valued (fun b v => v <| v_datagram := b |>).
  take_number switch valued u32_max (fun o v => v <| v_datagram_ceiling := o |>).
  take_switch switch valued (fun b v => v <| v_inject_identity := b |>). take_switch switch valued (fun b v => v <| v_identity_negative := b |>).
  take_switch switch valued (fun b v => v <| v_stream_negative := b |>). take_switch switch valued (fun b v => v <| v_backlog_negative := b |>).
  reflexivity.
Qed.
End HostCli.

(** ** The upstream peer *)

Module PeerCli.

Record Cli := MkCli {
  role : Role;
  peer : option string;
  direct : option string;
  datagram : bool;
  message : string;
}.

Record Vars := MkVars {
  v_role : option Role;
  v_peer : option string;
  v_direct : option string;
  v_datagram : bool;
  v_message : string;
}.
#[export] Instance Vars_eta : Eta Vars := fun v =>
  MkVars (v_role v) (v_peer v) (v_direct v) (v_datagram v) (v_message v).

Definition vars_new : Vars := MkVars None None None false "hello from upstream iroh".

Definition switch (flag : string) : option (Vars -> Vars) :=
  if (flag =? "--datagram")%string then Some (fun v => v <| v_datagram := true |>) else None.

Definition valued (flag : string) : option (string -> Vars -> option Vars) :=
  if (flag =? "--role")%string then
    Some (fun s v => r ← role_of s; Some (v <| v_role := Some r |>))
  else if (flag =? "--peer")%string then Some (fun s v => Some (v <| v_peer := Some s |>))
  else if (flag =? "--direct")%string then Some (fun s v => Some (v <| v_direct := Some s |>))
  else if (flag =? "--message")%string then Some (fun s v => Some (v <| v_message := s |>))
  else None.

Definition parse_args (args : list string) : Result Cli Usage :=
  let? v := parse_flags switch valued args vars_new in
  let? role := ok_or usage (v_role v) in
  Ok (MkCli role (v_peer v) (v_direct v) (v_datagram v) (v_message v)).

Definition render (cli : Cli) : list string :=
  ["--role"; role_name (role cli)] ++ option_args "--peer" id (peer cli)
  ++ option_args "--direct" id (direct cli) ++ switch_args "--datagram" (datagram cli)
  ++ ["--message"; message cli].

(** The peer's command line says it all too. *)
Theorem peer_args_roundtrip cli : parse_args (render cli) = Ok cli.
Proof.
  destruct cli as [r p d dg m]. unfold render, parse_args.
  cbn [app role peer direct datagram message parse_flags]. change (switch "--role") with (@None (Vars -> Vars)).
  change (valued "--role") with (Some (fun s v => r ← role_of s; Some (v <| v_role := Some r |>))).
  cbv beta iota. rewrite role_of_name. cbn [mbind option_bind].
  take_option switch valued (fun o v => v <| v_peer := o |>).
  take_option switch valued (fun o v => v <| v_direct := o |>).
  take_switch switch valued (fun b v => v <| v_datagram := b |>). reflexivity.
Qed.
End PeerCli.
