(* ===== verification/SpikeRuns.v ===== *)
(** The runs of the relay and blob spikes
    ([experiments/iroh-relay-ws/guest/src/main.rs],
    [experiments/iroh-blobs/guest/src/main.rs]): both sides of each as programs
    over the calls they make of the upstream crates, the overlay's control socket
    and the clock; [expect] panics. The overlay's client is the same text in both
    files (and in the ping demo). The formatting of a rate in floating point is a
    parameter. What each run's traffic is closes the file. *)
From stdpp Require Import pretty sorting.
From S2P Require Import Prelude RelayFrames Types Text Prog PingDemo Spikes.

Module SpikeApi.
Inductive call :=
(** The process and the clock. *)
| Println (line : string)
| EnvVar (name : string)
| Now
| Sleep (d : Duration)
(** The overlay's control socket. *)
| UdpBind
| SendTo (sock : Z) (dgram : bytes) (port : Z)
| RecvFrom (sock : Z) (room : nat)
(** The endpoint. *)
| ParseRelayUrl (text : string)
| BindEndpoint (relay : string) (alpns : list bytes)
| EndpointId (endpoint : Z)
| BoundSockets (endpoint : Z)
| Online (endpoint : Z)
| AddExternalAddr (endpoint : Z) (addr : SocketAddr)
| Connect (endpoint : Z) (peer : array 32) (relay : string) (alpn : bytes)
| Accept (endpoint : Z)
| CloseEndpoint (endpoint : Z)
(** The connection and its stream. *)
| Handshake (incoming : Z)
| RemoteId (conn : Z)
| Paths (conn : Z)
| OpenBi (conn : Z)
| AcceptBi (conn : Z)
| WriteAll (send : Z) (data : bytes)
| ReadExact (recv : Z) (n : nat)
| Finish (send : Z)
| CloseConn (conn : Z) (code : Z) (reason : bytes)
| ConnClosed (conn : Z)
(** The spawned server. *)
| Spawn (endpoint : Z)
| Join (task : Z)
(** The blobs. *)
| MemStore
| AddBytes (store : Z) (content : bytes)
| ServeBlobs (endpoint store : Z)
| Fetch (store conn : Z) (hash : string)
| Shutdown (router : Z).

(** A path comes with its address's text and its round trip; a relay's URL and a hash are what
    they display as. *)
Definition answer (c : call) : Type :=
  match c with
  | Println _ | Sleep _ | Online _ | AddExternalAddr _ _ | CloseEndpoint _ | CloseConn _ _ _
  | ConnClosed _ | Shutdown _ => unit
  | EnvVar _ => option string
  | Now => Instant
  | Spawn _ | MemStore | ServeBlobs _ _ => Z
  | UdpBind | BindEndpoint _ _ | Connect _ _ _ _ | Handshake _ => Result Z string
  | SendTo _ _ _ | WriteAll _ _ | Finish _ | Join _ | Fetch _ _ _ => Result unit string
  | RecvFrom _ _ | ReadExact _ _ => Result bytes string
  | ParseRelayUrl _ => option string
  | EndpointId _ | RemoteId _ => array 32
  | BoundSockets _ => list SocketAddr
  | Accept _ => option Z
  | Paths _ => list (PathInfo * (string * Duration))
  | OpenBi _ | AcceptBi _ => Result (Z * Z) string
  | AddBytes _ _ => Result string string
  end.
End SpikeApi.

Canonical Structure spike_api : Iface := {| icall := SpikeApi.call; answer := SpikeApi.answer |}.

Section Runs.
Context {H : Prog.Host spike_api}.
(** Third parties: an id's and an address's display, a duration's [Debug]. *)
Context (show_id : array 32 -> string) (show_addr : SocketAddr -> string) (dbg_duration : Duration -> string).

(** A call whose failure panics. *)
Definition crash {A} : Prog A := fun _ => Panic.
Definition expect {A} (m : Prog (Result A string)) : Prog A :=
  let* r := m in match r with Ok a => ret a | Err _ => crash end.
Definition expect_some {A} (m : Prog (option A)) : Prog A :=
  let* r := m in match r with Some a => ret a | None => crash end.

Definition println (line : string) : Prog unit := call (SpikeApi.Println line).

Definition elapsed (since : Instant) : Prog Duration :=
  let* now := call SpikeApi.Now in ret (duration_since now since).
Definition as_millis (d : Duration) : string := pretty (d / 1000000).
Definition as_micros (d : Duration) : string := pretty (d / 1000).

Definition bind_endpoint (relay : string) (alpns : list bytes) : Prog Z :=
  expect (call (SpikeApi.BindEndpoint relay alpns)).

(** ** The overlay's client *)

Definition OVERLAY_PORT : Z := 2.

(** The socket, and the address assigned. *)
Definition overlay_register (fuel : nat) (endpoint : Z) : Prog (Z * SocketAddr) :=
  let* sockets := call (SpikeApi.BoundSockets endpoint) in
  let* udp_port := expect_some (ret (ipv4_port sockets)) in
  let* sock := expect (call SpikeApi.UdpBind) in
  let* id := call (SpikeApi.EndpointId endpoint) in
  let* _ := expect (call (SpikeApi.SendTo sock (register_frame id udp_port) OVERLAY_PORT)) in
  loop fuel (fun _ =>
    let* dgram := expect (call (SpikeApi.RecvFrom sock 64)) in
    ret (match assigned dgram with Some addr => inr (sock, addr) | None => inl tt end)) tt.

Definition is_ready (dgram : bytes) : bool :=
  match dgram with tag :: _ => b2z tag =? TAG_READY | [] => false end.

Definition overlay_ready (fuel : nat) (sock : Z) : Prog unit :=
  loop fuel (fun _ =>
    let* dgram := expect (call (SpikeApi.RecvFrom sock 64)) in
    ret (if is_ready dgram then inr tt else inl tt)) tt.

(** ** The wait for the migration *)

Definition migration_turn (label : list PathInfo -> string) (direct : string) (conn : Z) (since : Instant)
    : Prog (unit + unit) :=
  let* paths := call (SpikeApi.Paths conn) in
  if (label paths.*1 =? direct)%string then
    let* waited := elapsed since in
    let* _ := println ("guest: connection migrated off the relay " +:+ as_millis waited
                       +:+ "ms after addrs were added") in
    ret (inr tt)
  else
    let* waited := elapsed since in
    if MIGRATE_TIMEOUT <? waited then
      let* _ := println ("guest: WARNING no migration within " +:+ dbg_duration MIGRATE_TIMEOUT) in
      ret (inr tt)
    else
      let* _ := call (SpikeApi.Sleep (from_millis 50)) in ret (inl tt).

Definition wait_migration (fuel : nat) (label : list PathInfo -> string) (direct : string) (conn : Z)
    : Prog unit :=
  let* since := call SpikeApi.Now in
  loop fuel (fun _ => migration_turn label direct conn since) tt.

(** Both spikes' upgrade: the channels are open, the addresses are handed over. *)
Definition hand_over (fuel : nat) (a b : Z) (overlay_a overlay_b : Z * SocketAddr) : Prog unit :=
  let* _ := overlay_ready fuel overlay_a.1 in
  let* _ := overlay_ready fuel overlay_b.1 in
  let* _ := call (SpikeApi.AddExternalAddr a overlay_a.2) in
  call (SpikeApi.AddExternalAddr b overlay_b.2).

(** ** The relay spike *)

Definition RELAY_ALPN : bytes := str_bytes "/iroh-relay-ws-spike/echo/1".

Definition relay_path (conn : Z) : Prog string :=
  let* paths := call (SpikeApi.Paths conn) in ret (path_label paths.*1).

Definition bool_text (b : bool) : string := if b then "true" else "false".

Fixpoint print_each (label : string) (paths : list (PathInfo * (string * Duration))) : Prog unit :=
  match paths with
  | [] => ret tt
  | (p, (addr, rtt)) :: paths =>
      let* _ := println ("guest: path [" +:+ label +:+ "] " +:+ addr +:+ " selected="
                         +:+ bool_text (is_selected p) +:+ " rtt=" +:+ dbg_duration rtt) in
      print_each label paths
  end.
Definition print_paths (conn : Z) (label : string) : Prog unit :=
  let* paths := call (SpikeApi.Paths conn) in print_each label paths.

(** The rounds of a phase, and the time each took. *)
Definition payload : bytes := replicate PAYLOAD Byte.xa5.
Fixpoint echo_rounds (n : nat) (send recv : Z) : Prog (list Duration) :=
  match n with
  | O => ret []
  | S n =>
      let* t := call SpikeApi.Now in
      let* _ := expect (call (SpikeApi.WriteAll send payload)) in
      let* _ := expect (call (SpikeApi.ReadExact recv PAYLOAD)) in
      let* d := elapsed t in
      let* ds := echo_rounds n send recv in
      ret (d :: ds)
  end.

(** The [tenths] of the sorted times: for 50 rounds the products of the code's
    floating-point arithmetic truncate to the same index. *)
Definition quantile (tenths : Z) (sorted : list Duration) : Duration :=
  nth (Z.to_nat ((Z.of_nat (length sorted) - 1) * tenths / 10)) sorted 0.

Definition echo_phase (conn send recv : Z) (label : string) : Prog unit :=
  let* rtts := echo_rounds (Z.to_nat ECHOES) send recv in
  let rtts := merge_sort Z.le rtts in
  let* path := relay_path conn in
  println ("guest: echo rtt [" +:+ label +:+ "] path=" +:+ path +:+ ": p50=" +:+ as_micros (quantile 5 rtts)
           +:+ "us p90=" +:+ as_micros (quantile 9 rtts) +:+ "us max=" +:+ as_micros (quantile 10 rtts)
           +:+ "us (" +:+ pretty ECHOES +:+ " rounds, " +:+ pretty (Z.of_nat PAYLOAD) +:+ " byte payload)").

Fixpoint serve_echoes (n : nat) (send recv : Z) : Prog unit :=
  match n with
  | O => ret tt
  | S n =>
      let* buf := expect (call (SpikeApi.ReadExact recv PAYLOAD)) in
      let* _ := expect (call (SpikeApi.WriteAll send buf)) in
      serve_echoes n send recv
  end.

(** The spawned server. *)
Definition relay_server (a : Z) : Prog unit :=
  let* incoming := expect_some (call (SpikeApi.Accept a)) in
  let* conn := expect (call (SpikeApi.Handshake incoming)) in
  let* remote := call (SpikeApi.RemoteId conn) in
  let* _ := println ("guest: a accepted from " +:+ show_id remote) in
  let* (send, recv) := expect (call (SpikeApi.AcceptBi conn)) in
  let* _ := serve_echoes (2 * Z.to_nat ECHOES) send recv in
  let* _ := expect (call (SpikeApi.Finish send)) in
  call (SpikeApi.ConnClosed conn).

(** [b] dials [a]: the connection, and what is printed of it. *)
Definition dial (a b : Z) (relay : string) (alpn : bytes) (path : Z -> Prog string) : Prog Z :=
  let* peer := call (SpikeApi.EndpointId a) in
  let* t_dial := call SpikeApi.Now in
  let* conn := expect (call (SpikeApi.Connect b peer relay alpn)) in
  let* d := elapsed t_dial in
  let* on := path conn in
  let* _ := println ("guest: b connected to a in " +:+ as_millis d +:+ "ms (path: " +:+ on +:+ ")") in
  ret conn.

Definition print_ids (a b : Z) : Prog unit :=
  let* id_a := call (SpikeApi.EndpointId a) in
  let* id_b := call (SpikeApi.EndpointId b) in
  println ("guest: a=" +:+ show_id id_a +:+ " b=" +:+ show_id id_b).

Definition relay_run (fuel : nat) : Prog unit :=
  let* relay := expect_some (call (SpikeApi.ParseRelayUrl "http://127.0.0.1:3340")) in
  let* _ := println ("guest: start relay=" +:+ relay) in
  let* a := bind_endpoint relay [RELAY_ALPN] in
  let* b := bind_endpoint relay [] in
  let* _ := print_ids a b in
  let* overlay_a := overlay_register fuel a in
  let* overlay_b := overlay_register fuel b in
  let* _ := println ("guest: overlay addrs a=" +:+ show_addr overlay_a.2 +:+ " b=" +:+ show_addr overlay_b.2) in
  let* _ := call (SpikeApi.Online a) in
  let* _ := call (SpikeApi.Online b) in
  let* _ := println "guest: both online (home relay up)" in
  let* server := call (SpikeApi.Spawn a) in
  let* conn := dial a b relay RELAY_ALPN relay_path in
  let* (send, recv) := expect (call (SpikeApi.OpenBi conn)) in
  let* _ := echo_phase conn send recv "phase 1" in
  let* _ := hand_over fuel a b overlay_a overlay_b in
  let* _ := println "guest: overlay addrs handed to iroh; waiting for migration" in
  let* _ := wait_migration fuel path_label "ip" conn in
  let* _ := print_paths conn "post-migration" in
  let* _ := echo_phase conn send recv "phase 2" in
  let* _ := expect (call (SpikeApi.Finish send)) in
  let* _ := call (SpikeApi.CloseConn conn 0 (str_bytes "done")) in
  let* _ := expect (call (SpikeApi.Join server)) in
  let* _ := call (SpikeApi.CloseEndpoint a) in
  let* _ := call (SpikeApi.CloseEndpoint b) in
  let* _ := call (SpikeApi.Sleep (from_millis 50)) in
  println "guest: done".

(** ** The blob spike *)

(** [format!] of [mbps] for so many bytes in such a time, with the digits after
    the point: the standard library's floating-point formatting. *)
Context (show_mbps : nat -> Z -> Duration -> string).
Context (blobs_alpn : bytes).

Definition blob_path (conn : Z) : Prog string :=
  let* paths := call (SpikeApi.Paths conn) in ret (selected_path paths.*1).1.

(** [BLOB_MB], a 32-bit [usize]; what does not parse counts as absent. *)
Definition blob_size (v : option string) : Z := default 4 (v ≫= parse_u32).

Definition mebibytes (mb : Z) : Z := wrap32 (mb * 1024 * 1024).

Definition fetch_phase (store conn : Z) (hash label : string) (mb : Z) : Prog unit :=
  let* t_fetch := call SpikeApi.Now in
  let* _ := expect (call (SpikeApi.Fetch store conn hash)) in
  let* d := elapsed t_fetch in
  let* path := blob_path conn in
  println ("guest: fetch [" +:+ label +:+ "] path=" +:+ path +:+ ": " +:+ pretty mb +:+ "MiB in "
           +:+ as_millis d +:+ "ms = " +:+ show_mbps 2 (mebibytes mb) d +:+ " MiB/s").

(** The provider's store, with both blobs: their hashes. *)
Definition add_blobs (mb : Z) : Prog (Z * string * string) :=
  let* store := call SpikeApi.MemStore in
  let* t_add := call SpikeApi.Now in
  let* blob1 := expect (call (SpikeApi.AddBytes store (make_blob mb 1))) in
  let* blob2 := expect (call (SpikeApi.AddBytes store (make_blob mb 2))) in
  let* d := elapsed t_add in
  let* d' := elapsed t_add in
  let* _ := println ("guest: a added 2x" +:+ pretty mb +:+ "MiB in " +:+ as_millis d +:+ "ms ("
                     +:+ show_mbps 1 (wrap32 (2 * mb * 1024 * 1024)) d' +:+ " MiB/s hashing)") in
  ret (store, blob1, blob2).

Definition blobs_run (fuel : nat) : Prog unit :=
  let* url := call (SpikeApi.EnvVar "RELAY") in
  let* relay := expect_some (call (SpikeApi.ParseRelayUrl (default "http://127.0.0.1:3340" url))) in
  let* size := call (SpikeApi.EnvVar "BLOB_MB") in
  let mb := blob_size size in
  let* _ := println ("guest: start relay=" +:+ relay +:+ " blob=" +:+ pretty mb +:+ "MiB") in
  let* a := bind_endpoint relay [blobs_alpn] in
  let* b := bind_endpoint relay [] in
  let* _ := print_ids a b in
  let* overlay_a := overlay_register fuel a in
  let* overlay_b := overlay_register fuel b in
  let* _ := call (SpikeApi.Online a) in
  let* _ := call (SpikeApi.Online b) in
  let* _ := println "guest: both online (home relay up)" in
  let* (store_a, blob1, blob2) := add_blobs mb in
  let* router := call (SpikeApi.ServeBlobs a store_a) in
  let* store_b := call SpikeApi.MemStore in
  let* conn := dial a b relay blobs_alpn blob_path in
  let* _ := fetch_phase store_b conn blob1 "phase 1" mb in
  let* _ := hand_over fuel a b overlay_a overlay_b in
  let* _ := wait_migration fuel (fun paths => (selected_path paths).1) "direct" conn in
  let* _ := fetch_phase store_b conn blob2 "phase 2" mb in
  let* _ := call (SpikeApi.CloseConn conn 0 (str_bytes "done")) in
  let* _ := call (SpikeApi.Shutdown router) in
  let* _ := call (SpikeApi.CloseEndpoint a) in
  let* _ := call (SpikeApi.CloseEndpoint b) in
  let* _ := call (SpikeApi.Sleep (from_millis 50)) in
  println "guest: done".

(** [main]: the run, and the line after it. *)
Definition main (run : Prog unit) : Prog unit :=
  let* _ := run in println "guest: exit".
End Runs.

(** ** What the runs exchange *)

Inductive Traffic :=
| Dialed (conn : Z)
| Opened (conn send recv : Z)
| Wrote (send : Z) (data : bytes)
| Took (recv : Z) (data : bytes)
| Added (store : Z) (content : bytes) (hash : string)
| Fetched (store conn : Z) (hash : string).

Definition traffic_of (o : Prog.Obs spike_api) : option Traffic :=
  let '(existT c r) := o in
  match c return SpikeApi.answer c -> option Traffic with
  | SpikeApi.Connect _ _ _ _ => fun r => match r with Ok conn => Some (Dialed conn) | Err _ => None end
  | SpikeApi.OpenBi conn | SpikeApi.AcceptBi conn => fun r =>
      match r with Ok (send, recv) => Some (Opened conn send recv) | Err _ => None end
  | SpikeApi.WriteAll send data => fun r => match r with Ok _ => Some (Wrote send data) | Err _ => None end
  | SpikeApi.ReadExact recv _ => fun r => match r with Ok data => Some (Took recv data) | Err _ => None end
  | SpikeApi.AddBytes store content => fun r =>
      match r with Ok hash => Some (Added store content hash) | Err _ => None end
  | SpikeApi.Fetch store conn hash => fun r =>
      match r with Ok _ => Some (Fetched store conn hash) | Err _ => None end
  | _ => fun _ => None
  end r.

Section Exchange.
Context {H : Prog.Host spike_api}.
Context (show_id : array 32 -> string) (show_addr : SocketAddr -> string) (dbg_duration : Duration -> string).
Context (show_mbps : nat -> Z -> Duration -> string) (blobs_alpn : bytes).

Lemma ensures_expect {A} (m : Prog (Result A string)) (Q : A -> list (Prog.Obs spike_api) -> Prop) :
  ensures_ok m Q -> ensures (expect m) Q.
Proof.
  intros Hm. apply ensures_bind. eapply ensures_mono; [exact Hm|]. intros [a|e] t HQ; [|done].
  apply ensures_ret. by rewrite app_nil_r.
Qed.

Lemma leaves_expect {A} (m : Prog (Result A string)) l : leaves traffic_of m l -> leaves traffic_of (expect m) l.
Proof. intros Hm. apply ensures_expect. eapply ensures_mono; [exact Hm|]. by intros [a|e]. Qed.

Lemma leaves_expect_some {A} (m : Prog (option A)) : leaves traffic_of m [] -> leaves traffic_of (expect_some m) [].
Proof. intros Hm. apply leaves_bind_nil; [done|]. intros [a|]; [apply leaves_ret|done]. Qed.

(** Programs without traffic. *)
Ltac quiet :=
  repeat (leaves_nil; lazymatch goal with
  | |- leaves _ (expect _) _ => apply leaves_expect
  | |- leaves _ (expect_some _) _ => apply leaves_expect_some
  | |- leaves _ (if ?b then _ else _) _ => destruct b
  | |- leaves _ (match ?p with (_, _) => _ end) _ => destruct p
  end); leaves_nil.

Lemma register_quiet fuel endpoint : leaves traffic_of (overlay_register fuel endpoint) [].
Proof. unfold overlay_register. quiet. Qed.
Lemma print_ids_quiet a b : leaves traffic_of (print_ids show_id a b) [].
Proof. unfold print_ids, println. quiet. Qed.
Lemma hand_over_quiet fuel a b oa ob : leaves traffic_of (hand_over fuel a b oa ob) [].
Proof. unfold hand_over, overlay_ready. quiet. Qed.
Lemma migration_quiet fuel label direct conn :
  leaves traffic_of (wait_migration dbg_duration fuel label direct conn) [].
Proof. unfold wait_migration, migration_turn, elapsed, println. quiet. Qed.
Lemma relay_path_quiet conn : leaves traffic_of (relay_path conn) [].
Proof. unfold relay_path. quiet. Qed.
Lemma print_paths_quiet conn label : leaves traffic_of (print_paths dbg_duration conn label) [].
Proof.
  unfold print_paths. quiet. induction a as [|[p [addr rtt]] paths IH]; cbn [print_each]; [quiet|].
  unfold println at 1. apply leaves_bind_nil; [quiet|done].
Qed.

(** The rounds as the client and the server see them. *)
Definition asked (send recv : Z) (echoes : list bytes) : list Traffic :=
  concat ((fun b => [Wrote send payload; Took recv b]) <$> echoes).
Definition answered (send recv : Z) (bufs : list bytes) : list Traffic :=
  concat ((fun b => [Took recv b; Wrote send b]) <$> bufs).

Lemma echo_rounds_asked n send recv :
  ensures (echo_rounds n send recv) (fun _ t =>
    exists echoes, length echoes = n /\ omap traffic_of t = asked send recv echoes).
Proof.
  induction n as [|n IH]; cbn [echo_rounds]; [apply ensures_ret; by exists []|].
  apply ensures_bind. call_step. intros t0. apply ensures_bind, ensures_expect. call_step. intros [[]|]; [|done].
  apply ensures_bind, ensures_expect. call_step. intros [b|]; [|done]. unfold elapsed.
  apply ensures_bind, ensures_bind. call_step. intros t1. apply ensures_ret.
  apply ensures_bind. eapply ensures_mono; [exact IH|]. intros ds t (echoes & Hl & Ht). apply ensures_ret.
  exists (b :: echoes). cbn. by rewrite app_nil_r, Hl, Ht.
Qed.

Lemma serve_echoes_answered n send recv :
  ensures (serve_echoes n send recv) (fun _ t =>
    exists bufs, length bufs = n /\ omap traffic_of t = answered send recv bufs).
Proof.
  induction n as [|n IH]; cbn [serve_echoes]; [apply ensures_ret; by exists []|].
  apply ensures_bind, ensures_expect. call_step. intros [b|]; [|done].
  apply ensures_bind, ensures_expect. call_step. intros [[]|]; [|done].
  eapply ensures_mono; [exact IH|]. intros ? t (bufs & Hl & Ht). exists (b :: bufs). cbn. by rewrite Hl, Ht.
Qed.

Lemma echo_phase_asked conn send recv label :
  ensures (echo_phase conn send recv label) (fun _ t =>
    exists echoes, length echoes = Z.to_nat ECHOES /\ omap traffic_of t = asked send recv echoes).
Proof.
  unfold echo_phase, relay_path, println. apply ensures_bind. eapply ensures_mono; [apply echo_rounds_asked|].
  intros rtts t (echoes & Hl & Ht). apply ensures_bind, ensures_bind. call_step. intros paths. apply ensures_ret.
  call_step. intros []. exists echoes. by rewrite omap_app, Ht, app_nil_r.
Qed.

Lemma dial_dials a b relay alpn path :
  (forall conn, leaves traffic_of (path conn) []) ->
  ensures (dial a b relay alpn path) (fun conn t => omap traffic_of t = [Dialed conn]).
Proof.
  intros Hp. unfold dial, elapsed, println. apply ensures_bind. call_step. intros peer.
  apply ensures_bind. call_step. intros t0. apply ensures_bind, ensures_expect. call_step.
  intros [conn|]; [|done]. apply ensures_bind, ensures_bind. call_step. intros t1. apply ensures_ret.
  apply ensures_bind. eapply ensures_mono; [apply Hp|]. intros on t Ht.
  apply ensures_bind. call_step. intros []. apply ensures_ret. cbn. by rewrite !omap_app, Ht.
Qed.

Lemma asked_app send recv l l' : asked send recv (l ++ l') = asked send recv l ++ asked send recv l'.
Proof. unfold asked. by rewrite fmap_app, concat_app. Qed.

Ltac skip :=
  apply seen_skip; [first [apply register_quiet | apply print_ids_quiet | apply hand_over_quiet
                          | apply migration_quiet | apply print_paths_quiet | unfold println, bind_endpoint; quiet] | intros ?].
Ltac phase H := apply seen_bind; eapply ensures_mono; [H|].

(** The relay spike's two sides are in step: the run dials once, opens one stream
    and, over both phases and whatever the migration does, sends the payload as
    many times as the server is there to read it; the server returns each read on
    the stream it accepted, in order. *)
Theorem relay_spike_exchange fuel a :
  ensures (relay_run show_id show_addr dbg_duration fuel) (fun _ t => exists conn send recv echoes,
    length echoes = (2 * Z.to_nat ECHOES)%nat /\
    omap traffic_of t = [Dialed conn; Opened conn send recv] ++ asked send recv echoes) /\
  ensures (relay_server show_id a) (fun _ t => exists conn send recv bufs,
    length bufs = (2 * Z.to_nat ECHOES)%nat /\
    omap traffic_of t = Opened conn send recv :: answered send recv bufs).
Proof.
  split.
  - change (seen traffic_of [] (relay_run show_id show_addr dbg_duration fuel) (fun l =>
      exists conn send recv echoes, length echoes = (2 * Z.to_nat ECHOES)%nat /\
        l = [Dialed conn; Opened conn send recv] ++ asked send recv echoes)).
    unfold relay_run. do 12 skip. phase ltac:(apply dial_dials, relay_path_quiet). intros conn ? ->.
    apply seen_bind, ensures_expect. call_step. intros [[send recv]|]; [|done].
    phase ltac:(apply echo_phase_asked). intros [] t1 (e1 & H1 & ->). do 4 skip.
    phase ltac:(apply echo_phase_asked). intros [] t2 (e2 & H2 & ->). do 6 skip.
    apply seen_end; [unfold println; quiet|]. exists conn, send, recv, (e1 ++ e2).
    split; [rewrite length_app; lia|]. by rewrite asked_app.
  - unfold relay_server, println. apply ensures_bind, ensures_bind. call_step. intros [incoming|]; [|done].
    apply ensures_ret. apply ensures_bind, ensures_expect. call_step. intros [conn|]; [|done].
    apply ensures_bind. call_step. intros remote. apply ensures_bind. call_step. intros [].
    apply ensures_bind, ensures_expect. call_step. intros [[send recv]|]; [|done].
    apply ensures_bind. eapply ensures_mono; [apply serve_echoes_answered|]. intros [] t (bufs & Hl & Ht).
    apply ensures_bind, ensures_expect. call_step. intros [[]|]; [|done]. call_step. intros [].
    exists conn, send, recv, bufs. split; [done|]. cbn. by rewrite !omap_app, Ht, app_nil_r.
Qed.

Lemma add_blobs_added mb :
  ensures (add_blobs show_mbps mb) (fun '(store, hash1, hash2) t =>
    omap traffic_of t = [Added store (make_blob mb 1) hash1; Added store (make_blob mb 2) hash2]).
Proof.
  unfold add_blobs, println, elapsed. apply ensures_bind. call_step. intros store.
  apply ensures_bind. call_step. intros t_add.
  apply ensures_bind, ensures_expect. call_step. intros [hash1|]; [|done].
  apply ensures_bind, ensures_expect. call_step. intros [hash2|]; [|done].
  do 2 (apply ensures_bind, ensures_bind; call_step; intros ?; apply ensures_ret).
  apply ensures_bind. call_step. intros []. by apply ensures_ret.
Qed.

Lemma fetch_phase_fetched store conn hash label mb :
  ensures (fetch_phase show_mbps store conn hash label mb) (fun _ t =>
    omap traffic_of t = [Fetched store conn hash]).
Proof.
  unfold fetch_phase, println, elapsed, blob_path. apply ensures_bind. call_step. intros t_fetch.
  apply ensures_bind, ensures_expect. call_step. intros [[]|]; [|done].
  do 2 (apply ensures_bind, ensures_bind; call_step; intros ?; apply ensures_ret).
  call_step. by intros [].
Qed.

(** The blob spike fetches what was added: both blobs go into the provider's
    store, and over one connection, before and after the migration, the fetcher
    asks for the first's hash and then the second's, into its own store. *)
Theorem blob_spike_fetches fuel :
  ensures (blobs_run show_id dbg_duration show_mbps blobs_alpn fuel) (fun _ t =>
    exists mb store_a store_b conn hash1 hash2,
      omap traffic_of t =
        [Added store_a (make_blob mb 1) hash1; Added store_a (make_blob mb 2) hash2; Dialed conn;
         Fetched store_b conn hash1; Fetched store_b conn hash2]).
Proof.
  change (seen traffic_of [] (blobs_run show_id dbg_duration show_mbps blobs_alpn fuel) (fun l =>
    exists mb store_a store_b conn hash1 hash2,
      l = [Added store_a (make_blob mb 1) hash1; Added store_a (make_blob mb 2) hash2; Dialed conn;
           Fetched store_b conn hash1; Fetched store_b conn hash2])).
  unfold blobs_run. do 12 skip. phase ltac:(apply add_blobs_added). intros [[store_a hash1] hash2] ? ->.
  do 2 skip. phase ltac:(apply dial_dials; intros ?; unfold blob_path; quiet). intros conn ? ->.
  phase ltac:(apply fetch_phase_fetched). intros [] ? ->. do 2 skip.
  phase ltac:(apply fetch_phase_fetched). intros [] ? ->. do 5 skip.
  apply seen_end; [unfold println; quiet|]. by do 6 eexists.
Qed.

(** The bytes put into a stream, and those taken out of it. *)
Definition wrote (l : list Traffic) : bytes :=
  concat (omap (fun o => match o with Wrote _ b => Some b | _ => None end) l).
Definition took (l : list Traffic) : bytes :=
  concat (omap (fun o => match o with Took _ b => Some b | _ => None end) l).

Lemma asked_bytes send recv echoes :
  wrote (asked send recv echoes) = concat (replicate (length echoes) payload) /\
  took (asked send recv echoes) = concat echoes.
Proof.
  unfold wrote, took, asked. generalize payload. intros pl.
  induction echoes as [|b echoes [H1 H2]]; [done|]. cbn in *. by rewrite H1, H2.
Qed.

Lemma answered_bytes send recv bufs :
  wrote (answered send recv bufs) = concat bufs /\ took (answered send recv bufs) = concat bufs.
Proof.
  unfold wrote, took, answered. induction bufs as [|b bufs [H1 H2]]; [done|]. cbn in *. by rewrite H1, H2.
Qed.

Lemma concat_blocks n (l l' : list bytes) :
  length l = length l' -> Forall (fun b => length b = n) l -> Forall (fun b => length b = n) l' ->
  concat l = concat l' -> l = l'.
Proof.
  intros Hl. revert l' Hl. induction l as [|b l IH]; intros [|b' l'] Hl; [done..|].
  rewrite !Forall_cons. intros [Hb Hall] [Hb' Hall'] Hc. cbn [concat] in Hc. apply app_inj_1 in Hc as [-> Hc]; [|lia].
  f_equal. apply IH; auto.
Qed.

(** Over a stream that carries bytes unchanged and in order, each direction to the
    other side, every round trip returns the payload. *)
Lemma echoes_carried send recv send' recv' echoes bufs :
  Forall (fun b => length b = PAYLOAD) echoes -> Forall (fun b => length b = PAYLOAD) bufs ->
  length echoes = length bufs ->
  took (answered send' recv' bufs) = wrote (asked send recv echoes) ->
  took (asked send recv echoes) = wrote (answered send' recv' bufs) ->
  Forall (fun b => b = payload) echoes.
Proof.
  intros He Hb Hl. destruct (asked_bytes send recv echoes) as [-> ->].
  destruct (answered_bytes send' recv' bufs) as [-> ->]. intros Hd Hu.
  apply (concat_blocks PAYLOAD) in Hu as ->; [|done..].
  apply (concat_blocks PAYLOAD) in Hd as ->; [|by rewrite length_replicate|done|].
  - apply Forall_forall. intros b Hin. apply elem_of_replicate in Hin. naive_solver.
  - apply Forall_forall. intros b Hin. apply elem_of_replicate in Hin as [-> _]. apply length_replicate.
Qed.
End Exchange.
