(* ===== verification/PingRun.v ===== *)
(** The ping demo's tasks ([experiments/ping-demo/guest/src/main.rs]) as programs
    over the calls they make: [run] from its environment to the session loops, a
    session, and the tasks spawned beside it. The pure parts are those of
    [PingDemo]; the session's program is proved to implement its ferry. iroh,
    iroh-blobs, tokio and the sockets answer the calls; serde's parser and the
    display of an id are parameters. *)
From S2P Require Import Prelude RelayFrames Types Text Prog PingDemo.

Module PingApi.
(** An address of the endpoint: at a relay, by its URL, or another. *)
Inductive Addr := AtRelay (url : string) | Elsewhere.

Inductive call :=
(** The process. *)
| EnvVar (name : string)
| Sleep (d : Duration)
(** Sockets. *)
| UdpBind
| SendTo (sock : Z) (dgram : bytes) (port : Z)
| RecvFrom (sock : Z) (room : nat)
(** The endpoint. *)
| ParseRelayUrl (text : string)
| ParseEndpointId (text : string)
| GenerateSecret
| BindEndpoint (secret : bytes) (relay : option string) (idle : Duration) (alpns : list bytes)
| EndpointId (endpoint : Z)
| BoundSockets (endpoint : Z)
| Online (endpoint : Z)
| Addrs (endpoint : Z)
| AddExternalAddr (endpoint : Z) (addr : SocketAddr)
| Dial (endpoint : Z) (peer : array 32) (relay : string) (alpn : bytes) (within : Duration)
| Accept (endpoint : Z)
(** A connection and its stream. *)
| Handshake (incoming : Z)
| Alpn (conn : Z)
| RemoteId (conn : Z)
| Paths (conn : Z)
| AcceptBi (conn : Z)
| OpenBi (conn : Z)
| WriteAll (send : Z) (data : bytes)
| ReadExact (recv : Z) (n : nat)
| CloseConn (conn : Z) (code : Z) (reason : bytes)
(** [select!] of the page's next datagram and the connection's end. *)
| PageOrClosed (page conn : Z) (room : nat)
(** The tasks, and what they share. *)
| SpawnOverlay (endpoint sock : Z) (addr : SocketAddr) (page : Z)
| SpawnAcceptor (endpoint store : Z) (host : bool)
| SpawnReader (recv page : Z)
| SpawnWatcher (conn page : Z)
| SpawnFetch (endpoint store : Z) (peer : array 32) (hash : string) (size : Z) (page : Z)
| SpawnBlobs (store conn : Z)
| Abort (task : Z)
| SendSession (conn : Z)
| RecvSession
| StoreBusy (b : bool)
| LoadBusy
(** The blobs. *)
| MemStore
| AddBytes (store : Z) (content : bytes).

Definition answer (c : call) : Type :=
  match c with
  | Sleep _ | Online _ | AddExternalAddr _ _ | CloseConn _ _ _ | Abort _ | SendSession _ | StoreBusy _
  | SpawnBlobs _ _ => unit
  | EnvVar _ | ParseRelayUrl _ => option string
  | ParseEndpointId _ => option (array 32)
  | GenerateSecret | Alpn _ => bytes
  | UdpBind | BindEndpoint _ _ _ _ | Handshake _ => Result Z string
  | SendTo _ _ _ | WriteAll _ _ => Result unit string
  | RecvFrom _ _ | ReadExact _ _ => Result bytes string
  | EndpointId _ | RemoteId _ => array 32
  | BoundSockets _ => list SocketAddr
  | Addrs _ => list Addr
  | Dial _ _ _ _ _ => option (Result Z string)
  | Accept _ | RecvSession => option Z
  | Paths _ => list PathInfo
  | AcceptBi _ | OpenBi _ => Result (Z * Z) string
  | PageOrClosed _ _ _ => option (Result bytes string)
  | SpawnOverlay _ _ _ _ | SpawnAcceptor _ _ _ | SpawnReader _ _ | SpawnWatcher _ _ | SpawnFetch _ _ _ _ _ _
  | MemStore => Z
  | LoadBusy => bool
  | AddBytes _ _ => Result string string
  end.
End PingApi.

Canonical Structure ping_api : Iface := {| icall := PingApi.call; answer := PingApi.answer |}.

Section Tasks.
Context {H : Prog.Host ping_api}.
Context (show_id : array 32 -> string) (parse_command : bytes -> option PageCommand) (blobs_alpn : bytes).

(** [expect]. *)
Definition crash {A} : Prog A := fun _ => Panic.
Definition expect {A} (m : Prog (Result A string)) : Prog A :=
  let* r := m in match r with Ok a => ret a | Err _ => crash end.
Definition expect_some {A} (m : Prog (option A)) : Prog A :=
  let* r := m in match r with Some a => ret a | None => crash end.
(** A pure computation that may panic. *)
Definition pure {A} (r : Run A) : Prog A := fun w => let! a := r in Done (a, w).

(** ** The page's socket *)

Definition PAGE_PORT : Z := 3.
Definition page_bind : Prog Z := expect (call PingApi.UdpBind).
Definition send_raw (page : Z) (dgram : bytes) : Prog unit := expect (call (PingApi.SendTo page dgram PAGE_PORT)).
Definition page_event (page : Z) (t : string) (fields : list string) : Prog unit := send_raw page (event t fields).

(** ** The overlay's client *)

Definition OVERLAY_PORT : Z := 2.
Definition overlay_register (fuel : nat) (endpoint : Z) : Prog (Z * SocketAddr) :=
  let* sockets := call (PingApi.BoundSockets endpoint) in
  let* udp_port := expect_some (ret (ipv4_port sockets)) in
  let* sock := expect (call PingApi.UdpBind) in
  let* id := call (PingApi.EndpointId endpoint) in
  let* _ := expect (call (PingApi.SendTo sock (register_frame id udp_port) OVERLAY_PORT)) in
  loop fuel (fun _ =>
    let* dgram := expect (call (PingApi.RecvFrom sock 64)) in
    ret (match assigned dgram with Some addr => inr (sock, addr) | None => inl tt end)) tt.

Definition overlay_ready (fuel : nat) (sock : Z) : Prog unit :=
  loop fuel (fun _ =>
    let* dgram := expect (call (PingApi.RecvFrom sock 64)) in
    ret (match dgram with
         | tag :: _ => if b2z tag =? TAG_READY then inr tt else inl tt
         | [] => inl tt
         end)) tt.

(** One turn of the readiness task. *)
Definition overlay_turn (fuel : nat) (endpoint sock : Z) (addr : SocketAddr) (page : Z) : Prog unit :=
  let* _ := overlay_ready fuel sock in
  let* _ := call (PingApi.AddExternalAddr endpoint addr) in
  page_event page "overlay" [text_field "state" "added"].

(** ** A session *)

(** The joiner opens the ferry stream and writes an empty frame; the host accepts
    it. *)
Definition open_streams (conn : Z) (host : bool) : Prog (option (Z * Z)) :=
  if host then
    let* r := call (PingApi.AcceptBi conn) in
    ret (match r with Ok streams => Some streams | Err _ => None end)
  else
    let* r := call (PingApi.OpenBi conn) in
    match r with
    | Ok (send, recv) =>
        let* w := call (PingApi.WriteAll send (be16 0)) in
        ret (match w with Ok _ => Some (send, recv) | Err _ => None end)
    | Err _ => ret None
    end.

(** A complete upload goes to the store, and its hash or the failure to the
    page. *)
Definition store_upload (page store : Z) (u : Upload) : Prog unit :=
  let* r := call (PingApi.AddBytes store (u_buf u)) in
  match r with
  | Ok hash => page_event page "added" [number_field "id" (u_id u); text_field "hash" hash;
                                        number_field "size" (u_size u)]
  | Err err => page_event page "file-error" [text_field "msg" ("add: " +:+ err)]
  end.

(** One turn of the select: the upload in progress, or the session's end. *)
Definition session_body (page endpoint store conn : Z) (remote : array 32) (send : Z) (up : option Upload)
    : Prog (option Upload + Exit) :=
  let* turn := call (PingApi.PageOrClosed page conn MAX_FRAME) in
  match turn with
  | None => ret (inr ConnClosed)
  | Some received =>
      let* dgram := expect (ret received) in
      let dgram := received_in MAX_FRAME dgram in
      match dgram with
      | [] => let* _ := call (PingApi.CloseConn conn 0 (str_bytes "bye")) in ret (inr Bye)
      | tag :: rest =>
          if b2z tag =? TAG_UP_CHUNK then
            match up with
            | None => ret (inl None)
            | Some u =>
                let u := u <| u_buf ::= fun b => b ++ rest |> in
                if u_size u <=? Z.of_nat (length (u_buf u)) then
                  let* _ := store_upload page store u in ret (inl None)
                else ret (inl (Some u))
            end
          else match parse_command dgram with
               | Some (Send id name size) =>
                   let* _ := pure (with_capacity size) in ret (inl (Some (MkUpload id name size [])))
               | Some (Fetch hash size) =>
                   let* _ := call (PingApi.SpawnFetch endpoint store remote hash size page) in ret (inl up)
               | None =>
                   let* w := call (PingApi.WriteAll send (be16 (Z.of_nat (length dgram)))) in
                   match w with
                   | Err _ => ret (inr StreamFailed)
                   | Ok _ =>
                       let* w := call (PingApi.WriteAll send dgram) in
                       ret (match w with Err _ => inr StreamFailed | Ok _ => inl up end)
                   end
               end
      end
  end.

Definition session (fuel : nat) (page endpoint store conn : Z) (host : bool) : Prog unit :=
  let* remote := call (PingApi.RemoteId conn) in
  let* _ := page_event page "connected" [text_field "peer" (show_id remote)] in
  let* streams := open_streams conn host in
  match streams with
  | None => ret tt
  | Some (send, recv) =>
      let* reader := call (PingApi.SpawnReader recv page) in
      let* watcher := call (PingApi.SpawnWatcher conn page) in
      let* _ := loop fuel (session_body page endpoint store conn remote send) None in
      let* _ := call (PingApi.Abort reader) in
      call (PingApi.Abort watcher)
  end.

(** The reader task's turn, and the watcher's. *)
Definition reader_turn (recv page : Z) : Prog (unit + unit) :=
  let* len := call (PingApi.ReadExact recv 2) in
  match len with
  | Err _ => ret (inr tt)
  | Ok len =>
      let n := Z.to_nat (be_value len) in
      if (MAX_FRAME <? n)%nat then ret (inr tt)
      else
        let* r := call (PingApi.ReadExact recv n) in
        match r with
        | Err _ => ret (inr tt)
        | Ok frame => let* _ := send_raw page frame in ret (inl tt)
        end
  end.

Definition watcher_turn (conn page : Z) (last : string * Z) : Prog (string * Z) :=
  let* paths := call (PingApi.Paths conn) in
  let '(last, report) := watch_turn last paths in
  let* _ := match report with Some e => send_raw page e | None => ret tt end in
  let* _ := call (PingApi.Sleep (from_millis 500)) in
  ret last.

(** ** [run] *)

Definition env_var (name : string) : Prog (option string) :=
  let* v := call (PingApi.EnvVar name) in
  ret (v ← v; if (v =? "")%string then None else Some v).

(** The acceptor task's turn; [busy] is read for a connection the host could
    take. *)
Definition acceptor_turn (endpoint store : Z) (host : bool) : Prog (unit + unit) :=
  let* incoming := call (PingApi.Accept endpoint) in
  match incoming with
  | None => ret (inr tt)
  | Some incoming =>
      let* conn := call (PingApi.Handshake incoming) in
      match conn with
      | Err _ => ret (inl tt)
      | Ok conn =>
          let* alpn := call (PingApi.Alpn conn) in
          if decide (alpn = blobs_alpn) then
            let* _ := call (PingApi.SpawnBlobs store conn) in ret (inl tt)
          else
            let* full := if host then call PingApi.LoadBusy else ret true in
            let* _ := if full : bool then call (PingApi.CloseConn conn 1 (str_bytes "session full"))
                      else call (PingApi.SendSession conn) in
            ret (inl tt)
      end
  end.

Definition relay_of (addrs : list PingApi.Addr) : string :=
  default ""%string (head (omap (fun a => match a with PingApi.AtRelay url => Some url | PingApi.Elsewhere => None end) addrs)).

(** Up to the session loop: the page's socket, the endpoint, the store, and
    whether this is the host. *)
Definition startup (fuel : nat) : Prog (Z * Z * Z * bool) :=
  let* page := page_bind in
  let* role := env_var "ROLE" in
  let host := (default "host" role =? "host")%string in
  let* relay := env_var "RELAY" in
  let* mode := match relay with
               | Some url => let* u := expect_some (call (PingApi.ParseRelayUrl url)) in ret (Some u)
               | None => ret None
               end in
  let* text := env_var "SECRET" in
  let* parsed := match text with Some hex => pure (parse_secret hex) | None => ret None end in
  let* secret := match parsed with Some key => ret key | None => call PingApi.GenerateSecret end in
  let* endpoint := expect (call (PingApi.BindEndpoint secret mode IDLE_TIMEOUT (alpns blobs_alpn host))) in
  let* store := call PingApi.MemStore in
  let* (sock, addr) := overlay_register fuel endpoint in
  let* relay_url := if host then
                      let* _ := call (PingApi.Online endpoint) in
                      let* addrs := call (PingApi.Addrs endpoint) in ret (relay_of addrs)
                    else ret ""%string in
  let* id := call (PingApi.EndpointId endpoint) in
  let* _ := send_raw page (ready_event (show_id id) relay_url) in
  let* _ := call (PingApi.SpawnOverlay endpoint sock addr page) in
  let* _ := call (PingApi.SpawnAcceptor endpoint store host) in
  ret (page, endpoint, store, host).

(** A turn of the host's session loop; it ends when the acceptor has. *)
Definition host_turn (fuel : nat) (page endpoint store : Z) : Prog (unit + unit) :=
  let* next := call PingApi.RecvSession in
  match next with
  | None => ret (inr tt)
  | Some conn =>
      let* _ := call (PingApi.StoreBusy true) in
      let* _ := session fuel page endpoint store conn true in
      let* _ := call (PingApi.StoreBusy false) in
      let* _ := page_event page "closed" [] in
      ret (inl tt)
  end.

(** Whom the joiner dials. *)
Definition peer_of_env : Prog (array 32 * string) :=
  let* peer := expect_some (env_var "PEER") in
  let* peer := expect_some (call (PingApi.ParseEndpointId peer)) in
  let* relay := expect_some (env_var "PEER_RELAY") in
  let* relay := expect_some (call (PingApi.ParseRelayUrl relay)) in
  ret (peer, relay).

(** A turn of the joiner's loop. *)
Definition joiner_turn (fuel : nat) (page endpoint store : Z) (peer : array 32) (relay : string)
    : Prog (unit + unit) :=
  let* dialed := call (PingApi.Dial endpoint peer relay ALPN DIAL_TIMEOUT) in
  let* _ := match dialed with
            | Some (Ok conn) =>
                let* _ := session fuel page endpoint store conn false in page_event page "closed" []
            | _ => ret tt
            end in
  let* _ := call (PingApi.Sleep REDIAL_DELAY) in
  ret (inl tt).

Definition run (fuel : nat) : Prog unit :=
  let* (page, endpoint, store, host) := startup fuel in
  if host : bool then loop fuel (fun _ => host_turn fuel page endpoint store) tt
  else
    let* (peer, relay) := peer_of_env in
    loop fuel (fun _ => joiner_turn fuel page endpoint store peer relay) tt.
End Tasks.

(** ** What the tasks put out *)

Definition page_of (o : Prog.Obs ping_api) : option bytes :=
  let '(existT c r) := o in
  match c return PingApi.answer c -> option bytes with
  | PingApi.SendTo _ dgram port => fun r =>
      match r with Ok _ => if port =? PAGE_PORT then Some dgram else None | Err _ => None end
  | _ => fun _ => None
  end r.
Definition peer_of (o : Prog.Obs ping_api) : option bytes :=
  let '(existT c r) := o in
  match c return PingApi.answer c -> option bytes with
  | PingApi.WriteAll _ data => fun r => match r with Ok _ => Some data | Err _ => None end
  | _ => fun _ => None
  end r.
Definition stored_of (o : Prog.Obs ping_api) : option bytes :=
  match projT1 o with PingApi.AddBytes _ content => Some content | _ => None end.
Definition fetch_of (o : Prog.Obs ping_api) : option (string * Z) :=
  match projT1 o with PingApi.SpawnFetch _ _ _ hash size _ => Some (hash, size) | _ => None end.

(** What the page was heard to say, and what a turn hears. *)
Definition heard_of (o : Prog.Obs ping_api) : option bytes :=
  let '(existT c r) := o in
  match c return PingApi.answer c -> option bytes with
  | PingApi.PageOrClosed _ _ _ => fun r => match r with Some (Ok dgram) => Some dgram | _ => None end
  | _ => fun _ => None
  end r.
Definition hears (turn : Turn) : option bytes :=
  match turn with FromPage dgram _ _ => Some dgram | PingDemo.Closed => None end.

(** The store answers as [add_bytes] does. *)
Definition store_is (add_bytes : bytes -> Result string string) (o : Prog.Obs ping_api) : Prop :=
  let '(existT c r) := o in
  match c return PingApi.answer c -> Prop with
  | PingApi.AddBytes _ content => fun r => r = add_bytes content
  | _ => fun _ => True
  end r.

Section SessionTheory.
Context {H : Prog.Host ping_api}.
Context (show_id : array 32 -> string) (parse_command : bytes -> option PageCommand) (blobs_alpn : bytes).
Context (add_bytes : bytes -> Result string string).

(** The session's record has taken up what the calls [t] put out. *)
Record puts_out (t : list (Prog.Obs ping_api)) (s s' : Session) : Prop := {
  po_page : to_page s' = to_page s ++ omap page_of t;
  po_peer : to_peer s' = to_peer s ++ concat (omap peer_of t);
  po_stored : stored s' = stored s ++ omap stored_of t;
  po_fetches : fetches s' = fetches s ++ omap fetch_of t;
}.

Lemma puts_out_app t1 t2 s1 s2 s3 : puts_out t1 s1 s2 -> puts_out t2 s2 s3 -> puts_out (t1 ++ t2) s1 s3.
Proof.
  intros [P1 Q1 S1 F1] [P2 Q2 S2 F2]. split; rewrite ?P2, ?Q2, ?S2, ?F2, ?P1, ?Q1, ?S1, ?F1, omap_app, ?concat_app;
    by rewrite app_assoc.
Qed.

Lemma ping_ensures_expect {A} (m : Prog (Result A string)) (Q : A -> list (Prog.Obs ping_api) -> Prop) :
  ensures_ok m Q -> ensures (expect m) Q.
Proof.
  intros Hm. apply ensures_bind. eapply ensures_mono; [exact Hm|]. intros [a|e] t HQ; [|done].
  apply ensures_ret. by rewrite app_nil_r.
Qed.

Lemma ensures_event page t fields (Q : unit -> list (Prog.Obs ping_api) -> Prop) :
  Q tt [obs (PingApi.SendTo page (event t fields) PAGE_PORT : ping_api) (Ok tt)] -> ensures (page_event page t fields) Q.
Proof. intros HQ. apply ping_ensures_expect. call_step. by intros [[]|e]. Qed.

(** A turn of the program is a turn of the ferry. *)
Definition turn_done (up : option Upload) (r : option Upload + Exit) (t : list (Prog.Obs ping_api)) : Prop :=
  Forall (store_is add_bytes) t -> forall s, upload s = up ->
  exists turn s', session_turn parse_command add_bytes turn s =
      Done (s', match r with inl _ => None | inr e => Some e end) /\
    omap hears [turn] = omap heard_of t /\ puts_out t s s' /\ (forall up', r = inl up' -> upload s' = up').

Lemma puts_nothing t s : omap page_of t = [] -> omap peer_of t = [] -> omap stored_of t = [] -> omap fetch_of t = [] ->
  puts_out t s s.
Proof. intros H1 H2 H3 H4. split; by rewrite ?H1, ?H2, ?H3, ?H4, app_nil_r. Qed.

Lemma store_upload_out page store u :
  ensures (store_upload page store u) (fun _ t => omap heard_of t = [] /\ (Forall (store_is add_bytes) t ->
    forall s, puts_out t s (finish_upload add_bytes u s))).
Proof.
  unfold store_upload. apply ensures_bind. call_step. intros r. destruct r as [hash|e]; apply ensures_event;
    (split; [done|]); intros [Hr _]%Forall_cons s; cbn in Hr; (split; simpl; [by rewrite <- Hr|by rewrite app_nil_r|done|by rewrite app_nil_r]).
Qed.

Lemma session_body_turn page endpoint store conn remote send up :
  ensures (session_body parse_command page endpoint store conn remote send up) (turn_done up).
Proof.
  unfold session_body. apply ensures_bind. call_step. intros [[dgram|e]|]; [|by apply ensures_bind, ping_ensures_expect, ensures_ret|].
  2: { apply ensures_ret. intros _ s Hs. exists PingDemo.Closed, s. split_and!; [done|done|by apply puts_nothing|done]. }
  apply ensures_bind, ping_ensures_expect, ensures_ret. cbv zeta.
  destruct (received_in MAX_FRAME dgram) as [|tag rest] eqn:Hd.
  { apply ensures_bind. call_step. intros []. apply ensures_ret. intros _ s Hs. exists (FromPage dgram true true), s.
    cbn [session_turn]. rewrite Hd. split_and!; [done|done|by apply puts_nothing|done]. }
  destruct (b2z tag =? TAG_UP_CHUNK) eqn:Ht.
  - destruct up as [u|].
    2: { apply ensures_ret. intros _ s Hs. exists (FromPage dgram true true), s. cbn [session_turn]. rewrite Hd, Ht.
         unfold on_chunk. rewrite Hs. split_and!; [done|done|by apply puts_nothing|by intros ? [= <-]]. }
    destruct (u_size (u <| u_buf ::= fun b => b ++ rest |>)
      <=? Z.of_nat (length (u_buf (u <| u_buf ::= fun b => b ++ rest |>)))) eqn:Hsz.
    + apply ensures_bind. eapply ensures_mono; [apply store_upload_out|]. intros [] t [Hnone Hout]. apply ensures_ret.
      intros Hst s Hs. exists (FromPage dgram true true). eexists. cbn [session_turn]. rewrite Hd, Ht.
      unfold on_chunk. rewrite Hs, Hsz. split; [done|]. split; [cbn; by rewrite omap_app, Hnone|]. split; [|by intros ? [= <-]].
      apply Forall_cons in Hst as [_ Hst]. rewrite app_nil_r in *. apply (puts_out_app [_] t s s); [by apply puts_nothing|by apply Hout].
    + apply ensures_ret. intros _ s Hs. exists (FromPage dgram true true). eexists. cbn [session_turn]. rewrite Hd, Ht.
      unfold on_chunk. rewrite Hs, Hsz. split; [done|]. split; [done|]. split; [by split; rewrite ?app_nil_r|by intros ? [= <-]].
  - destruct (parse_command (tag :: rest)) as [[id name size|hash size]|] eqn:Hp.
    + unfold pure. intros w r w'. unfold bind. destruct (with_capacity size) as [[]| |] eqn:Hc; simpl; [|done..].
      intros [= <- <-]. exists []. split; [by rewrite app_nil_r|]. intros _ s Hs. exists (FromPage dgram true true).
      eexists. cbn [session_turn]. rewrite Hd, Ht, Hp. cbn [on_command]. rewrite Hc. cbn [run_bind].
      split; [done|]. split; [done|]. split; [by split; rewrite ?app_nil_r|by intros ? [= <-]].
    + apply ensures_bind. call_step. intros task. apply ensures_ret. intros _ s Hs. exists (FromPage dgram true true).
      eexists. cbn [session_turn]. rewrite Hd, Ht, Hp. cbn [on_command run_bind].
      split; [done|]. split; [done|]. split; [by split; simpl; rewrite ?app_nil_r|by intros ? [= <-]].
    + apply ensures_bind. call_step. intros [[]|e1].
      2: { apply ensures_ret. intros _ s Hs. exists (FromPage dgram false false), s. cbn [session_turn].
           rewrite Hd, Ht, Hp. split_and!; [done|done|by apply puts_nothing|done]. }
      apply ensures_bind. call_step. intros [[]|e2]; apply ensures_ret; intros _ s Hs;
        [exists (FromPage dgram true true)|exists (FromPage dgram true false)]; eexists; cbn [session_turn];
        rewrite Hd, Ht, Hp; cbn [forward]; (split; [done|]); (split; [done|]).
      * split; [split; simpl; rewrite ?app_nil_r; [done|by rewrite <- app_assoc|done..]|by intros ? [= <-]].
      * split; [by split; simpl; rewrite ?app_nil_r|done].
Qed.

Lemma session_loop_ferry fuel page endpoint store conn remote send up :
  ensures (loop fuel (session_body parse_command page endpoint store conn remote send) up) (fun e t =>
    Forall (store_is add_bytes) t -> forall s, upload s = up ->
    exists turns s', ferry parse_command add_bytes turns s = Done (s', Some e) /\
      omap hears turns = omap heard_of t /\ puts_out t s s').
Proof.
  revert up. induction fuel as [|fuel IH]; intros up; [done|]. cbn [loop]. apply ensures_bind.
  eapply ensures_mono; [apply session_body_turn|]. intros [up'|e] t1 Hturn.
  - eapply ensures_mono; [apply IH|]. intros e t2 Hrest [Hst1 Hst2]%Forall_app s Hs.
    destruct (Hturn Hst1 s Hs) as (turn & s1 & Hrun & Hh1 & Hp1 & Hup).
    destruct (Hrest Hst2 s1 (Hup _ eq_refl)) as (turns & s2 & Hf & Hh2 & Hp2).
    exists (turn :: turns), s2. cbn [ferry]. rewrite Hrun. cbn [run_bind]. split; [done|].
    split; [by rewrite omap_app, <- Hh1, <- Hh2, <- omap_app|by eapply puts_out_app].
  - apply ensures_ret. rewrite app_nil_r. intros Hst s Hs. destruct (Hturn Hst s Hs) as (turn & s1 & Hrun & Hh1 & Hp1 & _).
    exists [turn], s1. cbn [ferry]. by rewrite Hrun.
Qed.

Lemma open_streams_opening conn host :
  ensures (open_streams conn host) (fun r t => exists accepted opened written,
    open_ferry host accepted opened written = match r with Some _ => Some (concat (omap peer_of t)) | None => None end /\
    omap page_of t = [] /\ omap stored_of t = [] /\ omap fetch_of t = [] /\ omap heard_of t = [] /\
    (r = None -> omap peer_of t = [])).
Proof.
  unfold open_streams. destruct host.
  - apply ensures_bind. call_step. intros [x|e]; apply ensures_ret; [by exists true, true, true|by exists false, true, true].
  - apply ensures_bind. call_step. intros [[send recv]|e]; [|apply ensures_ret; by exists true, false, true].
    apply ensures_bind. call_step. intros [[]|e]; apply ensures_ret; [by exists true, true, true|by exists true, true, false].
Qed.

(** *** A session is over when its page or its connection is *)

(** What a session's end rests on: the page's socket does not fail, and the page
    has only so many datagrams before the connection's end is seen. *)
Class PageLaws := {
  unpaged : Prog.World -> nat;
  unpaged_keeps (c : ping_api) w r w' : Prog.respond c w = (r, w') -> (unpaged w' <= unpaged w)%nat;
  paged page conn room w r w' :
    Prog.respond (PingApi.PageOrClosed page conn room : ping_api) w = (Some r, w') ->
    (unpaged w' < unpaged w)%nat /\ exists dgram, r = Ok dgram;
  page_sent sock dgram port w r w' : Prog.respond (PingApi.SendTo sock dgram port : ping_api) w = (r, w') -> r = Ok tt;
}.

Section Returns.
Context {P : PageLaws}.
Context (fits : forall b id name size, parse_command b = Some (Send id name size) -> with_capacity size = Done tt).

(** A program that returns, and gives the page no new datagrams. *)
Definition returns {A} (m : Prog A) : Prop :=
  forall w, exists a w', m w = Done (a, w') /\ (unpaged w'.1 <= unpaged w.1)%nat.

Lemma returns_ret {A} (a : A) : returns (ret a).
Proof. intros w. by exists a, w. Qed.

Lemma returns_call (c : ping_api) : returns (call c).
Proof.
  intros w. unfold call. destruct (Prog.respond c w.1) as [r w'] eqn:E. eexists r, _. split; [done|].
  by apply (unpaged_keeps c) with r.
Qed.

Lemma returns_bind {A B} (m : Prog A) (k : A -> Prog B) : returns m -> (forall a, returns (k a)) -> returns (bind m k).
Proof.
  intros Hm Hk w. destruct (Hm w) as (a & w1 & E1 & L1). destruct (Hk a w1) as (b & w2 & E2 & L2).
  exists b, w2. unfold bind. rewrite E1. cbn [run_bind]. split; [done|lia].
Qed.

Lemma returns_pure {A} (r : Run A) a : r = Done a -> returns (pure r).
Proof. intros -> w. by exists a, w. Qed.

Lemma returns_event page t fields : returns (page_event page t fields).
Proof.
  intros w. unfold page_event, send_raw, expect, bind, call.
  destruct (Prog.respond (PingApi.SendTo page (event t fields) PAGE_PORT : ping_api) w.1) as [r w'] eqn:E. simpl.
  rewrite (page_sent _ _ _ _ _ _ E). eexists tt, _. split; [done|]. simpl.
  exact (unpaged_keeps _ _ _ _ E).
Qed.

Ltac returning :=
  repeat lazymatch goal with
  | |- returns (ret _) => apply returns_ret
  | |- returns (page_event _ _ _) => apply returns_event
  | |- returns (bind _ _) => apply returns_bind
  | |- returns (call ?c) => refine (returns_call c)
  | |- returns (match ?x with _ => _ end) => destruct x eqn:?
  | |- forall _, returns _ => intros ?
  end.

Lemma session_body_returns page endpoint store conn remote send up w : exists r w',
  session_body parse_command page endpoint store conn remote send up w = Done (r, w') /\
  forall up', r = inl up' -> (unpaged w'.1 < unpaged w.1)%nat.
Proof.
  unfold session_body, bind at 1, call at 1.
  destruct (Prog.respond (PingApi.PageOrClosed page conn MAX_FRAME : ping_api) w.1) as [[received|] w1] eqn:E; cbn [run_bind].
  2: { eexists (inr ConnClosed), _. by split. }
  destruct (paged _ _ _ _ _ _ E) as [Hlt [dgram ->]].
  match goal with |- exists r w', ?m ?w2 = _ /\ _ => assert (returns m) as Hm end.
  - apply returns_bind; [apply (returns_ret dgram)|intros d]. unfold store_upload. cbv zeta. returning. by eapply returns_pure, fits.
  - match goal with |- exists r w', ?m ?w2 = _ /\ _ => destruct (Hm w2) as (r & w' & Hr & Hle) end.
    exists r, w'. split; [done|]. intros _ _. simpl in Hle. lia.
Qed.

Lemma session_halts page endpoint store conn host w :
  halts (fun fuel => session show_id parse_command fuel page endpoint store conn host) w.
Proof.
  assert (forall A (m : Prog A) w, returns m -> halts (fun _ => m) w) as Hret.
  { intros A m w0 Hm. destruct (Hm w0) as (a & w' & E & _). by exists 0%nat, (a, w'). }
  unfold session. apply (halts_bind (fun _ => call (PingApi.RemoteId conn : ping_api)) (fun n remote => _)).
  { apply Hret. refine (returns_call _). }
  intros remote w1. apply (halts_bind (fun _ => _) (fun n _ => _)); [apply Hret, returns_event|]. intros _ w2.
  apply (halts_bind (fun _ => _) (fun n streams => _)).
  { apply Hret. unfold open_streams. returning. }
  intros [[send recv]|] w3; [|apply halts_ret].
  apply (halts_bind (fun _ => call (PingApi.SpawnReader recv page : ping_api)) (fun n reader => _)).
  { apply Hret. refine (returns_call _). }
  intros reader w4. apply (halts_bind (fun _ => call (PingApi.SpawnWatcher conn page : ping_api)) (fun n watcher => _)).
  { apply Hret. refine (returns_call _). }
  intros watcher w5. apply (halts_bind (fun n => loop n _ _) (fun n _ => _)).
  { apply (loop_halts _ unpaged). intros up w6. apply session_body_returns. }
  intros e w7. apply Hret. returning.
Qed.
End Returns.

End SessionTheory.

(** ** The order of [run] *)

Inductive Milestone :=
| BoundWith (secret : bytes) (relay : option string) (protocols : list bytes)
| WentOnline
| Told (dgram : bytes)
| Watching (addr : SocketAddr)
| Accepting (host : bool)
| Dialing (peer : array 32) (relay : string) (alpn : bytes) (within : Duration)
| Busy (b : bool)
| Slept (d : Duration).

Definition milestone (o : Prog.Obs ping_api) : option Milestone :=
  match projT1 o with
  | PingApi.BindEndpoint secret relay _ protocols => Some (BoundWith secret relay protocols)
  | PingApi.Online _ => Some WentOnline
  | PingApi.SendTo _ dgram port => if port =? PAGE_PORT then Some (Told dgram) else None
  | PingApi.SpawnOverlay _ _ addr _ => Some (Watching addr)
  | PingApi.SpawnAcceptor _ _ host => Some (Accepting host)
  | PingApi.Dial _ peer relay alpn within => Some (Dialing peer relay alpn within)
  | PingApi.StoreBusy b => Some (Busy b)
  | PingApi.Sleep d => Some (Slept d)
  | _ => None
  end.

Section RunTheory.
Context {H : Prog.Host ping_api}.
Context (show_id : array 32 -> string) (parse_command : bytes -> option PageCommand) (blobs_alpn : bytes).

Lemma ping_leaves_expect {X A} (f : Prog.Obs ping_api -> option X) (m : Prog (Result A string)) l :
  leaves f m l -> leaves f (expect m) l.
Proof. intros Hm. apply ping_ensures_expect. eapply ensures_mono; [exact Hm|]. by intros [a|e]. Qed.
Lemma ping_leaves_expect_some {X A} (f : Prog.Obs ping_api -> option X) (m : Prog (option A)) :
  leaves f m [] -> leaves f (expect_some m) [].
Proof. intros Hm. apply leaves_bind_nil; [done|]. intros [a|]; [apply leaves_ret|done]. Qed.
Lemma leaves_pure {X A} (f : Prog.Obs ping_api -> option X) (r : Run A) : leaves f (pure r) [].
Proof. intros w a w'. unfold pure. destruct r; [|done..]. intros [= <- <-]. exists []. by rewrite app_nil_r. Qed.

Ltac quiet :=
  repeat (leaves_nil; lazymatch goal with
  | |- leaves _ (expect _) _ => apply ping_leaves_expect
  | |- leaves _ (expect_some _) _ => apply ping_leaves_expect_some
  | |- leaves _ (pure _) _ => apply leaves_pure
  | |- leaves _ (if ?b then _ else _) _ => destruct b
  | |- leaves _ (match ?p with _ => _ end) _ => destruct p
  end); leaves_nil.

Lemma env_var_quiet name : leaves milestone (env_var name) [].
Proof. unfold env_var. quiet. Qed.
Lemma ping_register_quiet fuel endpoint : leaves milestone (overlay_register fuel endpoint) [].
Proof. unfold overlay_register. quiet. Qed.

(** A call that is a milestone. *)
Ltac mark x :=
  eapply (seen_as_leaves milestone _ [x]);
  [try apply ping_leaves_expect; lazymatch goal with |- leaves _ (call ?c) _ => refine (leaves_one milestone c x _) end;
   intros ?; reflexivity|intros ?; cbn [app]].
Tactic Notation "skip" simple_intropattern(p) :=
  apply seen_as_skip; [first [apply env_var_quiet | apply ping_register_quiet | unfold page_bind; quiet] | intros p].

(** Starting: the endpoint is bound once, for the protocols its role accepts; the
    host goes online before the page is told that it is ready, which happens
    exactly once; and only then are the tasks spawned that watch the overlay and
    accept connections, the acceptor in the role the loop will have. *)
Theorem startup_order fuel :
  ensures (startup show_id blobs_alpn fuel) (fun started t => let host := started.2 in
    exists secret relay id url addr,
      omap milestone t = BoundWith secret relay (alpns blobs_alpn host) ::
        (if host then [WentOnline] else []) ++ [Told (ready_event id url); Watching addr; Accepting host]).
Proof.
  set (Q := fun (started : Z * Z * Z * bool) l => let host := started.2 in exists secret relay id url addr,
    l = BoundWith secret relay (alpns blobs_alpn host) ::
        (if host then [WentOnline] else []) ++ [Told (ready_event id url); Watching addr; Accepting host]).
  change (seen_as milestone [] (startup show_id blobs_alpn fuel) Q).
  unfold startup. skip page. skip role. cbv zeta. set (host := (default "host" role =? "host")%string).
  skip relay. skip mode. skip text. skip parsed. skip secret.
  mark (BoundWith secret mode (alpns blobs_alpn host)). skip store. skip [sock addr].
  eapply (seen_as_leaves milestone _ (if host then [WentOnline] else [])).
  { destruct host; [|quiet]. eapply (leaves_bind milestone _ _ [WentOnline]); [|intros ?; quiet].
    by refine (leaves_one milestone (PingApi.Online _ : ping_api) WentOnline _). }
  intros url. skip id. unfold send_raw. mark (Told (ready_event (show_id id) url)).
  mark (Watching addr). mark (Accepting host). apply seen_as_ret.
  exists secret, mode, (show_id id), url, addr. simpl. by destruct host.
Qed.

(** The milestones but for what the page is told. *)
Definition beat (o : Prog.Obs ping_api) : option Milestone :=
  m ← milestone o; match m with Told _ => None | m => Some m end.

Lemma event_quiet page t fields : leaves beat (page_event page t fields) [].
Proof.
  unfold page_event, send_raw. apply ping_leaves_expect.
  refine (leaves_call beat (PingApi.SendTo page (event t fields) PAGE_PORT : ping_api) _). by intros r.
Qed.

Lemma store_upload_quiet page store u : leaves beat (store_upload page store u) [].
Proof. unfold store_upload. leaves_nil. destruct a; apply event_quiet. Qed.

Lemma session_quiet fuel page endpoint store conn host :
  leaves beat (session show_id parse_command fuel page endpoint store conn host) [].
Proof.
  unfold session, open_streams. leaves_nil; try apply event_quiet.
  - destruct host; quiet.
  - destruct a1 as [[send recv]|]; [|quiet]. leaves_nil. unfold session_body. quiet.
    apply store_upload_quiet.
Qed.

(** The session loops: each turn of the joiner's dials the environment's peer at
    its relay for the ferry's protocol, within ten seconds, once, and then waits
    two seconds, whatever the dial and the session came to, and never ends; each
    session the host takes up raises the busy flag before it and lowers it after,
    and the loop ends only when no more can come. *)
Theorem session_loops fuel page endpoint store peer relay :
  ensures (joiner_turn show_id parse_command fuel page endpoint store peer relay) (fun r t =>
    r = inl tt /\ omap beat t = [Dialing peer relay ALPN DIAL_TIMEOUT; Slept REDIAL_DELAY]) /\
  ensures (host_turn show_id parse_command fuel page endpoint store) (fun r t =>
    omap beat t = match r with inl _ => [Busy true; Busy false] | inr _ => [] end).
Proof.
  split.
  - set (Q := fun (r : unit + unit) l => r = inl tt /\ l = [Dialing peer relay ALPN DIAL_TIMEOUT; Slept REDIAL_DELAY]).
    change (seen_as beat [] (joiner_turn show_id parse_command fuel page endpoint store peer relay) Q).
    unfold joiner_turn. eapply (seen_as_leaves beat _ [Dialing peer relay ALPN DIAL_TIMEOUT]).
    { by refine (leaves_one beat (PingApi.Dial _ _ _ _ _ : ping_api) _ _). }
    intros dialed. apply seen_as_skip.
    { destruct dialed as [[conn|e]|]; leaves_nil; [apply session_quiet|apply event_quiet]. }
    intros _. eapply (seen_as_leaves beat _ [Slept REDIAL_DELAY]).
    { by refine (leaves_one beat (PingApi.Sleep _ : ping_api) _ _). }
    intros _. by apply seen_as_ret.
  - set (Q := fun (r : unit + unit) l => l = match r with inl _ => [Busy true; Busy false] | inr _ => [] end).
    change (seen_as beat [] (host_turn show_id parse_command fuel page endpoint store) Q).
    unfold host_turn. apply seen_as_skip; [quiet|]. intros [conn|]; [|by apply seen_as_ret].
    eapply (seen_as_leaves beat _ [Busy true]).
    { by refine (leaves_one beat (PingApi.StoreBusy _ : ping_api) _ _). }
    intros _. apply seen_as_skip; [apply session_quiet|]. intros _. eapply (seen_as_leaves beat _ [Busy false]).
    { by refine (leaves_one beat (PingApi.StoreBusy _ : ping_api) _ _). }
    intros _. apply seen_as_skip; [apply event_quiet|]. intros _. by apply seen_as_ret.
Qed.

(** What the acceptor did with a connection, on what it read. *)
Definition done_with (o : Prog.Obs ping_api) : option (Z * Verdict) :=
  match projT1 o with
  | PingApi.SpawnBlobs _ conn => Some (conn, ToBlobs)
  | PingApi.CloseConn conn _ _ => Some (conn, Refused)
  | PingApi.SendSession conn => Some (conn, ToSession)
  | _ => None
  end.
Definition alpn_of (o : Prog.Obs ping_api) : option bytes :=
  let '(existT c r) := o in
  match c return PingApi.answer c -> option bytes with PingApi.Alpn _ => Some | _ => fun _ => None end r.
Definition flag_of (o : Prog.Obs ping_api) : option bool :=
  let '(existT c r) := o in
  match c return PingApi.answer c -> option bool with PingApi.LoadBusy => Some | _ => fun _ => None end r.

(** The acceptor follows the hub: a connection that has completed its handshake
    goes where the hub's verdict for its protocol sends it, on the flag as it is
    read. *)
Theorem acceptor_follows_verdict endpoint store host :
  ensures (acceptor_turn blobs_alpn endpoint store host) (fun _ t =>
    omap done_with t = [] \/
    exists conn alpn flag, omap alpn_of t = [alpn] /\ (forall b, b ∈ omap flag_of t -> b = flag) /\
      forall h, is_host h = host -> busy h = flag -> omap done_with t = [(conn, verdict blobs_alpn alpn h)]).
Proof.
  unfold acceptor_turn. apply ensures_bind. call_step. intros [incoming|]; [|apply ensures_ret; by left].
  apply ensures_bind. call_step. intros [conn|e]; [|apply ensures_ret; by left].
  apply ensures_bind. call_step. intros alpn. unfold verdict. destruct (decide (alpn = blobs_alpn)) as [Ha|Ha].
  { apply ensures_bind. call_step. intros []. apply ensures_ret. right. exists conn, alpn, true. cbn.
    split_and!; [done|by intros b ?%elem_of_nil|]. intros h _ _. by rewrite decide_True. }
  apply ensures_bind. destruct host.
  - call_step. intros flag. apply ensures_bind. destruct flag; call_step; intros []; apply ensures_ret; right;
      [exists conn, alpn, true|exists conn, alpn, false]; cbn;
      (split_and!; [done|by intros b ->%list_elem_of_singleton|]; intros h -> ->; by rewrite decide_False).
  - apply ensures_ret. apply ensures_bind. call_step. intros []. apply ensures_ret. right.
    exists conn, alpn, true. cbn.
    split_and!; [done|by intros b ?%elem_of_nil|]. intros h -> _. by rewrite decide_False.
Qed.

(** The reader task's calls: what it read, and that [read_exact] yields as much as
    it is asked for (nothing, always). *)
Definition read_of (o : Prog.Obs ping_api) : option bytes :=
  let '(existT c r) := o in
  match c return PingApi.answer c -> option bytes with
  | PingApi.ReadExact _ _ => fun r => match r with Ok b => Some b | Err _ => None end
  | _ => fun _ => None
  end r.
Definition reads_exact (o : Prog.Obs ping_api) : Prop :=
  let '(existT c r) := o in
  match c return PingApi.answer c -> Prop with
  | PingApi.ReadExact _ n => fun r => match r with Ok b => length b = n | Err _ => n <> 0%nat end
  | _ => fun _ => True
  end r.

Lemma reader_step n len rest :
  length len = 2%nat ->
  reader (S n) (len ++ rest) =
    (let k := Z.to_nat (be_value len) in
     if (MAX_FRAME <? k)%nat || (length rest <? k)%nat then Done []
     else let! frames := reader n (drop k rest) in Done (take k rest :: frames)).
Proof.
  intros Hl. cbn [reader]. rewrite length_app, Hl. destruct (Nat.ltb_spec (2 + length rest) 2); [lia|].
  by rewrite (take_app_length' len _ 2), (drop_app_length' len _ 2) by done.
Qed.

(** What is left of a trace's head. *)
Ltac traced := cbn [app omap list_omap obs read_of page_of concat reads_exact] in *.

(** The reader task hands the page the frames of the bytes it has read: those of
    [reader], until the stream ends, fails, or is not framed. *)
Theorem reader_task_reads fuel recv page :
  ensures (loop fuel (fun _ => reader_turn recv page) tt) (fun _ t => Forall reads_exact t ->
    forall n, (length (concat (omap read_of t)) < n)%nat ->
    reader n (concat (omap read_of t)) = Done (omap page_of t)).
Proof.
  induction fuel as [|fuel IH]; [done|]. cbn [loop]. apply ensures_bind. unfold reader_turn at 1.
  apply ensures_bind. call_step. intros [len|e].
  2: { apply ensures_ret, ensures_ret. intros _ [|n] Hn; [lia|done]. }
  cbv zeta. destruct (Nat.ltb_spec MAX_FRAME (Z.to_nat (be_value len))) as [Hmax|Hmax].
  { apply ensures_ret, ensures_ret. intros [Hl _]%Forall_cons [|n] Hn; [lia|]. traced.
    rewrite reader_step by done. cbv zeta. by destruct (Nat.ltb_spec MAX_FRAME (Z.to_nat (be_value len))); [|lia]. }
  apply ensures_bind. call_step. intros [frame|e].
  2: { apply ensures_ret, ensures_ret. intros [Hl [Hz _]%Forall_cons]%Forall_cons [|n] Hn; [lia|]. traced.
       rewrite reader_step by done. cbv zeta. destruct (Nat.ltb_spec (length (@nil byte)) (Z.to_nat (be_value len)));
         [by rewrite orb_true_r|cbn [length] in *; lia]. }
  apply ensures_bind, ping_ensures_expect. call_step. intros [[]|e]; [|done]. apply ensures_ret.
  eapply ensures_mono; [exact IH|]. intros [] t Ht [Hl [Hf [_ Hex]%Forall_cons]%Forall_cons]%Forall_cons [|n] Hn; [lia|].
  traced. rewrite reader_step by done. cbv zeta. rewrite !length_app, Hl, Hf in *.
  destruct (Nat.ltb_spec MAX_FRAME (Z.to_nat (be_value len))); [lia|].
  destruct (Nat.ltb_spec (Z.to_nat (be_value len) + length (concat (omap read_of t))) (Z.to_nat (be_value len))); [lia|].
  cbn [orb]. rewrite take_app_length', drop_app_length' by done. rewrite Ht; [done|done|lia].
Qed.
End RunTheory.
