(* ===== verification/DemoProbes.v ===== *)
(** The demo's probes of the failure paths ([endpoint-demo/src/lib.rs]): the
    identity constructors' rejections, the stream-integrity suite of both
    roles, the accept backlog; and the demo's entry point. *)
From stdpp Require Import pretty.
From S2P Require Import Prelude RelayFrames Types Prog Demo.

Section Probes.
Context {H : Host}.
Context (dbg : forall A : Type, A -> string).
Context (hex_encode : bytes -> string) (hex_decode : string -> Result bytes string).
Context (upper_char : bytes -> bytes).

#[local] Abbreviation failing := (failing dbg).
#[local] Abbreviation read_all := (read_all dbg).
#[local] Abbreviation read_to_string := (read_to_string dbg).

(** A report that only says the probes passed. *)
Definition passed (endpoint_id peer_id path : string) (ms : Z) (what : string) : RunReport :=
  MkRunReport endpoint_id peer_id path ms 0 what None.

(** ** Identities *)

Definition mint (what : string) (c : Api.call) (r : Api.answer c -> Result (Z * Z) string)
    : Prog (Result (Z * Z) string) :=
  let* a := call c in ret (map_err (fun e => "mint " +:+ what +:+ ": " +:+ e) (r a)).
Definition mint_pair (what : string) : Prog (Result (Z * Z) string) :=
  mint what Api.GenerateEd25519 (fun r => r).

(** A pair that [from_keys] must reject as an invalid argument. *)
Definition expect_rejected (signing verifying : Z) (what : string) : Prog (Result unit string) :=
  let* r := call (Api.FromKeys signing verifying) in
  match r with
  | Err (InvalidArgument _) => ret (Ok tt)
  | Ok _ => fail_with ("from-keys accepted " +:+ what)
  | Err other => fail_with ("from-keys rejected " +:+ what +:+ " with the wrong error: " +:+ dbg Error other)
  end.

Definition run_identity_negative : Prog (Result RunReport string) :=
  try* (signing, verifying) := mint_pair "control pair" in
  let* exported := call (Api.ExportKeyRaw verifying) in
  try* expected := ret (map_err (fun e => "export control public key: " +:+ e) exported) in
  try* control := failing "from-keys (control)" (call (Api.FromKeys signing verifying)) in
  let* id := call (Api.IdentityId control) in
  if negb (bool_decide (id = expected)) then
    fail_with "control identity does not report the pair's public key"
  else
    try* (signing_a, _) := mint_pair "mismatch pair a" in
    try* (_, verifying_b) := mint_pair "mismatch pair b" in
    try* _ := expect_rejected signing_a verifying_b "a mismatched pair" in
    try* (signing, verifying) := mint "ecdsa pair" Api.GenerateEcdsaP256 (fun r => r) in
    try* _ := expect_rejected signing verifying "an ECDSA pair" in
    let* id := call (Api.IdentityId control) in
    ret (Ok (passed (hex_encode id) "" "" 0 "identity negative probes passed")).

(** ** The stream probes, client side *)

(** A dial that must not resolve within 100 ms. *)
Definition cancelled_dial (endpoint : Z) (absent : Z) (label : string) (addrs : list TransportAddr)
    (may_fail_fast : bool) : Prog (Result unit string) :=
  let* id := call (Api.IdentityId absent) in
  let* r := call (Api.ConnectFor 100000000 endpoint (MkEndpointAddr id addrs) ALPN) in
  match r with
  | None => ret (Ok tt)
  | Some (Ok _) => fail_with ("s0 " +:+ label +:+ ": the dial resolved")
  | Some (Err err) =>
      if may_fail_fast then ret (Ok tt)
      else fail_with ("s0 " +:+ label +:+ ": the dial failed early: " +:+ dbg Error err)
  end.

Definition probe_cancelled_dials (endpoint : Z) (config : RunConfig) : Prog (Result unit string) :=
  try* absent := failing "mint absent peer" (call Api.Generate) in
  try* _ := cancelled_dial endpoint absent "absent peer" [Relay (relay_url config)] false in
  cancelled_dial endpoint absent "blackhole relay" [Relay "http://203.0.113.1:9"] true.

(** Open a stream pair, send a request and finish it. *)
Definition request (conn : Z) (label : string) (data : bytes) : Prog (Result (Z * Z) string) :=
  try* (send, recv) := failing ("open-bi " +:+ label) (call (Api.OpenBi conn)) in
  try* _ := failing ("write " +:+ label) (call (Api.Write send data)) in
  try* _ := failing ("finish " +:+ label) (call (Api.Finish send)) in
  ret (Ok (send, recv)).

Definition is_reset {A} (code : Z) (r : Result A Error) : bool :=
  match r with Err (Reset c) => c =? code | _ => false end.
Definition is_in_use {A} (r : Result A Error) : bool :=
  match r with Err (InUse _) => true | _ => false end.

(** S1: a peer reset surfaces on [read], and is latched. *)
Definition probe_reset (fuel : nat) (conn : Z) : Prog (Result unit string) :=
  try* (send, recv) := request conn "s1" (str_bytes "reset-me") in
  let* r := read_until_terminal fuel recv in
  if is_reset STREAM_RESET_CODE r then
    let* again := call (Api.Read recv READ_MAX) in
    if is_reset STREAM_RESET_CODE again then ret (Ok tt)
    else fail_with ("s1: reset not latched; second read got " +:+ dbg (Result (option bytes) Error) again)
  else fail_with ("s1: expected reset " +:+ pretty STREAM_RESET_CODE +:+ ", got " +:+ dbg (Result unit Error) r).

(** S2: the FIN resolves [read-via-stream]'s future ok. *)
Definition probe_via_fin (fuel : nat) (conn : Z) : Prog (Result unit string) :=
  try* (send, recv) := request conn "s2" (str_bytes "fin-me") in
  try* data := failing "read-via-stream s2" (call (Api.ReadVia recv)) in
  let* got := drain fuel data [] in
  let* done := call (Api.DataDone data) in
  match done with
  | Ok _ =>
      if decide (got = str_bytes "fin") then ret (Ok tt)
      else fail_with ("s2: clean end with wrong bytes: " +:+ dbg bytes got)
  | Err err => fail_with ("s2: expected a clean end, got " +:+ dbg Error err)
  end.

(** S3: a reset resolves the future with it. *)
Definition probe_via_reset (fuel : nat) (conn : Z) : Prog (Result unit string) :=
  try* (send, recv) := request conn "s3" (str_bytes "reset-stream-me") in
  try* data := failing "read-via-stream s3" (call (Api.ReadVia recv)) in
  let* _ := drain fuel data [] in
  let* done := call (Api.DataDone data) in
  if is_reset STREAM_VIA_RESET_CODE done then ret (Ok tt)
  else fail_with ("s3: expected reset " +:+ pretty STREAM_VIA_RESET_CODE +:+ ", got "
                  +:+ dbg (Result unit Error) done).

(** S3b: [write-via-stream] delivers the payload. *)
Definition probe_write_via (fuel : nat) (conn : Z) : Prog (Result unit string) :=
  try* (send, recv) := failing "open-bi s3b" (call (Api.OpenBi conn)) in
  let* (fed, sent) := call (Api.WriteVia send (patterned VIA_STREAM_BYTES)) in
  if negb fed then fail_with "s3b: the data stream was dropped before the payload ended"
  else
    try* _ := ret (map_err (fail dbg "write-via-stream s3b") sent) in
    try* acked := read_to_string fuel recv in
    if decide (acked = pretty VIA_STREAM_BYTES) then ret (Ok tt)
    else fail_with ("s3b: expected the server to ack " +:+ pretty VIA_STREAM_BYTES +:+ " bytes, got "
                    +:+ dbg string acked).

(** S4 and S5: dropped halves. *)
Definition probe_drop_send (conn : Z) : Prog (Result unit string) :=
  try* (send, recv) := failing "open-bi s4" (call (Api.OpenBi conn)) in
  try* _ := failing "write s4" (call (Api.Write send (str_bytes "drop-me"))) in
  let* _ := call (Api.DropSend send) in
  let* _ := call (Api.DropRecv recv) in
  ret (Ok tt).
Definition probe_drop_recv (conn : Z) : Prog (Result unit string) :=
  try* (send, recv) := request conn "s5" (str_bytes "stop-me") in
  let* _ := call (Api.DropRecv recv) in
  ret (Ok tt).

(** S6: the write path refuses concurrent use; a dropped write releases it. *)
Definition probe_write_guard (conn : Z) : Prog (Result unit string) :=
  try* send := failing "open-uni s6" (call (Api.OpenUni conn)) in
  let* ready := call (Api.WriteStart send (zeros PARKED_WRITE_BYTES)) in
  if ready : bool then fail_with "s6: the oversized write did not park"
  else
    let* _ := call (Api.WaitFor 50000000) in
    let* ready := call (Api.WritePoll send) in
    if ready : bool then fail_with "s6: the oversized write completed against an unread stream"
    else
      let* other := call (Api.Write send (str_bytes "x")) in
      if negb (is_in_use other) then
        fail_with ("s6: concurrent write not refused: " +:+ dbg (Result unit Error) other)
      else
        let* other := call (Api.Finish send) in
        if negb (is_in_use other) then
          fail_with ("s6: finish under a write not refused: " +:+ dbg (Result unit Error) other)
        else
          let* _ := call (Api.WriteDrop send) in
          let* _ := call (Api.Abandon send STREAM_WRITE_CANCEL_CODE) in
          ret (Ok tt).

(** S7: the read path refuses concurrent use; its stream is kept. *)
Definition probe_read_guard (conn : Z) : Prog (Result Z string) :=
  try* (send, recv) := request conn "s7" (str_bytes "ready-s7") in
  let* ready := call (Api.ReadStart recv READ_MAX) in
  if ready : bool then fail_with "s7: the read did not park on a silent stream"
  else
    let* other := call (Api.Read recv READ_MAX) in
    if negb (is_in_use other) then
      fail_with ("s7: concurrent read not refused: " +:+ dbg (Result (option bytes) Error) other)
    else
      let* _ := call (Api.ReadDrop recv) in
      ret (Ok recv).

(** S8: a connection close under an unfinished stream is [closed]. *)
Definition probe_close (fuel : nat) (conn : Z) : Prog (Result string string) :=
  try* (send, recv) := request conn "s8" (str_bytes "close-me") in
  let* path := call (Api.Path conn) in
  let* r := read_until_terminal fuel recv in
  if negb (bool_decide (r = Err Closed)) then
    fail_with ("s8: expected closed, got " +:+ dbg (Result unit Error) r)
  else
    let* closed := call (Api.WaitClosed conn) in
    if decide (closed = Some (MkCloseInfo STREAM_CLOSE_CODE STREAM_CLOSE_REASON)) then ret (Ok (path_name path))
    else fail_with ("s8: expected the server's close, got " +:+ dbg (option CloseInfo) closed).

(** The dropped read released its guard. *)
Definition probe_read_released (recv : Z) : Prog (Result unit string) :=
  let* r := call (Api.Read recv READ_MAX) in
  match r with
  | Err (InUse _) => fail_with "s7: the cancelled read left its guard claimed"
  | Err _ => ret (Ok tt)
  | other => fail_with ("s7: post-close read got " +:+ dbg (Result (option bytes) Error) other)
  end.

Definition stream_negative_client (fuel : nat) (endpoint : Z) (config : RunConfig)
    : Prog (Result RunReport string) :=
  try* peer := ret (peer_id hex_decode config) in
  try* _ := probe_cancelled_dials endpoint config in
  let* started := call Api.Now in
  try* conn := failing "connect"
    (call (Api.Connect endpoint (MkEndpointAddr peer [Relay (relay_url config)]) ALPN)) in
  let* ms := elapsed_ms started in
  try* _ := probe_reset fuel conn in
  try* _ := probe_via_fin fuel conn in
  try* _ := probe_via_reset fuel conn in
  try* _ := probe_write_via fuel conn in
  try* _ := probe_drop_send conn in
  try* _ := probe_drop_recv conn in
  try* _ := probe_write_guard conn in
  try* recv7 := probe_read_guard conn in
  try* path := probe_close fuel conn in
  try* _ := probe_read_released recv7 in
  let* peer := call (Api.Peer conn) in
  ret (Ok (passed "" (hex_encode peer) path ms "stream negative probes passed")).

(** ** The stream probes, server side *)

(** Accept a stream pair and read its request to the end. *)
Definition take_request (fuel : nat) (conn : Z) (label : string) : Prog (Result (Z * Z) string) :=
  try* (send, recv) := failing ("accept-bi " +:+ label) (call (Api.AcceptBi conn)) in
  try* _ := failing ("read " +:+ label) (read_until_terminal fuel recv) in
  ret (Ok (send, recv)).

(** S1: take the request, then abandon the send half. *)
Definition serve_reset (fuel : nat) (conn : Z) : Prog (Result unit string) :=
  try* (send, recv) := take_request fuel conn "s1" in
  let* _ := call (Api.Abandon send STREAM_RESET_CODE) in
  ret (Ok tt).

(** S2: answer and finish cleanly. *)
Definition serve_fin (fuel : nat) (conn : Z) : Prog (Result unit string) :=
  try* (send, recv) := take_request fuel conn "s2" in
  try* _ := failing "write s2" (call (Api.Write send (str_bytes "fin"))) in
  failing "finish s2" (call (Api.Finish send)).

(** S3: a partial answer, then the reset. *)
Definition serve_partial (fuel : nat) (conn : Z) : Prog (Result unit string) :=
  try* (send, recv) := take_request fuel conn "s3" in
  try* _ := failing "write s3" (call (Api.Write send (str_bytes "par"))) in
  let* _ := call (Api.Abandon send STREAM_VIA_RESET_CODE) in
  ret (Ok tt).

(** S3b: the streamed payload, acknowledged by its length. *)
Definition serve_payload (fuel : nat) (conn : Z) : Prog (Result unit string) :=
  try* (send, recv) := failing "accept-bi s3b" (call (Api.AcceptBi conn)) in
  try* payload := read_all fuel "read s3b" recv [] in
  if negb (bool_decide (payload = patterned VIA_STREAM_BYTES)) then
    fail_with ("s3b: the streamed payload arrived corrupt or short: " +:+ pretty (len payload)
               +:+ " of " +:+ pretty VIA_STREAM_BYTES +:+ " bytes")
  else
    try* _ := failing "write s3b" (call (Api.Write send (str_bytes (pretty (len payload))))) in
    failing "finish s3b" (call (Api.Finish send)).

(** S4: the client dropped its send half. *)
Definition serve_dropped_send (fuel : nat) (conn : Z) : Prog (Result unit string) :=
  try* (_, recv) := failing "accept-bi s4" (call (Api.AcceptBi conn)) in
  let* r := read_until_terminal fuel recv in
  if is_reset 0 r then ret (Ok tt)
  else fail_with ("s4: expected the drop's reset(0), got " +:+ dbg (Result unit Error) r).

(** S5: the client dropped its receive half; write until refused. *)
Fixpoint write_until_stopped (turns : nat) (send : Z) : Prog (option Error) :=
  match turns with
  | O => ret None
  | S turns =>
      let* r := call (Api.Write send (zeros (16 * 1024))) in
      match r with
      | Ok _ => write_until_stopped turns send
      | Err err => ret (Some err)
      end
  end.
Definition serve_dropped_recv (fuel : nat) (conn : Z) : Prog (Result unit string) :=
  try* (send, recv) := take_request fuel conn "s5" in
  let* stopped := write_until_stopped 512 send in
  if decide (stopped = Some (Reset 0)) then ret (Ok tt)
  else fail_with ("s5: expected the stop's reset(0), got " +:+ dbg (option Error) stopped).

(** S6 and S7: a stream left unread, and a silent one. *)
Definition serve_guards (fuel : nat) (conn : Z) : Prog (Result unit string) :=
  try* recv6 := failing "accept-uni s6" (call (Api.AcceptUni conn)) in
  try* _ := take_request fuel conn "s7" in
  let* r := read_until_terminal fuel recv6 in
  if is_reset STREAM_WRITE_CANCEL_CODE r then ret (Ok tt)
  else fail_with ("s6: expected reset " +:+ pretty STREAM_WRITE_CANCEL_CODE +:+ ", got "
                  +:+ dbg (Result unit Error) r).

Definition stream_negative_server (fuel : nat) (endpoint : Z) : Prog (Result RunReport string) :=
  try* conn := failing "accept" (call (Api.Accept endpoint)) in
  try* _ := serve_reset fuel conn in
  try* _ := serve_fin fuel conn in
  try* _ := serve_partial fuel conn in
  try* _ := serve_payload fuel conn in
  try* _ := serve_dropped_send fuel conn in
  try* _ := serve_dropped_recv fuel conn in
  try* _ := serve_guards fuel conn in
  try* (send, recv) := take_request fuel conn "s8" in
  try* _ := failing "write s8" (call (Api.Write send (str_bytes "tail"))) in
  let* path := call (Api.Path conn) in
  let* peer := call (Api.Peer conn) in
  let* _ := call (Api.CloseConn conn STREAM_CLOSE_CODE STREAM_CLOSE_REASON) in
  let* closed := call (Api.WaitClosed conn) in
  match closed with
  | Some info => fail_with ("locally closed connection reported a peer close: " +:+ dbg CloseInfo info)
  | None => ret (Ok (passed "" (hex_encode peer) (path_name path) 0 "stream negative probes passed"))
  end.

(** ** The accept backlog *)

(** An endpoint with a fresh identity and the demo's protocol. *)
Definition bind_fresh (config : RunConfig) (who : string) : Prog (Result Z string) :=
  try* identity := failing ("generate " +:+ who) (call Api.Generate) in
  let* options := call (Api.OptionsNew identity) in
  let* _ := call (Api.AddAlpn options ALPN) in
  let* _ := call (Api.RelayUrl options (relay_url config)) in
  failing ("bind " +:+ who) (call (Api.Bind options)).

Definition dial_victim (config : RunConfig) (prober victim : Z) : Prog (Result Z Error) :=
  let* id := call (Api.Id victim) in
  call (Api.Connect prober (MkEndpointAddr id [Relay (relay_url config)]) ALPN).

(** The dials within the backlog, numbered from [i]; the connections are kept. *)
Fixpoint dial_within (n : nat) (i : Z) (config : RunConfig) (prober victim : Z) (held : list Z)
    : Prog (Result (list Z) string) :=
  match n with
  | O => ret (Ok held)
  | S n =>
      let* r := dial_victim config prober victim in
      match r with
      | Ok conn => dial_within n (i + 1) config prober victim (held ++ [conn])
      | Err e => fail_with ("dial " +:+ pretty i +:+ " within the backlog: " +:+ dbg Error e)
      end
  end.

Fixpoint drop_all (conns : list Z) : Prog unit :=
  match conns with
  | [] => ret tt
  | c :: conns => let* _ := call (Api.DropConn c) in drop_all conns
  end.

Definition run_backlog_negative (config : RunConfig) : Prog (Result RunReport string) :=
  try* victim := bind_fresh config "victim" in
  try* prober := bind_fresh config "prober" in
  try* held := dial_within ACCEPT_BACKLOG 0 config prober victim [] in
  let* past := dial_victim config prober victim in
  match past with
  | Err (ConnectFailed _) =>
      try* accepted := failing "accept" (call (Api.Accept victim)) in
      try* refill := failing "dial after accept" (dial_victim config prober victim) in
      let* _ := drop_all ([accepted; refill] ++ held) in
      let* _ := call (Api.CloseEndpoint victim) in
      let* _ := call (Api.CloseEndpoint prober) in
      let* prober_id := call (Api.Id prober) in
      let* victim_id := call (Api.Id victim) in
      ret (Ok (passed (hex_encode prober_id) (hex_encode victim_id) "" 0 "accept backlog probes passed"))
  | Ok _ => fail_with "a dial past the backlog connected"
  | Err other => fail_with ("expected connect-failed past the backlog, got " +:+ dbg Error other)
  end.

(** ** The entry point ([Component::run]) *)

Definition run_identity (config : RunConfig) : Prog (Result Z string) :=
  if inject_identity config then
    try* (signing, verifying) := mint "identity keys" Api.GenerateEd25519 (fun r => r) in
    failing "from-keys" (call (Api.FromKeys signing verifying))
  else failing "generate" (call Api.Generate).

Definition run_bind (config : RunConfig) (identity : Z) : Prog (Result Z string) :=
  let* options := call (Api.OptionsNew identity) in
  let* _ := call (Api.AddAlpn options ALPN) in
  let* _ := call (Api.RelayUrl options (relay_url config)) in
  let* _ := match udp_bind config with
            | Some addr => call (Api.UdpBindAddr options addr)
            | None => ret tt
            end in
  let* _ := call (Api.EnableWebrtc options (webrtc config)) in
  failing "bind" (call (Api.Bind options)).

(** The lines a driver reads the endpoint's id and address from. *)
Definition announce (endpoint : Z) : Prog unit :=
  let* id := call (Api.Id endpoint) in
  let* _ := call (Api.Println ("endpoint-id " +:+ hex_encode id)) in
  let* addr := call (Api.DirectAddr endpoint) in
  let* _ := match addr with
            | Some addr => call (Api.Println ("direct-addr " +:+ addr))
            | None => ret tt
            end in
  call Api.Flush.

Definition run_role (fuel : nat) (endpoint : Z) (config : RunConfig) : Prog (Result RunReport string) :=
  match role config with
  | Client => if stream_negative config then stream_negative_client fuel endpoint config
              else run_client dbg hex_encode hex_decode fuel endpoint config
  | Server => if stream_negative config then stream_negative_server fuel endpoint
              else run_server dbg hex_encode upper_char fuel endpoint config
  end.

Definition run (fuel : nat) (config : RunConfig) : Prog (Result RunReport string) :=
  if identity_negative config then run_identity_negative
  else if backlog_negative config then run_backlog_negative config
  else
    try* identity := run_identity config in
    let* expected_id := call (Api.IdentityId identity) in
    try* endpoint := run_bind config identity in
    let* id := call (Api.Id endpoint) in
    if negb (bool_decide (id = expected_id)) then
      fail_with "bind did not adopt the supplied identity"
    else
      let* _ := announce endpoint in
      try* report := run_role fuel endpoint config in
      let* _ := call (Api.CloseEndpoint endpoint) in
      let* id := call (Api.Id endpoint) in
      ret (Ok (report <| rep_endpoint_id := hex_encode id |>)).

End Probes.
