(* ===== verification/Drivers.v ===== *)
(** The Wasmtime hosts: the embedding the drivers share
    ([host-wasmtime/src/lib.rs]) and the two drivers' [main]
    ([host-wasmtime/src/bin/endpoint-demo.rs],
    [host-wasmtime/src/bin/exec-model.rs]), as programs over the calls they make
    of wasmtime, of the instantiated guest and of the process. An error is its
    message. *)
From stdpp Require Import pretty.
From S2P Require Import Prelude RelayFrames Types Text Prog Demo Cli ExecModel.

(** ** The embedding's data *)

Record Config := MkConfig { component_model : bool; component_model_async : bool }.
(** What is added to a linker: WASI 0.2 and 0.3 and the sibling hosts. *)
Inductive Surface := WasiP2 | WasiP3 | WebrtcHost | Webcrypto | Websocket.
(** The calls made on the WASI context's builder. *)
Inductive Grant := InheritStdio | InheritEnv | InheritNetwork | AllowUdp (allow : bool).
(** The store's context; the webcrypto and websocket contexts and the resource
    table are fresh. *)
Record Ctx := MkCtx { wasi : list Grant; include_loopback : bool }.

Module HostApi.
Inductive call :=
| Println (line : string)
| EnvVar (name : string)
| EngineNew (config : Config)
| FromFile (engine : Z) (path : string)
| LinkerNew (engine : Z)
| AddToLinker (linker : Z) (surface : Surface)
| StoreNew (engine : Z) (ctx : Ctx)
| Instantiate (store component linker : Z)
| CallRun (demo : Z) (config : RunConfig)
| CallBlockonInSpawn (guest : Z)
| CallStartPump (guest : Z)
| CallPollPump (guest : Z)
| CallOpenStream (guest : Z) (total chunk : Z)
| Channel
| Pipe (store reader : Z) (consumer : CountThenDrop) (tx : Z)
| CallStreamOutcome (guest : Z)
| TryRecv (rx : Z)
| StreamNew (store : Z) (content : bytes)
| CallSinkStream (guest : Z) (reader : Z).

(** A guest's call traps with an error, or returns what the guest does. *)
Definition answer (c : call) : Type :=
  match c with
  | Println _ => unit
  | EnvVar _ => option string
  | EngineNew _ | FromFile _ _ | Instantiate _ _ _ | CallOpenStream _ _ _ | StreamNew _ _ => Result Z string
  | LinkerNew _ | StoreNew _ _ => Z
  | Channel => Z * Z
  | AddToLinker _ _ | Pipe _ _ _ _ => Result unit string
  | CallRun _ _ => Result (Result RunReport string) string
  | CallBlockonInSpawn _ | CallPollPump _ | CallStreamOutcome _ => Result Outcome string
  | CallStartPump _ => Result (Result unit string) string
  | TryRecv _ => option Z
  | CallSinkStream _ _ => Result (Result Z string) string
  end.
End HostApi.

Canonical Structure host_api : Iface := {| icall := HostApi.call; answer := HostApi.answer |}.

Section Drivers.
Context {H : Prog.Host host_api}.
(** The derived [Debug] renderings. *)
Context (dbg : forall A : Type, A -> string).

Definition println (line : string) : Prog (Result unit string) :=
  let* _ := call (HostApi.Println line) in ret (Ok tt).
Fixpoint println_all (lines : list string) : Prog (Result unit string) :=
  match lines with
  | [] => ret (Ok tt)
  | line :: lines => try* _ := println line in println_all lines
  end.

(** ** The embedding *)

Definition engine_new : Prog (Result Z string) := call (HostApi.EngineNew (MkConfig true true)).

Definition webrtc_ctx : Prog bool :=
  let* v := call (HostApi.EnvVar "WEBRTC_INCLUDE_LOOPBACK") in ret (bool_decide (is_Some v)).

Definition linker_new (engine : Z) : Prog (Result Z string) :=
  let* linker := call (HostApi.LinkerNew engine) in
  try* _ := call (HostApi.AddToLinker linker WasiP2) in
  try* _ := call (HostApi.AddToLinker linker WasiP3) in
  try* _ := call (HostApi.AddToLinker linker WebrtcHost) in
  try* _ := call (HostApi.AddToLinker linker Webcrypto) in
  try* _ := call (HostApi.AddToLinker linker Websocket) in
  ret (Ok linker).

Definition grants (network : bool) : list Grant :=
  [InheritStdio; InheritEnv] ++ if network then [InheritNetwork; AllowUdp true] else [].

Definition store_inner (engine : Z) (network : bool) : Prog Z :=
  let* loopback := webrtc_ctx in
  call (HostApi.StoreNew engine (MkCtx (grants network) loopback)).
Definition store_new (engine : Z) : Prog Z := store_inner engine false.
Definition store_with_network (engine : Z) : Prog Z := store_inner engine true.

(** ** The demo's driver *)

Definition demo_usage : string :=
  "usage: endpoint-demo <composed.wasm> --role <client|server> --relay <relay-url> [--peer <endpoint-id-hex>] [--alpn A] [--udp-bind <ip:port>] [--direct <ip:port>] [--webrtc] [--peer-relay <relay-url>] [--payload-bytes N] [--datagram] [--datagram-ceiling BYTES] [--inject-identity] [--identity-negative] [--stream-negative] [--backlog-negative] [--message M]".

Definition demo_setup (path : string) : Prog (Result Z string) :=
  try* engine := engine_new in
  try* component := call (HostApi.FromFile engine path) in
  try* linker := linker_new engine in
  let* store := store_with_network engine in
  call (HostApi.Instantiate store component linker).

Definition demo_main (args : list string) : Prog (Result unit string) :=
  try* cli := ret (map_err (fun _ => demo_usage) (HostCli.parse_args args)) in
  try* demo := demo_setup (HostCli.component cli) in
  try* report := call (HostApi.CallRun demo (HostCli.run_config cli)) in
  try* lines := ret (HostCli.report_lines dbg (HostCli.role cli) report) in
  println_all lines.

(** ** The probes' driver *)

Definition probe_setup (path : string) : Prog (Result (Z * Z) string) :=
  try* engine := engine_new in
  try* component := call (HostApi.FromFile engine path) in
  try* linker := linker_new engine in
  let* store := store_new engine in
  try* guest := call (HostApi.Instantiate store component linker) in
  ret (Ok (store, guest)).

(** A stream of the guest's, read by a consumer with the limit. *)
Definition stream_probe (store guest : Z) (name : string) (total limit : Z) : Prog (Result unit string) :=
  try* reader := call (HostApi.CallOpenStream guest total 1000) in
  let* (tx, rx) := call HostApi.Channel in
  try* _ := call (HostApi.Pipe store reader (consumer_new limit) tx) in
  try* outcome := call (HostApi.CallStreamOutcome guest) in
  let* received := call (HostApi.TryRecv rx) in
  let count := match received with Some n => pretty n | None => "" end in
  println (print_probe name (result_map_ok (fun d => "host read " +:+ count +:+ ", guest: " +:+ d) outcome)).

Definition probe_main (args : list string) : Prog (Result unit string) :=
  let path := default "target/wasm32-wasip2/release/iroh_exec_model_guest.wasm"%string (head args) in
  try* (store, guest) := probe_setup path in
  try* spawned := call (HostApi.CallBlockonInSpawn guest) in
  try* _ := println (print_probe "blockon-in-spawn" spawned) in
  try* started := call (HostApi.CallStartPump guest) in
  try* _ := ret started in
  try* pumped := call (HostApi.CallPollPump guest) in
  try* _ := println (print_probe "blockon-in-detached-pump" pumped) in
  try* _ := stream_probe store guest "export-stream-complete" 5000 u64_max in
  try* _ := stream_probe store guest "export-stream-reader-drop" 100000 2500 in
  try* reader := call (HostApi.StreamNew store (replicate (Z.to_nat 12345) Byte.x33)) in
  try* counted := call (HostApi.CallSinkStream guest reader) in
  let line := match counted with
              | Ok n => Ok ("guest counted " +:+ pretty n +:+ " bytes")
              | Err e => Err e
              end in
  try* _ := println (print_probe "import-stream-sink" line) in
  println "exec-model probes complete".
End Drivers.
