(* ===== verification/Native.v ===== *)
(** The upstream peer of the interop gate ([tools/iroh-peer/src/main.rs]): both
    roles and [main] as programs over the calls they make of the upstream iroh
    crate and of tokio, and how its two ends meet the demo's. An error is its
    message; the drop of an endpoint or a connection is not a call. *)
From stdpp Require Import pretty.
From S2P Require Import Prelude RelayFrames Types Text Prog Demo Cli.
From S2P Require Noq.

Module PeerApi.
Inductive call :=
| Println (line : string)
| Bind (addr : string) (alpn : bytes)
| EndpointId (endpoint : Z)
| BoundSockets (endpoint : Z)
| CloseEndpoint (endpoint : Z)
| Accept (endpoint : Z)
| Handshake (incoming : Z)
| Connect (endpoint : Z) (peer : bytes) (addr : SocketAddr) (alpn : bytes)
| RemoteId (conn : Z)
| AcceptBi (conn : Z)
| OpenBi (conn : Z)
| Copy (recv send : Z)
| WriteAll (send : Z) (data : bytes)
| Finish (send : Z)
| ReadToEnd (recv : Z) (limit : Z)
| SendDatagram (conn : Z) (payload : bytes)
| ReadDatagram (conn : Z)
| Closed (conn : Z)
| CloseConn (conn : Z) (code : Z) (reason : bytes).

Definition answer (c : call) : Type :=
  match c with
  | Println _ | CloseEndpoint _ | CloseConn _ _ _ => unit
  | EndpointId _ | RemoteId _ => bytes
  | BoundSockets _ => list SocketAddr
  | Accept _ => option Z
  | Bind _ _ | Handshake _ | Connect _ _ _ _ | Copy _ _ => Result Z string
  | AcceptBi _ | OpenBi _ => Result (Z * Z) string
  | WriteAll _ _ | Finish _ | SendDatagram _ _ => Result unit string
  | ReadToEnd _ _ | ReadDatagram _ => Result bytes string
  | Closed _ => Noq.ConnectionError.t
  end.
End PeerApi.

Canonical Structure peer_api : Iface := {| icall := PeerApi.call; answer := PeerApi.answer |}.

Definition CLOSE_CODE : Z := 17.
Definition CLOSE_REASON : bytes := str_bytes "demo done".
Definition ALPN : bytes := str_bytes "iroh-demo/0".
Definition DATAGRAM_COPIES : nat := 3.

#[local] Instance ConnectionError_eq_dec : EqDecision Noq.ConnectionError.t.
Proof. solve_decision. Defined.

Section Native.
Context {H : Prog.Host peer_api}.
(** Third parties: the derived [Debug] renderings, hex, the check of a key, the
    [Display] of a socket address and of its parser's error, Unicode's tables. *)
Context (dbg : forall A : Type, A -> string).
Context (hex_encode : bytes -> string) (hex_decode : string -> Result bytes string).
Context (key_check : bytes -> Result unit string).
Context (show_addr : SocketAddr -> string) (bad_addr : string).
Context (upper_char : bytes -> bytes).

Definition usage_text : string :=
  "usage: iroh-peer --role <client|server> [--direct <ip:port>] [--datagram] [--message M] [--peer <endpoint-id-hex>]".

Definition println (line : string) : Prog (Result unit string) :=
  let* _ := call (PeerApi.Println line) in ret (Ok tt).

(** [for _ in 0..DATAGRAM_COPIES { conn.send_datagram(payload.clone())?; }]. *)
Definition send_copies (conn : Z) (payload : bytes) : Prog (Result unit string) :=
  repeat_ok DATAGRAM_COPIES (call (PeerApi.SendDatagram conn payload)).

Definition echo_datagram (conn : Z) : Prog (Result unit string) :=
  try* payload := call (PeerApi.ReadDatagram conn) in
  try* _ := send_copies conn payload in
  println ("echoed datagram (" +:+ pretty (len payload) +:+ " bytes)").

Definition run_server (endpoint : Z) (cli : PeerCli.Cli) : Prog (Result unit string) :=
  let* accepted := call (PeerApi.Accept endpoint) in
  try* incoming := ret (ok_or "endpoint closed"%string accepted) in
  try* conn := call (PeerApi.Handshake incoming) in
  let* remote := call (PeerApi.RemoteId conn) in
  try* _ := println ("accepted " +:+ hex_encode remote) in
  try* (send, recv) := call (PeerApi.AcceptBi conn) in
  try* echoed := call (PeerApi.Copy recv send) in
  try* _ := call (PeerApi.Finish send) in
  try* _ := println ("echoed " +:+ pretty echoed +:+ " bytes") in
  try* _ := if PeerCli.datagram cli then echo_datagram conn else ret (Ok tt) in
  let* closed := call (PeerApi.Closed conn) in
  if decide (closed = Noq.ConnectionError.ApplicationClosed CLOSE_CODE CLOSE_REASON) then
    println "OK: server finished."
  else
    fail_with ("expected the demo client's close (" +:+ pretty CLOSE_CODE +:+ ", " +:+ dbg bytes CLOSE_REASON
               +:+ "), got: " +:+ dbg Noq.ConnectionError.t closed).

(** What the client accepts as the echo of its message. *)
Definition echo_ok (message : string) (echoed : bytes) : bool :=
  bool_decide (from_utf8_lossy echoed = to_uppercase upper_char (str_bytes message)).

Definition exchange_datagram (conn : Z) (message : string) : Prog (Result unit string) :=
  let payload := str_bytes ("datagram " +:+ message) in
  try* _ := send_copies conn payload in
  try* echoed := call (PeerApi.ReadDatagram conn) in
  if decide (echoed = payload) then println ("received datagram (" +:+ pretty (len echoed) +:+ " bytes)")
  else fail_with ("datagram echo mismatch: sent " +:+ pretty (len payload) +:+ " bytes, got "
                  +:+ pretty (len echoed) +:+ " bytes").

(** The peer's key, 32 bytes that the curve accepts, and its address. *)
Definition peer_key (cli : PeerCli.Cli) : Result bytes string :=
  let? hex := ok_or usage_text (PeerCli.peer cli) in
  let? key := hex_decode hex in
  let? _ := ok_or "endpoint id is not 32 bytes"%string (try_into 32 key) in
  let? _ := key_check key in
  Ok key.
Definition peer_direct (cli : PeerCli.Cli) : Result SocketAddr string :=
  let? text := ok_or usage_text (PeerCli.direct cli) in
  ok_or bad_addr (parse_socket_addr text).

Definition run_client (endpoint : Z) (cli : PeerCli.Cli) : Prog (Result unit string) :=
  try* peer := ret (peer_key cli) in
  try* direct := ret (peer_direct cli) in
  try* conn := call (PeerApi.Connect endpoint peer direct ALPN) in
  try* (send, recv) := call (PeerApi.OpenBi conn) in
  try* _ := call (PeerApi.WriteAll send (str_bytes (PeerCli.message cli))) in
  try* _ := call (PeerApi.Finish send) in
  try* echoed := call (PeerApi.ReadToEnd recv (64 * 1024)) in
  let text := from_utf8_lossy echoed in
  try* _ := println ("received " +:+ dbg string (bytes_str text)) in
  if negb (echo_ok (PeerCli.message cli) echoed) then
    fail_with ("echo mismatch: sent " +:+ dbg string (PeerCli.message cli) +:+ ", got " +:+ dbg string (bytes_str text))
  else
    try* _ := if PeerCli.datagram cli then exchange_datagram conn (PeerCli.message cli) else ret (Ok tt) in
    let* _ := call (PeerApi.CloseConn conn CLOSE_CODE CLOSE_REASON) in
    println "OK: client finished.".

Definition main (args : list string) : Prog (Result unit string) :=
  try* cli := ret (map_err (fun _ => usage_text) (PeerCli.parse_args args)) in
  try* endpoint := call (PeerApi.Bind "127.0.0.1:0" ALPN) in
  let* id := call (PeerApi.EndpointId endpoint) in
  try* _ := println ("endpoint-id " +:+ hex_encode id) in
  let* sockets := call (PeerApi.BoundSockets endpoint) in
  try* addr := ret (ok_or "no bound socket"%string (head sockets)) in
  try* _ := println ("direct-addr " +:+ show_addr addr) in
  try* _ := match PeerCli.role cli with
            | Server => run_server endpoint cli
            | Client => run_client endpoint cli
            end in
  let* _ := call (PeerApi.CloseEndpoint endpoint) in
  ret (Ok tt).
End Native.
