(* ===== verification/DemoLogic.v ===== *)
(** The rules of the program logic ([Prog]) for the demo's loops and its error
    mapping. *)
From S2P Require Import Prelude RelayFrames Types Prog Demo.

Section Loops.
Context {H : Host}.
Context (dbg : forall A : Type, A -> string).

(** [call(..).map_err(..)?]. *)
Lemma ok_failing {A} what (m : Prog (Result A Error)) (Q : A -> list Obs -> Prop) :
  ensures m (fun r t => match r with Ok a => Q a t | Err _ => True end) ->
  ensures_ok (failing dbg what m) Q.
Proof.
  intros Hm. apply ensures_bind. eapply ensures_mono; [exact Hm|]. intros [a|e] t Ha; apply ensures_ret;
    [by rewrite app_nil_r|done].
Qed.

(** The reads of a stream: the chunks, then the end. *)
Definition reads (recv : Z) (chunks : list bytes) : list Obs :=
  (fun c => obs (Api.Read recv READ_MAX) (Ok (Some c))) <$> chunks.

Lemma ok_read_all fuel what recv all (Q : bytes -> list Obs -> Prop) :
  (forall chunks, Q (all ++ concat chunks) (reads recv chunks ++ [obs (Api.Read recv READ_MAX) (Ok None)])) ->
  ensures_ok (read_all dbg fuel what recv all) Q.
Proof.
  unfold read_all. revert all Q. induction fuel as [|fuel IH]; intros all Q HQ; [apply ok_spin|].
  cbn [loop]. apply ok_bind, ensures_bind, ensures_bind. call_step. intros [[chunk|]|e];
    do 2 apply ensures_ret; simpl.
  - apply IH. intros chunks. specialize (HQ (chunk :: chunks)). simpl in HQ. by rewrite app_assoc in HQ.
  - apply ok_ret. specialize (HQ []). by rewrite app_nil_r in HQ.
  - by apply ensures_ret.
Qed.

Lemma ensures_read_until_terminal fuel recv (Q : Result unit Error -> list Obs -> Prop) :
  (forall chunks (r : Result (option bytes) Error), (forall c, r <> Ok (Some c)) ->
     Q (result_map (fun _ => tt) r) (reads recv chunks ++ [obs (Api.Read recv READ_MAX) r])) ->
  ensures (read_until_terminal fuel recv) Q.
Proof.
  unfold read_until_terminal. revert Q. induction fuel as [|fuel IH]; intros Q HQ; [apply ensures_spin|].
  cbn [loop]. apply ensures_bind, ensures_bind. call_step. intros [[chunk|]|e]; apply ensures_ret; simpl.
  - apply IH. intros chunks r Hr. exact (HQ (chunk :: chunks) r Hr).
  - apply ensures_ret. exact (HQ [] (Ok None) ltac:(done)).
  - apply ensures_ret. exact (HQ [] (Err e) ltac:(done)).
Qed.

End Loops.

(** One step of a proof of [ensures_ok]: the rule for the program's head. *)
Ltac prog_step :=
  lazymatch goal with
  | |- ensures_ok (bind_ok _ _) _ => apply ok_bind_ok
  | |- ensures_ok (bind (call _) _) _ => call_step; intros
  | |- ensures_ok (bind _ _) _ => apply ok_bind
  | |- ensures_ok (ret (Ok _)) _ => apply ok_ret
  | |- ensures_ok (ret _) _ => apply ok_result; intros
  | |- ensures_ok (fail_with _) _ => apply ok_fail
  | |- ensures_ok (failing _ _ (call _)) _ => apply ok_failing; call_step; intros [?|?]; [|done]
  | |- ensures_ok (failing _ _ _) _ => apply ok_failing
  | |- ensures_ok (read_all _ _ _ _ _) _ => apply ok_read_all; intros
  | |- ensures (call _) _ => call_step; intros
  | |- ensures (ret _) _ => apply ensures_ret
  | |- ensures (bind _ _) _ => apply ensures_bind
  | |- ensures (read_until_terminal _ _) _ => apply ensures_read_until_terminal; intros
  | |- ensures_ok (if ?b then _ else _) _ => destruct b eqn:?
  | |- ensures_ok (match ?x with _ => _ end) _ => destruct x eqn:?
  end.
Ltac prog := repeat prog_step.
