(* ===== verification/NativeTheory.v ===== *)
(** What a passing run of the upstream peer says, and where the two
    implementations' conventions meet: the peer's client against the demo's
    server. *)
From stdpp Require Import pretty.
From S2P Require Import Prelude RelayFrames Types Text Prog Demo Cli Native.
From S2P Require Noq.

(** ** UTF-8 text is closed under concatenation *)

Lemma byte_at_app l m i : (i < length l)%nat -> byte_at (l ++ m) i = byte_at l i.
Proof. intros Hi. unfold byte_at. by rewrite lookup_app_l. Qed.

(** A byte past the end is no continuation byte. *)
Lemma cont_inside l i : is_cont (byte_at l i) = true -> (i < length l)%nat.
Proof.
  unfold byte_at. destruct (l !! i) as [b|] eqn:E; [intros _; by eapply lookup_lt_Some|]. by vm_compute.
Qed.

Lemma second_inside first l i : second_ok first (byte_at l i) = true -> (i < length l)%nat.
Proof.
  unfold byte_at. destruct (l !! i) as [b|] eqn:E; [intros _; by eapply lookup_lt_Some|].
  unfold second_ok. simpl. repeat case_match; intros Hs; vm_compute in Hs; done.
Qed.

(** A well-formed scalar lies inside the text, whatever follows it. *)
Lemma utf8_chunk_app l m n :
  utf8_chunk l = (true, n) -> l <> [] -> (n <= length l)%nat /\ utf8_chunk (l ++ m) = (true, n).
Proof.
  intros Hc Hl. assert (0 < length l)%nat as H0 by (destruct l; simpl; [done|lia]).
  revert Hc. unfold utf8_chunk. rewrite (byte_at_app l m 0) by done.
  destruct (utf8_width (byte_at l 0)) as [|[|[|[|[|w]]]]]; try done.
  - by intros [= <-].
  - destruct (is_cont (byte_at l 1)) eqn:E1; [|done]. pose proof (cont_inside _ _ E1).
    rewrite byte_at_app, E1 by lia. intros [= <-]. by split; [lia|].
  - destruct (second_ok _ (byte_at l 1)) eqn:E1; [|done]. pose proof (second_inside _ _ _ E1).
    destruct (is_cont (byte_at l 2)) eqn:E2; [|done]. pose proof (cont_inside _ _ E2).
    rewrite !byte_at_app, E1, E2 by lia. intros [= <-]. by split; [lia|].
  - destruct (second_ok _ (byte_at l 1)) eqn:E1; [|done]. pose proof (second_inside _ _ _ E1).
    destruct (is_cont (byte_at l 2)) eqn:E2; [|done]. pose proof (cont_inside _ _ E2).
    destruct (is_cont (byte_at l 3)) eqn:E3; [|done]. pose proof (cont_inside _ _ E3).
    rewrite !byte_at_app, E1, E2, E3 by lia. intros [= <-]. by split; [lia|].
Qed.

(** More fuel than the text is long changes nothing. *)
Lemma utf8_fuel_more fuel fuel' l :
  (length l <= fuel)%nat -> (length l <= fuel')%nat -> utf8_fuel fuel l = utf8_fuel fuel' l.
Proof.
  revert fuel' l. induction fuel as [|fuel IH]; intros [|fuel'] [|b l]; simpl; try done; try lia.
  intros Hf Hf'. pose proof (utf8_chunk_pos (b :: l)). destruct (utf8_chunk (b :: l)) as [ok n]. simpl in *.
  f_equal. apply IH; rewrite length_drop; simpl; lia.
Qed.

Lemma is_utf8_cons l :
  l <> [] -> is_utf8 l = (let '(ok, n) := utf8_chunk l in ok && is_utf8 (drop n l)).
Proof.
  destruct l as [|b l]; [done|]. intros _. unfold is_utf8 at 1. cbn [length utf8_fuel].
  pose proof (utf8_chunk_pos (b :: l)). destruct (utf8_chunk (b :: l)) as [ok n]. f_equal.
  apply utf8_fuel_more; [|done]. rewrite length_drop. simpl in *. lia.
Qed.

Lemma is_utf8_app l m : is_utf8 l = true -> is_utf8 m = true -> is_utf8 (l ++ m) = true.
Proof.
  intros Hl Hm. remember (length l) as k eqn:Hk. revert l Hl Hk.
  induction (lt_wf k) as [k _ IH]. intros l Hl ->. destruct l as [|b l]; [done|].
  rewrite is_utf8_cons in Hl by done. destruct (utf8_chunk (b :: l)) as [[] n] eqn:E; [|done]. simpl in Hl.
  pose proof (utf8_chunk_pos (b :: l)) as Hp. rewrite E in Hp.
  destruct (utf8_chunk_app _ m _ E ltac:(done)) as [Hn E']. rewrite is_utf8_cons by done. rewrite E'. simpl.
  change (b :: l ++ m) with ((b :: l) ++ m). rewrite drop_app_le by done.
  eapply IH; [|exact Hl|done]. rewrite length_drop. simpl in *. lia.
Qed.

Section Interop.
(** Unicode's tables map a character to text. *)
Context (upper_char : bytes -> bytes).
Context (upper_char_text : forall c, is_utf8 c = true -> is_utf8 (upper_char c) = true).

Lemma is_utf8_chunk l n : utf8_chunk l = (true, n) -> l <> [] -> is_utf8 (take n l) = true.
Proof.
  intros E Hl. assert (utf8_chunk (take n l) = (true, n) /\ length (take n l) = n) as [Ht Hn].
  { assert (n <= length l)%nat as Hn by (by eapply utf8_chunk_app with (m := [])).
    split; [|by rewrite length_take; lia].
    revert E. unfold utf8_chunk.
    assert (forall i, (i < n)%nat -> byte_at (take n l) i = byte_at l i) as Hb.
    { intros i Hi. unfold byte_at. by rewrite lookup_take_lt. }
    pose proof (utf8_chunk_pos l) as Hp. unfold utf8_chunk in Hp. intros E. rewrite E in Hp. simpl in Hp.
    revert E. rewrite (Hb 0%nat) by lia.
    destruct (utf8_width (byte_at l 0)) as [|[|[|[|[|w]]]]]; try done.
    - destruct (is_cont (byte_at l 1)) eqn:E1; [|done]. intros [= <-]. by rewrite (Hb 1%nat), E1 by lia.
    - destruct (second_ok _ (byte_at l 1)) eqn:E1; [|done]. destruct (is_cont (byte_at l 2)) eqn:E2; [|done].
      intros [= <-]. by rewrite (Hb 1%nat), (Hb 2%nat), E1, E2 by lia.
    - destruct (second_ok _ (byte_at l 1)) eqn:E1; [|done]. destruct (is_cont (byte_at l 2)) eqn:E2; [|done].
      destruct (is_cont (byte_at l 3)) eqn:E3; [|done].
      intros [= <-]. by rewrite (Hb 1%nat), (Hb 2%nat), (Hb 3%nat), E1, E2, E3 by lia. }
  pose proof (utf8_chunk_pos (take n l)) as Hp. rewrite Ht in Hp. simpl in Hp.
  rewrite is_utf8_cons by (intros E0; rewrite E0 in Hn; simpl in Hn; lia).
  by rewrite Ht, drop_ge by lia.
Qed.

(** The upper case of a text is a text. *)
Lemma upper_text l : is_utf8 l = true -> is_utf8 (to_uppercase upper_char l) = true.
Proof.
  unfold to_uppercase. assert (length l <= length l)%nat as Hf by done. revert Hf.
  generalize (length l) at 2 3. intros fuel. revert l. induction fuel as [|fuel IH]; intros [|b l] Hf Hl; try done.
  cbn [upper_fuel]. rewrite is_utf8_cons in Hl by done. destruct (utf8_chunk (b :: l)) as [[] n] eqn:E; [|done].
  pose proof (utf8_chunk_pos (b :: l)) as Hp. rewrite E in Hp. simpl in Hp, Hl. cbn [snd].
  apply is_utf8_app; [|apply IH; [rewrite length_drop; simpl in *; lia|done]].
  pose proof (is_utf8_chunk _ _ E ltac:(done)) as Hc.
  destruct (take n (b :: l)) as [|c [|c' t]]; [by apply upper_char_text| |by apply upper_char_text].
  by destruct c.
Qed.

End Interop.

(** ** What a passing run says *)

Section NativeTheory.
Context {H : Prog.Host peer_api}.
Context (dbg : forall A : Type, A -> string).
Context (hex_encode : bytes -> string) (hex_decode : string -> Result bytes string).
Context (key_check : bytes -> Result unit string) (bad_addr : string).
Context (upper_char : bytes -> bytes).

#[local] Abbreviation trace := (list (Prog.Obs peer_api)).

Definition printed (line : string) : trace := [obs (PeerApi.Println line) tt].

Lemma ok_peer_println line (Q : unit -> trace -> Prop) : Q tt (printed line) -> ensures_ok (println line) Q.
Proof. intros HQ. unfold println. call_step. intros []. by apply ok_ret. Qed.

Definition copies (conn : Z) (payload : bytes) : trace :=
  concat (replicate DATAGRAM_COPIES [obs (PeerApi.SendDatagram conn payload) (Ok tt)]).

Lemma ok_peer_copies conn payload (Q : unit -> trace -> Prop) :
  Q tt (copies conn payload) -> ensures_ok (send_copies conn payload) Q.
Proof.
  intros HQ. unfold send_copies. eapply ok_repeat; [|exact HQ].
  call_step. by intros [[]|].
Qed.

(** The peer's datagram came back, or was sent back, unchanged. *)
Definition datagram_exchanged (conn : Z) (message : string) (t : trace) : Prop :=
  let payload := str_bytes ("datagram " +:+ message) in
  exists line, t = copies conn payload ++ [obs (PeerApi.ReadDatagram conn) (Ok payload)] ++ printed line.
Definition datagram_echoed (conn : Z) (t : trace) : Prop :=
  exists payload line,
    t = [obs (PeerApi.ReadDatagram conn) (Ok payload)] ++ copies conn payload ++ printed line.

Lemma ok_exchange conn message (Q : unit -> trace -> Prop) :
  (forall t, datagram_exchanged conn message t -> Q tt t) ->
  ensures_ok (exchange_datagram conn message) Q.
Proof.
  intros HQ. unfold exchange_datagram. apply ok_bind_ok, ok_peer_copies.
  apply ok_bind_ok. call_step. intros [echoed|e]; [|done]. case_decide as He; [subst echoed|apply ok_fail].
  apply ok_peer_println, HQ. eexists. reflexivity.
Qed.

Lemma ok_echo conn (Q : unit -> trace -> Prop) :
  (forall t, datagram_echoed conn t -> Q tt t) -> ensures_ok (echo_datagram conn) Q.
Proof.
  intros HQ. unfold echo_datagram. apply ok_bind_ok. call_step. intros [payload|e]; [|done].
  apply ok_bind_ok, ok_peer_copies, ok_peer_println, HQ. eexists _, _. reflexivity.
Qed.

(** The peer's client: success means that it wrote the message, finished, read
    the whole echo within 64 KiB, found it to be the message in upper case, got
    its datagram back unchanged if it sent one, and closed with code 17. *)
Theorem peer_client_success endpoint cli :
  ensures_ok (Native.run_client dbg hex_decode key_check bad_addr upper_char endpoint cli) (fun _ t =>
    exists key addr conn send recv echoed leg,
      peer_key hex_decode key_check cli = Ok key /\ length key = 32%nat /\
      peer_direct bad_addr cli = Ok addr /\
      from_utf8_lossy echoed = to_uppercase upper_char (str_bytes (PeerCli.message cli)) /\
      (if PeerCli.datagram cli then datagram_exchanged conn (PeerCli.message cli) leg else leg = []) /\
      t = [obs (PeerApi.Connect endpoint key addr Native.ALPN) (Ok conn);
           obs (PeerApi.OpenBi conn) (Ok (send, recv));
           obs (PeerApi.WriteAll send (str_bytes (PeerCli.message cli))) (Ok tt);
           obs (PeerApi.Finish send) (Ok tt); obs (PeerApi.ReadToEnd recv 65536) (Ok echoed)]
          ++ printed ("received " +:+ dbg string (bytes_str (from_utf8_lossy echoed))) ++ leg
          ++ [obs (PeerApi.CloseConn conn Native.CLOSE_CODE Native.CLOSE_REASON) tt]
          ++ printed "OK: client finished.").
Proof.
  unfold Native.run_client. apply ok_bind_ok, ok_result. intros key Hkey.
  apply ok_bind_ok, ok_result. intros addr Haddr.
  apply ok_bind_ok. call_step. intros [conn|]; [|done].
  apply ok_bind_ok. call_step. intros [[send recv]|]; [|done].
  apply ok_bind_ok. call_step. intros [[]|]; [|done]. apply ok_bind_ok. call_step. intros [[]|]; [|done].
  apply ok_bind_ok. call_step. intros [echoed|]; [|done]. apply ok_bind_ok, ok_peer_println.
  unfold echo_ok. case_bool_decide as He; cbn [negb]; [|apply ok_fail].
  assert (length key = 32%nat) as Hlen.
  { unfold peer_key in Hkey. destruct (PeerCli.peer cli); [|done]. simpl in Hkey.
    destruct (hex_decode _) as [k|]; [|done]. simpl in Hkey. destruct (try_into 32 k) eqn:E; [|done].
    simpl in Hkey. destruct (key_check k); [|done]. injection Hkey as ->. by apply try_into_Some in E as []. }
  apply ok_bind_ok. eapply (ensures_ok_mono _ (fun _ t => if PeerCli.datagram cli
    then datagram_exchanged conn (PeerCli.message cli) t else t = [])).
  { destruct (PeerCli.datagram cli); [by apply ok_exchange|by apply ok_ret]. }
  intros [] leg Hleg. call_step. intros []. apply ok_peer_println.
  exists key, addr, conn, send, recv, echoed, leg. by split_and!.
Qed.

(** The peer's server: success means that it copied one stream back, finished
    it, returned a datagram unchanged if it was to, and saw the client's close,
    code 17 and reason and all. *)
Theorem peer_server_success endpoint cli :
  ensures_ok (Native.run_server dbg hex_encode endpoint cli) (fun _ t =>
    exists incoming conn remote send recv echoed leg,
      (if PeerCli.datagram cli then datagram_echoed conn leg else leg = []) /\
      t = [obs (PeerApi.Accept endpoint) (Some incoming); obs (PeerApi.Handshake incoming) (Ok conn);
           obs (PeerApi.RemoteId conn) remote] ++ printed ("accepted " +:+ hex_encode remote)
          ++ [obs (PeerApi.AcceptBi conn) (Ok (send, recv)); obs (PeerApi.Copy recv send) (Ok echoed);
              obs (PeerApi.Finish send) (Ok tt)] ++ printed ("echoed " +:+ pretty echoed +:+ " bytes") ++ leg
          ++ [obs (PeerApi.Closed conn)
                (Noq.ConnectionError.ApplicationClosed Native.CLOSE_CODE Native.CLOSE_REASON)]
          ++ printed "OK: server finished.").
Proof.
  unfold Native.run_server. call_step. intros accepted. apply ok_bind_ok, ok_result. intros incoming Hin.
  destruct accepted as [i|]; [|done]. simpl in Hin. injection Hin as ->.
  apply ok_bind_ok. call_step. intros [conn|]; [|done]. call_step. intros remote. apply ok_bind_ok, ok_peer_println.
  apply ok_bind_ok. call_step. intros [[send recv]|]; [|done].
  apply ok_bind_ok. call_step. intros [echoed|]; [|done].
  apply ok_bind_ok. call_step. intros [[]|]; [|done]. apply ok_bind_ok, ok_peer_println.
  apply ok_bind_ok. eapply (ensures_ok_mono _ (fun _ t => if PeerCli.datagram cli
    then datagram_echoed conn t else t = [])).
  { destruct (PeerCli.datagram cli); [by apply ok_echo|by apply ok_ret]. }
  intros [] leg Hleg. call_step. intros closed. case_decide as Hc; [subst closed|apply ok_fail].
  apply ok_peer_println. exists incoming, conn, remote, send, recv, echoed, leg.
  by split_and!.
Qed.
End NativeTheory.
