(* ===== verification/DemoTheory.v ===== *)
(** What a successful run of the demo says of the endpoint it ran against: the
    calls it made and the answers it got, in order, whatever the host; that its
    waits are bounded; and that the server's echo is what the client accepts. *)
From stdpp Require Import pretty.
From S2P Require Import Prelude RelayFrames Types Prog Demo DemoProbes DemoLogic.

Section DemoTheory.
Context {H : Host}.
Context (dbg : forall A : Type, A -> string).
Context (hex_encode : bytes -> string) (hex_decode : string -> Result bytes string).
Context (upper_char : bytes -> bytes).

(** ** The datagram legs *)

(** Polls of the ceiling that were too low, with the waits between. *)
Definition low_polls (conn : Z) (maxes : list (option Z)) : list Obs :=
  concat ((fun m => [obs (Api.MaxDatagramSize conn) m; obs (Api.WaitFor POLL_NS) tt]) <$> maxes).

Lemma ok_await_ceiling polls conn size (Q : unit -> list Obs -> Prop) :
  (forall maxes max, (length maxes <= polls)%nat -> Forall (fun m => default 0 m < size) maxes ->
     size <= default 0 max ->
     Q tt (low_polls conn maxes ++ [obs (Api.MaxDatagramSize conn) max])) ->
  ensures_ok (await_ceiling dbg polls conn size) Q.
Proof.
  revert Q. induction polls as [|polls IH]; intros Q HQ; cbn [await_ceiling]; call_step; intros max.
  - destruct (Z.ltb_spec (default 0 max) size); [prog|]. apply ok_ret.
    exact (HQ [] max ltac:(simpl; lia) ltac:(constructor) ltac:(lia)).
  - destruct (Z.ltb_spec (default 0 max) size).
    + call_step. intros []. apply IH. intros maxes max' Hn Hlow Hmax.
      apply (HQ (max :: maxes) max'); [simpl; lia|by constructor|done].
    + apply ok_ret. exact (HQ [] max ltac:(simpl; lia) ltac:(constructor) ltac:(lia)).
Qed.

(** The ceiling wait, as successful runs show it. *)
Definition ceiling_wait (conn size : Z) (t : list Obs) : Prop :=
  exists maxes max, t = low_polls conn maxes ++ [obs (Api.MaxDatagramSize conn) max] /\
    Z.of_nat (length maxes) <= 6000 /\ Forall (fun m => default 0 m < size) maxes /\ size <= default 0 max.

Lemma ok_await_datagram_ceiling conn size :
  ensures_ok (await_datagram_ceiling dbg conn size) (fun _ => ceiling_wait conn size).
Proof.
  apply ok_await_ceiling. intros maxes max Hn Hlow Hmax. exists maxes, max.
  split_and!; [done| |done..]. change DEADLINE_POLLS with 6000 in Hn. lia.
Qed.

Definition copies (conn : Z) (payload : bytes) : list Obs :=
  replicate DATAGRAM_COPIES (obs (Api.SendDatagram conn payload) (Ok tt)).

Lemma ok_send_copies conn payload (Q : unit -> list Obs -> Prop) :
  Q tt (copies conn payload) -> ensures_ok (send_copies dbg conn payload) Q.
Proof.
  intros HQ. apply (ok_repeat _ _ [obs (Api.SendDatagram conn payload) (Ok tt)]); [|exact HQ].
  apply ok_failing. call_step. by intros [[]|e].
Qed.

(** The client's datagram echo: what was sent came back. *)
Definition datagram_echo (conn : Z) (config : RunConfig) (summary : string) (t : list Obs) : Prop :=
  exists wait payload max,
    t = wait ++ [obs (Api.MaxDatagramSize conn) (Some max)] ++ copies conn payload
          ++ [obs (Api.RecvDatagram conn) (Ok payload)] /\
    len payload <= max /\ summary = datagram_summary payload /\
    match datagram_ceiling config with
    | Some size => ceiling_wait conn size wait /\ payload = patterned size
    | None => wait = [] /\ payload = str_bytes ("datagram " +:+ message config)
    end.

Lemma ok_run_client_datagram conn config :
  ensures_ok (run_client_datagram dbg conn config) (datagram_echo conn config).
Proof.
  unfold run_client_datagram, datagram_echo. apply ok_bind_ok.
  set (Q2 := fun payload wait => match datagram_ceiling config with
    | Some size => ceiling_wait conn size wait /\ payload = patterned size
    | None => wait = [] /\ payload = str_bytes ("datagram " +:+ message config) end).
  apply (ensures_ok_mono _ Q2).
  - subst Q2. destruct (datagram_ceiling config) as [size|]; [|by apply ok_ret].
    apply ok_bind_ok. eapply ensures_ok_mono; [apply ok_await_datagram_ceiling|].
    intros ? t Ht. apply ok_ret. by rewrite app_nil_r.
  - intros payload wait Hw. call_step. intros [max|]; [|prog].
    destruct (Z.ltb_spec max (len payload)); [prog|].
    apply ok_bind_ok, ok_send_copies, ok_bind_ok, ok_failing. call_step. intros [echoed|e]; [|done].
    case_decide as Heq; [subst|prog]. apply ok_ret. exists wait, payload, max.
    split_and!; [|done|done|exact Hw]. done.
Qed.

(** The server's datagram echo: what came was sent back, once it fits. *)
Definition datagram_served (conn : Z) (summary : string) (t : list Obs) : Prop :=
  exists payload wait,
    t = [obs (Api.RecvDatagram conn) (Ok payload)] ++ wait ++ copies conn payload /\
    ceiling_wait conn (wrap32 (len payload)) wait /\ summary = datagram_summary payload.

Lemma ok_run_server_datagram conn : ensures_ok (run_server_datagram dbg conn) (datagram_served conn).
Proof.
  unfold run_server_datagram. apply ok_bind_ok, ok_failing. call_step. intros [payload|e]; [|done].
  apply ok_bind_ok. eapply ensures_ok_mono; [apply ok_await_datagram_ceiling|]. intros ? wait Hw.
  apply ok_bind_ok, ok_send_copies, ok_ret. exists payload, wait. by rewrite app_nil_r.
Qed.

Definition optional_leg (config : RunConfig) (leg : string -> list Obs -> Prop)
    (d : option string) (t : list Obs) : Prop :=
  match d with Some d => datagram config = true /\ leg d t | None => datagram config = false /\ t = [] end.

Lemma ok_datagram_leg config m (leg : string -> list Obs -> Prop) :
  ensures_ok m leg -> ensures_ok (datagram_leg config m) (optional_leg config leg).
Proof.
  intros Hm. unfold datagram_leg, optional_leg. destruct (datagram config); [|by apply ok_ret].
  apply ok_bind_ok. eapply ensures_ok_mono; [exact Hm|]. intros d t Ht. apply ok_ret.
  by rewrite app_nil_r.
Qed.

(** ** The client *)

(** The upgrade's watch: it went on until an element said WebRTC. *)
Definition upgrade_watched (conn : Z) (t : list Obs) : Prop :=
  exists changes seen kinds complete,
    t = [obs (Api.PathChanges conn) changes]
          ++ ((fun ks => obs (Api.PathRead 30000000000 changes) (Some (true, ks))) <$> seen)
          ++ [obs (Api.PathRead 30000000000 changes) (Some (complete, kinds))] /\
    PkWebrtc ∈ kinds /\ Forall (fun ks => PkWebrtc ∉ ks) seen.

Lemma ok_await_webrtc fuel changes (Q : unit -> list Obs -> Prop) :
  (forall seen complete kinds, PkWebrtc ∈ kinds -> Forall (fun ks => PkWebrtc ∉ ks) seen ->
     Q tt (((fun ks => obs (Api.PathRead 30000000000 changes) (Some (true, ks))) <$> seen)
             ++ [obs (Api.PathRead 30000000000 changes) (Some (complete, kinds))])) ->
  ensures_ok (await_webrtc fuel changes) Q.
Proof.
  unfold await_webrtc. revert Q. induction fuel as [|fuel IH]; intros Q HQ; [apply ok_spin|].
  cbn [loop]. apply ok_bind, ensures_bind. call_step. intros [[complete kinds]|]; apply ensures_ret; simpl;
    [|by apply ensures_ret].
  case_decide as Hin; [apply ok_ret; by apply (HQ [])|]. destruct complete; [|by apply ensures_ret].
  apply IH. intros seen complete kinds' Hin' Hseen. apply (HQ (kinds :: seen)); [done|by constructor].
Qed.

Definition client_payload (config : RunConfig) : bytes :=
  match payload_bytes config with
  | Some n => zeros (wrap32 n)
  | None => str_bytes (message config)
  end.

(** The calls of a successful client. *)
Record client_run (endpoint : Z) (config : RunConfig) (report : RunReport) (t : list Obs) : Prop := {
  cr_calls : exists peer conn send recv chunks t0 t1 t2 t3 path who watch dgram,
    peer_id hex_decode config = Ok peer /\
    t = [obs Api.Now t0;
         obs (Api.Connect endpoint (MkEndpointAddr peer (peer_addrs config))
                (default ALPN (str_bytes <$> cfg_alpn config))) (Ok conn);
         obs Api.Now t1]
        ++ watch
        ++ [obs (Api.OpenBi conn) (Ok (send, recv)); obs Api.Now t2;
            obs (Api.Write send (client_payload config)) (Ok tt); obs (Api.Finish send) (Ok tt)]
        ++ reads recv chunks ++ [obs (Api.Read recv READ_MAX) (Ok None); obs Api.Now t3]
        ++ dgram
        ++ [obs (Api.Path conn) path; obs (Api.CloseConn conn 17 (str_bytes "demo done")) tt;
            obs (Api.WaitClosed conn) None; obs (Api.Peer conn) who] /\
    (if webrtc config then upgrade_watched conn watch else watch = []) /\
    length (concat chunks) = length (client_payload config) /\
    optional_leg config (datagram_echo conn config) (rep_datagram report) dgram /\
    rep_path report = path_name path /\ rep_peer_id report = hex_encode who /\
    (payload_bytes config = None -> received report = bytes_str (from_utf8_lossy (concat chunks)));
}.

(** C22. The demo client's verdict: a client run that reports success has,
    whatever the endpoint did, connected to the configured peer with the
    addresses in order of preference, seen the connection's path reach WebRTC
    when it asked for the upgrade, written its whole payload on one stream and
    finished it, read the stream to its FIN and got as many bytes as it sent,
    got its datagram back verbatim when it exchanged one, closed the connection
    with code 17, and found no peer close after its own; those calls, in that
    order, are all it made. *)
Theorem client_success fuel endpoint config :
  ensures_ok (run_client dbg hex_encode hex_decode fuel endpoint config) (client_run endpoint config).
Proof.
  unfold run_client. apply ok_bind_ok, ok_result. intros peer Hpeer.
  call_step. intros t0. apply ok_bind_ok, ok_failing. call_step. intros [conn|]; [|done].
  apply ok_bind. unfold elapsed_ms. apply ensures_bind. call_step. intros t1. apply ensures_ret.
  apply ok_bind_ok. eapply (ensures_ok_mono _ (fun _ t => if webrtc config then upgrade_watched conn t else t = [])).
  { destruct (webrtc config); [|by apply ok_ret]. call_step. intros changes. apply ok_await_webrtc.
    intros seen complete kinds Hin Hseen. by exists changes, seen, kinds, complete. }
  intros [] watch Hwatch. apply ok_bind_ok, ok_failing. call_step. intros [[send recv]|]; [|done].
  fold (client_payload config). call_step. intros t2.
  apply ok_bind_ok, ok_failing. call_step. intros [[]|]; [|done].
  apply ok_bind_ok, ok_failing. call_step. intros [[]|]; [|done].
  apply ok_bind_ok, ok_read_all. intros chunks. apply ok_bind, ensures_bind. call_step. intros t3.
  apply ensures_ret. simpl. destruct (Nat.eqb_spec (length (concat chunks)) (length (client_payload config)))
    as [Hlen|]; simpl; [|prog].
  apply ok_bind_ok. eapply ensures_ok_mono; [apply ok_datagram_leg, ok_run_client_datagram|].
  intros d dgram Hd. call_step. intros path. call_step. intros []. call_step. intros [info|]; [prog|].
  call_step. intros who. apply ok_ret. constructor.
  exists peer, conn, send, recv, chunks, t0, t1, t2, t3, path, who, watch, dgram. simpl.
  split_and!; try done.
  - by rewrite <- !app_assoc.
  - intros Hp. by rewrite Hp.
Qed.

(** ** The server *)

(** The calls of a successful server. *)
Record server_run (endpoint : Z) (config : RunConfig) (report : RunReport) (t : list Obs) : Prop := {
  sr_calls : exists conn send recv chunks path who dgram,
    t = [obs (Api.Accept endpoint) (Ok conn); obs (Api.AcceptBi conn) (Ok (send, recv))]
        ++ reads recv chunks ++ [obs (Api.Read recv READ_MAX) (Ok None);
             obs (Api.Write send (server_echo upper_char (concat chunks)).1) (Ok tt);
             obs (Api.Finish send) (Ok tt)]
        ++ dgram
        ++ [obs (Api.Path conn) path;
            obs (Api.WaitClosed conn) (Some (MkCloseInfo 17 (str_bytes "demo done")));
            obs (Api.Peer conn) who] /\
    optional_leg config (datagram_served conn) (rep_datagram report) dgram /\
    report = MkRunReport "" (hex_encode who) (path_name path) 0 0
               (server_echo upper_char (concat chunks)).2 (rep_datagram report);
}.

(** The demo server's verdict: a server run that reports success has
    accepted one connection and one stream, read it to its FIN, written exactly
    the echo of what it read and finished, returned the datagram verbatim once
    its own ceiling covered it when it exchanged one, and seen the connection
    end with the client's close, code 17 and reason and all; it made no other
    call. *)
Theorem server_success fuel endpoint config :
  ensures_ok (run_server dbg hex_encode upper_char fuel endpoint config) (server_run endpoint config).
Proof.
  unfold run_server. apply ok_bind_ok, ok_failing. call_step. intros [conn|]; [|done].
  apply ok_bind_ok, ok_failing. call_step. intros [[send recv]|]; [|done].
  apply ok_bind_ok, ok_read_all. intros chunks. simpl.
  destruct (server_echo upper_char (concat chunks)) as [echo text] eqn:He.
  apply ok_bind_ok, ok_failing. call_step. intros [[]|]; [|done].
  apply ok_bind_ok, ok_failing. call_step. intros [[]|]; [|done].
  apply ok_bind_ok. eapply ensures_ok_mono; [apply ok_datagram_leg, ok_run_server_datagram|].
  intros d dgram Hd. call_step. intros path. call_step. intros closed.
  case_decide as Hc; [subst closed|prog]. call_step. intros who. apply ok_ret. constructor.
  exists conn, send, recv, chunks, path, who, dgram. rewrite He. simpl.
  split_and!; try done. by rewrite <- !app_assoc.
Qed.

(** ** The echo *)

Definition ascii (l : bytes) : Prop := Forall (fun b => b2z b < 128) l.

Lemma utf8_chunk_ascii b l : b2z b < 128 -> utf8_chunk (b :: l) = (true, 1%nat).
Proof.
  intros Hb. unfold utf8_chunk, utf8_width, byte_at, in_range. simpl. pose proof (b2z_range b).
  destruct (Z.leb_spec 0 (b2z b)), (Z.leb_spec (b2z b) 127); try lia. done.
Qed.

Lemma upper_ascii fuel l :
  ascii l -> (length l <= fuel)%nat -> upper_fuel upper_char fuel l = ascii_upper <$> l.
Proof.
  revert l. induction fuel as [|fuel IH]; intros [|b l] Ha Hl; simpl in Hl; try done; [lia|].
  cbn [upper_fuel]. inversion Ha as [|? ? Hb Hl']; subst. rewrite utf8_chunk_ascii by done. simpl.
  rewrite drop_0, IH; [done..|lia].
Qed.

Lemma lossy_ascii l : ascii l -> from_utf8_lossy l = l.
Proof.
  intros Ha. apply from_utf8_lossy_valid. unfold is_utf8. revert Ha.
  induction l as [|b l IH]; intros Ha; [done|]. inversion Ha as [|? ? Hb Hl]; subst.
  simpl length. cbn [utf8_fuel]. rewrite utf8_chunk_ascii by done. simpl. rewrite drop_0. by apply IH.
Qed.

Lemma zeros_ascii n : ascii (zeros n).
Proof. apply Forall_replicate. done. Qed.

(** What the server echoes, the client accepts: a payload above 4096 bytes
    comes back verbatim, and an ASCII one (every zero-filled payload is) comes
    back with its letters in upper case and is reported as sent; either way with
    the length the client insists on. *)
Theorem echo_accepted config :
  let payload := client_payload config in
  let '(echo, text) := server_echo upper_char payload in
  ((SUMMARY_LIMIT < length payload)%nat -> echo = payload) /\
  ((length payload <= SUMMARY_LIMIT)%nat -> ascii payload ->
     echo = ascii_upper <$> payload /\ text = bytes_str payload) /\
  ((SUMMARY_LIMIT < length payload)%nat \/ ascii payload -> length echo = length payload) /\
  (is_Some (payload_bytes config) -> ascii payload).
Proof.
  intros payload. unfold server_echo.
  assert (is_Some (payload_bytes config) -> ascii payload) as Hz.
  { subst payload. unfold client_payload. intros [n ->]. apply zeros_ascii. }
  destruct (Nat.leb_spec (length payload) SUMMARY_LIMIT) as [Hle|Hgt].
  - assert (ascii payload -> to_uppercase upper_char (from_utf8_lossy payload) = ascii_upper <$> payload) as Hup.
    { intros Ha. rewrite lossy_ascii by done. by apply upper_ascii. }
    split_and!; [lia| | |done].
    + intros _ Ha. split; [by apply Hup|by rewrite lossy_ascii].
    + intros [?|Ha]; [lia|]. by rewrite (Hup Ha), length_fmap.
  - split_and!; [done|lia|done|done].
Qed.

(** ** The ceiling wait is bounded *)

(** How the wait ends. *)
Definition ceiling_outcome (polls : nat) (conn size : Z) (r : Result unit string) (t : list Obs) : Prop :=
  exists maxes max rest,
    t = low_polls conn maxes ++ [obs (Api.MaxDatagramSize conn) max] ++ rest /\
    (length maxes <= polls)%nat /\ Forall (fun m => default 0 m < size) maxes /\
    match r with
    | Ok _ => size <= default 0 max /\ rest = []
    | Err _ => default 0 max < size /\ length maxes = polls /\
               exists max', rest = [obs (Api.MaxDatagramSize conn) max']
    end.

Lemma await_ceiling_outcome polls conn size Q :
  (forall r t, ceiling_outcome polls conn size r t -> Q r t) ->
  always (await_ceiling dbg polls conn size) Q.
Proof.
  revert Q. induction polls as [|polls IH]; intros Q HQ; cbn [await_ceiling];
    apply always_call_bind; intros max; (destruct (Z.ltb_spec (default 0 max) size) as [Hlow|Hok];
    [|apply always_ret, HQ; exists [], max, []; split_and!; [done|simpl; lia|constructor|done|done]]).
  - apply always_call_bind. intros max'. apply always_ret, HQ. exists [], max, [obs (Api.MaxDatagramSize conn) max'].
    split_and!; [done|simpl; lia|constructor|done|done|by exists max'].
  - apply always_call_bind. intros []. apply IH. intros r t (maxes & m & rest & -> & Hn & Hf & Hr).
    apply HQ. exists (max :: maxes), m, rest. split_and!; [done|simpl; lia|by constructor|].
    destruct r; [done|]. destruct Hr as (? & ? & ?). split_and!; [done|simpl; lia|done].
Qed.

(** The wait for the datagram ceiling always ends, whatever the connection
    reports: after at most 6000 waits of 5 ms; it succeeds exactly when a poll
    reports the size needed, and gives up only after 6001 polls that were all
    too low. *)
Theorem ceiling_wait_bounded conn size :
  exists polls, Z.of_nat polls = 6000 /\
    always (await_datagram_ceiling dbg conn size) (ceiling_outcome polls conn size).
Proof. exists (Z.to_nat DEADLINE_POLLS). split; [done|]. by apply await_ceiling_outcome. Qed.

End DemoTheory.
