(* ===== verification/DemoProbesTheory.v ===== *)
(** What a passing probe run says: the failure paths it asserts were taken, in
    the order of its calls, whatever the endpoint did otherwise. *)
From stdpp Require Import pretty.
From S2P Require Import Prelude RelayFrames Types Prog Demo DemoProbes DemoLogic.
From S2P Require Drain.

Section ProbesTheory.
Context {H : Host}.
Context (dbg : forall A : Type, A -> string).
Context (hex_encode : bytes -> string) (hex_decode : string -> Result bytes string).

(** ** The stream probes, client side *)

(** A stream opened, a request written and finished. *)
Definition requested (conn send recv : Z) (data : bytes) : list Obs :=
  [obs (Api.OpenBi conn) (Ok (send, recv)); obs (Api.Write send data) (Ok tt);
   obs (Api.Finish send) (Ok tt)].

Lemma ok_request conn label data (Q : Z * Z -> list Obs -> Prop) :
  (forall send recv, Q (send, recv) (requested conn send recv data)) ->
  ensures_ok (request dbg conn label data) Q.
Proof.
  intros HQ. unfold request. apply ok_bind_ok, ok_failing. call_step. intros [[send recv]|]; [|done].
  apply ok_bind_ok, ok_failing. call_step. intros [[]|]; [|done].
  apply ok_bind_ok, ok_failing. call_step. intros [[]|]; [|done]. apply ok_ret, HQ.
Qed.

(** The reads of a stream up to its failure. *)
Definition read_to (recv : Z) (chunks : list bytes) (r : Result (option bytes) Error) : list Obs :=
  reads recv chunks ++ [obs (Api.Read recv READ_MAX) r].

Lemma is_reset_true {A} code (r : Result A Error) : is_reset code r = true <-> r = Err (Reset code).
Proof.
  destruct r as [a|[|c| | | | | |]]; simpl; try (split; [done|congruence]).
  rewrite Z.eqb_eq. split; congruence.
Qed.

Lemma is_in_use_true {A} (r : Result A Error) : is_in_use r = true <-> exists msg, r = Err (InUse msg).
Proof. destruct r as [a|[| | | | | | |]]; simpl; split; try done; try (by intros [? [=]]); eauto. Qed.

Lemma result_map_reset code (r : Result (option bytes) Error) :
  is_reset code (result_map (fun _ => tt) r) = true -> r = Err (Reset code).
Proof.
  destruct r as [a|e]; simpl; [done|]. intros E%(is_reset_true code (Err e : Result unit Error)). congruence.
Qed.

Definition reset_latched (conn : Z) (t : list Obs) : Prop :=
  exists send recv chunks, t = requested conn send recv (str_bytes "reset-me")
    ++ read_to recv chunks (Err (Reset STREAM_RESET_CODE))
    ++ [obs (Api.Read recv READ_MAX) (Err (Reset STREAM_RESET_CODE))].

Lemma ok_probe_reset fuel conn : ensures_ok (probe_reset dbg fuel conn) (fun _ => reset_latched conn).
Proof.
  unfold probe_reset. apply ok_bind_ok, ok_request. intros send recv.
  apply ok_bind, ensures_read_until_terminal. intros chunks r _.
  destruct (is_reset _ _) eqn:E; [|prog]. apply result_map_reset in E as ->.
  call_step. intros again. destruct (is_reset STREAM_RESET_CODE again) eqn:E; [|prog].
  apply is_reset_true in E as ->. apply ok_ret. by exists send, recv, chunks.
Qed.

(** A stream read through [read-via-stream] to its end. *)
Definition via_read (conn send recv : Z) (request : bytes) (data : Z) (bufs : list bytes) (last : bytes)
    (done : Result unit Error) : list Obs :=
  requested conn send recv request ++ [obs (Api.ReadVia recv) (Ok data)]
  ++ ((fun b => obs (Api.DataRead data READ_MAX) (true, b)) <$> bufs)
  ++ [obs (Api.DataRead data READ_MAX) (false, last); obs (Api.DataDone data) done].

Lemma ensures_drain fuel data all (Q : bytes -> list Obs -> Prop) :
  (forall bufs last, Q (all ++ concat bufs ++ last)
     (((fun b => obs (Api.DataRead data READ_MAX) (true, b)) <$> bufs)
        ++ [obs (Api.DataRead data READ_MAX) (false, last)])) ->
  ensures (drain fuel data all) Q.
Proof.
  unfold drain. revert all Q. induction fuel as [|fuel IH]; intros all Q HQ; [apply ensures_spin|].
  cbn [loop]. apply ensures_bind, ensures_bind. call_step. intros [[] buf]; apply ensures_ret; simpl.
  - apply IH. intros bufs last. specialize (HQ (buf :: bufs) last). simpl in HQ.
    by rewrite <- !app_assoc in HQ |- *.
  - apply ensures_ret. exact (HQ [] buf).
Qed.

Definition via_fin (conn : Z) (t : list Obs) : Prop :=
  exists send recv data bufs last,
    t = via_read conn send recv (str_bytes "fin-me") data bufs last (Ok tt) /\
    concat bufs ++ last = str_bytes "fin".

Lemma ok_probe_via_fin fuel conn : ensures_ok (probe_via_fin dbg fuel conn) (fun _ => via_fin conn).
Proof.
  unfold probe_via_fin. apply ok_bind_ok, ok_request. intros send recv.
  apply ok_bind_ok, ok_failing. call_step. intros [data|]; [|done].
  apply ok_bind, ensures_drain. intros bufs last. call_step. intros [[]|]; [|prog].
  case_decide as Hd; [|prog]. apply ok_ret. exists send, recv, data, bufs, last. split; [|exact Hd].
  unfold via_read. by rewrite <- !app_assoc.
Qed.

Definition via_reset (conn : Z) (t : list Obs) : Prop :=
  exists send recv data bufs last,
    t = via_read conn send recv (str_bytes "reset-stream-me") data bufs last
          (Err (Reset STREAM_VIA_RESET_CODE)).

Lemma ok_probe_via_reset fuel conn : ensures_ok (probe_via_reset dbg fuel conn) (fun _ => via_reset conn).
Proof.
  unfold probe_via_reset. apply ok_bind_ok, ok_request. intros send recv.
  apply ok_bind_ok, ok_failing. call_step. intros [data|]; [|done].
  apply ok_bind, ensures_drain. intros bufs last. call_step. intros done.
  destruct (is_reset _ done) eqn:E; [|prog]. apply is_reset_true in E as ->.
  apply ok_ret. exists send, recv, data, bufs, last. unfold via_read. by rewrite <- !app_assoc.
Qed.

Definition via_written (conn : Z) (t : list Obs) : Prop :=
  exists send recv chunks,
    t = [obs (Api.OpenBi conn) (Ok (send, recv));
         obs (Api.WriteVia send (patterned VIA_STREAM_BYTES)) (true, Ok tt)]
        ++ read_to recv chunks (Ok None) /\
    bytes_str (from_utf8_lossy (concat chunks)) = pretty VIA_STREAM_BYTES.

Lemma ok_probe_write_via fuel conn : ensures_ok (probe_write_via dbg fuel conn) (fun _ => via_written conn).
Proof.
  unfold probe_write_via. apply ok_bind_ok, ok_failing. call_step. intros [[send recv]|]; [|done].
  call_step. intros [[] sent]; simpl; [|prog]. apply ok_bind_ok, ok_result. intros [] Hs.
  destruct sent as [[]|]; [|done]. apply ok_bind_ok. unfold read_to_string.
  apply ok_bind_ok, ok_read_all. intros chunks. apply ok_ret. case_decide as Hd; [|prog].
  apply ok_ret. exists send, recv, chunks. split; [|exact Hd]. unfold read_to. by rewrite !app_nil_r.
Qed.

Definition halves_dropped (conn : Z) (t : list Obs) : Prop :=
  exists send recv send' recv',
    t = [obs (Api.OpenBi conn) (Ok (send, recv)); obs (Api.Write send (str_bytes "drop-me")) (Ok tt);
         obs (Api.DropSend send) tt; obs (Api.DropRecv recv) tt]
        ++ requested conn send' recv' (str_bytes "stop-me") ++ [obs (Api.DropRecv recv') tt].

Definition write_guarded (conn : Z) (t : list Obs) : Prop :=
  exists send msg msg',
    t = [obs (Api.OpenUni conn) (Ok send); obs (Api.WriteStart send (zeros PARKED_WRITE_BYTES)) false;
         obs (Api.WaitFor 50000000) tt; obs (Api.WritePoll send) false;
         obs (Api.Write send (str_bytes "x")) (Err (InUse msg));
         obs (Api.Finish send) (Err (InUse msg')); obs (Api.WriteDrop send) tt;
         obs (Api.Abandon send STREAM_WRITE_CANCEL_CODE) tt].

Lemma ok_probe_write_guard conn : ensures_ok (probe_write_guard dbg conn) (fun _ => write_guarded conn).
Proof.
  unfold probe_write_guard, write_guarded. generalize (zeros PARKED_WRITE_BYTES). intros parked.
  apply ok_bind_ok, ok_failing. call_step. intros [send|]; [|done].
  call_step. intros []; [prog|]. call_step. intros []. call_step. intros []; [prog|].
  call_step. intros w. destruct (is_in_use w) eqn:E; simpl; [|prog]. apply is_in_use_true in E as [msg ->].
  call_step. intros f. destruct (is_in_use f) eqn:E; simpl; [|prog]. apply is_in_use_true in E as [msg' ->].
  call_step. intros []. call_step. intros []. apply ok_ret. by exists send, msg, msg'.
Qed.

(** The refused read, and the one after the close, which is not refused. *)
Definition read_guarded (conn recv : Z) (t : list Obs) : Prop :=
  exists send msg,
    t = requested conn send recv (str_bytes "ready-s7")
        ++ [obs (Api.ReadStart recv READ_MAX) false; obs (Api.Read recv READ_MAX) (Err (InUse msg));
            obs (Api.ReadDrop recv) tt].

Lemma ok_probe_read_guard conn : ensures_ok (probe_read_guard dbg conn) (read_guarded conn).
Proof.
  unfold probe_read_guard. apply ok_bind_ok, ok_request. intros send recv.
  call_step. intros []; [prog|]. call_step. intros r. destruct (is_in_use r) eqn:E; simpl; [|prog].
  apply is_in_use_true in E as [msg ->]. call_step. intros []. apply ok_ret. by exists send, msg.
Qed.

Definition close_seen (conn : Z) (path : string) (t : list Obs) : Prop :=
  exists send recv p chunks,
    t = requested conn send recv (str_bytes "close-me") ++ [obs (Api.Path conn) p]
        ++ read_to recv chunks (Err Closed)
        ++ [obs (Api.WaitClosed conn) (Some (MkCloseInfo STREAM_CLOSE_CODE STREAM_CLOSE_REASON))] /\
    path = path_name p.

Lemma ok_probe_close fuel conn : ensures_ok (probe_close dbg fuel conn) (close_seen conn).
Proof.
  unfold probe_close. apply ok_bind_ok, ok_request. intros send recv. call_step. intros p.
  apply ok_bind, ensures_read_until_terminal. intros chunks r _.
  destruct (bool_decide _) eqn:E; simpl; [|prog]. apply bool_decide_eq_true in E.
  assert (r = Err Closed) as -> by (destruct r; simpl in E; congruence).
  call_step. intros closed. case_decide as Hc; [subst|prog]. apply ok_ret.
  by exists send, recv, p, chunks.
Qed.

Definition read_released (recv : Z) (t : list Obs) : Prop :=
  exists e, t = [obs (Api.Read recv READ_MAX) (Err e)] /\ forall msg, e <> InUse msg.

Lemma ok_probe_read_released recv :
  ensures_ok (probe_read_released dbg recv) (fun _ => read_released recv).
Proof.
  unfold probe_read_released. call_step. intros [c|[| | | | | | |]]; try prog;
    eexists; (split; [done|]); done.
Qed.

Lemma ok_probe_drops conn (Q : list Obs -> Prop) :
  (forall t, halves_dropped conn t -> Q t) ->
  ensures_ok (probe_drop_send dbg conn)
    (fun _ t => ensures_ok (probe_drop_recv dbg conn) (fun _ t' => Q (t ++ t'))).
Proof.
  intros HQ. unfold probe_drop_send. apply ok_bind_ok, ok_failing. call_step.
  intros [[send recv]|]; [|done]. apply ok_bind_ok, ok_failing. call_step. intros [[]|]; [|done].
  call_step. intros []. call_step. intros []. apply ok_ret.
  unfold probe_drop_recv. apply ok_bind_ok, ok_request. intros send' recv'. call_step. intros [].
  apply ok_ret, HQ. by exists send, recv, send', recv'.
Qed.

(** The dials that were cancelled: neither resolved, and only the one over the
    blackhole may have failed. *)
Definition dials_cancelled (endpoint : Z) (config : RunConfig) (t : list Obs) : Prop :=
  exists absent id id' r,
    t = [obs Api.Generate (Ok absent); obs (Api.IdentityId absent) id;
         obs (Api.ConnectFor 100000000 endpoint (MkEndpointAddr id [Relay (relay_url config)]) ALPN) None;
         obs (Api.IdentityId absent) id';
         obs (Api.ConnectFor 100000000 endpoint (MkEndpointAddr id' [Relay "http://203.0.113.1:9"]) ALPN) r] /\
    (r = None \/ exists e, r = Some (Err e)).

Lemma ok_probe_cancelled_dials endpoint config :
  ensures_ok (probe_cancelled_dials dbg endpoint config) (fun _ => dials_cancelled endpoint config).
Proof.
  unfold probe_cancelled_dials. apply ok_bind_ok, ok_failing. call_step. intros [absent|]; [|done].
  apply ok_bind_ok. unfold cancelled_dial. call_step. intros id. call_step. intros [[c|e]|]; [prog..|].
  apply ok_ret. call_step. intros id'. call_step. intros r. destruct r as [[c|e]|]; [prog| |];
    apply ok_ret; eexists absent, id, id', _; split; eauto.
Qed.

(** C24. The stream suite, client side: a passing run saw, whatever the endpoint
    did otherwise, every failure path it probes: two dials cancelled without
    resolving; the peer's reset reported by [read] and latched; a FIN resolving
    [read-via-stream] with exactly the bytes sent and a reset resolving it with
    the reset's code; the payload of [write-via-stream] acknowledged in full; a
    second write and a finish refused during a write, a second read during a
    read, and the read admitted after the first was dropped; and the
    connection's close reported as [closed], with the server's code and reason.
    Codes above 32 bits arrive untruncated. *)
Theorem stream_client_passed fuel endpoint config :
  ensures_ok (stream_negative_client dbg hex_encode hex_decode fuel endpoint config) (fun report t =>
    exists peer conn recv7 t0 t1 who dials s1 s2 s3 s3b s45 s6 s7 s8 released,
      peer_id hex_decode config = Ok peer /\
      t = dials ++ [obs Api.Now t0;
            obs (Api.Connect endpoint (MkEndpointAddr peer [Relay (relay_url config)]) ALPN) (Ok conn);
            obs Api.Now t1]
          ++ s1 ++ s2 ++ s3 ++ s3b ++ s45 ++ s6 ++ s7 ++ s8 ++ released ++ [obs (Api.Peer conn) who] /\
      dials_cancelled endpoint config dials /\ reset_latched conn s1 /\ via_fin conn s2 /\
      via_reset conn s3 /\ via_written conn s3b /\ halves_dropped conn s45 /\
      write_guarded conn s6 /\ read_guarded conn recv7 s7 /\ close_seen conn (rep_path report) s8 /\
      read_released recv7 released /\
      2 ^ 32 < STREAM_RESET_CODE < 2 ^ 62 /\ 2 ^ 32 < STREAM_VIA_RESET_CODE < 2 ^ 62 /\
      2 ^ 32 < STREAM_CLOSE_CODE < 2 ^ 62).
Proof.
  unfold stream_negative_client. apply ok_bind_ok, ok_result. intros peer Hpeer.
  apply ok_bind_ok. eapply ensures_ok_mono; [apply ok_probe_cancelled_dials|]. intros ? dials Hdials.
  call_step. intros t0. apply ok_bind_ok, ok_failing. call_step. intros [conn|]; [|done].
  apply ok_bind. unfold elapsed_ms. apply ensures_bind. call_step. intros t1. apply ensures_ret.
  apply ok_bind_ok. eapply ensures_ok_mono; [apply ok_probe_reset|]. intros ? s1 H1.
  apply ok_bind_ok. eapply ensures_ok_mono; [apply ok_probe_via_fin|]. intros ? s2 H2.
  apply ok_bind_ok. eapply ensures_ok_mono; [apply ok_probe_via_reset|]. intros ? s3 H3.
  apply ok_bind_ok. eapply ensures_ok_mono; [apply ok_probe_write_via|]. intros ? s3b H3b.
  apply ok_bind_ok. eapply ensures_ok_mono; [apply (ok_probe_drops conn (halves_dropped conn)); done|].
  intros ? s4 H45. apply ok_bind_ok. eapply ensures_ok_mono; [exact H45|]. intros ? s5 H5.
  apply ok_bind_ok. eapply ensures_ok_mono; [apply ok_probe_write_guard|]. intros ? s6 H6.
  apply ok_bind_ok. eapply ensures_ok_mono; [apply ok_probe_read_guard|]. intros recv7 s7 H7.
  apply ok_bind_ok. eapply ensures_ok_mono; [apply ok_probe_close|]. intros path s8 H8.
  apply ok_bind_ok. eapply ensures_ok_mono; [apply ok_probe_read_released|]. intros ? rel Hrel.
  call_step. intros who. apply ok_ret.
  exists peer, conn, recv7, t0, t1, who, dials, s1, s2, s3, s3b, (s4 ++ s5), s6, s7, s8, rel.
  split_and!; try done. simpl. by rewrite <- !app_assoc.
Qed.

(** ** The stream probes, server side *)

(** A stream accepted and its request read to the FIN. *)
Definition taken (conn send recv : Z) (t : list Obs) : Prop :=
  exists chunks, t = [obs (Api.AcceptBi conn) (Ok (send, recv))] ++ read_to recv chunks (Ok None).

Lemma ok_take_request fuel conn label (Q : Z * Z -> list Obs -> Prop) :
  (forall send recv t, taken conn send recv t -> Q (send, recv) t) ->
  ensures_ok (take_request dbg fuel conn label) Q.
Proof.
  intros HQ. unfold take_request. apply ok_bind_ok, ok_failing. call_step. intros [[send recv]|]; [|done].
  apply ok_bind_ok, ok_failing, ensures_read_until_terminal. intros chunks [[c|]|e] Hr; simpl; [|..|done].
  { by destruct (Hr c). }
  apply ok_ret, HQ. exists chunks. by rewrite app_nil_r.
Qed.

(** What the server did on each stream, and what it saw. *)
Definition abandoned (conn : Z) (partial : list bytes) (code : Z) (t : list Obs) : Prop :=
  exists send recv req, taken conn send recv req /\
    t = req ++ ((fun b => obs (Api.Write send b) (Ok tt)) <$> partial) ++ [obs (Api.Abandon send code) tt].

Definition answered (conn : Z) (reply : bytes) (t : list Obs) : Prop :=
  exists send recv req, taken conn send recv req /\
    t = req ++ [obs (Api.Write send reply) (Ok tt); obs (Api.Finish send) (Ok tt)].

Definition payload_acked (conn : Z) (t : list Obs) : Prop :=
  exists send recv chunks, concat chunks = patterned VIA_STREAM_BYTES /\
    t = [obs (Api.AcceptBi conn) (Ok (send, recv))] ++ read_to recv chunks (Ok None)
        ++ [obs (Api.Write send (str_bytes (pretty (len (patterned VIA_STREAM_BYTES))))) (Ok tt);
            obs (Api.Finish send) (Ok tt)].

Definition drop_seen (conn : Z) (t : list Obs) : Prop :=
  exists send recv chunks,
    t = [obs (Api.AcceptBi conn) (Ok (send, recv))] ++ read_to recv chunks (Err (Reset 0)).

Definition stop_seen (conn : Z) (t : list Obs) : Prop :=
  exists send recv req n, taken conn send recv req /\ Z.of_nat n < 512 /\
    t = req ++ replicate n (obs (Api.Write send (zeros (16 * 1024))) (Ok tt))
        ++ [obs (Api.Write send (zeros (16 * 1024))) (Err (Reset 0))].

Definition cancel_seen (conn : Z) (t : list Obs) : Prop :=
  exists recv6 send recv req chunks, taken conn send recv req /\
    t = [obs (Api.AcceptUni conn) (Ok recv6)] ++ req
        ++ read_to recv6 chunks (Err (Reset STREAM_WRITE_CANCEL_CODE)).

Lemma ok_serve_reset fuel conn :
  ensures_ok (serve_reset dbg fuel conn) (fun _ => abandoned conn [] STREAM_RESET_CODE).
Proof.
  apply ok_bind_ok, ok_take_request. intros send recv req Hreq. call_step. intros []. apply ok_ret.
  by exists send, recv, req.
Qed.

Lemma ok_serve_fin fuel conn : ensures_ok (serve_fin dbg fuel conn) (fun _ => answered conn (str_bytes "fin")).
Proof.
  apply ok_bind_ok, ok_take_request. intros send recv req Hreq.
  apply ok_bind_ok, ok_failing. call_step. intros [[]|]; [|done].
  apply ok_failing. call_step. intros [[]|]; [|done]. by exists send, recv, req.
Qed.

Lemma ok_serve_partial fuel conn :
  ensures_ok (serve_partial dbg fuel conn) (fun _ => abandoned conn [str_bytes "par"] STREAM_VIA_RESET_CODE).
Proof.
  apply ok_bind_ok, ok_take_request. intros send recv req Hreq.
  apply ok_bind_ok, ok_failing. call_step. intros [[]|]; [|done]. call_step. intros []. apply ok_ret.
  by exists send, recv, req.
Qed.

Lemma ok_serve_payload fuel conn : ensures_ok (serve_payload dbg fuel conn) (fun _ => payload_acked conn).
Proof.
  apply ok_bind_ok, ok_failing. call_step. intros [[send recv]|]; [|done].
  apply ok_bind_ok, ok_read_all. intros chunks. simpl.
  destruct (bool_decide _) eqn:E; simpl; [|prog]. apply bool_decide_eq_true in E.
  apply ok_bind_ok, ok_failing. call_step. intros [[]|]; [|done].
  apply ok_failing. call_step. intros [[]|]; [|done]. exists send, recv, chunks. split; [done|].
  unfold read_to. rewrite E, <- !app_assoc. reflexivity.
Qed.

Lemma ok_serve_dropped_send fuel conn : ensures_ok (serve_dropped_send dbg fuel conn) (fun _ => drop_seen conn).
Proof.
  apply ok_bind_ok, ok_failing. call_step. intros [[send recv]|]; [|done].
  apply ok_bind, ensures_read_until_terminal. intros chunks r _.
  destruct (is_reset _ _) eqn:E; [|prog]. apply result_map_reset in E as ->. apply ok_ret.
  exists send, recv, chunks. by rewrite app_nil_r.
Qed.

Lemma ensures_write_until_stopped turns send (Q : option Error -> list Obs -> Prop) :
  Q None (replicate turns (obs (Api.Write send (zeros (16 * 1024))) (Ok tt))) ->
  (forall n e, (n < turns)%nat ->
     Q (Some e) (replicate n (obs (Api.Write send (zeros (16 * 1024))) (Ok tt))
                 ++ [obs (Api.Write send (zeros (16 * 1024))) (Err e)])) ->
  ensures (write_until_stopped turns send) Q.
Proof.
  revert Q. induction turns as [|turns IH]; intros Q Hnone Hsome; cbn [write_until_stopped];
    [by apply ensures_ret|].
  apply ensures_bind. call_step. intros [[]|e].
  - apply IH; [exact Hnone|]. intros n e Hn. exact (Hsome (S n) e ltac:(lia)).
  - apply ensures_ret. exact (Hsome 0%nat e ltac:(lia)).
Qed.

Lemma ok_serve_dropped_recv fuel conn : ensures_ok (serve_dropped_recv dbg fuel conn) (fun _ => stop_seen conn).
Proof.
  apply ok_bind_ok, ok_take_request. intros send recv req Hreq.
  apply ok_bind, ensures_write_until_stopped; [prog; discriminate|].
  intros n e Hn. case_decide as He; [|prog]. apply ok_ret. exists send, recv, req, n.
  split_and!; [done|lia|]. rewrite app_nil_r. congruence.
Qed.

Lemma ok_serve_guards fuel conn : ensures_ok (serve_guards dbg fuel conn) (fun _ => cancel_seen conn).
Proof.
  apply ok_bind_ok, ok_failing. call_step. intros [recv6|]; [|done].
  apply ok_bind_ok, ok_take_request. intros send recv req Hreq.
  apply ok_bind, ensures_read_until_terminal. intros chunks r _.
  destruct (is_reset _ _) eqn:E; [|prog]. apply result_map_reset in E as ->. apply ok_ret.
  exists recv6, send, recv, req, chunks. by rewrite app_nil_r.
Qed.

(** The stream suite, server side: a passing run accepted one stream per
    probe in the client's order, reset, answered, partly answered and
    acknowledged as the client expects, and saw the client's own failures with
    their codes: reset 0 from a dropped send half, reset 0 from a dropped
    receive half within 512 writes, and the code of the cancelled write; then it
    closed the connection under an unfinished stream and found no peer close. *)
Theorem stream_server_passed fuel endpoint :
  ensures_ok (stream_negative_server dbg hex_encode fuel endpoint) (fun report t =>
    exists conn s1 s2 s3 s3b s4 s5 s67 send recv req path who,
      t = [obs (Api.Accept endpoint) (Ok conn)] ++ s1 ++ s2 ++ s3 ++ s3b ++ s4 ++ s5 ++ s67 ++ req
          ++ [obs (Api.Write send (str_bytes "tail")) (Ok tt); obs (Api.Path conn) path;
              obs (Api.Peer conn) who; obs (Api.CloseConn conn STREAM_CLOSE_CODE STREAM_CLOSE_REASON) tt;
              obs (Api.WaitClosed conn) None] /\
      abandoned conn [] STREAM_RESET_CODE s1 /\ answered conn (str_bytes "fin") s2 /\
      abandoned conn [str_bytes "par"] STREAM_VIA_RESET_CODE s3 /\ payload_acked conn s3b /\
      drop_seen conn s4 /\ stop_seen conn s5 /\ cancel_seen conn s67 /\ taken conn send recv req /\
      rep_peer_id report = hex_encode who).
Proof.
  unfold stream_negative_server. apply ok_bind_ok, ok_failing. call_step. intros [conn|]; [|done].
  apply ok_bind_ok. eapply ensures_ok_mono; [apply ok_serve_reset|]. intros ? s1 H1.
  apply ok_bind_ok. eapply ensures_ok_mono; [apply ok_serve_fin|]. intros ? s2 H2.
  apply ok_bind_ok. eapply ensures_ok_mono; [apply ok_serve_partial|]. intros ? s3 H3.
  apply ok_bind_ok. eapply ensures_ok_mono; [apply ok_serve_payload|]. intros ? s3b H3b.
  apply ok_bind_ok. eapply ensures_ok_mono; [apply ok_serve_dropped_send|]. intros ? s4 H4.
  apply ok_bind_ok. eapply ensures_ok_mono; [apply ok_serve_dropped_recv|]. intros ? s5 H5.
  apply ok_bind_ok. eapply ensures_ok_mono; [apply ok_serve_guards|]. intros ? s67 H67.
  apply ok_bind_ok, ok_take_request. intros send recv req Hreq.
  apply ok_bind_ok, ok_failing. call_step. intros [[]|]; [|done].
  call_step. intros path. call_step. intros who. call_step. intros []. call_step. intros [i|]; [prog|].
  apply ok_ret. exists conn, s1, s2, s3, s3b, s4, s5, s67, send, recv, req, path, who.
  split_and!; done.
Qed.

(** ** The accept backlog *)

(** An endpoint bound under a fresh identity. *)
Definition bound_fresh (config : RunConfig) (endpoint : Z) (t : list Obs) : Prop :=
  exists identity options,
    t = [obs Api.Generate (Ok identity); obs (Api.OptionsNew identity) options;
         obs (Api.AddAlpn options ALPN) tt; obs (Api.RelayUrl options (relay_url config)) tt;
         obs (Api.Bind options) (Ok endpoint)].

Lemma ok_bind_fresh config who : ensures_ok (bind_fresh dbg config who) (bound_fresh config).
Proof.
  unfold bind_fresh. apply ok_bind_ok, ok_failing. call_step. intros [identity|]; [|done].
  call_step. intros options. call_step. intros []. call_step. intros [].
  apply ok_failing. call_step. intros [endpoint|]; [|done]. by exists identity, options.
Qed.

Definition dialed (config : RunConfig) (prober victim : Z) (r : Result Z Error) (t : list Obs) : Prop :=
  exists id, t = [obs (Api.Id victim) id;
                  obs (Api.Connect prober (MkEndpointAddr id [Relay (relay_url config)]) ALPN) r].

Lemma ensures_dial config prober victim (Q : Result Z Error -> list Obs -> Prop) :
  (forall r t, dialed config prober victim r t -> Q r t) -> ensures (dial_victim config prober victim) Q.
Proof.
  intros HQ. unfold dial_victim. apply ensures_bind. call_step. intros id. call_step. intros r.
  apply HQ. by exists id.
Qed.

(** The dials that connected, one per connection held. *)
Inductive dials_ok (config : RunConfig) (prober victim : Z) : list Z -> list Obs -> Prop :=
| dials_nil : dials_ok config prober victim [] []
| dials_cons c held t ts :
    dialed config prober victim (Ok c) t -> dials_ok config prober victim held ts ->
    dials_ok config prober victim (c :: held) (t ++ ts).

Lemma ok_dial_within n i config prober victim held (Q : list Z -> list Obs -> Prop) :
  (forall more t, length more = n -> dials_ok config prober victim more t -> Q (held ++ more) t) ->
  ensures_ok (dial_within dbg n i config prober victim held) Q.
Proof.
  revert i held Q. induction n as [|n IH]; intros i held Q HQ; cbn [dial_within].
  { apply ok_ret. specialize (HQ [] [] eq_refl (dials_nil _ _ _)). by rewrite app_nil_r in HQ. }
  apply ok_bind, ensures_dial. intros [c|e] t Ht; [|prog]. apply IH. intros more ts Hn Hts.
  rewrite <- app_assoc. apply (HQ (c :: more)); [by rewrite <- Hn|by constructor].
Qed.

Lemma ensures_drop_all conns (Q : unit -> list Obs -> Prop) :
  Q tt ((fun c => obs (Api.DropConn c) tt) <$> conns) -> ensures (drop_all conns) Q.
Proof.
  revert Q. induction conns as [|c conns IH]; intros Q HQ; cbn [drop_all]; [by apply ensures_ret|].
  apply ensures_bind. call_step. intros []. by apply IH.
Qed.

(** The backlog probe: a passing run dialed the victim exactly as often as
    the endpoint's own backlog allows and every dial connected with no acceptor
    anywhere; the next was refused with connect-failed; one accept made room for
    one more; and then both endpoints were closed. *)
Theorem backlog_probe_passed config :
  ensures_ok (run_backlog_negative dbg hex_encode config) (fun report t =>
    exists victim prober bv bp held dials past msg accepted refill again vid pid,
      t = bv ++ bp ++ dials ++ past ++ [obs (Api.Accept victim) (Ok accepted)] ++ again
          ++ ((fun c => obs (Api.DropConn c) tt) <$> [accepted; refill] ++ held)
          ++ [obs (Api.CloseEndpoint victim) tt; obs (Api.CloseEndpoint prober) tt;
              obs (Api.Id prober) pid; obs (Api.Id victim) vid] /\
      bound_fresh config victim bv /\ bound_fresh config prober bp /\
      dials_ok config prober victim held dials /\ length held = Drain.ACCEPT_BACKLOG /\
      dialed config prober victim (Err (ConnectFailed msg)) past /\
      dialed config prober victim (Ok refill) again /\
      rep_endpoint_id report = hex_encode pid /\ rep_peer_id report = hex_encode vid).
Proof.
  unfold run_backlog_negative.
  apply ok_bind_ok. eapply ensures_ok_mono; [apply ok_bind_fresh|]. intros victim bv Hbv.
  apply ok_bind_ok. eapply ensures_ok_mono; [apply ok_bind_fresh|]. intros prober bp Hbp.
  apply ok_bind_ok, ok_dial_within. intros held dials Hn Hdials. simpl.
  apply ok_bind, ensures_dial. intros [c|e] past Hpast; [prog|]. destruct e as [| |msg| | | | |]; [prog|prog| |prog..].
  apply ok_bind_ok, ok_failing. call_step. intros [accepted|]; [|done].
  apply ok_bind_ok, ok_failing, ensures_dial. intros [refill|] again Hagain; [|done].
  apply ok_bind, (ensures_drop_all ([accepted; refill] ++ held)).
  call_step. intros []. call_step. intros []. call_step. intros pid. call_step. intros vid. apply ok_ret.
  exists victim, prober, bv, bp, held, dials, past, msg, accepted, refill, again, vid, pid.
  split_and!; try done.
Qed.

(** ** Identities *)

(** The identity probe: a passing run saw [from-keys] accept a matched pair and
    report its public key, and reject with invalid-argument a mismatched pair
    and an ECDSA pair. *)
Theorem identity_probe_passed :
  ensures_ok (run_identity_negative dbg hex_encode) (fun report t =>
    exists sk vk public control sa va sb vb ms es ev me id,
      t = [obs Api.GenerateEd25519 (Ok (sk, vk)); obs (Api.ExportKeyRaw vk) (Ok public);
           obs (Api.FromKeys sk vk) (Ok control); obs (Api.IdentityId control) public;
           obs Api.GenerateEd25519 (Ok (sa, va)); obs Api.GenerateEd25519 (Ok (sb, vb));
           obs (Api.FromKeys sa vb) (Err (InvalidArgument ms));
           obs Api.GenerateEcdsaP256 (Ok (es, ev));
           obs (Api.FromKeys es ev) (Err (InvalidArgument me)); obs (Api.IdentityId control) id] /\
      rep_endpoint_id report = hex_encode id).
Proof.
  unfold run_identity_negative, mint_pair, mint.
  apply ok_bind_ok. call_step. intros [[sk vk]|e]; [|by apply ensures_ret]. apply ok_ret.
  call_step. intros exported. apply ok_bind_ok, ok_result. intros public Hp.
  destruct exported as [x|]; simpl in Hp; [|done]. injection Hp as ->.
  apply ok_bind_ok, ok_failing. call_step. intros [control|]; [|done]. call_step. intros id0.
  destruct (bool_decide _) eqn:E; simpl; [|prog]. apply bool_decide_eq_true in E as ->.
  apply ok_bind_ok. call_step. intros [[sa va]|e]; [|by apply ensures_ret]. apply ok_ret.
  apply ok_bind_ok. call_step. intros [[sb vb]|e]; [|by apply ensures_ret]. apply ok_ret.
  apply ok_bind_ok. unfold expect_rejected. call_step. intros [i|[| | | | | |ms|]]; [prog..| |prog].
  apply ok_ret. apply ok_bind_ok. call_step. intros [[es ev]|e]; [|by apply ensures_ret]. apply ok_ret.
  apply ok_bind_ok. call_step. intros [i|[| | | | | |me|]]; [prog..| |prog].
  apply ok_ret. call_step. intros id. apply ok_ret.
  by exists sk, vk, public, control, sa, va, sb, vb, ms, es, ev, me, id.
Qed.

End ProbesTheory.
