(* ===== verification/DemoEnds.v ===== *)
(** The demo's runs end: against a host whose streams and watches are finite,
    enough fuel gives every program a result, the same for any larger fuel. *)
From S2P Require Import Prelude RelayFrames Types Prog Demo DemoProbes DemoLogic.

(** What makes the loops end: a stream yields finitely many chunks before it
    ends or fails, through either read method, and the path watch finitely many
    elements before the deadline wins. *)
Class HostLaws {H : Host} := {
  unread : Z -> World -> nat;
  unread_read recv max w c w' :
    respond (Api.Read recv max) w = (Ok (Some c), w') -> (unread recv w' < unread recv w)%nat;
  undrained : Z -> World -> nat;
  undrained_read data cap w b w' :
    respond (Api.DataRead data cap) w = ((true, b), w') -> (undrained data w' < undrained data w)%nat;
  unwatched : Z -> World -> nat;
  unwatched_read deadline changes w kinds w' :
    respond (Api.PathRead deadline changes) w = (Some (true, kinds), w') ->
    (unwatched changes w' < unwatched changes w)%nat;
}.

Section Halting.
Context {H : Host}.

Context (dbg : forall A : Type, A -> string).

Lemma halts_failing {A} what (m : nat -> Prog (Result A Error)) w :
  halts m w -> halts (fun n => failing dbg what (m n)) w.
Proof.
  intros Hm. apply (halts_bind m (fun _ r => ret (map_err (fail dbg what) r)) w Hm). intros r w1. apply halts_ret.
Qed.

Context {HL : HostLaws}.

Lemma read_until_terminal_halts recv w : halts (fun n => read_until_terminal n recv) w.
Proof.
  apply (loop_halts _ (unread recv)). intros [] w1.
  apply (turn_call (Api.Read recv READ_MAX)). intros [[c|]|e] w2 E s'; [intros _|done..].
  by eapply unread_read.
Qed.

Lemma read_all_halts what recv all w : halts (fun n => read_all dbg n what recv all) w.
Proof.
  apply (loop_halts _ (unread recv)). intros all1 [w1 l]. unfold failing, bind, call, ret. cbn [fst snd].
  destruct (respond (Api.Read recv READ_MAX) w1) as [[[c|]|e] w2] eqn:E; cbn;
    (eexists _, _; split; [done|]); intros s' [=]. simpl. by eapply unread_read.
Qed.

Lemma drain_halts data all w : halts (fun n => drain n data all) w.
Proof.
  apply (loop_halts _ (undrained data)). intros all1 [w1 l]. unfold bind, call, ret. cbn [fst snd].
  destruct (respond (Api.DataRead data READ_MAX) w1) as [[[] b] w2] eqn:E; cbn;
    (eexists _, _; split; [done|]); intros s' [=]. simpl. by eapply undrained_read.
Qed.

Lemma await_webrtc_halts changes w : halts (fun n => await_webrtc n changes) w.
Proof.
  apply (loop_halts _ (unwatched changes)). intros [] w1.
  apply (turn_call (Api.PathRead 30000000000 changes)). intros [[[] kinds]|] w2 E s'; [| |done];
    case_decide; try done. intros _. by eapply unwatched_read.
Qed.

Lemma await_ceiling_halts polls conn size w : halts (fun _ => await_ceiling dbg polls conn size) w.
Proof.
  revert w. induction polls as [|polls IH]; intros w; cbn [await_ceiling];
    (apply (halts_bind (fun _ => call (Api.MaxDatagramSize conn)) (fun _ max => _)); [apply halts_call|]);
    intros max w1; destruct (_ <? size); try apply halts_ret.
  - apply (halts_bind (fun _ => call (Api.MaxDatagramSize conn)) (fun _ max => _)); [apply halts_call|].
    intros; apply halts_ret.
  - apply (halts_bind (fun _ => call (Api.WaitFor POLL_NS)) (fun _ _ => _)); [apply halts_call|]. intros _. apply IH.
Qed.
End Halting.

(** The rule for the program's head; conditionals and matches split. *)
Ltac halts_step :=
  cbv beta;
  lazymatch goal with
  | |- halts (fun n => bind_ok (@?m n) (@?k n)) _ => apply (halts_bind_ok m k); [|intros ? ?]
  | |- halts (fun n => bind (@?m n) (@?k n)) _ => apply (halts_bind m k); [|intros ? ?]
  | |- halts (fun n => failing ?d ?what (@?m n)) _ => apply (halts_failing d what m)
  | |- halts (fun _ => call ?c) _ => refine (halts_call c _)
  | |- halts (fun _ => ret _) _ => apply halts_ret
  | |- halts (fun _ => fail_with _) _ => apply halts_ret
  | |- halts (fun _ => repeat_ok _ _) _ => apply halts_repeat; intros ?
  | |- halts (fun _ => await_ceiling _ _ _ _) _ => apply await_ceiling_halts
  | |- halts (fun n => read_all _ n _ _ _) _ => refine (read_all_halts _ _ _ _ _)
  | |- halts (fun n => read_until_terminal n _) _ => refine (read_until_terminal_halts _ _)
  | |- halts (fun n => drain n _ _) _ => refine (drain_halts _ _ _)
  | |- halts (fun n => await_webrtc n _) _ => refine (await_webrtc_halts _ _)
  | |- halts (fun _ => if ?b then _ else _) _ => destruct b
  | |- halts (fun _ => match ?x with _ => _ end) _ => destruct x
  end.
Ltac halts_auto := repeat halts_step.

Section Ends.
Context {H : Host} {HL : HostLaws}.
Context (dbg : forall A : Type, A -> string).
Context (hex_encode : bytes -> string) (hex_decode : string -> Result bytes string).
Context (upper_char : bytes -> bytes).

Lemma datagram_leg_halts config leg w :
  (forall w, halts (fun _ => leg) w) -> halts (fun _ => datagram_leg config leg) w.
Proof. intros Hl. unfold datagram_leg. halts_auto. apply Hl. Qed.

Lemma run_client_halts endpoint config w :
  halts (fun n => run_client dbg hex_encode hex_decode n endpoint config) w.
Proof.
  unfold run_client, elapsed_ms. halts_auto. apply datagram_leg_halts. intros w'.
  unfold run_client_datagram, await_datagram_ceiling, send_copies. halts_auto.
Qed.

Lemma run_server_halts endpoint config w :
  halts (fun n => run_server dbg hex_encode upper_char n endpoint config) w.
Proof.
  unfold run_server. halts_auto. apply datagram_leg_halts. intros w'.
  unfold run_server_datagram, await_datagram_ceiling, send_copies. halts_auto.
Qed.

Lemma request_halts conn label data w : halts (fun _ => request dbg conn label data) w.
Proof. unfold request. halts_auto. Qed.
Lemma take_request_halts conn label w : halts (fun n => take_request dbg n conn label) w.
Proof. unfold take_request. halts_auto. Qed.
Lemma write_until_stopped_halts turns send w : halts (fun _ => write_until_stopped turns send) w.
Proof. revert w. induction turns as [|turns IH]; intros w; cbn [write_until_stopped]; halts_auto. apply IH. Qed.
Lemma dial_within_halts k i config prober victim held w :
  halts (fun _ => dial_within dbg k i config prober victim held) w.
Proof.
  revert i held w. induction k as [|k IH]; intros i held w; cbn [dial_within]; unfold dial_victim; halts_auto.
  apply IH.
Qed.
Lemma drop_all_halts conns w : halts (fun _ => drop_all conns) w.
Proof. revert w. induction conns as [|c conns IH]; intros w; cbn [drop_all]; halts_auto. apply IH. Qed.

Lemma stream_client_halts endpoint config w :
  halts (fun n => stream_negative_client dbg hex_encode hex_decode n endpoint config) w.
Proof.
  unfold stream_negative_client, probe_cancelled_dials, cancelled_dial, elapsed_ms, probe_reset,
    probe_via_fin, probe_via_reset, probe_write_via, read_to_string, probe_drop_send, probe_drop_recv,
    probe_write_guard, probe_read_guard, probe_close, probe_read_released.
  halts_auto; apply request_halts.
Qed.

Lemma stream_server_halts endpoint w :
  halts (fun n => stream_negative_server dbg hex_encode n endpoint) w.
Proof.
  unfold stream_negative_server, serve_reset, serve_fin, serve_partial, serve_payload,
    serve_dropped_send, serve_dropped_recv, serve_guards.
  halts_auto; first [apply take_request_halts|apply write_until_stopped_halts].
Qed.

(** C23. The demo always ends: against a host whose streams and path watches are
    finite, every run of the entry point, whatever its configuration and however
    the calls fail, returns with enough fuel, and with any larger fuel the same. *)
Theorem demo_terminates config w :
  halts (fun n => run dbg hex_encode hex_decode upper_char n config) w.
Proof.
  unfold run, run_identity_negative, mint_pair, mint, expect_rejected, run_backlog_negative, bind_fresh,
    dial_victim, run_identity, run_bind, announce, run_role, mint.
  halts_auto; first [apply run_client_halts|apply run_server_halts|apply stream_client_halts
    |apply stream_server_halts|apply dial_within_halts|apply drop_all_halts].
Qed.
End Ends.
