(* ===== verification/DemoEndpoint.v ===== *)
(** The demo on the endpoint: [EndpointHost] states what the component promises
    the demo, as runs of the methods of the modelled endpoint, and the demo's
    whole run is proved against it. *)
From S2P Require Import Prelude RelayFrames Types Prog Demo DemoProbes DemoLogic.
From S2P Require Noq State Pump Connection Endpoint System Lifecycle Methods.

(** ** The demo makes calls, and nothing else *)

Section Plain.
Context {H : Host}.
Context (dbg : forall A : Type, A -> string).
Context (hex_encode : bytes -> string) (hex_decode : string -> Result bytes string).
Context (upper_char : bytes -> bytes).

Ltac plain_demo := plain_auto; unfold failing; plain_auto.

Lemma plain_read_all fuel what recv all : plain (read_all dbg fuel what recv all).
Proof. unfold read_all. plain_demo. Qed.
Lemma plain_read_until fuel recv : plain (read_until_terminal fuel recv).
Proof. unfold read_until_terminal. plain_demo. Qed.
Lemma plain_drain fuel data all : plain (drain fuel data all).
Proof. unfold drain. plain_demo. Qed.
Lemma plain_await_webrtc fuel changes : plain (await_webrtc fuel changes).
Proof. unfold await_webrtc. plain_demo. Qed.
Lemma plain_await_ceiling polls conn size : plain (await_ceiling dbg polls conn size).
Proof. induction polls as [|polls IH]; cbn [await_ceiling]; plain_auto; exact IH. Qed.
Lemma plain_write_until turns send : plain (write_until_stopped turns send).
Proof. induction turns as [|turns IH]; cbn [write_until_stopped]; plain_auto; exact IH. Qed.
Lemma plain_dial_within k i config prober victim held : plain (dial_within dbg k i config prober victim held).
Proof.
  revert i held. induction k as [|k IH]; intros i held; cbn [dial_within]; unfold dial_victim; plain_auto. apply IH.
Qed.
Lemma plain_drop_all conns : plain (drop_all conns).
Proof. induction conns as [|c conns IH]; cbn [drop_all]; plain_auto; exact IH. Qed.

Ltac plain_parts :=
  repeat first
    [ plain_step | apply plain_read_all | apply plain_read_until | apply plain_drain | apply plain_await_webrtc
    | apply plain_await_ceiling | apply plain_write_until | apply plain_dial_within | apply plain_drop_all
    | progress unfold failing, request, take_request, datagram_leg, send_copies, elapsed_ms ].

Lemma plain_client fuel endpoint config : plain (run_client dbg hex_encode hex_decode fuel endpoint config).
Proof. unfold run_client, run_client_datagram, await_datagram_ceiling. plain_parts. Qed.
Lemma plain_server fuel endpoint config : plain (run_server dbg hex_encode upper_char fuel endpoint config).
Proof. unfold run_server, run_server_datagram, await_datagram_ceiling. plain_parts. Qed.
Lemma plain_stream_client fuel endpoint config :
  plain (stream_negative_client dbg hex_encode hex_decode fuel endpoint config).
Proof.
  unfold stream_negative_client, probe_cancelled_dials, cancelled_dial, probe_reset,
    probe_via_fin, probe_via_reset, probe_write_via, read_to_string, probe_drop_send, probe_drop_recv,
    probe_write_guard, probe_read_guard, probe_close, probe_read_released.
  plain_parts.
Qed.
Lemma plain_stream_server fuel endpoint : plain (stream_negative_server dbg hex_encode fuel endpoint).
Proof.
  unfold stream_negative_server, serve_reset, serve_fin, serve_partial, serve_payload,
    serve_dropped_send, serve_dropped_recv, serve_guards.
  plain_parts.
Qed.
Lemma plain_run fuel config : plain (run dbg hex_encode hex_decode upper_char fuel config).
Proof.
  unfold run, run_identity_negative, mint_pair, mint, expect_rejected, run_backlog_negative, bind_fresh,
    dial_victim, run_identity, run_bind, announce, run_role, mint.
  repeat first [plain_step | apply plain_client | apply plain_server | apply plain_stream_client
    | apply plain_stream_server | apply plain_dial_within | apply plain_drop_all | progress unfold failing].
Qed.
End Plain.

(** ** What the component promises

    The host's world holds an endpoint system per bound endpoint and the resource
    behind each connection it named. Every call is a run of each endpoint's system;
    an endpoint newly bound starts from [bind]; a dial or an accept that succeeds
    is a run of the method, and names the resource the method made. *)
Class EndpointHost {H : Host} {N : Noq.Noq} {L : Noq.NoqLaws} := {
  system : World -> Z -> option Pump.Pump;
  resource : World -> Z -> option Connection.ConnectionRes;
  host_steps c w r w' e p :
    respond c w = (r, w') -> system w e = Some p ->
    exists p', system w' e = Some p' /\ rtc System.world p p';
  host_bound c w r w' e p :
    respond c w = (r, w') -> system w e = None -> system w' e = Some p -> Lifecycle.live_system p;
  host_connect w e addr alpn conn w' :
    respond (Api.Connect e addr alpn) w = (Ok conn, w') ->
    exists has_udp p c p', system w e = Some p /\ Methods.connect_run has_udp addr p (Ok c) p' /\
      system w' e = Some p' /\ resource w' conn = Some c;
  host_connect_for w ns e addr alpn conn w' :
    respond (Api.ConnectFor ns e addr alpn) w = (Some (Ok conn), w') ->
    exists has_udp p c p', system w e = Some p /\ Methods.connect_run has_udp addr p (Ok c) p' /\
      system w' e = Some p' /\ resource w' conn = Some c;
  host_accept w e conn w' :
    respond (Api.Accept e) w = (Ok conn, w') ->
    exists p c p', system w e = Some p /\ Methods.accept_run p (Ok c) p' /\
      system w' e = Some p' /\ resource w' conn = Some c;
}.

Section OnEndpoint.
Context {H : Host} {N : Noq.Noq} {L : Noq.NoqLaws} {HL : Noq.HandshakeLaws} {EH : EndpointHost}.

(** Every bound endpoint is in a state its system reaches. *)
Definition hosted (w : World) : Prop := forall e p, system w e = Some p -> Lifecycle.live_system p.

Lemma hosted_call c w r w' : respond c w = (r, w') -> hosted w -> hosted w'.
Proof.
  intros Hc Hw e p' He. destruct (system w e) as [p|] eqn:E; [|by eapply host_bound].
  destruct (host_steps c w r w' e p Hc E) as (p1 & E1 & Hr). rewrite He in E1. injection E1 as <-.
  by eapply Methods.live_world; [apply (Hw e)|].
Qed.

Lemma hosted_replay w t w' : replay w t w' -> hosted w -> hosted w'.
Proof. apply replay_keeps. intros c w1 r w2. apply hosted_call. Qed.

Lemma steps_replay w t w' e p :
  replay w t w' -> system w e = Some p -> exists p', system w' e = Some p' /\ rtc System.world p p'.
Proof.
  revert w p. induction t as [|o t IH]; intros w p; cbn [replay]; [intros ->; by exists p|].
  intros (w1 & Hc & Hr) He. destruct (host_steps _ w _ w1 e p Hc He) as (p1 & E1 & H1).
  destruct (IH w1 p1 Hr E1) as (p2 & E2 & H2). exists p2. split; [done|by etransitivity].
Qed.

(** The connection behind a name is open as the peer that was dialed. *)
Definition dialed (w : World) (e conn : Z) (addr : EndpointAddr) : Prop :=
  exists p c id entry, system w e = Some p /\ resource w conn = Some c /\
    try_into 32 (ea_endpoint_id addr) = Some id /\
    State.entry_for (Pump.st p) (Connection.handle c) (Connection.minted c) = Some entry /\
    State.connected entry = true /\ State.error entry = None /\ State.peer entry = Some id.

(** The connection behind a name came in and has an authenticated peer. *)
Definition admitted (w : World) (e conn : Z) : Prop :=
  exists p c id entry, system w e = Some p /\ resource w conn = Some c /\
    State.entry_for (Pump.st p) (Connection.handle c) (Connection.minted c) = Some entry /\
    State.accepted_side entry = true /\ State.connected entry = true /\ State.peer entry = Some id.

Lemma connect_dialed w2 e addr conn has_udp p c p' :
  Lifecycle.live_system p -> Methods.connect_run has_udp addr p (Ok c) p' ->
  system w2 e = Some p' -> resource w2 conn = Some c -> dialed w2 e conn addr.
Proof.
  intros Hl Hr He Hc.
  destruct (Methods.connect_run_ok has_udp addr p c p' (Lifecycle.live_reachable p Hl) Hr)
    as (id & entry & Hid & _ & Hen & Hcon & Herr & _ & Hp).
  by exists p', c, id, entry.
Qed.

(** C15. The demo on the endpoint: whatever its configuration, a run of the demo
    leaves every endpoint it bound in a state of the verified system; each
    connection a dial gave it was, when the dial returned, open as the very peer
    it had addressed; each connection it accepted came in and had an
    authenticated peer; and no endpoint handed it the same connection twice. *)
Theorem demo_on_endpoint dbg hex_encode hex_decode upper_char fuel config w r w' :
  hosted w.1 -> run dbg hex_encode hex_decode upper_char fuel config w = Done (r, w') ->
  exists t, w'.2 = w.2 ++ t /\ replay w.1 t w'.1 /\ hosted w'.1 /\
    (forall t1 e addr alpn conn t2,
       t = t1 ++ obs (Api.Connect e addr alpn) (Ok conn) :: t2 ->
       exists w2, replay w.1 (t1 ++ [obs (Api.Connect e addr alpn) (Ok conn)]) w2 /\ dialed w2 e conn addr) /\
    (forall t1 ns e addr alpn conn t2,
       t = t1 ++ obs (Api.ConnectFor ns e addr alpn) (Some (Ok conn)) :: t2 ->
       exists w2, replay w.1 (t1 ++ [obs (Api.ConnectFor ns e addr alpn) (Some (Ok conn))]) w2 /\
         dialed w2 e conn addr) /\
    (forall t1 e conn t2,
       t = t1 ++ obs (Api.Accept e) (Ok conn) :: t2 ->
       exists w2, replay w.1 (t1 ++ [obs (Api.Accept e) (Ok conn)]) w2 /\ admitted w2 e conn) /\
    (forall t1 e conn t2 conn' t3,
       t = t1 ++ obs (Api.Accept e) (Ok conn) :: t2 ++ obs (Api.Accept e) (Ok conn') :: t3 ->
       exists w2 w3 c c',
         replay w.1 (t1 ++ [obs (Api.Accept e) (Ok conn)]) w2 /\ resource w2 conn = Some c /\
         replay w2 (t2 ++ [obs (Api.Accept e) (Ok conn')]) w3 /\ resource w3 conn' = Some c' /\
         Lifecycle.res_name c' <> Lifecycle.res_name c).
Proof.
  intros Hw Hrun. destruct (plain_run dbg hex_encode hex_decode upper_char fuel config w r w' Hrun) as (t & Ht & Hr).
  exists t. split; [done|]. split; [done|]. split; [by eapply hosted_replay|]. split_and!.
  - intros t1 e addr alpn conn t2 ->. apply replay_at in Hr as (w1 & w2 & H1 & Hc & H2 & _).
    exists w2. split; [done|]. destruct (host_connect _ _ _ _ _ _ Hc) as (u & p & c & p' & E1 & Hm & E2 & Hres).
    eapply connect_dialed; [exact (hosted_replay _ _ _ H1 Hw _ _ E1)|exact Hm|done|done].
  - intros t1 ns e addr alpn conn t2 ->. apply replay_at in Hr as (w1 & w2 & H1 & Hc & H2 & _).
    exists w2. split; [done|]. destruct (host_connect_for _ _ _ _ _ _ _ Hc) as (u & p & c & p' & E1 & Hm & E2 & Hres).
    eapply connect_dialed; [exact (hosted_replay _ _ _ H1 Hw _ _ E1)|exact Hm|done|done].
  - intros t1 e conn t2 ->. apply replay_at in Hr as (w1 & w2 & H1 & Hc & H2 & _).
    exists w2. split; [done|]. destruct (host_accept _ _ _ _ Hc) as (p & c & p' & E1 & Hm & E2 & Hres).
    pose proof (hosted_replay _ _ _ H1 Hw _ _ E1) as Hl.
    destruct (Methods.accept_run_takes p c p' Hl Hm) as (entry & id & He & Hs & Hcon & Hp).
    by exists p', c, id, entry.
  - intros t1 e conn t2 conn' t3 ->. apply replay_at in Hr as (w1 & w2 & H1 & Hc & H2 & Hr).
    apply replay_at in Hr as (w3 & w4 & H3 & Hc' & H4 & _).
    destruct (host_accept _ _ _ _ Hc) as (p & c & p' & E1 & Hm & E2 & Hres).
    destruct (host_accept _ _ _ _ Hc') as (q & c' & q' & E3 & Hm' & E4 & Hres').
    exists w2, w4, c, c'. split_and!; try done.
    destruct (steps_replay w2 t2 w3 e p' H3 E2) as (q0 & Eq & Hsteps). rewrite E3 in Eq. injection Eq as <-.
    exact (Methods.accept_runs_differ p c p' q c' q' (hosted_replay _ _ _ H1 Hw _ _ E1) Hm Hsteps Hm').
Qed.
End OnEndpoint.
