(* ===== verification/DriversTheory.v ===== *)
(** What the Wasmtime drivers' runs say: the embedding a component is run in, what
    is printed and when, and that the probe of a reader that walks away agrees
    with itself: the bytes the host counts are the bytes the guest names. *)
From stdpp Require Import pretty.
From S2P Require Import Prelude RelayFrames Types Text Prog Demo Cli ExecModel Drivers.

Section Theory.
Context {H : Prog.Host host_api} (dbg : forall A : Type, A -> string).

(** ** Printing *)

Definition line_of (o : Prog.Obs host_api) : option string :=
  match projT1 o with HostApi.Println line => Some line | _ => None end.
Definition printed (t : list (Prog.Obs host_api)) : list string := omap line_of t.

Lemma printed_app t t' : printed (t ++ t') = printed t ++ printed t'.
Proof. apply omap_app. Qed.

Lemma ensures_println line (Q : Result unit string -> list (Prog.Obs host_api) -> Prop) :
  Q (Ok tt) [obs (HostApi.Println line : host_api) tt] -> ensures (println line) Q.
Proof. intros HQ. apply ensures_bind, ensures_call. intros []. by apply ensures_ret. Qed.

Lemma ensures_println_all lines :
  ensures (println_all lines) (fun r t => r = Ok tt /\ t = (fun l => obs (HostApi.Println l : host_api) tt) <$> lines).
Proof.
  induction lines as [|line lines IH]; [by apply ensures_ret|]. apply ensures_bind, ensures_println.
  eapply ensures_mono; [exact IH|]. by intros r t [-> ->].
Qed.

(** A program that prints nothing. *)
Definition silent {A} (m : Prog A) : Prop := leaves line_of m [].

(** ** The embedding *)

(** The calls of a linker that carries every surface. *)
Definition linked (engine linker : Z) : list (Prog.Obs host_api) :=
  obs (HostApi.LinkerNew engine : host_api) linker ::
  ((fun s => obs (HostApi.AddToLinker linker s : host_api) (Ok tt)) <$>
     [WasiP2; WasiP3; WebrtcHost; Webcrypto; Websocket]).

Lemma linker_new_ok engine :
  ensures_ok (linker_new engine) (fun linker t => t = linked engine linker).
Proof.
  unfold linker_new. call_step. intros linker. do 5 (apply ok_bind_ok; call_step; intros [[]|]; [|done]).
  by apply ok_ret.
Qed.

(** The calls of a store with the grants, and loopback candidates when the
    environment asks for them. *)
Definition stored_with (engine store : Z) (network : bool) (v : option string) : list (Prog.Obs host_api) :=
  [obs (HostApi.EnvVar "WEBRTC_INCLUDE_LOOPBACK" : host_api) v;
   obs (HostApi.StoreNew engine (MkCtx (grants network) (bool_decide (is_Some v))) : host_api) store].

Lemma store_inner_calls engine network :
  ensures (store_inner engine network) (fun store t => exists v, t = stored_with engine store network v).
Proof. apply ensures_bind, ensures_bind. call_step. intros v. apply ensures_ret. call_step. intros store. by exists v. Qed.

(** The calls that ready a component. *)
Definition readied (path : string) (network : bool) (instance : Z) (t : list (Prog.Obs host_api)) : Prop :=
  exists engine component linker store v,
    t = [obs (HostApi.EngineNew (MkConfig true true) : host_api) (Ok engine);
         obs (HostApi.FromFile engine path : host_api) (Ok component)]
        ++ linked engine linker ++ stored_with engine store network v
        ++ [obs (HostApi.Instantiate store component linker : host_api) (Ok instance)].

Lemma demo_setup_ok path : ensures_ok (demo_setup path) (readied path true).
Proof.
  unfold demo_setup, engine_new. apply ok_bind_ok. call_step. intros [engine|]; [|done].
  apply ok_bind_ok. call_step. intros [component|]; [|done].
  apply ok_bind_ok. eapply ensures_ok_mono; [apply linker_new_ok|]. intros linker ? ->.
  apply ok_bind. eapply ensures_mono; [apply store_inner_calls|]. intros store ? (v & ->).
  call_step. intros [instance|]; [|done]. by exists engine, component, linker, store, v.
Qed.

Lemma demo_setup_silent path : silent (demo_setup path).
Proof.
  unfold silent, demo_setup, engine_new, linker_new, store_with_network, store_inner, webrtc_ctx. leaves_nil.
Qed.

(** The demo's driver ends well exactly as the demo does: a successful run readied
    the component with every surface and the host's network, called the demo once,
    with the configuration of the command line, and printed its report and the
    success line, nothing else; a run that fails has printed nothing. *)
Theorem demo_driver_reports args :
  ensures (demo_main dbg args) (fun r t =>
    match r with
    | Ok _ => exists cli demo report line setup,
        HostCli.parse_args args = Ok cli /\ readied (HostCli.component cli) true demo setup /\
        HostCli.report_lines dbg (HostCli.role cli) (Ok report) =
          Ok [line; "OK: " +:+ role_name (HostCli.role cli) +:+ " finished."] /\
        t = setup ++ [obs (HostApi.CallRun demo (HostCli.run_config cli) : host_api) (Ok (Ok report));
                      obs (HostApi.Println line : host_api) tt;
                      obs (HostApi.Println ("OK: " +:+ role_name (HostCli.role cli) +:+ " finished.") : host_api) tt]
    | Err _ => printed t = []
    end).
Proof.
  unfold demo_main. apply ensures_bind. destruct (HostCli.parse_args args) as [cli|]; apply ensures_ret; [|by apply ensures_ret].
  cbn [map_err]. apply ensures_bind. intros w r w' Hrun.
  destruct (demo_setup_silent _ w r w' Hrun) as (t & Ht & Hs). change (printed t = []) in Hs.
  destruct (demo_setup_ok _ w r w' Hrun) as (t' & Ht' & Hok).
  assert (t' = t) as -> by (rewrite Ht in Ht'; by apply app_inv_head in Ht').
  exists t. split; [done|]. cbn [app]. destruct r as [demo|]; [|apply ensures_ret; by rewrite printed_app, Hs].
  apply ensures_bind. call_step. intros [outcome|]; [|apply ensures_ret; by rewrite printed_app, Hs].
  apply ensures_bind, ensures_ret. destruct outcome as [report|err]; cbn [HostCli.report_lines].
  2: { apply ensures_ret. by rewrite printed_app, Hs. }
  eapply ensures_mono; [apply ensures_println_all|]. intros r ? [-> ->].
  exists cli, demo, report. eexists. exists t. split_and!; done.
Qed.

(** ** The probes *)

Lemma probe_setup_ok path :
  ensures_ok (probe_setup path) (fun '(_, guest) t => readied path false guest t).
Proof.
  unfold probe_setup, engine_new. apply ok_bind_ok. call_step. intros [engine|]; [|done].
  apply ok_bind_ok. call_step. intros [component|]; [|done].
  apply ok_bind_ok. eapply ensures_ok_mono; [apply linker_new_ok|]. intros linker ? ->.
  apply ok_bind. eapply ensures_mono; [apply store_inner_calls|]. intros store ? (v & ->).
  apply ok_bind_ok. call_step. intros [guest|]; [|done]. apply ok_ret.
  by exists engine, component, linker, store, v.
Qed.

Lemma probe_setup_silent path : silent (probe_setup path).
Proof.
  unfold silent, probe_setup, engine_new, linker_new, store_new, store_inner, webrtc_ctx. leaves_nil.
Qed.

Lemma ok_driver_println line (Q : unit -> list (Prog.Obs host_api) -> Prop) :
  Q tt [obs (HostApi.Println line : host_api) tt] -> ensures_ok (println line) Q.
Proof. intros HQ. by apply ensures_println. Qed.

(** The line of a stream probe. *)
Definition stream_line (name : string) (outcome : Outcome) (received : option Z) : string :=
  print_probe name (result_map_ok
    (fun d => "host read " +:+ from_option pretty "" received +:+ ", guest: " +:+ d) outcome).

Lemma stream_probe_ok store guest name total limit :
  ensures_ok (stream_probe store guest name total limit) (fun _ t => exists outcome received,
    printed t = [stream_line name outcome received]).
Proof.
  unfold stream_probe. apply ok_bind_ok. call_step. intros [reader|]; [|done].
  call_step. intros [tx rx]. apply ok_bind_ok. call_step. intros [[]|]; [|done].
  apply ok_bind_ok. call_step. intros [outcome|]; [|done]. call_step. intros received.
  apply ok_driver_println. exists outcome, received. by destruct received.
Qed.

(** A probe run that ends well has printed one line per probe, each with what the
    guest answered, in order, and the closing line: no outcome of a probe stops
    the others, only a trap does. *)
Theorem probes_reported args :
  ensures_ok (probe_main args) (fun _ t => exists spawned pumped complete n1 dropped n2 (sunk : Result Z string),
    printed t =
      [print_probe "blockon-in-spawn" spawned; print_probe "blockon-in-detached-pump" pumped;
       stream_line "export-stream-complete" complete n1; stream_line "export-stream-reader-drop" dropped n2;
       print_probe "import-stream-sink"
         (match sunk with Ok n => Ok ("guest counted " +:+ pretty n +:+ " bytes") | Err e => Err e end);
       "exec-model probes complete"]).
Proof.
  unfold probe_main. apply ok_bind_ok. intros w r w' Hrun.
  destruct (probe_setup_silent _ w r w' Hrun) as (t & Ht & Hs). change (printed t = []) in Hs. exists t. split; [done|].
  destruct r as [[store guest]|]; [|done].
  apply ok_bind_ok. call_step. intros [spawned|]; [|done]. apply ok_bind_ok, ok_driver_println.
  apply ok_bind_ok. call_step. intros [started|]; [|done]. apply ok_bind_ok, ok_result. intros [] _.
  apply ok_bind_ok. call_step. intros [pumped|]; [|done]. apply ok_bind_ok, ok_driver_println.
  apply ok_bind_ok. eapply ensures_ok_mono; [apply stream_probe_ok|]. intros [] t1 (complete & n1 & H1).
  apply ok_bind_ok. eapply ensures_ok_mono; [apply stream_probe_ok|]. intros [] t2 (dropped & n2 & H2).
  apply ok_bind_ok. call_step. intros [reader|]; [|done].
  apply ok_bind_ok. call_step. intros [sunk|]; [|done]. apply ok_bind_ok, ok_driver_println, ok_driver_println.
  exists spawned, pumped, complete, n1, dropped, n2, sunk.
  repeat first [rewrite printed_app | rewrite Hs | rewrite H1 | rewrite H2 | progress cbn [app]].
  done.
Qed.
End Theory.
