(* ===== verification/DemoExamples.v ===== *)
(** The demo against an executable host that behaves as the demo's own server
    would: a run of the whole entry point, and the theorems at that run. *)
From stdpp Require Import pretty.
From S2P Require Import Prelude RelayFrames Types Prog Demo DemoProbes DemoLogic DemoTheory.
From S2P Require Import DemoProbesTheory DemoEnds.

(** What was written, the chunks to read back, the datagram in flight, the
    clock. *)
Record EchoWorld := MkEchoWorld {
  sent : bytes;
  reply : list bytes;
  wire : bytes;
  clock : Z;
}.
#[local] Instance EchoWorld_eta : Eta EchoWorld := fun w =>
  MkEchoWorld (sent w) (reply w) (wire w) (clock w).

(** U+0149, whose upper case is U+02BC U+004E, and the others left alone. *)
Definition toy_upper (c : bytes) : bytes :=
  if decide (c = [Byte.xc5; Byte.x89]) then [Byte.xca; Byte.xbc; Byte.x4e] else c.
Definition toy_dbg (A : Type) (a : A) : string := "_".
Definition toy_hex (b : bytes) : string := bytes_str b.
Definition toy_unhex (s : string) : Result bytes string := Ok (str_bytes s).

Definition echo_respond (c : Api.call) (w : EchoWorld) : Api.answer c * EchoWorld :=
  match c return Api.answer c * EchoWorld with
  | Api.Now => (clock w, w <| clock ::= Z.add 3000000 |>)
  | Api.Finish _ => (Ok tt, w <| reply := [(server_echo toy_upper (sent w)).1] |>)
  | Api.Write _ b => (Ok tt, w <| sent ::= fun l => l ++ b |>)
  | Api.Read _ _ =>
      match reply w with
      | chunk :: rest => (Ok (Some chunk), w <| reply := rest |>)
      | [] => (Ok None, w)
      end
  | Api.SendDatagram _ b => (Ok tt, w <| wire := b |>)
  | Api.RecvDatagram _ => (Ok (wire w), w)
  | Api.MaxDatagramSize _ => (Some 1200, w)
  | Api.WaitFor _ | Api.Println _ | Api.Flush | Api.AddAlpn _ _ | Api.RelayUrl _ _
  | Api.UdpBindAddr _ _ | Api.EnableWebrtc _ _ | Api.CloseEndpoint _ | Api.CloseConn _ _ _
  | Api.DropConn _ | Api.WriteDrop _ | Api.Abandon _ _ | Api.DropSend _ | Api.ReadDrop _
  | Api.DropRecv _ => (tt, w)
  | Api.GenerateEd25519 | Api.GenerateEcdsaP256 | Api.OpenBi _ | Api.AcceptBi _ => (Ok (1, 2), w)
  | Api.ExportKeyRaw _ => (Ok [], w)
  | Api.Generate | Api.FromKeys _ _ | Api.Bind _ | Api.Connect _ _ _ | Api.Accept _ | Api.OpenUni _
  | Api.AcceptUni _ | Api.ReadVia _ => (Ok 1, w)
  | Api.IdentityId _ | Api.Id _ | Api.Peer _ => (str_bytes "me", w)
  | Api.OptionsNew _ | Api.PathChanges _ => (1, w)
  | Api.DirectAddr _ => (None, w)
  | Api.ConnectFor _ _ _ _ => (None, w)
  | Api.Path _ => (PkWebrtc, w)
  | Api.PathRead _ _ => (Some (false, [PkRelay; PkWebrtc]), w)
  | Api.WaitClosed _ => (None, w)
  | Api.WriteStart _ _ | Api.WritePoll _ | Api.ReadStart _ _ => (false, w)
  | Api.WriteVia _ _ => ((true, Ok tt), w)
  | Api.DataRead _ _ => ((false, []), w)
  | Api.DataDone _ => (Ok tt, w)
  end.

#[local] Instance echo_host : Host := {| World := EchoWorld; respond := echo_respond |}.
#[local] Instance echo_laws : HostLaws.
Proof.
  refine (Build_HostLaws echo_host (fun _ w => length (reply w)) _ (fun _ _ => 0%nat) _ (fun _ _ => 0%nat) _);
    simpl.
  - intros recv max [s [|c l] b t] c' w'; simpl; [done|]. intros [= <- <-]. simpl. lia.
  - by intros data cap w b w' [=].
  - by intros deadline changes w kinds w' [=].
Defined.

Definition w0 : World * list Obs := (MkEchoWorld [] [] [] 0, []).

(** A client that upgrades to WebRTC and exchanges a datagram. *)
Definition config0 : RunConfig :=
  MkRunConfig "http://r" Client (Some "peer"%string) None None None true None None true None
    false false false false "hey".

Definition result_of {A} (r : Run (A * (World * list Obs))) : option A :=
  match r with Done (a, _) => Some a | _ => None end.

Definition client0 : Prog (Result RunReport string) :=
  run_client toy_dbg toy_hex toy_unhex 5 1 config0.

Example client0_report :
  result_of (client0 w0) =
  Some (Ok (MkRunReport "" "me" "webrtc" 3 3 "HEY" (Some "datagram hey"%string))).
Proof. vm_compute. reflexivity. Qed.

Lemma client_success_witness :
  exists report w', client0 w0 = Done (Ok report, w') /\
    client_run toy_hex toy_unhex 1 config0 report w'.2 /\ received report = "HEY"%string.
Proof.
  destruct (client0 w0) as [[[report|e] w']| |] eqn:E; [|exfalso; pose proof client0_report as Hr; rewrite E in Hr; discriminate Hr..].
  exists report, w'. split; [done|].
  destruct (client_success toy_dbg toy_hex toy_unhex 5 1 config0 w0 (Ok report) w' E) as (t & Ht & Hc).
  split; [by rewrite Ht|]. pose proof client0_report as Hr. rewrite E in Hr. simpl in Hr. by injection Hr as ->.
Defined.

Lemma demo_terminates_witness :
  exists fuel r, forall n, (fuel <= n)%nat ->
    run toy_dbg toy_hex toy_unhex toy_upper n config0 w0 = Done r.
Proof. exact (demo_terminates toy_dbg toy_hex toy_unhex toy_upper config0 w0). Defined.

(** A message the client rejects although the server echoed it: its upper case
    is longer than it. *)
Definition config1 : RunConfig :=
  MkRunConfig "http://r" Client (Some "peer"%string) None None None false None None false None
    false false false false (bytes_str [Byte.xc5; Byte.x89]).

Example echo_length_mismatch :
  result_of (run_client toy_dbg toy_hex toy_unhex 5 1 config1 w0) =
  Some (Err "echo length mismatch: sent 2, got 3"%string).
Proof. vm_compute. reflexivity. Qed.
