(* ===== verification/DriverExamples.v ===== *)
(** Concrete runs of the drivers and the experiments: each applies a theorem
    where its hypotheses hold. *)
From stdpp Require Import pretty.
From S2P Require Import Prelude RelayFrames Types Text Prog Demo Cli.
From S2P Require NativeTheory Native DriversTheory.
From S2P Require Import PingDemo PingTheory ExecModel Drivers.
From S2P Require PingRun.

(** ** Command lines *)

Definition cli0 : HostCli.Cli :=
  HostCli.MkCli "demo.wasm" Client "http://r" (Some "ab"%string) None (Some "--webrtc"%string) None true None
    (Some 4096) true (Some 4294967295) false false false false "--message".

Lemma parse_args_roundtrip_witness :
  HostCli.parse_args
    ["demo.wasm"; "--role"; "client"; "--relay"; "http://r"; "--peer"; "ab"; "--udp-bind"; "--webrtc";
     "--webrtc"; "--payload-bytes"; "4096"; "--datagram"; "--datagram-ceiling"; "4294967295";
     "--message"; "--message"] = Ok cli0.
Proof. apply (HostCli.parse_args_roundtrip cli0); intros n [= <-]; by vm_compute. Defined.

(** Any argument that is no flag is refused, and so is a number too large. *)
Example parse_args_refuses :
  HostCli.parse_args ["demo.wasm"; "--role"; "client"; "--relay"; "r"; "extra"] = Err usage /\
  HostCli.parse_args ["demo.wasm"; "--role"; "peer"; "--relay"; "r"] = Err usage /\
  HostCli.parse_args ["demo.wasm"; "--relay"; "r"] = Err usage /\
  HostCli.parse_args ["demo.wasm"; "--role"; "client"; "--relay"; "r"; "--datagram-ceiling"; "4294967296"] = Err usage.
Proof. by vm_compute. Qed.

(** ** The two ends' conventions *)

(** A long message in capitals survives the demo's verbatim echo; one with a
    small letter does not. *)
Definition long_message (c : byte) : string := bytes_str (replicate 4097 c).


(** ** The ping demo *)

Definition no_command (b : bytes) : option PageCommand := None.
Definition hash_all (b : bytes) : Result string string := Ok "hash"%string.
Definition from_page (l : list Z) : Turn := FromPage (z2b <$> l) true true.

(** The joiner's page sends two frames, with a stray chunk between them. *)
Definition page0 : list Turn := [from_page [0x7b; 0x7d]; from_page [1; 5; 5]; from_page [0x68]].
Definition ferried0 : Session :=
  MkSession None [event "connected" [text_field "peer" "host"]]
    (frame [] ++ frame [Byte.x7b; Byte.x7d] ++ frame [Byte.x68]) [] [].

Lemma ferry_delivers_witness :
  ferry no_command hash_all page0 (session_start "host" (frame [])) = Done (ferried0, None) /\
  reader 10 (take 9 (to_peer ferried0)) = Done [[]; [Byte.x7b; Byte.x7d]; [Byte.x68]].
Proof.
  assert (ferry no_command hash_all page0 (session_start "host" (frame [])) = Done (ferried0, None)) as Hf
    by (vm_compute; reflexivity).
  split; [exact Hf|].
  destruct (ferry_delivers no_command hash_all false false true true (frame []) "host" page0 ferried0 None 9 10
    eq_refl Hf ltac:(lia)) as (ps & d & Hr & _ & _ & Hps & Hd).
  rewrite Hr. rewrite (Hd ltac:(done) ltac:(vm_compute; lia)), (Hps eq_refl). vm_compute. reflexivity.
Defined.

(** A file of three bytes in two chunks, with a frame for the peer between. *)
Definition uploading : Session := MkSession (Some (MkUpload 7 "f" 3 [])) [] [] [] [].
Definition upload0 : list Turn := [from_page [1; 10; 11]; from_page [0x7b]; from_page [1; 12]].

Lemma upload_stored_witness :
  exists s, ferry no_command hash_all upload0 uploading = Done (s, None) /\
    stored s = [[Byte.x0a; Byte.x0b; Byte.x0c]] /\ upload s = None /\ length (to_page s) = 1%nat.
Proof.
  destruct (ferry no_command hash_all upload0 uploading) as [[s [e|]]| |] eqn:Hf; [by vm_compute in Hf| |by vm_compute in Hf..].
  exists s. split; [done|].
  destruct (upload_stored no_command hash_all upload0 uploading s (MkUpload 7 "f" 3 []) [Byte.x0a; Byte.x0b; Byte.x0c])
    as (Hu & Hs & Hp); try done.
  { vm_compute. repeat constructor; done. }
  by rewrite Hu, Hs, Hp.
Defined.

(** A session against a page that sends what is left of its script; the stream and
    the store hold. *)
Definition page_respond (c : PingRun.PingApi.call) (page : list bytes) : PingRun.PingApi.answer c * list bytes :=
  match c return PingRun.PingApi.answer c * list bytes with
  | PingRun.PingApi.PageOrClosed _ _ _ => match page with d :: page => (Some (Ok d), page) | [] => (None, []) end
  | PingRun.PingApi.SendTo _ _ _ | PingRun.PingApi.WriteAll _ _ => (Ok tt, page)
  | PingRun.PingApi.AcceptBi _ | PingRun.PingApi.OpenBi _ => (Ok (5, 6), page)
  | PingRun.PingApi.AddBytes _ content => (hash_all content, page)
  | PingRun.PingApi.UdpBind | PingRun.PingApi.BindEndpoint _ _ _ _ | PingRun.PingApi.Handshake _ => (Ok 0, page)
  | PingRun.PingApi.RecvFrom _ _ | PingRun.PingApi.ReadExact _ _ => (Err "closed"%string, page)
  | PingRun.PingApi.EndpointId _ | PingRun.PingApi.RemoteId _ => (array_of 32 Byte.x00, page)
  | PingRun.PingApi.EnvVar _ | PingRun.PingApi.ParseRelayUrl _ | PingRun.PingApi.ParseEndpointId _
  | PingRun.PingApi.Dial _ _ _ _ _ | PingRun.PingApi.Accept _ | PingRun.PingApi.RecvSession => (None, page)
  | PingRun.PingApi.GenerateSecret | PingRun.PingApi.Alpn _ | PingRun.PingApi.BoundSockets _
  | PingRun.PingApi.Addrs _ | PingRun.PingApi.Paths _ => ([], page)
  | PingRun.PingApi.SpawnOverlay _ _ _ _ | PingRun.PingApi.SpawnAcceptor _ _ _ | PingRun.PingApi.SpawnReader _ _
  | PingRun.PingApi.SpawnWatcher _ _ | PingRun.PingApi.SpawnFetch _ _ _ _ _ _ | PingRun.PingApi.MemStore => (0, page)
  | PingRun.PingApi.LoadBusy => (false, page)
  | PingRun.PingApi.Sleep _ | PingRun.PingApi.Online _ | PingRun.PingApi.AddExternalAddr _ _
  | PingRun.PingApi.CloseConn _ _ _ | PingRun.PingApi.Abort _ | PingRun.PingApi.SendSession _
  | PingRun.PingApi.StoreBusy _ | PingRun.PingApi.SpawnBlobs _ _ => (tt, page)
  end.

#[local] Instance page_host : Prog.Host PingRun.ping_api :=
  Prog.Build_Host PingRun.ping_api (list bytes) page_respond.

#[local] Program Instance page_laws : PingRun.PageLaws := {| PingRun.unpaged := length |}.
Next Obligation. intros [] w r w'; simpl; intros [= <- <-] || (destruct w; intros [= <- <-]); simpl; lia. Qed.
Next Obligation. intros page conn room [|d w] r w'; simpl; intros [= <- <-]. split; [lia|eauto]. Qed.
Next Obligation. by intros sock dgram port w r w' [= <- <-]. Qed.

(** The joiner's page sends a frame, and a file of two bytes in two chunks. *)
Definition script0 : list bytes := [[Byte.x7b]; [Byte.x02]; [Byte.x01; Byte.x0a]; [Byte.x01; Byte.x0b]].
Definition a_file (b : bytes) : option PageCommand :=
  match b with [Byte.x02] => Some (Send 7 "f" 2) | _ => None end.

Definition host_id : array 32 -> string := fun _ => "host"%string.
Definition scripted : Prog.World (Host := page_host) * list (Prog.Obs PingRun.ping_api) := (script0, []).

Definition script_calls : list (Prog.Obs PingRun.ping_api) :=
  match PingRun.session host_id a_file 5 1 2 3 4 false scripted with Done (_, (_, t)) => t | _ => [] end.

Lemma script_run : PingRun.session host_id a_file 5 1 2 3 4 false scripted = Done (tt, ([], script_calls)).
Proof. vm_compute. reflexivity. Qed.
Lemma script_stored : Forall (PingRun.store_is hash_all) script_calls.
Proof. apply Forall_fold_right. vm_compute. by repeat split. Qed.


Lemma one_session_witness :
  exists h, relations.rtc (hub_step [Byte.x01]) (hub_new true) h /\ active h = Some 1 /\ busy h = true /\
    served h ++ option_list (active h) ++ waiting h = [1; 2].
Proof.
  destruct (extra_participant_held [Byte.x01] [] ltac:(done)) as (h & Hr & Ha & Hq & Hv).
  exists h. split; [exact Hr|]. destruct (one_session [Byte.x01] true h Hr) as (Hb & Ho & _).
  split; [exact Ha|]. split; [apply Hb; by rewrite Ha|]. rewrite <- Ho. unfold admitted. by rewrite Hv.
Defined.

(** ** The execution-model probes *)

(** The driver's consumer as the stream's reader: it takes whole writes until it
    has dropped the stream. *)
Definition driver_write (r : CountThenDrop * Z) (b : bytes) : bytes * (CountThenDrop * Z) :=
  match reported r.1, b with
  | Some _, _ | _, [] => (b, r)
  | None, _ => ([], ((poll_consume b false r.1).2, r.2 + Z.of_nat (length b)))
  end.

Lemma driver_write_taken r b rest r' :
  driver_write r b = (rest, r') ->
  rest `suffix_of` b /\ r'.2 = r.2 + (Z.of_nat (length b) - Z.of_nat (length rest)).
Proof.
  unfold driver_write. destruct (reported r.1), b; intros [= <- <-]; (split; [done || apply suffix_nil|]); simpl; lia.
Qed.

Lemma fill_outcome_witness :
  exists r, fill driver_write 102 100000 1000 0 (consumer_new 2500, 0)
    = Done (Ok "reader stopped after 3000 bytes (1000 unwritten)"%string, r) /\ r.2 = 3000.
Proof.
  destruct (fill_outcome driver_write snd driver_write_taken 100000 1000 (consumer_new 2500, 0) 102
    ltac:(lia) ltac:(lia) ltac:(by vm_compute)) as (r & Hr & [[Hf Ht]|(left & Hl & Ht & Hf)]).
  - exfalso. by vm_compute in Hf.
  - exists r. assert (fill driver_write 102 100000 1000 0 (consumer_new 2500, 0)
      = Done (Ok "reader stopped after 3000 bytes (1000 unwritten)"%string,
              (MkCountThenDrop 3000 2500 (Some 3000), 3000))) as E by (vm_compute; reflexivity).
    split; [|by rewrite E in Hf; injection Hf as _ <-]. rewrite E. rewrite E in Hf. by injection Hf as _ <-.
Defined.

(** The guest's report and the driver's count agree. *)
Example driver_counts :
  consume (replicate 3 (replicate 1000 Byte.x42)) (consumer_new 2500)
  = (Some Dropped, MkCountThenDrop 3000 2500 (Some 3000)).
Proof. vm_compute. reflexivity. Qed.

(** ** The probes' driver, run with the guest *)

(** A runtime for the probes: the guest's definitions answer its calls, a pipe
    hands each write to its consumer at once. *)
Record Runtime := MkRuntime {
  statics : Statics;
  pending : Z * Z;
  received : option Z;
  source : bytes;
}.

Definition runtime_new : Runtime := MkRuntime (MkStatics None None) (0, 0) None [].
Definition probed : Outcome := Ok "x25519 ok, pub[0..4]=01020304".

Definition probe_respond (c : HostApi.call) (r : Runtime) : HostApi.answer c * Runtime :=
  match c with
  | HostApi.EnvVar _ => (None, r)
  | HostApi.Println _ => (tt, r)
  | HostApi.LinkerNew _ | HostApi.StoreNew _ _ => (0, r)
  | HostApi.EngineNew _ | HostApi.FromFile _ _ | HostApi.Instantiate _ _ _ => (Ok 0, r)
  | HostApi.AddToLinker _ _ => (Ok tt, r)
  | HostApi.CallRun _ _ => (Err "no such export"%string, r)
  | HostApi.CallBlockonInSpawn _ => (Ok (blockon_in_spawn (Some probed)), r)
  | HostApi.CallStartPump _ =>
      (Ok (Ok tt), MkRuntime (pump_reports probed (start_pump (statics r))) (pending r) (received r) (source r))
  | HostApi.CallPollPump _ =>
      let '(o, s) := poll_pump (statics r) in
      (ok_or "still running"%string o, MkRuntime s (pending r) (received r) (source r))
  | HostApi.CallOpenStream _ total chunk => (Ok 1, MkRuntime (statics r) (total, chunk) None (source r))
  | HostApi.Channel => ((1, 1), r)
  | HostApi.Pipe _ _ consumer _ =>
      match open_stream pipe 200 (pending r).1 (pending r).2 consumer (statics r) with
      | Done (s, c) => (Ok tt, MkRuntime s (pending r) (reported (consumer_drop c)) (source r))
      | _ => (Err "trap"%string, r)
      end
  | HostApi.CallStreamOutcome _ =>
      let '(o, s) := poll_stream_outcome (statics r) in
      (ok_or "still running"%string o, MkRuntime s (pending r) (received r) (source r))
  | HostApi.TryRecv _ => (received r, r)
  | HostApi.StreamNew _ content => (Ok 1, MkRuntime (statics r) (pending r) (received r) content)
  | HostApi.CallSinkStream _ _ =>
      let reads := (fun b => (b, true)) <$> chunks 4096 (source r) in
      (ok_or "still running"%string (sink_stream (reads ++ [([], false)])), r)
  end.

#[local] Instance probe_host : Prog.Host host_api := {| Prog.World := Runtime; Prog.respond := probe_respond |}.

(** What the whole run prints. *)
Example probes_printed :
  match probe_main (H := probe_host) [] (runtime_new, []) with
  | Done (r, w) => r = Ok tt /\ DriversTheory.printed w.2 =
      ["PROBE blockon-in-spawn: ok: block_on inside spawn (export live): x25519 ok, pub[0..4]=01020304";
       "PROBE blockon-in-detached-pump: ok: block_on in detached pump (no export live): x25519 ok, pub[0..4]=01020304";
       "PROBE export-stream-complete: ok: host read 5000, guest: wrote all 5000 bytes";
       "PROBE export-stream-reader-drop: ok: host read 3000, guest: reader stopped after 3000 bytes (1000 unwritten)";
       "PROBE import-stream-sink: ok: guest counted 12345 bytes";
       "exec-model probes complete"]%string
  | _ => False
  end.
Proof. vm_compute. done. Qed.

