(* ===== verification/Examples.v ===== *)
(** Concrete runs on the executable noq instance of [Noq.v]: each applies one
    contract of the development at an input where its hypotheses hold. *)
From S2P Require Import Prelude RelayFrames RelayConn Types Udp Noq Identity State StateInv.
From S2P Require Import Drain DrainInv Rely Redial Pump PumpInv PumpTheory Connection Streams.
From S2P Require Import StreamsInv Endpoint EndpointInv Webrtc System Table Lifecycle.
From S2P Require Import Wakeups Select.

#[local] Existing Instance Toy.noq.
#[local] Existing Instance Toy.noq_laws.
#[local] Existing Instance Toy.stream_laws.
#[local] Existing Instance Toy.handshake_laws.
#[local] Existing Instance Toy.conn_eta.

Definition alice : EndpointId := array_of 32 Byte.x01.
Definition bob : EndpointId := array_of 32 Byte.x02.

(** A fresh endpoint with WebRTC enabled. *)
Definition s0 : State := State_new 0 true.
Lemma s0_wf : wf s0.
Proof. apply State_new_wf. Qed.
Lemma s0_room : room s0.
Proof. by split. Qed.

(** ** Peers, routes and signals *)

Lemma addr_for_peer_stable_witness :
  wf s0 /\
  let '(a, st1) := addr_for_peer alice 7 s0 in
  addr_for_peer alice 9 st1 = (a, st1) /\ routes st1 !! a = Some (RouteRelay 7) /\
  peer_to_addr st1 !! bob <> Some a.
Proof.
  split; [apply s0_wf|].
  pose proof (addr_for_peer_stable alice bob 7 9 s0 s0_wf ltac:(done)) as H.
  destruct (addr_for_peer alice 7 s0) as [a st1] eqn:E. destruct H as (H1 & _ & H2 & H3 & _).
  split; [done|]. split; [exact H2|]. by apply H3.
Defined.

Lemma channel_route_lifecycle_witness :
  wf s0 /\ closed s0 = false /\
  exists a, routes (register_channel alice 3 s0).2 !! a = Some (RouteChannel 1) /\
    routes (retire_channel 1 (register_channel alice 3 s0).2) !! a = Some (RouteRelay HOME_RELAY).
Proof.
  split; [apply s0_wf|]. split; [done|].
  pose proof (channel_route_lifecycle alice 3 s0 s0_wf ltac:(done) ltac:(done) ltac:(done)) as H.
  destruct (register_channel alice 3 s0) as [r st1]. destruct H as (a & _ & _ & H1 & H2 & _).
  by exists a.
Defined.

Lemma retire_channel_routes_witness :
  let st := (register_channel alice 3 s0).2 in
  wf st /\ (exists a, routes st !! a = Some (RouteChannel 1)) /\
  forall a, routes (retire_channel 1 st) !! a <> Some (RouteChannel 1).
Proof.
  intros st. assert (wf st) as Hwf by (by apply register_channel_wf; [apply s0_wf|..]).
  split; [done|]. split; [|apply (retire_channel_routes 1 st Hwf)].
  exists (doc_prefix_addr 0x77 1). vm_compute. reflexivity.
Defined.

Lemma handle_signal_contract_witness :
  wf s0 /\
  let st' := handle_signal 5 alice [Byte.x7b] s0 in
  signal_inboxes st' = {[ alice := [[Byte.x7b]] ]} /\ effects st' = [SpawnAnswer alice].
Proof.
  split; [apply s0_wf|]. intros st'.
  destruct (handle_signal_contract 5 alice [Byte.x7b] s0 s0_wf) as (H1 & _ & H2 & _).
  split; [exact H1|exact (proj2 H2)].
Defined.

(** ** One connection *)

(** A state whose only connection, in slot 0, is [e], with the accept queue [q]. *)
Definition one (e : ConnEntry) (q : list (ConnectionHandle * Z)) : State :=
  s0 <| conns := {[ 0 := e ]} |> <| next_conn_epoch := 1 |> <| accept_queue := q |>.

Lemma one_wf e q :
  epoch e = 0 -> authenticated e ->
  Forall (fun x => x.2 = 0 /\ accepted_side e = true /\ connected e = true) q ->
  wf (one e q).
Proof.
  intros He Ha Hq. rewrite Forall_forall in Hq. pose proof s0_wf as Hwf. wf_parts Hwf.
  assert (forall h e', ({[ 0 := e ]} : gmap Z ConnEntry) !! h = Some e' -> h = 0 /\ e' = e) as Hone.
  { intros h e' Hl. by apply lookup_singleton_Some in Hl as [<- <-]. }
  constructor; [lia|..].
  - intros h e' [-> ->]%Hone. lia.
  - intros h ep Hin. specialize (Hq _ Hin) as [Heq _]. simpl in Heq. lia.
  - intros h ep e' Hin [-> ->]%Hone _. by specialize (Hq _ Hin) as (_ & ? & ?).
  - by intros h e' [-> ->]%Hone.
Qed.

(** Bob's raw public key certificate, and a connection about to report its
    handshake and a datagram to send. *)
Definition bob_spki : bytes := replicate 12 Byte.x30 ++ array_bytes bob.
Definition greeting : Toy.conn :=
  (Toy.fresh Toy.home) <| Toy.certs := Some [bob_spki] |> <| Toy.events := [Connected] |>
    <| Toy.transmits := [(Toy.home, [Byte.x68])] |>.

Definition dialing : ConnEntry := ConnEntry_new greeting (Some bob) false 0.
Lemma dialing_wf : wf (one dialing []).
Proof. by apply one_wf. Qed.



(** ** The pump: a home relay that fails *)

Definition rc0 : RelayConn := MkRelayConn [] 0 None 0 false.
Definition u0 : UdpWire := MkUdpWire Toy.home.
Definition p0 : Pump := bound 0 0 true "http://home" 7 rc0 (Some u0).
Definition get (r : Run Pump) : Pump := match r with Done p => p | _ => p0 end.
(** One turn to the select, then the receive on the home relay fails. *)
Definition p1 : Pump := get (turn_top 10 0 [] p0).
Definition p_select : Pump := arm 0 [(0, 7)] (flush_channel (flush_udp (flush_relay p1))).
Definition p_failed : Pump :=
  get (on_relay_event 1 None 0 7 (Err "gone"%string) (p_select <| relay_recvs := [] |> <| pc := Top |>)).

Lemma by_pump (p p' p'' : Pump) :
  room (st p) -> pump_step p p' -> relations.rtc world p' p'' -> relations.rtc world p p''.
Proof. intros Hr Hs. apply rtc_l. split; [done|by apply world_pump]. Qed.

Lemma by_caller (p p'' : Pump) s :
  room (st p) -> caller_op None (st p) s -> relations.rtc world (p <| st := s |>) p'' ->
  relations.rtc world p p''.
Proof.
  intros Hr Hop. apply rtc_l. split; [done|].
  replace (p <| st := s |>) with (p <| wires ::= add_wire None rc0 |> <| st := s |>) by by destruct p.
  by apply world_caller.
Qed.

Lemma select_reached : relations.rtc world p0 p_select.
Proof.
  apply (by_pump _ p1); [by split|eapply (step_top p0 p1 10 0 []); vm_compute; reflexivity|].
  apply (by_pump _ (flush_relay p1)); [by split|by apply step_flush_relay|].
  apply (by_pump _ (flush_udp (flush_relay p1))); [by split|by apply step_flush_udp|].
  apply (by_pump _ (flush_channel (flush_udp (flush_relay p1)))); [by split|by apply step_flush_channel|].
  apply (by_pump _ p_select); [by split|apply step_arm; [done|]|apply rtc_refl].
  vm_compute. reflexivity.
Qed.

Lemma live_from_bind p : relations.rtc world p0 p -> live_system p.
Proof. intros H. by exists 0, 0, true, "http://home"%string, 7, rc0, (Some u0). Qed.

Lemma from_bind p : relations.rtc world p0 p -> reachable p.
Proof. intros H. by apply live_reachable, live_from_bind. Qed.

Lemma failed_reached : reachable p_failed.
Proof.
  apply from_bind. etransitivity; [apply select_reached|].
  apply (by_pump _ p_failed); [by split| |apply rtc_refl].
  apply (step_relay_event p_select p_failed 0 7 [] 1 None (Err "gone"%string)); [done| |].
  - vm_compute. reflexivity.
  - vm_compute. reflexivity.
Qed.

Lemma home_relay_watched_witness :
  reachable p_failed /\ closed (st p_failed) = false /\
  relay_pool (st p_failed) !! HOME_RELAY = None /\ exists delay, redial p_failed = Some delay.
Proof.
  split; [apply failed_reached|]. split; [done|].
  destruct (home_relay_watched p_failed failed_reached ltac:(done)) as [_ [(c & Hc & _)|H]]; [|exact H].
  vm_compute in Hc. discriminate Hc.
Defined.

Lemma one_receive_per_relay_witness :
  reachable p_select /\ NoDup (pending_relays p_select).*2 /\ (0, 7) ∈ pending_relays p_select.
Proof.
  assert (reachable p_select) as Hr by (apply from_bind, select_reached).
  split; [exact Hr|]. destruct (one_receive_per_relay p_select Hr) as (H1 & H2 & _).
  split; [exact H1|]. by apply H2.
Defined.

Lemma pump_never_stuck_witness :
  reachable p_failed /\ room (st p_failed) /\ exists p', pump_step p_failed p'.
Proof.
  split; [apply failed_reached|]. split; [by split|].
  by apply (pump_never_stuck p_failed failed_reached ltac:(by split)).
Defined.

Lemma arm_decides_witness :
  let p := flush_channel (flush_udp (flush_relay p1)) in
  [(0, 7)] ≡ₚ map_to_list (relay_pool (st p)) /\ closed (st p) = false /\ pc (arm 0 [(0, 7)] p) = Select.
Proof.
  intros p. assert ([(0, 7)] ≡ₚ map_to_list (relay_pool (st p))) as Ho by (vm_compute; reflexivity).
  split; [exact Ho|]. split; [done|].
  destruct (arm_decides 0 [(0, 7)] p Ho) as [_ H]. by apply H; intros [? _].
Defined.

(** *** A channel opens *)

Definition p_channel : Pump := p_select <| st := (register_channel alice 3 (st p_select)).2 |>.

Lemma channel_reached : relations.rtc world p0 p_channel.
Proof.
  etransitivity; [apply select_reached|]. eapply by_caller; [by split|apply (op_register_channel alice 3)|].
  apply rtc_refl.
Qed.

Lemma one_receive_per_channel_witness :
  reachable p_channel /\ running (pc p_channel) = true /\ (1, 3) ∈ pending_channels p_channel.
Proof.
  assert (reachable p_channel) as Hr by (apply from_bind, channel_reached).
  split; [exact Hr|]. split; [done|].
  apply (one_receive_per_channel p_channel Hr ltac:(done)).
  exists (MkChannelEntry 3 alice HOME_RELAY). split; [vm_compute; reflexivity|done].
Defined.

(** *** The pump asleep *)

Definition nothing : Completed := MkCompleted None None None None false.
(** A turn that takes the kick bind left, back to the select: nothing to do. *)
Definition p_kicked : Pump := p_select <| st := (kicked_poll 0 (st p_select)).2 |> <| pc := Top |>.
Definition p_turned : Pump := get (turn_top 10 0 [] p_kicked).
Definition p_idle : Pump := arm 0 [(0, 7)] (flush_channel (flush_udp (flush_relay p_turned))).
(** The pump sleeps on waker 5, and a signal for alice is queued. *)
Definition p_asleep : Pump := p_idle <| st := (kicked_poll 5 (st p_idle)).2 |>.
Definition s_signaled : State := push_signal_outbound HOME_RELAY alice [Byte.x7b] (st p_asleep).

Lemma idle_reached : relations.rtc world p0 p_idle.
Proof.
  etransitivity; [apply select_reached|].
  apply (by_pump _ p_kicked); [by split|apply (step_kicked _ 0); vm_compute; reflexivity|].
  apply (by_pump _ p_turned); [by split|eapply (step_top p_kicked p_turned 10 0 []); vm_compute; reflexivity|].
  apply (by_pump _ (flush_relay p_turned)); [by split|by apply step_flush_relay|].
  apply (by_pump _ (flush_udp (flush_relay p_turned))); [by split|by apply step_flush_udp|].
  apply (by_pump _ (flush_channel (flush_udp (flush_relay p_turned)))); [by split|by apply step_flush_channel|].
  apply (by_pump _ p_idle); [by split|apply step_arm; [done|vm_compute; reflexivity]|apply rtc_refl].
Qed.

Lemma asleep_reached : relations.rtc world p0 p_asleep.
Proof.
  etransitivity; [apply idle_reached|].
  apply (by_pump _ p_asleep); [by split| |apply rtc_refl].
  apply (step_parked p_idle 5 (kicked_poll 5 (st p_idle)).2); vm_compute; reflexivity.
Qed.

Lemma pump_never_sleeps_on_work_witness :
  live_system p_asleep /\ queued (st p_asleep) = ([], [], [], [], [], []) /\
  queued s_signaled <> queued (st p_asleep) /\ pump_kicked s_signaled = true /\ woken 5 (st p_asleep) s_signaled.
Proof.
  pose proof (live_from_bind _ asleep_reached) as Hl. split; [exact Hl|].
  destruct (pump_never_sleeps_on_work p_asleep None s_signaled Hl) as (Hq & _ & Hop).
  assert (queued s_signaled <> queued (st p_asleep)) as Hne by by vm_compute.
  destruct (Hop ltac:(by split) (op_push_signal _ _ _ _) Hne) as [Hk Hw].
  split; [by apply Hq|]. split; [exact Hne|]. split; [exact Hk|by apply Hw].
Defined.

Lemma select_turn_refines_witness :
  live_system p_idle /\ exists p', select_turn 5 0 None [(0, 7)] nothing p_idle = Done p' /\
    pc p' = Select /\ pump_waker (st p') = Some 5.
Proof.
  pose proof (live_from_bind _ idle_reached) as Hl. split; [exact Hl|].
  destruct (select_turn_refines 5 0 None [(0, 7)] nothing p_idle Hl) as (p' & Hrun & _ & H);
    [by split|done|vm_compute; reflexivity|done|].
  exists p'. split; [exact Hrun|]. destruct H as [[_ H]|H]; [|by destruct H as (? & ? & _)].
  exfalso. destruct H as [[x H]|[[x H]|[[x H]|[[x H]|[H|H]]]]]; vm_compute in H; discriminate H.
Defined.

(** A task waiting on the endpoint, while it is closed. *)
Definition p_waiting : Pump := p_select <| st := st p_select <| waiters ::= fun l => l ++ [9] |> |>.
Definition p_closing : Pump := p_waiting <| st := endpoint_close 5 (st p_waiting) |>.

Lemma waiting_reached : relations.rtc world p0 p_waiting.
Proof.
  etransitivity; [apply select_reached|]. eapply by_caller; [by split|apply (op_park 9)|apply rtc_refl].
Qed.


(** *** The endpoint closes *)

Definition q0 : Pump := p_select <| st := endpoint_close 5 (st p_select) |>.
Definition q1 : Pump := q0 <| st := (kicked_poll 0 (st q0)).2 |> <| pc := Top |>.
Definition q2 : Pump := get (turn_top 10 6 [] q1).
Definition q3 : Pump := arm 6 [(0, 7)] (flush_channel (flush_udp (flush_relay q2))).
Definition q4 : Pump := close_channels [] q3.
Definition q5 : Pump := q4 <| relay_recvs := [] |>.
Definition q6 : Pump := q5 <| pc := DrainUdp |> <| udp_recv := false |> <| pc := DrainChannels |>
                           <| pc := DrainTick |> <| tick := false |> <| pc := End |>.

Lemma teardown_reached : relations.rtc world p0 q3.
Proof.
  etransitivity; [apply select_reached|].
  eapply by_caller; [by split|apply (op_close 5)|].
  apply (by_pump _ q1); [by split|apply (step_kicked _ 0); vm_compute; reflexivity|].
  apply (by_pump _ q2); [by split|eapply (step_top q1 q2 10 6 []); vm_compute; reflexivity|].
  apply (by_pump _ (flush_relay q2)); [by split|by apply step_flush_relay|].
  apply (by_pump _ (flush_udp (flush_relay q2))); [by split|by apply step_flush_udp|].
  apply (by_pump _ (flush_channel (flush_udp (flush_relay q2)))); [by split|by apply step_flush_channel|].
  apply (by_pump _ q3); [by split|apply step_arm; [done|vm_compute; reflexivity]|apply rtc_refl].
Qed.

Lemma end_reached : reachable q6.
Proof.
  apply from_bind. etransitivity; [apply teardown_reached|].
  apply (by_pump _ q4); [by split|apply step_wake; vm_compute; reflexivity|].
  apply (by_pump _ q5); [by split|apply (step_drain_relay q4 (0, 7) []); vm_compute; reflexivity|].
  eapply by_pump; [|by apply (step_relays_drained q5)|]; [by split|].
  eapply by_pump; [|by apply step_drain_udp|]; [by split|].
  eapply by_pump; [|by apply step_channels_drained|]; [by split|].
  eapply by_pump; [|by apply step_drain_tick|apply rtc_refl]. by split.
Qed.

Lemma pump_ends_clean_witness :
  reachable q6 /\ pc q6 = End /\ closed (st q6) = true /\ relay_recvs q6 = [] /\ tick q6 = false.
Proof.
  split; [apply end_reached|]. split; [done|].
  destruct (pump_ends_clean q6 end_reached) as [_ H]. by destruct (H eq_refl) as (? & ? & _ & _ & ?).
Defined.

(** ** Streams and connections *)

(** An open connection with four bytes of send credit. *)
Definition open_entry : ConnEntry :=
  ConnEntry_new (greeting <| Toy.events := [] |> <| Toy.credit := 4%nat |> <| Toy.fin := true |>) (Some bob) false 0
    <| peer := Some bob |> <| connected := true |>.
Definition s_open : State := one open_entry [].
Lemma open_wf : wf s_open.
Proof. apply one_wf; [done| |constructor]. intros _. exists bob. split; [done|by right]. Qed.

Definition stream0 : StreamName := MkStreamName 0 0 (0 : StreamId).
Definition hello : bytes := [Byte.x68; Byte.x65; Byte.x79].
Definition run_state {A} (d : State) (r : Run (A * State)) : State := match r with Done (_, s) => s | _ => d end.

Lemma write_exact_witness :
  exists st', write_run stream0 hello 0 s_open (Ok tt) st' /\ accepted stream0 st' = Some hello.
Proof.
  set (st' := run_state s_open (write_check stream0 hello 0 s_open)).
  assert (write_check stream0 hello 0 s_open = Done (Some (Ok tt), 3%nat, st')) as Hc
    by (vm_compute; reflexivity).
  pose proof (wr_done stream0 hello 0 s_open (Ok tt) 3 st' Hc) as Hrun.
  exists st'. split; [exact Hrun|].
  assert (accepted stream0 s_open = Some []) as Hs by (vm_compute; reflexivity).
  destruct (write_exact stream0 hello s_open (Ok tt) st' [] Hs Hrun) as ((n & Hn & Hall) & _).
  rewrite Hn. simpl. f_equal. by apply Hall.
Defined.

Definition writing0 : SendStreamRes :=
  SendStreamRes_new stream0 <| writing := true |> <| s_ops := [Writing hello 0] |>.


(** A read that finds the end of the stream, and the one after it. *)
Definition reading0 : RecvStreamRes := RecvStreamRes_new stream0 <| reading := true |> <| r_ops := [9%nat] |>.
Definition ended0 : RecvStreamRes := RecvStreamRes_new stream0 <| terminal := Some (Ok tt) |>.


Lemma connection_close_contract_witness :
  0 <= 2 ^ 63 /\
  connection_close 3 (MkConnectionRes 0 0 false) (2 ^ 63) [] s_open =
    kick_pump (s_open <| conns ::= <[0 := open_entry <| conn ::= conn_close 3 (2 ^ 62 - 1) [] |>]> |>).
Proof.
  split; [done|].
  by destruct (connection_close_contract 3 (MkConnectionRes 0 0 false) (2 ^ 63) [] s_open ltac:(done)) as [_ H].
Defined.

(** ** The endpoint's operations *)

Lemma connect_dial_contract_witness :
  wf s0 /\
  let '(r, st') := connect_dial 0 tt bob None 7 (Some 0) s0 in
  r = Ok (0, 0) /\ wf st' /\ pending_upgrades st' = [(bob, 0)] /\
  exists a, peer_to_addr st' !! bob = Some a /\ routes st' !! a = Some (RouteRelay 7).
Proof.
  split; [apply s0_wf|].
  pose proof (connect_dial_contract 0 tt bob None 7 (Some 0) s0 s0_wf ltac:(done) ltac:(done)) as H.
  assert (exists st', connect_dial 0 tt bob None 7 (Some 0) s0 = (Ok (0, 0), st') /\
            pending_upgrades st' = [(bob, 0)]) as (st' & Heq & Hup) by (eexists; split; reflexivity).
  rewrite Heq in H. rewrite Heq. destruct H as (Hwf & _ & Hrt & _).
  split; [done|]. split; [exact Hwf|]. split; [exact Hup|]. exact (Hrt eq_refl).
Defined.


(** A queue whose first stamp is stale. *)
Definition accepted_entry : ConnEntry := open_entry <| accepted_side := true |> <| expected_peer := None |>.
Definition s_accept : State := one accepted_entry [(5, 0); (0, 0)].
Lemma accept_wf : wf s_accept.
Proof.
  apply one_wf; [done| |by repeat constructor]. intros _. exists bob. split; [done|by left].
Qed.

Lemma accept_contract_witness :
  wf s_accept /\ (accept_check s_accept).1 = Some (Ok (0, 0)) /\
  exists skipped, Forall (fun x => entry_for s_accept x.1 x.2 = None) skipped /\
    accept_queue s_accept = skipped ++ [(0, 0)].
Proof.
  split; [apply accept_wf|]. pose proof (accept_contract s_accept accept_wf) as H.
  assert ((accept_check s_accept).1 = Some (Ok (0, 0)) /\ accept_queue (accept_check s_accept).2 = [])
    as [Hr Hq] by (vm_compute; done).
  split; [exact Hr|]. destruct (accept_check s_accept) as [r st']. simpl in Hr, Hq. subst r.
  destruct H as (_ & sk & Hsk & Heq & _). exists sk. split; [exact Hsk|]. by rewrite Heq, Hq.
Defined.


(** ** The system *)

(** The dial of an endpoint that is bound, then its close. *)
Definition w1 : Pump := p_select <| st := (connect_dial 0 tt bob None 0 None (st p_select)).2 |>.
Definition w2 : Pump := w1 <| st := connection_close 3 (MkConnectionRes 0 0 false) 0 [] (st w1) |>.
Definition dialed0 : ConnectionRes := MkConnectionRes 0 0 false.

Lemma w1_reached : relations.rtc world p0 w1.
Proof.
  etransitivity; [apply select_reached|].
  eapply by_caller; [by split|apply (op_connect (N := Toy.noq) 0 tt bob None 0 None)|apply rtc_refl].
Qed.

Lemma w2_step : relations.rtc world w1 w2.
Proof. eapply by_caller; [by split|apply (op_conn_close 3 dialed0 0 [])|apply rtc_refl]. Qed.

Lemma connection_lifecycle_witness :
  reachable w1 /\ relations.rtc world w1 w2 /\ conn_state dialed0 (st w1) = CsConnecting /\
  (rank CsConnecting <= rank (conn_state dialed0 (st w2)))%nat.
Proof.
  assert (reachable w1) as Hl by (apply from_bind, w1_reached). split; [exact Hl|].
  split; [exact w2_step|].
  assert (conn_state dialed0 (st w1) = CsConnecting) as Hs by (vm_compute; reflexivity). split; [exact Hs|].
  destruct (connection_lifecycle dialed0 w1 w2 Hl ltac:(vm_compute; reflexivity) w2_step) as (_ & H & _).
  by rewrite Hs in H.
Defined.

Lemma state_well_typed_witness :
  reachable w1 /\ relations.rtc world w1 w2 /\
  (forall a, is_Some (routes (st w2) !! a) <-> is_Some (addr_to_peer (st w2) !! a)).
Proof.
  assert (reachable w1) as Hl by (apply from_bind, w1_reached). split; [exact Hl|]. split; [exact w2_step|].
  exact (proj1 (proj2 (state_well_typed w1 w2 Hl w2_step))).
Defined.

Lemma connection_refines_witness :
  live_system p0 /\ relations.rtc world p0 w1 /\
  life (res_name dialed0) (table_of (st w1)) = (Connecting false (Some bob), false) /\
  relations.rtc life_step (Unborn, false) (Connecting false (Some bob), false).
Proof.
  assert (live_system p0) as Hl by (apply live_from_bind, rtc_refl). split; [exact Hl|].
  split; [exact w1_reached|].
  assert (life (res_name dialed0) (table_of (st w1)) = (Connecting false (Some bob), false)) as Hw
    by (vm_compute; reflexivity).
  split; [exact Hw|].
  destruct (connection_refines dialed0 p0 w1 Hl w1_reached) as (Hr & _ & Hb).
  rewrite Hw in Hr. pose proof (Hb ltac:(done) 0 0 true "http://home"%string 7 rc0 (Some u0)) as Hp0.
  fold p0 in Hp0. by rewrite Hp0 in Hr.
Defined.

(** Two peers connect over UDP. *)
Definition hello_from (x : EndpointId) (p : Pump) : Pump :=
  get (on_udp_event 1 (Ok ([Byte.x01; Byte.x00] ++ replicate 12 Byte.x30 ++ array_bytes x, Toy.home))
         (p <| udp_recv := false |> <| pc := Top |>)).

Definition flushed (now : Instant) (q : Pump) : Pump :=
  arm now [(0, 7)] (flush_channel (flush_udp (flush_relay q))).

Definition v1 : Pump := hello_from bob p_select.
Definition v2 : Pump := flushed 1 (get (turn_top 10 1 [0] v1)).
Definition v3 : Pump := hello_from alice v2.
Definition v4 : Pump := flushed 1 (get (turn_top 10 1 [1; 0] v3)).
Definition v5 : Pump := v4 <| st := (accept_check (st v4)).2 |>.
Definition v6 : Pump := v5 <| st := (accept_check (st v5)).2 |>.

Lemma turn_run now order p q :
  room (st p) -> room (st q) -> pc p = Top -> order ≡ₚ (map_to_list (conns (st p))).*1 ->
  turn_top 10 now order p = Done q -> pc q = FlushRelay ->
  relay_outbound (st q) = [] -> udp_outbound (st q) = [] -> channel_outbound (st q) = [] ->
  [(0, 7)] ≡ₚ map_to_list (relay_pool (st q)) ->
  relations.rtc world p (flushed now q).
Proof.
  intros Hr Hq Hpc Ho Hrun Hpq Ho1 Ho2 Ho3 Hp.
  apply (by_pump _ q); [done|by eapply step_top|].
  assert (flush_relay q = q <| pc := FlushUdp |>) as H1 by (unfold flush_relay; by rewrite Ho1).
  assert (flush_udp (flush_relay q) = q <| pc := FlushChannel |>) as H2
    by (rewrite H1; unfold flush_udp; simpl; by rewrite Ho2).
  assert (flush_channel (flush_udp (flush_relay q)) = q <| pc := Arm |>) as H3
    by (rewrite H2; unfold flush_channel; simpl; by rewrite Ho3).
  apply (by_pump _ (flush_relay q)); [done|by apply step_flush_relay|].
  apply (by_pump _ (flush_udp (flush_relay q))); [by rewrite H1|by apply step_flush_udp; rewrite H1|].
  apply (by_pump _ (flush_channel (flush_udp (flush_relay q))));
    [by rewrite H2|by apply step_flush_channel; rewrite H2|].
  unfold flushed. rewrite H3.
  apply (by_pump _ (arm now [(0, 7)] (q <| pc := Arm |>))); [done|by apply step_arm|apply rtc_refl].
Qed.

Lemma hello_run x p :
  room (st p) -> pc p = Select -> udp p = Some u0 -> udp_recv p = true ->
  on_udp_event 1 (Ok ([Byte.x01; Byte.x00] ++ replicate 12 Byte.x30 ++ array_bytes x, Toy.home))
    (p <| udp_recv := false |> <| pc := Top |>) = Done (hello_from x p) ->
  relations.rtc world p (hello_from x p).
Proof.
  intros Hr Hpc Hu Hrecv Hrun. eapply by_pump; [done| |apply rtc_refl].
  by eapply (step_udp_event p _ u0 1).
Qed.

Lemma v4_reached : live_system v4.
Proof.
  apply live_from_bind. etransitivity; [apply select_reached|].
  transitivity v1; [apply hello_run; [by split|vm_compute; reflexivity..]|].
  transitivity v2; [eapply (turn_run 1 [0]); [by split|by split|vm_compute; reflexivity..]|].
  transitivity v3; [apply hello_run; [by split|vm_compute; reflexivity..]|].
  eapply (turn_run 1 [1; 0]); [by split|by split|vm_compute; reflexivity..].
Qed.

Lemma stays (p : Pump) s : relations.rtc world (p <| st := st (p <| st := s |>) |>) (p <| st := s |>).
Proof. apply rtc_refl. Qed.

Lemma put_get (p : Pump) s : p <| st := s |> = p <| st := st (p <| st := s |>) |>.
Proof. reflexivity. Qed.

Lemma v5_eq : v5 = v4 <| st := st v5 |>.
Proof. unfold v5. apply put_get. Qed.
Lemma v6_eq : v6 = v5 <| st := st v6 |>.
Proof. unfold v6. apply put_get. Qed.
Lemma v4_accepts : accept_check (st v4) = (Some (Ok (0, 0)), st v5).
Proof. vm_compute. reflexivity. Qed.
Lemma v5_accepts : accept_check (st v5) = (Some (Ok (1, 1)), st v6).
Proof. vm_compute. reflexivity. Qed.

Lemma accepted_once_witness :
  live_system v4 /\ accept_check (st v4) = (Some (Ok (0, 0)), st v5) /\
  (accept_check (st v5)).1 = Some (Ok (1, 1)) /\ (1, 1) <> (0, 0).
Proof.
  split; [exact v4_reached|].
  assert (accept_check (st v4) = (Some (Ok (0, 0)), st v5)) as H1 by (vm_compute; reflexivity).
  split; [exact H1|].
  assert ((accept_check (st v5)).1 = Some (Ok (1, 1))) as H2 by (vm_compute; reflexivity).
  split; [exact H2|]. destruct (accept_check (st v5)) as [r s'] eqn:E. simpl in H2. subst r.
  refine (accepted_once v4 (st v5) (0, 0) v5 (1, 1) s' v4_reached H1 _ E).
  apply stays.
Defined.

Lemma backlog_bounded_witness :
  live_system v4 /\ accept_queue (st v4) = [(0, 0); (1, 1)] /\
  (accept_backlog (st v4) <= 16)%nat /\ NoDup [(0, 0); (1, 1)].
Proof.
  split; [exact v4_reached|].
  assert (accept_queue (st v4) = [(0, 0); (1, 1)]) as Hq by (vm_compute; reflexivity).
  split; [exact Hq|]. destruct (backlog_bounded v4 v4_reached) as [H1 H2]. rewrite Hq in H2.
  by split.
Defined.

(** ** Identities

    A toy signature scheme: keys are their public halves, a signature is the
    key and the message. *)
Definition toy_crypto : Crypto := {|
  WcSigningKey := array 32;
  VerifyingKey := array 32;
  WcError := unit;
  wc_debug _ := "error"%string;
  wc_display _ := "error"%string;
  generate_key _ _ := Ok (alice, alice);
  signing_algorithm_name _ := "Ed25519"%string;
  verifying_algorithm_name _ := "Ed25519"%string;
  can_sign _ := true;
  export_key_raw k := Ok (array_bytes k);
  wc_sign k m := Ok (array_bytes k ++ m);
  wc_verify k m s := if decide (s = array_bytes k ++ m) then Ok tt else Err tt;
  DalekKey := array 32;
  from_bytes k := k;
  dalek_public k := k;
  dalek_sign k m := array_bytes k ++ m;
  public_key_to_spki raw := replicate 12 Byte.x30 ++ raw;
|}.
#[local] Existing Instance toy_crypto.

Lemma toy_spki : SpkiLaws.
Proof. constructor. intros k. apply try_into_array. Qed.

Lemma identity_valid_witness :
  exists i, from_keys bob bob = Ok i /\ constructed i /\
    (exists spki, public_key (signing_key i) = Some spki /\ endpoint_id_from_spki spki = Some bob).
Proof.
  assert (from_keys bob bob = Ok (MkIdentity (Webcrypto (MkWebcryptoEd25519 bob bob_spki)) bob)) as Hk.
  { apply map_err_Ok, from_injected_Ok. split_and!; try done.
    eexists. split; [done|]. done. }
  eexists. split; [exact Hk|]. pose proof (by_keys bob bob _ Hk) as Hc. split; [exact Hc|].
  apply (identity_valid (H0 := toy_spki) _ [] Hc).
Defined.

(** ** Signaling

    A decoder that reads the first byte: an offer, or the end. *)
Definition toy_decode (b : bytes) : option Signal :=
  match b with
  | x :: _ => if b2z x =? 1 then Some (Offer "sdp") else Some SignalDone
  | [] => None
  end.
Definition s_signal : State := handle_signal 5 alice [Byte.x01] s0.

Lemma signals_read_in_order_witness :
  closed s_signal = false /\ signal_inboxes s_signal !! alice = Some [[Byte.x01]] /\
  (next_signal toy_decode 0 alice [(1, fun s => s)] s_signal).1 = Some (Ok (Some (Offer "sdp"), [])).
Proof.
  split; [done|].
  assert (signal_inboxes s_signal !! alice = Some [[Byte.x01]]) as Hi by (vm_compute; reflexivity).
  split; [exact Hi|].
  destruct (signals_read_in_order toy_decode 1 (fun s => s) 0 alice [] s_signal [Byte.x01] [] ltac:(done) Hi)
    as (_ & H & _).
  by rewrite H.
Defined.
