(* ===== verification/HostExamples.v ===== *)
(** The demo's server on an endpoint: a host whose accepts are runs of the
    modelled endpoint's, from the state in which two peers have connected over
    UDP, and the theorem of the demo on the endpoint at that run. *)
From S2P Require Import Prelude RelayFrames Types Prog Demo DemoProbes DemoEndpoint DemoExamples.
From S2P Require Noq State StateInv Pump Connection Endpoint System Lifecycle Methods Examples.

#[local] Existing Instance Noq.Toy.noq.
#[local] Existing Instance Noq.Toy.noq_laws.
#[local] Existing Instance Noq.Toy.handshake_laws.

(** The connections accepted so far, besides the echo host's world. *)
Definition served_respond (c : Api.call) (w : EchoWorld * nat) : Api.answer c * (EchoWorld * nat) :=
  match c return Api.answer c * (EchoWorld * nat) with
  | Api.Accept e =>
      if (e =? 1) && (w.2 <? 2)%nat then (Ok (Z.of_nat w.2), (w.1, S w.2)) else (Err Closed, w)
  | Api.Connect _ _ _ => (Err Closed, w)
  | Api.WaitClosed _ => (Some (MkCloseInfo 17 (str_bytes "demo done")), w)
  | c => let '(r, w1) := echo_respond c w.1 in (r, (w1, w.2))
  end.

#[local] Instance served_host : Host := {| World := EchoWorld * nat; respond := served_respond |}.

Definition stage (n : nat) : Pump.Pump :=
  match n with O => Examples.v4 | S O => Examples.v5 | _ => Examples.v6 end.

Lemma stage_accepts n :
  (n < 2)%nat ->
  Methods.accept_run (stage n) (Ok (Connection.MkConnectionRes (Z.of_nat n) (Z.of_nat n) false)) (stage (S n)).
Proof.
  intros Hn. destruct n as [|[|n]]; [| |lia].
  - exists Examples.v4, (Ok (0, 0)), (Pump.st Examples.v5). split; [apply rtc_refl|]. split; [by split|].
    split; [exact Examples.v4_accepts|]. split; [reflexivity|exact Examples.v5_eq].
  - exists Examples.v5, (Ok (1, 1)), (Pump.st Examples.v6). split; [apply rtc_refl|]. split; [by split|].
    split; [exact Examples.v5_accepts|]. split; [reflexivity|exact Examples.v6_eq].
Qed.

Definition served_system (w : EchoWorld * nat) (e : Z) : option Pump.Pump :=
  if e =? 1 then Some (stage w.2) else None.
Definition served_resource (w : EchoWorld * nat) (conn : Z) : option Connection.ConnectionRes :=
  if conn <? Z.of_nat w.2 then Some (Connection.MkConnectionRes conn conn false) else None.

(** A call accepts the next connection, or leaves the endpoint alone. *)
Lemma served_cases c w r w' :
  served_respond c w = (r, w') -> w'.2 = w.2 \/ ((w.2 < 2)%nat /\ w'.2 = S w.2).
Proof.
  destruct w as [w n]. intros Hc. apply (f_equal snd) in Hc. cbn [snd] in *. subst w'.
  destruct c; cbn; try (by left).
  - destruct (Nat.leb_spec n 1); rewrite ?andb_true_r, ?andb_false_r; [|by left].
    destruct (_ =? 1); [right; cbn; lia|by left].
  - left. by destruct (reply w).
Qed.

#[local] Instance served_endpoint : EndpointHost.
Proof.
  refine {| system := served_system : World -> Z -> option Pump.Pump;
            resource := served_resource : World -> Z -> option Connection.ConnectionRes |}.
  - intros c w r w' e p Hc. unfold served_system. destruct (e =? 1); [|done]. intros [= <-].
    eexists. split; [reflexivity|]. destruct (served_cases c w r w' Hc) as [->|[Hn ->]]; [apply rtc_refl|].
    eapply Methods.accept_run_world. by apply stage_accepts.
  - intros c w r w' e p _. unfold served_system. by destruct (e =? 1).
  - by intros w e addr alpn conn w' [=].
  - intros [w n] ns e addr alpn conn w' [=].
  - intros [w n] e conn w'. simpl. unfold served_system, served_resource. simpl.
    destruct ((e =? 1) && (n <? 2)%nat) eqn:E; [|done]. intros [= <- <-].
    apply andb_true_iff in E as [-> Hn%Nat.ltb_lt]. eexists _, _, _. split; [reflexivity|].
    split; [by apply stage_accepts|]. split; [reflexivity|]. simpl. by rewrite (proj2 (Z.ltb_lt _ _)) by lia.
Defined.

(** A server that echoes two bytes. *)
Definition server_config : RunConfig :=
  MkRunConfig "http://r" Server None None None None false None None false None false false false false "".
Definition server_world : EchoWorld * nat := (MkEchoWorld [] [[Byte.x68; Byte.x69]] [] 0, 0%nat).

Definition server_start : @World api served_host * list Obs := (server_world, []).

Definition server_end : Run (Result RunReport string * ((EchoWorld * nat) * list Obs)) :=
  run (H := served_host) toy_dbg toy_hex toy_unhex toy_upper 5 server_config server_start.

Lemma server_hosted : hosted server_world.
Proof.
  intros e p Hs. assert (p = stage 0) as ->; [|exact Examples.v4_reached].
  change (served_system server_world e = Some p) in Hs. unfold served_system in Hs.
  destruct (e =? 1); [|discriminate Hs]. apply (inj Some) in Hs. symmetry. exact Hs.
Qed.

Lemma server_accepts :
  match server_end with
  | Done (_, w) => w.2 !! 12%nat = Some (obs (Api.Accept 1) (Ok 0))
  | _ => False
  end.
Proof. vm_compute. reflexivity. Qed.

(** The connection the server accepted is a peer's, authenticated. *)
Lemma demo_on_endpoint_witness :
  hosted server_world /\ exists r w' w2, server_end = Done (r, w') /\ admitted w2 1 0 /\
    exists t1, replay server_world (t1 ++ [obs (Api.Accept 1) (Ok 0)]) w2.
Proof.
  split; [exact server_hosted|]. pose proof server_accepts as Ha.
  destruct server_end as [[r w']| |] eqn:E; [|destruct Ha..].
  destruct (demo_on_endpoint (HL := Noq.Toy.handshake_laws) toy_dbg toy_hex toy_unhex toy_upper 5 server_config
    server_start r w' server_hosted E) as (t & Ht & _ & _ & _ & _ & Hacc & _).
  simpl in Ht. rewrite Ht in Ha. apply take_drop_middle in Ha.
  destruct (Hacc _ 1 0 _ (eq_sym Ha)) as (w2 & Hr & Had). exists r, w', w2.
  split; [reflexivity|]. split; [exact Had|]. exists (take 12 t). exact Hr.
Defined.
